(* ===== verification/_CoqProject ===== *)
-Q . S2P
Prelude.v
Machine.v
Support.v
File.v
MemoryFile.v
PosixFile.v
FileUtils.v
LineReader.v
OStream.v
TextStream.v
Lines.v
Logging.v
Varint.v
ConsumeInt.v
Utf.v
Win32File.v
HexDumper.v
Algorithm.v
Endian.v
SSTableBuilder.v
SSTable.v
Random.v
Rope.v
RopeHeap.v
HashFilter.v
HashFilterSize.v
HashFilterStats.v
EmbedData.v
GenerateEmbedData.v
Flags.v
Fibonacci.v
Keystore.v
IntervalSet.v
RpcWire.v
RpcClient.v
RpcServer.v
RpcExamples.v
FlatbuffersRpc.v
RpcLimits.v
RpcLifetime.v
RpcServerLifetime.v
NetTypes.v
HostPort.v
Connector.v
Icmp.v
TimerList.v
TimerListRun.v
TimerClient.v
IcmpClient.v
IcmpTimers.v
RateLimiter.v
RateLimiterQueue.v
BlockingResult.v
HttpClient.v
HttpClientTimers.v
HttpServer.v
HttpServerTimers.v
Hash.v
