(* ===== verification/Prelude.v ===== *)
(** * A verification library for the C++ monorepo under src/

    ** The program

    The repository is a set of small libraries.
    - base/ and util/: flags, logging, hex dumps, ropes, a cuckoo filter, varints, UTF
      conversion, integer parsing, embedded files (and tools/, their generator).
    - io/: an abstract file, a file in memory, the files of posix and win32, helpers
      that read and write completely, a line reader and an output stream over any file.
    - db/: a sorted string table, written by a builder to a file and read back
      through that file.
    - security/: keys (an AEAD of BoringSSL) and a keystore of fingerprints.
    - net/: an RPC protocol over datagrams (client and server, with typed
      messages on top), an HTTP client and server, an ICMP client, a list of timers,
      a rate limiter, sockets behind interfaces, addresses and their textual forms.
    The tables of db/ and the dumps, lines and streams run over an io::File; the
    RPC client and server seal their packets with the keys of security/ and find
    those of the peer in its keystore; the client retries with the waits of
    util/fibonacci-sequence; HostPort parses its port with util/strings; the ICMP
    client and the HTTP client and server leave their timeouts to the timer list; the
    generator of embedded files reads its flags from base/, reads files to their end
    and writes two output streams.

    ** Conventions

    A w-bit integer is a [Z], with the conversions of C++ written out ([uwrap],
    [swrap], [convert]); bytes, strings, spans and vectors are lists of [Z].
    A C++ call gives a [result]: [Ok], [Err] with the error code, [Crash] for
    undefined behaviour and uncaught exceptions, [Hang] for a loop that has not
    ended within its fuel.  A member function is an [ST] of its object's state:
    the outcome and the state that is left, on error paths too.  Memory accesses
    are [span_read] and [span_write], which crash outside the object.  An
    asynchronous component (RPC, HTTP, ICMP) returns the [action]s that it asks of asio
    and of user callbacks, and asio's completions are further calls; references
    of handlers to an operation are counted as intrusive_ptr counts them.

    Code that is not in the repository is a class with its documented laws, and a
    concrete instance on which the witnesses run:
    - [Endian.BoostEndian] (boost::endian), instance [boost_endian];
    - [Random.BitGen] (absl::InsecureBitGen), instance [lcg];
    - [Keystore.Aead] (BoringSSL), instance [toy_aead];
    - [IntervalSet.IntervalSet] (boost::icl), instance [interval_list];
    - [NetTypes.Text] (the text of asio addresses and absl::StrCat), instance
      [hex_forms];
    - [PosixFile.Posix] and [Win32File.Win32] (system calls, with their laws in
      [PosixFiles], [PromptFiles] and [Win32Files]), instances on [PosixFile.kernel]
      and [Win32File.kernel];
    - [GenerateEmbedData.CHexEscape] (absl), instance [every_byte], and [Directory],
      which is io::open and io::create;
    - [FlatbuffersRpc.Table] and [Parser] (the code of flatc and its parser), instance
      [bool_table];
    - [Connector.Sockets] with [SocketLaws] (asio sockets), instance [network];
    - [Flags.AbslFlags] (absl flags), used without laws;
    - [Hash.AbslHash] (the expansions of absl) and [HashState] (the state of its hash,
      without laws), instances [le_bytes] and [mixing_state];
    - [BlockingResult.IoContext] (io_context::run_one of asio), instance [queued].
    [File.File] is the interface io::File of the repository itself, and the
    classes [Reader], [ReliableReader], [Writer], [ReliableWriter] and
    [RandomAccess] are what its users rely on: their theorems are proved against
    these contracts, and MemoryFile.v discharges them.  In the same way
    [TimerClient.TimerClient] with [TimerClientLaws] is what a timer list asks of the
    components that own one.

    ** The files

    - Prelude: integers, outcomes, the two monads, memory, little-endian bytes,
      the tactics and the hint database [trunk].
    - File, MemoryFile, FileUtils, LineReader, OStream: io/file.h,
      io/memory-file.cc, io/file-utils.cc, io/line-reader.cc, io/stream.cc.
    - Machine: runs of components that are driven by events.
    - Support: base/types.h, util/pod.h, util/testing/clock.cc and net/testing/timer.h.
    - PosixFile, Win32File: io/posix/file.cc and io/win32/file.cc.
    - TextStream, Lines: what operator<< prints to an OStream, and its composition with
      LineReader.  Logging: base/logging.cc, with a terminal that shows what it prints.
    - Varint, ConsumeInt, Utf, HexDumper, Rope, HashFilter, EmbedData, Fibonacci:
      the files of util/ of those names (ConsumeInt is util/strings.cc).  RopeHeap is
      about the priorities of a rope, HashFilterSize about size(), HashFilterStats is
      util/hash-filter_stats.cc.
    - GenerateEmbedData, Flags: tools/embed/generate-embed-data.cc, and base/flags with
      the flags of that program.
    - Algorithm, Endian, Random, IntervalSet: string order and std::lower_bound,
      and the interfaces above.
    - SSTableBuilder, SSTable: the classes of db/sstable.cc, the iterator in
      SSTable.
    - Keystore: security/key.cc and security/keystore.cc.
    - RpcWire, RpcClient, RpcServer: net/rpc/wire-structs.h, client.cc and
      server.cc; RpcExamples holds concrete exchanges and RpcLimits what the
      protocol does not give.  RpcLifetime and RpcServerLifetime run the client
      and the server as state machines, destructors included.  FlatbuffersRpc is
      net/rpc/flatbuffers-handler.h, flatbuffers-request.h and util/flatbuffers.
    - NetTypes, HostPort: net/ip-encoding.cc, net/types/host.cc, addr-port.cc and
      host-port.cc; their accessors and flags, and net/asio-flags.cc, are in HostPort.
    - Connector, BlockingResult: net/system and the interfaces of net/types, and
      net/blocking-result.h.
    - Icmp, TimerList, TimerListRun, IcmpClient: the packets of net/icmp-client.cc,
      net/timer-list.h, its coroutine run, the operations of net/icmp-client.cc.
    - TimerClient: the interface of a component that owns a timer list (a class of
      operations and a class of laws) and what holds of every component that keeps it;
      IcmpTimers, HttpClientTimers and HttpServerTimers are its three instances, each
      client together with its list.
    - RateLimiter, RateLimiterQueue: net/rate-limiter.cc, how much it grants and in
      which order.
    - HttpClient, HttpServer: net/http/client.cc and net/http/server.cc.
    - Hash: net/asio-hash.h and the AbslHashValue of net/types, net/rpc and net/http.

    ** What the theorems show

    - Refinement.  A table that is built and loaded is the finite map of its
      entries ([SSTable.sstable_lookup]) and a walk visits them in order
      ([sstable_walk]), for blocks and entries up to the 16 MiB that the reader takes; a rope is a byte string under insert, erase and copy, with
      any priorities ([Rope.rope_refines_string]), and a treap while nodes come one at a
      time ([RopeHeap.rope_treap]), of a unique shape when its priorities are distinct; a
      timer list is a map from timers to deadlines with the waits of its asio timer, whose
      handlers fire exactly what is due at the end of their waits
      ([TimerList.timer_list_refines]), and it misses no wakeup
      ([timer_list_live]), and calls of its coroutine are cancelled once, at their
      deadline, or return what they awaited ([TimerListRun.timer_list_run]); the
      vector versions of find_two are the portable loop ([HashFilter.find_two_vector]).
    - The RPC protocol, for messages of up to 64 KiB.  Under loss, repetition and
      reordering of the packets a server invokes a handler at most once and with the request
      ([RpcServer.server_invokes_once]), a client reports only the response
      ([RpcClient.client_reassembles]); when all packets arrive, both do
      ([RpcServer.rpc_roundtrip]); without a response it sends again after
      waits that add up to the timeout, and then aborts ([client_retry_schedule]).  Under arbitrary packets and any order of
      completions the client runs every callback exactly once
      ([RpcLifetime.client_callbacks_once], [client_drains]), and the references
      of the server are exact ([RpcServerLifetime.server_references]).  Typed
      messages arrive as the objects that were sent ([typed_rpc_roundtrip]).
    - Resources.  The HTTP client runs every callback once ([http_callbacks_once]), the
      HTTP server keeps a connection exactly while something is pending on it
      ([http_server_connections]); posix files leak no descriptor
      ([posix_descriptors]), and a connector hands out exactly the sockets that it
      leaves open ([connector_sockets]).
    - Invariants and bounds.  The cuckoo filter answers exactly for the stored
      fingerprints ([hash_filter_exact], and [hash_filter_full] for an insert
      that fails) and counts them ([hash_filter_size]); the rate limiter grants no more than its rate
      ([rate_limiter_bound]), in order and all in the end ([rate_limiter_fifo]); the
      ICMP client runs each callback once ([icmp_callbacks_once]), and on its timer list it
      is a table of deadlines and waits that empties in the end
      ([IcmpTimers.icmp_requests_end]).
    - Liveness.  On their timer lists, the HTTP client answers every request in the end
      ([HttpClientTimers.http_requests_end]) and the HTTP server closes every connection
      that is idle ([HttpServerTimers.http_server_idle]), as long as no success is delivered
      to a connection that was closed ([HttpServer.timely]), which asio does not give: the
      server does not survive it ([http_server_queued_success],
      [http_server_late_answer]).
    - Exact results of dumps, parsers, encoders, readers and writers: hex dumps,
      varints, UTF-16, integers, hosts and ports, checksums, lines, streams,
      embedded files and the keystore.  The C++ text that the generator writes, read
      back, finds every file by its name ([generate_embed_data]); lines that are printed
      are the lines that are read ([lines_roundtrip]); hashes see what operator== compares,
      up to the scope of an address ([hash_values]); a text is that of a host and a port
      exactly when a grammar says so ([host_port_grammar]).
    - Limits.  Theorems whose comment describes a fault show where the code
      departs from what it means to do, for example an insertion beyond the end
      of a rope ([rope_insert_past_end]), varints of uint64_t
      ([varint_uint64_broken]), messages above 64 KiB ([rpc_nonce_reuse]), a
      second reply to a ping ([icmp_double_finish]) and a hex dump of width 0
      ([hex_dump_width_zero]).  [sstable_init_rejects] says which files are rejected and for
      which the size of the footer overflows; the hypotheses of the other theorems say
      where their boundary is.

    ** Fuel

    Loops that are not structural have fuel, and the theorems show that it is
    enough, so that [Hang] is excluded and not assumed away.
    - The loops over a file take the fuel from the caller; a read delivers at
      least one byte and a write accepts at least one, so the theorems ask only
      for more fuel than the bytes left.
    - [Rope.insert_fuel]: every call goes down in the tree or places bytes, so
      the nodes and the bytes bound the depth.
    - [SSTable.seek_fuel]: an iteration of seek ends at an offset inside a block,
      so more iterations than offsets would repeat a place.
    - [TimerList.handler]: one iteration per timer in the list, since the timers
      that a callback arms expire later than the wait that is handled.
    - [RateLimiter.update_loop] ends when no callback acquires again, with more
      fuel than requests; a callback that always acquires may keep it busy, and
      the bound holds then too.
    - [append_varint] needs one unit for each seven bits of the value; the loop of
      a negative value does not end.
    - [RpcClient.draw_fuel]: the loop that draws an unused request id ends with
      probability 1 and after no fixed number of rounds; 64 draws in use are
      taken for a loop that does not end.
    - [RpcClient.retries]: the waits grow like the Fibonacci numbers in an
      int, of which 46 are in range; the theorem shows that the run is over before.
    - [BlockingResult.run] depends on the io_context, which may never call the callback;
      its theorem says exactly when some fuel is enough.

    ** What is not modelled

    - net/asio.h: names of asio.  The other models take the spans of base/types.h as the
      lists of bytes that Support.v shows them to be.
    - net/types/resolver.h, an interface without an implementation.
    - What boost::beast does between the completions of net/http: messages are the
      lists of bytes that it delivers.
    - The key generator, which is a Python script, and the tests and benchmarks. *)

From stdpp Require Export base tactics list gmap numbers strings.
From Stdlib Require Export ZArith Lia.

#[export] Set Default Goal Selector "!".

Declare Scope trunk_scope.
Delimit Scope trunk_scope with trunk.
Global Open Scope trunk_scope.
Global Open Scope Z_scope.

(** ** Machine integers

    A w-bit integer is a [Z]; [uwrap] and [swrap] are the conversions of C++20
    to an unsigned and to a two's complement signed type of that width. *)

Definition uwrap (w : Z) (z : Z) : Z := z mod 2 ^ w.
Definition swrap (w : Z) (z : Z) : Z := (z + 2 ^ (w - 1)) mod 2 ^ w - 2 ^ (w - 1).

Definition in_u (w z : Z) : Prop := 0 ≤ z < 2 ^ w.
Definition in_s (w z : Z) : Prop := - 2 ^ (w - 1) ≤ z < 2 ^ (w - 1).

Abbreviation u8 := (uwrap 8).
Abbreviation u16 := (uwrap 16).
Abbreviation u32 := (uwrap 32).
Abbreviation u64 := (uwrap 64).
Abbreviation s32 := (swrap 32).
Abbreviation s64 := (swrap 64).

(** An integral template parameter T, and conversion to it. *)
Record int_type : Type := { width : Z; signed : bool }.

Definition int32 : int_type := {| width := 32; signed := true |}.
Definition uint32 : int_type := {| width := 32; signed := false |}.
Definition uint64 : int_type := {| width := 64; signed := false |}.

Definition convert (t : int_type) (z : Z) : Z :=
  if signed t then swrap (width t) z else uwrap (width t) z.

Definition in_range (t : int_type) (z : Z) : Prop :=
  if signed t then in_s (width t) z else in_u (width t) z.

(** The largest value of size_t, which the code uses as "unknown". *)
Definition size_max : Z := 2 ^ 64 - 1.

(** The size of a vector, span or string, as the [size_t] the code compares. *)
Definition zlen {A} (l : list A) : Z := Z.of_nat (length l).

(** ** Error codes and outcomes

    [std::error_code]: the values of [std::errc] the sources name, and the
    codes of the system category. *)

Inductive errc : Type :=
  | no_message
  | no_buffer_space
  | bad_message
  | no_message_available
  | invalid_argument
  | invalid_seek
  | timed_out
  | bad_address
  | operation_canceled
  | system_error (code : Z).

#[export] Instance errc_eq_dec : EqDecision errc.
Proof. solve_decision. Defined.

(** The outcome of running a C++ function. [Ok] is a normal return with an
    empty error code; [Err] is a return with a non-empty error code; [Crash]
    is undefined behaviour (an access outside an object, signed overflow, a
    dereferenced null pointer) or an exception that nothing catches; [Hang] is
    a loop or recursion that the given fuel did not finish. *)

Inductive result (A : Type) : Type :=
  | Ok (a : A)
  | Err (e : errc)
  | Crash
  | Hang.
Arguments Ok {A} a.
Arguments Err {A} e.
Arguments Crash {A}.
Arguments Hang {A}.

#[export] Instance result_eq_dec {A} `{EqDecision A} : EqDecision (result A).
Proof. solve_decision. Defined.

#[export] Instance result_ret : MRet result := λ A a, Ok a.
#[export] Instance result_bind : MBind result := λ A B f m,
  match m with
  | Ok a => f a
  | Err e => Err e
  | Crash => Crash
  | Hang => Hang
  end.
#[export] Instance result_fmap : FMap result := λ A B f m,
  match m with
  | Ok a => Ok (f a)
  | Err e => Err e
  | Crash => Crash
  | Hang => Hang
  end.

(** Stateful code: a function of the object's state that gives an outcome and
    the state it leaves behind, also on the error paths. *)

Definition ST (S A : Type) : Type := S → result A * S.

Definition st_ret {S A} (a : A) : ST S A := λ s, (Ok a, s).
Definition st_bind {S A B} (m : ST S A) (k : A → ST S B) : ST S B := λ s,
  match m s with
  | (Ok a, s') => k a s'
  | (Err e, s') => (Err e, s')
  | (Crash, s') => (Crash, s')
  | (Hang, s') => (Hang, s')
  end.

Notation "'let*' x := m 'in' k" := (st_bind m (λ x, k))
  (at level 10, x pattern, m at level 200, k at level 200,
   format "'[v' 'let*'  x  :=  m  'in' '/' k ']'") : trunk_scope.

Definition st_get {S} : ST S S := λ s, (Ok s, s).
Definition st_put {S} (s : S) : ST S unit := λ _, (Ok tt, s).
Definition st_modify {S} (f : S → S) : ST S unit := λ s, (Ok tt, f s).
Definition st_lift {S A} (r : result A) : ST S A := λ s, (r, s).
Definition throw {S A} (e : errc) : ST S A := λ s, (Err e, s).
Definition crash {S A} : ST S A := λ s, (Crash, s).

(** Runs an operation of a sub-object ([get] reads it, [set] stores it back). *)
Definition zoom {S T A} (get : S → T) (set : T → S → S) (m : ST T A) : ST S A :=
  λ s, let '(r, t) := m (get s) in (r, set t s).

(** ** Memory

    [span_read] is the bytes a view of [len] elements at [off] denotes, and
    [span_write] is a [memcpy] of [bs] to offset [off]; an access that leaves
    the object is a [Crash]. *)

Definition slice {A} (off len : Z) (l : list A) : list A :=
  take (Z.to_nat len) (drop (Z.to_nat off) l).

Definition splice {A} (off : Z) (bs l : list A) : list A :=
  take (Z.to_nat off) l ++ bs ++ drop (Z.to_nat off + length bs) l.

Definition span_read {A} (off len : Z) (l : list A) : result (list A) :=
  if (0 <=? off) && (0 <=? len) && (off + len <=? zlen l)
  then Ok (slice off len l) else Crash.

Definition span_write {A} (off : Z) (bs l : list A) : result (list A) :=
  if (0 <=? off) && (off + zlen bs <=? zlen l) then Ok (splice off bs l) else Crash.

(** [std::vector<uint8_t>::resize]: new elements are zero; a size above
    [max_size()] throws. *)
Definition vector_resize (n : Z) (l : list Z) : result (list Z) :=
  if (0 <=? n) && (n <? 2 ^ 63) then Ok (resize (Z.to_nat n) 0 l) else Crash.

(** Signed arithmetic that overflows is undefined. *)
Definition check_s (w z : Z) : result Z :=
  if (- 2 ^ (w - 1) <=? z) && (z <? 2 ^ (w - 1)) then Ok z else Crash.

(** ** Little-endian bytes

    The object representation of an n-byte unsigned integer on the targets of
    the repository (x86-64, arm64). *)

Fixpoint le_encode (n : nat) (z : Z) : list Z :=
  match n with
  | O => []
  | S n => z mod 256 :: le_encode n (z / 256)
  end.

Fixpoint le_decode (bs : list Z) : Z :=
  match bs with
  | [] => 0
  | b :: bs => b + 256 * le_decode bs
  end.

Definition is_byte (b : Z) : Prop := 0 ≤ b < 256.

#[export] Instance is_byte_dec b : Decision (is_byte b).
Proof. unfold is_byte. apply _. Defined.

(** ** Automation *)

Create HintDb trunk.
Create Rewrite HintDb trunk.

Ltac zlen_simpl :=
  unfold zlen in *;
  repeat (rewrite ?length_app, ?length_drop, ?length_take, ?length_replicate,
    ?length_resize, ?length_insert, ?length_fmap in * ); simpl length in *.

(** [split_if] splits on the first conditional of the goal or a hypothesis. *)
Ltac split_if :=
  match goal with
  | |- context [if ?b then _ else _] => destruct b eqn:?
  | H : context [if ?b then _ else _] |- _ => destruct b eqn:?
  end.

(** ** Rewriting under connectives *)

Lemma and_under (P Q R : Prop) : (P → Q ↔ R) → P ∧ Q ↔ P ∧ R.
Proof. tauto. Qed.

Lemma ex_under {A} (P Q : A → Prop) : (∀ x, P x ↔ Q x) → (∃ x, P x) ↔ (∃ x, Q x).
Proof. firstorder. Qed.

(** ** Running stateful code *)

Lemma st_bind_ok {S A B} (m : ST S A) (k : A → ST S B) s a s' :
  m s = (Ok a, s') → st_bind m k s = k a s'.
Proof. intros Hm. unfold st_bind. by rewrite Hm. Qed.

Lemma st_bind_err {S A B} (m : ST S A) (k : A → ST S B) s e s' :
  m s = (Err e, s') → st_bind m k s = (Err e, s').
Proof. intros Hm. unfold st_bind. by rewrite Hm. Qed.

Lemma st_bind_lift {S A B} (r : result A) (k : A → ST S B) s a :
  r = Ok a → st_bind (st_lift r) k s = k a s.
Proof. by intros ->. Qed.

Lemma st_bind_inv {S A B} (m : ST S A) (k : A → ST S B) s b s' :
  st_bind m k s = (Ok b, s') → ∃ a s1, m s = (Ok a, s1) ∧ k a s1 = (Ok b, s').
Proof. unfold st_bind. destruct (m s) as [[] s1]; naive_solver. Qed.

Lemma st_lift_inv {S A B} (r : result A) (k : A → ST S B) s b s' :
  st_bind (st_lift r) k s = (Ok b, s') → ∃ a, r = Ok a ∧ k a s = (Ok b, s').
Proof. unfold st_bind, st_lift. destruct r; naive_solver. Qed.

(** [st_inv H] names the intermediate results of a run that returned. *)
Ltac st_inv H :=
  cbv beta in H;
  match type of H with
  | st_bind st_get ?k ?s = ?r => change (k s s = r) in H; st_inv H
  | st_bind (st_put ?s) ?k _ = ?r => change (k tt s = r) in H; st_inv H
  | st_bind (st_modify ?f) ?k ?s = ?r => change (k tt (f s) = r) in H; st_inv H
  | st_bind (st_lift _) _ _ = _ =>
      let a := fresh "a" in let Ha := fresh "Ha" in
      apply st_lift_inv in H as (a & Ha & H); st_inv H
  | st_bind _ _ _ = (Ok _, _) =>
      let a := fresh "a" in let s := fresh "s" in let Hm := fresh "Hm" in
      apply st_bind_inv in H as (a & s & Hm & H); st_inv H
  | st_ret _ _ = _ => first [injection H as <- <- | injection H as <-]
  | st_put _ _ = _ => first [injection H as <- <- | injection H as <-]
  | _ => idtac
  end.

(** [st_lift_step tac] runs a pure computation that [tac] shows to succeed. *)
Ltac st_lift_step tac :=
  match goal with
  | |- context [st_bind (st_lift _) _ _] => erewrite st_bind_lift by tac
  end; cbv beta.

(** ** Lemmas on machine integers *)

Lemma uwrap_id w z : in_u w z → uwrap w z = z.
Proof. apply Z.mod_small. Qed.

Lemma uwrap_range w z : 0 ≤ w → in_u w (uwrap w z).
Proof. intros. apply Z.mod_pos_bound. lia. Qed.

Lemma swrap_id w z : 0 < w → in_s w z → swrap w z = z.
Proof.
  intros Hw [Hl Hr]. unfold swrap.
  assert (2 ^ w = 2 * 2 ^ (w - 1)) by (rewrite <- Z.pow_succ_r by lia; f_equal; lia).
  rewrite Z.mod_small; lia.
Qed.

Lemma u64_small z : 0 ≤ z < 2 ^ 64 → u64 z = z.
Proof. apply uwrap_id. Qed.

Lemma s64_small z : 0 ≤ z < 2 ^ 63 → s64 z = z.
Proof. intros. apply swrap_id; [lia|]. unfold in_s. simpl. lia. Qed.

Lemma swrap_range w z : 0 < w → in_s w (swrap w z).
Proof.
  intros Hw. unfold swrap, in_s.
  assert (2 ^ w = 2 * 2 ^ (w - 1)) by (rewrite <- Z.pow_succ_r by lia; f_equal; lia).
  assert (0 < 2 ^ (w - 1)) by (apply Z.pow_pos_nonneg; lia).
  pose proof (Z.mod_pos_bound (z + 2 ^ (w - 1)) (2 ^ w) ltac:(lia)). lia.
Qed.

Lemma swrap_uwrap w z : 0 < w → swrap w (uwrap w z) = swrap w z.
Proof.
  intros. unfold swrap, uwrap. f_equal. rewrite Zplus_mod_idemp_l. done.
Qed.

Lemma check_s_ok w z : in_s w z → check_s w z = Ok z.
Proof.
  intros [??]. unfold check_s.
  rewrite (proj2 (Z.leb_le _ _)), (proj2 (Z.ltb_lt _ _)) by lia. done.
Qed.

Lemma check_s_crash w z : ¬ in_s w z → check_s w z = Crash.
Proof.
  intros Hz. unfold check_s. destruct (_ && _) eqn:E; [|done]. destruct Hz.
  apply andb_prop in E as [E1 E2]. unfold in_s. lia.
Qed.

Lemma check_s_inv w z z' : check_s w z = Ok z' → z' = z ∧ in_s w z.
Proof.
  unfold check_s, in_s. split_if; [|done].
  intros [= <-]. apply andb_prop in Heqb as [?%Z.leb_le ?%Z.ltb_lt]. lia.
Qed.

Lemma convert_id t v : 0 < width t → in_range t v → convert t v = v.
Proof.
  unfold in_range, convert. intros ?. destruct (signed t); [by apply swrap_id|by apply uwrap_id].
Qed.

Lemma convert_uwrap t v : 0 < width t → convert t (uwrap (width t) v) = convert t v.
Proof.
  unfold convert. intros. destruct (signed t); [by apply swrap_uwrap|].
  unfold uwrap. by rewrite Z.mod_mod by lia.
Qed.

(** ** Lemmas on bit operations *)

Lemma land_low_bits a n m : 0 ≤ n → m = 2 ^ n - 1 → Z.land a m = a mod 2 ^ n.
Proof. intros ? ->. rewrite <- Z.land_ones by done. f_equal. by rewrite Z.ones_equiv, Z.sub_1_r. Qed.

(** Fields that do not overlap are combined by addition. *)
Lemma lor_shiftl_add a b n : 0 ≤ n → 0 ≤ a < 2 ^ n → Z.lor a (b ≪ n) = a + b * 2 ^ n.
Proof.
  intros Hn Ha. rewrite <- Z.shiftl_mul_pow2 by done. symmetry.
  apply Z.add_nocarry_lor. apply Z.bits_inj'. intros i Hi.
  rewrite Z.land_spec, Z.bits_0. destruct (Z.lt_ge_cases i n).
  - by rewrite Z.shiftl_spec_low, andb_false_r by done.
  - rewrite <- (Z.mod_small a (2 ^ n)), Z.mod_pow2_bits_high by lia. done.
Qed.

Lemma uwrap_lor w a b : 0 ≤ w → uwrap w (Z.lor a b) = Z.lor (uwrap w a) (uwrap w b).
Proof.
  intros. unfold uwrap. rewrite <- !Z.land_ones by done. apply Z.land_lor_distr_l.
Qed.

Lemma uwrap_swrap w v z : 0 < w ≤ v → uwrap w (swrap v z) = uwrap w z.
Proof.
  intros. unfold uwrap, swrap.
  assert (2 ^ v = 2 ^ w * 2 ^ (v - w)) as Hv by (rewrite <- Z.pow_add_r by lia; f_equal; lia).
  assert (0 < 2 ^ w) by (apply Z.pow_pos_nonneg; lia).
  assert (0 < 2 ^ (v - w)) by (apply Z.pow_pos_nonneg; lia).
  rewrite (Z.mod_eq (z + _) (2 ^ v)) by lia.
  replace (z + 2 ^ (v - 1) - 2 ^ v * ((z + 2 ^ (v - 1)) / 2 ^ v) - 2 ^ (v - 1))
    with (z + (- (2 ^ (v - w) * ((z + 2 ^ (v - 1)) / 2 ^ v))) * 2 ^ w) by nia.
  apply Z.mod_add. lia.
Qed.

(** ** Lemmas on little-endian bytes *)

Lemma le_encode_length n z : length (le_encode n z) = n.
Proof. revert z. induction n; intros; simpl; f_equal; auto. Qed.

Lemma le_encode_bytes n z : Forall is_byte (le_encode n z).
Proof.
  revert z. induction n; intros; simpl; constructor; auto.
  apply Z.mod_pos_bound. lia.
Qed.

Lemma pow256_succ n : 256 ^ Z.of_nat (S n) = 256 * 256 ^ Z.of_nat n.
Proof. rewrite Nat2Z.inj_succ, Z.pow_succ_r by lia. done. Qed.

Lemma le_decode_encode n z : le_decode (le_encode n z) = z mod 256 ^ Z.of_nat n.
Proof.
  revert z. induction n as [|n IH]; intros z.
  - simpl. by rewrite Z.mod_1_r.
  - cbn [le_encode le_decode]. rewrite IH, pow256_succ.
    rewrite (Z.rem_mul_r z 256) by (try apply Z.pow_pos_nonneg; lia). lia.
Qed.

Lemma le_decode_bound bs : Forall is_byte bs → 0 ≤ le_decode bs < 256 ^ zlen bs.
Proof.
  induction 1 as [|b bs Hb _ IH]; [done|].
  unfold zlen in *. simpl le_decode. simpl length. rewrite pow256_succ.
  unfold is_byte in Hb. nia.
Qed.

Lemma le_encode_decode bs :
  Forall is_byte bs → le_encode (length bs) (le_decode bs) = bs.
Proof.
  induction 1 as [|b bs Hb _ IH]; [done|]. unfold is_byte in Hb.
  cbn [le_encode le_decode length]. rewrite (Z.mul_comm 256).
  rewrite Z.mod_add, Z.div_add, Z.mod_small, Z.div_small, Z.add_0_l by lia.
  by rewrite IH.
Qed.

(** A decidable fact about every byte holds when it computes on all 256. *)
Lemma byte_forall (P : Z → Prop) `{!∀ b, Decision (P b)} :
  forallb (λ b, bool_decide (P b)) (seqZ 0 256) = true → ∀ b, is_byte b → P b.
Proof.
  intros HP b Hb. rewrite forallb_forall in HP. eapply bool_decide_eq_true_1, HP.
  apply list_elem_of_In, elem_of_seqZ. unfold is_byte in Hb. lia.
Qed.

Ltac byte_fact :=
  match goal with
  | |- ∀ b, is_byte b → @?P b => refine (byte_forall P _); vm_compute; reflexivity
  end.

(** ** Sums *)

Definition sum_over {A} (f : A → Z) (l : list A) : Z := foldr (λ x acc, f x + acc) 0 l.

Lemma sum_over_app {A} (f : A → Z) l k : sum_over f (l ++ k) = sum_over f l + sum_over f k.
Proof. induction l as [|x l IH]; simpl; lia. Qed.

Lemma sum_over_nonneg {A} (f : A → Z) l : Forall (λ x, 0 ≤ f x) l → 0 ≤ sum_over f l.
Proof. induction 1; simpl; lia. Qed.

#[export] Instance sum_over_proper {A} (f : A → Z) : Proper ((≡ₚ) ==> (=)) (sum_over f).
Proof. induction 1; simpl; lia. Qed.

(** The list without the first occurrence of [x]. *)
Fixpoint remove_one {A} `{EqDecision A} (x : A) (l : list A) : option (list A) :=
  match l with
  | [] => None
  | y :: l => if decide (x = y) then Some l else (y ::.) <$> remove_one x l
  end.

Lemma remove_one_perm {A} `{EqDecision A} (x : A) l l' :
  remove_one x l = Some l' → l ≡ₚ x :: l'.
Proof.
  revert l'. induction l as [|y l IH]; intros l' Hr; simpl in Hr; [done|].
  destruct (decide (x = y)) as [->|]; [by simplify_eq|].
  destruct (remove_one x l) as [l1|]; [|done]. simplify_eq/=. rewrite (IH l1) by done. constructor.
Qed.

Lemma remove_one_elem {A} `{EqDecision A} (x : A) l : x ∈ l → is_Some (remove_one x l).
Proof.
  induction l as [|y l IH]; intros Hx; [by apply not_elem_of_nil in Hx|]. simpl.
  destruct (decide (x = y)) as [|Hne]; [done|]. apply elem_of_cons in Hx as [|Hx]; [done|].
  destruct (IH Hx) as [l' ->]. done.
Qed.

Lemma remove_one_single {A} `{EqDecision A} (x : A) : remove_one x [x] = Some [].
Proof. simpl. by rewrite decide_True by done. Qed.

Lemma remove_one_second {A} `{EqDecision A} (x y : A) l :
  remove_one x (y :: x :: l) = Some (y :: l).
Proof.
  simpl. destruct (decide (x = y)) as [->|]; [done|]. by rewrite decide_True by done.
Qed.

(** ** The values of a map *)

Section map_values.
Context {K A : Type} `{Countable K}.
Implicit Types m : gmap K A.

Definition map_values m : list A := (map_to_list m).*2.

Lemma map_values_insert m k a : map_values (<[k := a]> m) ≡ₚ a :: map_values (delete k m).
Proof.
  unfold map_values. rewrite <- insert_delete_eq, map_to_list_insert by apply lookup_delete_eq. done.
Qed.

Lemma map_values_lookup m k a : m !! k = Some a → map_values m ≡ₚ a :: map_values (delete k m).
Proof. intros Hk. rewrite <- map_values_insert. by rewrite insert_id. Qed.

Lemma map_values_elem m a : a ∈ map_values m → ∃ k, m !! k = Some a.
Proof.
  unfold map_values. intros ([k a'] & -> & Hin)%list_elem_of_fmap. exists k. by apply elem_of_map_to_list.
Qed.

Lemma map_values_fmap (f : A → A) m : map_values (f <$> m) ≡ₚ f <$> map_values m.
Proof. unfold map_values. rewrite map_to_list_fmap, <- !list_fmap_compose. by apply reflexive_eq. Qed.
End map_values.

(** ** Lemmas on slices *)

Section lists.
Context {A : Type}.
Implicit Types l k : list A.

Lemma zlen_nonneg l : 0 ≤ zlen l.
Proof. unfold zlen. lia. Qed.

Lemma zlen_app l k : zlen (l ++ k) = zlen l + zlen k.
Proof. unfold zlen. rewrite length_app. lia. Qed.

Lemma zlen_cons (x : A) l : zlen (x :: l) = 1 + zlen l.
Proof. unfold zlen. simpl. lia. Qed.

Lemma zlen_nil : zlen (@nil A) = 0.
Proof. done. Qed.

Lemma zlen_resize n (x : A) l : zlen (resize n x l) = Z.of_nat n.
Proof. unfold zlen. by rewrite length_resize. Qed.

Lemma zlen_slice off len l :
  0 ≤ off → 0 ≤ len → off + len ≤ zlen l → zlen (slice off len l) = len.
Proof. unfold slice, zlen. rewrite length_take, length_drop. lia. Qed.

Lemma drop_suffix a l k : l = a ++ k → drop (Z.to_nat (zlen l - zlen k)) l = k.
Proof.
  intros ->. rewrite zlen_app, Z.add_simpl_r. unfold zlen.
  by rewrite Nat2Z.id, drop_app_length.
Qed.

Lemma slice_app_mid a l b :
  slice (zlen a) (zlen l) (a ++ l ++ b) = l.
Proof.
  unfold slice, zlen. rewrite !Nat2Z.id.
  by rewrite drop_app_length, take_app_length.
Qed.

Lemma slice_mid off len a l b :
  off = zlen a → len = zlen l → slice off len (a ++ l ++ b) = l.
Proof. intros -> ->. apply slice_app_mid. Qed.

Lemma slice_cons_inv off len (x : A) l k :
  0 ≤ off → 0 ≤ len → x :: l = slice off (1 + len) k →
  k !! Z.to_nat off = Some x ∧ l = slice (off + 1) len k.
Proof.
  unfold slice. intros ?? Hsl. destruct (drop (Z.to_nat off) k) as [|x' l'] eqn:E;
    [by rewrite take_nil in Hsl|].
  replace (Z.to_nat (1 + len)) with (S (Z.to_nat len)) in Hsl by lia.
  simpl in Hsl. injection Hsl as <- Hsl. split.
  - by rewrite <- (Nat.add_0_r (Z.to_nat off)), <- lookup_drop, E.
  - replace (Z.to_nat (off + 1)) with (Z.to_nat off + 1)%nat by lia.
    by rewrite <- drop_drop, E.
Qed.

Lemma slice_all off len l : off = 0 → len = zlen l → slice off len l = l.
Proof. intros -> ->. unfold slice, zlen. rewrite Nat2Z.id. by rewrite drop_0, firstn_all. Qed.

Lemma span_read_mid off len a l b :
  off = zlen a → len = zlen l → span_read off len (a ++ l ++ b) = Ok l.
Proof.
  intros Ho Hl. unfold span_read. rewrite slice_mid by done. subst.
  rewrite !zlen_app. pose proof (zlen_nonneg a). pose proof (zlen_nonneg l).
  pose proof (zlen_nonneg b).
  rewrite !(proj2 (Z.leb_le _ _)) by lia. done.
Qed.

Lemma span_read_inv off len l k :
  span_read off len l = Ok k →
  k = slice off len l ∧ 0 ≤ off ∧ 0 ≤ len ∧ off + len ≤ zlen l.
Proof.
  unfold span_read. split_if; [|done]. intros [= <-].
  apply andb_prop in Heqb as [[?%Z.leb_le ?%Z.leb_le]%andb_prop ?%Z.leb_le]. auto.
Qed.

Lemma splice_length off bs l :
  0 ≤ off → off + zlen bs ≤ zlen l → zlen (splice off bs l) = zlen l.
Proof.
  unfold splice, zlen. intros.
  rewrite !length_app, length_take, length_drop. lia.
Qed.

Lemma splice_mid off bs a l b :
  off = zlen a → length bs = length l → splice off bs (a ++ l ++ b) = a ++ bs ++ b.
Proof.
  intros -> Hl. unfold splice, zlen. rewrite Nat2Z.id, take_app_length, Hl.
  f_equal. f_equal. rewrite <- drop_drop, drop_app_length, drop_app_length. done.
Qed.

Lemma splice_lookup off bs l (p : nat) :
  0 ≤ off → off + zlen bs ≤ zlen l →
  splice off bs l !! p =
  if decide (off ≤ Z.of_nat p < off + zlen bs) then bs !! (p - Z.to_nat off)%nat else l !! p.
Proof.
  unfold splice, zlen. intros. case_decide.
  - rewrite lookup_app_r, lookup_app_l, length_take by (rewrite ?length_take; lia). f_equal. lia.
  - destruct (decide (Z.of_nat p < off)).
    + rewrite lookup_app_l, lookup_take_lt by (rewrite ?length_take; lia). done.
    + rewrite !lookup_app_r, lookup_drop, length_take by (rewrite ?length_take; lia).
      f_equal. lia.
Qed.

Lemma span_write_ok off bs l :
  0 ≤ off → off + zlen bs ≤ zlen l → span_write off bs l = Ok (splice off bs l).
Proof.
  intros. unfold span_write. rewrite !(proj2 (Z.leb_le _ _)) by lia. done.
Qed.
End lists.

#[export] Hint Rewrite @zlen_app @zlen_cons @zlen_nil : trunk.
#[export] Hint Resolve zlen_nonneg uwrap_id swrap_id check_s_ok le_encode_bytes : trunk.
