(* ===== verification/Machine.v ===== *)
(** * State machines of events

    An asynchronous component is a state with a step per event; a step returns
    the actions that the code asks of its environment.  [enabled] says which
    events the environment may produce in a state.  The rule of this file lifts
    what holds of every step to runs of any length. *)

From S2P Require Import Prelude.

Section machine.
Context {S E A : Type}.
Context (step : E → ST S (list A)) (enabled : S → E → Prop).

Fixpoint run_events (events : list E) : ST S (list A) :=
  match events with
  | [] => st_ret []
  | e :: events =>
      let* acts := step e in
      let* more := run_events events in
      st_ret (acts ++ more)
  end.

Fixpoint enabled_events (s : S) (events : list E) : Prop :=
  match events with
  | [] => True
  | e :: events => enabled s e ∧ enabled_events (snd (step e s)) events
  end.

(** Every enabled step runs without fault and keeps the invariant, and [P] relates
    the states at both ends of a run, its events and its actions. *)
Lemma run_events_ind (inv : S → Prop) (P : S → list E → list A → S → Prop) :
  (∀ s, inv s → P s [] [] s) →
  (∀ s e acts s1 events more s',
     inv s → step e s = (Ok acts, s1) → P s [e] acts s1 → inv s1 → P s1 events more s' →
     P s (e :: events) (acts ++ more) s') →
  (∀ s e, inv s → enabled s e →
     ∃ acts s', step e s = (Ok acts, s') ∧ inv s' ∧ P s [e] acts s') →
  ∀ events s, inv s → enabled_events s events →
    ∃ acts s', run_events events s = (Ok acts, s') ∧ inv s' ∧ P s events acts s'.
Proof.
  intros Hnil Hcons Hstep. induction events as [|e events IH]; intros s Hs Hrun.
  { exists [], s. auto. }
  destruct Hrun as [He Hrun]. destruct (Hstep s e Hs He) as (acts & s1 & H1 & Hs1 & HP1).
  rewrite H1 in Hrun. destruct (IH s1 Hs1 Hrun) as (more & s' & H2 & Hs' & HP2).
  exists (acts ++ more), s'. cbn [run_events]. unfold st_bind. rewrite H1, H2.
  split; [done|]. split; [done|]. by eapply Hcons.
Qed.

(** ** Conservation

    What a run puts out and what is left of it in the state are what was there and
    what came in. *)

Section conservation.
Context {X : Type} (came : E → list X) (out : list A → list X) (left_in : S → list X).
Context (inv : S → Prop).
Hypothesis out_app : ∀ l k, out (l ++ k) = out l ++ out k.
Hypothesis step_conserves : ∀ s e, inv s → enabled s e →
  ∃ acts s', step e s = (Ok acts, s') ∧ inv s' ∧ out acts ++ left_in s' ≡ₚ came e ++ left_in s.

Lemma run_conserves events s :
  inv s → enabled_events s events →
  ∃ acts s', run_events events s = (Ok acts, s') ∧ inv s' ∧
    out acts ++ left_in s' ≡ₚ concat (came <$> events) ++ left_in s.
Proof using out_app step_conserves.
  assert (out [] = []) as Hnil.
  { pose proof (out_app [] []) as H. simpl in H.
    apply (f_equal length) in H. rewrite length_app in H. apply nil_length_inv. lia. }
  apply (run_events_ind inv
    (λ s events acts s', out acts ++ left_in s' ≡ₚ concat (came <$> events) ++ left_in s)).
  - intros s' _. by rewrite Hnil.
  - intros s0 e acts s1 es more s' _ _ H1 _ H2. rewrite out_app. simpl in H1 |- *.
    rewrite app_nil_r in H1. rewrite <- (assoc_L (++) (out acts)), H2.
    rewrite (assoc_L (++)), (comm (++) (out acts)), <- !(assoc_L (++)), H1. solve_Permutation.
  - intros s0 e Hs He. destruct (step_conserves s0 e Hs He) as (acts & s' & ? & ? & ?).
    exists acts, s'. simpl. by rewrite app_nil_r.
Qed.
End conservation.
End machine.
