(* ===== verification/Support.v ===== *)
(** * base/types.h, util/pod.h and util/testing/clock.cc

    The views of buffers, the raw storage of an object and the clock of the tests.

    A [Memory] holds the bytes of the containers that exist, known by numbers that stand for
    their storage; a [Span] is a pointer into one of them and a size, which is what both
    BufferSpan and ConstBufferSpan are.  Reading or writing outside of the storage, or after
    the container is gone, is a [Crash]. *)

From S2P Require Import Prelude.

Module Buffers.
Abbreviation Memory := (gmap Z (list Z)).

(** absl::Span, the base of BufferSpan and ConstBufferSpan *)
Record Span : Type := { storage : Z; data : Z; size : Z }.

(** BufferSpan(void *, size_t), ConstBufferSpan(const void *, size_t) *)
Definition from_pointer (p data size : Z) : Span := {| storage := p; data := data; size := size |}.

(** From a std::vector, a std::string or a std::string_view of the whole of [p] *)
Definition from_container (p : Z) (mem : Memory) : result Span :=
  match mem !! p with
  | Some bs => Ok (from_pointer p 0 (zlen bs))
  | None => Crash
  end.

(** From a std::array of N bytes or characters *)
Definition from_array (p N : Z) : Span := from_pointer p 0 N.

(** The length of the string that starts at a pointer *)
Fixpoint strlen (bs : list Z) : result Z :=
  match bs with
  | [] => Crash
  | b :: bs => if b =? 0 then Ok 0 else match strlen bs with Ok n => Ok (n + 1) | _ => Crash end
  end.

(** ConstBufferSpan(const char * ) *)
Definition from_c_string (p off : Z) (mem : Memory) : result Span :=
  match mem !! p with
  | Some bs =>
      match strlen (drop (Z.to_nat off) bs) with
      | Ok n => Ok (from_pointer p off n)
      | _ => Crash
      end
  | None => Crash
  end.

(** operator std::string_view, and the bytes that are read through it *)
Definition string_view (s : Span) (mem : Memory) : result (list Z) :=
  match mem !! storage s with
  | Some bs => span_read (data s) (size s) bs
  | None => Crash
  end.

(** Writing the byte [i] of a BufferSpan *)
Definition set_byte (s : Span) (i b : Z) (mem : Memory) : result Memory :=
  match mem !! storage s with
  | Some bs =>
      if (0 <=? i) && (i <? size s) then
        match span_write (data s + i) [b] bs with
        | Ok bs' => Ok (<[storage s := bs']> mem)
        | _ => Crash
        end
      else Crash
  | None => Crash
  end.

(** ** What the views show *)

Lemma string_view_ok mem p bs pre text post :
  mem !! p = Some bs → bs = pre ++ text ++ post →
  string_view (from_pointer p (zlen pre) (zlen text)) mem = Ok text.
Proof.
  intros Hp ->. unfold string_view. simpl. rewrite Hp. unfold span_read, slice.
  rewrite !zlen_app. pose proof (zlen_nonneg pre). pose proof (zlen_nonneg text). pose proof (zlen_nonneg post).
  rewrite !(proj2 (Z.leb_le _ _)) by lia. simpl. unfold zlen. by rewrite !Nat2Z.id, drop_app_length, take_app_length.
Qed.

Lemma strlen_text text rest : 0 ∉ text → strlen (text ++ 0 :: rest) = Ok (zlen text).
Proof.
  induction text as [|b text IH]; intros H; [done|]. apply not_elem_of_cons in H as [Hb Ht]. simpl.
  rewrite (proj2 (Z.eqb_neq b 0)), IH by done. f_equal. rewrite zlen_cons. lia.
Qed.

Lemma strlen_unterminated bs : 0 ∉ bs → strlen bs = Crash.
Proof.
  induction bs as [|b bs IH]; intros H; [done|]. apply not_elem_of_cons in H as [Hb Ht]. simpl.
  by rewrite (proj2 (Z.eqb_neq b 0)), IH.
Qed.

(** A span of a whole container shows its bytes, zeros included, as does one of an array of
    characters; a span of a C string shows the text up to the first zero, and there is none
    for a text without one. *)
Theorem span_views mem p bs :
  mem !! p = Some bs →
  (∃ s, from_container p mem = Ok s ∧ string_view s mem = Ok bs) ∧
  string_view (from_array p (zlen bs)) mem = Ok bs ∧
  (∀ pre text rest, bs = pre ++ text ++ 0 :: rest → 0 ∉ text →
     ∃ s, from_c_string p (zlen pre) mem = Ok s ∧ string_view s mem = Ok text) ∧
  (∀ off, 0 ∉ drop (Z.to_nat off) bs → from_c_string p off mem = Crash).
Proof.
  intros Hp. assert (bs = [] ++ bs ++ []) as Hbs by by rewrite app_nil_r.
  pose proof (string_view_ok _ _ _ _ _ _ Hp Hbs) as Hall. unfold from_container, from_c_string. rewrite Hp. split_and!.
  - eauto.
  - exact Hall.
  - intros pre text rest -> Ht. unfold zlen at 1. rewrite Nat2Z.id, drop_app_length, strlen_text by done.
    eexists. split; [done|]. by eapply string_view_ok.
  - intros off Hoff. by rewrite strlen_unterminated.
Qed.

(** A byte that is written through a BufferSpan is seen through every view of the same
    storage, at its own place only, and nothing else changes. *)
Theorem span_write_shared mem s i b bs :
  mem !! storage s = Some bs → 0 ≤ data s → data s + size s ≤ zlen bs → 0 ≤ i < size s →
  ∃ mem', set_byte s i b mem = Ok mem' ∧
    (∀ p, p ≠ storage s → mem' !! p = mem !! p) ∧
    ∃ bs', mem' !! storage s = Some bs' ∧ zlen bs' = zlen bs ∧
      ∀ k : nat, bs' !! k = if decide (Z.of_nat k = data s + i) then Some b else bs !! k.
Proof.
  intros Hs Hd Hz Hi. unfold set_byte. rewrite Hs, (proj2 (Z.leb_le _ _)), (proj2 (Z.ltb_lt _ _)) by lia. simpl.
  assert (data s + i + zlen [b] ≤ zlen bs) as Hin by (change (zlen [b]) with 1; lia).
  rewrite span_write_ok by lia. eexists. split; [done|]. split; [intros; by rewrite lookup_insert_ne|].
  eexists. split; [apply lookup_insert_eq|]. split; [apply splice_length; lia|]. intros k.
  rewrite splice_lookup by lia. change (zlen [b]) with 1. destruct (decide (Z.of_nat k = data s + i)) as [Hk|Hk].
  - rewrite decide_True by lia. replace (k - Z.to_nat (data s + i))%nat with 0%nat by lia. done.
  - by rewrite decide_False by lia.
Qed.
End Buffers.

Module Pod.
Section pod.
Context {T : Type}.

(** The object in the storage, and how often its constructor and destructor ran *)
Record Pod : Type := { object : option T; constructed : Z; destroyed : Z }.

Definition make : Pod := {| object := None; constructed := 0; destroyed := 0 |}.

(** Pod::emplace; an object that is still there is not destroyed. *)
Definition emplace (x : T) : ST Pod unit :=
  st_modify (λ p, {| object := Some x; constructed := constructed p + 1; destroyed := destroyed p |}).

(** Pod::destroy *)
Definition destroy : ST Pod unit :=
  let* p := st_get in
  match object p with
  | None => crash
  | Some _ => st_put {| object := None; constructed := constructed p; destroyed := destroyed p + 1 |}
  end.

(** Pod::get, Pod::operator-> *)
Definition get : ST Pod T :=
  let* p := st_get in
  match object p with None => crash | Some x => st_ret x end.

Inductive call : Type := Emplace (x : T) | Destroy.

Definition exec (c : call) : ST Pod unit := match c with Emplace x => emplace x | Destroy => destroy end.

Fixpoint run (cs : list call) : ST Pod unit :=
  match cs with
  | [] => st_ret tt
  | c :: cs => let* _ := exec c in run cs
  end.

(** What the storage holds after the calls: the last object, unless it was destroyed *)
Fixpoint holds (o : option T) (cs : list call) : option (option T) :=
  match cs with
  | [] => Some o
  | Emplace x :: cs => holds (Some x) cs
  | Destroy :: cs => match o with Some _ => holds None cs | None => None end
  end.

Definition count (f : call → bool) (cs : list call) : Z := sum_over (λ c, if f c then 1 else 0) cs.

Definition is_emplace (c : call) : bool := if c is Emplace _ then true else false.

Lemma pod_run cs p :
  match holds (object p) cs with
  | Some o => run cs p = (Ok tt, {| object := o; constructed := constructed p + count is_emplace cs;
                                    destroyed := destroyed p + count (negb ∘ is_emplace) cs |})
  | None => (run cs p).1 = Crash
  end.
Proof.
  revert p. induction cs as [|[x|] cs IH]; intros [o n d]; simpl.
  - f_equal. f_equal; unfold count; simpl; lia.
  - specialize (IH {| object := Some x; constructed := n + 1; destroyed := d |}). simpl in IH.
    unfold st_bind, emplace, st_modify. simpl. destruct (holds (Some x) cs) as [o'|]; [|done].
    rewrite IH. unfold count. simpl. do 2 f_equal; lia.
  - destruct o as [y|]; [|done].
    specialize (IH {| object := None; constructed := n; destroyed := d + 1 |}). simpl in IH.
    unfold st_bind, destroy, st_get, st_put. simpl. destruct (holds None cs) as [o'|]; [|done].
    rewrite IH. unfold count. simpl. do 2 f_equal; lia.
Qed.

Lemma pod_get o n d :
  get {| object := o; constructed := n; destroyed := d |} =
  (match o with Some x => Ok x | None => Crash end, {| object := o; constructed := n; destroyed := d |}).
Proof. by destruct o. Qed.

(** The calls are without fault exactly when every destroy finds an object, then get returns
    the last one that was emplaced; constructors and destructors run once per call, so an
    object that is emplaced over leaks. *)
Theorem pod_lifetime cs :
  match holds None cs with
  | Some o => ∃ p, run cs make = (Ok tt, p) ∧
      (get p).1 = (match o with Some x => Ok x | None => Crash end) ∧
      constructed p = count is_emplace cs ∧ destroyed p = count (negb ∘ is_emplace) cs
  | None => (run cs make).1 = Crash
  end.
Proof.
  pose proof (pod_run cs make) as H. simpl in H. destruct (holds None cs) as [o|]; [|done].
  eexists. split; [exact H|]. by rewrite pod_get.
Qed.
End pod.
End Pod.

Module MockClock.
(** time_point::min() *)
Definition min_time : Z := - 2 ^ 63.

(** The state is mock_time. *)
Definition now : ST Z Z := st_get.
Definition reset : ST Z unit := st_put min_time.
Definition set (time : Z) : ST Z unit := st_put time.

(** MockClock::advance; signed overflow is undefined. *)
Definition advance (duration : Z) : ST Z unit :=
  let* t := st_get in
  let* t' := st_lift (check_s 64 (t + duration)) in
  st_put t'.

Fixpoint advance_all (ds : list Z) : ST Z Z :=
  match ds with
  | [] => now
  | d :: ds => let* _ := advance d in advance_all ds
  end.

(** BasicPollingWaitTraits::to_wait_duration: a test timer polls. *)
Definition to_wait_duration (expiry : Z) : Z := 0.

(** Steps that do not go back and end within the range of the clock add up; a step back from
    the time that reset sets is an overflow. *)
Theorem mock_clock ds t :
  (Forall (λ d, 0 ≤ d) ds → min_time ≤ t → t + sum_over id ds < 2 ^ 63 →
   advance_all ds t = (Ok (t + sum_over id ds), t + sum_over id ds)) ∧
  (∀ d, d < 0 → ((let* _ := reset in advance d) t).1 = Crash).
Proof.
  split.
  - intros Hds. revert t. induction Hds as [|d ds Hd Hds IH]; intros t Hmin Hmax; simpl in *.
    { unfold now, st_get. by rewrite Z.add_0_r. }
    assert (0 ≤ sum_over id ds) as Hsum.
    { by apply sum_over_nonneg. }
    change (id d) with d in Hmax |- *. unfold advance. unfold st_bind at 1, st_bind at 1, st_get.
    assert (in_s 64 (t + d)) as Hin by (unfold in_s, min_time in *; change (64 - 1) with 63; lia).
    unfold st_bind, st_lift, st_put. rewrite (check_s_ok _ _ Hin), IH by (unfold min_time in *; lia).
    by rewrite (Z.add_assoc t d).
  - intros d Hd. unfold reset, advance, st_bind, st_put, st_get, st_lift.
    unfold check_s. rewrite (proj2 (Z.leb_gt _ _)); [done|]. unfold min_time. change (64 - 1) with 63. lia.
Qed.
End MockClock.
