(* ===== verification/File.v ===== *)
(** * The file interface (io/file.h) and what its users rely on

    [File] is the abstract class io::File as a class of operations on a file
    object's state.  A read or pread into a buffer of [n] bytes returns the
    bytes it stored at the front of the buffer, whose number is the [size] out
    parameter; write and pwrite return that [size].

    The contracts below are what the clients in io/, util/ and db/ are proved
    against: [Reader] and [Writer] for sequential access, in which a call may
    transfer fewer bytes than asked for and may fail, [ReliableReader] and
    [ReliableWriter] when no call fails, and [RandomAccess] for a file that is
    appended to and then read by position.  MemoryFile.v discharges them. *)

From S2P Require Import Prelude.

Class File (F : Type) : Type := {
  read : Z → ST F (list Z);
  write : list Z → ST F Z;
  pread : Z → Z → ST F (list Z);
  pwrite : Z → list Z → ST F Z;
  seek : Z → ST F unit;
  tell : ST F Z;
  size : ST F Z;
}.

(** ** Sequential reading

    [pending f] is what reading to the end would give. *)

Class Reader (F : Type) `{!File F} : Type := {
  valid_reader : F → Prop;
  pending : F → list Z;
  read_ok n f bs f' : valid_reader f → in_u 63 n →
    read n f = (Ok bs, f') →
    valid_reader f' ∧ pending f = bs ++ pending f' ∧ zlen bs ≤ n ∧
    (0 < n → bs = [] → pending f = []);
  read_err n f e f' : valid_reader f → in_u 63 n →
    read n f = (Err e, f') → valid_reader f' ∧ pending f' = pending f;
}.

Class ReliableReader (F : Type) `{!File F, !Reader F} : Prop := {
  read_succeeds n f : valid_reader f → in_u 63 n → ∃ bs f', read n f = (Ok bs, f');
}.

(** ** Sequential writing

    [written f] is the bytes of the file up to its position. *)

Class Writer (F : Type) `{!File F} : Type := {
  valid_writer : F → Prop;
  written : F → list Z;
  write_ok bs f n f' : valid_writer f →
    write bs f = (Ok n, f') →
    valid_writer f' ∧ 0 ≤ n ≤ zlen bs ∧
    written f' = written f ++ take (Z.to_nat n) bs;
  write_err bs f e f' : valid_writer f →
    write bs f = (Err e, f') → valid_writer f' ∧ written f' = written f;
}.

(** [room f] is a number of bytes that the file can still take; a write of a
    non-empty buffer that fits makes progress. *)
Class ReliableWriter (F : Type) `{!File F, !Writer F} : Type := {
  room : F → Z;
  write_succeeds bs f : valid_writer f → zlen bs ≤ room f →
    ∃ n f', write bs f = (Ok n, f') ∧ (bs ≠ [] → 0 < n) ∧ room f' = room f - n;
}.

(** ** Append, then read by position

    The position is the end of the file, whose bytes are [content f]; another
    [append_room f] bytes can be appended. *)

Class RandomAccess (F : Type) `{!File F} : Type := {
  valid_random : F → Prop;
  content : F → list Z;
  append_room : F → Z;
  content_bound f : valid_random f → in_u 63 (zlen (content f));
  write_appends bs f : valid_random f → zlen bs ≤ append_room f →
    ∃ f', write bs f = (Ok (zlen bs), f') ∧ valid_random f' ∧
          content f' = content f ++ bs ∧ append_room f' = append_room f - zlen bs;
  pread_slice pos n f : valid_random f →
    0 ≤ pos → 0 ≤ n → pos + n ≤ zlen (content f) →
    pread pos n f = (Ok (slice pos n (content f)), f);
  size_content f : valid_random f → size f = (Ok (zlen (content f)), f);
}.
