(* ===== verification/MemoryFile.v ===== *)
(** * io/memory-file: a file held in a byte vector

    The state is the content vector and the position; every operation of
    io::MemoryFile is a definition with the size_t arithmetic of the source
    kept modulo 2^64.  The theorems give the functional behaviour of the
    positional operations and show that a memory file meets the contracts of
    File.v. *)

From S2P Require Import Prelude File.

Record MemoryFile : Type := { content_ : list Z; position_ : Z }.

Definition set_position (p : Z) (f : MemoryFile) : MemoryFile :=
  {| content_ := content_ f; position_ := p |}.

(** MemoryFile() and MemoryFile(std::vector<uint8_t>) *)
Definition make (content : list Z) : MemoryFile :=
  {| content_ := content; position_ := 0 |}.

(** MemoryFile::read *)
Definition read (n : Z) : ST MemoryFile (list Z) := λ f,
  if zlen (content_ f) <=? position_ f then (Ok [], f)
  else
    let last := Z.min (u64 (position_ f + n)) (zlen (content_ f)) in
    match span_read (position_ f) (last - position_ f) (content_ f) with
    | Ok bs => (Ok bs, set_position last f)
    | _ => (Crash, f)
    end.

(** The resize and copy_n that write and pwrite share. *)
Definition store (position last : Z) (bs content : list Z) : result (list Z) :=
  content ← (if zlen content <? last then vector_resize last content else Ok content);
  span_write position bs content.

(** MemoryFile::write *)
Definition write (bs : list Z) : ST MemoryFile Z := λ f,
  let last := u64 (position_ f + zlen bs) in
  match store (position_ f) last bs (content_ f) with
  | Ok content =>
      (Ok (zlen bs),
       {| content_ := content; position_ := u64 (position_ f + zlen bs) |})
  | _ => (Crash, f)
  end.

(** MemoryFile::pread *)
Definition pread (position n : Z) : ST MemoryFile (list Z) := λ f,
  if position <? 0 then (Err invalid_argument, f)
  else if zlen (content_ f) <=? u64 position then (Ok [], f)
  else
    let last := Z.min (u64 (position + n)) (zlen (content_ f)) in
    match span_read position (last - position) (content_ f) with
    | Ok bs => (Ok bs, f)
    | _ => (Crash, f)
    end.

(** MemoryFile::pwrite *)
Definition pwrite (position : Z) (bs : list Z) : ST MemoryFile Z := λ f,
  if position <? 0 then (Err invalid_argument, f)
  else
    let last := u64 (position + zlen bs) in
    match store position last bs (content_ f) with
    | Ok content =>
        (Ok (zlen bs), {| content_ := content; position_ := position_ f |})
    | _ => (Crash, f)
    end.

(** MemoryFile::seek *)
Definition seek (position : Z) : ST MemoryFile unit := λ f,
  if position <? 0 then (Err invalid_seek, f) else (Ok tt, set_position position f).

(** MemoryFile::tell *)
Definition tell : ST MemoryFile Z := λ f, (Ok (s64 (position_ f)), f).

(** MemoryFile::size *)
Definition size : ST MemoryFile Z := λ f, (Ok (s64 (zlen (content_ f))), f).

#[export] Instance memory_file : File MemoryFile := {
  File.read := read;
  File.write := write;
  File.pread := pread;
  File.pwrite := pwrite;
  File.seek := seek;
  File.tell := tell;
  File.size := size;
}.

(** ** Well-formed states: the content fits in memory and the position is one
    that seek, read or write can leave. *)

Definition wf (f : MemoryFile) : Prop :=
  in_u 63 (zlen (content_ f)) ∧ in_u 63 (position_ f).

(** What a store of [bs] at [position] makes of a content: the gap between the
    old end and the position is filled with zeros. *)
Definition overwrite (position : Z) (bs content : list Z) : list Z :=
  resize (Z.to_nat position) 0 content ++ bs ++
  drop (Z.to_nat position + length bs) content.

Lemma store_ok position bs content :
  0 ≤ position → position + zlen bs < 2 ^ 63 →
  store position (u64 (position + zlen bs)) bs content =
  Ok (overwrite position bs content).
Proof.
  intros Hp Hl. pose proof (zlen_nonneg bs). unfold store.
  rewrite u64_small by lia.
  destruct (Z.ltb_spec (zlen content) (position + zlen bs)) as [Hlt|Hge].
  - unfold vector_resize. rewrite (proj2 (Z.leb_le _ _)), (proj2 (Z.ltb_lt _ _)) by lia.
    simpl. rewrite span_write_ok; unfold zlen; rewrite ?length_resize;
      [|unfold zlen in *; lia..].
    f_equal. unfold splice, overwrite. f_equal.
    + rewrite resize_spec, take_app, take_take, length_take, take_replicate.
      rewrite resize_spec. f_equal; f_equal; unfold zlen in *; lia.
    + f_equal. rewrite !drop_ge; rewrite ?length_resize; unfold zlen in *; try done; lia.
  - simpl. rewrite span_write_ok by lia. f_equal. unfold splice, overwrite.
    f_equal. rewrite resize_le; [done|]. unfold zlen in *; lia.
Qed.

Lemma write_store bs f :
  0 ≤ position_ f → position_ f + zlen bs < 2 ^ 63 →
  write bs f =
  (Ok (zlen bs), {| content_ := overwrite (position_ f) bs (content_ f);
                    position_ := position_ f + zlen bs |}).
Proof.
  intros. unfold write. rewrite store_ok by done.
  rewrite u64_small by (pose proof (zlen_nonneg bs); lia). done.
Qed.

Lemma read_slice n f :
  wf f → in_u 63 n →
  read n f =
  (Ok (slice (position_ f) (Z.min n (zlen (content_ f) - position_ f)) (content_ f)),
   set_position (Z.max (position_ f) (Z.min (position_ f + n) (zlen (content_ f)))) f).
Proof.
  intros [[? Hc] [??]] [??]. unfold read.
  destruct (Z.leb_spec (zlen (content_ f)) (position_ f)) as [Hle|Hlt].
  - f_equal.
    + f_equal. unfold slice, zlen in *. rewrite drop_ge by lia. by rewrite take_nil.
    + rewrite Z.max_l by lia. by destruct f.
  - rewrite u64_small by lia. unfold span_read.
    rewrite !(proj2 (Z.leb_le _ _)) by lia. simpl.
    f_equal; [f_equal; f_equal; lia|]. f_equal. lia.
Qed.

Lemma overwrite_resize position bs content :
  0 ≤ position →
  resize (Z.to_nat (position + zlen bs)) 0 (overwrite position bs content) =
  resize (Z.to_nat position) 0 content ++ bs.
Proof.
  intros. unfold overwrite, zlen. rewrite (assoc_L (++)).
  apply resize_app. rewrite length_app, length_resize. lia.
Qed.

Lemma overwrite_length position bs content :
  0 ≤ position →
  zlen (overwrite position bs content) = Z.max (position + zlen bs) (zlen content).
Proof.
  intros. unfold overwrite, zlen.
  rewrite !length_app, length_resize, length_drop. lia.
Qed.

Lemma overwrite_end bs content : overwrite (zlen content) bs content = content ++ bs.
Proof.
  unfold overwrite, zlen. rewrite Nat2Z.id, resize_all, drop_ge by lia.
  by rewrite app_nil_r.
Qed.

(** A write that returns did not leave the address space. *)
Lemma write_inv bs f n f' :
  wf f → write bs f = (Ok n, f') → position_ f + zlen bs < 2 ^ 63.
Proof.
  intros [[? Hc] [? Hp]] Hw. destruct (Z.lt_ge_cases (position_ f + zlen bs) (2 ^ 63)) as [|Hge];
    [done|exfalso]. unfold write, store in Hw.
  destruct (Z.ltb_spec (zlen (content_ f)) (u64 (position_ f + zlen bs))) as [Hlt|Hle].
  - unfold vector_resize in Hw.
    destruct ((0 <=? u64 (position_ f + zlen bs)) && (u64 (position_ f + zlen bs) <? 2 ^ 63))
      eqn:E; [|done].
    apply andb_prop in E as [E0%Z.leb_le E%Z.ltb_lt]. simpl in Hw.
    unfold span_write in Hw. split_if; [|done].
    apply andb_prop in Heqb as [_ E2%Z.leb_le].
    rewrite zlen_resize, Z2Nat.id in E2 by done. lia.
  - simpl in Hw. unfold span_write in Hw. split_if; [|done].
    apply andb_prop in Heqb as [_ E2%Z.leb_le]. lia.
Qed.

(** ** The contracts *)

#[export] Program Instance memory_reader : Reader MemoryFile := {
  valid_reader := wf;
  pending f := drop (Z.to_nat (position_ f)) (content_ f);
}.
Next Obligation.
  intros n f bs f' Hwf Hn Hr. rewrite read_slice in Hr by done.
  injection Hr as <- <-. destruct Hwf as [[? Hc] [? Hp]], Hn as [? Hn].
  repeat split; simpl; [lia..| | |].
  - unfold slice. rewrite <- (take_drop (Z.to_nat (Z.min n (zlen (content_ f) - position_ f)))
      (drop (Z.to_nat (position_ f)) (content_ f))) at 1. f_equal.
    rewrite drop_drop. destruct (Z.le_gt_cases (zlen (content_ f)) (position_ f)).
    + rewrite !drop_ge; unfold zlen in *; try done; lia.
    + f_equal. lia.
  - unfold slice, zlen. rewrite length_take, length_drop. lia.
  - intros Hpos Hnil%(f_equal length). unfold slice in Hnil.
    rewrite length_take, length_drop in Hnil. simpl in Hnil.
    apply drop_ge. unfold zlen in *. lia.
Qed.
Next Obligation. intros n f e f' ? Hn Hr. by rewrite read_slice in Hr. Qed.

#[export] Instance memory_reliable_reader : ReliableReader MemoryFile.
Proof. constructor. intros n f ??. simpl. rewrite read_slice by done. eauto. Qed.

#[export] Program Instance memory_writer : Writer MemoryFile := {
  valid_writer := wf;
  written f := resize (Z.to_nat (position_ f)) 0 (content_ f);
}.
Next Obligation.
  intros bs f n f' Hwf Hw. pose proof (write_inv _ _ _ _ Hwf Hw) as Hb.
  destruct Hwf as [[? Hc] [? Hp]]. pose proof (zlen_nonneg bs).
  rewrite write_store in Hw by done. injection Hw as <- <-. simpl. split; [|split; [lia|]].
  - split; split; simpl; rewrite ?overwrite_length by done; lia.
  - rewrite overwrite_resize by done. f_equal. unfold zlen.
    by rewrite Nat2Z.id, firstn_all.
Qed.
Next Obligation.
  intros bs f e f' Hwf Hw. simpl in Hw. unfold write in Hw. by destruct (store _ _ _ _).
Qed.

#[export] Program Instance memory_reliable_writer : ReliableWriter MemoryFile := {
  room f := 2 ^ 63 - 1 - position_ f;
}.
Next Obligation.
  intros bs f [_ [? _]] Hroom. simpl in *. rewrite write_store by lia.
  eexists _, _. split; [done|]. simpl. split; [|lia].
  destruct bs; [done|]. unfold zlen. simpl. lia.
Qed.

#[export] Program Instance memory_random : RandomAccess MemoryFile := {
  valid_random f := wf f ∧ position_ f = zlen (content_ f);
  content := content_;
  append_room f := 2 ^ 63 - 1 - zlen (content_ f);
}.
Next Obligation. by intros f [[Hc _] _]. Qed.
Next Obligation.
  intros bs f [[[? Hc] _] Hp] Hroom. simpl in *. pose proof (zlen_nonneg bs).
  rewrite write_store, Hp, overwrite_end by lia.
  eexists. split; [done|]. unfold wf; simpl. rewrite zlen_app.
  repeat split; lia.
Qed.
Next Obligation.
  intros pos n f [[[? Hc] _] Hp] ???. simpl in *. unfold pread.
  rewrite (proj2 (Z.ltb_ge _ _)), !u64_small by lia.
  destruct (Z.leb_spec (zlen (content_ f)) pos) as [Hle|Hlt].
  - f_equal. f_equal. unfold slice, zlen in *. rewrite drop_ge by lia. by rewrite take_nil.
  - rewrite Z.min_l by lia. unfold span_read.
    rewrite !(proj2 (Z.leb_le _ _)) by lia. simpl. do 3 f_equal. lia.
Qed.
Next Obligation.
  intros f [[[? Hc] _] _]. simpl. unfold size. by rewrite s64_small.
Qed.

(** ** Positional access *)

Lemma pread_general pos n f :
  wf f → in_u 63 pos → in_u 63 n →
  pread pos n f = (Ok (slice pos (Z.min n (zlen (content_ f) - pos)) (content_ f)), f).
Proof.
  intros [[? Hc] _] [??] [??]. unfold pread.
  rewrite (proj2 (Z.ltb_ge _ _)), !u64_small by lia.
  destruct (Z.leb_spec (zlen (content_ f)) pos) as [Hle|Hlt].
  - f_equal. f_equal. unfold slice, zlen in *. rewrite drop_ge by lia. by rewrite take_nil.
  - unfold span_read. rewrite !(proj2 (Z.leb_le _ _)) by lia. simpl. do 3 f_equal. lia.
Qed.

Lemma pwrite_store pos bs f :
  0 ≤ pos → pos + zlen bs < 2 ^ 63 →
  pwrite pos bs f =
  (Ok (zlen bs), {| content_ := overwrite pos bs (content_ f); position_ := position_ f |}).
Proof.
  intros. unfold pwrite. rewrite (proj2 (Z.ltb_ge _ _)) by lia. by rewrite store_ok.
Qed.

Lemma slice_overwrite_same pos bs l :
  0 ≤ pos → slice pos (zlen bs) (overwrite pos bs l) = bs.
Proof.
  intros. unfold overwrite. apply slice_mid; [|done].
  rewrite zlen_resize. lia.
Qed.

Lemma slice_overwrite_other pos bs l q n :
  0 ≤ q → 0 ≤ n → q + n ≤ zlen l → q + n ≤ pos ∨ pos + zlen bs ≤ q → 0 ≤ pos →
  slice q n (overwrite pos bs l) = slice q n l.
Proof.
  intros ??? Hdis ?. unfold slice. apply list_eq. intros i.
  destruct (decide (i < Z.to_nat n)%nat) as [Hi|]; [|by rewrite !lookup_take_ge by lia].
  rewrite !lookup_take_lt, !lookup_drop by lia. unfold overwrite, zlen in *.
  destruct Hdis.
  - rewrite lookup_app_l by (rewrite length_resize; lia).
    rewrite resize_spec, lookup_app_l by (rewrite length_take; lia).
    by rewrite lookup_take_lt by lia.
  - rewrite lookup_app_r by (rewrite length_resize; lia).
    rewrite length_resize, lookup_app_r, lookup_drop by lia. f_equal. lia.
Qed.

(** MemoryFile::pwrite stores exactly its bytes: reading the range gives them back,
    reading any other range of the old content gives what was there, and the position does
    not move. *)
Theorem pwrite_pread f pos bs :
  wf f → 0 ≤ pos → pos + zlen bs < 2 ^ 63 →
  ∃ f', pwrite pos bs f = (Ok (zlen bs), f') ∧ wf f' ∧ position_ f' = position_ f ∧
    pread pos (zlen bs) f' = (Ok bs, f') ∧
    (∀ q n, 0 ≤ q → 0 ≤ n → q + n ≤ zlen (content_ f) →
       q + n ≤ pos ∨ pos + zlen bs ≤ q →
       pread q n f' = (Ok (slice q n (content_ f)), f')).
Proof.
  intros Hwf ? Hb. pose proof (zlen_nonneg bs). rewrite pwrite_store by done.
  eexists. split; [done|].
  assert (wf {| content_ := overwrite pos bs (content_ f); position_ := position_ f |})
    as Hwf'.
  { destruct Hwf as [[??] ?]. split; [|done]. simpl. unfold in_u.
    rewrite overwrite_length by done. lia. }
  split; [done|]. split; [done|]. split.
  - rewrite pread_general by (done || unfold in_u; lia). simpl.
    rewrite overwrite_length, Z.min_l, slice_overwrite_same by lia. done.
  - intros q n ????. destruct Hwf as [[??] ?].
    rewrite pread_general by (done || unfold in_u; lia). simpl.
    rewrite overwrite_length, Z.min_l, slice_overwrite_other by lia. done.
Qed.

Lemma pwrite_pread_witness :
  ∃ f', pwrite 6 [7; 8] (make [1; 2; 3; 4]) = (Ok 2, f') ∧
        pread 6 2 f' = (Ok [7; 8], f') ∧ pread 1 2 f' = (Ok [2; 3], f').
Proof.
  destruct (pwrite_pread (make [1; 2; 3; 4]) 6 [7; 8]) as (f' & Hw & _ & _ & Hr & Ho);
    [by repeat split|done|done|].
  exists f'. split; [exact Hw|]. split; [exact Hr|].
  by apply (Ho 1 2); [..|left].
Defined.
