(* ===== verification/PosixFile.v ===== *)
(** * io/posix: files over the system calls

    The kernel is not part of the repository: [Posix] is the interface of the
    system calls that io/posix/file.cc makes, as functions of a kernel state; a
    call returns what the C function returns, and the bytes that it stored in a
    buffer.  [PosixFiles] says what POSIX documents of regular files and of the
    table of descriptors, [PromptFiles] that calls on a local file transfer all
    they can.  [kernel] is a concrete kernel with both.

    A SharedFile does not own its descriptor and a File does; the state pairs the
    descriptor with the kernel.  The theorems show that a posix file meets the
    contracts of File.v, and that a File neither leaks descriptors nor closes
    those of others. *)

From S2P Require Import Prelude File MemoryFile.

Inductive whence : Type := SEEK_SET | SEEK_CUR.

Class Posix (K : Type) : Type := {
  sys_read : Z → Z → K → Z * list Z * K;
  sys_write : Z → list Z → K → Z * K;
  sys_pread64 : Z → Z → Z → K → Z * list Z * K;
  sys_pwrite64 : Z → list Z → Z → K → Z * K;
  sys_lseek64 : Z → Z → whence → K → Z * K;
  sys_fstat64 : Z → K → Z * Z * K;
  sys_open : list Z → Z → Z → K → Z * K;
  sys_close : Z → K → K;
  errno : K → Z;
}.

(** fcntl.h *)
Definition O_RDONLY : Z := 0.
Definition O_RDWR : Z := 2.
Definition O_CREAT : Z := 64.
Definition O_TRUNC : Z := 512.

Record SharedFile (K : Type) : Type := { fd_ : Z; kernel_ : K }.
Arguments fd_ {K}.
Arguments kernel_ {K}.

Section posix.
Context {K : Type} `{!Posix K}.
Implicit Types f : SharedFile K.

Definition set_kernel (k : K) f : SharedFile K := {| fd_ := fd_ f; kernel_ := k |}.
Definition set_fd (fd : Z) f : SharedFile K := {| fd_ := fd; kernel_ := kernel_ f |}.

(** {errno, std::system_category()} *)
Definition failed {A} (k : K) f : result A * SharedFile K :=
  (Err (system_error (errno k)), set_kernel k f).

(** SharedFile::read *)
Definition read (n : Z) : ST (SharedFile K) (list Z) := λ f,
  let '(ret, bs, k) := sys_read (fd_ f) n (kernel_ f) in
  if ret <? 0 then failed k f else (Ok (take (Z.to_nat ret) bs), set_kernel k f).

(** SharedFile::write *)
Definition write (bs : list Z) : ST (SharedFile K) Z := λ f,
  let '(ret, k) := sys_write (fd_ f) bs (kernel_ f) in
  if ret <? 0 then failed k f else (Ok (u64 ret), set_kernel k f).

(** SharedFile::pread *)
Definition pread (position n : Z) : ST (SharedFile K) (list Z) := λ f,
  let '(ret, bs, k) := sys_pread64 (fd_ f) n position (kernel_ f) in
  if ret <? 0 then failed k f else (Ok (take (Z.to_nat ret) bs), set_kernel k f).

(** SharedFile::pwrite *)
Definition pwrite (position : Z) (bs : list Z) : ST (SharedFile K) Z := λ f,
  let '(ret, k) := sys_pwrite64 (fd_ f) bs position (kernel_ f) in
  if ret <? 0 then failed k f else (Ok (u64 ret), set_kernel k f).

(** SharedFile::seek *)
Definition seek (position : Z) : ST (SharedFile K) unit := λ f,
  let '(ret, k) := sys_lseek64 (fd_ f) position SEEK_SET (kernel_ f) in
  if ret <? 0 then failed k f else (Ok tt, set_kernel k f).

(** SharedFile::tell *)
Definition tell : ST (SharedFile K) Z := λ f,
  let '(ret, k) := sys_lseek64 (fd_ f) 0 SEEK_CUR (kernel_ f) in
  if ret <? 0 then failed k f else (Ok ret, set_kernel k f).

(** SharedFile::size *)
Definition size : ST (SharedFile K) Z := λ f,
  let '(ret, st_size, k) := sys_fstat64 (fd_ f) (kernel_ f) in
  if ret <? 0 then failed k f else (Ok st_size, set_kernel k f).

#[export] Instance posix_file : File (SharedFile K) := {
  File.read := read;
  File.write := write;
  File.pread := pread;
  File.pwrite := pwrite;
  File.seek := seek;
  File.tell := tell;
  File.size := size;
}.

(** std_input, std_output, std_error *)
Definition std_input (k : K) : SharedFile K := {| fd_ := 0; kernel_ := k |}.
Definition std_output (k : K) : SharedFile K := {| fd_ := 1; kernel_ := k |}.
Definition std_error (k : K) : SharedFile K := {| fd_ := 2; kernel_ := k |}.

(** File::File *)
Definition make_file (k : K) : SharedFile K := {| fd_ := -1; kernel_ := k |}.

(** File::close, and with it ~File *)
Definition close : ST (SharedFile K) unit := λ f,
  if fd_ f <? 0 then (Ok tt, f)
  else (Ok tt, set_fd (-1) (set_kernel (sys_close (fd_ f) (kernel_ f)) f)).

(** File::open *)
Definition open (filename : list Z) (flags mode : Z) : ST (SharedFile K) unit :=
  let* _ := close in
  λ f,
    let '(fd, k) := sys_open filename flags mode (kernel_ f) in
    if fd <? 0 then failed k f else (Ok tt, set_fd fd (set_kernel k f)).

(** File::create; the mode is 0644. *)
Definition create (filename : list Z) : ST (SharedFile K) unit :=
  open filename (Z.lor (Z.lor O_CREAT O_RDWR) O_TRUNC) 420.

(** std::string(filename).c_str() *)
Fixpoint c_str (s : list Z) : list Z :=
  match s with
  | [] => []
  | b :: s => if b =? 0 then [] else b :: c_str s
  end.

(** io::open and io::create of io/native-file.cc *)
Definition native_open (filename : list Z) : ST (SharedFile K) unit :=
  open (c_str filename) O_RDONLY 0.

Definition native_create (filename : list Z) : ST (SharedFile K) unit := create (c_str filename).
End posix.

(** ** What POSIX documents

    [regular fd k]: the descriptor is open for reading and writing on a regular
    file, without O_APPEND; [file_content] are the bytes of that file and [offset]
    the file offset of the descriptor. *)

Class PosixFiles (K : Type) `{!Posix K} : Type := {
  regular : Z → K → Prop;
  file_content : Z → K → list Z;
  offset : Z → K → Z;
  open_fds : K → gset Z;
  regular_bounds fd k : regular fd k → 0 ≤ offset fd k < 2 ^ 63 ∧ zlen (file_content fd k) < 2 ^ 63;
  (** read transfers what is there, fewer bytes if it likes, and 0 at the end only *)
  sys_read_law fd n k ret bs k' :
    regular fd k → in_u 63 n → sys_read fd n k = (ret, bs, k') →
    regular fd k' ∧ file_content fd k' = file_content fd k ∧
    (ret < 0 ∧ offset fd k' = offset fd k ∨
     0 ≤ ret ≤ n ∧ ret ≤ Z.max 0 (zlen (file_content fd k) - offset fd k) ∧
     bs = slice (offset fd k) ret (file_content fd k) ∧ offset fd k' = offset fd k + ret ∧
     (0 < n → ret = 0 → zlen (file_content fd k) ≤ offset fd k));
  (** write stores a prefix of the buffer at the offset *)
  sys_write_law fd bs k ret k' :
    regular fd k → sys_write fd bs k = (ret, k') →
    regular fd k' ∧
    (ret < 0 ∧ file_content fd k' = file_content fd k ∧ offset fd k' = offset fd k ∨
     0 ≤ ret ≤ zlen bs ∧ offset fd k' = offset fd k + ret ∧
     file_content fd k' =
       overwrite (offset fd k) (take (Z.to_nat ret) bs) (file_content fd k));
  (** open gives a descriptor that is not in use, or fails *)
  sys_open_law filename flags mode k fd k' :
    sys_open filename flags mode k = (fd, k') →
    fd < 0 ∧ open_fds k' = open_fds k ∨
    0 ≤ fd ∧ fd ∉ open_fds k ∧ open_fds k' = {[fd]} ∪ open_fds k;
  sys_close_law fd k : open_fds (sys_close fd k) = open_fds k ∖ {[fd]};
}.

Class PromptFiles (K : Type) `{!Posix K, !PosixFiles K} : Type := {
  file_room : Z → K → Z;
  prompt_read fd n k : regular fd k → in_u 63 n → 0 ≤ (sys_read fd n k).1.1;
  prompt_write fd bs k : regular fd k → zlen bs ≤ file_room fd k →
    ∃ k', sys_write fd bs k = (zlen bs, k') ∧ file_room fd k' = file_room fd k - zlen bs;
  prompt_pread fd n pos k : regular fd k → 0 ≤ pos → 0 ≤ n → pos + n ≤ zlen (file_content fd k) →
    sys_pread64 fd n pos k = (n, slice pos n (file_content fd k), k);
  prompt_fstat fd k : regular fd k → sys_fstat64 fd k = (0, zlen (file_content fd k), k);
}.

(** ** The contracts of File.v *)

Section contracts.
Context {K : Type} `{!Posix K, !PosixFiles K}.
Implicit Types f : SharedFile K.

Definition regular_file f : Prop := regular (fd_ f) (kernel_ f).

#[export] Program Instance posix_reader : Reader (SharedFile K) := {
  valid_reader := regular_file;
  pending f := drop (Z.to_nat (offset (fd_ f) (kernel_ f))) (file_content (fd_ f) (kernel_ f));
}.
Next Obligation.
  intros n f bs f' Hr Hn Hread. simpl in Hread. unfold read in Hread.
  destruct (sys_read (fd_ f) n (kernel_ f)) as [[ret bs0] k'] eqn:E.
  destruct (sys_read_law _ _ _ _ _ _ Hr Hn E) as (Hr' & Hc & Hcase).
  destruct (Z.ltb_spec ret 0) as [|Hret]; [done|]. injection Hread as <- <-.
  destruct Hcase as [[? _]|(Hle & Hmax & -> & Ho & Hend)]; [lia|].
  destruct (regular_bounds _ _ Hr) as [[? _] _]. simpl. rewrite Hc, Ho.
  assert (zlen (slice (offset (fd_ f) (kernel_ f)) ret (file_content (fd_ f) (kernel_ f))) = ret) as Hl.
  { unfold slice, zlen in *. rewrite length_take, length_drop. lia. }
  rewrite (take_ge (slice _ _ _)) by (unfold zlen in Hl; lia).
  split_and!; [done| |lia|].
  - unfold slice. rewrite Z2Nat.inj_add, <- drop_drop by lia. by rewrite take_drop.
  - intros Hpos Hnil. rewrite Hnil in Hl. change (zlen []) with 0 in Hl.
    apply drop_ge. specialize (Hend Hpos ltac:(lia)). unfold zlen in Hend. lia.
Qed.
Next Obligation.
  intros n f e f' Hr Hn Hread. simpl in Hread. unfold read in Hread.
  destruct (sys_read (fd_ f) n (kernel_ f)) as [[ret bs0] k'] eqn:E.
  destruct (sys_read_law _ _ _ _ _ _ Hr Hn E) as (Hr' & Hc & Hcase).
  destruct (Z.ltb_spec ret 0); [|done]. unfold failed in Hread. injection Hread as _ <-.
  destruct Hcase as [[_ Ho]|[? _]]; [|lia]. simpl. by rewrite Hc, Ho.
Qed.

#[export] Program Instance posix_writer : Writer (SharedFile K) := {
  valid_writer := regular_file;
  written f := resize (Z.to_nat (offset (fd_ f) (kernel_ f))) 0 (file_content (fd_ f) (kernel_ f));
}.
Next Obligation.
  intros bs f n f' Hr Hw. simpl in Hw. unfold write in Hw.
  destruct (sys_write (fd_ f) bs (kernel_ f)) as [ret k'] eqn:E.
  destruct (sys_write_law _ _ _ _ _ Hr E) as (Hr' & Hcase).
  destruct (Z.ltb_spec ret 0) as [|Hret]; [done|]. injection Hw as <- <-.
  destruct Hcase as [[? _]|(Hle & Ho & Hc)]; [lia|].
  destruct (regular_bounds _ _ Hr) as [[? _] _]. destruct (regular_bounds _ _ Hr') as [[_ ?] _].
  assert (u64 ret = ret) as -> by (apply u64_small; lia).
  split_and!; [done|lia|lia|]. simpl. rewrite Hc, Ho.
  assert (zlen (take (Z.to_nat ret) bs) = ret) as Hl by (unfold zlen in *; rewrite length_take; lia).
  rewrite <- Hl at 1. by rewrite overwrite_resize.
Qed.
Next Obligation.
  intros bs f e f' Hr Hw. simpl in Hw. unfold write in Hw.
  destruct (sys_write (fd_ f) bs (kernel_ f)) as [ret k'] eqn:E.
  destruct (sys_write_law _ _ _ _ _ Hr E) as (Hr' & Hcase).
  destruct (Z.ltb_spec ret 0); [|done]. unfold failed in Hw. injection Hw as _ <-.
  destruct Hcase as [(_ & Hc & Ho)|[? _]]; [|lia]. simpl. by rewrite Hc, Ho.
Qed.

Context `{!PromptFiles K}.

#[export] Instance posix_reliable_reader : ReliableReader (SharedFile K).
Proof.
  constructor. intros n f Hr Hn. simpl. unfold read. pose proof (prompt_read _ n _ Hr Hn) as Hp.
  destruct (sys_read (fd_ f) n (kernel_ f)) as [[ret bs] k']. simpl in Hp.
  rewrite (proj2 (Z.ltb_ge _ _)) by done. eauto.
Qed.

Lemma write_prompt bs f :
  regular_file f → zlen bs ≤ file_room (fd_ f) (kernel_ f) →
  ∃ k', write bs f = (Ok (zlen bs), set_kernel k' f) ∧ regular (fd_ f) k' ∧
    offset (fd_ f) k' = offset (fd_ f) (kernel_ f) + zlen bs ∧
    file_content (fd_ f) k' =
      overwrite (offset (fd_ f) (kernel_ f)) bs (file_content (fd_ f) (kernel_ f)) ∧
    file_room (fd_ f) k' = file_room (fd_ f) (kernel_ f) - zlen bs.
Proof.
  intros Hr Hroom. destruct (prompt_write _ bs _ Hr Hroom) as (k' & E & Hroom').
  pose proof (zlen_nonneg bs). destruct (sys_write_law _ _ _ _ _ Hr E) as (Hr' & [[? _]|(_ & Ho & Hc)]); [lia|].
  destruct (regular_bounds _ _ Hr) as [[? _] _]. destruct (regular_bounds _ _ Hr') as [[_ ?] _].
  exists k'. unfold write. rewrite E, (proj2 (Z.ltb_ge _ _)), u64_small by lia.
  split_and!; try done. rewrite Hc. f_equal. unfold zlen. by rewrite Nat2Z.id, firstn_all.
Qed.

#[export] Program Instance posix_reliable_writer : ReliableWriter (SharedFile K) := {
  room f := file_room (fd_ f) (kernel_ f);
}.
Next Obligation.
  intros bs f Hr Hroom. destruct (write_prompt bs f Hr Hroom) as (k' & Hw & _ & _ & _ & Hroom').
  eexists _, _. split; [done|]. split; [|done]. destruct bs; [done|]. unfold zlen. simpl. lia.
Qed.

#[export] Program Instance posix_random : RandomAccess (SharedFile K) := {
  valid_random f := regular_file f ∧
    offset (fd_ f) (kernel_ f) = zlen (file_content (fd_ f) (kernel_ f));
  content f := file_content (fd_ f) (kernel_ f);
  append_room f := file_room (fd_ f) (kernel_ f);
}.
Next Obligation.
  intros f [Hr _]. destruct (regular_bounds _ _ Hr) as [_ ?]. split; [apply zlen_nonneg|done].
Qed.
Next Obligation.
  intros bs f [Hr Ho] Hroom. destruct (write_prompt bs f Hr Hroom) as (k' & Hw & Hr' & Ho' & Hc & Hroom').
  eexists. split; [done|]. rewrite Ho, overwrite_end in Hc. simpl. unfold regular_file. simpl.
  split_and!; [done| |done|done]. rewrite Hc, zlen_app, Ho'. lia.
Qed.
Next Obligation.
  intros pos n f [Hr _] ???. simpl. unfold pread. rewrite prompt_pread by done.
  rewrite (proj2 (Z.ltb_ge _ _)) by done. unfold slice.
  rewrite take_take, Nat.min_id. by destruct f.
Qed.
Next Obligation.
  intros f [Hr _]. simpl. unfold size. rewrite prompt_fstat by done. simpl. by destruct f.
Qed.
End contracts.

(** ** Descriptors *)

Section descriptors.
Context {K : Type} `{!Posix K, !PosixFiles K}.
Implicit Types f : SharedFile K.

Inductive file_op : Type :=
  | Open (filename : list Z) (flags mode : Z)
  | Create (filename : list Z)
  | NativeOpen (filename : list Z)
  | NativeCreate (filename : list Z)
  | Close.

(** What a call leaves, whether it failed or not *)
Definition apply_op f (op : file_op) : SharedFile K :=
  snd (match op with
       | Open filename flags mode => open filename flags mode
       | Create filename => create filename
       | NativeOpen filename => native_open filename
       | NativeCreate filename => native_create filename
       | Close => close
       end f).

Definition run_ops : list file_op → SharedFile K → SharedFile K := λ ops f, foldl apply_op f ops.

(** The file owns its descriptor, if it has one, and the others are those of [k]. *)
Definition owns (k : K) f : Prop :=
  (fd_ f < 0 ∧ open_fds (kernel_ f) = open_fds k) ∨
  (0 ≤ fd_ f ∧ fd_ f ∉ open_fds k ∧ open_fds (kernel_ f) = {[fd_ f]} ∪ open_fds k).

Lemma close_owns k f :
  owns k f → ∃ f', close f = (Ok tt, f') ∧ fd_ f' < 0 ∧ open_fds (kernel_ f') = open_fds k.
Proof.
  intros [[Hfd Ho]|(Hfd & Hnin & Ho)]; unfold close.
  - rewrite (proj2 (Z.ltb_lt _ _)) by done. eauto.
  - rewrite (proj2 (Z.ltb_ge _ _)) by done. eexists. split; [done|]. simpl.
    split; [lia|]. rewrite sys_close_law, Ho. set_solver.
Qed.

Lemma open_owns k filename flags mode f : owns k f → owns k (snd (open filename flags mode f)).
Proof.
  intros Hf. destruct (close_owns k f Hf) as (f1 & Hc & Hfd & Ho). unfold open, st_bind. rewrite Hc.
  destruct (sys_open filename flags mode (kernel_ f1)) as [fd k'] eqn:E.
  pose proof (sys_open_law _ _ _ _ _ _ E) as Hlaw. rewrite Ho in Hlaw.
  destruct (Z.ltb_spec fd 0) as [Hneg|Hpos]; simpl.
  - left. split; [done|]. destruct Hlaw as [[_ H]|[? _]]; [done|lia].
  - right. destruct Hlaw as [[? _]|(_ & Hnin & H)]; [lia|done].
Qed.

Lemma apply_op_owns k f op : owns k f → owns k (apply_op f op).
Proof.
  intros Hf. destruct op; try by apply open_owns.
  destruct (close_owns k f Hf) as (f' & Hc & Hfd & Ho). unfold apply_op. rewrite Hc. by left.
Qed.

(** C29: After any sequence of open, create and close calls on a posix File, failed ones
    included, the descriptors that are open are those from before and the one that the file
    holds, which is none of them, and the destructor leaves exactly those from before:
    nothing leaks and nothing of others is closed. *)
Theorem posix_descriptors k ops :
  let f := run_ops ops (make_file k) in
  open_fds (kernel_ f) = (if fd_ f <? 0 then ∅ else {[fd_ f]}) ∪ open_fds k ∧
  (0 ≤ fd_ f → fd_ f ∉ open_fds k) ∧
  ∃ f', close f = (Ok tt, f') ∧ open_fds (kernel_ f') = open_fds k.
Proof.
  intros f. assert (owns k f) as Hf.
  { unfold f, run_ops. assert (owns k (make_file k)) as H by (by left). revert H.
    generalize (make_file k). induction ops as [|op ops IH]; intros f0 H0; [done|].
    simpl. by apply IH, apply_op_owns. }
  destruct (close_owns k f Hf) as (f' & Hc & _ & Ho). split_and!; [|destruct Hf as [[? _]|[_ [? _]]]; [lia|done]|eauto].
  destruct Hf as [[Hfd H]|(Hfd & _ & H)].
  - rewrite (proj2 (Z.ltb_lt _ _)) by done. by rewrite H, union_empty_l_L.
  - by rewrite (proj2 (Z.ltb_ge _ _)) by done.
Qed.
End descriptors.

(** ** A kernel *)

Record kernel : Type := {
  files : gmap (list Z) (list Z);
  descriptors : gmap Z (list Z * Z);
  last_error : Z;
}.

Definition set_descriptors (d : gmap Z (list Z * Z)) (k : kernel) : kernel :=
  {| files := files k; descriptors := d; last_error := last_error k |}.

Definition set_error (e : Z) (k : kernel) : kernel :=
  {| files := files k; descriptors := descriptors k; last_error := e |}.

Definition EBADF : Z := 9.
Definition ENOENT : Z := 2.
Definition EINVAL : Z := 22.
Definition EFBIG : Z := 27.

(** The file of a descriptor: its name, its bytes and the offset *)
Definition opened (fd : Z) (k : kernel) : option (list Z * list Z * Z) :=
  match descriptors k !! fd with
  | Some (name, off) => (λ c, (name, c, off)) <$> files k !! name
  | None => None
  end.

Definition stored (name c : list Z) (k : kernel) : kernel :=
  {| files := <[name := c]> (files k); descriptors := descriptors k; last_error := last_error k |}.

Definition free_fd (k : kernel) : Z := 1 + foldr Z.max 2 (map_to_list (descriptors k)).*1.

#[export] Instance kernel_posix : Posix kernel := {
  sys_read fd n k :=
    match opened fd k with
    | Some (name, c, off) =>
        let ret := Z.max 0 (Z.min n (zlen c - off)) in
        (ret, slice off ret c, set_descriptors (<[fd := (name, off + ret)]> (descriptors k)) k)
    | None => (-1, [], set_error EBADF k)
    end;
  sys_write fd bs k :=
    match opened fd k with
    | Some (name, c, off) =>
        if off + zlen bs <? 2 ^ 63 then
          (zlen bs, set_descriptors (<[fd := (name, off + zlen bs)]> (descriptors k))
                      (stored name (overwrite off bs c) k))
        else (-1, set_error EFBIG k)
    | None => (-1, set_error EBADF k)
    end;
  sys_pread64 fd n pos k :=
    match opened fd k with
    | Some (name, c, off) =>
        if pos <? 0 then (-1, [], set_error EINVAL k)
        else let ret := Z.max 0 (Z.min n (zlen c - pos)) in (ret, slice pos ret c, k)
    | None => (-1, [], set_error EBADF k)
    end;
  sys_pwrite64 fd bs pos k :=
    match opened fd k with
    | Some (name, c, off) =>
        if (pos <? 0) || (2 ^ 63 <=? pos + zlen bs) then (-1, set_error EINVAL k)
        else (zlen bs, stored name (overwrite pos bs c) k)
    | None => (-1, set_error EBADF k)
    end;
  sys_lseek64 fd pos w k :=
    match opened fd k with
    | Some (name, c, off) =>
        let target := match w with SEEK_SET => pos | SEEK_CUR => off + pos end in
        if (target <? 0) || (2 ^ 63 <=? target) then (-1, set_error EINVAL k)
        else (target, set_descriptors (<[fd := (name, target)]> (descriptors k)) k)
    | None => (-1, set_error EBADF k)
    end;
  sys_fstat64 fd k :=
    match opened fd k with
    | Some (name, c, off) => (0, zlen c, k)
    | None => (-1, 0, set_error EBADF k)
    end;
  sys_open filename flags mode k :=
    if bool_decide (is_Some (files k !! filename)) || negb (Z.land flags O_CREAT =? 0) then
      let c := if Z.land flags O_TRUNC =? 0 then default [] (files k !! filename) else [] in
      (free_fd k, set_descriptors (<[free_fd k := (filename, 0)]> (descriptors k)) (stored filename c k))
    else (-1, set_error ENOENT k);
  sys_close fd k := set_descriptors (delete fd (descriptors k)) k;
  errno := last_error;
}.

Lemma free_fd_fresh k : 0 ≤ free_fd k ∧ descriptors k !! free_fd k = None.
Proof.
  assert (∀ l : list Z, 2 ≤ foldr Z.max 2 l ∧ ∀ x, x ∈ l → x ≤ foldr Z.max 2 l) as Hmax.
  { induction l as [|y l [IH1 IH2]]; simpl; split; try lia; intros x Hx.
    - by apply not_elem_of_nil in Hx.
    - apply elem_of_cons in Hx as [->|Hx]; [lia|]. specialize (IH2 x Hx). lia. }
  destruct (Hmax (map_to_list (descriptors k)).*1) as [H1 H2]. unfold free_fd. split; [lia|].
  destruct (descriptors k !! _) as [d|] eqn:E; [|done].
  apply elem_of_map_to_list in E. apply (list_elem_of_fmap_2 fst) in E. apply H2 in E. simpl in E. lia.
Qed.

Lemma opened_insert fd name c off c' off' k :
  opened fd k = Some (name, c, off) →
  opened fd (set_descriptors (<[fd := (name, off')]> (descriptors k)) (stored name c' k)) =
  Some (name, c', off').
Proof. intros _. unfold opened. simpl. rewrite lookup_insert_eq. simpl. by rewrite lookup_insert_eq. Qed.

Lemma opened_move fd name c off off' k :
  opened fd k = Some (name, c, off) →
  opened fd (set_descriptors (<[fd := (name, off')]> (descriptors k)) k) = Some (name, c, off').
Proof.
  unfold opened. simpl. rewrite lookup_insert_eq. destruct (descriptors k !! fd) as [[n o]|]; [|done].
  destruct (files k !! n) as [c0|] eqn:E; simpl; [|done]. intros [= -> -> ->]. by rewrite E.
Qed.

Definition opened_content (fd : Z) (k : kernel) : list Z :=
  match opened fd k with Some (_, c, _) => c | None => [] end.

Definition opened_offset (fd : Z) (k : kernel) : Z :=
  match opened fd k with Some (_, _, off) => off | None => 0 end.

Definition kernel_regular (fd : Z) (k : kernel) : Prop :=
  ∃ name c off, opened fd k = Some (name, c, off) ∧ 0 ≤ off < 2 ^ 63 ∧ zlen c < 2 ^ 63.

#[export] Program Instance kernel_files : PosixFiles kernel := {
  regular := kernel_regular;
  file_content := opened_content;
  offset := opened_offset;
  open_fds k := dom (descriptors k);
}.
Next Obligation.
  intros fd k (name & c & off & E & ? & ?). unfold opened_offset, opened_content. by rewrite E.
Qed.
Next Obligation.
  intros fd n k ret bs k' (name & c & off & E & Ho & Hc) [Hn Hn'] Hread. simpl in Hread. rewrite E in Hread.
  injection Hread as <- <- <-. unfold opened_offset, opened_content. pose proof (zlen_nonneg c).
  rewrite (opened_move _ _ _ _ _ _ E), E. split_and!; [|done|right; split_and!; try done; intros; lia].
  eexists _, _, _. split; [by apply (opened_move _ _ _ _ _ _ E)|]. split; [lia|done].
Qed.
Next Obligation.
  intros fd bs k ret k' (name & c & off & E & Ho & Hc) Hw. simpl in Hw. rewrite E in Hw.
  unfold opened_offset, opened_content.
  pose proof (zlen_nonneg bs). pose proof (zlen_nonneg c). destruct (Z.ltb_spec (off + zlen bs) (2 ^ 63)) as [Hlt|Hge].
  - injection Hw as <- <-. rewrite (opened_insert _ _ _ _ _ _ _ E), E. split.
    + eexists _, _, _. split; [by apply (opened_insert _ _ _ _ _ _ _ E)|]. split; [lia|].
      rewrite overwrite_length by lia. lia.
    + right. split_and!; try done; try lia. f_equal. unfold zlen. by rewrite Nat2Z.id, firstn_all.
  - injection Hw as <- <-. change (opened fd (set_error EFBIG k)) with (opened fd k).
    split; [by exists name, c, off|]. left. rewrite E. split_and!; done || lia.
Qed.
Next Obligation.
  intros filename flags mode k fd k' Hopen. simpl in Hopen. destruct (_ || _).
  - injection Hopen as <- <-. right. destruct (free_fd_fresh k) as [Hpos Hfresh]. split; [done|].
    split; [by apply not_elem_of_dom|]. simpl. by rewrite dom_insert_L.
  - injection Hopen as <- <-. left. split; [lia|done].
Qed.
Next Obligation. intros fd k. simpl. by rewrite dom_delete_L. Qed.

#[export] Program Instance kernel_prompt : PromptFiles kernel := {
  file_room fd k := 2 ^ 63 - 1 - offset fd k;
}.
Next Obligation. intros fd n k (name & c & off & E & _) _. simpl. rewrite E. simpl. lia. Qed.
Next Obligation.
  intros fd bs k (name & c & off & E & _) Hroom. simpl in *. unfold opened_offset in *.
  rewrite E in *.
  rewrite (proj2 (Z.ltb_lt _ _)) by lia. eexists. split; [done|].
  rewrite (opened_insert _ _ _ _ _ _ _ E). lia.
Qed.
Next Obligation.
  intros fd n pos k (name & c & off & E & _) ? ? Hle. simpl in *. unfold opened_content in *.
  rewrite E in *.
  rewrite (proj2 (Z.ltb_ge _ _)) by done. by replace (Z.max 0 (Z.min n (zlen c - pos))) with n by lia.
Qed.
Next Obligation.
  intros fd k (name & c & off & E & _). simpl. unfold opened_content. by rewrite E.
Qed.

Definition boot : kernel :=
  {| files := {[ [97] := [1; 2; 3] ]}; descriptors := {[ 0 := ([], 0) ]}; last_error := 0 |}.

Lemma posix_descriptors_witness :
  let f := run_ops [NativeOpen [97; 0; 98]; Open [99] O_RDONLY 0; Create [98]; NativeCreate [99]]
             (make_file boot) in
  fd_ f = 3 ∧ ∃ f', close f = (Ok tt, f') ∧ open_fds (kernel_ f') = {[0]}.
Proof.
  split; [by vm_compute|].
  destruct (posix_descriptors boot
    [NativeOpen [97; 0; 98]; Open [99] O_RDONLY 0; Create [98]; NativeCreate [99]]) as (_ & _ & f' & H1 & H2).
  exists f'. split; [exact H1|]. rewrite H2. by vm_compute.
Defined.
