(* ===== verification/FileUtils.v ===== *)
(** * io/file-utils: eager reads and complete writes over any file

    The three helpers are loops over io::File operations that may transfer
    fewer bytes than asked for.  They are modelled over an arbitrary [File] and
    proved against the [Reader] and [Writer] contracts of File.v.  The state of
    the reading helpers is the file and the bytes stored in the caller's buffer
    so far, whose number is the [size] out parameter. *)

From S2P Require Import Prelude File MemoryFile.

Section file_utils.
Context {F : Type} `{!File F}.

(** The loop of io::read; a file that claims to have read more than the buffer
    holds makes remove_prefix leave the span. *)
Fixpoint read_loop (fuel : nat) (n : Z) : ST (F * list Z) unit := λ '(f, acc),
  match fuel with
  | O => (Hang, (f, acc))
  | S fuel =>
      if n =? 0 then (Ok tt, (f, acc))
      else
        match File.read n f with
        | (Ok bs, f') =>
            if zlen bs =? 0 then (Ok tt, (f', acc))
            else if n <? zlen bs then (Crash, (f', acc))
            else read_loop fuel (n - zlen bs) (f', acc ++ bs)
        | (Err e, f') => (Err e, (f', acc))
        | (Crash, f') => (Crash, (f', acc))
        | (Hang, f') => (Hang, (f', acc))
        end
  end.

(** io::read: every iteration shrinks the buffer, so its size bounds them. *)
Definition read (n : Z) : ST (F * list Z) unit := λ '(f, _),
  read_loop (S (Z.to_nat n)) n (f, []).

(** io::write: the loop ends when the buffer is written or a write fails. *)
Fixpoint write (fuel : nat) (bs : list Z) : ST F unit := λ f,
  match fuel with
  | O => (Hang, f)
  | S fuel =>
      if zlen bs =? 0 then (Ok tt, f)
      else
        match File.write bs f with
        | (Ok n, f') =>
            if zlen bs <? n then (Crash, f')
            else write fuel (drop (Z.to_nat n) bs) f'
        | (Err e, f') => (Err e, f')
        | (Crash, f') => (Crash, f')
        | (Hang, f') => (Hang, f')
        end
  end.

(** The loop of io::read_to_end: [content] is cut to the bytes read so far at
    the end of every iteration, and is [buffer_size] longer during the read. *)
Fixpoint read_to_end_loop (fuel : nat) (buffer_size : Z) : ST (F * list Z) unit :=
  λ '(f, content),
  match fuel with
  | O => (Hang, (f, content))
  | S fuel =>
      let pos := length content in
      let enlarged := resize (pos + Z.to_nat buffer_size) 0 content in
      match File.read buffer_size f with
      | (Ok bs, f') =>
          if buffer_size <? zlen bs then (Crash, (f', enlarged))
          else
            let content' := resize (pos + length bs) 0 (splice (zlen content) bs enlarged) in
            if zlen bs =? 0 then (Ok tt, (f', content'))
            else read_to_end_loop fuel buffer_size (f', content')
      | (Err e, f') => (Err e, (f', enlarged))
      | (Crash, f') => (Crash, (f', enlarged))
      | (Hang, f') => (Hang, (f', enlarged))
      end
  end.

(** io::read_to_end *)
Definition read_to_end (fuel : nat) (buffer_size : Z) : ST (F * list Z) unit :=
  λ '(f, _), read_to_end_loop fuel buffer_size (f, []).
End file_utils.

(** ** io::read *)

Section read_spec.
Context {F : Type} `{!File F, !Reader F, !ReliableReader F}.

Lemma read_loop_spec fuel n f acc :
  valid_reader f → in_u 63 n → (Z.to_nat n < fuel)%nat →
  ∃ f', read_loop fuel n (f, acc) = (Ok tt, (f', acc ++ take (Z.to_nat n) (pending f))) ∧
        valid_reader f' ∧ pending f' = drop (Z.to_nat n) (pending f).
Proof.
  revert n f acc. induction fuel as [|fuel IH]; intros n f acc Hv [Hn Hn'] Hfuel; [lia|].
  cbn [read_loop]. destruct (Z.eqb_spec n 0) as [->|Hn0].
  { exists f. simpl. rewrite app_nil_r, drop_0. done. }
  destruct (read_succeeds n f Hv) as (bs & f' & Hr); [done|]. rewrite Hr.
  destruct (read_ok _ _ _ _ Hv ltac:(done) Hr) as (Hv' & Hp & Hle & Hnil).
  destruct (Z.eqb_spec (zlen bs) 0) as [Hz|Hz].
  { assert (bs = []) as -> by (destruct bs; [done|]; unfold zlen in Hz; simpl in Hz; lia).
    simpl in Hp. rewrite (Hnil ltac:(lia) eq_refl) in Hp. exists f'.
    rewrite (Hnil ltac:(lia) eq_refl), take_nil, drop_nil, app_nil_r. auto. }
  rewrite (proj2 (Z.ltb_ge _ _)) by done. pose proof (zlen_nonneg bs).
  destruct (IH (n - zlen bs) f' (acc ++ bs) Hv') as (f'' & Hrec & Hv'' & Hp''); [split; lia|lia|].
  exists f''. rewrite Hrec, Hp''. split; [|split; [done|]].
  - rewrite Hp, take_app, (assoc_L (++)), (take_ge bs) by (unfold zlen in *; lia).
    do 4 f_equal. unfold zlen. lia.
  - rewrite Hp, drop_app, (drop_ge bs) by (unfold zlen in *; lia). simpl. f_equal. unfold zlen. lia.
Qed.

(** io::read fills the buffer unless the end of the file comes first; a size smaller
    than the buffer means the end of the file, as its comment says. *)
Theorem read_eager n f buf :
  valid_reader f → in_u 63 n →
  ∃ f' bs, read n (f, buf) = (Ok tt, (f', bs)) ∧ valid_reader f' ∧
    pending f = bs ++ pending f' ∧ zlen bs = Z.min n (zlen (pending f)) ∧
    (zlen bs < n → pending f' = []).
Proof.
  intros Hv Hn. destruct (read_loop_spec (S (Z.to_nat n)) n f []) as (f' & Hr & Hv' & Hp);
    [done..|lia|].
  exists f', (take (Z.to_nat n) (pending f)). destruct Hn. rewrite Hp.
  repeat split; [done|done|by rewrite take_drop| |].
  - unfold zlen. rewrite length_take. lia.
  - unfold zlen. rewrite length_take. intros. apply drop_ge. lia.
Qed.

Lemma read_to_end_content (content bs : list Z) n :
  (length bs ≤ n)%nat →
  resize (length content + length bs) 0
    (splice (zlen content) bs (resize (length content + n) 0 content)) = content ++ bs.
Proof.
  intros. rewrite (resize_add_eq content) by done. unfold splice, zlen.
  rewrite Nat2Z.id, take_app_length, (assoc_L (++)). apply resize_app.
  by rewrite length_app.
Qed.

Lemma read_to_end_loop_spec fuel B f content :
  valid_reader f → in_u 63 B → 0 < B → (length (pending f) < fuel)%nat →
  ∃ f', read_to_end_loop fuel B (f, content) = (Ok tt, (f', content ++ pending f)) ∧
        valid_reader f' ∧ pending f' = [].
Proof.
  revert f content. induction fuel as [|fuel IH]; intros f content Hv HB HB0 Hfuel; [lia|].
  cbn [read_to_end_loop].
  destruct (read_succeeds B f Hv) as (bs & f' & Hr); [done|]. rewrite Hr.
  destruct (read_ok _ _ _ _ Hv HB Hr) as (Hv' & Hp & Hle & Hnil).
  rewrite (proj2 (Z.ltb_ge _ _)), read_to_end_content by (unfold zlen in *; lia).
  destruct (Z.eqb_spec (zlen bs) 0) as [Hz|Hz].
  { assert (bs = []) as -> by (destruct bs; [done|]; unfold zlen in Hz; simpl in Hz; lia).
    simpl in Hp. rewrite Hp in *. rewrite (Hnil HB0 eq_refl) in *. eauto. }
  pose proof (f_equal length Hp) as Hlen. rewrite length_app in Hlen.
  destruct (IH f' (content ++ bs)) as (f'' & Hrec & ? & ?); [done..|unfold zlen in Hz; lia|].
  exists f''. rewrite Hrec, Hp, (assoc_L (++)). auto.
Qed.

(** read_to_end terminates and gives exactly the bytes up to the end of the file, for
    any buffer size and any pieces the file delivers. *)
Theorem read_to_end_all fuel B f old :
  valid_reader f → in_u 63 B → 0 < B → (length (pending f) < fuel)%nat →
  ∃ f', read_to_end fuel B (f, old) = (Ok tt, (f', pending f)) ∧ pending f' = [].
Proof.
  intros. destruct (read_to_end_loop_spec fuel B f []) as (f' & ? & _ & ?); [done..|].
  by exists f'.
Qed.
End read_spec.

(** ** io::write *)

Section write_spec.
Context {F : Type} `{!File F, !Writer F, !ReliableWriter F}.

Lemma write_loop_spec fuel bs f :
  valid_writer f → zlen bs ≤ room f → (length bs < fuel)%nat →
  ∃ f', write fuel bs f = (Ok tt, f') ∧ valid_writer f' ∧
        written f' = written f ++ bs ∧ room f' = room f - zlen bs.
Proof.
  revert bs f. induction fuel as [|fuel IH]; intros bs f Hv Hroom Hfuel; [lia|].
  cbn [write]. destruct (Z.eqb_spec (zlen bs) 0) as [Hz|Hz].
  { assert (bs = []) as -> by (destruct bs; [done|]; unfold zlen in Hz; simpl in Hz; lia).
    exists f. rewrite app_nil_r, zlen_nil, Z.sub_0_r. auto. }
  destruct (write_succeeds bs f Hv Hroom) as (n & f' & Hw & Hpos & Hroom').
  destruct (write_ok _ _ _ _ Hv Hw) as (Hv' & Hn & Hwr). rewrite Hw.
  rewrite (proj2 (Z.ltb_ge _ _)) by lia.
  assert (0 < n) by (apply Hpos; by intros ->).
  destruct (IH (drop (Z.to_nat n) bs) f' Hv') as (f'' & Hrec & Hv'' & Hwr'' & Hroom'').
  { unfold zlen in *. rewrite length_drop. lia. }
  { unfold zlen in *. rewrite length_drop. lia. }
  exists f''. rewrite Hrec, Hwr'', Hwr, Hroom'', Hroom', <- (assoc_L (++)), take_drop.
  split; [done|]. split; [done|]. split; [done|]. unfold zlen in *. rewrite length_drop. lia.
Qed.

(** A failing io::write leaves a prefix of the buffer behind it in the file. *)
Lemma write_loop_err fuel bs f e f' :
  valid_writer f → write fuel bs f = (Err e, f') →
  valid_writer f' ∧ ∃ n, (n ≤ length bs)%nat ∧ written f' = written f ++ take n bs.
Proof.
  revert bs f. induction fuel as [|fuel IH]; intros bs f Hv; [done|]. cbn [write].
  destruct (Z.eqb_spec (zlen bs) 0) as [|_]; [done|].
  destruct (File.write bs f) as [[n|e'| |] g] eqn:Hw; try done.
  - destruct (write_ok _ _ _ _ Hv Hw) as (Hv' & Hn & Hwr).
    rewrite (proj2 (Z.ltb_ge _ _)) by lia. intros Hrec.
    destruct (IH _ _ Hv' Hrec) as (? & m & Hm & Hwr'). split; [done|].
    exists (Z.to_nat n + m)%nat. rewrite length_drop in Hm. unfold zlen in *.
    split; [lia|]. by rewrite Hwr', Hwr, <- (assoc_L (++)), take_take_drop.
  - intros [= -> ->]. destruct (write_err _ _ _ _ Hv Hw) as [? Hwr]. split; [done|].
    exists 0%nat. rewrite Hwr, take_0, app_nil_r. split; [lia|done].
Qed.
End write_spec.

Lemma read_to_end_all_witness :
  ∃ f', read_to_end 9 4 (make [1; 2; 3; 4; 5; 6], [9]) =
        (Ok tt, (f', [1; 2; 3; 4; 5; 6])) ∧ pending f' = [].
Proof.
  destruct (read_to_end_all 9 4 (make [1; 2; 3; 4; 5; 6]) [9]) as (f' & Hr & Hp);
    [by repeat split|by repeat split|done|simpl; lia|].
  exists f'. split; [exact Hr|exact Hp].
Defined.

Lemma read_eager_witness :
  ∃ f' bs, read 9 (make [1; 2; 3], [0]) = (Ok tt, (f', bs)) ∧ zlen bs = 3.
Proof.
  destruct (read_eager 9 (make [1; 2; 3]) [0]) as (f' & bs & Hr & _ & _ & Hl & _);
    [by repeat split|by repeat split|]. exists f', bs. split; [exact Hr|exact Hl].
Defined.
