(* ===== verification/LineReader.v ===== *)
(** * io/line-reader: delimiter-terminated lines over any file

    The object's state is the record [LineReader]: the file it reads, the
    delimiter, the capacity its vector keeps after reserve(), the vector and
    the offset of its first unread byte.  The state of [read] pairs it with the
    caller's string; its value is the [end_of_file] out parameter. *)

From S2P Require Import Prelude File MemoryFile.

Record LineReader (F : Type) : Type := {
  file_ : F;
  delimiter_ : Z;
  capacity_ : Z;
  buffer_ : list Z;
  offset_ : Z;
}.
Arguments file_ {F}.
Arguments delimiter_ {F}.
Arguments capacity_ {F}.
Arguments buffer_ {F}.
Arguments offset_ {F}.

Section line_reader.
Context {F : Type} `{!File F}.
Implicit Types r : LineReader F.

(** LineReader::LineReader: [capacity] is what reserve(buffer_size) gives. *)
Definition make (f : F) (delimiter capacity : Z) : LineReader F :=
  {| file_ := f; delimiter_ := delimiter; capacity_ := capacity;
     buffer_ := []; offset_ := 0 |}.

Definition set_offset (o : Z) r : LineReader F :=
  {| file_ := file_ r; delimiter_ := delimiter_ r; capacity_ := capacity_ r;
     buffer_ := buffer_ r; offset_ := o |}.

Definition set_buffer (f : F) (buffer : list Z) r : LineReader F :=
  {| file_ := f; delimiter_ := delimiter_ r; capacity_ := capacity_ r;
     buffer_ := buffer; offset_ := 0 |}.

(** The inner loop: bytes move from the vector to the line until the delimiter
    is moved or the vector is exhausted; the last component is what is left. *)
Fixpoint scan (delimiter : Z) (line unread : list Z) : bool * list Z * list Z :=
  match unread with
  | [] => (false, line, [])
  | b :: rest =>
      if b =? delimiter then (true, line ++ [b], rest)
      else scan delimiter (line ++ [b]) rest
  end.

(** The outer loop of LineReader::read. *)
Fixpoint read_loop (fuel : nat) : ST (LineReader F * list Z) bool := λ '(r, line),
  match fuel with
  | O => (Hang, (r, line))
  | S fuel =>
      match scan (delimiter_ r) line (drop (Z.to_nat (offset_ r)) (buffer_ r)) with
      | (true, line, rest) =>
          (Ok false, (set_offset (zlen (buffer_ r) - zlen rest) r, line))
      | (false, line, _) =>
          let enlarged := resize (Z.to_nat (capacity_ r)) 0 (buffer_ r) in
          match File.read (capacity_ r) (file_ r) with
          | (Ok bs, f) =>
              if capacity_ r <? zlen bs then (Crash, (set_buffer f enlarged r, line))
              else
                let stored := splice 0 bs enlarged in
                if zlen bs =? 0 then (Ok true, (set_buffer f stored r, line))
                else read_loop fuel (set_buffer f (resize (length bs) 0 stored) r, line)
          | (Err e, f) => (Err e, (set_buffer f enlarged r, line))
          | (Crash, f) => (Crash, (set_buffer f enlarged r, line))
          | (Hang, f) => (Hang, (set_buffer f enlarged r, line))
          end
      end
  end.

(** LineReader::read *)
Definition read (fuel : nat) : ST (LineReader F * list Z) bool := λ '(r, _),
  read_loop fuel (r, []).
End line_reader.

(** ** Specification *)

Lemma scan_spec delimiter line unread :
  match scan delimiter line unread with
  | (true, line', rest) => ∃ body,
      line' = line ++ body ++ [delimiter] ∧ unread = body ++ [delimiter] ++ rest ∧
      delimiter ∉ body
  | (false, line', _) => line' = line ++ unread ∧ delimiter ∉ unread
  end.
Proof.
  revert line. induction unread as [|b unread IH]; intros line; simpl.
  { rewrite app_nil_r. split; [done|]. apply not_elem_of_nil. }
  destruct (Z.eqb_spec b delimiter) as [->|Hne].
  { exists []. split; [done|]. split; [done|]. apply not_elem_of_nil. }
  specialize (IH (line ++ [b])).
  destruct (scan delimiter (line ++ [b]) unread) as [[[] line'] rest].
  - destruct IH as (body & -> & -> & Hnin). exists (b :: body).
    rewrite <- (assoc_L (++)). split; [done|]. split; [done|].
    rewrite not_elem_of_cons. auto.
  - destruct IH as [-> Hnin]. rewrite <- (assoc_L (++)). split; [done|].
    rewrite not_elem_of_cons. auto.
Qed.

Lemma splice_front (bs l : list Z) :
  (length bs ≤ length l)%nat → resize (length bs) 0 (splice 0 bs l) = bs.
Proof. intros. unfold splice. simpl. by apply resize_app. Qed.

Section spec.
Context {F : Type} `{!File F, !Reader F, !ReliableReader F}.
Implicit Types r : LineReader F.

(** The bytes that the reader has not handed out yet. *)
Definition unread r : list Z :=
  drop (Z.to_nat (offset_ r)) (buffer_ r) ++ pending (file_ r).

Definition wf r : Prop :=
  valid_reader (file_ r) ∧ 0 < capacity_ r ∧ in_u 63 (capacity_ r) ∧
  0 ≤ offset_ r ≤ zlen (buffer_ r).

(** What one call of read may give. *)
Definition read_post r (out : result bool * (LineReader F * list Z)) (line : list Z) : Prop :=
  (∃ r' body, out = (Ok false, (r', line ++ body ++ [delimiter_ r])) ∧
     unread r = body ++ [delimiter_ r] ++ unread r' ∧ (delimiter_ r ∉ body) ∧
     wf r' ∧ delimiter_ r' = delimiter_ r)
  ∨ (∃ r', out = (Ok true, (r', line ++ unread r)) ∧ (delimiter_ r ∉ unread r) ∧
     pending (file_ r') = []).

Lemma line_loop_spec fuel r line :
  wf r → (length (pending (file_ r)) < fuel)%nat → read_post r (read_loop fuel (r, line)) line.
Proof.
  revert r line. induction fuel as [|fuel IH]; intros r line (Hv & Hc & Hcu & Ho) Hfuel; [lia|].
  cbn [read_loop].
  pose proof (scan_spec (delimiter_ r) line (drop (Z.to_nat (offset_ r)) (buffer_ r))) as Hscan.
  destruct (scan _ _ _) as [[[] line'] rest].
  - destruct Hscan as (body & -> & Hb & Hnin). left.
    pose proof (f_equal length Hb) as Hl. rewrite length_drop, !length_app in Hl.
    simpl in Hl. unfold zlen in Ho.
    eexists _, body. split; [done|].
    split; [|split; [done|split; [unfold wf; simpl; unfold zlen; split_and!; done || lia|done]]].
    unfold unread. simpl. rewrite Hb, <- !(assoc_L (++)). do 3 f_equal. simpl. f_equal.
    symmetry. eapply (drop_suffix (take (Z.to_nat (offset_ r)) (buffer_ r) ++ body ++ [_])).
    rewrite <- !(assoc_L (++)), <- Hb. by rewrite take_drop.
  - destruct Hscan as [-> Hnin].
    destruct (read_succeeds (capacity_ r) (file_ r) Hv Hcu) as (bs & f' & Hr). rewrite Hr.
    destruct (read_ok _ _ _ _ Hv Hcu Hr) as (Hv' & Hp & Hle & Hnil).
    rewrite (proj2 (Z.ltb_ge _ _)) by done.
    destruct (Z.eqb_spec (zlen bs) 0) as [Hz|Hz].
    + right. assert (bs = []) as ->
        by (destruct bs; [done|]; unfold zlen in Hz; simpl in Hz; lia).
      specialize (Hnil Hc eq_refl). unfold unread. rewrite Hnil, app_nil_r in *.
      eexists. split; [done|]. split; [done|]. by simpl in Hp |- *.
    + rewrite splice_front by (rewrite length_resize; unfold zlen in Hle; lia).
      pose proof (f_equal length Hp) as Hl. rewrite length_app in Hl.
      destruct (IH (set_buffer f' bs r) (line ++ drop (Z.to_nat (offset_ r)) (buffer_ r)))
        as [(r' & body & Hrun & Hun & Hnb & Hwf' & Hd)|(r' & Hrun & Hnu & Hpend)].
      { unfold wf. simpl. unfold zlen. split_and!; done || lia. }
      { simpl. unfold zlen in Hz. lia. }
      * left. exists r', (drop (Z.to_nat (offset_ r)) (buffer_ r) ++ body). rewrite Hrun.
        unfold unread in *. simpl in *. rewrite drop_0 in Hun.
        rewrite Hp, Hun, <- !(assoc_L (++)). split; [done|]. split; [done|].
        rewrite not_elem_of_app. auto.
      * right. exists r'. rewrite Hrun. unfold unread in *. simpl in *.
        rewrite drop_0 in *. rewrite Hp, <- !(assoc_L (++)). split; [done|].
        rewrite not_elem_of_app. auto.
Qed.

(** One call of LineReader::read over a file that may deliver its bytes in pieces of any
    size returns either the unread bytes up to and including the first delimiter, leaving the
    rest unread, or all the unread bytes with end_of_file when there is no delimiter. *)
Theorem line_reader_read fuel r old :
  wf r → (length (pending (file_ r)) < fuel)%nat → read_post r (read fuel (r, old)) [].
Proof. intros. by apply line_loop_spec. Qed.

Lemma scan_found delimiter line body rest :
  delimiter ∉ body →
  scan delimiter line (body ++ delimiter :: rest) = (true, line ++ body ++ [delimiter], rest).
Proof.
  revert line. induction body as [|b body IH]; intros line Hnin; simpl.
  - by rewrite Z.eqb_refl.
  - apply not_elem_of_cons in Hnin as [Hne Hnin].
    rewrite (proj2 (Z.eqb_neq _ _)) by done. rewrite IH by done.
    by rewrite <- (assoc_L (++)).
Qed.

(** After an end of file, the next LineReader::read returns stale bytes of the buffer as
    a fresh line with end_of_file false. *)
Theorem line_reader_stale_after_eof fuel r old body rest :
  wf r → pending (file_ r) = [] → offset_ r = zlen (buffer_ r) →
  zlen (buffer_ r) ≤ capacity_ r →
  buffer_ r = body ++ delimiter_ r :: rest → delimiter_ r ∉ body →
  ∃ r1 r2, read (S fuel) (r, old) = (Ok true, (r1, [])) ∧
           read (S fuel) (r1, []) = (Ok false, (r2, body ++ [delimiter_ r])).
Proof.
  intros (Hv & Hc & Hcu & _) Hpend Ho Hcap Hb Hnin.
  destruct (read_succeeds (capacity_ r) (file_ r) Hv Hcu) as (bs & f' & Hr).
  destruct (read_ok _ _ _ _ Hv Hcu Hr) as (_ & Hp & Hle & _).
  rewrite Hpend in Hp. symmetry in Hp. apply app_eq_nil in Hp as [-> _].
  unfold read. cbn [read_loop]. rewrite Ho. unfold zlen at 1 3. rewrite Nat2Z.id, drop_all.
  cbn [scan]. rewrite Hr. rewrite (proj2 (Z.ltb_ge _ _)) by done. cbn [zlen length].
  eexists _, _. split; [done|]. simpl. unfold splice. simpl. rewrite !drop_0.
  rewrite Hb, resize_app_ge by (rewrite Hb in Hcap; unfold zlen in Hcap;
    rewrite length_app in Hcap; lia).
  replace (Z.to_nat (capacity_ r) - length body)%nat
    with (S (Z.to_nat (capacity_ r) - length body - 1))%nat.
  2: { rewrite Hb in Hcap. unfold zlen in Hcap. rewrite length_app in Hcap. simpl in Hcap. lia. }
  simpl. rewrite scan_found by done. done.
Qed.
End spec.

Lemma line_reader_read_witness :
  let r := make (MemoryFile.make [104; 105; 10; 120]) 10 2 in
  read_post r (read 9 (r, [])) [] ∧ ∃ r', read 9 (r, []) = (Ok false, (r', [104; 105; 10])).
Proof.
  split.
  - apply line_reader_read; [|simpl; lia]. by repeat split.
  - by eexists.
Defined.

Lemma line_reader_stale_after_eof_witness :
  let r := {| file_ := set_position 3 (MemoryFile.make [104; 105; 10]); delimiter_ := 10;
              capacity_ := 4; buffer_ := [104; 105; 10]; offset_ := 3 |} in
  ∃ r1 r2, read 5 (r, []) = (Ok true, (r1, [])) ∧
           read 5 (r1, []) = (Ok false, (r2, [104; 105; 10])).
Proof.
  apply (line_reader_stale_after_eof 4 {| file_ := set_position 3 (MemoryFile.make [104; 105; 10]);
    delimiter_ := 10; capacity_ := 4; buffer_ := [104; 105; 10]; offset_ := 3 |} [] [104; 105] []);
    [by repeat split|done|done|done|done|set_solver by lia].
Defined.
