(* ===== verification/OStream.v ===== *)
(** * io/stream: the output stream buffer over a file

    io::OStream is a std::streambuf whose put area is the 8192-byte array
    [buffer_].  The state holds the file and the characters between pbase() and
    pptr(); [sputc] and [xsputn] are the standard library's functions through
    which every formatted output goes. *)

From S2P Require Import Prelude File MemoryFile FileUtils.

(** traits_type::eof() *)
Definition EOF : Z := -1.

(** std::array<char, 8192> *)
Definition buffer_size : Z := 8192.

Record OStream (F : Type) : Type := { file_ : F; put_area : list Z }.
Arguments file_ {F}.
Arguments put_area {F}.

Section ostream.
Context {F : Type} `{!File F}.

(** OStream::OStream: setp over the whole array *)
Definition make (f : F) : OStream F := {| file_ := f; put_area := [] |}.

(** OStream::sync *)
Definition sync (fuel : nat) : ST (OStream F) Z := λ s,
  if zlen (put_area s) =? 0 then (Ok 0, s)
  else
    match FileUtils.write fuel (put_area s) (file_ s) with
    | (Ok _, f) => (Ok 0, {| file_ := f; put_area := [] |})
    | (Err _, f) => (Ok (-1), {| file_ := f; put_area := put_area s |})
    | (Crash, f) => (Crash, {| file_ := f; put_area := put_area s |})
    | (Hang, f) => (Hang, {| file_ := f; put_area := put_area s |})
    end.

(** OStream::overflow: the store through pptr() must stay inside the array. *)
Definition overflow (fuel : nat) (c : Z) : ST (OStream F) Z :=
  let* r := sync fuel in
  if r <? 0 then st_ret EOF
  else if c =? EOF then st_ret 0
  else λ s,
    if zlen (put_area s) <? buffer_size
    then (Ok 0, {| file_ := file_ s; put_area := put_area s ++ [u8 c] |})
    else (Crash, s).

(** std::streambuf::sputc *)
Definition sputc (fuel : nat) (c : Z) : ST (OStream F) Z := λ s,
  if zlen (put_area s) <? buffer_size
  then (Ok (u8 c), {| file_ := file_ s; put_area := put_area s ++ [u8 c] |})
  else overflow fuel (u8 c) s.

(** std::streambuf::xsputn: stores characters until one fails; the value is the
    number stored. *)
Fixpoint xsputn (fuel : nat) (cs : list Z) : ST (OStream F) Z :=
  match cs with
  | [] => st_ret 0
  | c :: cs =>
      let* r := sputc fuel c in
      if r =? EOF then st_ret 0
      else let* n := xsputn fuel cs in st_ret (1 + n)
  end.

(** OStream::~OStream flushes what is left. *)
Definition destroy (fuel : nat) (s : OStream F) : result unit * F :=
  let '(r, s') := sync fuel s in ((λ _, tt) <$> r, file_ s').
End ostream.

Section spec.
Context {F : Type} `{!File F, !Writer F, !ReliableWriter F}.
Implicit Types s : OStream F.

(** Everything put into the stream so far. *)
Definition streamed s : list Z := written (file_ s) ++ put_area s.

(** The put area fits in the array and the file has room for it and [n] more. *)
Definition wf (n : Z) s : Prop :=
  valid_writer (file_ s) ∧ zlen (put_area s) ≤ buffer_size ∧ 0 ≤ n ∧
  zlen (put_area s) + n ≤ room (file_ s).

Lemma sync_spec fuel n s :
  wf n s → (Z.to_nat buffer_size < fuel)%nat →
  ∃ s', sync fuel s = (Ok 0, s') ∧ put_area s' = [] ∧ streamed s' = streamed s ∧ wf n s'.
Proof.
  intros (Hv & Hsz & Hn & Hroom) Hfuel. unfold sync.
  destruct (Z.eqb_spec (zlen (put_area s)) 0) as [Hz|Hz].
  { exists s. split; [done|]. split; [|done].
    destruct (put_area s); [done|]. rewrite zlen_cons in Hz. pose proof (zlen_nonneg l). lia. }
  destruct (write_loop_spec fuel (put_area s) (file_ s) Hv) as (f' & Hw & Hv' & Hwr & Hroom').
  { lia. }
  { unfold zlen, buffer_size in *. lia. }
  rewrite Hw. eexists. split; [done|]. unfold streamed, wf. simpl.
  rewrite app_nil_r, Hwr, zlen_nil. unfold buffer_size in *. split_and!; done || lia.
Qed.

Lemma sputc_spec fuel n c s :
  wf (1 + n) s → 0 ≤ n → is_byte c → (Z.to_nat buffer_size < fuel)%nat →
  ∃ r s', sputc fuel c s = (Ok r, s') ∧ r ≠ EOF ∧ streamed s' = streamed s ++ [c] ∧ wf n s'.
Proof.
  intros Hwf Hn Hc Hfuel. unfold sputc. rewrite (uwrap_id 8 c) by done.
  unfold is_byte, EOF in *. destruct (Z.ltb_spec (zlen (put_area s)) buffer_size) as [Hlt|Hge].
  - destruct Hwf as (Hv & Hsz & _ & Hroom). eexists _, _. split; [done|].
    split; [lia|]. unfold streamed, wf. simpl. rewrite zlen_app, (assoc_L (++)).
    change (zlen [c]) with 1. split_and!; done || lia.
  - destruct (sync_spec fuel (1 + n) s Hwf Hfuel) as (s' & Hs & Hp & Hstr & Hwf').
    unfold overflow, st_bind. rewrite Hs. simpl.
    rewrite (proj2 (Z.eqb_neq _ _)), Hp, zlen_nil by (unfold EOF; lia). simpl.
    rewrite (uwrap_id 8 c) by done. eexists _, _. split; [done|]. split; [done|].
    destruct Hwf' as (Hv' & _ & _ & Hroom'). rewrite Hp, zlen_nil in Hroom'.
    rewrite <- Hstr. unfold streamed, wf. simpl. rewrite Hp, app_nil_r.
    change (zlen [c]) with 1. unfold buffer_size. split_and!; done || lia.
Qed.

Lemma xsputn_spec fuel m cs s :
  wf (zlen cs + m) s → 0 ≤ m → Forall is_byte cs → (Z.to_nat buffer_size < fuel)%nat →
  ∃ s', xsputn fuel cs s = (Ok (zlen cs), s') ∧ streamed s' = streamed s ++ cs ∧ wf m s'.
Proof.
  intros Hwf Hm Hcs Hfuel. revert s Hwf. induction Hcs as [|c cs Hc Hcs IH]; intros s Hwf.
  { exists s. by rewrite app_nil_r. }
  rewrite zlen_cons in *. cbn [xsputn]. pose proof (zlen_nonneg cs).
  destruct (sputc_spec fuel (zlen cs + m) c s) as (r & s1 & Hput & Hr & Hstr & Hwf1);
    [by rewrite Z.add_assoc|lia|done..|].
  destruct (IH s1 Hwf1) as (s2 & Hrec & Hstr2 & Hwf2). exists s2.
  unfold st_bind, st_ret. rewrite Hput, (proj2 (Z.eqb_neq _ _)), Hrec by done.
  rewrite Hstr2, Hstr, <- (assoc_L (++)). done.
Qed.

(** The destructor writes what is left. *)
Lemma destroy_spec fuel s :
  wf 0 s → (Z.to_nat buffer_size < fuel)%nat →
  ∃ f', destroy fuel s = (Ok tt, f') ∧ written f' = streamed s.
Proof.
  intros Hwf Hfuel. destruct (sync_spec fuel 0 s Hwf Hfuel) as (s' & Hsync & Hp & Hstr & _).
  exists (file_ s'). unfold destroy. rewrite Hsync. split; [done|].
  unfold streamed in *. by rewrite Hp, app_nil_r in Hstr.
Qed.

(** Characters put into an OStream and its destruction leave exactly these bytes
    appended to the file, through any number of buffer overflows; the put area never exceeds
    the buffer. *)
Theorem ostream_write_through fuel cs f :
  valid_writer f → zlen cs ≤ room f → Forall is_byte cs →
  (Z.to_nat buffer_size < fuel)%nat →
  ∃ s f', xsputn fuel cs (make f) = (Ok (zlen cs), s) ∧
    zlen (put_area s) ≤ buffer_size ∧
    destroy fuel s = (Ok tt, f') ∧ written f' = written f ++ cs.
Proof.
  intros Hv Hroom Hcs Hfuel.
  destruct (xsputn_spec fuel 0 cs (make f)) as (s & Hput & Hstr & Hwf);
    [unfold wf; simpl; rewrite zlen_nil; unfold buffer_size; pose proof (zlen_nonneg cs);
     split_and!; done || lia|done..|].
  destruct (destroy_spec fuel s Hwf Hfuel) as (f' & Hd & Hw).
  exists s, f'. split; [done|]. split; [apply Hwf|]. split; [done|].
  rewrite Hw, Hstr. unfold streamed. simpl. by rewrite app_nil_r.
Qed.
End spec.

Lemma ostream_write_through_witness :
  ∃ s f', xsputn (Z.to_nat 8193) [102; 111; 111] (make (MemoryFile.make [])) = (Ok 3, s) ∧
    destroy (Z.to_nat 8193) s = (Ok tt, f') ∧ written f' = [102; 111; 111].
Proof.
  destruct (ostream_write_through (Z.to_nat 8193) [102; 111; 111] (MemoryFile.make []))
    as (s & f' & Hp & _ & Hd & Hw); [by repeat split|done|by repeat constructor|
    unfold buffer_size; lia|].
  exists s, f'. split; [exact Hp|]. split; [exact Hd|exact Hw].
Defined.
