(* ===== verification/TextStream.v ===== *)
(** * Text on output streams

    What a program prints with operator<< to a std::ostream over an io::OStream.  A text is
    a list of lines, a line a list of bytes. *)

From Stdlib Require Import String Ascii.
From S2P Require Import Prelude File OStream.
#[local] Open Scope list_scope.

(** ** Text *)

Definition str (s : string) : list Z := (λ a, Z.of_N (N_of_ascii a)) <$> list_ascii_of_string s.

Definition newline : Z := 10.
Definition quote : Z := 34.

Definition unlines (ls : list (list Z)) : list Z := flat_map (λ l, l ++ [newline]) ls.

(** What operator<< prints for an unsigned integer, in base 10 or after std::hex *)
Fixpoint to_digits (fuel : nat) (base n : Z) (acc : list Z) : list Z :=
  match fuel with
  | O => acc
  | S fuel =>
      let acc := n mod base :: acc in
      if n / base =? 0 then acc else to_digits fuel base (n / base) acc
  end.

Definition digit_char (d : Z) : Z := if d <? 10 then 48 + d else 87 + d.

Definition print_base (base n : Z) : list Z := digit_char <$> to_digits 64 base n [].
Definition dec : Z → list Z := print_base 10.
Definition hex : Z → list Z := print_base 16.

(** A std::ostream over an OStream: after a character that was not taken, badbit is
    set and nothing more is put. *)
Record ostream (F : Type) : Type := { stream_ : OStream F; good_ : bool }.
#[global] Arguments stream_ {F}.
#[global] Arguments good_ {F}.

Section stream.
Context {F : Type} `{!File F} (fuel : nat).

Definition make_ostream (f : F) : ostream F := {| stream_ := OStream.make f; good_ := true |}.

Definition emit (ls : list (list Z)) : ST (ostream F) unit := λ o,
  if good_ o then
    let cs := unlines ls in
    match xsputn fuel cs (stream_ o) with
    | (Ok n, s) => (Ok tt, {| stream_ := s; good_ := n =? zlen cs |})
    | (Err e, s) => (Err e, {| stream_ := s; good_ := true |})
    | (Crash, s) => (Crash, {| stream_ := s; good_ := true |})
    | (Hang, s) => (Hang, {| stream_ := s; good_ := true |})
    end
  else (Ok tt, o).

(** A stream that goes away after [m], also when that returns an error: the results are
    that of [m] and the file. *)
Definition finish (m : ST (ostream F) unit) (f : F) : result unit * F :=
  let '(r, o) := m (make_ostream f) in
  let '(d, f') := destroy fuel (stream_ o) in
  ((_ ← r; d), f').

(** std::flush, which std::endl ends with *)
Definition flush : ST (ostream F) unit := λ o,
  if good_ o then
    match sync fuel (stream_ o) with
    | (Ok r, s) => (Ok tt, {| stream_ := s; good_ := negb (r =? -1) |})
    | (Err e, s) => (Err e, {| stream_ := s; good_ := true |})
    | (Crash, s) => (Crash, {| stream_ := s; good_ := true |})
    | (Hang, s) => (Hang, {| stream_ := s; good_ := true |})
    end
  else (Ok tt, o).
End stream.

(** ** Numbers and lines *)

Definition value (base : Z) (v : Z) (ds : list Z) : Z := foldl (λ v d, base * v + d) v ds.

Lemma to_digits_spec fuel base n acc :
  1 < base → 0 ≤ n < base ^ Z.of_nat fuel → (0 < fuel)%nat →
  ∃ ds, to_digits fuel base n acc = ds ++ acc ∧ ds ≠ [] ∧ Forall (λ d, 0 ≤ d < base) ds ∧
    value base 0 ds = n.
Proof.
  intros Hb. revert n acc. induction fuel as [|fuel IH]; intros n acc Hn Hf; [lia|].
  cbn [to_digits]. pose proof (Z.mod_pos_bound n base ltac:(lia)) as Hm.
  pose proof (Z.div_mod n base ltac:(lia)) as Hd.
  destruct (Z.eqb_spec (n / base) 0) as [Hz|Hz].
  - exists [n mod base]. split_and!; [done|done|by apply Forall_singleton|]. unfold value. simpl. lia.
  - rewrite Nat2Z.inj_succ, Z.pow_succ_r in Hn by lia.
    assert (0 ≤ n / base < base ^ Z.of_nat fuel) as Hq.
    { split; [apply Z.div_pos; lia|]. apply Z.div_lt_upper_bound; lia. }
    destruct (IH (n / base) (n mod base :: acc) Hq) as (ds & Heq & Hne & Hds & Hv).
    { destruct fuel; [|lia]. simpl in Hq. lia. }
    exists (ds ++ [n mod base]). rewrite Heq, <- (assoc_L (++)). split_and!; [done|by destruct ds| |].
    + apply Forall_app. split; [done|by apply Forall_singleton].
    + unfold value in *. rewrite foldl_app, Hv. simpl. lia.
Qed.

Lemma to_digits_length fuel base n acc : (length (to_digits fuel base n acc) ≤ fuel + length acc)%nat.
Proof.
  revert n acc. induction fuel as [|fuel IH]; intros n acc; [done|]. cbn [to_digits].
  destruct (_ =? 0); [simpl; lia|]. etrans; [apply IH|]. simpl. lia.
Qed.

Lemma dec_length n : zlen (dec n) ≤ 64.
Proof.
  unfold dec, print_base, zlen. rewrite length_fmap. pose proof (to_digits_length 64 10 n []) as Hl. cbn [length] in Hl. lia.
Qed.

(** A line has bytes other than the end of a line. *)
Definition line_char (c : Z) : Prop := is_byte c ∧ c ≠ newline.

#[export] Instance line_char_dec c : Decision (line_char c).
Proof. unfold line_char. apply _. Defined.

Lemma unlines_app ls ks : unlines (ls ++ ks) = unlines ls ++ unlines ks.
Proof. apply flat_map_app. Qed.

Lemma unlines_bytes ls : Forall (Forall line_char) ls → Forall is_byte (unlines ls).
Proof.
  induction 1 as [|l ls Hl _ IH]; [done|]. unfold unlines in *. simpl. rewrite !Forall_app. split_and!.
  - eapply Forall_impl; [exact Hl|]. by intros c [].
  - by apply Forall_singleton.
  - done.
Qed.

Lemma print_base_spec base n :
  1 < base ≤ 16 → 0 ≤ n < base ^ 64 →
  Forall line_char (print_base base n) ∧ ∃ q d, print_base base n = q ++ [digit_char d] ∧ 0 ≤ d < base.
Proof.
  intros Hb Hn. destruct (to_digits_spec 64 base n []) as (ds & Heq & Hne & Hds & _); [lia|done|lia|].
  unfold print_base. rewrite Heq, app_nil_r. split.
  - apply Forall_fmap. eapply Forall_impl; [exact Hds|]. intros d Hd. cbv beta in Hd.
    unfold compose, line_char, is_byte, newline, digit_char. destruct (Z.ltb_spec d 10); lia.
  - destruct ds as [|d ds _] using rev_ind; [done|]. apply Forall_app in Hds as [_ Hd]. apply Forall_cons in Hd as [Hd _].
    exists (digit_char <$> ds), d. by rewrite fmap_app.
Qed.

Lemma line_dec n : 0 ≤ n < 10 ^ 64 → Forall line_char (dec n).
Proof. intros. by apply print_base_spec. Qed.

(** ** Streams *)

Section spec.
Context {F : Type} `{!File F, !Writer F, !ReliableWriter F} (fuel : nat).
Context (Hfuel : (Z.to_nat buffer_size < fuel)%nat).

(** A stream that can take [n] more characters *)
Definition ready (n : Z) (o : ostream F) : Prop := good_ o = true ∧ OStream.wf n (stream_ o).

Lemma ready_mono n m o : 0 ≤ m ≤ n → ready n o → ready m o.
Proof using Type.
  clear fuel Hfuel. intros Hm [Hg (Hv & Hs & Hn & Hr)]. split; [done|]. split_and!; done || lia.
Qed.

Lemma emit_spec ls m o :
  ready (zlen (unlines ls) + m) o → 0 ≤ m → Forall (Forall line_char) ls →
  ∃ o', emit fuel ls o = (Ok tt, o') ∧ streamed (stream_ o') = streamed (stream_ o) ++ unlines ls ∧ ready m o'.
Proof.
  intros [Hg Hwf] Hm Hls.
  destruct (xsputn_spec fuel m (unlines ls) (stream_ o) Hwf Hm (unlines_bytes ls Hls) Hfuel)
    as (s' & Hx & Hs & Hwf').
  eexists. unfold emit. rewrite Hg, Hx, Z.eqb_refl. split; [done|]. by split.
Qed.

Lemma finish_spec m text f o' :
  m (make_ostream f) = (Ok tt, o') → streamed (stream_ o') = streamed (stream_ (make_ostream f)) ++ text →
  ready 0 o' → ∃ f', finish fuel m f = (Ok tt, f') ∧ written f' = written f ++ text.
Proof.
  intros Hm Hs [_ Hwf]. destruct (destroy_spec fuel (stream_ o') Hwf Hfuel) as (f' & Hd & Hw).
  exists f'. unfold finish. rewrite Hm, Hd. split; [done|]. rewrite Hw, Hs. unfold streamed. simpl.
  by rewrite app_nil_r.
Qed.

Lemma make_ostream_ready n f :
  valid_writer f → 0 ≤ n ≤ room f → ready n (make_ostream f).
Proof using Type.
  clear fuel Hfuel. intros Hv Hn. split; [done|]. unfold OStream.wf, buffer_size. simpl. rewrite zlen_nil.
  split_and!; done || lia.
Qed.

Lemma flush_spec m o :
  ready m o → ∃ o', flush fuel o = (Ok tt, o') ∧ streamed (stream_ o') = streamed (stream_ o) ∧ ready m o'.
Proof using Hfuel.
  intros [Hg Hwf]. destruct (sync_spec fuel m (stream_ o) Hwf Hfuel) as (s' & Hs & _ & Hstr & Hwf').
  eexists. unfold flush. rewrite Hg, Hs. split; [done|]. by split.
Qed.
End spec.
