(* ===== verification/Lines.v ===== *)
(** * Lines: io/stream, io/line-reader and the files between them

    What is printed line by line to an OStream over one file is read back line by line by
    a LineReader over another that holds the same bytes, such as the same file opened
    again.  Both sides go through their buffers and through files that take and deliver
    pieces of any size. *)

From S2P Require Import Prelude File MemoryFile OStream TextStream LineReader.

(** A caller that reads lines until the end of the file: the lines, and what follows the
    last delimiter *)
Fixpoint read_lines {F} `{!File F} (fuel n : nat) (r : LineReader F) : result (list (list Z) * list Z) :=
  match n with
  | O => Hang
  | S n =>
      match LineReader.read fuel (r, []) with
      | (Ok true, (_, line)) => Ok ([], line)
      | (Ok false, (r, line)) => '(lines, rest) ← read_lines fuel n r; Ok (line :: lines, rest)
      | (Err e, _) => Err e
      | (Crash, _) => Crash
      | (Hang, _) => Hang
      end
  end.

Section reading.
Context {F : Type} `{!File F, !Reader F, !ReliableReader F}.

Lemma split_first (d : Z) (a b a' b' : list Z) :
  d ∉ a → d ∉ a' → a ++ d :: b = a' ++ d :: b' → a = a' ∧ b = b'.
Proof.
  revert a'. induction a as [|x a IH]; intros [|x' a'] Ha Ha' Heq; simplify_eq/=; try done; try set_solver.
  destruct (IH a') as [-> ->]; set_solver.
Qed.

Lemma read_lines_spec fuel (r : LineReader F) ls rest :
  LineReader.wf r → (length (unread r) < fuel)%nat →
  unread r = flat_map (λ l, l ++ [delimiter_ r]) ls ++ rest →
  Forall (λ l, delimiter_ r ∉ l) ls → delimiter_ r ∉ rest →
  read_lines fuel (S (length ls)) r = Ok ((λ l, l ++ [delimiter_ r]) <$> ls, rest).
Proof.
  intros Hwf Hf Hu Hls Hrest. revert r Hwf Hf Hu Hls Hrest.
  induction ls as [|l ls IH]; intros r Hwf Hf Hu Hls Hrest.
  - assert (length (pending (file_ r)) < fuel)%nat as Hp
      by (unfold unread in Hf; rewrite length_app in Hf; lia).
    destruct (line_loop_spec fuel r [] Hwf Hp) as [(r' & body & Hr & Hun & _)|(r' & Hr & _)].
    + rewrite Hu in Hun. simpl in Hun. rewrite Hun in Hrest. set_solver.
    + cbn [read_lines length]. unfold LineReader.read. rewrite Hr, Hu. done.
  - assert (length (pending (file_ r)) < fuel)%nat as Hp
      by (unfold unread in Hf; rewrite length_app in Hf; lia).
    apply Forall_cons in Hls as [Hl Hls]. simpl in Hu. rewrite <- !(assoc_L (++)) in Hu. simpl in Hu.
    destruct (line_loop_spec fuel r [] Hwf Hp) as [(r' & body & Hr & Hun & Hb & Hwf' & Hd)|(r' & _ & Hno & _)].
    + pose proof Hun as Hsp. rewrite Hu in Hsp. simpl in Hsp. apply split_first in Hsp as [<- Hsp]; [|done..].
      change (length (l :: ls)) with (S (length ls)). specialize (IH r'). revert IH.
      generalize (S (length ls)) as n. intros n IH. cbn [read_lines].
      unfold LineReader.read. rewrite Hr.
      rewrite <- Hd in Hsp, Hls, Hrest. rewrite IH by (done || rewrite Hun, length_app in Hf; simpl in Hf; lia).
      cbn [mbind result_bind]. by rewrite Hd.
    + rewrite Hu in Hno. set_solver.
Qed.
End reading.

(** C21: Lines that are printed to an OStream over a file, through its buffer and writes of
    any size, are read back one by one by a LineReader over a file that holds the bytes
    written, with any buffer capacity and reads of any size, and then the end of the file is
    reported. *)
Theorem lines_roundtrip {F G} `{!File F, !Writer F, !ReliableWriter F} `{!File G, !Reader G, !ReliableReader G}
    fuel ls (out : F) :
  (Z.to_nat buffer_size < fuel)%nat → Forall (Forall line_char) ls →
  valid_writer out → written out = [] → zlen (unlines ls) ≤ room out →
  ∃ out', finish fuel (emit fuel ls) out = (Ok tt, out') ∧
    ∀ (input : G) capacity fuel', valid_reader input → pending input = written out' →
      in_u 63 capacity → 0 < capacity → (length (unlines ls) < fuel')%nat →
      read_lines fuel' (S (length ls)) (LineReader.make input newline capacity) =
      Ok ((λ l, l ++ [newline]) <$> ls, []).
Proof.
  intros Hfuel Hls Hv Hw Hroom. pose proof (zlen_nonneg (unlines ls)).
  destruct (emit_spec fuel Hfuel ls 0 (make_ostream out)) as (o & He & Hs & Hr); [|done|done|].
  { rewrite Z.add_0_r. apply make_ostream_ready; [done|lia]. }
  destruct (finish_spec fuel Hfuel _ _ out o He Hs Hr) as (out' & Hfin & Hw').
  exists out'. split; [done|]. intros input capacity fuel' Hvr Hp Hcap Hpos Hf. rewrite Hw in Hw'. cbn [app] in Hw'.
  assert (unread (LineReader.make input newline capacity) = unlines ls) as Hu
    by (unfold unread; simpl; by rewrite Hp, Hw').
  apply read_lines_spec; [| |by rewrite Hu, app_nil_r| |apply not_elem_of_nil].
  - by split_and!.
  - by rewrite Hu.
  - eapply Forall_impl; [exact Hls|]. simpl. intros l Hl Hin. rewrite Forall_forall in Hl. by destruct (Hl _ Hin).
Qed.

Lemma lines_roundtrip_witness :
  ∃ out', finish (Z.to_nat 8193) (emit (Z.to_nat 8193) [[104; 105]; []; [33]]) (MemoryFile.make []) = (Ok tt, out') ∧
    read_lines 9 4 (LineReader.make (MemoryFile.make (written out')) newline 3) =
    Ok ([[104; 105; newline]; [newline]; [33; newline]], []).
Proof.
  destruct (lines_roundtrip (F := MemoryFile) (G := MemoryFile) (Z.to_nat 8193) [[104; 105]; []; [33]] (MemoryFile.make []))
    as (out' & Hw & Hr).
  - unfold buffer_size. lia.
  - by repeat constructor.
  - by repeat split.
  - reflexivity.
  - vm_compute. discriminate.
  - exists out'. split; [exact Hw|]. apply (Hr (MemoryFile.make (written out')) 3 9%nat).
    + vm_compute in Hw. injection Hw as <-. by repeat split.
    + vm_compute in Hw. injection Hw as <-. reflexivity.
    + done.
    + done.
    + apply Nat.ltb_lt. reflexivity.
Defined.
