(* ===== verification/Logging.v ===== *)
(** * base/logging

    The text of a record on the console.  boost::log delivers the record; the text of its
    time is that of [format_date_time], an argument.  What the text means is defined by
    [render], a terminal that understands the escape sequences that set the colours: every
    character with the attributes it is shown in. *)

From Stdlib Require Import String.
From S2P Require Import Prelude TextStream.
#[local] Open Scope list_scope.

Inductive severity_level : Type := trace | debug | info | warning | error | fatal.

Record log_record : Type := {
  severity : severity_level;
  time_stamp : Z;
  source_file : list Z;
  source_line : Z;
  message : list Z;
}.

Definition escape : Z := 27.

(** The cases of the switch *)
Definition severity_prefix (s : severity_level) : list Z :=
  escape :: match s with
  | trace => str "[37mT"
  | debug => str "[34mD"
  | info => str "[32mI"
  | warning => str "[33mW"
  | error => str "[31mE"
  | fatal => str "[30;41mF"
  end.

Section formatter.
Context (format_date_time : Z → list Z).

(** console_log_formatter *)
Definition console_log_formatter (r : log_record) : list Z :=
  severity_prefix (severity r) ++ format_date_time (time_stamp r) ++
  str " " ++ source_file r ++ str ":" ++ dec (source_line r) ++ escape :: str "[0m " ++ message r.
End formatter.

(** ** A terminal *)

Inductive terminal : Type := Plain | Escape | Parameters (read : list Z).

(** Sets of attributes are the parameters that chose them; 0 resets them. *)
Definition select (parameters : list Z) : list Z := if bool_decide (parameters = str "0") then [] else parameters.

Fixpoint render (t : terminal) (attributes : list Z) (s : list Z) : list (Z * list Z) :=
  match s with
  | [] => []
  | c :: s =>
      match t with
      | Plain => if c =? escape then render Escape attributes s else (c, attributes) :: render Plain attributes s
      | Escape => if c =? 91 then render (Parameters []) attributes s else render Plain attributes s
      | Parameters ps =>
          if c =? 109 then render Plain (select ps) s else render (Parameters (ps ++ [c])) attributes s
      end
  end.

Definition letter (s : severity_level) : Z :=
  match s with trace => 84 | debug => 68 | info => 73 | warning => 87 | error => 69 | fatal => 70 end.

Definition colour (s : severity_level) : list Z :=
  match s with
  | trace => str "37" | debug => str "34" | info => str "32" | warning => str "33" | error => str "31"
  | fatal => str "30;41"
  end.

Definition shown (attributes text : list Z) : list (Z * list Z) := (λ c, (c, attributes)) <$> text.

Lemma render_plain attributes text s :
  escape ∉ text → render Plain attributes (text ++ s) = shown attributes text ++ render Plain attributes s.
Proof.
  induction text as [|c text IH]; intros Hn; [done|]. apply not_elem_of_cons in Hn as [Hc Hn]. simpl.
  rewrite (proj2 (Z.eqb_neq c escape)) by done. by rewrite IH.
Qed.

Lemma render_prefix s rest :
  render Plain [] (severity_prefix s ++ rest) = (letter s, colour s) :: render Plain (colour s) rest.
Proof. by destruct s. Qed.

Lemma dec_plain n : 0 ≤ n < 10 ^ 64 → escape ∉ dec n.
Proof.
  intros Hn Hin. destruct (to_digits_spec 64 10 n []) as (ds & Heq & _ & Hds & _); [lia|done|lia|].
  unfold dec, print_base in Hin. rewrite Heq, app_nil_r in Hin.
  apply list_elem_of_fmap in Hin as (d & Hd & Hin). rewrite Forall_forall in Hds. specialize (Hds d Hin).
  unfold escape, digit_char in Hd. destruct (d <? 10); lia.
Qed.

(** The head of a log line is shown in the colour of its severity, and its message in the
    default colours, when none of the parts has escapes of its own. *)
Theorem log_line_shown format_date_time r :
  escape ∉ format_date_time (time_stamp r) → escape ∉ source_file r → in_u 64 (source_line r) →
  escape ∉ message r →
  render Plain [] (console_log_formatter format_date_time r) =
  shown (colour (severity r))
    (letter (severity r) :: format_date_time (time_stamp r) ++
     str " " ++ source_file r ++ str ":" ++ dec (source_line r)) ++
  shown [] (str " " ++ message r).
Proof.
  intros Ht Hf [Hl Hl'] Hm. unfold console_log_formatter. rewrite render_prefix.
  assert (escape ∉ dec (source_line r)) as Hd by (apply dec_plain; split; [done|]; etrans; [done|]; by vm_compute).
  assert (escape ∉ str " " ∧ escape ∉ str ":") as [Hs Hc] by (split; apply (bool_decide_unpack (_ ∉ _)); by vm_compute).
  rewrite !render_plain by done.
  change (escape :: str "[0m " ++ message r) with (escape :: 91 :: 48 :: 109 :: str " " ++ message r).
  change (render Plain (colour (severity r)) (escape :: 91 :: 48 :: 109 :: str " " ++ message r))
    with (render Plain [] (str " " ++ message r)).
  rewrite render_plain by done. rewrite <- (app_nil_r (message r)) at 1. rewrite render_plain by done.
  unfold shown. cbn [render]. rewrite !fmap_cons, !fmap_app, ?app_nil_r. cbn [app].
  by rewrite <- !(assoc_L (++)).
Qed.

Example log_line :
  console_log_formatter (λ _, str "0102 03:04:05.000006")
    {| severity := warning; time_stamp := 0; source_file := str "a.cc"; source_line := 17; message := str "low" |} =
  escape :: str "[33mW0102 03:04:05.000006 a.cc:17" ++ escape :: str "[0m low".
Proof. reflexivity. Qed.
