(* ===== verification/Varint.v ===== *)
(** * util/varint: base-128 integers

    The template parameter T is described by [int_type]; the shifted byte of
    parse_varint is a 32-bit int, as in the source, before it is combined with
    the T accumulator. *)

From S2P Require Import Prelude.

(** append_varint: for a negative value of a signed T the shift never reaches
    zero. *)
Fixpoint append_varint (fuel : nat) (value : Z) (output : list Z) : result (list Z) :=
  match fuel with
  | O => Hang
  | S fuel =>
      let cur := u8 (Z.land value 0x7f) in
      let value := value ≫ 7 in
      if value =? 0 then Ok (output ++ [cur])
      else append_varint fuel value (output ++ [Z.lor cur 0x80])
  end.

(** The loop of parse_varint; a shift of an int by 32 or more is undefined. *)
Fixpoint parse_loop (t : int_type) (input : list Z) (size result : Z) :
    Prelude.result (option (Z * list Z)) :=
  match input with
  | [] => Ok None
  | cur :: input =>
      if 32 <=? size * 7 then Crash
      else
        let result := convert t (Z.lor result (s32 (Z.land cur 0x7f ≪ (size * 7)))) in
        if Z.land cur 0x80 =? 0 then Ok (Some (result, input))
        else parse_loop t input (size + 1) result
  end.

(** parse_varint: [None] is a false return, which leaves the input alone; on
    success the value and the rest of the input are given. *)
Definition parse_varint (t : int_type) (input : list Z) : result (option (Z * list Z)) :=
  parse_loop t input 0 0.

(** ** Encoding *)

(** The bytes of a value in [n] groups at most. *)
Fixpoint groups (n : nat) (v : Z) : list Z :=
  match n with
  | O => []
  | S n => if v / 128 =? 0 then [v mod 128] else 128 + v mod 128 :: groups n (v / 128)
  end.

Lemma low7 v : Z.land v 0x7f = v mod 128.
Proof. by apply (land_low_bits v 7). Qed.

Lemma lor_0x80 b : 0 ≤ b < 128 → Z.lor b 0x80 = 128 + b.
Proof. intros. change (Z.lor b 0x80) with (Z.lor b (1 ≪ 7)). rewrite lor_shiftl_add by lia. lia. Qed.

Lemma append_varint_groups fuel v output :
  0 ≤ v < 128 ^ Z.of_nat fuel → (0 < fuel)%nat →
  append_varint fuel v output = Ok (output ++ groups fuel v).
Proof.
  revert v output. induction fuel as [|fuel IH]; intros v output Hv Hf; [lia|].
  cbn [append_varint groups]. rewrite low7.
  pose proof (Z.mod_pos_bound v 128 ltac:(lia)).
  rewrite (uwrap_id 8) by (unfold in_u; lia). rewrite Z.shiftr_div_pow2 by lia.
  change (2 ^ 7) with 128. destruct (Z.eqb_spec (v / 128) 0) as [|Hne]; [done|].
  rewrite lor_0x80 by lia.
  rewrite Nat2Z.inj_succ, Z.pow_succ_r in Hv by lia.
  assert (0 ≤ v / 128 < 128 ^ Z.of_nat fuel) as Hdiv.
  { split; [apply Z.div_pos; lia|]. apply Z.div_lt_upper_bound; lia. }
  destruct fuel as [|fuel]; [simpl in Hdiv; lia|].
  rewrite IH by (done || lia). by rewrite <- (assoc_L (++)).
Qed.

(** ** Decoding *)

(** A step of the accumulator is an addition as long as T has at most 32 bits
    or the sum stays below 2^31. *)
Definition fits (t : int_type) (v : Z) : Prop :=
  in_range t v ∧ 0 ≤ v ∧ (0 < width t ≤ 32 ∨ 32 < width t ∧ v < 2 ^ 31).

Lemma convert_step t acc x k :
  0 ≤ k → 0 ≤ acc < 2 ^ k → 0 ≤ x → fits t (acc + x * 2 ^ k) →
  convert t (Z.lor acc (s32 (x ≪ k))) = acc + x * 2 ^ k.
Proof.
  intros Hk Hacc Hx (Hr & Hpos & Hw).
  assert (0 ≤ x * 2 ^ k) by (apply Z.mul_nonneg_nonneg; lia).
  destruct Hw as [Hw|[Hw Hlt]].
  - rewrite <- convert_uwrap, uwrap_lor, uwrap_swrap, <- uwrap_lor by lia.
    rewrite lor_shiftl_add, convert_uwrap by lia. apply convert_id; [lia|done].
  - rewrite swrap_id; [|lia|rewrite Z.shiftl_mul_pow2 by done; unfold in_s; simpl; lia].
    rewrite lor_shiftl_add by lia. apply convert_id; [lia|done].
Qed.

Lemma fits_le t a b : 0 ≤ a ≤ b → fits t b → fits t a.
Proof.
  unfold fits, in_range, in_s, in_u. intros Hab (Hr & ? & Hw). split; [|split; [lia|]].
  - destruct (signed t); [|lia]. split; [|lia].
    pose proof (Z.pow_nonneg 2 (width t - 1)). lia.
  - destruct Hw as [|[??]]; [by left|right; lia].
Qed.

Lemma low7_group c : 0 ≤ c < 128 → Z.land (128 + c) 0x7f = c ∧ Z.land c 0x7f = c.
Proof.
  intros. rewrite !low7, Z.add_mod, Z_mod_same_full, Z.add_0_l, Z.mod_mod, Z.mod_small by lia.
  done.
Qed.

Lemma flag_group c : 0 ≤ c < 128 → Z.land (128 + c) 0x80 = 128 ∧ Z.land c 0x80 = 0.
Proof.
  intros. split; apply Z.bits_inj'; intros i Hi.
  - rewrite <- lor_0x80 by lia. rewrite Z.land_spec, Z.lor_spec.
    by destruct (Z.testbit c i), (Z.testbit 128 i).
  - rewrite Z.land_spec, Z.bits_0, <- (Z.mod_small c (2 ^ 7)), Z.testbit_mod_pow2 by lia.
    change 0x80 with (2 ^ 7). rewrite Z.pow2_bits_eqb by lia.
    destruct (Z.ltb_spec i 7), (Z.eqb_spec 7 i); simpl; try lia; by rewrite ?andb_false_r.
Qed.

Lemma pow_size size : 0 ≤ size → 2 ^ ((size + 1) * 7) = 2 ^ (size * 7) * 128.
Proof.
  intros. replace ((size + 1) * 7) with (size * 7 + 7) by lia. by rewrite Z.pow_add_r by lia.
Qed.

Section step.
Context (t : int_type) (size acc c : Z) (rest : list Z).
Hypothesis Hsize : 0 ≤ size.
Hypothesis Hshift : size * 7 < 32.
Hypothesis Hacc : 0 ≤ acc < 2 ^ (size * 7).
Hypothesis Hc : 0 ≤ c < 128.
Hypothesis Hfits : fits t (acc + c * 2 ^ (size * 7)).

(** A byte with the continuation bit adds its group and goes on. *)
Lemma parse_step_more :
  parse_loop t (128 + c :: rest) size acc =
  parse_loop t rest (size + 1) (acc + c * 2 ^ (size * 7)).
Proof using Type*.
  cbn [parse_loop]. destruct (low7_group c Hc) as [-> _], (flag_group c Hc) as [-> _].
  rewrite (proj2 (Z.leb_gt _ _)), convert_step by (done || lia). done.
Qed.

(** A byte without it ends the number. *)
Lemma parse_step_last :
  parse_loop t (c :: rest) size acc = Ok (Some (acc + c * 2 ^ (size * 7), rest)).
Proof using Type*.
  cbn [parse_loop]. destruct (low7_group c Hc) as [_ ->], (flag_group c Hc) as [_ ->].
  rewrite (proj2 (Z.leb_gt _ _)), convert_step by (done || lia). done.
Qed.
End step.

Lemma parse_loop_groups t n v size acc rest :
  0 ≤ size → 0 ≤ acc < 2 ^ (size * 7) → 0 ≤ v < 128 ^ Z.of_nat n → (0 < n)%nat →
  (v = 0 → size = 0) → fits t (acc + v * 2 ^ (size * 7)) → acc + v * 2 ^ (size * 7) < 2 ^ 32 →
  parse_loop t (groups n v ++ rest) size acc =
  Ok (Some (acc + v * 2 ^ (size * 7), rest)).
Proof.
  revert v size acc. induction n as [|n IH]; intros v size acc Hs Hacc Hv Hn Hv0 Hfits Hlt; [lia|].
  assert (0 < 2 ^ (size * 7)) as Hp by (apply Z.pow_pos_nonneg; lia).
  assert (size * 7 < 32) as Hshift.
  { destruct (Z.eq_dec v 0) as [->|]; [rewrite Hv0 by done; lia|].
    apply (Z.pow_lt_mono_r_iff 2); nia || lia. }
  pose proof (Z.div_mod v 128 ltac:(lia)) as Hdm.
  pose proof (Z.mod_pos_bound v 128 ltac:(lia)) as Hm.
  pose proof (Z.div_pos v 128 ltac:(lia) ltac:(lia)) as Hd.
  assert (fits t (acc + v mod 128 * 2 ^ (size * 7))) as Hf
    by (eapply fits_le; [|done]; nia).
  cbn [groups]. destruct (Z.eqb_spec (v / 128) 0) as [Hz|Hnz]; cbn [app].
  - rewrite parse_step_last by done. do 3 f_equal. nia.
  - rewrite parse_step_more by done. pose proof (pow_size size Hs) as Hpow.
    rewrite Nat2Z.inj_succ, Z.pow_succ_r in Hv by lia.
    assert (v / 128 < 128 ^ Z.of_nat n) by (apply Z.div_lt_upper_bound; lia).
    destruct n as [|n]; [simpl in *; lia|].
    assert (acc + v mod 128 * 2 ^ (size * 7) + v / 128 * 2 ^ ((size + 1) * 7) =
            acc + v * 2 ^ (size * 7)) as Hsum by nia.
    rewrite IH; [|lia|nia|lia|lia|lia|by rewrite Hsum|lia]. by rewrite Hsum.
Qed.

(** C24: parse_varint returns what append_varint wrote and leaves the bytes that follow, for
    every non-negative value of a type of at most 32 bits, and below 2^31 for a wider type. *)
Theorem varint_roundtrip t v output rest :
  fits t v →
  ∃ bytes, append_varint 5 v output = Ok (output ++ bytes) ∧
           parse_varint t (bytes ++ rest) = Ok (Some (v, rest)).
Proof.
  intros Hfits. exists (groups 5 v). pose proof Hfits as (Hr & Hpos & Hw).
  assert (v < 2 ^ 32) as Hlt.
  { destruct Hw as [Hw|]; [|lia]. assert (2 ^ width t ≤ 2 ^ 32) by (apply Z.pow_le_mono_r; lia).
    assert (2 ^ (width t - 1) ≤ 2 ^ width t) by (apply Z.pow_le_mono_r; lia).
    unfold in_range, in_s, in_u in Hr. destruct (signed t); lia. }
  rewrite append_varint_groups by (simpl; lia). split; [done|]. unfold parse_varint.
  rewrite parse_loop_groups; simpl; rewrite ?Z.mul_1_r; done || lia.
Qed.

Lemma varint_roundtrip_witness :
  ∃ bytes, append_varint 5 86942 [7] = Ok ([7] ++ bytes) ∧
           parse_varint int32 (bytes ++ [9]) = Ok (Some (86942, [9])).
Proof.
  apply (varint_roundtrip int32 86942 [7] [9]).
  split; [done|]. split; [done|]. left. done.
Defined.

(** ** 64-bit values

    The groups of a value, and how the decoder runs on four of them. *)

Lemma groups_more n v : v / 128 ≠ 0 → groups (S n) v = 128 + v mod 128 :: groups n (v / 128).
Proof. intros. cbn [groups]. by rewrite (proj2 (Z.eqb_neq _ _)). Qed.

Lemma parse_groups_more t n v size acc rest :
  0 ≤ size → 0 ≤ acc < 2 ^ (size * 7) → size * 7 < 32 → 0 < v / 128 →
  fits t (acc + v mod 128 * 2 ^ (size * 7)) →
  parse_loop t (groups (S n) v ++ rest) size acc =
  parse_loop t (groups n (v / 128) ++ rest) (size + 1) (acc + v mod 128 * 2 ^ (size * 7)).
Proof.
  intros. rewrite groups_more by lia. cbn [app].
  rewrite parse_step_more; [done..|apply Z.mod_pos_bound; lia|done].
Qed.

Lemma uint64_fits v : 0 ≤ v < 2 ^ 31 → fits uint64 v.
Proof. intros. unfold fits, in_range, in_u. simpl. lia. Qed.

(** The first four groups of a large value are decoded correctly. *)
Lemma parse_four n v rest :
  2 ^ 28 ≤ v →
  parse_varint uint64 (groups (4 + n) v ++ rest) =
  parse_loop uint64 (groups n (v / 2 ^ 28) ++ rest) 4 (v mod 2 ^ 28).
Proof.
  intros Hv. unfold parse_varint. simpl Nat.add.
  pose proof (Z.mod_pos_bound v 128 ltac:(lia)).
  pose proof (Z.mod_pos_bound (v / 128) 128 ltac:(lia)).
  pose proof (Z.mod_pos_bound (v / 128 / 128) 128 ltac:(lia)).
  pose proof (Z.mod_pos_bound (v / 128 / 128 / 128) 128 ltac:(lia)).
  rewrite parse_groups_more; [|try lia..]; [|apply Z.div_str_pos; lia|apply uint64_fits; lia].
  rewrite parse_groups_more; [|try lia..];
    [|rewrite !Z.div_div by lia; apply Z.div_str_pos; lia|apply uint64_fits; lia].
  rewrite parse_groups_more; [|try lia..];
    [|rewrite !Z.div_div by lia; apply Z.div_str_pos; lia|apply uint64_fits; lia].
  rewrite parse_groups_more; [|try lia..];
    [|rewrite !Z.div_div by lia; apply Z.div_str_pos; lia|apply uint64_fits; lia].
  f_equal.
  - by rewrite !Z.div_div by lia.
  - change (2 ^ 28) with (128 * (128 * (128 * 128))).
    rewrite (Z.rem_mul_r v 128 (128 * (128 * 128))) by lia.
    rewrite (Z.rem_mul_r (v / 128) 128 (128 * 128)) by lia.
    rewrite (Z.rem_mul_r (v / 128 / 128) 128 128) by lia. lia.
Qed.

(** For uint64_t, parse_varint does not return what append_varint wrote: values from
    2^31 to 2^32 come back sign-extended, and values from 2^35 on shift a 32-bit int by 35 or
    more, which is undefined. *)
Theorem varint_uint64_broken :
  (∀ v, 2 ^ 31 ≤ v < 2 ^ 32 →
     ∃ bytes, append_varint 10 v [] = Ok bytes ∧
              parse_varint uint64 bytes = Ok (Some (v + 2 ^ 64 - 2 ^ 32, []))) ∧
  (∀ v, 2 ^ 35 ≤ v < 2 ^ 64 →
     ∃ bytes, append_varint 10 v [] = Ok bytes ∧ parse_varint uint64 bytes = Crash).
Proof.
  split; intros v Hv; exists (groups 10 v);
    (split; [by rewrite append_varint_groups by (simpl; lia)|]);
    rewrite <- (app_nil_r (groups 10 v)); rewrite (parse_four 6) by lia.
  - set (hi := v / 2 ^ 28). pose proof (Z.div_mod v (2 ^ 28) ltac:(lia)) as Hdm. fold hi in Hdm.
    pose proof (Z.mod_pos_bound v (2 ^ 28) ltac:(lia)) as Hm.
    assert (8 ≤ hi < 16) as Hhi by lia.
    cbn [groups]. rewrite Z.div_small, Z.mod_small by lia. cbn [app parse_loop Z.eqb].
    destruct (low7_group hi) as [_ ->]; [lia|]. destruct (flag_group hi) as [_ ->]; [lia|].
    assert (s32 (hi ≪ (4 * 7)) = (hi - 16) ≪ 28) as ->.
    { unfold swrap. rewrite !Z.shiftl_mul_pow2 by lia. simpl.
      rewrite <- (Z.mod_add (hi * 268435456 + 2147483648) (-1)) by lia.
      rewrite Z.mod_small by lia. lia. }
    rewrite lor_shiftl_add by lia. simpl. unfold convert, uwrap. simpl.
    rewrite <- (Z.mod_add _ 1) by lia. rewrite Z.mod_small by lia. do 3 f_equal. lia.
  - assert (128 ≤ v / 2 ^ 28) as Hhi by (apply Z.div_le_lower_bound; lia).
    assert (v / 2 ^ 28 / 128 ≠ 0) by (pose proof (Z.div_str_pos (v / 2 ^ 28) 128); lia).
    rewrite groups_more by done. cbn [app parse_loop].
    pose proof (Z.mod_pos_bound (v / 2 ^ 28) 128 ltac:(lia)) as Hm.
    destruct (flag_group _ Hm) as [-> _].
    destruct (groups 5 (v / 2 ^ 28 / 128)) eqn:E; [|done].
    cbn [groups] in E. by destruct (v / 2 ^ 28 / 128 / 128 =? 0).
Qed.
