(* ===== verification/ConsumeInt.v ===== *)
(** * util/strings: consuming a decimal integer from a string_view

    Strings are lists of bytes.  Arithmetic on T is the arithmetic of C++: a T
    narrower than int is promoted and the result converted back, an unsigned T
    wraps around, and a signed T of at least 32 bits must not overflow. *)

From S2P Require Import Prelude.

Definition is_digit (c : Z) : bool := (48 <=? c) && (c <=? 57).

(** The value of an arithmetic expression stored to a T. *)
Definition store_T (t : int_type) (z : Z) : result Z :=
  if signed t && (32 <=? width t) then check_s (width t) z else Ok (convert t z).

(** The digit loop of consume_int *)
Fixpoint consume_digits (t : int_type) (acc : Z) (input : list Z) : result (Z * list Z) :=
  match input with
  | c :: rest =>
      if is_digit c then
        acc' ← store_T t (acc * 10 + (c - 48));
        consume_digits t acc' rest
      else Ok (acc, input)
  | [] => Ok (acc, input)
  end.

(** consume_int<T>: the value and what is left of the view *)
Definition consume_int (t : int_type) (input : list Z) : result (Z * list Z) :=
  let '(negate, input) :=
    match input with
    | c :: rest => if c =? 45 then (true, rest) else (false, input)
    | [] => (false, input)
    end in
  '(value, rest) ← consume_digits t 0 input;
  if negate : bool then
    value' ← store_T t (- value);
    Ok (value', rest)
  else Ok (value, rest).

Definition consume_int8 := consume_int {| width := 8; signed := true |}.
Definition consume_uint8 := consume_int {| width := 8; signed := false |}.
Definition consume_int16 := consume_int {| width := 16; signed := true |}.
Definition consume_uint16 := consume_int {| width := 16; signed := false |}.
Definition consume_int32 := consume_int int32.
Definition consume_uint32 := consume_int uint32.
Definition consume_int64 := consume_int {| width := 64; signed := true |}.
Definition consume_uint64 := consume_int uint64.

(** ** Specification *)

(** The number that a string of digits denotes. *)
Definition decimal (ds : list Z) : Z := foldl (λ acc c, acc * 10 + (c - 48)) 0 ds.

Definition digits (ds : list Z) : Prop := Forall (λ c, is_digit c = true) ds.

Definition no_digit_first (rest : list Z) : Prop :=
  match rest with
  | c :: _ => is_digit c = false
  | [] => True
  end.

(** The view handed to consume_int: an optional sign, digits, and the rest. *)
Definition numeral (neg : bool) (ds rest : list Z) : list Z :=
  (if neg then [45] else []) ++ ds ++ rest.

(** Without a sign, an empty digit string must not be followed by one. *)
Definition splits (neg : bool) (ds rest : list Z) : Prop :=
  digits ds ∧ no_digit_first rest ∧ (neg = false → ds = [] → head rest ≠ Some 45).

Lemma consume_digits_stop t acc rest :
  no_digit_first rest → consume_digits t acc rest = Ok (acc, rest).
Proof. destruct rest as [|c rest]; [done|]. simpl. intros ->. done. Qed.

Lemma is_digit_range c : is_digit c = true → 48 ≤ c ≤ 57.
Proof. unfold is_digit. intros [?%Z.leb_le ?%Z.leb_le]%andb_prop. lia. Qed.

Lemma foldl_decimal_le acc ds :
  digits ds → 0 ≤ acc → acc ≤ foldl (λ acc c, acc * 10 + (c - 48)) acc ds.
Proof.
  intros Hds. revert acc. induction Hds as [|d ds Hd _ IH]; intros acc Hacc; simpl; [done|].
  apply is_digit_range in Hd. specialize (IH (acc * 10 + (d - 48)) ltac:(lia)). lia.
Qed.

(** An accumulator of an unsigned T follows the decimal value modulo 2^w. *)
Lemma consume_digits_unsigned w acc ds rest :
  0 < w → digits ds → no_digit_first rest →
  consume_digits {| width := w; signed := false |} (uwrap w acc) (ds ++ rest) =
  Ok (uwrap w (foldl (λ acc c, acc * 10 + (c - 48)) acc ds), rest).
Proof.
  intros Hw Hds Hrest. revert acc. induction Hds as [|d ds Hd _ IH]; intros acc; simpl.
  { by rewrite consume_digits_stop. }
  rewrite Hd. simpl. unfold convert. simpl. rewrite <- IH. f_equal.
  unfold uwrap. rewrite Zplus_mod, Zmult_mod, Z.mod_mod, <- Zmult_mod, <- Zplus_mod by lia.
  done.
Qed.

(** A signed accumulator is the decimal value until it leaves the type. *)
Lemma consume_digits_signed w acc ds rest :
  32 ≤ w → digits ds → no_digit_first rest → 0 ≤ acc < 2 ^ (w - 1) →
  consume_digits {| width := w; signed := true |} acc (ds ++ rest) =
  let v := foldl (λ acc c, acc * 10 + (c - 48)) acc ds in
  if v <? 2 ^ (w - 1) then Ok (v, rest) else Crash.
Proof.
  intros Hw Hds Hrest. revert acc. induction Hds as [|d ds Hd Hds IH]; intros acc Hacc; simpl.
  { rewrite consume_digits_stop, (proj2 (Z.ltb_lt _ _)) by (done || lia). done. }
  rewrite Hd. apply is_digit_range in Hd. unfold store_T. simpl.
  rewrite (proj2 (Z.leb_le 32 w)) by done. unfold check_s.
  rewrite (proj2 (Z.leb_le (- 2 ^ (w - 1)) _)) by lia. simpl.
  destruct (Z.ltb_spec (acc * 10 + (d - 48)) (2 ^ (w - 1))) as [Hlt|Hge]; simpl.
  - apply IH. lia.
  - pose proof (foldl_decimal_le (acc * 10 + (d - 48)) ds Hds ltac:(lia)).
    by rewrite (proj2 (Z.ltb_ge _ _)) by lia.
Qed.

(** The sign is taken off exactly when there is one. *)
Lemma consume_int_numeral t neg ds rest :
  splits neg ds rest →
  consume_int t (numeral neg ds rest) =
  ('(value, rest) ← consume_digits t 0 (ds ++ rest);
   if neg then value' ← store_T t (- value); Ok (value', rest) else Ok (value, rest)).
Proof.
  intros (Hds & _ & Hsign). unfold consume_int, numeral. destruct neg; [done|]. simpl.
  destruct ds as [|d ds]; simpl.
  - destruct rest as [|c rest]; [done|]. rewrite (proj2 (Z.eqb_neq c 45)); [done|].
    intros ->. by apply Hsign.
  - inversion Hds as [|?? Hd _]; subst. apply is_digit_range in Hd.
    by rewrite (proj2 (Z.eqb_neq d 45)) by lia.
Qed.

Lemma consume_unsigned w neg ds rest :
  0 < w → splits neg ds rest →
  consume_int {| width := w; signed := false |} (numeral neg ds rest) =
  Ok (uwrap w (if neg then - decimal ds else decimal ds), rest).
Proof.
  intros Hw Hs. rewrite consume_int_numeral by done. destruct Hs as (Hds & Hrest & _).
  pose proof (consume_digits_unsigned w 0 ds rest Hw Hds Hrest) as Hrun.
  rewrite uwrap_id in Hrun by (split; lia). rewrite Hrun. fold (decimal ds).
  destruct neg; [|done]. simpl. do 2 f_equal. unfold convert, uwrap. simpl.
  rewrite <- !Z.sub_0_l, Zminus_mod_idemp_r. done.
Qed.

Lemma consume_signed w neg ds rest :
  32 ≤ w → splits neg ds rest →
  consume_int {| width := w; signed := true |} (numeral neg ds rest) =
  if decimal ds <? 2 ^ (w - 1)
  then Ok (if neg then - decimal ds else decimal ds, rest) else Crash.
Proof.
  intros Hw Hs. rewrite consume_int_numeral by done. destruct Hs as (Hds & Hrest & _).
  assert (0 < 2 ^ (w - 1)) by (apply Z.pow_pos_nonneg; lia).
  rewrite consume_digits_signed by (done || lia). simpl. fold (decimal ds).
  destruct (Z.ltb_spec (decimal ds) (2 ^ (w - 1))); [|done]. simpl. destruct neg; [|done].
  pose proof (foldl_decimal_le 0 ds Hds ltac:(lia)). fold (decimal ds) in *.
  unfold store_T. simpl. rewrite (proj2 (Z.leb_le 32 w)), check_s_ok; [done| |done].
  unfold in_s. lia.
Qed.

(** Every view is a numeral and what follows it. *)
Lemma numeral_split s : ∃ neg ds rest, s = numeral neg ds rest ∧ splits neg ds rest.
Proof.
  assert (∀ s, ∃ ds rest, s = ds ++ rest ∧ digits ds ∧ no_digit_first rest) as Hsplit.
  { clear s. induction s as [|c s (ds & rest & -> & Hds & Hrest)]; [exists [], []; by repeat constructor|].
    destruct (is_digit c) eqn:Hc.
    - exists (c :: ds), rest. split_and!; [done|by constructor|done].
    - exists [], (c :: ds ++ rest). by repeat constructor. }
  destruct (Hsplit s) as (ds & rest & -> & Hds & Hrest).
  destruct (decide (ds = [] ∧ head rest = Some 45)) as [[-> Hh]|Hn].
  - destruct rest as [|c rest]; [done|]. injection Hh as ->.
    destruct (Hsplit rest) as (ds & rest' & -> & Hds' & Hrest'). exists true, ds, rest'.
    by split_and!.
  - exists false, ds, rest. split; [done|]. split_and!; [done|done|]. naive_solver.
Qed.

(** consume_int consumes exactly the optional minus sign and the maximal run of digits;
    on an unsigned type it returns their value modulo 2^w, and on a signed type of 32 bits or
    more the value when the digits are below 2^(w-1), and otherwise it overflows, which is
    undefined behaviour. *)
Theorem consume_int_value neg ds rest :
  splits neg ds rest →
  let value := if neg then - decimal ds else decimal ds in
  (∀ w, 0 < w →
     consume_int {| width := w; signed := false |} (numeral neg ds rest) = Ok (uwrap w value, rest)) ∧
  (∀ w, 32 ≤ w →
     consume_int {| width := w; signed := true |} (numeral neg ds rest) =
     if decimal ds <? 2 ^ (w - 1) then Ok (value, rest) else Crash).
Proof.
  intros Hs. split; intros w Hw; [by apply consume_unsigned|by apply consume_signed].
Qed.

Lemma consume_int_value_witness :
  consume_uint16 (numeral false [49; 50; 51; 52; 53; 54] [97]) = Ok (57920, [97]) ∧
  consume_int32 (numeral false [49; 50; 51; 52; 53; 54] [97]) = Ok (123456, [97]).
Proof.
  destruct (consume_int_value false [49; 50; 51; 52; 53; 54] [97]) as [Hu Hs];
    [by repeat constructor|].
  split; [exact (Hu 16 eq_refl)|]. refine (Hs 32 _). done.
Defined.
