(* ===== verification/Utf.v ===== *)
(** * util/utf: UTF-16 code units and UTF-8 bytes

    Both conversions work unit by unit: every 16-bit code unit, a surrogate
    too, is encoded on its own, and a four-byte sequence decodes to U+FFFD.  The
    converters write through a raw pointer; their model is the list of units
    written, and the string-returning overloads check that list against the
    buffer that the size functions asked for. *)

From S2P Require Import Prelude.

(** utf16_to_utf8_size *)
Fixpoint utf16_to_utf8_size (input : list Z) : Z :=
  match input with
  | [] => 0
  | c :: input =>
      (if c <=? 0x7f then 1 else if c <=? 0x7ff then 2 else 3) + utf16_to_utf8_size input
  end.

(** utf16_to_utf8(input, output) *)
Fixpoint utf16_to_utf8 (input : list Z) : list Z :=
  match input with
  | [] => []
  | c :: input =>
      (if c <=? 0x7f then [u8 c]
       else if c <=? 0x7ff then
         [u8 (Z.lor (c ≫ 6) 0xc0); u8 (Z.lor (Z.land c 0x3f) 0x80)]
       else
         [u8 (Z.lor (c ≫ 12) 0xe0); u8 (Z.lor (Z.land (c ≫ 6) 0x3f) 0x80);
          u8 (Z.lor (Z.land c 0x3f) 0x80)])
      ++ utf16_to_utf8 input
  end.

(** std::string utf16_to_utf8(input) *)
Definition utf16_to_utf8_string (input : list Z) : result (list Z) :=
  span_write 0 (utf16_to_utf8 input)
    (replicate (Z.to_nat (utf16_to_utf8_size input)) 0).

(** utf8_length *)
Fixpoint utf8_length (input : list Z) : Z :=
  match input with
  | [] => 0
  | c :: input =>
      if negb (Z.land c 0xc0 =? 0xc0) then 1 + utf8_length input
      else if negb (Z.land c 0xe0 =? 0xe0) then
        match input with
        | _ :: input => 1 + utf8_length input
        | _ => 0
        end
      else if negb (Z.land c 0xf0 =? 0xf0) then
        match input with
        | _ :: _ :: input => 1 + utf8_length input
        | _ => 0
        end
      else
        match input with
        | _ :: _ :: _ :: input => 1 + utf8_length input
        | _ => 0
        end
  end.

(** utf8_to_utf16(input, output) *)
Fixpoint utf8_to_utf16 (input : list Z) : list Z :=
  match input with
  | [] => []
  | c :: input =>
      if negb (Z.land c 0xc0 =? 0xc0) then u16 (Z.land c 0x7f) :: utf8_to_utf16 input
      else if negb (Z.land c 0xe0 =? 0xe0) then
        match input with
        | c1 :: input =>
            u16 (Z.lor (u16 (Z.land c 0x3f) ≪ 6) (u16 (Z.land c1 0x3f)))
            :: utf8_to_utf16 input
        | _ => []
        end
      else if negb (Z.land c 0xf0 =? 0xf0) then
        match input with
        | c1 :: c2 :: input =>
            u16 (Z.lor (Z.lor (u16 (Z.land c 0x1f) ≪ 12) (u16 (Z.land c1 0x3f) ≪ 6))
                       (u16 (Z.land c2 0x3f)))
            :: utf8_to_utf16 input
        | _ => []
        end
      else
        match input with
        | _ :: _ :: _ :: input => 0xfffd :: utf8_to_utf16 input
        | _ => []
        end
  end.

(** std::u16string utf8_to_utf16(input) *)
Definition utf8_to_utf16_string (input : list Z) : result (list Z) :=
  span_write 0 (utf8_to_utf16 input) (replicate (Z.to_nat (utf8_length input)) 0).

(** ** The size functions *)

Lemma utf16_to_utf8_size_length input :
  utf16_to_utf8_size input = zlen (utf16_to_utf8 input).
Proof.
  induction input as [|c input IH]; [done|]. cbn [utf16_to_utf8_size utf16_to_utf8].
  rewrite zlen_app, <- IH. f_equal. by repeat split_if.
Qed.

(** Induction over the steps of the decoder. *)
Lemma utf8_ind (P : list Z → Prop) :
  P [] → (∀ c input, (∀ k, (k ≤ length input)%nat → P (drop k input)) → P (c :: input)) →
  ∀ input, P input.
Proof.
  intros Hnil Hcons input. remember (length input) as n eqn:Hn.
  revert input Hn. induction (lt_wf n) as [n _ IH]. intros [|c input] ->; [done|].
  apply Hcons. intros k Hk. eapply IH; [|done]. simpl. rewrite length_drop. lia.
Qed.

Lemma utf8_length_length input : utf8_length input = zlen (utf8_to_utf16 input).
Proof.
  induction input as [|c input IH] using utf8_ind; [done|].
  cbn [utf8_length utf8_to_utf16].
  pose proof (IH 0%nat ltac:(lia)) as IH0. rewrite drop_0 in IH0.
  repeat split_if; rewrite ?zlen_cons, ?IH0; try done.
  - destruct input as [|c1 input]; [done|].
    rewrite zlen_cons. f_equal. apply (IH 1%nat). simpl. lia.
  - destruct input as [|c1 [|c2 input]]; [done..|].
    rewrite zlen_cons. f_equal. apply (IH 2%nat). simpl. lia.
  - destruct input as [|c1 [|c2 [|c3 input]]]; [done..|].
    rewrite zlen_cons. f_equal. apply (IH 3%nat). simpl. lia.
Qed.

Lemma span_write_exact {A} (bs : list A) n x :
  Z.of_nat n = zlen bs → span_write 0 bs (replicate n x) = Ok bs.
Proof.
  intros Hn. rewrite span_write_ok; [|done|unfold zlen in *; rewrite length_replicate; lia].
  unfold splice. simpl. rewrite drop_ge by (rewrite length_replicate; unfold zlen in *; lia).
  by rewrite app_nil_r.
Qed.

Lemma utf_strings_exact input :
  utf16_to_utf8_string input = Ok (utf16_to_utf8 input) ∧
  utf8_to_utf16_string input = Ok (utf8_to_utf16 input).
Proof.
  unfold utf16_to_utf8_string, utf8_to_utf16_string.
  rewrite utf16_to_utf8_size_length, utf8_length_length.
  split; apply span_write_exact; unfold zlen; lia.
Qed.

(** C26: For any input, malformed ones included, the conversion into a string of the size
    computed by utf16_to_utf8_size or utf8_length writes within the string and fills it
    exactly. *)
Theorem utf_buffers_exact input :
  utf16_to_utf8_string input = Ok (utf16_to_utf8 input) ∧
  utf8_to_utf16_string input = Ok (utf8_to_utf16 input).
Proof. apply utf_strings_exact. Qed.

(** ** The round trip *)


Lemma ascii_bits : ∀ b, is_byte b → b ≤ 0x7f →
  (Z.land b 0xc0 =? 0xc0) = false ∧ Z.land b 0x7f = b ∧ u8 b = b.
Proof. byte_fact. Qed.

Lemma lead2_bits : ∀ b, is_byte b → b < 0x20 →
  (Z.land (u8 (Z.lor b 0xc0)) 0xc0 =? 0xc0) = true ∧
  (Z.land (u8 (Z.lor b 0xc0)) 0xe0 =? 0xe0) = false ∧
  Z.land (u8 (Z.lor b 0xc0)) 0x3f = b.
Proof. byte_fact. Qed.

Lemma lead3_bits : ∀ b, is_byte b → b < 0x10 →
  (Z.land (u8 (Z.lor b 0xe0)) 0xc0 =? 0xc0) = true ∧
  (Z.land (u8 (Z.lor b 0xe0)) 0xe0 =? 0xe0) = true ∧
  (Z.land (u8 (Z.lor b 0xe0)) 0xf0 =? 0xf0) = false ∧
  Z.land (u8 (Z.lor b 0xe0)) 0x1f = b.
Proof. byte_fact. Qed.

Lemma cont_bits : ∀ b, is_byte b → b < 0x40 → Z.land (u8 (Z.lor b 0x80)) 0x3f = b.
Proof. byte_fact. Qed.

Lemma low6 c : Z.land c 0x3f = c mod 64.
Proof. by apply (land_low_bits c 6). Qed.

Lemma lor_fields hi lo n : 0 ≤ n → 0 ≤ lo < 2 ^ n → Z.lor (hi ≪ n) lo = hi * 2 ^ n + lo.
Proof. intros. rewrite Z.lor_comm, lor_shiftl_add by done. lia. Qed.

Ltac u16_id z := rewrite (uwrap_id 16 z) by (unfold in_u; lia).

Lemma decode_unit c rest :
  in_u 16 c → utf8_to_utf16 (utf16_to_utf8 [c] ++ rest) = c :: utf8_to_utf16 rest.
Proof.
  intros [Hc Hc']. cbn [utf16_to_utf8]. rewrite app_nil_r, !low6, !Z.shiftr_div_pow2 by lia.
  change (2 ^ 6) with 64. change (2 ^ 12) with (64 * 64). rewrite <- Z.div_div by lia.
  pose proof (Z.div_mod c 64 ltac:(lia)). pose proof (Z.mod_pos_bound c 64 ltac:(lia)).
  pose proof (Z.div_mod (c / 64) 64 ltac:(lia)).
  pose proof (Z.mod_pos_bound (c / 64) 64 ltac:(lia)).
  destruct (Z.leb_spec c 0x7f); [|destruct (Z.leb_spec c 0x7ff)]; cbn [app utf8_to_utf16].
  - destruct (ascii_bits c) as (Hf & Hl & Hu); [unfold is_byte; lia|done|].
    rewrite Hu, Hf, Hl. by u16_id c.
  - destruct (lead2_bits (c / 64)) as (E1 & E2 & E3); [unfold is_byte; lia|lia|].
    rewrite E1, E2, E3, cont_bits by (unfold is_byte; lia).
    u16_id (c / 64). u16_id (c mod 64).
    cbn [negb]. f_equal. rewrite lor_fields by lia. rewrite uwrap_id; unfold in_u; lia.
  - destruct (lead3_bits (c / 64 / 64)) as (E1 & E2 & E3 & E4); [unfold is_byte; lia|lia|].
    rewrite E1, E2, E3, E4, !cont_bits by (unfold is_byte; lia).
    u16_id (c / 64 / 64). u16_id ((c / 64) mod 64). u16_id (c mod 64).
    cbn [negb]. f_equal. rewrite <- Z.lor_assoc, (lor_fields _ (c mod 64) 6) by lia.
    rewrite lor_fields by lia. rewrite uwrap_id; unfold in_u; lia.
Qed.

Lemma utf16_there_and_back input :
  Forall (in_u 16) input → utf8_to_utf16 (utf16_to_utf8 input) = input.
Proof.
  induction 1 as [|c input Hc _ IH]; [done|].
  change (utf16_to_utf8 (c :: input)) with (utf16_to_utf8 ([c] ++ input)).
  replace (utf16_to_utf8 ([c] ++ input)) with (utf16_to_utf8 [c] ++ utf16_to_utf8 input)
    by (cbn [utf16_to_utf8 app]; by rewrite app_nil_r).
  by rewrite decode_unit, IH.
Qed.

(** C25: utf8_to_utf16 of utf16_to_utf8 is the identity on every sequence of 16-bit code
    units, surrogates included. *)
Theorem utf16_roundtrip input :
  Forall (in_u 16) input → utf8_to_utf16 (utf16_to_utf8 input) = input.
Proof. apply utf16_there_and_back. Qed.

Lemma utf16_roundtrip_witness :
  utf8_to_utf16 (utf16_to_utf8 [0x68; 0xe9; 0x3053; 0xd83d]) = [0x68; 0xe9; 0x3053; 0xd83d].
Proof. apply utf16_roundtrip. by repeat constructor. Defined.
