(* ===== verification/Win32File.v ===== *)
(** * io/win32: files over the Windows API

    As in PosixFile.v: [Win32] is the interface of the functions that
    io/win32/file.cc calls, [Win32Files] what their documentation says of disk
    files and of handles.  A DWORD has 32 bits, so the size of a buffer is
    converted, and a 64-bit position is passed in the two halves of an
    OVERLAPPED. *)

From S2P Require Import Prelude File MemoryFile Utf PosixFile.

Record OVERLAPPED : Type := { Offset : Z; OffsetHigh : Z }.

Inductive move_method : Type := FILE_BEGIN | FILE_CURRENT.

Class Win32 (W : Type) : Type := {
  (** whether it succeeded, the bytes it stored and their number *)
  ReadFile : Z → Z → option OVERLAPPED → W → bool * list Z * Z * W;
  WriteFile : Z → list Z → Z → option OVERLAPPED → W → bool * Z * W;
  SetFilePointerEx : Z → Z → move_method → W → bool * Z * W;
  GetFileSizeEx : Z → W → bool * Z * W;
  CreateFileW : list Z → Z → Z → Z → Z → W → Z * W;
  CloseHandle : Z → W → W;
  GetStdHandle : Z → W → Z;
  GetLastError : W → Z;
}.

Definition INVALID_HANDLE_VALUE : Z := -1.
Definition GENERIC_READ : Z := 2147483648.
Definition GENERIC_WRITE : Z := 1073741824.
Definition FILE_SHARE_READ : Z := 1.
Definition CREATE_ALWAYS : Z := 2.
Definition OPEN_EXISTING : Z := 3.
Definition FILE_ATTRIBUTE_NORMAL : Z := 128.
Definition STD_INPUT_HANDLE : Z := uwrap 32 (-10).
Definition STD_OUTPUT_HANDLE : Z := uwrap 32 (-11).
Definition STD_ERROR_HANDLE : Z := uwrap 32 (-12).

Record SharedFile (W : Type) : Type := { handle_ : Z; system_ : W }.
Arguments handle_ {W}.
Arguments system_ {W}.

Section win32.
Context {W : Type} `{!Win32 W}.
Implicit Types f : SharedFile W.

Definition set_system (w : W) f : SharedFile W := {| handle_ := handle_ f; system_ := w |}.
Definition set_handle (h : Z) f : SharedFile W := {| handle_ := h; system_ := system_ f |}.

(** {static_cast<int>(GetLastError()), std::system_category()} *)
Definition failed {A} (w : W) f : result A * SharedFile W :=
  (Err (system_error (s32 (GetLastError w))), set_system w f).

(** overlapped.Offset = position; overlapped.OffsetHigh = position >> 32 *)
Definition make_overlapped (position : Z) : OVERLAPPED :=
  {| Offset := u32 position; OffsetHigh := u32 (position ≫ 32) |}.

(** SharedFile::read *)
Definition read (n : Z) : ST (SharedFile W) (list Z) := λ f,
  let '(ok, bs, bytes_read, w) := ReadFile (handle_ f) (u32 n) None (system_ f) in
  if ok : bool then (Ok (take (Z.to_nat bytes_read) bs), set_system w f) else failed w f.

(** SharedFile::write *)
Definition write (bs : list Z) : ST (SharedFile W) Z := λ f,
  let '(ok, bytes_written, w) := WriteFile (handle_ f) bs (u32 (zlen bs)) None (system_ f) in
  if ok : bool then (Ok bytes_written, set_system w f) else failed w f.

(** SharedFile::pread *)
Definition pread (position n : Z) : ST (SharedFile W) (list Z) := λ f,
  let '(ok, bs, bytes_read, w) :=
    ReadFile (handle_ f) (u32 n) (Some (make_overlapped position)) (system_ f) in
  if ok : bool then (Ok (take (Z.to_nat bytes_read) bs), set_system w f) else failed w f.

(** SharedFile::pwrite *)
Definition pwrite (position : Z) (bs : list Z) : ST (SharedFile W) Z := λ f,
  let '(ok, bytes_written, w) :=
    WriteFile (handle_ f) bs (u32 (zlen bs)) (Some (make_overlapped position)) (system_ f) in
  if ok : bool then (Ok bytes_written, set_system w f) else failed w f.

(** SharedFile::seek *)
Definition seek (position : Z) : ST (SharedFile W) unit := λ f,
  let '(ok, _, w) := SetFilePointerEx (handle_ f) position FILE_BEGIN (system_ f) in
  if ok : bool then (Ok tt, set_system w f) else failed w f.

(** SharedFile::tell *)
Definition tell : ST (SharedFile W) Z := λ f,
  let '(ok, file_pointer, w) := SetFilePointerEx (handle_ f) 0 FILE_CURRENT (system_ f) in
  if ok : bool then (Ok file_pointer, set_system w f) else failed w f.

(** SharedFile::size *)
Definition size : ST (SharedFile W) Z := λ f,
  let '(ok, file_size, w) := GetFileSizeEx (handle_ f) (system_ f) in
  if ok : bool then (Ok file_size, set_system w f) else failed w f.

#[export] Instance win32_file : File (SharedFile W) := {
  File.read := read;
  File.write := write;
  File.pread := pread;
  File.pwrite := pwrite;
  File.seek := seek;
  File.tell := tell;
  File.size := size;
}.

Definition std_file (id : Z) (w : W) : SharedFile W := {| handle_ := GetStdHandle id w; system_ := w |}.

Definition std_input : W → SharedFile W := std_file STD_INPUT_HANDLE.
Definition std_output : W → SharedFile W := std_file STD_OUTPUT_HANDLE.
Definition std_error : W → SharedFile W := std_file STD_ERROR_HANDLE.

(** File::File *)
Definition make_file (w : W) : SharedFile W := {| handle_ := INVALID_HANDLE_VALUE; system_ := w |}.

(** File::close, and with it ~File *)
Definition close : ST (SharedFile W) unit := λ f,
  if handle_ f =? INVALID_HANDLE_VALUE then (Ok tt, f)
  else (Ok tt, set_handle INVALID_HANDLE_VALUE (set_system (CloseHandle (handle_ f) (system_ f)) f)).

(** File::create with all arguments; security_attributes is always null *)
Definition create_file (filename : list Z) (access share disposition flags : Z) :
    ST (SharedFile W) unit :=
  let* _ := close in
  λ f,
    let '(handle, w) := CreateFileW filename access share disposition flags (system_ f) in
    if handle =? INVALID_HANDLE_VALUE then failed w f
    else (Ok tt, set_handle handle (set_system w f)).

(** File::create *)
Definition create (filename : list Z) : ST (SharedFile W) unit :=
  create_file filename (Z.lor GENERIC_READ GENERIC_WRITE) FILE_SHARE_READ CREATE_ALWAYS
    FILE_ATTRIBUTE_NORMAL.

(** File::open *)
Definition open (filename : list Z) (access : Z) : ST (SharedFile W) unit :=
  create_file filename access FILE_SHARE_READ OPEN_EXISTING FILE_ATTRIBUTE_NORMAL.

(** io::open and io::create of io/native-file.cc *)
Definition native_open (filename : list Z) : ST (SharedFile W) unit :=
  let* wide := st_lift (utf8_to_utf16_string filename) in
  open (c_str wide) GENERIC_READ.

Definition native_create (filename : list Z) : ST (SharedFile W) unit :=
  let* wide := st_lift (utf8_to_utf16_string filename) in
  create (c_str wide).
End win32.

(** ** What the documentation says

    [disk_file h w]: the handle is open for synchronous reading and writing of a
    file on disk, with the bytes [disk_content] and the file pointer at [pointer]. *)

Definition overlapped_position (o : OVERLAPPED) : Z := Offset o + 2 ^ 32 * OffsetHigh o.

Class Win32Files (W : Type) `{!Win32 W} : Type := {
  disk_file : Z → W → Prop;
  disk_content : Z → W → list Z;
  pointer : Z → W → Z;
  open_handles : W → gset Z;
  disk_bounds h w : disk_file h w → 0 ≤ pointer h w;
  (** ReadFile returns when the bytes were read or the end of the file was reached *)
  ReadFile_law h n w ok bs r w' :
    disk_file h w → in_u 32 n → ReadFile h n None w = (ok, bs, r, w') →
    disk_file h w' ∧ disk_content h w' = disk_content h w ∧
    (ok = false ∧ pointer h w' = pointer h w ∨
     ok = true ∧ r = Z.min n (Z.max 0 (zlen (disk_content h w) - pointer h w)) ∧
     bs = slice (pointer h w) r (disk_content h w) ∧ pointer h w' = pointer h w + r);
  (** with an OVERLAPPED it reads at the position given there *)
  ReadFile_at_law h n o w bs r w' :
    disk_file h w → in_u 32 n → ReadFile h n (Some o) w = (true, bs, r, w') →
    disk_file h w' ∧ disk_content h w' = disk_content h w ∧ 0 ≤ r ≤ n ∧
    overlapped_position o + r ≤ zlen (disk_content h w) ∧
    bs = slice (overlapped_position o) r (disk_content h w);
  CreateFileW_law name access share disposition flags w h w' :
    CreateFileW name access share disposition flags w = (h, w') →
    h = INVALID_HANDLE_VALUE ∧ open_handles w' = open_handles w ∨
    h ≠ INVALID_HANDLE_VALUE ∧ h ∉ open_handles w ∧ open_handles w' = {[h]} ∪ open_handles w;
  CloseHandle_law h w : open_handles (CloseHandle h w) = open_handles w ∖ {[h]};
}.

Section reads.
Context {W : Type} `{!Win32 W, !Win32Files W}.
Implicit Types f : SharedFile W.

(** What reading to the end would give *)
Definition unread f : list Z :=
  drop (Z.to_nat (pointer (handle_ f) (system_ f))) (disk_content (handle_ f) (system_ f)).

Lemma overlapped_split position : 0 ≤ position < 2 ^ 63 →
  overlapped_position (make_overlapped position) = position.
Proof.
  intros Hp. unfold overlapped_position, make_overlapped. simpl Offset. simpl OffsetHigh.
  rewrite Z.shiftr_div_pow2 by lia. unfold uwrap.
  rewrite (Z.mod_small (position / 2 ^ 32)).
  - pose proof (Z.div_mod position (2 ^ 32)). lia.
  - split; [apply Z.div_pos; lia|]. apply Z.div_lt_upper_bound; lia.
Qed.

(** C30: On a disk file, a win32 read of n bytes that succeeds returns the next bytes of the
    file, as many as are left but at most n mod 2^32, since the size is passed as a DWORD;
    pread returns bytes of the file at its position, for every 64-bit position, which the two
    halves of the OVERLAPPED carry. *)
Theorem win32_reads f n bs f' :
  disk_file (handle_ f) (system_ f) → in_u 63 n →
  (read n f = (Ok bs, f') →
   unread f = bs ++ unread f' ∧ zlen bs = Z.min (n mod 2 ^ 32) (zlen (unread f))) ∧
  (∀ position, 0 ≤ position < 2 ^ 63 → pread position n f = (Ok bs, f') →
   bs = slice position (zlen bs) (disk_content (handle_ f) (system_ f)) ∧
   zlen bs ≤ n mod 2 ^ 32).
Proof.
  intros Hd Hn. pose proof (disk_bounds _ _ Hd) as Hp0.
  assert (in_u 32 (u32 n)) as Hu by (by apply uwrap_range). split.
  - unfold read. destruct (ReadFile _ _ _ _) as [[[ok bs0] r] w'] eqn:E.
    destruct (ReadFile_law _ _ _ _ _ _ _ Hd Hu E) as (Hd' & Hc & Hcase).
    destruct ok; [|done]. intros [= <- <-]. destruct Hcase as [[? _]|(_ & Hr & -> & Hp)]; [done|].
    unfold unread. cbn [set_system handle_ system_]. rewrite Hc, Hp.
    set (c := disk_content _ _) in *. set (p := pointer _ _) in *. pose proof (zlen_nonneg c).
    destruct Hu. assert (zlen (slice p r c) = r) as Hl.
    { unfold slice, zlen in *. rewrite length_take, length_drop. lia. }
    rewrite take_ge by (unfold zlen in Hl; lia). split.
    + unfold slice. rewrite Z2Nat.inj_add, <- drop_drop by lia. by rewrite take_drop.
    + rewrite Hl, Hr. f_equal. unfold zlen. rewrite length_drop. lia.
  - intros position Hpos. unfold pread. destruct (ReadFile _ _ _ _) as [[[ok bs0] r] w'] eqn:E.
    destruct ok; [|done]. intros [= <- <-].
    destruct (ReadFile_at_law _ _ _ _ _ _ _ Hd Hu E) as (_ & _ & Hr & Hend & ->).
    rewrite overlapped_split in * by done. set (c := disk_content _ _) in *.
    assert (zlen (slice position r c) = r) as Hl.
    { unfold slice, zlen in *. rewrite length_take, length_drop. lia. }
    rewrite take_ge by (unfold zlen in Hl; lia). rewrite Hl. split; [done|]. unfold uwrap in Hr. lia.
Qed.

(** A read into a buffer of 4 GiB looks like the end of the file. *)
Theorem win32_read_4gib f bs f' :
  disk_file (handle_ f) (system_ f) → read (2 ^ 32) f = (Ok bs, f') → bs = [].
Proof.
  intros Hd. unfold read. destruct (ReadFile _ _ _ _) as [[[ok bs0] r] w'] eqn:E.
  change (u32 (2 ^ 32)) with 0 in E.
  destruct (ReadFile_law _ _ _ _ _ _ _ Hd ltac:(by split) E) as (_ & _ & Hcase).
  destruct ok; [|done]. intros [= <- _]. destruct Hcase as [[? _]|(_ & Hr & _)]; [done|].
  by replace r with 0 by lia.
Qed.
End reads.

(** ** Handles *)

Section handles.
Context {W : Type} `{!Win32 W, !Win32Files W}.
Implicit Types f : SharedFile W.

Inductive file_op : Type :=
  | CreateFile (filename : list Z) (access share disposition flags : Z)
  | NativeOpen (filename : list Z)
  | NativeCreate (filename : list Z)
  | Close.

Definition apply_op f (op : file_op) : SharedFile W :=
  snd (match op with
       | CreateFile filename access share disposition flags =>
           create_file filename access share disposition flags
       | NativeOpen filename => native_open filename
       | NativeCreate filename => native_create filename
       | Close => close
       end f).

Definition run_ops (ops : list file_op) f : SharedFile W := foldl apply_op f ops.

(** The file owns its handle, if it has one, and the others are those of [w]. *)
Definition owns (w : W) f : Prop :=
  (handle_ f = INVALID_HANDLE_VALUE ∧ open_handles (system_ f) = open_handles w) ∨
  (handle_ f ≠ INVALID_HANDLE_VALUE ∧ handle_ f ∉ open_handles w ∧
   open_handles (system_ f) = {[handle_ f]} ∪ open_handles w).

Lemma close_handle_owns w f :
  owns w f → ∃ f', close f = (Ok tt, f') ∧ handle_ f' = INVALID_HANDLE_VALUE ∧
    open_handles (system_ f') = open_handles w.
Proof.
  intros [[Hh Ho]|(Hh & Hnin & Ho)]; unfold close.
  - rewrite (proj2 (Z.eqb_eq _ _)) by done. eauto.
  - rewrite (proj2 (Z.eqb_neq _ _)) by done. eexists. split; [done|]. simpl.
    split; [done|]. rewrite CloseHandle_law, Ho. set_solver.
Qed.

Lemma create_file_owns w name access share disposition flags f :
  owns w f → owns w (snd (create_file name access share disposition flags f)).
Proof.
  intros Hf. destruct (close_handle_owns w f Hf) as (f1 & Hc & Hh & Ho).
  unfold create_file, st_bind. rewrite Hc.
  destruct (CreateFileW name access share disposition flags (system_ f1)) as [h w'] eqn:E.
  pose proof (CreateFileW_law _ _ _ _ _ _ _ _ E) as Hlaw. rewrite Ho in Hlaw.
  destruct (Z.eqb_spec h INVALID_HANDLE_VALUE) as [Heq|Hne]; simpl.
  - left. split; [done|]. by destruct Hlaw as [[_ H]|[? _]].
  - right. by destruct Hlaw as [[? _]|(_ & Hnin & H)].
Qed.

Lemma native_owns w filename g f :
  (∀ name, ∃ access share disposition flags, g name = create_file name access share disposition flags) →
  owns w f → owns w (snd ((let* wide := st_lift (utf8_to_utf16_string filename) in g (c_str wide)) f)).
Proof.
  intros Hg Hf. unfold st_bind, st_lift. rewrite (proj2 (utf_strings_exact filename)).
  destruct (Hg (c_str (utf8_to_utf16 filename))) as (? & ? & ? & ? & ->). by apply create_file_owns.
Qed.

Lemma apply_handle_owns w f op : owns w f → owns w (apply_op f op).
Proof.
  intros Hf. destruct op.
  - by apply create_file_owns.
  - apply (native_owns w _ (λ name, open name GENERIC_READ)); [|done]. by eexists _, _, _, _.
  - apply (native_owns w _ create); [|done]. by eexists _, _, _, _.
  - destruct (close_handle_owns w f Hf) as (f' & Hc & Hh & Ho). unfold apply_op. rewrite Hc. by left.
Qed.

(** After any calls and the destructor, the handles are those that were open before. *)
Theorem win32_handles w ops :
  ∃ f', close (run_ops ops (make_file w)) = (Ok tt, f') ∧ open_handles (system_ f') = open_handles w.
Proof.
  assert (owns w (run_ops ops (make_file w))) as Hf.
  { unfold run_ops. assert (owns w (make_file w)) as H by (by left). revert H.
    generalize (make_file w). induction ops as [|op ops IH]; intros f0 H0; [done|].
    simpl. by apply IH, apply_handle_owns. }
  destruct (close_handle_owns w _ Hf) as (f' & Hc & _ & Ho). eauto.
Qed.

Lemma c_str_id s : Forall (λ c, c ≠ 0) s → c_str s = s.
Proof.
  induction 1 as [|c s Hc _ IH]; [done|]. simpl. rewrite (proj2 (Z.eqb_neq _ _)) by done. by rewrite IH.
Qed.

(** A file whose UTF-16 name is given in UTF-8 is opened by exactly that name. *)
Theorem win32_open_name wide f :
  Forall (in_u 16) wide → Forall (λ c, c ≠ 0) wide →
  native_open (utf16_to_utf8 wide) f = open wide GENERIC_READ f ∧
  native_create (utf16_to_utf8 wide) f = create wide f.
Proof.
  intros Hw Hn. unfold native_open, native_create, st_bind, st_lift.
  rewrite (proj2 (utf_strings_exact _)), utf16_there_and_back, c_str_id by done. done.
Qed.
End handles.

(** ** A system

    The kernel of PosixFile.v under the other interface; its names are lists of
    16-bit units. *)

Definition ERROR_HANDLE_EOF : Z := 38.

Definition read_at (h n position : Z) (k : kernel) : bool * list Z * Z * kernel :=
  match opened h k with
  | Some (_, c, _) =>
      if zlen c <=? position then (false, [], 0, set_error ERROR_HANDLE_EOF k)
      else let r := Z.min n (zlen c - position) in (true, slice position r c, r, k)
  | None => (false, [], 0, set_error EBADF k)
  end.

#[export] Instance kernel_win32 : Win32 kernel := {
  ReadFile h n o k :=
    match o with
    | None => let '(ret, bs, k') := sys_read h n k in (0 <=? ret, bs, ret, k')
    | Some o => read_at h n (overlapped_position o) k
    end;
  WriteFile h bs n o k :=
    let bs := take (Z.to_nat n) bs in
    let '(ret, k') :=
      match o with
      | None => sys_write h bs k
      | Some o => sys_pwrite64 h bs (overlapped_position o) k
      end in
    (0 <=? ret, ret, k');
  SetFilePointerEx h d m k :=
    let '(ret, k') :=
      sys_lseek64 h d (match m with FILE_BEGIN => SEEK_SET | FILE_CURRENT => SEEK_CUR end) k in
    (0 <=? ret, ret, k');
  GetFileSizeEx h k := let '(ret, n, k') := sys_fstat64 h k in (0 <=? ret, n, k');
  CreateFileW name access share disposition flags k :=
    sys_open name (if disposition =? CREATE_ALWAYS then Z.lor O_CREAT O_TRUNC else 0) 0 k;
  CloseHandle h k := sys_close h k;
  GetStdHandle id k := u32 (-10) - id;
  GetLastError := last_error;
}.

#[export] Program Instance kernel_win32_files : Win32Files kernel := {
  disk_file := kernel_regular;
  disk_content := opened_content;
  pointer := opened_offset;
  open_handles k := dom (descriptors k);
}.
Next Obligation. intros h k (name & c & off & E & ? & _). unfold opened_offset. rewrite E. lia. Qed.
Next Obligation.
  intros h n k ok bs r k' (name & c & off & E & Ho & Hc) [Hn Hn'] Hread.
  unfold ReadFile, kernel_win32, sys_read, kernel_posix in Hread. rewrite E in Hread.
  unfold opened_offset, opened_content. pose proof (zlen_nonneg c).
  rewrite (proj2 (Z.leb_le _ _)) in Hread by lia. injection Hread as <- <- <- <-.
  rewrite (opened_move _ _ _ _ _ _ E), E.
  split_and!; [|done|right; split_and!; try done; lia].
  eexists _, _, _. split; [by apply (opened_move _ _ _ _ _ _ E)|]. split; [lia|done].
Qed.
Next Obligation.
  intros h n o k bs r k' Hd [Hn _]. pose proof Hd as (name & c & off & E & Ho & Hc).
  simpl. unfold read_at, opened_content. rewrite E.
  destruct (Z.leb_spec (zlen c) (overlapped_position o)); intros [= <- <- <-].
  rewrite E. split_and!; try done; lia.
Qed.
Next Obligation.
  intros name access share disposition flags k h k' Hopen.
  destruct (sys_open_law _ _ _ _ _ _ Hopen) as [[Hneg H]|(Hpos & H)]; [left|right].
  - split; [|done]. revert Hopen Hneg. simpl. pose proof (proj1 (free_fd_fresh k)).
    destruct (_ || _); intros [= <- _]; [lia|done].
  - split; [unfold INVALID_HANDLE_VALUE; lia|done].
Qed.
Next Obligation. intros h k. simpl. by rewrite dom_delete_L. Qed.

(** A file on which an old five-byte file is open, three bytes in *)
Definition disk_example : SharedFile kernel :=
  {| handle_ := 3;
     system_ := {| files := {[ [97] := [1; 2; 3; 4; 5] ]};
                   descriptors := {[ 3 := ([97], 3) ]}; last_error := 0 |} |}.

Lemma win32_reads_witness :
  disk_file (handle_ disk_example) (system_ disk_example) ∧
  zlen [4; 5] = Z.min ((2 ^ 32 + 7) mod 2 ^ 32) (zlen (unread disk_example)).
Proof.
  assert (disk_file (handle_ disk_example) (system_ disk_example)) as Hd.
  { exists [97], [1; 2; 3; 4; 5], 3. split; [reflexivity|]. by split. }
  split; [done|].
  apply (proj1 (win32_reads disk_example (2 ^ 32 + 7) [4; 5] (snd (read (2 ^ 32 + 7) disk_example))
    Hd ltac:(by split))). vm_compute. reflexivity.
Defined.
