(* ===== verification/HexDumper.v ===== *)
(** * util/hex-dumper: hex dumps written line by line to a file

    The dumper keeps one line buffer between calls and only overwrites the
    positions a line needs; the theorem of this file is that what reaches the
    file is nevertheless the text of the offset and the bytes alone, which is written
    down from left to right without the columns of the code. *)

From S2P Require Import Prelude File MemoryFile FileUtils.

Definition to_hex (value : Z) : Z :=
  if value <? 10 then 48 + value else 97 + value - 10.

Definition to_char (value : Z) : Z :=
  if (32 <=? value) && (value <=? 127) then value else 46.

Definition put_uint8_hex (value : Z) : list Z :=
  [to_hex (value ≫ 4); to_hex (Z.land value 0xf)].

(** The eight stores of put_uint32_hex; the shift wraps around at 32 bits. *)
Fixpoint hex_digits (n : nat) (value : Z) : list Z :=
  match n with
  | O => []
  | S n => to_hex (value ≫ 28) :: hex_digits n (u32 (value ≪ 4))
  end.

Definition put_uint32_hex (value : Z) : list Z := hex_digits 8 value.

Record HexDumper : Type := { width_ : Z; buffer_ : list Z }.

(** HexDumper::char_start *)
Definition char_start (w : Z) : Z := (w * 5 + 23) / 2.

(** HexDumper::HexDumper *)
Definition make (width : Z) : HexDumper :=
  {| width_ := width;
     buffer_ := replicate (Z.to_nat (char_start width + width + 1)) 32 |}.

(** The first loop of dump_line: the hex and the text column of the bytes. *)
Fixpoint put_bytes (w i : Z) (bytes buffer : list Z) : result (list Z) :=
  match bytes with
  | [] => Ok buffer
  | b :: bytes =>
      buffer ← span_write (i * 5 / 2 + 10) (put_uint8_hex b) buffer;
      buffer ← span_write (char_start w + i) [to_char b] buffer;
      put_bytes w (i + 1) bytes buffer
  end.

(** Its second loop: blanks in the hex columns that are left. *)
Fixpoint put_blanks (n : nat) (i : Z) (buffer : list Z) : result (list Z) :=
  match n with
  | O => Ok buffer
  | S n =>
      buffer ← span_write (i * 5 / 2 + 10) [32] buffer;
      buffer ← span_write (i * 5 / 2 + 11) [32] buffer;
      put_blanks n (i + 1) buffer
  end.

(** The stores of HexDumper::dump_line *)
Definition fill_line (w offset : Z) (input buffer : list Z) : result (list Z) :=
  let size := Z.min (zlen input) w in
  buffer ← span_write 0 (put_uint32_hex offset) buffer;
  buffer ← span_write 8 [58] buffer;
  buffer ← put_bytes w 0 (take (Z.to_nat size) input) buffer;
  buffer ← put_blanks (Z.to_nat (w - size)) size buffer;
  span_write (char_start w + size) [10] buffer.

Section dump.
Context {F : Type} `{!File F}.

(** HexDumper::dump_line *)
Definition dump_line (fuel : nat) (offset : Z) (input : list Z) :
    ST (HexDumper * F) unit := λ '(d, f),
  let size := Z.min (zlen input) (width_ d) in
  match fill_line (width_ d) offset input (buffer_ d) with
  | Ok buffer =>
      let d := {| width_ := width_ d; buffer_ := buffer |} in
      match span_read 0 (char_start (width_ d) + size + 1) buffer with
      | Ok line => let '(r, f) := FileUtils.write fuel line f in (r, (d, f))
      | _ => (Crash, (d, f))
      end
  | _ => (Crash, (d, f))
  end.

(** The loop of HexDumper::dump and the partial line after it. *)
Fixpoint dump (loop_fuel fuel : nat) (offset : Z) (input : list Z) :
    ST (HexDumper * F) unit :=
  match loop_fuel with
  | O => λ s, (Hang, s)
  | S loop_fuel => λ s,
      let w := width_ s.1 in
      if w <=? zlen input then
        (let* _ := dump_line fuel offset input in
         dump loop_fuel fuel (u32 (offset + w)) (drop (Z.to_nat w) input)) s
      else if zlen input =? 0 then (Ok tt, s)
      else dump_line fuel offset input s
  end.
End dump.

(** ** The text of a dump

    A line has the eight hex digits of the offset and a colon; then for every column the
    two digits of its byte, or two blanks where the input has ended, with a blank before
    every second byte; then two blanks and the bytes as text. *)

(** 0 to 9 and a to f *)
Definition digit (n : Z) : Z :=
  nth (Z.to_nat n) [48; 49; 50; 51; 52; 53; 54; 55; 56; 57; 97; 98; 99; 100; 101; 102] 0.

(** A character from blank to DEL stands for itself, any other byte is a dot. *)
Definition shown (b : Z) : Z := if decide (32 ≤ b < 128) then b else 46.

Definition offset_digits (offset : Z) : list Z :=
  (λ k, digit (offset / 16 ^ k mod 16)) <$> [7; 6; 5; 4; 3; 2; 1; 0].

Definition column (input : list Z) (i : nat) : list Z :=
  (if Nat.even i then [32] else []) ++
  match input !! i with Some b => [digit (b / 16); digit (b mod 16)] | None => [32; 32] end.

Definition line_text (w offset : Z) (input : list Z) : list Z :=
  offset_digits offset ++ [58] ++ concat (column input <$> seq 0 (Z.to_nat w)) ++ [32; 32] ++
  (shown <$> take (Z.to_nat w) input) ++ [10].

(** A line for every [w] bytes *)
Fixpoint dump_text (n : nat) (w offset : Z) (input : list Z) : list Z :=
  match n, input with
  | S n, _ :: _ =>
      line_text w offset input ++
      dump_text n w (u32 (offset + w)) (drop (Z.to_nat w) input)
  | _, _ => []
  end.

(** ** The character that the stores leave at a position of the line *)

Definition nibble (value n : Z) : Z := (value / 16 ^ n) mod 16.

Definition final_char (w offset : Z) (input : list Z) (p : Z) : Z :=
  if p <? 8 then to_hex (nibble offset (7 - p))
  else if p =? 8 then 58
  else if p <? char_start w then
    let q := p - 10 in
    let i := 2 * (q / 5) + q mod 5 / 2 in
    match input !! Z.to_nat i with
    | Some b =>
        if (p <? 10) || (q mod 5 =? 4) || (w <=? i) then 32
        else to_hex (nibble b (1 - q mod 5 mod 2))
    | None => 32
    end
  else
    match take (Z.to_nat w) input !! Z.to_nat (p - char_start w) with
    | Some b => to_char b
    | None => 10
    end.

Definition final_text (w offset : Z) (input : list Z) : list Z :=
  final_char w offset input <$> seqZ 0 (char_start w + Z.min (zlen input) w + 1).

(** ** Digits *)

Ltac div_lia := Z.to_euclidean_division_equations; lia.

Lemma digit_of_mod a m n :
  0 ≤ m < n → (a mod 16 ^ n / 16 ^ m) mod 16 = (a / 16 ^ m) mod 16.
Proof.
  intros Hm. assert (0 < 16 ^ m) by (apply Z.pow_pos_nonneg; lia).
  assert (0 < 16 ^ (n - m)) by (apply Z.pow_pos_nonneg; lia).
  replace (16 ^ n) with (16 ^ m * 16 ^ (n - m)) by (rewrite <- Z.pow_add_r by lia; f_equal; lia).
  rewrite Z.rem_mul_r by lia.
  rewrite (Z.mul_comm (16 ^ m)), Z.div_add, Z.div_small, Z.add_0_l
    by (try apply Z.mod_pos_bound; lia).
  apply Z.mod_mod_divide. exists (16 ^ (n - m - 1)).
  rewrite <- (Z.pow_1_r 16) at 3. rewrite <- Z.pow_add_r by lia. f_equal. lia.
Qed.

Lemma nibble_shift v m :
  1 ≤ m ≤ 7 → nibble (u32 (v ≪ 4)) m = nibble v (m - 1).
Proof.
  intros. unfold nibble, uwrap. change (2 ^ 32) with (16 ^ 8).
  rewrite digit_of_mod by lia. f_equal. rewrite Z.shiftl_mul_pow2 by lia.
  change (2 ^ 4) with 16. replace m with (m - 1 + 1) at 1 by lia.
  rewrite Z.pow_add_r, Z.pow_1_r by lia. apply Z.div_mul_cancel_r; [|lia].
  apply Z.pow_nonzero; lia.
Qed.

Lemma hex_digits_lookup n v (k : nat) :
  (k < n ≤ 8)%nat → in_u 32 v →
  hex_digits n v !! k = Some (to_hex (nibble v (7 - Z.of_nat k))).
Proof.
  revert v k. induction n as [|n IH]; intros v k Hk [Hv Hv']; [lia|].
  destruct k as [|k]; cbn [hex_digits lookup list_lookup].
  - do 2 f_equal. unfold nibble. rewrite Z.shiftr_div_pow2 by lia.
    change (16 ^ (7 - Z.of_nat 0)) with (2 ^ 28). rewrite Z.mod_small; [done|div_lia].
  - fold (lookup (M := list Z) k (hex_digits n (u32 (v ≪ 4)))).
    rewrite IH, nibble_shift by (lia || by apply uwrap_range). do 3 f_equal. lia.
Qed.

Lemma put_uint8_hex_nibbles b :
  is_byte b → put_uint8_hex b = [to_hex (nibble b 1); to_hex (nibble b 0)].
Proof.
  intros Hb. unfold put_uint8_hex, nibble, is_byte in *.
  rewrite (land_low_bits b 4), Z.shiftr_div_pow2 by lia. simpl.
  rewrite Z.div_1_r. do 2 f_equal. symmetry. apply Z.mod_small. div_lia.
Qed.

(** ** The line buffer *)

Section fill.
Context (w offset : Z) (input : list Z).
Hypothesis Hw : 0 ≤ w.
Hypothesis Hoffset : in_u 32 offset.
Hypothesis Hinput : Forall is_byte input.
Implicit Types buf : list Z.

(** The byte whose digits position [p] of the hex area shows, and the positions
    of that area that show none. *)
Definition cell (p : Z) : Z := 2 * ((p - 10) / 5) + (p - 10) mod 5 / 2.
Definition blank (p : Z) : Prop := p < 10 ∨ (p - 10) mod 5 = 4 ∨ w ≤ cell p.

(** Positions that have their final character when the hex columns before [i]
    and the text columns before [j] are written. *)
Definition settled (i j p : Z) : Prop :=
  0 ≤ p ≤ 8 ∨ 8 < p < char_start w ∧ (blank p ∨ cell p < i) ∨
  char_start w ≤ p < char_start w + j.

(** The positions in [S] hold their final character. *)
Definition good (S : Z → Prop) buf : Prop :=
  zlen buf = char_start w + w + 1 ∧
  ∀ p : nat, S (Z.of_nat p) → buf !! p = Some (final_char w offset input (Z.of_nat p)).

(** What a dumper's buffer satisfies between calls. *)
Definition clean buf : Prop :=
  zlen buf = char_start w + w + 1 ∧
  ∀ p : nat, 8 < Z.of_nat p < char_start w → blank (Z.of_nat p) → buf !! p = Some 32.

Lemma char_start_bounds : w * 5 / 2 + 11 ≤ char_start w ≤ w * 5 / 2 + 12.
Proof using Hw. unfold char_start. div_lia. Qed.

(** Columns of byte [i]. *)
Lemma cell_columns i p :
  0 ≤ i < w → (8 < p < char_start w ∧ ¬ blank p ∧ cell p = i) ↔
  p = i * 5 / 2 + 10 ∨ p = i * 5 / 2 + 11.
Proof using Hw. unfold blank, cell, char_start. intros. div_lia. Qed.

(** Writing the two hex columns of byte [i] settles the positions of that byte. *)
Lemma settled_step i j p :
  0 ≤ i < w → settled (i + 1) j p →
  settled i j p ∨ p = i * 5 / 2 + 10 ∨ p = i * 5 / 2 + 11.
Proof using Hw.
  intros Hi Hp. destruct (decide (p = i * 5 / 2 + 10 ∨ p = i * 5 / 2 + 11)) as [|Hne]; [tauto|].
  rewrite <- (cell_columns i p) in Hne by lia. left. unfold settled in *.
  destruct Hp as [?|[[? [?|?]]|?]]; [tauto|tauto| |tauto].
  destruct (decide (cell p = i)); [|right; left; split; [lia|right; lia]].
  right. left. split; [lia|]. left. unfold blank, cell in *. tauto || lia.
Qed.

Lemma final_char_blank p :
  8 < p < char_start w → blank p ∨ zlen input ≤ cell p → final_char w offset input p = 32.
Proof using Hw.
  intros Hp Hb. unfold final_char.
  rewrite (proj2 (Z.ltb_ge p 8)), (proj2 (Z.eqb_neq p 8)), (proj2 (Z.ltb_lt p _)) by lia.
  fold (cell p). destruct (input !! Z.to_nat (cell p)) as [b|] eqn:E; [|done].
  apply lookup_lt_Some in E. unfold zlen in Hb.
  assert ((p <? 10) || ((p - 10) mod 5 =? 4) || (w <=? cell p) = true) as ->; [|done].
  rewrite !orb_true_iff, Z.ltb_lt, Z.eqb_eq, Z.leb_le. unfold blank, cell in *. div_lia.
Qed.

Lemma final_char_hex i b k :
  0 ≤ i < w → input !! Z.to_nat i = Some b → k = 0 ∨ k = 1 →
  final_char w offset input (i * 5 / 2 + 10 + k) = to_hex (nibble b (1 - k)).
Proof using Hw.
  intros Hi Hb Hk. set (p := i * 5 / 2 + 10 + k).
  destruct (proj2 (cell_columns i p Hi)) as (Hp & Hnb & Hc); [unfold p; lia|].
  unfold final_char.
  rewrite (proj2 (Z.ltb_ge p 8)), (proj2 (Z.eqb_neq p 8)), (proj2 (Z.ltb_lt p _)) by lia.
  fold (cell p). rewrite Hc, Hb.
  assert ((p <? 10) || ((p - 10) mod 5 =? 4) || (w <=? i) = false) as ->.
  { rewrite !orb_false_iff, Z.ltb_ge, Z.eqb_neq, Z.leb_gt. unfold blank in Hnb. lia. }
  do 2 f_equal. unfold p. div_lia.
Qed.

Lemma final_char_text i b :
  0 ≤ i < w → input !! Z.to_nat i = Some b →
  final_char w offset input (char_start w + i) = to_char b.
Proof using Hw.
  intros Hi Hb. pose proof char_start_bounds. unfold final_char.
  rewrite !(proj2 (Z.ltb_ge _ _)), (proj2 (Z.eqb_neq _ _)) by div_lia.
  rewrite Z.add_simpl_l, lookup_take_lt, Hb by lia. done.
Qed.

Lemma final_char_end :
  final_char w offset input (char_start w + Z.min (zlen input) w) = 10.
Proof using Hw.
  pose proof char_start_bounds. pose proof (zlen_nonneg input). unfold final_char.
  rewrite !(proj2 (Z.ltb_ge _ _)), (proj2 (Z.eqb_neq _ _)) by div_lia.
  rewrite Z.add_simpl_l, lookup_ge_None_2; [done|]. rewrite length_take. unfold zlen. lia.
Qed.

(** Storing final characters extends the set of finished positions. *)
Lemma good_write (S S' : Z → Prop) off bs buf :
  good S buf → 0 ≤ off → off + zlen bs ≤ char_start w + w + 1 →
  (∀ (k : nat) c, bs !! k = Some c → c = final_char w offset input (off + Z.of_nat k)) →
  (∀ p, S' p → S p ∨ off ≤ p < off + zlen bs) →
  ∃ buf', span_write off bs buf = Ok buf' ∧ good S' buf'.
Proof.
  intros [Hlen Hgood] Hoff Hend Hbs HS. exists (splice off bs buf).
  rewrite span_write_ok by lia. split; [done|]. split; [by rewrite splice_length by lia|].
  intros p Hp. rewrite splice_lookup by lia. destruct (decide _) as [Hin|Hout].
  - destruct (lookup_lt_is_Some_2 bs (p - Z.to_nat off)) as [c Hc]; [unfold zlen in Hin; lia|].
    rewrite Hc. f_equal. rewrite (Hbs _ _ Hc). f_equal. lia.
  - apply Hgood. destruct (HS _ Hp); [done|lia].
Qed.

(** The positions finished before byte [i]. *)
Definition upto (i : Z) : Z → Prop := settled i (Z.min i (zlen input)).

Lemma put_bytes_good bytes i buf :
  0 ≤ i → i + zlen bytes ≤ w → bytes = slice i (zlen bytes) input →
  i + zlen bytes ≤ zlen input → good (upto i) buf →
  ∃ buf', put_bytes w i bytes buf = Ok buf' ∧ good (upto (i + zlen bytes)) buf'.
Proof using Hw Hinput.
  revert i buf. induction bytes as [|b bytes IH]; intros i buf Hi Hiw Hsl Hin Hgood.
  { exists buf. by rewrite zlen_nil, Z.add_0_r. }
  rewrite zlen_cons in *. cbn [put_bytes]. pose proof (zlen_nonneg bytes) as Hnn.
  pose proof char_start_bounds as Hcs.
  assert (input !! Z.to_nat i = Some b ∧ bytes = slice (i + 1) (zlen bytes) input) as [Hb Htl].
  { by apply slice_cons_inv. }
  assert (is_byte b) as Hbyte by (eapply Forall_lookup_1; [exact Hinput|done]).
  rewrite put_uint8_hex_nibbles by done.
  destruct (good_write (upto i) (settled (i + 1) i) (i * 5 / 2 + 10)
    [to_hex (nibble b 1); to_hex (nibble b 0)] buf) as (buf1 & -> & Hgood1); [done|div_lia|
    change (zlen [_; _]) with 2; div_lia| |change (zlen [_; _]) with 2|].
  { intros [|[|k]] c [= <-]; symmetry; [apply (final_char_hex i b 0)|apply (final_char_hex i b 1)];
      try done; lia || auto. }
  { intros p Hp. destruct (settled_step i i p) as [?|[?|?]]; [lia|done|left|right; lia..].
    unfold upto. by rewrite Z.min_l by lia. }
  cbn [mbind result_bind].
  destruct (good_write (settled (i + 1) i) (upto (i + 1)) (char_start w + i) [to_char b] buf1)
    as (buf2 & -> & Hgood2); [done|div_lia|change (zlen [_]) with 1; lia| |change (zlen [_]) with 1|].
  { intros [|k] c [= <-]. rewrite Z.add_0_r. symmetry. apply final_char_text; [lia|done]. }
  { intros p Hp. unfold upto, settled in *. destruct Hp as [?|[?|?]]; [tauto|tauto|lia]. }
  cbn [mbind result_bind]. destruct (IH (i + 1) buf2) as (buf3 & Hrec & Hgood3); [lia|lia|done|lia|done|].
  exists buf3. rewrite Hrec. split; [done|]. by replace (i + (1 + zlen bytes)) with (i + 1 + zlen bytes) by lia.
Qed.

Lemma blank_cell_good i off buf (S S' : Z → Prop) :
  0 ≤ i < w → zlen input ≤ i → off = i * 5 / 2 + 10 ∨ off = i * 5 / 2 + 11 →
  good S buf → (∀ p, S' p → S p ∨ p = off) →
  ∃ buf', span_write off [32] buf = Ok buf' ∧ good S' buf'.
Proof using Hw.
  intros Hi Hlen Hoff Hgood HS. pose proof char_start_bounds.
  destruct (proj2 (cell_columns i off Hi) Hoff) as (Hp & _ & Hc).
  apply (good_write S); [done|lia|change (zlen [32]) with 1; lia| |].
  - intros [|k] c [= <-]. rewrite Z.add_0_r. symmetry. apply final_char_blank; [done|lia].
  - intros p [?| ->]%HS; [by left|right]. change (zlen [32]) with 1. lia.
Qed.

Lemma put_blanks_good n i buf :
  0 ≤ i → i + Z.of_nat n = w → zlen input ≤ i ∨ n = O → good (upto i) buf →
  ∃ buf', put_blanks n i buf = Ok buf' ∧ good (upto w) buf'.
Proof using Hw.
  revert i buf. induction n as [|n IH]; intros i buf Hi Hn Hlen Hgood.
  { exists buf. split; [done|]. by replace w with i by lia. }
  destruct Hlen as [Hlen|]; [|done]. cbn [put_blanks].
  destruct (blank_cell_good i (i * 5 / 2 + 10) buf (upto i)
    (λ p, upto i p ∨ p = i * 5 / 2 + 10)) as (buf1 & -> & Hgood1); [lia|done|lia|done|tauto|].
  cbn [mbind result_bind].
  destruct (blank_cell_good i (i * 5 / 2 + 11) buf1 (λ p, upto i p ∨ p = i * 5 / 2 + 10)
    (upto (i + 1))) as (buf2 & -> & Hgood2); [lia|done|lia|done| |].
  { unfold upto. rewrite !Z.min_r by lia. intros p Hp.
    destruct (settled_step i (zlen input) p) as [?|[?|?]]; [lia|done|tauto..]. }
  cbn [mbind result_bind]. apply IH; [lia..|left; lia|done].
Qed.

Lemma clean_good buf :
  clean buf → good (λ p, 8 < p < char_start w ∧ blank p) buf.
Proof using Hw.
  intros [Hlen Hb]. split; [done|]. intros p [Hp Hbl].
  rewrite Hb, final_char_blank by auto. done.
Qed.

Lemma good_clean (S : Z → Prop) buf :
  (∀ p, 8 < p < char_start w → S p) → good S buf → clean buf.
Proof using Hw.
  intros HS [Hlen Hg]. split; [done|]. intros p Hp Hbl.
  rewrite Hg, final_char_blank; auto.
Qed.

Lemma good_text size buf :
  size = Z.min (zlen input) w → good (λ p, 0 ≤ p < char_start w + size + 1) buf →
  span_read 0 (char_start w + size + 1) buf = Ok (final_text w offset input).
Proof using Hw.
  intros Hsize [Hlen Hchars]. pose proof char_start_bounds. pose proof (zlen_nonneg input).
  unfold span_read. rewrite !(proj2 (Z.leb_le _ _)) by div_lia. simpl. f_equal.
  unfold slice, final_text. rewrite drop_0, <- Hsize. apply list_eq. intros p.
  destruct (decide (Z.of_nat p < char_start w + size + 1)) as [Hp|Hp].
  - rewrite lookup_take_lt, Hchars by lia. rewrite list_lookup_fmap, lookup_seqZ_lt by lia. done.
  - rewrite lookup_take_ge by lia. rewrite list_lookup_fmap, lookup_seqZ_ge by lia. done.
Qed.

(** ** The characters of a line, from left to right *)

Lemma nibble_range v n : 0 ≤ nibble v n < 16.
Proof. apply Z.mod_pos_bound. lia. Qed.

Lemma to_hex_digit n : 0 ≤ n < 16 → to_hex n = digit n.
Proof.
  intros Hn. assert (n ∈ seqZ 0 16) as Hin by (apply elem_of_seqZ; lia). clear Hn.
  assert (Forall (λ n, to_hex n = digit n) (seqZ 0 16)) as Hall by (vm_compute; by repeat constructor).
  rewrite Forall_forall in Hall. by apply Hall.
Qed.

Lemma to_char_shown b : to_char b = shown b.
Proof.
  unfold to_char, shown. destruct (decide _) as [Hb|Hb].
  - by rewrite !(proj2 (Z.leb_le _ _)) by lia.
  - destruct (Z.leb_spec 32 b), (Z.leb_spec b 127); try done. lia.
Qed.

(** The columns before byte [n] take up [columns n] positions, from position 9. *)
Definition columns (n : nat) : Z := (5 * Z.of_nat n + 1) / 2.

Lemma final_digits (n : nat) b k :
  Z.of_nat n < w → input !! n = Some b → k = 0 ∨ k = 1 →
  final_char w offset input (Z.of_nat n * 5 / 2 + 10 + k) = digit (if k =? 0 then b / 16 else b mod 16).
Proof using Hw Hinput.
  intros Hn Hb Hk. rewrite (final_char_hex _ b) by (try lia; by rewrite ?Nat2Z.id).
  rewrite to_hex_digit by apply nibble_range. f_equal.
  assert (is_byte b) as [] by (eapply Forall_lookup_1; [exact Hinput|done]).
  unfold nibble. destruct Hk as [-> | ->]; simpl; rewrite ?Z.div_1_r; [|done].
  apply Z.mod_small. div_lia.
Qed.

Lemma final_columns n :
  Z.of_nat n ≤ w →
  final_char w offset input <$> seqZ 9 (columns n) = concat (column input <$> seq 0 n).
Proof using Hw Hinput.
  induction n as [|n IH]; intros Hn; [done|]. rewrite seq_S, fmap_app, concat_app, <- IH by lia. simpl.
  rewrite app_nil_r. unfold column. set (p := Z.of_nat n * 5 / 2 + 10).
  destruct (proj2 (cell_columns (Z.of_nat n) p ltac:(lia))) as (Hp & _ & Hc); [by left|].
  destruct (proj2 (cell_columns (Z.of_nat n) (p + 1) ltac:(lia))) as (Hp1 & _ & Hc1); [right; unfold p; lia|].
  assert (final_char w offset input p :: final_char w offset input (p + 1) :: [] =
    match input !! n with Some b => [digit (b / 16); digit (b mod 16)] | None => [32; 32] end) as Hcell.
  { destruct (input !! n) as [b|] eqn:Eb.
    - pose proof (final_digits n b 0 ltac:(lia) Eb ltac:(by left)) as H0. rewrite Z.add_0_r in H0.
      pose proof (final_digits n b 1 ltac:(lia) Eb ltac:(by right)) as H1. unfold p. by rewrite H0, H1.
    - apply lookup_ge_None in Eb. rewrite !final_char_blank; unfold zlen; try done; right; lia. }
  destruct (Nat.even n) eqn:Ev; [apply Nat.even_spec in Ev as [m Hm]|].
  2: { rewrite <- Nat.negb_odd, negb_false_iff in Ev. apply Nat.odd_spec in Ev as [m Hm].
    replace (columns (S n)) with (columns n + 2) by (unfold columns; div_lia).
    rewrite seqZ_app, fmap_app by (unfold columns; div_lia). f_equal. rewrite <- Hcell.
    replace (9 + columns n) with p by (unfold p, columns; div_lia).
    change (seqZ p 2) with [Z.of_nat 0 + p; Z.of_nat 1 + p]. cbn [fmap list_fmap].
    by rewrite Z.add_0_l, (Z.add_comm _ p). }
  replace (columns (S n)) with (columns n + 3) by (unfold columns; div_lia).
  rewrite seqZ_app, fmap_app by (unfold columns; div_lia). f_equal.
  rewrite <- Hcell.
  replace (9 + columns n) with (p - 1) by (unfold p, columns; div_lia).
  change (seqZ (p - 1) 3) with [Z.of_nat 0 + (p - 1); Z.of_nat 1 + (p - 1); Z.of_nat 2 + (p - 1)]. simpl.
  f_equal; [|f_equal; [f_equal; lia|f_equal; f_equal; lia]].
  assert (10 ≤ p) by (unfold p; div_lia). apply final_char_blank; [lia|]. left. unfold blank, p. div_lia.
Qed.

Lemma final_shown :
  final_char w offset input <$> seqZ (char_start w) (Z.min (zlen input) w + 1) =
  (shown <$> take (Z.to_nat w) input) ++ [10].
Proof using Hw.
  pose proof (zlen_nonneg input). rewrite seqZ_app, fmap_app by lia. f_equal.
  - apply list_eq. intros i. rewrite !list_lookup_fmap.
    destruct (decide (Z.of_nat i < Z.min (zlen input) w)) as [Hi|Hi].
    + destruct (lookup_lt_is_Some_2 input i) as [b Hb]; [unfold zlen in Hi; lia|].
      rewrite lookup_seqZ_lt, lookup_take_lt, Hb by lia. simpl. f_equal.
      rewrite (final_char_text _ b), to_char_shown by (try lia; by rewrite Nat2Z.id). done.
    + unfold zlen in *. rewrite lookup_seqZ_ge, lookup_ge_None_2 by (rewrite ?length_take; lia). done.
  - change (seqZ ?a 1) with [Z.of_nat 0 + a]. cbn [fmap list_fmap]. by rewrite Z.add_0_l, final_char_end.
Qed.

Lemma final_text_line : final_text w offset input = line_text w offset input.
Proof using Hw Hinput.
  unfold final_text, line_text. pose proof (zlen_nonneg input) as Hnn.
  replace (char_start w + Z.min (zlen input) w + 1)
    with (8 + (1 + (columns (Z.to_nat w) + (2 + (Z.min (zlen input) w + 1))))) by (unfold char_start, columns; div_lia).
  assert (0 ≤ columns (Z.to_nat w)) by (unfold columns; div_lia).
  rewrite !seqZ_app, !fmap_app by lia. apply (f_equal2 (++)); [|apply (f_equal2 (++)); [done|apply (f_equal2 (++)); [|apply (f_equal2 (++))]]].
  - unfold offset_digits. simpl. unfold final_char. simpl. by rewrite !to_hex_digit by apply nibble_range.
  - apply final_columns. lia.
  - replace (0 + 8 + 1 + columns (Z.to_nat w)) with (char_start w - 2) by (unfold char_start, columns; div_lia).
    assert (9 ≤ char_start w - 2) by (unfold char_start; div_lia).
    change (seqZ ?a 2) with [Z.of_nat 0 + a; Z.of_nat 1 + a]. simpl.
    rewrite !final_char_blank; [done|lia|left; unfold blank, cell, char_start in *; div_lia|lia|
      left; unfold blank, cell, char_start in *; div_lia].
  - replace (0 + 8 + 1 + columns (Z.to_nat w) + 2) with (char_start w) by (unfold char_start, columns; div_lia).
    rewrite <- fmap_app, <- seqZ_app by lia. apply final_shown.
Qed.

Lemma fill_line_good buf :
  clean buf →
  ∃ buf', fill_line w offset input buf = Ok buf' ∧ clean buf' ∧
    span_read 0 (char_start w + Z.min (zlen input) w + 1) buf' = Ok (line_text w offset input).
Proof using Hw Hoffset Hinput.
  intros Hclean. pose proof char_start_bounds as Hcs. pose proof (zlen_nonneg input) as Hnn.
  set (size := Z.min (zlen input) w). unfold fill_line. fold size.
  destruct (good_write _ (λ p, 0 ≤ p < 8 ∨ 8 < p < char_start w ∧ blank p) 0
    (put_uint32_hex offset) buf (clean_good buf Hclean)) as (buf1 & -> & Hg1);
    [done|change (zlen (put_uint32_hex offset)) with 8; div_lia| |
     change (zlen (put_uint32_hex offset)) with 8; intros p ?; lia || tauto|].
  { intros k c Hc. assert (k < 8)%nat as Hk by (apply lookup_lt_Some in Hc; exact Hc).
    unfold put_uint32_hex in Hc. rewrite hex_digits_lookup in Hc by (done || lia).
    injection Hc as <-. unfold final_char. rewrite (proj2 (Z.ltb_lt _ _)) by lia.
    done. }
  cbn [mbind result_bind].
  destruct (good_write _ (upto 0) 8 [58] buf1 Hg1) as (buf2 & -> & Hg2);
    [done|change (zlen [58]) with 1; div_lia|by intros [|k] c [= <-]| |].
  { change (zlen [58]) with 1. intros p. unfold upto, settled, cell. intros Hp.
    destruct Hp as [?|[[? [?|?]]|?]]; [lia|tauto| |lia].
    left. right. split; [done|]. unfold blank. div_lia. }
  cbn [mbind result_bind].
  assert (zlen (take (Z.to_nat size) input) = size) as Hsize
    by (unfold zlen in *; rewrite length_take; lia).
  destruct (put_bytes_good (take (Z.to_nat size) input) 0 buf2) as (buf3 & -> & Hg3);
    [done|lia|rewrite Hsize; unfold slice; by rewrite drop_0|lia|done|].
  cbn [mbind result_bind]. rewrite Hsize, Z.add_0_l in Hg3.
  destruct (put_blanks_good (Z.to_nat (w - size)) size buf3) as (buf4 & -> & Hg4);
    [lia|lia|lia|done|]. cbn [mbind result_bind].
  destruct (good_write _ (λ p, 0 ≤ p < char_start w + size + 1) (char_start w + size) [10] buf4 Hg4)
    as (buf5 & -> & Hg5); [div_lia|change (zlen [10]) with 1; lia| | |].
  { intros [|k] c [= <-]. rewrite Z.add_0_r. symmetry. apply final_char_end. }
  { change (zlen [10]) with 1. intros p Hp. unfold upto, settled, blank. lia. }
  exists buf5. split; [done|]. split; [eapply good_clean; [|done]; intros; simpl; lia|].
  rewrite <- final_text_line. by apply good_text.
Qed.
End fill.

Lemma make_clean w : 0 ≤ w → clean w (buffer_ (make w)).
Proof.
  intros. pose proof (char_start_bounds w ltac:(done)).
  assert (0 ≤ w * 5 / 2) by div_lia. split; simpl.
  - unfold zlen. rewrite length_replicate. lia.
  - intros p Hp _. apply lookup_replicate_2. lia.
Qed.

Section dump_spec.
Context {F : Type} `{!File F, !Writer F, !ReliableWriter F}.
Implicit Types (d : HexDumper) (f : F).

Definition wf d : Prop := 0 < width_ d ∧ clean (width_ d) (buffer_ d).

Lemma line_text_length w offset input :
  0 ≤ w → Forall is_byte input →
  zlen (line_text w offset input) = char_start w + Z.min (zlen input) w + 1.
Proof.
  intros Hw Hin. pose proof (char_start_bounds w Hw). pose proof (zlen_nonneg input).
  rewrite <- final_text_line by done. unfold final_text, zlen at 1. rewrite length_fmap, length_seqZ. div_lia.
Qed.

Lemma dump_line_spec fuel offset input d f :
  wf d → valid_writer f → in_u 32 offset → Forall is_byte input →
  zlen (line_text (width_ d) offset input) ≤ room f →
  (length (line_text (width_ d) offset input) < fuel)%nat →
  ∃ d' f', dump_line fuel offset input (d, f) = (Ok tt, (d', f')) ∧
    wf d' ∧ width_ d' = width_ d ∧ valid_writer f' ∧
    written f' = written f ++ line_text (width_ d) offset input ∧
    room f' = room f - zlen (line_text (width_ d) offset input).
Proof.
  intros [Hw Hc] Hv Ho Hin Hroom Hfuel.
  destruct (fill_line_good (width_ d) offset input ltac:(lia) Ho Hin (buffer_ d) Hc)
    as (buf & Hfill & Hc' & Hread).
  destruct (write_loop_spec fuel _ f Hv Hroom Hfuel) as (f' & Hwrite & Hv' & Hwr & Hroom').
  unfold dump_line. rewrite Hfill. simpl. rewrite Hread, Hwrite.
  exists {| width_ := width_ d; buffer_ := buf |}, f'. by unfold wf.
Qed.

(** C18: For any width above zero and with the line buffer reused from earlier dumps,
    HexDumper::dump writes to a file with room exactly the text of the input: for each line
    the eight hex digits of the offset, a colon, the digits of the bytes with a blank before
    every second one, blanks for missing bytes, two blanks, and the bytes as characters,
    those from 32 to 127 (DEL included) as they are and dots for the others. *)
Theorem hex_dump_text n fuel offset input d f :
  wf d → valid_writer f → in_u 32 offset → Forall is_byte input →
  zlen (dump_text n (width_ d) offset input) ≤ room f →
  (length input < n)%nat → 4 * width_ d + 16 ≤ Z.of_nat fuel →
  ∃ d' f', dump n fuel offset input (d, f) = (Ok tt, (d', f')) ∧ wf d' ∧
    written f' = written f ++ dump_text n (width_ d) offset input.
Proof.
  revert offset input d f. induction n as [|n IH];
    intros offset input d f Hwf Hv Ho Hin Hroom Hn Hfuel; [lia|].
  pose proof Hwf as [Hw _]. pose proof (zlen_nonneg input) as Hnn. cbn [dump dump_text fst].
  assert (length (line_text (width_ d) offset input) < fuel)%nat as Hlt.
  { pose proof (line_text_length (width_ d) offset input ltac:(lia) Hin).
    pose proof (char_start_bounds (width_ d) ltac:(lia)). unfold zlen in *. div_lia. }
  destruct (Z.leb_spec (width_ d) (zlen input)) as [Hge|Hlt'].
  - destruct input as [|b input]; [rewrite zlen_nil in *; lia|]. cbn [dump_text] in Hroom.
    rewrite zlen_app in Hroom. set (rest := drop _ _) in *.
    set (offset' := u32 (offset + width_ d)) in *.
    pose proof (zlen_nonneg (dump_text n (width_ d) offset' rest)).
    destruct (dump_line_spec fuel offset (b :: input) d f) as (d1 & f1 & Hl & Hwf1 & Hw1 & Hv1 & Hwr1 & Hr1);
      [done..|lia|done|].
    unfold st_bind. rewrite Hl, <- Hw1 in *.
    destruct (IH offset' rest d1 f1) as (d2 & f2 & Hrec & Hwf2 & Hwr2);
      [done|done|by apply uwrap_range|by apply Forall_drop|lia| |lia|].
    { unfold rest. rewrite length_drop. simpl in *. lia. }
    exists d2, f2. rewrite Hrec, Hwr2, Hwr1, <- (assoc_L (++)). done.
  - destruct input as [|b input]; simpl.
    + exists d, f. by rewrite app_nil_r.
    + cbn [dump_text] in Hroom. rewrite zlen_app in Hroom.
      rewrite drop_ge by (unfold zlen in Hlt'; lia).
      assert (dump_text n (width_ d) (u32 (offset + width_ d)) [] = []) as Hnil by by destruct n.
      rewrite Hnil, app_nil_r. rewrite drop_ge, Hnil in Hroom by (unfold zlen in Hlt'; lia).
      destruct (dump_line_spec fuel offset (b :: input) d f) as (d1 & f1 & Hl & Hwf1 & _ & _ & Hwr1 & _);
        [done..|rewrite zlen_nil in Hroom; lia|done|]. eauto.
Qed.
End dump_spec.

(** With a width of 0 every line is full, and the loop of dump does not end. *)
Theorem hex_dump_width_zero {F : Type} `{!File F} n fuel offset input d (f : F) :
  width_ d = 0 → fst (dump n fuel offset input (d, f)) ≠ Ok tt.
Proof.
  revert offset input d f. induction n as [|n IH]; intros offset input d f Hw; [done|].
  cbn [dump fst]. rewrite Hw, (proj2 (Z.leb_le _ _)) by apply zlen_nonneg. unfold st_bind.
  destruct (dump_line fuel offset input (d, f)) as [r [d' f']] eqn:E.
  assert (width_ d' = 0) as Hw'.
  { unfold dump_line in E. destruct (fill_line _ _ _ _) as [buf| | |]; [|by simplify_eq/=..].
    destruct (span_read _ _ _) as [line| | |]; [|by simplify_eq/=..].
    destruct (FileUtils.write _ _ _). by simplify_eq/=. }
  destruct r as [[]| | |]; [|done..]. by apply IH.
Qed.

Lemma hex_dump_text_witness :
  ∃ d f, dump 13 64 12 [104; 101; 108; 108; 111; 32; 119; 111; 114; 108; 100; 10]
           (make 7, MemoryFile.make []) = (Ok tt, (d, f)) ∧
    written f = dump_text 13 7 12 [104; 101; 108; 108; 111; 32; 119; 111; 114; 108; 100; 10].
Proof.
  destruct (hex_dump_text 13 64 12 [104; 101; 108; 108; 111; 32; 119; 111; 114; 108; 100; 10]
    (make 7) (MemoryFile.make [])) as (d & f & Hd & _ & Hw);
    [split; [done|by apply make_clean]|by repeat split|done|by repeat constructor|
     vm_compute; discriminate|simpl; lia|vm_compute; discriminate|].
  exists d, f. split; [exact Hd|exact Hw].
Defined.
