(* ===== verification/Algorithm.v ===== *)
(** * The standard algorithms the sources call

    The order of std::string_view (bytes compared as unsigned char, as
    char_traits<char> does) and std::lower_bound as the bisection that its
    complexity requirement asks for.  The comparison may read memory, so it
    runs in [result]. *)

From S2P Require Import Prelude.
From Stdlib Require Export Sorted.

(** operator<(std::string_view, std::string_view) *)
Fixpoint bytes_ltb (a b : list Z) : bool :=
  match a, b with
  | _, [] => false
  | [], _ :: _ => true
  | x :: a, y :: b => (x <? y) || ((x =? y) && bytes_ltb a b)
  end.

Definition bytes_lt (a b : list Z) : Prop := bytes_ltb a b = true.

(** The loop of std::lower_bound over [first, first + len) *)
Fixpoint lower_bound_loop {A} (fuel : nat) (less : A → result bool) (l : list A)
    (first len : nat) : result nat :=
  match fuel with
  | O => Hang
  | S fuel =>
      if (len =? 0)%nat then Ok first
      else
        let half := (len / 2)%nat in
        match l !! (first + half)%nat with
        | None => Crash
        | Some x =>
            b ← less x;
            if b : bool
            then lower_bound_loop fuel less l (first + half + 1) (len - half - 1)
            else lower_bound_loop fuel less l first half
        end
  end.

(** std::lower_bound, absl::c_lower_bound: the index of the returned iterator *)
Definition lower_bound {A} (less : A → result bool) (l : list A) : result nat :=
  lower_bound_loop (S (length l)) less l 0 (length l).

(** ** The order on byte strings *)

Lemma bytes_lt_irrefl a : ¬ bytes_lt a a.
Proof.
  unfold bytes_lt. induction a as [|x a IH]; simpl; [done|].
  rewrite Z.ltb_irrefl, Z.eqb_refl. done.
Qed.

Lemma bytes_lt_cons x y a b :
  bytes_lt (x :: a) (y :: b) ↔ x < y ∨ (x = y ∧ bytes_lt a b).
Proof.
  unfold bytes_lt. simpl. rewrite orb_true_iff, andb_true_iff, Z.ltb_lt, Z.eqb_eq. done.
Qed.

Lemma bytes_lt_trans a b c : bytes_lt a b → bytes_lt b c → bytes_lt a c.
Proof.
  revert b c. induction a as [|x a IH]; intros [|y b] [|z c]; try done.
  rewrite !bytes_lt_cons. intros [?|[-> ?]] [?|[-> ?]]; [left; lia|left; lia|left; lia|eauto].
Qed.

Lemma bytes_lt_trichotomy a b : ¬ bytes_lt a b → ¬ bytes_lt b a → a = b.
Proof.
  revert b. induction a as [|x a IH]; intros [|y b]; try done.
  rewrite !bytes_lt_cons. intros H1 H2. assert (x = y) as -> by lia. f_equal. apply IH; tauto.
Qed.

#[export] Instance bytes_lt_strict : StrictOrder bytes_lt.
Proof. split; [exact bytes_lt_irrefl|exact bytes_lt_trans]. Qed.

Lemma bytes_ltb_spec a b : reflect (bytes_lt a b) (bytes_ltb a b).
Proof. unfold bytes_lt. by destruct (bytes_ltb a b); constructor. Qed.

(** ** lower_bound finds the partition point *)

(** The first [k] elements satisfy [p] and the others do not. *)
Definition partitioned {A} (p : A → bool) (l : list A) (k : nat) : Prop :=
  ∀ i x, l !! i = Some x → p x = bool_decide (i < k)%nat.

Lemma lower_bound_loop_spec {A} (less : A → result bool) (p : A → bool) l k fuel first len :
  (∀ i x, l !! i = Some x → less x = Ok (p x)) → partitioned p l k →
  (first ≤ k ≤ first + len)%nat → (first + len ≤ length l)%nat → (len < fuel)%nat →
  lower_bound_loop fuel less l first len = Ok k.
Proof.
  intros Hless Hpart. revert first len.
  induction fuel as [|fuel IH]; intros first len Hk Hlen Hfuel; [lia|].
  cbn [lower_bound_loop]. destruct (Nat.eqb_spec len 0) as [->|Hne]; [f_equal; lia|].
  assert (len / 2 < len)%nat as Hhalf by (apply Nat.div_lt; lia).
  destruct (lookup_lt_is_Some_2 l (first + len / 2)) as [x Hx]; [lia|].
  rewrite Hx, (Hless _ _ Hx), (Hpart _ _ Hx). cbn [mbind result_bind].
  case_bool_decide; apply IH; lia.
Qed.

Lemma lower_bound_spec {A} (less : A → result bool) (p : A → bool) l k :
  (∀ i x, l !! i = Some x → less x = Ok (p x)) → partitioned p l k → (k ≤ length l)%nat →
  lower_bound less l = Ok k.
Proof. intros. eapply lower_bound_loop_spec; eauto; lia. Qed.

Lemma partition_exists {A} (p : A → bool) l :
  (∀ i j x y, l !! i = Some x → l !! j = Some y → (i ≤ j)%nat → p y = true → p x = true) →
  ∃ k, (k ≤ length l)%nat ∧ partitioned p l k.
Proof.
  induction l as [|x l IH]; intros Hmono; [by exists 0%nat|].
  destruct (p x) eqn:Hx.
  - destruct IH as (k & Hk & Hp).
    { intros i j y z Hi Hj ?. apply (Hmono (S i) (S j)); [done|done|lia]. }
    exists (S k). split; [simpl; lia|]. intros [|i] y Hy; simpl in Hy.
    + injection Hy as <-. by rewrite Hx, bool_decide_eq_true_2 by lia.
    + rewrite (Hp i y Hy). apply bool_decide_ext. lia.
  - exists 0%nat. split; [simpl; lia|]. intros i y Hy.
    rewrite bool_decide_eq_false_2 by lia. destruct (p y) eqn:Hpy; [|done].
    rewrite (Hmono 0%nat i x y) in Hx; [done|done|done|lia|done].
Qed.

Lemma StronglySorted_lookup_lt {A} (R : A → A → Prop) l i j x y :
  StronglySorted R l → l !! i = Some x → l !! j = Some y → (i < j)%nat → R x y.
Proof.
  intros Hs. revert i j. induction Hs as [|z l Hs IH Hz]; intros [|i] [|j] Hx Hy Hij; try done;
    simpl in *; try lia.
  - injection Hx as <-. by eapply Forall_lookup_1 in Hz.
  - apply (IH i j); [done|done|lia].
Qed.

(** In a strictly increasing list of keys, those below [k] come first. *)
Lemma sorted_partition {A} (f : A → list Z) l k :
  StronglySorted bytes_lt (f <$> l) →
  ∃ m, (m ≤ length l)%nat ∧ partitioned (λ x, bytes_ltb (f x) k) l m.
Proof.
  intros Hs. apply partition_exists. intros i j x y Hx Hy Hij Hlt.
  destruct (decide (i = j)) as [->|]; [congruence|].
  eapply bytes_lt_trans; [|done].
  apply (StronglySorted_lookup_lt bytes_lt (f <$> l) i j); rewrite ?list_lookup_fmap, ?Hx, ?Hy;
    (done || lia).
Qed.

(** The partition point is the place of an element with that key. *)
Lemma partition_found {A} (f : A → list Z) l m j x :
  StronglySorted bytes_lt (f <$> l) → partitioned (λ y, bytes_ltb (f y) (f x)) l m →
  l !! j = Some x → (m ≤ length l)%nat → m = j.
Proof.
  intros Hs Hp Hj Hm. pose proof (Hp j x Hj) as Hpj. cbv beta in Hpj.
  destruct (bytes_ltb_spec (f x) (f x)) as [H|_]; [by apply bytes_lt_irrefl in H|].
  symmetry in Hpj. apply bool_decide_eq_false in Hpj.
  destruct (decide (m = j)) as [|Hne]; [done|].
  destruct (lookup_lt_is_Some_2 l m) as [y Hy]; [apply lookup_lt_Some in Hj; lia|].
  pose proof (Hp m y Hy) as Hpm. cbv beta in Hpm. rewrite bool_decide_eq_false_2 in Hpm by lia.
  assert (bytes_lt (f y) (f x)) as Hlt; [|unfold bytes_lt in Hlt; congruence].
  apply (StronglySorted_lookup_lt bytes_lt (f <$> l) m j); rewrite ?list_lookup_fmap, ?Hy, ?Hj;
    (done || lia).
Qed.
