(* ===== verification/Endian.v ===== *)
(** * Boost.Endian and object representations

    Boost is not part of the repository: [BoostEndian] is the interface of the
    conversion functions that db/sstable.cc calls, with the behaviour their
    documentation gives (a value of the named width is stored in that many
    bytes, and loading them gives it back).  [boost_endian] is the usual
    little-endian implementation, which shows that the laws can hold. *)

From S2P Require Import Prelude.

Class BoostEndian : Type := {
  store_little_s32 : Z → list Z;
  load_little_s32 : list Z → Z;
  store_little_s64 : Z → list Z;
  load_little_s64 : list Z → Z;
  store_little_s32_length z : length (store_little_s32 z) = 4%nat;
  store_little_s64_length z : length (store_little_s64 z) = 8%nat;
  load_store_s32 z : in_s 32 z → load_little_s32 (store_little_s32 z) = z;
  load_store_s64 z : in_s 64 z → load_little_s64 (store_little_s64 z) = z;
}.

Lemma swrap_mod w z : 0 < w → swrap w (z mod 2 ^ w) = swrap w z.
Proof. apply swrap_uwrap. Qed.

#[export] Program Instance boost_endian : BoostEndian := {
  store_little_s32 := le_encode 4;
  load_little_s32 bs := swrap 32 (le_decode bs);
  store_little_s64 := le_encode 8;
  load_little_s64 bs := swrap 64 (le_decode bs);
}.
Next Obligation. intros. apply le_encode_length. Qed.
Next Obligation. intros. apply le_encode_length. Qed.
Next Obligation.
  intros z Hz. change (swrap 32 (le_decode (le_encode 4 z)) = z).
  rewrite le_decode_encode. change (256 ^ Z.of_nat 4) with (2 ^ 32).
  rewrite swrap_mod by lia. by apply swrap_id.
Qed.
Next Obligation.
  intros z Hz. change (swrap 64 (le_decode (le_encode 8 z)) = z).
  rewrite le_decode_encode. change (256 ^ Z.of_nat 8) with (2 ^ 64).
  rewrite swrap_mod by lia. by apply swrap_id.
Qed.
