(* ===== verification/SSTableBuilder.v ===== *)
(** * db/sstable: the builder

    SSTableBuilder collects entries in [buffer_], describes the blocks they
    form in [blocks_] and writes full buffers to the file; finish appends the
    block index, the last keys and the trailer.  The int32_t and size_t
    conversions of the source are kept. *)

From S2P Require Import Prelude File Endian.

Record Options : Type := { block_size : Z; flush_size : Z }.

Record Block : Type := { offset : Z; size : Z; last : list Z }.

Record SSTableBuilder (F : Type) : Type := {
  file_ : F;
  block_size_ : Z;
  flush_size_ : Z;
  buffer_ : list Z;
  blocks_ : list Block;
}.
Arguments file_ {F}.
Arguments block_size_ {F}.
Arguments flush_size_ {F}.
Arguments buffer_ {F}.
Arguments blocks_ {F}.

Section builder.
Context {F : Type} `{!File F, !BoostEndian}.
Implicit Types b : SSTableBuilder F.

(** SSTableBuilder::SSTableBuilder *)
Definition make (f : F) (o : Options) : SSTableBuilder F :=
  {| file_ := f; block_size_ := block_size o; flush_size_ := flush_size o;
     buffer_ := []; blocks_ := [] |}.

Definition set_file (f : F) b : SSTableBuilder F :=
  {| file_ := f; block_size_ := block_size_ b; flush_size_ := flush_size_ b;
     buffer_ := buffer_ b; blocks_ := blocks_ b |}.

Definition set_buffer (buffer : list Z) b : SSTableBuilder F :=
  {| file_ := file_ b; block_size_ := block_size_ b; flush_size_ := flush_size_ b;
     buffer_ := buffer; blocks_ := blocks_ b |}.

Definition set_blocks (blocks : list Block) b : SSTableBuilder F :=
  {| file_ := file_ b; block_size_ := block_size_ b; flush_size_ := flush_size_ b;
     buffer_ := buffer_ b; blocks_ := blocks |}.

(** SSTableBuilder::flush: the number of bytes written is not looked at. *)
Definition flush : ST (SSTableBuilder F) unit := λ b,
  match File.write (buffer_ b) (file_ b) with
  | (Ok _, f) => (Ok tt, set_buffer [] (set_file f b))
  | (Err e, f) => (Err e, set_file f b)
  | (Crash, f) => (Crash, set_file f b)
  | (Hang, f) => (Hang, set_file f b)
  end.

(** The flush that add and the loops of finish end with. *)
Definition flush_if_full : ST (SSTableBuilder F) unit := λ b,
  if flush_size_ b <=? zlen (buffer_ b) then flush b else (Ok tt, b).

(** The stores of an entry in add *)
Definition put_entry (key value buffer : list Z) : result (list Z) :=
  let sz := zlen buffer in
  let entry_size := s32 (8 + zlen key + zlen value) in
  buffer ← vector_resize (u64 (sz + entry_size)) buffer;
  buffer ← span_write sz (store_little_s32 (s32 (zlen key))) buffer;
  buffer ← span_write (sz + 4) (store_little_s32 (s32 (zlen value))) buffer;
  buffer ← span_write (sz + 8) key buffer;
  span_write (sz + 8 + zlen key) value buffer.

(** The block bookkeeping of add; int32_t and int64_t sums must not overflow. *)
Definition put_block (block_size_ : Z) (key : list Z) (entry_size : Z) (blocks : list Block) :
    result (list Block) :=
  match list.last blocks with
  | None => Ok [{| offset := 0; size := entry_size; last := key |}]
  | Some back =>
      sum ← check_s 32 (size back + entry_size);
      if block_size_ <? sum then
        block_offset ← check_s 64 (offset back + size back);
        Ok (blocks ++ [{| offset := block_offset; size := entry_size; last := key |}])
      else
        Ok (take (length blocks - 1) blocks ++
            [{| offset := offset back; size := sum; last := key |}])
  end.

(** SSTableBuilder::add *)
Definition add (key value : list Z) : ST (SSTableBuilder F) unit := λ b,
  match put_entry key value (buffer_ b) with
  | Ok buffer =>
      let b := set_buffer buffer b in
      match put_block (block_size_ b) key (s32 (8 + zlen key + zlen value)) (blocks_ b) with
      | Ok blocks => flush_if_full (set_blocks blocks b)
      | _ => (Crash, b)
      end
  | _ => (Crash, b)
  end.

(** The stores of an index record in finish *)
Definition put_index (blk : Block) (buffer : list Z) : result (list Z) :=
  let sz := zlen buffer in
  buffer ← vector_resize (sz + 16) buffer;
  buffer ← span_write sz (store_little_s64 (offset blk)) buffer;
  buffer ← span_write (sz + 8) (store_little_s32 (size blk)) buffer;
  span_write (sz + 12) (store_little_s32 (s32 (zlen (last blk)))) buffer.

(** The stores of a key in finish *)
Definition put_key (blk : Block) (buffer : list Z) : result (list Z) :=
  let sz := zlen buffer in
  buffer ← vector_resize (sz + zlen (last blk)) buffer;
  span_write sz (last blk) buffer.

(** The stores of the trailer in finish *)
Definition put_trailer (num_blocks keys_size : Z) (buffer : list Z) : result (list Z) :=
  let sz := zlen buffer in
  buffer ← vector_resize (sz + 8) buffer;
  buffer ← span_write sz (store_little_s32 (s32 num_blocks)) buffer;
  span_write (sz + 4) (store_little_s32 keys_size) buffer.

Definition on_buffer (f : list Z → result (list Z)) : ST (SSTableBuilder F) unit := λ b,
  match f (buffer_ b) with
  | Ok buffer => (Ok tt, set_buffer buffer b)
  | _ => (Crash, b)
  end.

(** The first loop of finish *)
Fixpoint finish_index (blocks : list Block) : ST (SSTableBuilder F) unit :=
  match blocks with
  | [] => st_ret tt
  | blk :: blocks =>
      let* _ := on_buffer (put_index blk) in
      let* _ := flush_if_full in
      finish_index blocks
  end.

(** The second loop of finish; keys_size is an int32_t that size_t is added to. *)
Fixpoint finish_keys (blocks : list Block) (keys_size : Z) : ST (SSTableBuilder F) Z :=
  match blocks with
  | [] => st_ret keys_size
  | blk :: blocks =>
      let* _ := on_buffer (put_key blk) in
      let* _ := flush_if_full in
      finish_keys blocks (s32 (keys_size + zlen (last blk)))
  end.

(** SSTableBuilder::finish *)
Definition finish : ST (SSTableBuilder F) unit :=
  let* b := st_get in
  let* _ := finish_index (blocks_ b) in
  let* keys_size := finish_keys (blocks_ b) 0 in
  let* _ := on_buffer (put_trailer (zlen (blocks_ b)) keys_size) in
  flush.

(** A caller that adds entries in order and finishes. *)
Fixpoint build (kvs : list (list Z * list Z)) : ST (SSTableBuilder F) unit :=
  match kvs with
  | [] => finish
  | (key, value) :: kvs => let* _ := add key value in build kvs
  end.
End builder.

(** ** The format of a table *)

Section format.
Context `{!BoostEndian}.

Definition entry (kv : list Z * list Z) : list Z :=
  store_little_s32 (zlen kv.1) ++ store_little_s32 (zlen kv.2) ++ kv.1 ++ kv.2.

Definition entries (g : list (list Z * list Z)) : list Z := concat (entry <$> g).

Definition last_key (g : list (list Z * list Z)) : list Z :=
  match list.last g with Some kv => kv.1 | None => [] end.

(** The block descriptors of groups of entries stored one after the other. *)
Fixpoint describe (off : Z) (gs : list (list (list Z * list Z))) : list Block :=
  match gs with
  | [] => []
  | g :: gs =>
      {| offset := off; size := zlen (entries g); last := last_key g |}
      :: describe (off + zlen (entries g)) gs
  end.

Definition index_record (blk : Block) : list Z :=
  store_little_s64 (offset blk) ++ store_little_s32 (size blk) ++
  store_little_s32 (zlen (last blk)).

Definition data_bytes (gs : list (list (list Z * list Z))) : list Z :=
  concat (entries <$> gs).
Definition index_bytes (blocks : list Block) : list Z := concat (index_record <$> blocks).
Definition key_bytes (blocks : list Block) : list Z := concat (last <$> blocks).
Definition trailer (blocks : list Block) : list Z :=
  store_little_s32 (zlen blocks) ++ store_little_s32 (zlen (key_bytes blocks)).

Definition table_bytes (gs : list (list (list Z * list Z))) : list Z :=
  let blocks := describe 0 gs in
  data_bytes gs ++ index_bytes blocks ++ key_bytes blocks ++ trailer blocks.

Lemma entry_length kv : zlen (entry kv) = 8 + zlen kv.1 + zlen kv.2.
Proof.
  unfold entry, zlen. rewrite !length_app, !store_little_s32_length. lia.
Qed.

Lemma entries_single kv : entries [kv] = entry kv.
Proof. unfold entries. simpl. apply app_nil_r. Qed.

Lemma entries_snoc g kv : entries (g ++ [kv]) = entries g ++ entry kv.
Proof. unfold entries. rewrite fmap_app, concat_app. simpl. by rewrite app_nil_r. Qed.

Lemma data_bytes_snoc gs g : data_bytes (gs ++ [g]) = data_bytes gs ++ entries g.
Proof. unfold data_bytes. rewrite fmap_app, concat_app. simpl. by rewrite app_nil_r. Qed.

Lemma entries_concat gs : entries (concat gs) = data_bytes gs.
Proof.
  unfold data_bytes, entries. induction gs as [|g gs IH]; [done|].
  cbn [concat fmap list_fmap]. by rewrite fmap_app, concat_app, IH.
Qed.

Lemma describe_snoc off gs g :
  describe off (gs ++ [g]) =
  describe off gs ++
  [{| offset := off + zlen (data_bytes gs); size := zlen (entries g); last := last_key g |}].
Proof.
  revert off. induction gs as [|g' gs IH]; intros off; simpl.
  - by rewrite Z.add_0_r.
  - rewrite IH. unfold data_bytes. rewrite fmap_cons, concat_cons, zlen_app. by rewrite Z.add_assoc.
Qed.

Lemma describe_length off gs : length (describe off gs) = length gs.
Proof. revert off. induction gs; intros; simpl; f_equal; auto. Qed.
End format.

(** ** Appending to a vector by resize and stores *)

Lemma span_write_fill off (a bs : list Z) (n : nat) :
  off = zlen a → (length bs ≤ n)%nat →
  span_write off bs (a ++ replicate n 0) = Ok ((a ++ bs) ++ replicate (n - length bs) 0).
Proof.
  intros -> Hn. rewrite span_write_ok.
  2: { apply zlen_nonneg. }
  2: { rewrite zlen_app. unfold zlen. rewrite length_replicate. lia. }
  replace n with (length bs + (n - length bs))%nat at 1 by lia.
  rewrite replicate_add, splice_mid; [by rewrite (assoc_L (++))|done|].
  by rewrite length_replicate.
Qed.

Lemma vector_resize_grow (n : nat) buf :
  zlen buf + Z.of_nat n < 2 ^ 63 →
  vector_resize (zlen buf + Z.of_nat n) buf = Ok (buf ++ replicate n 0).
Proof.
  intros. pose proof (zlen_nonneg buf). unfold vector_resize.
  rewrite (proj2 (Z.leb_le _ _)), (proj2 (Z.ltb_lt _ _)) by lia. simpl. f_equal.
  unfold zlen. rewrite Z2Nat.inj_add, !Nat2Z.id by lia. by apply resize_add_eq.
Qed.

Section puts.
Context `{!BoostEndian}.

Lemma zlen_s32 z : zlen (store_little_s32 z) = 4.
Proof. unfold zlen. by rewrite store_little_s32_length. Qed.

Lemma zlen_s64 z : zlen (store_little_s64 z) = 8.
Proof. unfold zlen. by rewrite store_little_s64_length. Qed.
End puts.

(** Solves the side conditions of a sequence of stores. *)
Ltac sizes :=
  rewrite ?zlen_app, ?zlen_s32, ?zlen_s64, ?store_little_s32_length, ?store_little_s64_length;
  unfold zlen; lia.

Section puts_ok.
Context `{!BoostEndian}.

Lemma put_entry_ok k v buf :
  8 + zlen k + zlen v < 2 ^ 31 → zlen buf + (8 + zlen k + zlen v) < 2 ^ 63 →
  put_entry k v buf = Ok (buf ++ entry (k, v)).
Proof.
  intros He Hb. pose proof (zlen_nonneg k). pose proof (zlen_nonneg v).
  pose proof (zlen_nonneg buf). unfold put_entry.
  rewrite !(swrap_id 32) by (try done; unfold in_s; simpl; lia).
  rewrite uwrap_id by (unfold in_u; lia).
  replace (8 + zlen k + zlen v) with (Z.of_nat (8 + length k + length v)) in * by (unfold zlen; lia).
  rewrite vector_resize_grow by done. cbn [mbind result_bind].
  repeat (rewrite span_write_fill; [cbn [mbind result_bind]|sizes|sizes]).
  rewrite !store_little_s32_length.
  replace (8 + length k + length v - 4 - 4 - length k - length v)%nat with 0%nat by lia.
  simpl. unfold entry. simpl. by rewrite app_nil_r, <- !(assoc_L (++)).
Qed.

Lemma put_index_ok blk buf :
  zlen buf + 16 < 2 ^ 63 → zlen (last blk) < 2 ^ 31 →
  put_index blk buf = Ok (buf ++ index_record blk).
Proof.
  intros Hb Hl. pose proof (zlen_nonneg (last blk)). unfold put_index.
  rewrite (swrap_id 32) by (try done; unfold in_s; simpl; lia).
  change 16 with (Z.of_nat 16) in *. rewrite vector_resize_grow by done. cbn [mbind result_bind].
  repeat (rewrite span_write_fill; [cbn [mbind result_bind]|sizes|sizes]).
  rewrite !store_little_s32_length, !store_little_s64_length. simpl.
  unfold index_record. by rewrite app_nil_r, <- !(assoc_L (++)).
Qed.

Lemma put_key_ok blk buf :
  zlen buf + zlen (last blk) < 2 ^ 63 → put_key blk buf = Ok (buf ++ last blk).
Proof.
  intros Hb. unfold put_key.
  change (zlen (last blk)) with (Z.of_nat (length (last blk))) in *.
  rewrite vector_resize_grow by done.
  cbn [mbind result_bind]. rewrite span_write_fill by (done || lia).
  by rewrite Nat.sub_diag, app_nil_r.
Qed.

Lemma put_trailer_ok blocks buf :
  zlen buf + 8 < 2 ^ 63 → zlen blocks < 2 ^ 31 →
  put_trailer (zlen blocks) (zlen (key_bytes blocks)) buf = Ok (buf ++ trailer blocks).
Proof.
  intros Hb Hl. pose proof (zlen_nonneg blocks). unfold put_trailer.
  rewrite (swrap_id 32) by (try done; unfold in_s; simpl; lia).
  change 8 with (Z.of_nat 8) in *. rewrite vector_resize_grow by done. cbn [mbind result_bind].
  repeat (rewrite span_write_fill; [cbn [mbind result_bind]|sizes|sizes]).
  rewrite !store_little_s32_length. simpl.
  unfold trailer. by rewrite app_nil_r, <- !(assoc_L (++)).
Qed.
End puts_ok.

(** ** What the builder maintains *)

(** max_block_size, the largest block that a reader accepts *)
Definition max_block_size : Z := 16777216.

Section invariant.
Context {F : Type} `{!File F, !RandomAccess F, !BoostEndian}.
Context (R : Z).
Hypothesis HR : R < 2 ^ 63.
Implicit Types b : SSTableBuilder F.

(** The file and the buffer together hold [data], and the file takes [R] bytes
    in all. *)
Definition holds b (data : list Z) : Prop :=
  valid_random (file_ b) ∧ append_room (file_ b) = R - zlen (content (file_ b)) ∧
  content (file_ b) ++ buffer_ b = data.

(** Two builders that differ in the file and the buffer only. *)
Definition same_blocks b b' : Prop :=
  blocks_ b' = blocks_ b ∧ block_size_ b' = block_size_ b ∧ flush_size_ b' = flush_size_ b.

Lemma flush_ok b data :
  holds b data → zlen data ≤ R →
  ∃ b', flush b = (Ok tt, b') ∧ holds b' data ∧ same_blocks b b' ∧ buffer_ b' = [].
Proof.
  intros (Hv & Hroom & <-) Hlen. rewrite zlen_app in Hlen. unfold flush.
  destruct (write_appends (buffer_ b) (file_ b) Hv) as (f' & Hw & Hv' & Hc' & Hr'); [lia|].
  rewrite Hw. eexists. split; [done|]. unfold holds, same_blocks. simpl.
  rewrite Hc', app_nil_r, Hr', zlen_app. split_and!; done || lia.
Qed.

Lemma flush_if_full_ok b data :
  holds b data → zlen data ≤ R →
  ∃ b', flush_if_full b = (Ok tt, b') ∧ holds b' data ∧ same_blocks b b'.
Proof.
  intros Hh Hlen. unfold flush_if_full. destruct (_ <=? _).
  - destruct (flush_ok b data Hh Hlen) as (b' & ? & ? & ? & _). eauto.
  - exists b. by unfold same_blocks.
Qed.

Lemma holds_buffer_bound b data : holds b data → zlen (buffer_ b) ≤ zlen data.
Proof. intros (_ & _ & <-). rewrite zlen_app. pose proof (zlen_nonneg (content (file_ b))). lia. Qed.

(** A store of [bs] at the end of the buffer, followed by the conditional flush. *)
Lemma append_ok b data (put : list Z → result (list Z)) bs :
  holds b data → zlen data + zlen bs ≤ R →
  (∀ buf, zlen buf + zlen bs < 2 ^ 63 → put buf = Ok (buf ++ bs)) →
  ∃ b', on_buffer put b = (Ok tt, b') ∧ holds b' (data ++ bs) ∧ same_blocks b b'.
Proof using HR.
  intros Hh Hlen Hput. pose proof (holds_buffer_bound _ _ Hh). unfold on_buffer.
  rewrite Hput by lia. eexists. split; [done|].
  destruct Hh as (Hv & Hr & <-). unfold holds, same_blocks. simpl.
  by rewrite (assoc_L (++)).
Qed.

(** A group is a block a reader accepts. *)
Definition group_ok (g : list (list Z * list Z)) : Prop :=
  g ≠ [] ∧ zlen (entries g) ≤ max_block_size.

(** The invariant of a builder that has been given [concat gs]. *)
Definition builder_inv b (gs : list (list (list Z * list Z))) : Prop :=
  holds b (data_bytes gs) ∧ blocks_ b = describe 0 gs ∧ Forall group_ok gs.

Lemma make_inv f o :
  valid_random f → content f = [] → append_room f = R → builder_inv (make f o) [].
Proof.
  intros Hv Hc Hr. split; [|done]. unfold holds. simpl. rewrite Hc, Hr, zlen_nil.
  split_and!; done || lia.
Qed.

(** Where put_block puts the next entry. *)
Lemma put_block_ok bsize gs k v :
  Forall group_ok gs → bsize ≤ max_block_size →
  zlen (entry (k, v)) ≤ max_block_size → zlen (data_bytes gs) < 2 ^ 63 →
  ∃ gs', put_block bsize k (zlen (entry (k, v))) (describe 0 gs) = Ok (describe 0 gs') ∧
    Forall group_ok gs' ∧ concat gs' = concat gs ++ [(k, v)] ∧
    data_bytes gs' = data_bytes gs ++ entry (k, v).
Proof.
  intros Hgs Hbs He Hdata. unfold put_block. pose proof (zlen_nonneg (entry (k, v))) as Hen.
  assert (group_ok [(k, v)]) as Hnew.
  { split; [done|]. by rewrite entries_single. }
  assert (∀ gs, concat (gs ++ [[(k, v)]]) = concat gs ++ [(k, v)]) as Hcat
    by (intros; by rewrite concat_app).
  destruct gs as [|g gs _] using rev_ind.
  { exists ([] ++ [[(k, v)]]). rewrite describe_snoc, data_bytes_snoc, entries_single.
    split; [done|]. split; [by constructor|done]. }
  apply Forall_app in Hgs as [Hgs [[Hne Hg] _]%Forall_cons]. unfold max_block_size in *.
  rewrite data_bytes_snoc, zlen_app in Hdata. pose proof (zlen_nonneg (entries g)).
  pose proof (zlen_nonneg (data_bytes gs)).
  rewrite describe_snoc, last_snoc. cbn [offset size].
  rewrite (check_s_ok 32) by (unfold in_s; simpl; lia). cbn [mbind result_bind].
  split_if; rename Heqb into Hfull; [apply Z.ltb_lt in Hfull|apply Z.ltb_ge in Hfull].
  - rewrite (check_s_ok 64) by (unfold in_s; simpl; lia). cbn [mbind result_bind].
    exists ((gs ++ [g]) ++ [[(k, v)]]).
    rewrite Hcat, (data_bytes_snoc (gs ++ [g])), entries_single. split_and!; [| |done|done].
    + by rewrite (describe_snoc _ (gs ++ [g])), describe_snoc, data_bytes_snoc, zlen_app,
        entries_single.
    + apply Forall_app. split; [|by constructor]. apply Forall_app. split; [done|]. by constructor.
  - exists (gs ++ [g ++ [(k, v)]]).
    rewrite describe_snoc, !data_bytes_snoc, entries_snoc, !concat_app, zlen_app. simpl.
    rewrite !app_nil_r, <- !(assoc_L (++)). split_and!; [|  |done|done].
    + rewrite length_app, Nat.add_sub, take_app_length. unfold last_key. by rewrite last_snoc.
    + apply Forall_app. split; [done|]. constructor; [|done]. split; [by destruct g|].
      rewrite entries_snoc, zlen_app. unfold max_block_size. lia.
Qed.

Lemma add_ok b gs k v :
  builder_inv b gs → block_size_ b ≤ max_block_size →
  zlen (entry (k, v)) ≤ max_block_size → zlen (data_bytes gs) + zlen (entry (k, v)) ≤ R →
  ∃ b' gs', add k v b = (Ok tt, b') ∧ builder_inv b' gs' ∧
    concat gs' = concat gs ++ [(k, v)] ∧ block_size_ b' = block_size_ b ∧
    data_bytes gs' = data_bytes gs ++ entry (k, v).
Proof using HR.
  intros (Hh & Hb & Hg) Hbs He HRoom. pose proof (zlen_nonneg (entry (k, v))).
  destruct (put_block_ok (block_size_ b) gs k v) as (gs' & Hblk & Hg' & Hcat & Hdata);
    [done..|lia|].
  pose proof (entry_length (k, v)) as Hlen. simpl in Hlen. unfold max_block_size in He.
  destruct (append_ok b (data_bytes gs) (put_entry k v) (entry (k, v)) Hh)
    as (b1 & Hb1 & Hh1 & Hs1); [lia|intros; apply put_entry_ok; lia|].
  unfold on_buffer in Hb1. destruct (put_entry k v (buffer_ b)) as [buf| | |] eqn:Hput; try done.
  injection Hb1 as <-. unfold add. rewrite Hput. cbn zeta.
  rewrite swrap_id by (try done; unfold in_s; simpl; lia). rewrite <- Hlen. simpl. rewrite Hb, Hblk.
  destruct (flush_if_full_ok (set_blocks (describe 0 gs') (set_buffer buf b)) (data_bytes gs'))
    as (b2 & -> & Hh2 & (Hs2 & Hs3 & _)); [by rewrite Hdata|rewrite Hdata, zlen_app; lia|].
  exists b2, gs'. by split_and!.
Qed.

(** A store followed by the conditional flush, as the loops of finish do. *)
Lemma append_flush_ok {A} b data put bs (k : ST (SSTableBuilder F) A) :
  holds b data → zlen data + zlen bs ≤ R →
  (∀ buf, zlen buf + zlen bs < 2 ^ 63 → put buf = Ok (buf ++ bs)) →
  ∃ b', (let* _ := on_buffer put in let* _ := flush_if_full in k) b = k b' ∧
    holds b' (data ++ bs) ∧ same_blocks b b'.
Proof using HR.
  intros Hh Hlen Hput. destruct (append_ok b data put bs) as (b1 & Hb1 & Hh1 & Hs1); [done..|].
  destruct (flush_if_full_ok b1 (data ++ bs)) as (b2 & Hb2 & Hh2 & Hs2);
    [done|rewrite zlen_app; lia|].
  exists b2. unfold st_bind. rewrite Hb1, Hb2. unfold same_blocks in *.
  split_and!; try done; intuition congruence.
Qed.

Lemma same_blocks_trans b1 b2 b3 : same_blocks b1 b2 → same_blocks b2 b3 → same_blocks b1 b3.
Proof. unfold same_blocks. intuition congruence. Qed.

Definition small_keys (blocks : list Block) : Prop :=
  Forall (λ blk, zlen (last blk) < 2 ^ 31) blocks.

Lemma index_bytes_cons blk blocks :
  index_bytes (blk :: blocks) = index_record blk ++ index_bytes blocks.
Proof. done. Qed.

Lemma key_bytes_cons blk blocks : key_bytes (blk :: blocks) = last blk ++ key_bytes blocks.
Proof. done. Qed.

Lemma index_record_length blk : zlen (index_record blk) = 16.
Proof. unfold index_record. sizes. Qed.

Lemma finish_index_ok blocks b data :
  holds b data → small_keys blocks → zlen data + zlen (index_bytes blocks) ≤ R →
  ∃ b', finish_index blocks b = (Ok tt, b') ∧ holds b' (data ++ index_bytes blocks) ∧
    same_blocks b b'.
Proof using HR.
  intros Hh Hs. revert b data Hh. induction Hs as [|blk blocks Hk _ IH]; intros b data Hh Hlen.
  - exists b. unfold index_bytes. simpl. by rewrite app_nil_r.
  - rewrite index_bytes_cons, zlen_app in Hlen.
    pose proof (zlen_nonneg (index_bytes blocks)).
    destruct (append_flush_ok b data (put_index blk) (index_record blk) (finish_index blocks))
      as (b1 & Hb1 & Hh1 & Hs1); [done|lia| |].
    { intros buf. rewrite index_record_length. intros. by apply put_index_ok. }
    destruct (IH b1 (data ++ index_record blk) Hh1) as (b2 & Hb2 & Hh2 & Hs2);
      [rewrite zlen_app; lia|].
    exists b2. cbn [finish_index]. rewrite Hb1, index_bytes_cons, (assoc_L (++)).
    eauto using same_blocks_trans.
Qed.

Lemma finish_keys_ok blocks b data n :
  holds b data → 0 ≤ n → n + zlen (key_bytes blocks) < 2 ^ 31 →
  zlen data + zlen (key_bytes blocks) ≤ R →
  ∃ b', finish_keys blocks n b = (Ok (n + zlen (key_bytes blocks)), b') ∧
    holds b' (data ++ key_bytes blocks) ∧ same_blocks b b'.
Proof using HR.
  revert b data n. induction blocks as [|blk blocks IH]; intros b data n Hh Hn Hk Hlen.
  - exists b. unfold key_bytes. simpl. by rewrite app_nil_r, zlen_nil, Z.add_0_r.
  - rewrite key_bytes_cons, zlen_app in *.
    pose proof (zlen_nonneg (key_bytes blocks)). pose proof (zlen_nonneg (last blk)).
    destruct (append_flush_ok b data (put_key blk) (last blk)
      (finish_keys blocks (s32 (n + zlen (last blk))))) as (b1 & Hb1 & Hh1 & Hs1);
      [done|lia|by intros; apply put_key_ok|].
    rewrite swrap_id in Hb1 by (done || unfold in_s; simpl; lia).
    destruct (IH b1 (data ++ last blk) (n + zlen (last blk)) Hh1) as (b2 & Hb2 & Hh2 & Hs2);
      [lia|lia|rewrite zlen_app; lia|].
    exists b2. cbn [finish_keys].
    rewrite swrap_id, Hb1, Hb2, (assoc_L (++)) by (done || unfold in_s; simpl; lia).
    split; [do 2 f_equal; lia|]. eauto using same_blocks_trans.
Qed.

(** The reader computes the size of what follows the data as an int32_t. *)
Definition footer_fits (gs : list (list (list Z * list Z))) : Prop :=
  zlen gs * 16 + zlen (key_bytes (describe 0 gs)) + 8 < 2 ^ 31.

Lemma footer_keys_small blocks n : zlen (key_bytes blocks) < n → Forall (λ blk, zlen (last blk) < n) blocks.
Proof.
  induction blocks as [|blk blocks IH]; [constructor|]. rewrite key_bytes_cons, zlen_app. intros.
  pose proof (zlen_nonneg (last blk)). pose proof (zlen_nonneg (key_bytes blocks)).
  constructor; [lia|apply IH; lia].
Qed.

Lemma trailer_length blocks : zlen (trailer blocks) = 8.
Proof. unfold trailer. sizes. Qed.

Lemma table_bytes_length gs :
  zlen (table_bytes gs) =
  zlen (data_bytes gs) + zlen (index_bytes (describe 0 gs)) + zlen (key_bytes (describe 0 gs)) + 8.
Proof. unfold table_bytes. rewrite !zlen_app, trailer_length. lia. Qed.

Lemma finish_ok b gs :
  builder_inv b gs → footer_fits gs → zlen (table_bytes gs) ≤ R →
  ∃ b', finish b = (Ok tt, b') ∧ valid_random (file_ b') ∧ content (file_ b') = table_bytes gs.
Proof using HR.
  intros (Hh & Hb & _) Hfit Hlen. rewrite table_bytes_length in Hlen. unfold footer_fits in Hfit.
  assert (zlen (describe 0 gs) = zlen gs) as Hd by (unfold zlen; by rewrite describe_length).
  pose proof (zlen_nonneg gs). pose proof (zlen_nonneg (key_bytes (describe 0 gs))).
  set (blocks := describe 0 gs) in *. unfold finish, st_bind at 1, st_get. rewrite Hb.
  destruct (finish_index_ok blocks b (data_bytes gs)) as (b1 & Hb1 & Hh1 & _);
    [done|apply footer_keys_small; lia|lia|].
  destruct (finish_keys_ok blocks b1 (data_bytes gs ++ index_bytes blocks) 0)
    as (b2 & Hb2 & Hh2 & _); [done|done|lia|rewrite zlen_app; lia|].
  rewrite Z.add_0_l in Hb2.
  destruct (append_ok b2 _ (put_trailer (zlen blocks) (zlen (key_bytes blocks))) (trailer blocks) Hh2)
    as (b3 & Hb3 & Hh3 & _); [rewrite trailer_length, !zlen_app; lia| |].
  { intros buf. rewrite trailer_length. intros. apply put_trailer_ok; lia. }
  destruct (flush_ok b3 _ Hh3) as (b4 & Hb4 & (Hv & _ & Hc) & _ & Hnil);
    [rewrite !zlen_app, trailer_length; lia|].
  exists b4. unfold st_bind. rewrite Hb1, Hb2, Hb3, Hb4. rewrite Hnil, app_nil_r in Hc.
  split; [done|]. split; [done|]. rewrite Hc. unfold table_bytes. by rewrite <- !(assoc_L (++)).
Qed.

(** What the index, the keys and the trailer take when every entry is a block of
    its own, which bounds what they take. *)
Definition footer_size (kvs : list (list Z * list Z)) : Z :=
  foldr (λ kv n, 16 + zlen kv.1 + n) 8 kvs.

Lemma footer_size_bound kvs : 8 ≤ footer_size kvs.
Proof. induction kvs as [|kv kvs IH]; simpl; [done|]. pose proof (zlen_nonneg kv.1). lia. Qed.

Lemma footer_size_app kvs1 kvs2 :
  footer_size (kvs1 ++ kvs2) = footer_size kvs1 - 8 + footer_size kvs2.
Proof. induction kvs1 as [|kv kvs IH]; simpl; [lia|]. rewrite IH. lia. Qed.

Lemma index_bytes_length blocks : zlen (index_bytes blocks) = 16 * zlen blocks.
Proof.
  induction blocks as [|blk blocks IH]; [done|].
  rewrite index_bytes_cons, zlen_app, zlen_cons, index_record_length, IH. lia.
Qed.

Lemma describe_zlen off gs : zlen (describe off gs) = zlen gs.
Proof. unfold zlen. by rewrite describe_length. Qed.

Lemma footer_size_groups off gs :
  Forall group_ok gs →
  zlen gs * 16 + zlen (key_bytes (describe off gs)) + 8 ≤ footer_size (concat gs).
Proof.
  intros Hgs. revert off. induction Hgs as [|g gs [Hne _] _ IH]; intros off; [done|].
  cbn [describe concat]. rewrite key_bytes_cons, zlen_cons, zlen_app, footer_size_app.
  specialize (IH (off + zlen (entries g))). cbn [last].
  destruct g as [|kv g _] using rev_ind; [done|]. unfold last_key. rewrite last_snoc.
  rewrite footer_size_app. pose proof (footer_size_bound g). simpl. lia.
Qed.

(** A caller that adds all of [kvs] leaves a file with some grouping of them. *)
Lemma build_ok kvs b gs :
  builder_inv b gs → block_size_ b ≤ max_block_size →
  Forall (λ kv, zlen (entry kv) ≤ max_block_size) kvs →
  footer_size (concat gs ++ kvs) < 2 ^ 31 →
  zlen (entries (concat gs ++ kvs)) + footer_size (concat gs ++ kvs) ≤ R →
  ∃ b' gs', build kvs b = (Ok tt, b') ∧ concat gs' = concat gs ++ kvs ∧
    Forall group_ok gs' ∧ valid_random (file_ b') ∧ content (file_ b') = table_bytes gs' ∧
    footer_fits gs'.
Proof using HR.
  intros Hinv Hbs Hkvs. revert b gs Hinv Hbs.
  induction Hkvs as [|[k v] kvs He _ IH]; intros b gs Hinv Hbs Hfoot HRoom.
  - rewrite app_nil_r in *. pose proof Hinv as (_ & _ & Hg).
    pose proof (footer_size_groups 0 gs Hg) as Hfit. rewrite entries_concat in HRoom.
    destruct (finish_ok b gs Hinv) as (b' & ? & ? & ?); [unfold footer_fits; lia| |].
    { rewrite table_bytes_length, index_bytes_length, describe_zlen. lia. }
    exists b', gs. by split_and!; [..|unfold footer_fits; lia].
  - pose proof (footer_size_bound (concat gs ++ (k, v) :: kvs)).
    destruct (add_ok b gs k v) as (b1 & gs1 & Hadd & Hinv1 & Hcat & Hbs1 & Hdata); [done..| |].
    { rewrite <- entries_concat. unfold entries in *. rewrite fmap_app, concat_app, zlen_app in HRoom.
      rewrite fmap_cons, concat_cons, zlen_app in HRoom.
      pose proof (zlen_nonneg (concat (entry <$> kvs))). lia. }
    assert (concat gs1 ++ kvs = concat gs ++ (k, v) :: kvs) as Hcat1
      by (by rewrite Hcat, <- (assoc_L (++))).
    destruct (IH b1 gs1) as (b' & gs' & ? & ? & ?); [done|by rewrite Hbs1|by rewrite Hcat1..|].
    exists b', gs'. cbn [build]. unfold st_bind. rewrite Hadd, <- Hcat1. done.
Qed.
End invariant.
