(* ===== verification/SSTable.v ===== *)
(** * db/sstable: the reader

    SSTable::init loads the block index and the last keys; Iterator walks the
    entries of the blocks that it reads one at a time; lookup is a seek.  The
    members of keys_ are views of keys_buffer_, kept here as an offset and a
    length, so a view that leaves the buffer shows when it is read.  A read
    that gives fewer bytes than asked for leaves the rest of the buffer as it
    was, as the source does not look at the count. *)

From S2P Require Import Prelude File Endian Algorithm MemoryFile SSTableBuilder.

Record Block : Type := { offset : Z; size : Z }.

Record SSTable (F : Type) : Type := {
  file_ : F;
  blocks_ : list Block;
  keys_ : list (Z * Z);
  keys_buffer_ : list Z;
}.
Arguments file_ {F}.
Arguments blocks_ {F}.
Arguments keys_ {F}.
Arguments keys_buffer_ {F}.

(** [iter_] is the index of the block, [None] for a singular iterator. *)
Record Iterator (F : Type) : Type := {
  sstable_ : SSTable F;
  iter_ : option nat;
  buffer_ : list Z;
  offset_ : Z;
}.
Arguments sstable_ {F}.
Arguments iter_ {F}.
Arguments buffer_ {F}.
Arguments offset_ {F}.

Section reader.
Context {F : Type} `{!File F, !BoostEndian}.
Implicit Types (t : SSTable F) (it : Iterator F).

(** SSTable::SSTable *)
Definition make (f : F) : SSTable F :=
  {| file_ := f; blocks_ := []; keys_ := []; keys_buffer_ := [] |}.

Definition set_file (f : F) t : SSTable F :=
  {| file_ := f; blocks_ := blocks_ t; keys_ := keys_ t; keys_buffer_ := keys_buffer_ t |}.

Definition set_index blocks keys t : SSTable F :=
  {| file_ := file_ t; blocks_ := blocks; keys_ := keys; keys_buffer_ := keys_buffer_ t |}.

Definition set_keys_buffer b t : SSTable F :=
  {| file_ := file_ t; blocks_ := blocks_ t; keys_ := keys_ t; keys_buffer_ := b |}.

Definition load_s32 (off : Z) (buffer : list Z) : result Z :=
  bs ← span_read off 4 buffer; Ok (load_little_s32 bs).

Definition load_s64 (off : Z) (buffer : list Z) : result Z :=
  bs ← span_read off 8 buffer; Ok (load_little_s64 bs).

(** pread into a buffer: what was read replaces a prefix of it. *)
Definition pread_into (pos : Z) (buffer : list Z) : ST (SSTable F) (list Z) :=
  let* bs := zoom file_ set_file (File.pread pos (zlen buffer)) in
  st_ret (bs ++ drop (length bs) buffer).

(** The loop of init over the index records *)
Fixpoint init_loop (n : nat) (index keys_offset : Z) (blocks_buffer : list Z) :
    ST (SSTable F) unit :=
  match n with
  | O => st_ret tt
  | S n =>
      let* block_offset := st_lift (load_s64 (index * 16) blocks_buffer) in
      let* block_size := st_lift (load_s32 (index * 16 + 8) blocks_buffer) in
      let* _ := st_modify (λ t,
        set_index (blocks_ t ++ [{| offset := block_offset; size := block_size |}]) (keys_ t) t) in
      if (block_size <=? 0) || (max_block_size <? block_size) then throw bad_message
      else
        let* key_size := st_lift (load_s32 (index * 16 + 12) blocks_buffer) in
        let* _ := st_modify (λ t,
          set_index (blocks_ t) (keys_ t ++ [(keys_offset, u64 key_size)]) t) in
        let keys_offset := u64 (keys_offset + key_size) in
        let* t := st_get in
        if zlen (keys_buffer_ t) <? keys_offset then throw no_buffer_space
        else init_loop n (index + 1) keys_offset blocks_buffer
  end.

(** The trailer: the array is not initialised, so a pread that does not fill it
    leaves indeterminate bytes to load. *)
Definition read_trailer (file_size : Z) : ST (SSTable F) (list Z) := λ t,
  match File.pread (file_size - 8) 8 (file_ t) with
  | (Ok bs, f) => (if zlen bs <? 8 then Crash else Ok bs, set_file f t)
  | (Hang, f) => (Hang, set_file f t)
  | (_, f) => (Crash, set_file f t)
  end.

(** SSTable::init *)
Definition init : ST (SSTable F) unit :=
  let* file_size := zoom file_ set_file File.size in
  if file_size <? 8 then throw no_message
  else
    let* buffer := read_trailer file_size in
    let* num_blocks := st_lift (load_s32 0 buffer) in
    let* keys_size := st_lift (load_s32 4 buffer) in
    let* index_size := st_lift (check_s 32 (num_blocks * 16)) in
    let* sum := st_lift (check_s 32 (index_size + keys_size)) in
    let* footer := st_lift (check_s 32 (sum + 8)) in
    if file_size <? footer then throw no_buffer_space
    else
      let* blocks_buffer := st_lift (vector_resize (u64 index_size) []) in
      let* index_pos := st_lift (check_s 64 (file_size - footer)) in
      let* blocks_buffer := pread_into index_pos blocks_buffer in
      let* t := st_get in
      let* keys_buffer := st_lift (vector_resize (u64 keys_size) (keys_buffer_ t)) in
      let* _ := st_modify (set_keys_buffer keys_buffer) in
      let* keys_footer := st_lift (check_s 32 (keys_size + 8)) in
      let* keys_pos := st_lift (check_s 64 (file_size - keys_footer)) in
      let* keys_buffer := pread_into keys_pos keys_buffer in
      let* _ := st_modify (set_keys_buffer keys_buffer) in
      init_loop (Z.to_nat num_blocks) 0 0 blocks_buffer.

(** SSTable::Iterator::Iterator *)
Definition make_iterator t : Iterator F :=
  {| sstable_ := t; iter_ := None; buffer_ := []; offset_ := 0 |}.

Definition set_sstable t it : Iterator F :=
  {| sstable_ := t; iter_ := iter_ it; buffer_ := buffer_ it; offset_ := offset_ it |}.

Definition set_buffer b it : Iterator F :=
  {| sstable_ := sstable_ it; iter_ := iter_ it; buffer_ := b; offset_ := offset_ it |}.

Definition set_iter i it : Iterator F :=
  {| sstable_ := sstable_ it; iter_ := Some i; buffer_ := buffer_ it; offset_ := offset_ it |}.

Definition set_offset o it : Iterator F :=
  {| sstable_ := sstable_ it; iter_ := iter_ it; buffer_ := buffer_ it; offset_ := o |}.

(** SSTable::Iterator::read *)
Definition read : ST (Iterator F) unit :=
  let* it := st_get in
  match iter_ it ≫= λ i, blocks_ (sstable_ it) !! i with
  | None => crash
  | Some block =>
      let* buffer := st_lift (vector_resize (u64 (size block)) (buffer_ it)) in
      let* _ := st_modify (set_buffer buffer) in
      let* buffer := zoom sstable_ set_sstable (pread_into (offset block) buffer) in
      st_modify (set_buffer buffer)
  end.

(** SSTable::Iterator::key *)
Definition key it : result (list Z) :=
  key_size ← load_s32 (offset_ it) (buffer_ it);
  span_read (u64 (offset_ it + 8)) (u64 key_size) (buffer_ it).

(** SSTable::Iterator::value *)
Definition value it : result (list Z) :=
  key_size ← load_s32 (offset_ it) (buffer_ it);
  value_size ← load_s32 (u64 (offset_ it + 4)) (buffer_ it);
  span_read (u64 (offset_ it + 8 + key_size)) (u64 value_size) (buffer_ it).

(** SSTable::Iterator::next *)
Definition next : ST (Iterator F) unit :=
  let* it := st_get in
  if zlen (buffer_ it) <? u64 (offset_ it + 8) then throw no_buffer_space
  else
    let* key_size := st_lift (load_s32 (offset_ it) (buffer_ it)) in
    let* value_size := st_lift (load_s32 (u64 (offset_ it + 4)) (buffer_ it)) in
    if zlen (buffer_ it) <? u64 (offset_ it + 8 + key_size + value_size) then
      throw no_buffer_space
    else
      let* sum := st_lift (check_s 32 (8 + key_size)) in
      let* step := st_lift (check_s 32 (sum + value_size)) in
      let offset := u64 (offset_ it + step) in
      let* _ := st_modify (set_offset offset) in
      if offset =? zlen (buffer_ it) then
        match iter_ it with
        | None => crash
        | Some i =>
            let* _ := st_modify (set_iter (S i)) in
            if (S i =? length (blocks_ (sstable_ it)))%nat then throw no_message_available
            else
              let* _ := st_modify (set_offset 0) in
              read
        end
      else st_ret tt.

(** SSTable::Iterator::start *)
Definition start : ST (Iterator F) unit :=
  let* it := st_get in
  match blocks_ (sstable_ it) with
  | [] => throw no_message_available
  | _ =>
      let* _ := st_modify (set_iter 0) in
      let* _ := st_modify (set_offset 0) in
      read
  end.

(** The loop of seek *)
Fixpoint seek_loop (fuel : nat) (k : list Z) : ST (Iterator F) unit :=
  match fuel with
  | O => st_lift Hang
  | S fuel =>
      let* it := st_get in
      let* current := st_lift (key it) in
      if bytes_ltb current k then
        let* _ := next in
        seek_loop fuel k
      else st_ret tt
  end.

(** An iteration of seek_loop ends at one of the offsets 0 .. size of a block, so
    more iterations than this visit a place twice. *)
Definition seek_fuel t : nat :=
  S (sum_list_with (λ block, S (Z.to_nat (size block))) (blocks_ t)).

(** operator< of the element [span] of keys_ and a key *)
Definition key_less t (k : list Z) (span : Z * Z) : result bool :=
  stored ← span_read span.1 span.2 (keys_buffer_ t);
  Ok (bytes_ltb stored k).

(** SSTable::Iterator::seek *)
Definition seek (k : list Z) : ST (Iterator F) unit :=
  let* it := st_get in
  let t := sstable_ it in
  let* i := st_lift (lower_bound (key_less t k) (keys_ t)) in
  if (i =? length (keys_ t))%nat then throw no_message_available
  else
    let* _ := st_modify (set_iter i) in
    let* _ := st_modify (set_offset 0) in
    let* _ := read in
    seek_loop (seek_fuel t) k.

(** SSTable::lookup *)
Definition lookup (k : list Z) : ST (SSTable F) (list Z) := λ t,
  let '(r, it) :=
    (let* _ := seek k in
     let* it := st_get in
     let* found := st_lift (key it) in
     if bool_decide (found = k) then st_lift (value it)
     else throw no_message_available) (make_iterator t) in
  (r, sstable_ it).

(** A caller that walks the table from the start to its end. *)
Fixpoint walk (fuel : nat) : ST (Iterator F) (list (list Z * list Z)) :=
  match fuel with
  | O => st_lift Hang
  | S fuel =>
      let* it := st_get in
      let* k := st_lift (key it) in
      let* v := st_lift (value it) in
      λ it, match next it with
            | (Ok _, it) => (let* rest := walk fuel in st_ret ((k, v) :: rest)) it
            | (Err no_message_available, it) => (Ok [(k, v)], it)
            | (Err e, it) => (Err e, it)
            | (Crash, it) => (Crash, it)
            | (Hang, it) => (Hang, it)
            end
  end.

Definition walk_all (fuel : nat) : ST (Iterator F) (list (list Z * list Z)) := λ it,
  match start it with
  | (Ok _, it) => walk fuel it
  | (Err no_message_available, it) => (Ok [], it)
  | (Err e, it) => (Err e, it)
  | (Crash, it) => (Crash, it)
  | (Hang, it) => (Hang, it)
  end.
End reader.

(** ** Loading what the builder stored *)

Section loads.
Context `{!BoostEndian}.

Lemma load_s32_at off a z b :
  off = zlen a → in_s 32 z → load_s32 off (a ++ store_little_s32 z ++ b) = Ok z.
Proof.
  intros -> Hz. unfold load_s32. rewrite span_read_mid by (done || by rewrite zlen_s32).
  simpl. by rewrite load_store_s32.
Qed.

Lemma load_s64_at off a z b :
  off = zlen a → in_s 64 z → load_s64 off (a ++ store_little_s64 z ++ b) = Ok z.
Proof.
  intros -> Hz. unfold load_s64. rewrite span_read_mid by (done || by rewrite zlen_s64).
  simpl. by rewrite load_store_s64.
Qed.

(** What init requires of an index record. *)
Definition block_ok (blk : SSTableBuilder.Block) : Prop :=
  in_s 64 (SSTableBuilder.offset blk) ∧
  0 < SSTableBuilder.size blk ≤ max_block_size ∧
  zlen (last blk) < 2 ^ 31.

Definition view (blk : SSTableBuilder.Block) : Block :=
  {| offset := SSTableBuilder.offset blk; size := SSTableBuilder.size blk |}.

Fixpoint key_spans (off : Z) (blocks : list SSTableBuilder.Block) : list (Z * Z) :=
  match blocks with
  | [] => []
  | blk :: blocks => (off, zlen (last blk)) :: key_spans (off + zlen (last blk)) blocks
  end.

Lemma key_spans_snoc off blocks blk :
  key_spans off (blocks ++ [blk]) =
  key_spans off blocks ++ [(off + zlen (key_bytes blocks), zlen (last blk))].
Proof.
  revert off. induction blocks as [|b blocks IH]; intros off; simpl.
  - by rewrite Z.add_0_r.
  - rewrite IH, key_bytes_cons, zlen_app. do 3 f_equal. f_equal. lia.
Qed.

Lemma key_bytes_app blocks1 blocks2 :
  key_bytes (blocks1 ++ blocks2) = key_bytes blocks1 ++ key_bytes blocks2.
Proof. unfold key_bytes. by rewrite fmap_app, concat_app. Qed.

Lemma index_bytes_app blocks1 blocks2 :
  index_bytes (blocks1 ++ blocks2) = index_bytes blocks1 ++ index_bytes blocks2.
Proof. unfold index_bytes. by rewrite fmap_app, concat_app. Qed.

(** The three loads of an iteration of init. *)
Lemma load_record pre blk post :
  block_ok blk →
  load_s64 (zlen pre * 16) (index_bytes (pre ++ blk :: post)) = Ok (SSTableBuilder.offset blk) ∧
  load_s32 (zlen pre * 16 + 8) (index_bytes (pre ++ blk :: post)) = Ok (SSTableBuilder.size blk) ∧
  load_s32 (zlen pre * 16 + 12) (index_bytes (pre ++ blk :: post)) = Ok (zlen (last blk)).
Proof.
  intros (Ho & Hs & Hk). pose proof (zlen_nonneg (last blk)). unfold max_block_size in Hs.
  rewrite index_bytes_app, index_bytes_cons. pose proof (index_bytes_length pre).
  unfold index_record. rewrite <- !(assoc_L (++)). split_and!.
  - apply load_s64_at; [lia|done].
  - rewrite (assoc_L (++)). apply load_s32_at; [rewrite zlen_app, zlen_s64; lia|].
    unfold in_s; simpl; lia.
  - rewrite (assoc_L (++)), (assoc_L (++) (_ ++ _)).
    apply load_s32_at; [rewrite !zlen_app, zlen_s64, zlen_s32; lia|].
    unfold in_s; simpl; lia.
Qed.
End loads.

Section init_proof.
Context {F : Type} `{!File F, !RandomAccess F, !BoostEndian}.
Implicit Types (t : SSTable F) (it : Iterator F).

Lemma init_loop_ok blocks n pre post t :
  blocks = pre ++ post → n = length post → Forall block_ok post →
  zlen (key_bytes blocks) < 2 ^ 31 →
  blocks_ t = view <$> pre → keys_ t = key_spans 0 pre → keys_buffer_ t = key_bytes blocks →
  init_loop n (zlen pre) (zlen (key_bytes pre)) (index_bytes blocks) t =
  (Ok tt, set_index (view <$> blocks) (key_spans 0 blocks) t).
Proof.
  intros Hb Hn Hpost Hk. revert n pre t Hb Hn.
  induction Hpost as [|blk post Hblk _ IH]; intros n pre t Hb -> Hbt Hkt Hkb; simpl.
  { rewrite app_nil_r in Hb. subst blocks. unfold st_ret. do 2 f_equal.
    destruct t; simpl in *. by subst. }
  destruct (load_record pre blk post Hblk) as (H1 & H2 & H3). rewrite <- Hb in H1, H2, H3.
  destruct Hblk as (_ & Hs & Hl). unfold st_bind, st_lift, st_modify, st_get.
  rewrite H1, H2. cbn [set_index blocks_ keys_].
  rewrite (proj2 (Z.leb_gt _ _)), (proj2 (Z.ltb_ge _ _)) by lia. simpl. rewrite H3.
  pose proof (zlen_nonneg (last blk)). pose proof (zlen_nonneg (key_bytes pre)).
  assert (zlen (key_bytes blocks) =
    zlen (key_bytes pre) + zlen (last blk) + zlen (key_bytes post)) as Hsum.
  { rewrite Hb, key_bytes_app, key_bytes_cons, !zlen_app. lia. }
  pose proof (zlen_nonneg (key_bytes post)).
  rewrite Hkb, !u64_small, (proj2 (Z.ltb_ge _ _)) by lia.
  replace (zlen pre + 1) with (zlen (pre ++ [blk])) by (rewrite zlen_app; done).
  replace (zlen (key_bytes pre) + zlen (last blk)) with (zlen (key_bytes (pre ++ [blk]))).
  2: { rewrite key_bytes_app, zlen_app. unfold key_bytes at 2. simpl. by rewrite app_nil_r. }
  rewrite IH; simpl.
  - done.
  - by rewrite Hb, <- (assoc_L (++)).
  - done.
  - by rewrite fmap_app, Hbt.
  - by rewrite key_spans_snoc, Hkt, Z.add_0_l.
  - done.
Qed.

Lemma set_file_same t : set_file (file_ t) t = t.
Proof. by destruct t. Qed.

Lemma pread_into_ok pos buffer t :
  valid_random (file_ t) → 0 ≤ pos → pos + zlen buffer ≤ zlen (content (file_ t)) →
  pread_into pos buffer t = (Ok (slice pos (zlen buffer) (content (file_ t))), t).
Proof.
  intros Hv Hp Hl. pose proof (zlen_nonneg buffer). unfold pread_into, zoom, st_bind.
  rewrite pread_slice by done. rewrite set_file_same. unfold st_ret. do 2 f_equal.
  assert (length (slice pos (zlen buffer) (content (file_ t))) = length buffer) as ->.
  { apply Nat2Z.inj. by apply zlen_slice. }
  by rewrite drop_all, app_nil_r.
Qed.

Lemma vector_resize_ok n l : 0 ≤ n < 2 ^ 63 → vector_resize n l = Ok (resize (Z.to_nat n) 0 l).
Proof.
  intros. unfold vector_resize. by rewrite (proj2 (Z.leb_le _ _)), (proj2 (Z.ltb_lt _ _)) by lia.
Qed.

(** The state of an SSTable whose init has succeeded on [table_bytes gs]. *)
Definition loaded gs t : Prop :=
  valid_random (file_ t) ∧ content (file_ t) = table_bytes gs ∧
  blocks_ t = view <$> describe 0 gs ∧ keys_ t = key_spans 0 (describe 0 gs) ∧
  keys_buffer_ t = key_bytes (describe 0 gs).

Lemma entries_pos g : g ≠ [] → 0 < zlen (entries g).
Proof.
  destruct g as [|kv g]; [done|]. intros _. unfold entries.
  rewrite fmap_cons, concat_cons, zlen_app, entry_length.
  pose proof (zlen_nonneg kv.1). pose proof (zlen_nonneg kv.2).
  pose proof (zlen_nonneg (concat (entry <$> g))). lia.
Qed.

Lemma describe_ok gs off :
  Forall group_ok gs → 0 ≤ off → off + zlen (data_bytes gs) < 2 ^ 63 →
  Forall (λ blk, in_s 64 (SSTableBuilder.offset blk) ∧
                 0 < SSTableBuilder.size blk ≤ max_block_size) (describe off gs).
Proof.
  intros Hgs. revert off. induction Hgs as [|g gs [Hne Hg] _ IH]; intros off Ho Hd; simpl;
    constructor; unfold data_bytes in *; rewrite fmap_cons, concat_cons, zlen_app in Hd;
    pose proof (zlen_nonneg (concat (entries <$> gs))); pose proof (entries_pos g Hne).
  - simpl. unfold in_s. simpl. lia.
  - apply IH; lia.
Qed.

Lemma blocks_ok gs :
  Forall group_ok gs → footer_fits gs → zlen (data_bytes gs) < 2 ^ 63 →
  Forall block_ok (describe 0 gs).
Proof.
  intros Hgs Hf Hd. unfold footer_fits in Hf. pose proof (zlen_nonneg gs).
  unfold block_ok. eapply Forall_impl; [apply Forall_and; split|].
  - by apply (describe_ok gs 0).
  - apply (footer_keys_small _ (2 ^ 31)). lia.
  - intros blk. simpl. tauto.
Qed.

Lemma read_trailer_ok gs t :
  valid_random (file_ t) → content (file_ t) = table_bytes gs →
  read_trailer (zlen (content (file_ t))) t = (Ok (trailer (describe 0 gs)), t).
Proof.
  intros Hv Hc. set (f := file_ t) in *.
  assert (slice (zlen (content f) - 8) 8 (content f) = trailer (describe 0 gs)) as Htr.
  { rewrite <- (app_nil_r (content f)), Hc. unfold table_bytes.
    rewrite !(assoc_L (++)), <- (assoc_L (++) _ (trailer _)).
    apply slice_mid; [|by rewrite trailer_length].
    rewrite app_nil_r, !zlen_app, trailer_length. lia. }
  assert (8 ≤ zlen (content f)).
  { rewrite Hc. unfold table_bytes. rewrite !zlen_app, trailer_length.
    repeat match goal with |- context [zlen ?l] => generalize (zlen_nonneg l); generalize (zlen l) end.
    lia. }
  unfold read_trailer. fold f. rewrite pread_slice, Htr, trailer_length by (done || lia).
  simpl. unfold f. by rewrite set_file_same.
Qed.

(** Where init finds the index and the keys in the file *)
Lemma index_slice gs :
  let blocks := describe 0 gs in
  slice (zlen (table_bytes gs) - (zlen blocks * 16 + zlen (key_bytes blocks) + 8)) (zlen blocks * 16)
    (table_bytes gs) = index_bytes blocks.
Proof.
  intros blocks. unfold table_bytes. fold blocks.
  apply slice_mid; rewrite ?zlen_app, ?index_bytes_length, ?trailer_length; lia.
Qed.

Lemma keys_slice gs :
  let blocks := describe 0 gs in
  slice (zlen (table_bytes gs) - (zlen (key_bytes blocks) + 8)) (zlen (key_bytes blocks)) (table_bytes gs) =
  key_bytes blocks.
Proof.
  intros blocks. unfold table_bytes. fold blocks. rewrite (assoc_L (++)).
  apply slice_mid; [|done]. rewrite !zlen_app, index_bytes_length, trailer_length. lia.
Qed.

Lemma init_ok gs f :
  valid_random f → content f = table_bytes gs → Forall group_ok gs → footer_fits gs →
  ∃ t, init (make f) = (Ok tt, t) ∧ loaded gs t.
Proof.
  intros Hv Hc Hgs Hfit. pose proof (content_bound f Hv) as Hcb.
  pose proof Hc as Hlen. apply (f_equal zlen) in Hlen.
  rewrite table_bytes_length, index_bytes_length, describe_zlen in Hlen.
  unfold in_u in Hcb. unfold footer_fits in Hfit.
  pose proof (zlen_nonneg gs). pose proof (zlen_nonneg (data_bytes gs)).
  pose proof (zlen_nonneg (key_bytes (describe 0 gs))).
  pose proof (blocks_ok gs Hgs Hfit ltac:(lia)) as Hblocks.
  set (blocks := describe 0 gs) in *.
  assert (zlen blocks = zlen gs) as Hnb by apply describe_zlen.
  unfold init. erewrite st_bind_ok by (unfold zoom; simpl; by rewrite size_content).
  change (set_file f (make f)) with (make f). rewrite (proj2 (Z.ltb_ge _ _)) by lia.
  erewrite st_bind_ok by (by apply (read_trailer_ok gs (make f))). fold blocks.
  st_lift_step ltac:(unfold trailer; apply (load_s32_at 0 []); [done|unfold in_s; simpl; lia]).
  st_lift_step ltac:(unfold trailer; rewrite <- (app_nil_r (store_little_s32 (zlen (key_bytes _))));
    apply load_s32_at; [by rewrite zlen_s32|unfold in_s; simpl; lia]).
  do 3 st_lift_step ltac:(apply check_s_ok; unfold in_s; simpl; lia).
  rewrite (proj2 (Z.ltb_ge _ _)) by lia.
  rewrite !(u64_small) by lia. st_lift_step ltac:(apply vector_resize_ok; lia).
  st_lift_step ltac:(apply check_s_ok; unfold in_s; simpl; lia).
  erewrite st_bind_ok.
  2: { apply pread_into_ok; [done|lia|]. rewrite zlen_resize. simpl. lia. }
  rewrite zlen_resize, Z2Nat.id by lia. cbn [make file_].
  rewrite Hc. unfold blocks at 1 2 3 4. rewrite index_slice. fold blocks. rewrite <- Hc.
  erewrite st_bind_ok by done.
  st_lift_step ltac:(apply vector_resize_ok; lia).
  erewrite st_bind_ok by done.
  do 2 st_lift_step ltac:(apply check_s_ok; unfold in_s; simpl; lia).
  erewrite st_bind_ok.
  2: { apply pread_into_ok; [done|lia|]. rewrite zlen_resize. simpl. lia. }
  rewrite zlen_resize, Z2Nat.id by lia. cbn [set_keys_buffer make file_].
  rewrite Hc. unfold blocks at 1 2. rewrite keys_slice. fold blocks.
  erewrite st_bind_ok by done.
  change 0 with (zlen (@nil SSTableBuilder.Block)) at 1.
  change 0 with (zlen (key_bytes [])) at 1.
  rewrite (init_loop_ok blocks _ [] blocks) by (done || lia || (unfold zlen; lia)).
  eexists. split; [done|]. by split_and!.
Qed.
End init_proof.

(** ** An iterator is a place in the list of entries *)

Section iterator.
Context {F : Type} `{!File F, !RandomAccess F, !BoostEndian}.
Context (gs : list (list (list Z * list Z))) (t : SSTable F).
Hypothesis Hgs : Forall group_ok gs.
Hypothesis Ht : loaded gs t.
Implicit Types it : Iterator F.

Lemma describe_lookup off i g :
  gs !! i = Some g →
  describe off gs !! i =
  Some {| SSTableBuilder.offset := off + zlen (data_bytes (take i gs));
          SSTableBuilder.size := zlen (entries g); last := last_key g |}.
Proof using.
  clear. revert off i. induction gs as [|g' gs' IH]; intros off [|i] Hi; simpl in *; try done.
  - injection Hi as ->. by rewrite Z.add_0_r.
  - rewrite (IH _ _ Hi). unfold data_bytes. rewrite fmap_cons, concat_cons, zlen_app.
    by rewrite Z.add_assoc.
Qed.

Lemma data_bytes_split i g :
  gs !! i = Some g →
  data_bytes gs = data_bytes (take i gs) ++ entries g ++ data_bytes (drop (S i) gs).
Proof using.
  clear. intros Hi. rewrite <- (take_drop_middle gs i g Hi) at 1. unfold data_bytes.
  by rewrite fmap_app, fmap_cons, concat_app, concat_cons.
Qed.

Lemma read_block it i g :
  sstable_ it = t → iter_ it = Some i → gs !! i = Some g →
  read it = (Ok tt, set_buffer (entries g) it).
Proof using Ht Hgs.
  intros Hsst Hi Hg. destruct Ht as (Hv & Hc & Hb & _).
  assert (group_ok g) as [Hne Hsz] by (by eapply Forall_lookup_1).
  pose proof (entries_pos g Hne). unfold max_block_size in Hsz.
  unfold read. erewrite st_bind_ok by done. rewrite Hsst, Hb, Hi. cbn [mbind option_bind].
  rewrite list_lookup_fmap, (describe_lookup 0 i g Hg). 
  cbn [fmap option_fmap option_map view size offset SSTableBuilder.size SSTableBuilder.offset].
  rewrite u64_small by (simpl; lia). st_lift_step ltac:(apply vector_resize_ok; simpl; lia).
  erewrite st_bind_ok by done. unfold zoom, st_bind at 1. cbn [set_buffer sstable_]. rewrite Hsst.
  assert (slice (0 + zlen (data_bytes (take i gs))) (zlen (entries g)) (content (file_ t)) = entries g)
    as Hsl.
  { rewrite Hc. unfold table_bytes. rewrite (data_bytes_split i g Hg), <- !(assoc_L (++)).
    by apply slice_mid. }
  assert (zlen (resize (Z.to_nat (zlen (entries g))) 0 (buffer_ it)) = zlen (entries g)) as Hrs
    by (rewrite zlen_resize; lia).
  rewrite pread_into_ok; rewrite ?Hrs; [|done| |].
  - rewrite Hsl. unfold st_modify, set_buffer, set_sstable. simpl. by rewrite <- Hsst.
  - apply zlen_nonneg.
  - rewrite Hc. unfold table_bytes. rewrite (data_bytes_split i g Hg), !zlen_app.
    repeat match goal with |- context [zlen ?l] => generalize (zlen_nonneg l); generalize (zlen l) end.
    lia.
Qed.

(** The iterator is at the entry [kv] of block [i]. *)
Definition at_entry it i g1 kv g2 : Prop :=
  sstable_ it = t ∧ iter_ it = Some i ∧ gs !! i = Some (g1 ++ kv :: g2) ∧
  buffer_ it = entries (g1 ++ kv :: g2) ∧ offset_ it = zlen (entries g1).

(** The iterator is at entry [n] of the table. *)
Definition at_pos it (n : nat) : Prop :=
  ∃ i g1 kv g2, at_entry it i g1 kv g2 ∧ n = (length (concat (take i gs)) + length g1)%nat.

Lemma entries_middle g1 kv g2 : entries (g1 ++ kv :: g2) = entries g1 ++ entry kv ++ entries g2.
Proof using. unfold entries. by rewrite fmap_app, fmap_cons, concat_app, concat_cons. Qed.

(** The loads that key, value and next begin with. *)
Lemma load_entry it i g1 kv g2 :
  at_entry it i g1 kv g2 →
  load_s32 (offset_ it) (buffer_ it) = Ok (zlen kv.1) ∧
  load_s32 (u64 (offset_ it + 4)) (buffer_ it) = Ok (zlen kv.2) ∧
  span_read (u64 (offset_ it + 8)) (zlen kv.1) (buffer_ it) = Ok kv.1 ∧
  span_read (u64 (offset_ it + 8 + zlen kv.1)) (zlen kv.2) (buffer_ it) = Ok kv.2 ∧
  zlen (buffer_ it) ≤ max_block_size ∧
  zlen (buffer_ it) = offset_ it + zlen (entry kv) + zlen (entries g2).
Proof using Hgs.
  intros (_ & _ & Hg & Hb & Ho). assert (group_ok (g1 ++ kv :: g2)) as [_ Hsz] by (by eapply Forall_lookup_1).
  rewrite <- Hb in Hsz. rewrite entries_middle in Hb.
  assert (zlen (buffer_ it) = offset_ it + zlen (entry kv) + zlen (entries g2)) as Hlen
    by (rewrite Hb, !zlen_app, Ho; lia).
  rewrite entry_length in Hlen. pose proof (zlen_nonneg kv.1). pose proof (zlen_nonneg kv.2).
  pose proof (zlen_nonneg (entries g2)). assert (0 ≤ offset_ it) by (rewrite Ho; apply zlen_nonneg).
  pose proof Hsz as Hsz'. unfold max_block_size in Hsz'.
  rewrite !u64_small by lia. rewrite entry_length. split_and!; [..|done|done]; rewrite Hb; unfold entry;
    rewrite <- !(assoc_L (++)).
  - apply load_s32_at; [done|]. unfold in_s; simpl; lia.
  - rewrite (assoc_L (++)). apply load_s32_at; [rewrite zlen_app, zlen_s32; lia|].
    unfold in_s; simpl; lia.
  - rewrite (assoc_L (++)), (assoc_L (++) (_ ++ _)).
    apply span_read_mid; [rewrite !zlen_app, !zlen_s32; lia|done].
  - rewrite (assoc_L (++)), (assoc_L (++) (_ ++ _)), (assoc_L (++) (_ ++ _)).
    apply span_read_mid; [rewrite !zlen_app, !zlen_s32; lia|done].
Qed.

Lemma key_value_entry it i g1 kv g2 :
  at_entry it i g1 kv g2 → key it = Ok kv.1 ∧ value it = Ok kv.2.
Proof using Hgs.
  intros Hat. destruct (load_entry _ _ _ _ _ Hat) as (H1 & H2 & H3 & H4 & H5 & H6).
  rewrite entry_length in H6. pose proof (zlen_nonneg kv.1). pose proof (zlen_nonneg kv.2).
  pose proof (zlen_nonneg (entries g2)). destruct Hat as (_ & _ & _ & _ & Ho).
  pose proof (zlen_nonneg (entries g1)). unfold max_block_size in H5.
  unfold key, value. rewrite H1, H2. cbn [mbind result_bind]. rewrite !(u64_small (zlen _)) by lia.
  done.
Qed.

(** next, up to the move to another block. *)
Lemma next_entry it i g1 kv g2 :
  at_entry it i g1 kv g2 →
  let it1 := set_offset (zlen (entries (g1 ++ [kv]))) it in
  next it =
  match g2 with
  | [] =>
      if (S i =? length gs)%nat then (Err no_message_available, set_iter (S i) it1)
      else read (set_offset 0 (set_iter (S i) it1))
  | _ => (Ok tt, it1)
  end.
Proof using Hgs Ht.
  intros Hat it1. destruct (load_entry _ _ _ _ _ Hat) as (H1 & H2 & _ & _ & H5 & H6).
  destruct Hat as (Hsst & Hi & _ & _ & Ho). rewrite entry_length in H6.
  pose proof (zlen_nonneg kv.1). pose proof (zlen_nonneg kv.2).
  pose proof (zlen_nonneg (entries g2)). pose proof (zlen_nonneg (entries g1)).
  unfold max_block_size in H5. unfold next. erewrite st_bind_ok by done.
  rewrite (u64_small (_ + 8)), (proj2 (Z.ltb_ge _ _)) by lia.
  st_lift_step ltac:(exact H1). st_lift_step ltac:(exact H2).
  rewrite u64_small, (proj2 (Z.ltb_ge _ _)) by lia.
  do 2 st_lift_step ltac:(apply check_s_ok; unfold in_s; simpl; lia).
  rewrite u64_small by lia. erewrite st_bind_ok by done.
  replace (offset_ it + (8 + zlen kv.1 + zlen kv.2)) with (zlen (entries (g1 ++ [kv])))
    by (rewrite entries_snoc, zlen_app, entry_length; lia).
  fold it1. assert (zlen (entries (g1 ++ [kv])) = zlen (buffer_ it) - zlen (entries g2)) as ->
    by (rewrite entries_snoc, zlen_app, entry_length; lia).
  destruct g2 as [|kv' g2].
  - rewrite (proj2 (Z.eqb_eq _ _)), Hi by (unfold entries; simpl; rewrite zlen_nil; lia).
    erewrite st_bind_ok by done. rewrite Hsst. destruct Ht as (_ & _ & -> & _).
    rewrite length_fmap, describe_length. by destruct (_ =? _)%nat.
  - rewrite (proj2 (Z.eqb_neq _ _)); [done|]. pose proof (entries_pos (kv' :: g2) ltac:(done)). lia.
Qed.

Lemma take_concat_length i g :
  gs !! i = Some g → length (concat (take (S i) gs)) = (length (concat (take i gs)) + length g)%nat.
Proof using. intros Hi. by rewrite (take_S_r _ _ _ Hi), concat_app, length_app, concat_cons, app_nil_r. Qed.

Lemma concat_lookup i g1 kv g2 :
  gs !! i = Some (g1 ++ kv :: g2) →
  concat gs !! (length (concat (take i gs)) + length g1)%nat = Some kv.
Proof using.
  intros Hi. rewrite <- (take_drop_middle gs i _ Hi) at 2.
  rewrite concat_app, concat_cons, lookup_app_r by lia.
  rewrite Nat.add_comm, Nat.add_sub. rewrite <- (assoc_L (++)). by apply list_lookup_middle.
Qed.

Lemma at_pos_entry it n :
  at_pos it n → ∃ kv, concat gs !! n = Some kv ∧ key it = Ok kv.1 ∧ value it = Ok kv.2 ∧
    sstable_ it = t.
Proof using Hgs.
  intros (i & g1 & kv & g2 & Hat & ->). exists kv.
  destruct (key_value_entry _ _ _ _ _ Hat). destruct Hat as (? & _ & Hg & _).
  split_and!; [by eapply concat_lookup|done..].
Qed.

(** The first entry of block [i]. *)
Lemma read_at_pos it i :
  sstable_ it = t → iter_ it = Some i → offset_ it = 0 → (i < length gs)%nat →
  ∃ it', read it = (Ok tt, it') ∧ at_pos it' (length (concat (take i gs))).
Proof using Hgs Ht.
  intros Hsst Hi Ho Hlt. destruct (lookup_lt_is_Some_2 gs i Hlt) as [g Hg].
  assert (group_ok g) as [Hne _] by (by eapply Forall_lookup_1).
  rewrite (read_block it i g) by done. eexists. split; [done|].
  destruct g as [|kv g]; [done|]. exists i, [], kv, g. split; [|simpl; lia]. by repeat split.
Qed.

Lemma next_pos it n :
  at_pos it n →
  ((S n < length (concat gs))%nat ∧ ∃ it', next it = (Ok tt, it') ∧ at_pos it' (S n)) ∨
  (S n = length (concat gs) ∧ ∃ it', next it = (Err no_message_available, it') ∧ sstable_ it' = t).
Proof using Hgs Ht.
  intros (i & g1 & kv & g2 & Hat & ->). pose proof (next_entry _ _ _ _ _ Hat) as Hnext.
  destruct Hat as (Hsst & Hi & Hg & Hb & Ho). cbn zeta in Hnext.
  pose proof (take_concat_length i _ Hg) as Hlen. rewrite length_app in Hlen. simpl in Hlen.
  destruct g2 as [|kv' g2].
  - destruct (Nat.eqb_spec (S i) (length gs)) as [He|Hne].
    + right. rewrite Hnext, (firstn_all2 gs) in * by lia. simpl in Hlen. split; [lia|]. eauto.
    + left. apply lookup_lt_Some in Hg. simpl in Hlen.
      destruct (read_at_pos (set_offset 0 (set_iter (S i)
        (set_offset (zlen (entries (g1 ++ [kv]))) it))) (S i)) as (it' & Hr & Hp); [done..|lia|].
      rewrite Hnext. destruct (at_pos_entry _ _ Hp) as (? & ?%lookup_lt_Some & _).
      rewrite Hlen in *. split; [lia|]. exists it'. split; [done|]. by rewrite Nat.add_1_r, Nat.add_succ_r in Hp.
  - left. rewrite Hnext. split.
    + assert (gs !! i = Some ((g1 ++ [kv]) ++ kv' :: g2)) as Hg'%concat_lookup%lookup_lt_Some
        by (by rewrite <- (assoc_L (++))).
      rewrite length_app in Hg'. simpl in Hg'. lia.
    + eexists. split; [done|]. exists i, (g1 ++ [kv]), kv', g2. split; [|rewrite length_app; simpl; lia].
      unfold at_entry. rewrite <- (assoc_L (++)). by repeat split.
Qed.

(** seek_loop stops at the first entry whose key is not below [k]. *)
Lemma seek_loop_pos k fuel it n m :
  at_pos it n → partitioned (λ kv, bytes_ltb kv.1 k) (concat gs) m →
  (n ≤ m)%nat → (m < n + fuel)%nat →
  ∃ it', sstable_ it' = t ∧
    if decide (m < length (concat gs))%nat
    then seek_loop fuel k it = (Ok tt, it') ∧ at_pos it' m
    else seek_loop fuel k it = (Err no_message_available, it').
Proof using Hgs Ht.
  intros Hat Hp. revert it n Hat. induction fuel as [|fuel IH]; intros it n Hat Hn Hf; [lia|].
  destruct (at_pos_entry it n Hat) as (kv & Hkv & Hkey & _ & Hsst).
  pose proof (lookup_lt_Some _ _ _ Hkv) as Hlt.
  cbn [seek_loop]. erewrite st_bind_ok by done. st_lift_step ltac:(exact Hkey).
  pose proof (Hp n kv Hkv) as Hpn. cbv beta in Hpn. rewrite Hpn. case_bool_decide as Hcmp.
  - destruct (next_pos it n Hat) as [(_ & it' & Hnext & Hat')|(Hend & it' & Hnext & Hsst')].
    + rewrite (st_bind_ok _ _ _ _ _ Hnext). apply (IH it' (S n)); [done|lia|lia].
    + rewrite (st_bind_err _ _ _ _ _ Hnext). exists it'. split; [done|].
      rewrite decide_False by lia. done.
  - exists it. split; [done|]. assert (m = n) as -> by lia. rewrite decide_True by done. done.
Qed.

Lemma key_spans_lookup blocks off i blk :
  blocks !! i = Some blk →
  key_spans off blocks !! i = Some (off + zlen (key_bytes (take i blocks)), zlen (last blk)).
Proof using.
  clear. revert off i. induction blocks as [|b blocks IH]; intros off [|i] Hi; simpl in *; try done.
  - injection Hi as ->. by rewrite Z.add_0_r.
  - rewrite (IH _ _ Hi), key_bytes_cons, zlen_app. by rewrite Z.add_assoc.
Qed.

Lemma key_spans_length blocks off : length (key_spans off blocks) = length blocks.
Proof using. clear. revert off. induction blocks; intros; simpl; auto. Qed.

Lemma key_less_last k i span :
  keys_ t !! i = Some span →
  ∃ g, gs !! i = Some g ∧ key_less t k span = Ok (bytes_ltb (last_key g) k).
Proof using Ht.
  destruct Ht as (_ & _ & _ & Hk & Hkb). rewrite Hk. intros Hi.
  pose proof (lookup_lt_Some _ _ _ Hi) as Hlt. rewrite key_spans_length, describe_length in Hlt.
  destruct (lookup_lt_is_Some_2 gs i Hlt) as [g Hg]. exists g. split; [done|].
  pose proof (describe_lookup 0 i g Hg) as Hd.
  rewrite (key_spans_lookup _ _ _ _ Hd) in Hi. injection Hi as <-. unfold key_less. rewrite Hkb.
  cbn [fst snd last]. rewrite <- (take_drop_middle _ _ _ Hd) at 2.
  rewrite key_bytes_app, key_bytes_cons, span_read_mid by (done || lia). done.
Qed.

(** The index of the last entry of a block. *)
Lemma last_key_lookup i g :
  gs !! i = Some g →
  ∃ kv, concat gs !! (length (concat (take (S i) gs)) - 1)%nat = Some kv ∧ kv.1 = last_key g ∧
    (0 < length (concat (take (S i) gs)))%nat.
Proof using Hgs.
  intros Hg. assert (group_ok g) as [Hne _] by (by eapply Forall_lookup_1).
  rewrite (take_concat_length i g Hg). unfold last_key.
  destruct g as [|kv g _] using rev_ind; [done|]. exists kv. rewrite last_snoc, length_app. simpl.
  split_and!; [|done|lia]. rewrite Nat.add_assoc, Nat.add_sub. by eapply concat_lookup.
Qed.

Lemma take_concat_mono i j :
  (i ≤ j)%nat → (length (concat (take i gs)) ≤ length (concat (take j gs)))%nat.
Proof using.
  intros. replace (take j gs) with (take i gs ++ take (j - i) (drop i gs)).
  - rewrite concat_app, length_app. lia.
  - rewrite take_take_drop. f_equal. lia.
Qed.

(** The block that c_lower_bound finds holds the partition point, if a block does. *)
Lemma lower_bound_block k m :
  partitioned (λ kv, bytes_ltb kv.1 k) (concat gs) m → (m ≤ length (concat gs))%nat →
  ∃ i, lower_bound (key_less t k) (keys_ t) = Ok i ∧ (i ≤ length gs)%nat ∧
    (length (concat (take i gs)) ≤ m)%nat ∧
    (i < length gs → m < length (concat gs))%nat ∧ (i = length gs → m = length (concat gs)).
Proof using Ht Hgs.
  intros Hp Hm. set (p := λ g, bytes_ltb (last_key g) k).
  assert (∀ i g, gs !! i = Some g → p g = bool_decide (length (concat (take (S i) gs)) ≤ m)%nat)
    as Hlast.
  { intros i g Hg. destruct (last_key_lookup i g Hg) as (kv & Hkv & He & Hpos). unfold p.
    rewrite <- He. pose proof (Hp _ _ Hkv) as Hpk. cbv beta in Hpk. rewrite Hpk.
    apply bool_decide_ext. lia. }
  destruct (partition_exists p gs) as (i & Hi & Hpart).
  { intros i j x y Hx Hy Hij. rewrite (Hlast _ _ Hx), (Hlast _ _ Hy), !bool_decide_eq_true.
    pose proof (take_concat_mono (S i) (S j)). lia. }
  exists i. split_and!; [|done|..].
  - apply lower_bound_spec with (p := λ span, match key_less t k span with Ok b => b | _ => false end).
    + intros j span (g & _ & ->)%(key_less_last k). done.
    + intros j span (g & Hg & ->)%(key_less_last k). by apply Hpart.
    + destruct Ht as (_ & _ & _ & -> & _). by rewrite key_spans_length, describe_length.
  - destruct i as [|i]; [simpl; lia|]. destruct (lookup_lt_is_Some_2 gs i) as [g Hg]; [lia|].
    pose proof (Hpart i g Hg) as E. rewrite (Hlast i g Hg), (bool_decide_eq_true_2 (i < S i)%nat) in E by lia.
    by apply bool_decide_eq_true in E.
  - intros Hlt. destruct (lookup_lt_is_Some_2 gs i Hlt) as [g Hg].
    pose proof (Hpart i g Hg) as E. rewrite (Hlast i g Hg), (bool_decide_eq_false_2 (i < i)%nat) in E by lia.
    apply bool_decide_eq_false in E. pose proof (take_concat_mono (S i) (length gs)).
    rewrite firstn_all in *. lia.
  - intros ->. destruct (length gs) as [|n] eqn:Hn.
    { apply length_zero_iff_nil in Hn. rewrite Hn in *. simpl in *. lia. }
    destruct (lookup_lt_is_Some_2 gs n) as [g Hg]; [lia|].
    pose proof (Hpart n g Hg) as E. rewrite (Hlast n g Hg), (bool_decide_eq_true_2 (n < S n)%nat) in E by lia.
    apply bool_decide_eq_true in E. rewrite <- Hn, firstn_all in E. lia.
Qed.

Lemma entries_count g : (length g ≤ Z.to_nat (zlen (entries g)))%nat.
Proof using.
  clear. induction g as [|kv g IH]; [simpl; lia|]. unfold entries in *.
  rewrite fmap_cons, concat_cons, zlen_app, entry_length. cbn [length].
  pose proof (zlen_nonneg kv.1). pose proof (zlen_nonneg kv.2).
  pose proof (zlen_nonneg (concat (entry <$> g))). lia.
Qed.

Lemma seek_fuel_enough : (length (concat gs) < seek_fuel t)%nat.
Proof using Ht.
  destruct Ht as (_ & _ & Hb & _). unfold seek_fuel. rewrite Hb. clear.
  generalize 0. induction gs as [|g gs' IH]; intros off; simpl; [lia|].
  rewrite length_app. specialize (IH (off + zlen (entries g))). pose proof (entries_count g). unfold fmap in IH. lia.
Qed.

Lemma seek_pos k m it :
  sstable_ it = t → partitioned (λ kv, bytes_ltb kv.1 k) (concat gs) m →
  (m ≤ length (concat gs))%nat →
  ∃ it', sstable_ it' = t ∧
    if decide (m < length (concat gs))%nat
    then seek k it = (Ok tt, it') ∧ at_pos it' m
    else seek k it = (Err no_message_available, it').
Proof using Hgs Ht.
  intros Hsst Hp Hm. destruct (lower_bound_block k m Hp Hm) as (i & Hlb & Hi & Hle & Hin & Hout).
  unfold seek. erewrite st_bind_ok by done. rewrite Hsst. st_lift_step ltac:(exact Hlb).
  assert (length (keys_ t) = length gs) as ->.
  { destruct Ht as (_ & _ & _ & -> & _). by rewrite key_spans_length, describe_length. }
  destruct (Nat.eqb_spec i (length gs)) as [He|Hne].
  { exists it. split; [done|]. rewrite (Hout He), decide_False by lia. done. }
  do 2 erewrite st_bind_ok by done.
  destruct (read_at_pos (set_offset 0 (set_iter i it)) i) as (it1 & Hr & Hat); [done..|lia|].
  rewrite (st_bind_ok _ _ _ _ _ Hr). apply (seek_loop_pos _ _ _ _ _ Hat Hp Hle).
  pose proof seek_fuel_enough. lia.
Qed.

Lemma lookup_loaded k :
  StronglySorted bytes_lt (concat gs).*1 →
  lookup k t =
  (match (list_to_map (concat gs) : gmap (list Z) (list Z)) !! k with
   | Some v => Ok v
   | None => Err no_message_available
   end, t).
Proof using Hgs Ht.
  intros Hs. destruct (sorted_partition fst (concat gs) k Hs) as (m & Hm & Hp).
  assert (NoDup (concat gs).*1) as Hnd.
  { clear -Hs. induction Hs as [|x l _ IH Hx]; constructor; [|done]. intros Hin.
    rewrite Forall_forall in Hx. by eapply bytes_lt_irrefl, Hx. }
  destruct (seek_pos k m (make_iterator t) eq_refl Hp Hm) as (it & Hsst & Hseek).
  unfold lookup. destruct (_ !! k) as [v|] eqn:Hk.
  - apply elem_of_list_to_map_2, list_elem_of_lookup in Hk as [j Hj].
    assert (m = j) as -> by (eapply (partition_found fst _ m j (k, v)); eauto).
    rewrite decide_True in Hseek by (by eapply lookup_lt_Some). destruct Hseek as [Hseek Hat].
    destruct (at_pos_entry it j Hat) as (kv & Hkv & Hkey & Hval & _).
    rewrite (st_bind_ok _ _ _ _ _ Hseek). erewrite st_bind_ok by done.
    st_lift_step ltac:(exact Hkey). replace kv with (k, v) in * by congruence.
    rewrite bool_decide_eq_true_2 by done. unfold st_lift. by rewrite Hval, Hsst.
  - apply not_elem_of_list_to_map_2 in Hk. case_decide.
    + destruct Hseek as [Hseek Hat].
      destruct (at_pos_entry it m Hat) as (kv & Hkv & Hkey & _).
      rewrite (st_bind_ok _ _ _ _ _ Hseek). erewrite st_bind_ok by done.
      st_lift_step ltac:(exact Hkey). rewrite bool_decide_eq_false_2; [unfold throw; by rewrite Hsst|].
      intros <-. apply Hk, list_elem_of_fmap. exists kv. split; [done|]. by eapply list_elem_of_lookup_2.
    + by rewrite (st_bind_err _ _ _ _ _ Hseek), Hsst.
Qed.

Lemma walk_pos fuel it n :
  at_pos it n → (length (concat gs) - n < fuel)%nat →
  ∃ it', walk fuel it = (Ok (drop n (concat gs)), it').
Proof using Hgs Ht.
  revert it n. induction fuel as [|fuel IH]; intros it n Hat Hf; [lia|].
  destruct (at_pos_entry it n Hat) as (kv & Hkv & Hkey & Hval & _).
  pose proof (lookup_lt_Some _ _ _ Hkv) as Hlt.
  cbn [walk]. erewrite st_bind_ok by done. st_lift_step ltac:(exact Hkey).
  st_lift_step ltac:(exact Hval). rewrite <- surjective_pairing.
  rewrite (drop_S _ _ _ Hkv).
  destruct (next_pos it n Hat) as [(_ & it' & -> & Hat')|(Hend & it' & -> & _)].
  - destruct (IH it' (S n) Hat') as [it'' Hw]; [lia|].
    rewrite (st_bind_ok _ _ _ _ _ Hw). by eexists.
  - rewrite drop_ge by lia. by eexists.
Qed.

Lemma walk_all_loaded fuel :
  (length (concat gs) < fuel)%nat →
  ∃ it', walk_all fuel (make_iterator t) = (Ok (concat gs), it').
Proof using Hgs Ht.
  intros Hf. pose proof Ht as (_ & _ & Hb & _). unfold walk_all, start.
  erewrite st_bind_ok by done. cbn [make_iterator sstable_]. rewrite Hb.
  assert (length (blocks_ t) = length gs) as Hlen
    by (by rewrite Hb, length_fmap, describe_length).
  rewrite Hb in Hlen. destruct (view <$> describe 0 gs) as [|blk blks].
  { symmetry in Hlen. apply length_zero_iff_nil in Hlen. rewrite Hlen. by eexists. }
  do 2 erewrite st_bind_ok by done. simpl in Hlen.
  destruct (read_at_pos (set_offset 0 (set_iter 0 (make_iterator t))) 0) as (it1 & Hr & Hat);
    [done..|lia|].
  rewrite Hr. apply (walk_pos fuel it1 0 Hat). lia.
Qed.
End iterator.

(** ** Tables as maps *)

Section table.
Context {F : Type} `{!File F, !RandomAccess F, !BoostEndian}.

(** What the int32_t fields of the format and the max_block_size of the reader admit.  The
    builder checks none of it: with a larger block_size or a larger entry it writes a table
    that init refuses. *)
Definition admissible (o : Options) (kvs : list (list Z * list Z)) : Prop :=
  block_size o ≤ max_block_size ∧ Forall (λ kv, 8 + zlen kv.1 + zlen kv.2 ≤ max_block_size) kvs ∧
  footer_size kvs < 2 ^ 31.

(** An empty file with room for the table. *)
Definition room_for (f : F) (kvs : list (list Z * list Z)) : Prop :=
  valid_random f ∧ content f = [] ∧ append_room f < 2 ^ 63 ∧
  zlen (entries kvs) + footer_size kvs ≤ append_room f.

Lemma build_init f o kvs :
  admissible o kvs → room_for f kvs →
  ∃ b t gs, build kvs (SSTableBuilder.make f o) = (Ok tt, b) ∧
    init (make (SSTableBuilder.file_ b)) = (Ok tt, t) ∧
    concat gs = kvs ∧ Forall group_ok gs ∧ loaded gs t.
Proof.
  intros (Hbs & Hkvs & Hfoot) (Hv & Hc & Hr & Hroom).
  destruct (build_ok (append_room f) Hr kvs (SSTableBuilder.make f o) [])
    as (b & gs & Hb & Hcat & Hg & Hv' & Hc' & Hfit); [by apply make_inv|done| |done|done|].
  { eapply Forall_impl; [done|]. intros kv. by rewrite entry_length. }
  destruct (init_ok gs (SSTableBuilder.file_ b)) as (t & Ht & Hl); [done..|].
  by exists b, t, gs.
Qed.

(** C1: A table built by SSTableBuilder::add and finish from strictly increasing keys, and
    loaded by SSTable::init, is the finite map of its entries: for every key, SSTable::lookup
    returns the stored value, and no_message_available when the key is absent, against any
    file with room for the table that appends and reads by position. This holds for any flush
    size, and for any block size and entries of at most 16 MiB (max_block_size, which init
    checks and the builder does not) and an index of less than 2^31 bytes. *)
Theorem sstable_lookup f o kvs :
  admissible o kvs → room_for f kvs → StronglySorted bytes_lt kvs.*1 →
  ∃ b t, build kvs (SSTableBuilder.make f o) = (Ok tt, b) ∧
    init (make (SSTableBuilder.file_ b)) = (Ok tt, t) ∧
    ∀ k, lookup k t =
      (match (list_to_map kvs : gmap (list Z) (list Z)) !! k with
       | Some v => Ok v
       | None => Err no_message_available
       end, t).
Proof.
  intros Ha Hf Hs. destruct (build_init f o kvs Ha Hf) as (b & t & gs & ? & ? & <- & ? & ?).
  exists b, t. split_and!; [done..|]. intros k. by apply lookup_loaded.
Qed.

(** C5: Walking a built table with Iterator::start and next until no_message_available visits
    all entries, with their keys and values, in the order they were added; the keys need not
    be sorted. *)
Theorem sstable_walk f o kvs :
  admissible o kvs → room_for f kvs →
  ∃ b t, build kvs (SSTableBuilder.make f o) = (Ok tt, b) ∧
    init (make (SSTableBuilder.file_ b)) = (Ok tt, t) ∧
    ∀ fuel, (length kvs < fuel)%nat → (walk_all fuel (make_iterator t)).1 = Ok kvs.
Proof.
  intros Ha Hf. destruct (build_init f o kvs Ha Hf) as (b & t & gs & ? & ? & <- & ? & ?).
  exists b, t. split_and!; [done..|]. intros fuel Hfuel.
  by destruct (walk_all_loaded gs t ltac:(done) ltac:(done) fuel Hfuel) as [it' ->].
Qed.

(** The footer that a trailer announces has a size that int32_t holds, at every step of
    its computation. *)
Definition footer_fits (num_blocks keys_size : Z) : Prop :=
  in_s 32 (num_blocks * 16) ∧ in_s 32 (num_blocks * 16 + keys_size) ∧
  in_s 32 (num_blocks * 16 + keys_size + 8).

(** C38: On a file that reads by position, SSTable::init rejects one shorter than the trailer
    with no_message, and, for any two int32_t values num_blocks and keys_size in the trailer,
    a file shorter than num_blocks * 16 + keys_size + 8 bytes with no_buffer_space if every
    step of that sum fits into an int32_t; if one does not, the signed overflow is undefined
    behaviour. *)
Theorem sstable_init_rejects f :
  valid_random f →
  (zlen (content f) < 8 → (init (make f)).1 = Err no_message) ∧
  (∀ data num_blocks keys_size,
     content f = data ++ store_little_s32 num_blocks ++ store_little_s32 keys_size →
     in_s 32 num_blocks → in_s 32 keys_size →
     (footer_fits num_blocks keys_size → zlen data < num_blocks * 16 + keys_size →
      (init (make f)).1 = Err no_buffer_space) ∧
     (¬ footer_fits num_blocks keys_size → (init (make f)).1 = Crash)).
Proof.
  intros Hv. unfold init.
  split; [intros Hlen|intros data n ks Hc Hn Hks];
    erewrite st_bind_ok by (unfold zoom; simpl; by rewrite size_content).
  - by rewrite (proj2 (Z.ltb_lt _ _)).
  - pose proof Hc as Hz. apply (f_equal zlen) in Hz. rewrite !zlen_app, !zlen_s32 in Hz.
    pose proof (zlen_nonneg data). change (set_file f (make f)) with (make f).
    rewrite (proj2 (Z.ltb_ge _ _)) by lia.
    erewrite st_bind_ok.
    2: { unfold read_trailer. cbn [make file_]. rewrite pread_slice by (done || lia).
         rewrite zlen_slice by lia. done. }
    assert (slice (zlen (content f) - 8) 8 (content f) =
            store_little_s32 n ++ store_little_s32 ks) as ->.
    { replace (content f) with (data ++ (store_little_s32 n ++ store_little_s32 ks) ++ [])
        by (by rewrite app_nil_r). apply slice_mid;
        rewrite ?zlen_app, ?zlen_s32, ?zlen_nil; lia. }
    st_lift_step ltac:(by apply (load_s32_at 0 [])).
    st_lift_step ltac:(rewrite <- (app_nil_r (store_little_s32 ks));
      apply load_s32_at; [by rewrite zlen_s32|done]).
    split.
    + intros (H1 & H2 & H3) Hlen. do 3 st_lift_step ltac:(by apply check_s_ok).
      rewrite (proj2 (Z.ltb_lt _ _)) by lia. done.
    + intros Hno. unfold st_bind, st_lift.
      destruct (decide (in_s 32 (n * 16))) as [H1|H1]; [|by rewrite check_s_crash].
      rewrite check_s_ok by done. destruct (decide (in_s 32 (n * 16 + ks))) as [H2|H2]; [|by rewrite check_s_crash].
      rewrite check_s_ok by done. rewrite check_s_crash; [done|]. intros H3. by apply Hno.
Qed.
End table.

Definition example_options : Options := {| block_size := 24; flush_size := 20 |}.
Definition example_entries : list (list Z * list Z) :=
  [([1], [10; 11]); ([2; 3], [20]); ([2; 4], []); ([7], [1; 2; 3])].

Lemma example_admissible : admissible example_options example_entries.
Proof. split_and!; [done| |done]. by repeat constructor. Qed.

Lemma example_room : room_for (MemoryFile.make []) example_entries.
Proof. split_and!; done. Qed.

Lemma sstable_lookup_witness :
  ∃ b t, build example_entries (SSTableBuilder.make (MemoryFile.make []) example_options)
           = (Ok tt, b) ∧
    init (make (SSTableBuilder.file_ b)) = (Ok tt, t) ∧
    lookup [2; 3] t = (Ok [20], t) ∧ lookup [5] t = (Err no_message_available, t).
Proof.
  destruct (sstable_lookup (MemoryFile.make []) example_options example_entries
    example_admissible example_room) as (b & t & Hb & Ht & Hl).
  - repeat constructor.
  - exists b, t. split_and!; [exact Hb|exact Ht|rewrite Hl; reflexivity..].
Defined.

Lemma sstable_walk_witness :
  ∃ b t, build example_entries (SSTableBuilder.make (MemoryFile.make []) example_options)
           = (Ok tt, b) ∧
    init (make (SSTableBuilder.file_ b)) = (Ok tt, t) ∧
    (walk_all 5 (make_iterator t)).1 = Ok example_entries.
Proof.
  destruct (sstable_walk (MemoryFile.make []) example_options example_entries
    example_admissible example_room) as (b & t & Hb & Ht & Hl).
  exists b, t. split_and!; [exact Hb|exact Ht|apply Hl; simpl; lia].
Defined.

Definition truncated_file : MemoryFile :=
  {| content_ := [1; 2] ++ store_little_s32 1 ++ store_little_s32 3; position_ := 10 |}.

(** Two bytes that announce 2^28 blocks *)
Definition overflowing_file : MemoryFile :=
  {| content_ := [1; 2] ++ store_little_s32 (2 ^ 28) ++ store_little_s32 3; position_ := 10 |}.

Lemma sstable_init_rejects_witness :
  (init (make truncated_file)).1 = Err no_buffer_space ∧ (init (make overflowing_file)).1 = Crash.
Proof.
  split.
  - refine (proj1 (proj2 (sstable_init_rejects truncated_file _) [1; 2] 1 3 _ _ _) _ _); done.
  - refine (proj2 (proj2 (sstable_init_rejects overflowing_file _) [1; 2] (2 ^ 28) 3 _ _ _) _); try done.
    by intros [[_ H] _].
Defined.

(** A table of two blocks whose second key size is -2. *)
Definition negative_key_file : MemoryFile :=
  MemoryFile.make
    ([0; 0; 0; 0; 0; 0; 0; 0] ++
     store_little_s64 0 ++ store_little_s32 8 ++ store_little_s32 4 ++
     store_little_s64 0 ++ store_little_s32 8 ++ store_little_s32 (-2) ++
     [1; 1; 1; 1] ++ store_little_s32 2 ++ store_little_s32 4).

(** SSTable::init accepts a file whose index has a negative key size, and a lookup in
    the table then reads outside the keys buffer. *)
Theorem sstable_negative_key_size :
  (init (make negative_key_file)).1 = Ok tt ∧
  (lookup [2] (init (make negative_key_file)).2).1 = Crash.
Proof. by vm_compute. Qed.
