(* ===== verification/Random.v ===== *)
(** * absl::Uniform over absl::InsecureBitGen

    Abseil is not part of the repository: [BitGen] is the interface of the
    generator that util/rope.cc and util/hash-filter.cc draw from, with the
    range that its documentation gives.  [lcg] is a concrete generator. *)

From S2P Require Import Prelude.

Class BitGen (G : Type) : Type := {
  uniform_uint32 : G → Z * G;
  uniform_uint64 : G → Z * G;
  uniform_uint32_range g : in_u 32 (uniform_uint32 g).1;
  uniform_uint64_range g : in_u 64 (uniform_uint64 g).1;
}.

(** A linear congruential generator. *)
Record lcg : Type := { lcg_state : Z }.

Definition lcg_step (g : lcg) : lcg :=
  {| lcg_state := u64 (lcg_state g * 6364136223846793005 + 1442695040888963407) |}.

#[export] Program Instance lcg_gen : BitGen lcg := {
  uniform_uint32 g := (lcg_state (lcg_step g) ≫ 32, lcg_step g);
  uniform_uint64 g := (lcg_state (lcg_step g), lcg_step g);
}.
Next Obligation.
  intros g. unfold in_u. rewrite Z.shiftr_div_pow2 by lia. simpl fst.
  pose proof (uwrap_range 64 (lcg_state g * 6364136223846793005 + 1442695040888963407)) as [? ?];
    [lia|]. simpl lcg_state. split; [apply Z.div_pos; lia|].
  apply Z.div_lt_upper_bound; [lia|]. by change (2 ^ 32 * 2 ^ 32) with (2 ^ 64).
Qed.
Next Obligation. intros g. apply uwrap_range. lia. Qed.
