(* ===== verification/Rope.v ===== *)
(** * util/rope: a string as a treap of 4096 byte buffers

    A [std::unique_ptr<Rep>] is a [rep], null or a node; a [uint32_t] or
    [size_t] field is a [Z] and the conversions are written out.  A use of a
    null pointer is a [Crash].  insert is not structural (a buffer that
    overflows is inserted into the subtree that an insertion gave), so it has
    fuel; [insert_fuel] is enough for every index inside the rope. *)

From S2P Require Import Prelude Random.

Definition buffer_size : Z := 4096.

Inductive rep : Type :=
  | Null
  | Node (lchild rchild : rep) (lsize size priority : Z) (buffer : list Z).

(** Rope::rotate_left *)
Definition rotate_left (p : rep) : result rep :=
  match p with
  | Node l (Node pl pr plsize psize pprio pbuf) lsize size prio buf =>
      Ok (Node (Node l pl lsize size prio buf) pr
            (u64 (plsize + u64 (lsize + size))) psize pprio pbuf)
  | _ => Crash
  end.

(** Rope::rotate_right *)
Definition rotate_right (p : rep) : result rep :=
  match p with
  | Node (Node pl pr plsize psize pprio pbuf) r lsize size prio buf =>
      Ok (Node pl (Node pr r (u64 (lsize - u64 (plsize + psize))) size prio buf)
            plsize psize pprio pbuf)
  | _ => Crash
  end.

(** Rope::balance_left *)
Fixpoint balance_left (p : rep) : result rep :=
  match p with
  | Null => Crash
  | Node l r lsize size prio buf =>
      match l with
      | Null => Ok p
      | Node _ _ _ _ _ _ =>
          l ← balance_left l;
          match l with
          | Null => Crash
          | Node _ _ _ _ lprio _ =>
              if prio <? lprio then rotate_right (Node l r lsize size prio buf)
              else Ok (Node l r lsize size prio buf)
          end
      end
  end.

(** Rope::balance_right *)
Fixpoint balance_right (p : rep) : result rep :=
  match p with
  | Null => Crash
  | Node l r lsize size prio buf =>
      match r with
      | Null => Ok p
      | Node _ _ _ _ _ _ =>
          r ← balance_right r;
          match r with
          | Null => Crash
          | Node _ _ _ _ rprio _ =>
              if prio <? rprio then rotate_left (Node l r lsize size prio buf)
              else Ok (Node l r lsize size prio buf)
          end
      end
  end.

(** Rope::merge *)
Fixpoint merge (lrep rrep : rep) : result rep :=
  match lrep with
  | Null => Ok rrep
  | Node l r lsize size prio buf =>
      match rrep with
      | Null => Ok lrep
      | Node _ _ _ _ _ _ =>
          r ← merge r rrep;
          balance_right (Node l r lsize size prio buf)
      end
  end.

Section rope.
Context {G : Type} `{!BitGen G}.

(** The allocation that insert begins with *)
Definition allocate (p : rep) : ST G rep := λ g,
  match p with
  | Null =>
      let '(prio, g) := uniform_uint32 g in
      (Ok (Node Null Null 0 0 prio (replicate (Z.to_nat buffer_size) 0)), g)
  | _ => (Ok p, g)
  end.

(** The memmove and memcpy of insert *)
Definition store_at (index : Z) (src : list Z) (size : Z) (buf : list Z) : result (list Z) :=
  moved ← span_read index (size - index) buf;
  buf ← span_write (index + zlen src) moved buf;
  span_write index src buf.

(** The body of Rope::insert below the allocation; [ins] is the recursive call,
    and [str] is the bytes [buffer, buffer + size). *)
Definition insert_body (ins : rep → Z → list Z → ST G rep) (p : rep) (index : Z) (str : list Z) :
    ST G rep :=
  match p with
  | Null => crash
  | Node l r lsize size prio buf =>
      if index <? lsize then
        let* l := ins l index str in
        st_lift (balance_left (Node l r (u64 (lsize + zlen str)) size prio buf))
      else
        let index := index - lsize in
        if size <? index then
          let* r := ins r (index - size) str in
          st_lift (balance_right (Node l r lsize size prio buf))
        else if buffer_size <? u64 (size + zlen str) then
          let new_rep_size := u64 (Z.max buffer_size (u64 (index + zlen str)) - zlen str) in
          let* tail := st_lift (span_read new_rep_size (size - new_rep_size) buf) in
          let* r := ins r 0 tail in
          let size := u32 new_rep_size in
          if buffer_size <? u64 (index + zlen str) then
            let new_size := u64 (buffer_size - index) in
            let* rest := st_lift (span_read new_size (zlen str - new_size) str) in
            let* r := ins r 0 rest in
            let* str := st_lift (span_read 0 new_size str) in
            let* buf := st_lift (store_at index str size buf) in
            st_lift (balance_right (Node l r lsize (u32 (size + zlen str)) prio buf))
          else
            let* buf := st_lift (store_at index str size buf) in
            st_lift (balance_right (Node l r lsize (u32 (size + zlen str)) prio buf))
        else
          let* buf := st_lift (store_at index str size buf) in
          st_lift (balance_right (Node l r lsize (u32 (size + zlen str)) prio buf))
  end.

(** Rope::insert on a Rep *)
Fixpoint insert (fuel : nat) (p : rep) (index : Z) (str : list Z) : ST G rep :=
  match fuel with
  | O => st_lift Hang
  | S fuel =>
      let* p := allocate p in
      insert_body (insert fuel) p index str
  end.
End rope.

(** The end of erase *)
Definition erase_out (p : rep) : result rep :=
  match p with
  | Null => Crash
  | Node l r _ size _ _ => if size =? 0 then merge l r else Ok p
  end.

(** The first part of erase: [rec] erases from the left child.  The results are
    lchild, lsize, what index and size become, and whether it jumps to the end. *)
Definition erase_left (rec : Z → Z → result rep) (l : rep) (lsize index size : Z) :
    result (rep * Z * Z * Z * bool) :=
  if index <? lsize then
    let erase_size := Z.min size (lsize - index) in
    l ← rec index erase_size;
    Ok (l, u64 (lsize - erase_size), 0, size - erase_size, size - erase_size =? 0)
  else Ok (l, lsize, index - lsize, size, false).

(** The second part of erase *)
Definition erase_buffer (buf : list Z) (psize index size : Z) :
    result (list Z * Z * Z * Z * bool) :=
  if index <? psize then
    let erase_size := Z.min size (psize - index) in
    moved ← span_read (index + erase_size) (psize - (index + erase_size)) buf;
    buf ← span_write index moved buf;
    Ok (buf, u32 (psize - erase_size), 0, size - erase_size, size - erase_size =? 0)
  else Ok (buf, psize, index - psize, size, false).

(** Rope::erase on a Rep *)
Fixpoint erase (p : rep) (index size : Z) : result rep :=
  match p with
  | Null => Crash
  | Node l r lsize psize prio buf =>
      '(l, lsize, index, size, out) ← erase_left (erase l) l lsize index size;
      if out : bool then erase_out (Node l r lsize psize prio buf)
      else
        '(buf, psize, index, size, out) ← erase_buffer buf psize index size;
        if out : bool then erase_out (Node l r lsize psize prio buf)
        else
          r ← erase r index size;
          erase_out (Node l r lsize psize prio buf)
  end.

(** The parts of copy on the left child and on the buffer: the bytes stored, what
    index and size become, and whether it returns. *)
Definition copy_part (rec : Z → Z → result (list Z)) (part_size index size : Z) :
    result (list Z * Z * Z * bool) :=
  if index <? part_size then
    let get_size := Z.min size (part_size - index) in
    bs ← rec index get_size;
    Ok (bs, 0, size - get_size, size - get_size =? 0)
  else Ok ([], index - part_size, size, false).

(** Rope::copy on a Rep: the bytes stored at dest *)
Fixpoint copy (p : rep) (index size : Z) : result (list Z) :=
  match p with
  | Null => Crash
  | Node l r lsize psize prio buf =>
      '(bs1, index, size, out) ← copy_part (copy l) lsize index size;
      if out : bool then Ok bs1
      else
        '(bs2, index, size, out) ← copy_part (λ i n, span_read i n buf) psize index size;
        if out : bool then Ok (bs1 ++ bs2)
        else
          bs3 ← copy r index size;
          Ok (bs1 ++ bs2 ++ bs3)
  end.

Fixpoint nodes (p : rep) : nat :=
  match p with
  | Null => O
  | Node l r _ _ _ _ => S (nodes l + nodes r)
  end.

Record Rope (G : Type) : Type := { rep_ : rep; gen_ : G }.
Arguments rep_ {G}.
Arguments gen_ {G}.

Section operations.
Context {G : Type} `{!BitGen G}.

(** A default-constructed Rope *)
Definition make (g : G) : Rope G := {| rep_ := Null; gen_ := g |}.

Definition insert_fuel (p : rep) (str : list Z) : nat := (nodes p + length str + 2)%nat.

(** The public members: rep_ is moved from, so it is null when they do not return. *)
Definition rope_insert (index : Z) (str : list Z) : ST (Rope G) unit := λ rope,
  match insert (insert_fuel (rep_ rope) str) (rep_ rope) index str (gen_ rope) with
  | (Ok p, g) => (Ok tt, {| rep_ := p; gen_ := g |})
  | (Err e, g) => (Err e, {| rep_ := Null; gen_ := g |})
  | (Crash, g) => (Crash, {| rep_ := Null; gen_ := g |})
  | (Hang, g) => (Hang, {| rep_ := Null; gen_ := g |})
  end.

Definition rope_erase (index size : Z) : ST (Rope G) unit := λ rope,
  match erase (rep_ rope) index size with
  | Ok p => (Ok tt, {| rep_ := p; gen_ := gen_ rope |})
  | Err e => (Err e, {| rep_ := Null; gen_ := gen_ rope |})
  | Crash => (Crash, {| rep_ := Null; gen_ := gen_ rope |})
  | Hang => (Hang, {| rep_ := Null; gen_ := gen_ rope |})
  end.

Definition rope_copy (index size : Z) : ST (Rope G) (list Z) := λ rope,
  (copy (rep_ rope) index size, rope).
End operations.

(** ** The string of a rope *)

Fixpoint flatten (p : rep) : list Z :=
  match p with
  | Null => []
  | Node l r _ size _ buf => flatten l ++ take (Z.to_nat size) buf ++ flatten r
  end.

(** lsize is the size of the left subtree, and the buffer holds [size] bytes. *)
Fixpoint wf (p : rep) : Prop :=
  match p with
  | Null => True
  | Node l r lsize size _ buf =>
      wf l ∧ wf r ∧ lsize = zlen (flatten l) ∧ 0 ≤ size ≤ buffer_size ∧ zlen buf = buffer_size
  end.

Definition bounded (p : rep) : Prop := zlen (flatten p) < 2 ^ 63.

(** [p'] holds the same string in as many nodes. *)
Definition alike (p p' : rep) : Prop :=
  wf p' ∧ flatten p' = flatten p ∧ nodes p' = nodes p.

Lemma flatten_length l r lsize size prio buf :
  wf (Node l r lsize size prio buf) →
  zlen (flatten (Node l r lsize size prio buf)) = lsize + size + zlen (flatten r).
Proof.
  intros (_ & _ & -> & Hs & Hb). simpl. rewrite !zlen_app. unfold zlen in *.
  rewrite length_take. lia.
Qed.

Lemma alike_trans p1 p2 p3 : alike p1 p2 → alike p2 p3 → alike p1 p3.
Proof. unfold alike. intuition congruence. Qed.

Lemma rotate_left_ok l r lsize size prio buf :
  wf (Node l r lsize size prio buf) → bounded (Node l r lsize size prio buf) → r ≠ Null →
  ∃ p', rotate_left (Node l r lsize size prio buf) = Ok p' ∧
    alike (Node l r lsize size prio buf) p'.
Proof.
  intros Hwf Hb Hr. unfold bounded in Hb. rewrite flatten_length in Hb by done.
  destruct Hwf as (Hl & Hr' & -> & Hs & Hbuf). destruct r as [|pl pr plsize psize pprio pbuf]; [done|].
  rewrite flatten_length in Hb by done. destruct Hr' as (Hpl & Hpr & -> & Hps & Hpb).
  pose proof (zlen_nonneg (flatten l)). pose proof (zlen_nonneg (flatten pl)).
  pose proof (zlen_nonneg (flatten pr)).
  eexists. split; [done|]. unfold alike. cbn [wf flatten nodes].
  rewrite (uwrap_id 64 (_ + size)) by (unfold in_u; lia). rewrite uwrap_id by (unfold in_u; lia).
  split_and!; try done; try lia; [|by rewrite <- !(assoc_L (++))].
  rewrite !zlen_app. unfold zlen in *. rewrite length_take. lia.
Qed.

Lemma rotate_right_ok l r lsize size prio buf :
  wf (Node l r lsize size prio buf) → bounded (Node l r lsize size prio buf) → l ≠ Null →
  ∃ p', rotate_right (Node l r lsize size prio buf) = Ok p' ∧
    alike (Node l r lsize size prio buf) p'.
Proof.
  intros Hwf Hb Hl. unfold bounded in Hb. rewrite flatten_length in Hb by done.
  destruct Hwf as (Hl' & Hr & -> & Hs & Hbuf). destruct l as [|pl pr plsize psize pprio pbuf]; [done|].
  rewrite flatten_length in Hb by done.
  assert (zlen (flatten (Node pl pr plsize psize pprio pbuf)) = plsize + psize + zlen (flatten pr))
    as Hlen by (by apply flatten_length).
  destruct Hl' as (Hpl & Hpr & -> & Hps & Hpb).
  pose proof (zlen_nonneg (flatten r)). pose proof (zlen_nonneg (flatten pl)).
  pose proof (zlen_nonneg (flatten pr)).
  eexists. split; [done|]. unfold alike. rewrite Hlen. cbn [wf flatten nodes].
  rewrite (uwrap_id 64 (_ + psize)) by (unfold in_u; lia). rewrite uwrap_id by (unfold in_u; lia).
  split_and!; try done; try lia; by rewrite <- !(assoc_L (++)).
Qed.

(** Replacing the subtrees by like ones. *)
Lemma alike_node l l' r r' lsize size prio buf :
  wf (Node l r lsize size prio buf) → alike l l' → alike r r' →
  alike (Node l r lsize size prio buf) (Node l' r' lsize size prio buf).
Proof.
  intros (Hl & Hr & -> & Hs & Hb) (Hl' & Hfl & Hnl) (Hr' & Hfr & Hnr). unfold alike. simpl.
  by rewrite Hfl, Hfr, Hnl, Hnr.
Qed.

Lemma alike_refl p : wf p → alike p p.
Proof. by unfold alike. Qed.

Lemma alike_not_null p p' : alike p p' → p ≠ Null → p' ≠ Null.
Proof. intros (_ & _ & Hn) Hp ->. by destruct p. Qed.

Lemma alike_bounded p p' : alike p p' → bounded p → bounded p'.
Proof. unfold bounded. by intros (_ & -> & _). Qed.

Lemma balance_right_ok p :
  wf p → bounded p → p ≠ Null → ∃ p', balance_right p = Ok p' ∧ alike p p'.
Proof.
  induction p as [|l _ r IH lsize size prio buf]; [done|]. intros Hwf Hb _. cbn [balance_right].
  destruct r as [|rl rr rls rs rp rb] eqn:Er; [eauto using alike_refl|]. rewrite <- Er in *.
  destruct IH as (r' & Hr' & Ha); [apply Hwf| |by subst|].
  { unfold bounded in *. rewrite flatten_length in Hb by done. destruct Hwf as (_ & _ & -> & Hs & _).
    pose proof (zlen_nonneg (flatten l)). lia. }
  rewrite Hr'. cbn [mbind result_bind].
  assert (alike (Node l r lsize size prio buf) (Node l r' lsize size prio buf)) as Ha'
    by (apply alike_node; [done|apply alike_refl, Hwf|done]).
  destruct r' as [|rl' rr' rls' rs' rp' rb'] eqn:Er'; [by apply alike_not_null in Ha; [|subst]|].
  rewrite <- Er' in *. destruct (prio <? rp'); [|eauto].
  destruct (rotate_left_ok l r' lsize size prio buf) as (p' & ? & ?);
    [apply Ha'|by eapply alike_bounded|by subst|]. eauto using alike_trans.
Qed.

Lemma balance_left_ok p :
  wf p → bounded p → p ≠ Null → ∃ p', balance_left p = Ok p' ∧ alike p p'.
Proof.
  induction p as [|l IH r _ lsize size prio buf]; [done|]. intros Hwf Hb _. cbn [balance_left].
  destruct l as [|ll lr lls ls lp lb] eqn:El; [eauto using alike_refl|]. rewrite <- El in *.
  destruct IH as (l' & Hl' & Ha); [apply Hwf| |by subst|].
  { unfold bounded in *. rewrite flatten_length in Hb by done. destruct Hwf as (_ & _ & -> & Hs & _).
    pose proof (zlen_nonneg (flatten r)). lia. }
  rewrite Hl'. cbn [mbind result_bind].
  assert (alike (Node l r lsize size prio buf) (Node l' r lsize size prio buf)) as Ha'
    by (apply alike_node; [done|done|apply alike_refl, Hwf]).
  destruct l' as [|ll' lr' lls' ls' lp' lb'] eqn:El'; [by apply alike_not_null in Ha; [|subst]|].
  rewrite <- El' in *. destruct (prio <? lp'); [|eauto].
  destruct (rotate_right_ok l' r lsize size prio buf) as (p' & ? & ?);
    [apply Ha'|by eapply alike_bounded|by subst|]. eauto using alike_trans.
Qed.

(** ** Insertion into a list *)

Definition insert_list (index : Z) (str l : list Z) : list Z :=
  take (Z.to_nat index) l ++ str ++ drop (Z.to_nat index) l.

Lemma insert_list_l index str a b :
  index ≤ zlen a → insert_list index str (a ++ b) = insert_list index str a ++ b.
Proof.
  intros. unfold insert_list, zlen in *. rewrite take_app_le, drop_app_le by lia.
  by rewrite <- !(assoc_L (++)).
Qed.

Lemma insert_list_r index str a b :
  zlen a ≤ index → insert_list index str (a ++ b) = a ++ insert_list (index - zlen a) str b.
Proof.
  intros. unfold insert_list, zlen in *. rewrite take_app_ge, drop_app_ge by lia.
  replace (Z.to_nat (index - Z.of_nat (length a))) with (Z.to_nat index - length a)%nat by lia.
  by rewrite <- !(assoc_L (++)).
Qed.

Lemma insert_list_0 str l : insert_list 0 str l = str ++ l.
Proof. done. Qed.

Lemma insert_list_end str l : insert_list (zlen l) str l = l ++ str.
Proof. unfold insert_list, zlen. by rewrite Nat2Z.id, firstn_all, drop_all, app_nil_r. Qed.

Lemma insert_list_length index str l : zlen (insert_list index str l) = zlen l + zlen str.
Proof. unfold insert_list, zlen. rewrite !length_app, length_take, length_drop. lia. Qed.

(** The memmove and the memcpy insert [str] into the used part of the buffer. *)
Lemma store_at_ok index str size buf :
  0 ≤ index ≤ size → size + zlen str ≤ zlen buf →
  ∃ buf', store_at index str size buf = Ok buf' ∧ zlen buf' = zlen buf ∧
    take (Z.to_nat (size + zlen str)) buf' = insert_list index str (take (Z.to_nat size) buf).
Proof.
  intros Hi Hs. pose proof (zlen_nonneg str).
  set (a := take (Z.to_nat index) buf). set (b := slice index (size - index) buf).
  assert (zlen a = index) as Ha by (unfold a, zlen in *; rewrite length_take; lia).
  assert (zlen b = size - index) as Hb by (apply zlen_slice; lia).
  assert (take (Z.to_nat size) buf = a ++ b) as Hc.
  { unfold a, b, slice. rewrite take_take_drop. f_equal. lia. }
  unfold store_at, span_read. rewrite !(proj2 (Z.leb_le _ _)) by lia. fold b. cbn [andb mbind result_bind].
  rewrite span_write_ok by lia. cbn [mbind result_bind].
  set (w := slice index (zlen str) buf). set (y := slice (index + zlen str) (size - index) buf).
  set (z := drop (Z.to_nat (size + zlen str)) buf).
  assert (zlen w = zlen str) as Hw by (apply zlen_slice; lia).
  assert (zlen y = zlen b) as Hy by (unfold y; rewrite zlen_slice; lia).
  assert (buf = (a ++ w) ++ y ++ z) as Hbuf.
  { unfold a, w, y, z, slice.
    rewrite take_take_drop, (assoc_L (++)), <- (take_drop (Z.to_nat (size + zlen str)) buf) at 1.
    f_equal. replace (Z.to_nat index + Z.to_nat (zlen str))%nat with (Z.to_nat (index + zlen str)) by lia.
    rewrite take_take_drop. f_equal. lia. }
  assert (splice (index + zlen str) b buf = (a ++ w) ++ b ++ z) as ->.
  { clearbody a b w y z. rewrite Hbuf. apply splice_mid; [rewrite zlen_app|unfold zlen in *]; lia. }
  rewrite <- (assoc_L (++) a w), span_write_ok.
  2: { lia. }
  2: { rewrite !zlen_app. pose proof (zlen_nonneg z). lia. }
  rewrite splice_mid by (unfold zlen in *; lia). eexists. split; [done|].
  assert (length (a ++ str ++ b) = Z.to_nat (size + zlen str)) as Hl
    by (rewrite !length_app; unfold zlen in *; lia).
  split.
  - rewrite Hbuf, !zlen_app. lia.
  - rewrite Hc, insert_list_l, <- Ha, insert_list_end, <- Hl by lia.
    rewrite (assoc_L (++) str b z), (assoc_L (++) a (str ++ b) z), take_app_length.
    by rewrite (assoc_L (++)).
Qed.

(** ** Insertion into a rope *)

(** How many nodes an insertion of [n] bytes may add. *)
Definition new_nodes (p : rep) (index : Z) (n : nat) : nat :=
  match p with
  | Null => Nat.max 1 n
  | _ => (n + if (index =? 0)%Z then 0 else 1)%nat
  end.

Definition inserted (p : rep) (index : Z) (str : list Z) (p' : rep) : Prop :=
  wf p' ∧ p' ≠ Null ∧ flatten p' = insert_list index str (flatten p) ∧
  (nodes p' ≤ nodes p + new_nodes p index (length str))%nat.

Section insert_proof.
Context {G : Type} `{!BitGen G}.
Implicit Types ins : rep → Z → list Z → ST G rep.

Definition insert_ok ins (p : rep) (index : Z) (str : list Z) : Prop :=
  ∀ g, ∃ p' g', ins p index str g = (Ok p', g') ∧ inserted p index str p'.

(** The last steps of insert: the bytes fit into the buffer. *)
Lemma insert_store l r lsize size prio buf index str (g : G) :
  wf (Node l r lsize size prio buf) → 0 ≤ index ≤ size → size + zlen str ≤ buffer_size →
  lsize + size + zlen str + zlen (flatten r) < 2 ^ 63 →
  ∃ p', (let* buf := (st_lift (store_at index str size buf) : ST G _) in
         st_lift (balance_right (Node l r lsize (u32 (size + zlen str)) prio buf))) g = (Ok p', g) ∧
    wf p' ∧ nodes p' = S (nodes l + nodes r) ∧
    flatten p' =
      flatten l ++ insert_list index str (take (Z.to_nat size) buf) ++ flatten r.
Proof.
  intros (Hl & Hr & -> & Hs & Hb) Hi Hsz Hbnd. pose proof (zlen_nonneg str).
  destruct (store_at_ok index str size buf) as (buf' & Hst & Hlen & Htake); [done|lia|].
  st_lift_step ltac:(exact Hst). unfold buffer_size in *.
  rewrite uwrap_id by (unfold in_u; lia).
  set (p := Node l r _ _ prio buf').
  assert (wf p) as Hwf by (unfold buffer_size; simpl; unfold buffer_size; split_and!; try done; lia).
  destruct (balance_right_ok p Hwf) as (p' & Hbal & Hwf' & Hfl & Hn); [|done|].
  { unfold bounded, p. rewrite flatten_length by done. lia. }
  exists p'. unfold st_lift. rewrite Hbal, Hfl, Hn. split_and!; try done.
  unfold p. simpl. by rewrite Htake.
Qed.

(** index is in the left subtree. *)
Lemma insert_left ins l r lsize size prio buf index str g :
  wf (Node l r lsize size prio buf) → 0 ≤ index < lsize →
  lsize + size + zlen (flatten r) + zlen str < 2 ^ 63 → insert_ok ins l index str →
  ∃ p' g', insert_body ins (Node l r lsize size prio buf) index str g = (Ok p', g') ∧
    inserted (Node l r lsize size prio buf) index str p'.
Proof.
  intros Hwf Hi Hb HL. cbn [insert_body]. rewrite (proj2 (Z.ltb_lt _ _)) by lia.
  destruct (HL g) as (l' & g' & Hins & Hwl' & Hne & Hfl & Hnl). rewrite (st_bind_ok _ _ _ _ _ Hins).
  destruct Hwf as (Hwl & Hwr & -> & Hs & Hbuf). pose proof (zlen_nonneg str).
  pose proof (zlen_nonneg (flatten l)). pose proof (zlen_nonneg (flatten r)).
  rewrite uwrap_id by (unfold in_u; lia). set (p1 := Node l' r _ size prio buf).
  assert (wf p1) as Hwf1 by (simpl; rewrite Hfl, insert_list_length; done).
  destruct (balance_left_ok p1 Hwf1) as (p' & Hbal & Hwf' & Hfl' & Hn); [|done|].
  { unfold bounded, p1. rewrite flatten_length by done. lia. }
  exists p', g'. unfold st_lift. rewrite Hbal. split; [done|]. split_and!; [done| | |].
  - by intros ->.
  - rewrite Hfl'. simpl. rewrite Hfl, insert_list_l by lia. done.
  - rewrite Hn. destruct l; [unfold zlen in *; simpl in *; lia|]. simpl in *. lia.
Qed.

(** index is in the right subtree. *)
Lemma insert_right ins l r lsize size prio buf index str g :
  wf (Node l r lsize size prio buf) →
  lsize + size < index ≤ lsize + size + zlen (flatten r) →
  lsize + size + zlen (flatten r) + zlen str < 2 ^ 63 →
  insert_ok ins r (index - lsize - size) str →
  ∃ p' g', insert_body ins (Node l r lsize size prio buf) index str g = (Ok p', g') ∧
    inserted (Node l r lsize size prio buf) index str p'.
Proof.
  intros Hwf Hi Hb HL. pose proof Hwf as (Hwl & Hwr & Hls & Hs & Hbuf).
  pose proof (zlen_nonneg str). pose proof (zlen_nonneg (flatten l)). cbn [insert_body].
  rewrite (proj2 (Z.ltb_ge _ _)), (proj2 (Z.ltb_lt _ _)) by lia.
  destruct (HL g) as (r' & g' & Hins & Hwr' & Hne & Hfl & Hnr). rewrite (st_bind_ok _ _ _ _ _ Hins).
  set (p1 := Node l r' _ size prio buf). assert (wf p1) as Hwf1 by done.
  destruct (balance_right_ok p1 Hwf1) as (p' & Hbal & Hwf' & Hfl' & Hn); [|done|].
  { unfold bounded, p1. rewrite flatten_length, Hfl, insert_list_length by done. lia. }
  exists p', g'. unfold st_lift. rewrite Hbal. split; [done|]. split_and!; [done| | |].
  - by intros ->.
  - rewrite Hfl'. simpl. rewrite Hfl. unfold zlen in *.
    rewrite !insert_list_r by (unfold zlen; rewrite ?length_take; lia).
    do 3 f_equal. unfold zlen. rewrite length_take. lia.
  - rewrite Hn. destruct r; [unfold zlen in *; simpl in *; lia|]. simpl in *.
    destruct (Z.eqb_spec (index - lsize - size) 0), (Z.eqb_spec index 0); lia.
Qed.

(** The string that an insertion into the buffer of a node must give. *)
Lemma insert_list_middle l r lsize size prio buf index str :
  wf (Node l r lsize size prio buf) → lsize ≤ index ≤ lsize + size →
  insert_list index str (flatten (Node l r lsize size prio buf)) =
  flatten l ++ insert_list (index - lsize) str (take (Z.to_nat size) buf) ++ flatten r.
Proof.
  intros (_ & _ & -> & Hs & Hb) Hi. simpl. rewrite insert_list_r by lia. f_equal.
  apply insert_list_l. unfold zlen in *. rewrite length_take. lia.
Qed.

(** A suffix of the buffer moves to the right subtree. *)
Lemma insert_list_split i str (c : list Z) m :
  0 ≤ i ≤ m → m ≤ zlen c →
  insert_list i str c = insert_list i str (take (Z.to_nat m) c) ++ drop (Z.to_nat m) c.
Proof.
  intros. rewrite <- (take_drop (Z.to_nat m) c) at 1. apply insert_list_l.
  unfold zlen in *. rewrite length_take. lia.
Qed.

(** The buffer is filled up, and the rest of [str] goes to the right subtree. *)
Lemma insert_rest ins l r lsize i prio buf str g :
  wf (Node l r lsize i prio buf) → buffer_size < i + zlen str →
  lsize + i + zlen str + zlen (flatten r) < 2 ^ 63 →
  (∀ rest, zlen rest = zlen str - (buffer_size - i) → insert_ok ins r 0 rest) →
  ∃ p' g', (let* rest := st_lift (span_read (u64 (buffer_size - i))
                                    (zlen str - u64 (buffer_size - i)) str) in
            let* r := ins r 0 rest in
            let* str := st_lift (span_read 0 (u64 (buffer_size - i)) str) in
            let* buf := st_lift (store_at i str i buf) in
            st_lift (balance_right (Node l r lsize (u32 (i + zlen str)) prio buf))) g = (Ok p', g') ∧
    wf p' ∧ flatten p' = flatten l ++ insert_list i str (take (Z.to_nat i) buf) ++ flatten r ∧
    p' ≠ Null ∧
    (nodes p' ≤ S (nodes l + nodes r) + new_nodes r 0 (length str - Z.to_nat (buffer_size - i)))%nat.
Proof.
  intros Hwf Hover Hb HU. pose proof Hwf as (Hwl & Hwr & Hls & Hs & Hbuf).
  pose proof (zlen_nonneg (flatten l)). pose proof (zlen_nonneg (flatten r)).
  assert (u64 (buffer_size - i) = buffer_size - i) as ->
    by (apply uwrap_id; unfold in_u, buffer_size in *; lia).
  set (k := buffer_size - i) in *. assert (0 ≤ k < zlen str) as Hk by lia.
  assert (zlen (drop (Z.to_nat k) str) = zlen str - k) as Hrest
    by (unfold zlen in *; rewrite length_drop; lia).
  assert (zlen (take (Z.to_nat k) str) = k) as Hfirst
    by (unfold zlen in *; rewrite length_take; lia).
  assert (span_read k (zlen str - k) str = Ok (drop (Z.to_nat k) str)) as Hr1.
  { unfold span_read. rewrite !(proj2 (Z.leb_le _ _)) by lia. simpl. f_equal.
    unfold slice. apply firstn_all2. unfold zlen in *. lia. }
  assert (span_read 0 k str = Ok (take (Z.to_nat k) str)) as Hr2.
  { unfold span_read. rewrite !(proj2 (Z.leb_le _ _)) by lia. done. }
  st_lift_step ltac:(exact Hr1).
  destruct (HU (drop (Z.to_nat k) str) Hrest g) as (r' & g' & Hins & Hwr' & Hne & Hf & Hn).
  rewrite (st_bind_ok _ _ _ _ _ Hins). rewrite insert_list_0 in Hf.
  st_lift_step ltac:(exact Hr2).
  destruct (insert_store l r' lsize i prio buf i (take (Z.to_nat k) str) g')
    as (p' & Hp' & Hw & Hn' & Hf'); [done|lia|lia|rewrite Hf, zlen_app; lia|].
  rewrite Hp'. exists p', g'. split_and!; [done|done| |by intros ->|].
  - rewrite Hf', Hf. set (c := take (Z.to_nat i) buf).
    assert (zlen c = i) as Hc by (unfold c, zlen in *; rewrite length_take; lia).
    rewrite <- Hc, !insert_list_end, <- !(assoc_L (++)). do 2 f_equal.
    by rewrite (assoc_L (++)), take_drop.
  - rewrite Hn'. rewrite length_drop in Hn. lia.
Qed.

(** The bytes behind [m] that a full node gives away *)
Lemma overflow_tail size (buf : list Z) m :
  0 ≤ m ≤ size → size ≤ zlen buf →
  let c := take (Z.to_nat size) buf in
  zlen c = size ∧ zlen (drop (Z.to_nat m) c) = size - m ∧
  take (Z.to_nat m) c = take (Z.to_nat m) buf ∧
  span_read m (size - m) buf = Ok (drop (Z.to_nat m) c).
Proof.
  intros Hm Hs c. assert (zlen c = size) as Hc by (unfold c, zlen in *; rewrite length_take; lia).
  split_and!; [done|unfold zlen in *; rewrite length_drop; lia|unfold c; rewrite take_take; f_equal; lia|].
  unfold span_read. rewrite !(proj2 (Z.leb_le _ _)) by lia. simpl. f_equal.
  unfold slice, c. rewrite skipn_firstn_comm. f_equal. lia.
Qed.

(** The nodes that an insertion with both a tail and a rest makes *)
Lemma insert_rest_nodes l r r' p' lsize size prio buf index i tail (str : list Z) :
  inserted r 0 tail r' → zlen tail = size - i → 0 ≤ i ≤ size → 0 ≤ size ≤ buffer_size → i ≤ index →
  buffer_size < i + zlen str →
  (nodes p' ≤ S (nodes l + nodes r') + new_nodes r' 0 (length str - Z.to_nat (buffer_size - i)))%nat →
  (nodes p' ≤ nodes (Node l r lsize size prio buf) +
     new_nodes (Node l r lsize size prio buf) index (length str))%nat ∧
  (l = Null → r = Null → (size = 0)%Z → nodes p' ≤ Nat.max 1 (length str))%nat.
Proof.
  intros (_ & Hne' & _ & Hnr') Htl Hi Hs Hidx Hover Hn. unfold buffer_size in *.
  assert (nodes r' ≤ nodes r + Nat.max 1 (length tail))%nat by (destruct r; simpl in *; lia).
  assert (nodes p' ≤ S (nodes l + nodes r') + (length str - Z.to_nat (4096 - i)))%nat
    by (destruct r'; [done|simpl in *; lia]).
  unfold zlen in *. split.
  - cbn [nodes new_nodes]. destruct (Z.eqb_spec index 0); lia.
  - intros -> -> ->. simpl in *. lia.
Qed.

Lemma insert_middle ins l r lsize size prio buf index str g :
  wf (Node l r lsize size prio buf) → lsize ≤ index ≤ lsize + size →
  lsize + size + zlen (flatten r) + zlen str < 2 ^ 63 →
  (∀ tail, zlen tail ≤ size → zlen tail ≤ zlen str → buffer_size < size + zlen str →
     insert_ok ins r 0 tail) →
  (∀ r' tail rest, inserted r 0 tail r' → zlen tail = size - (index - lsize) →
     zlen rest = zlen str - (buffer_size - (index - lsize)) → 0 < zlen rest →
     insert_ok ins r' 0 rest) →
  ∃ p' g', insert_body ins (Node l r lsize size prio buf) index str g = (Ok p', g') ∧
    inserted (Node l r lsize size prio buf) index str p' ∧
    (l = Null → r = Null → (size = 0)%Z → nodes p' ≤ Nat.max 1 (length str))%nat.
Proof.
  intros Hwf Hi Hb HT HU. pose proof Hwf as (Hwl & Hwr & Hls & Hs & Hbuf).
  pose proof (zlen_nonneg str). pose proof (zlen_nonneg (flatten l)).
  pose proof (zlen_nonneg (flatten r)). cbn [insert_body].
  rewrite (proj2 (Z.ltb_ge index _)), (proj2 (Z.ltb_ge size _)) by lia.
  unfold inserted. rewrite insert_list_middle by done. set (i := index - lsize) in *.
  unfold buffer_size in *. rewrite (uwrap_id 64 (size + zlen str)) by (unfold in_u; lia).
  rewrite (uwrap_id 64 (i + zlen str)) by (unfold in_u; lia).
  destruct (Z.ltb_spec 4096 (size + zlen str)) as [Hover|Hfit].
  - set (m := Z.max 4096 (i + zlen str) - zlen str).
    rewrite (uwrap_id 64 m) by (unfold in_u, m; lia).
    assert (0 ≤ m ≤ size ∧ i ≤ m) as [Hm Him] by lia.
    assert (u32 m = m) as -> by (apply uwrap_id; unfold in_u; lia).
    destruct (overflow_tail size buf m) as (Hc & Htl & Htake & Hread); [lia|lia|].
    set (c := take (Z.to_nat size) buf) in *. set (tail := drop (Z.to_nat m) c) in *.
    st_lift_step ltac:(exact Hread).
    destruct (HT tail) with (g := g) as (r' & g' & Hins & Hr'); [lia..|].
    rewrite (st_bind_ok _ _ _ _ _ Hins). pose proof Hr' as (Hwr' & Hne' & Hfr' & Hnr').
    rewrite insert_list_0 in Hfr'.
    assert (wf (Node l r' lsize m prio buf)) as Hwf'
      by (simpl; unfold buffer_size; split_and!; done || lia).
    rewrite (insert_list_split i str c m) by lia. fold tail. rewrite Htake.
    destruct (Z.ltb_spec 4096 (i + zlen str)) as [Hboth|Hone].
    + assert (m = i) as Hmi by lia. rewrite Hmi in *.
      destruct (insert_rest ins l r' lsize i prio buf str g') as (p' & g'' & Hp' & Hw & Hf & Hne & Hn);
        [done|done|rewrite Hfr', zlen_app; lia| |].
      { intros rest Hrest. apply (HU r' tail); unfold buffer_size in *; try done; lia. }
      unfold buffer_size in Hp'. rewrite Hp'. exists p', g''. split; [done|].
      destruct (insert_rest_nodes l r r' p' lsize size prio buf index i tail str Hr' Htl Hm Hs ltac:(lia) Hboth Hn) as [??].
      split_and!; [done|done|rewrite Hf, Hfr'; by rewrite <- !(assoc_L (++))|done|done].
    + destruct (insert_store l r' lsize m prio buf i str g' Hwf') as (p' & Hp' & Hw & Hn & Hf);
        [lia|unfold buffer_size; lia|rewrite Hfr', zlen_app; lia|].
      rewrite Hp'. exists p', g'. split; [done|].
      assert (nodes r' ≤ nodes r + length str)%nat.
      { unfold zlen in *. destruct r; simpl in *; lia. }
      split_and!; [done|by intros ->|rewrite Hf, Hfr'; by rewrite <- !(assoc_L (++))|simpl; lia|].
      intros -> -> ->. lia.
  - destruct (insert_store l r lsize size prio buf i str g Hwf) as (p' & Hp' & Hw & Hn & Hf);
      [lia|unfold buffer_size; lia|lia|].
    rewrite Hp'. exists p', g. split; [done|].
    split_and!; [done|by intros ->|by rewrite Hf|simpl; lia|]. intros -> -> _. simpl in Hn. lia.
Qed.

Definition place (index : Z) : nat := if index =? 0 then 0 else 1.

(** An insertion of [tail] into the right subtree leaves room for that of [rest]. *)
Lemma inserted_nodes r tail r' :
  inserted r 0 tail r' → (nodes r' ≤ nodes r + Nat.max 1 (length tail))%nat.
Proof. intros (_ & _ & _ & Hn). destruct r; simpl in *; lia. Qed.

Lemma insert_enough fuel p index str :
  wf p → 0 ≤ index ≤ zlen (flatten p) → zlen (flatten p) + zlen str < 2 ^ 63 →
  (nodes p + length str + place index < fuel)%nat →
  insert_ok (insert fuel) p index str.
Proof.
  revert p index str. induction fuel as [|fuel IH]; intros p index str Hwf Hi Hb Hf g; [lia|].
  cbn [insert]. pose proof (zlen_nonneg str).
  destruct p as [|l r lsize size prio buf].
  - assert (index = 0) as -> by (unfold zlen in Hi; simpl in Hi; lia).
    unfold allocate, st_bind. destruct (uniform_uint32 g) as [prio g1].
    set (buf := replicate _ 0).
    destruct (insert_middle (insert fuel) Null Null 0 0 prio buf 0 str g1)
      as (p' & g' & Hins & (Hw & Hne & Hfl & _) & Hn).
    + by split_and!.
    + lia.
    + simpl in *. lia.
    + intros tail Ht _ Hbig. unfold buffer_size, zlen, place in *. simpl in *. apply IH; unfold zlen; simpl; done || lia.
    + intros r' tail rest Hr' Ht Hrest Hpos. pose proof (inserted_nodes _ _ _ Hr').
      destruct Hr' as (? & ? & Hfl & _). rewrite insert_list_0 in Hfl.
      unfold buffer_size, zlen, place in *. simpl in *.
      apply IH; unfold zlen; rewrite ?Hfl, ?length_app; simpl; try done; lia.
    + exists p', g'. rewrite Hins. split; [done|]. split_and!; try done. simpl. by apply Hn.
  - unfold allocate. rewrite (st_bind_ok _ _ _ (Node l r lsize size prio buf) g) by done.
    rewrite flatten_length in Hi, Hb by done. pose proof Hwf as (Hwl & Hwr & Hls & Hs & Hbuf).
    pose proof (zlen_nonneg (flatten l)). pose proof (zlen_nonneg (flatten r)).
    cbn [nodes] in Hf. destruct (Z.lt_ge_cases index lsize).
    { apply insert_left; [done|lia|lia|]. apply IH; try done; lia. }
    destruct (Z.lt_ge_cases (lsize + size) index).
    { apply insert_right; [done|lia|lia|]. apply IH; [done|lia|lia|].
      unfold place in *. destruct (Z.eqb_spec index 0), (Z.eqb_spec (index - lsize - size) 0); lia. }
    destruct (insert_middle (insert fuel) l r lsize size prio buf index str g)
      as (p' & g' & ? & ? & _); [done|lia|lia|..|by exists p', g'].
    + intros tail Ht1 Ht2 _. apply IH; [done|lia|lia|]. unfold place, zlen in *. simpl. lia.
    + intros r' tail rest Hr' Ht Hrest Hpos. pose proof (inserted_nodes _ _ _ Hr').
      destruct Hr' as (? & ? & Hfl & _). rewrite insert_list_0 in Hfl.
      unfold buffer_size, place in *. apply IH; rewrite ?Hfl, ?zlen_app; [done|lia|lia|].
      unfold zlen in *. simpl. destruct (Z.eqb_spec index 0); lia.
Qed.
End insert_proof.

(** An insertion past the end never returns. *)
Lemma insert_past_end {G} `{!BitGen G} fuel p index str (g : G) :
  wf p → zlen (flatten p) < index → (insert fuel p index str g).1 = Hang.
Proof.
  revert p index g. induction fuel as [|fuel IH]; intros p index g Hwf Hi; [done|].
  assert (∀ l r lsize size prio buf g, wf (Node l r lsize size prio buf) →
    zlen (flatten (Node l r lsize size prio buf)) < index →
    (insert_body (insert fuel) (Node l r lsize size prio buf) index str g).1 = Hang) as Hbody.
  { intros l r lsize size prio buf g' Hwf' Hi'. rewrite flatten_length in Hi' by done.
    destruct Hwf' as (_ & Hr & -> & Hs & _). pose proof (zlen_nonneg (flatten r)).
    pose proof (zlen_nonneg (flatten l)). cbn [insert_body].
    rewrite (proj2 (Z.ltb_ge _ _)), (proj2 (Z.ltb_lt _ _)) by lia. unfold st_bind.
    specialize (IH r (index - zlen (flatten l) - size) g' Hr ltac:(lia)).
    destruct (insert fuel r _ str g') as [[] ?]; simpl in *; congruence. }
  cbn [insert]. unfold allocate, st_bind. destruct p as [|l r lsize size prio buf].
  - destruct (uniform_uint32 g) as [prio g']. apply Hbody; [by split_and!|done].
  - by apply Hbody.
Qed.

(** ** Erasing *)

Definition erase_list (index size : Z) (l : list Z) : list Z :=
  take (Z.to_nat index) l ++ drop (Z.to_nat (index + size)) l.

Lemma erase_list_l index size a b :
  0 ≤ index < zlen a → 0 ≤ size →
  erase_list index size (a ++ b) =
  erase_list index (Z.min size (zlen a - index)) a ++
  erase_list 0 (size - Z.min size (zlen a - index)) b.
Proof.
  intros Hi Hs. unfold erase_list. simpl take. simpl app. rewrite take_app_le by (unfold zlen in *; lia).
  rewrite <- (assoc_L (++)). f_equal. rewrite drop_app. f_equal.
  - destruct (Z.le_gt_cases size (zlen a - index)); [by rewrite Z.min_l by lia|].
    rewrite !drop_ge; unfold zlen in *; try done; lia.
  - f_equal. unfold zlen in *. lia.
Qed.

Lemma erase_list_r index size a b :
  zlen a ≤ index → 0 ≤ size →
  erase_list index size (a ++ b) = a ++ erase_list (index - zlen a) size b.
Proof.
  intros. pose proof (zlen_nonneg a). unfold erase_list.
  rewrite take_app_ge, drop_app_ge by (unfold zlen in *; lia).
  rewrite <- (assoc_L (++)). unfold zlen in *. do 3 f_equal; lia.
Qed.

Lemma erase_list_0 l : erase_list 0 0 l = l.
Proof. done. Qed.

Lemma erase_list_length index size l :
  0 ≤ index → 0 ≤ size → index + size ≤ zlen l → zlen (erase_list index size l) = zlen l - size.
Proof. intros. unfold erase_list, zlen in *. rewrite length_app, length_take, length_drop. lia. Qed.

Lemma merge_ok l r :
  wf l → wf r → zlen (flatten l) + zlen (flatten r) < 2 ^ 63 →
  ∃ p, merge l r = Ok p ∧ wf p ∧ flatten p = flatten l ++ flatten r.
Proof.
  intros Hl Hr. induction l as [|ll _ lr IH lsize size prio buf]; intros Hb; cbn [merge].
  { by exists r. }
  destruct r as [|rl rr rls rs rp rb] eqn:Er.
  { eexists. simpl. rewrite app_nil_r. done. }
  rewrite <- Er in *. rewrite flatten_length in Hb by done.
  pose proof Hl as (Hwl & Hwr & Hls & Hs & Hbuf). pose proof (zlen_nonneg (flatten ll)).
  destruct IH as (p1 & -> & Hw1 & Hf1); [done|lia|]. cbn [mbind result_bind].
  assert (wf (Node ll p1 lsize size prio buf)) as Hw by (by simpl).
  destruct (balance_right_ok _ Hw) as (p & -> & Hp & Hf & _); [|done|].
  { unfold bounded. rewrite flatten_length, Hf1, zlen_app by done. lia. }
  exists p. split_and!; [done..|]. rewrite Hf. simpl. by rewrite Hf1, <- !(assoc_L (++)).
Qed.

Lemma erase_out_ok l r lsize size prio buf :
  let p := Node l r lsize size prio buf in
  wf p → bounded p → ∃ p', erase_out p = Ok p' ∧ wf p' ∧ flatten p' = flatten p.
Proof.
  intros p Hwf Hb. unfold p, bounded in *. rewrite flatten_length in Hb by done.
  pose proof Hwf as (Hl & Hr & -> & Hs & _). cbn [erase_out].
  destruct (Z.eqb_spec size 0) as [->|]; [|by eexists].
  destruct (merge_ok l r) as (p' & ? & ? & ?); [done|done|lia|]. by exists p'.
Qed.

(** What is left of a range after a part of the string that it was applied to:
    the place [i] and the size [s] in the [rest], or nothing. *)
Definition remaining (out : bool) (i s : Z) (rest : list Z) : Prop :=
  0 ≤ i ∧ 0 ≤ s ∧
  if out then i = 0 ∧ s = 0 else i < zlen rest ∧ i + s ≤ zlen rest.

Lemma remaining_inside index size (a rest : list Z) :
  0 ≤ index < zlen a → 0 ≤ size → index + size ≤ zlen a + zlen rest →
  let n := Z.min size (zlen a - index) in
  remaining (size - n =? 0) 0 (size - n) rest.
Proof. intros Hi Hs Hle n. unfold remaining. destruct (Z.eqb_spec (size - n) 0); lia. Qed.

Lemma remaining_after index size (a rest : list Z) :
  zlen a ≤ index < zlen a + zlen rest → 0 ≤ size → index + size ≤ zlen a + zlen rest →
  remaining false (index - zlen a) size rest.
Proof. unfold remaining. lia. Qed.

Lemma erase_left_ok rec l rest index size :
  wf l → 0 ≤ index < zlen (flatten l) + zlen rest → 0 ≤ size →
  index + size ≤ zlen (flatten l) + zlen rest → zlen (flatten l) < 2 ^ 63 →
  (∀ n, 0 ≤ n → index + n ≤ zlen (flatten l) → index < zlen (flatten l) →
     ∃ l', rec index n = Ok l' ∧ wf l' ∧ flatten l' = erase_list index n (flatten l)) →
  ∃ l' i s out, erase_left rec l (zlen (flatten l)) index size = Ok (l', zlen (flatten l'), i, s, out) ∧
    wf l' ∧ remaining out i s rest ∧ zlen (flatten l') ≤ zlen (flatten l) ∧
    erase_list index size (flatten l ++ rest) = flatten l' ++ erase_list i s rest.
Proof.
  intros Hwl Hi Hs Hle Hb Hrec. unfold erase_left.
  destruct (Z.ltb_spec index (zlen (flatten l))) as [Hlt|Hge].
  - destruct (Hrec (Z.min size (zlen (flatten l) - index))) as (l' & -> & Hw & Hf); [lia..|].
    cbn [mbind result_bind].
    assert (zlen (flatten l') = zlen (flatten l) - Z.min size (zlen (flatten l) - index)) as Hlen
      by (rewrite Hf, erase_list_length; lia).
    rewrite uwrap_id, <- Hlen by (unfold in_u; lia). eexists l', _, _, _. split; [done|].
    split_and!; [done|apply remaining_inside; lia|lia|].
    by rewrite erase_list_l, <- Hf by lia.
  - eexists l, _, _, _. split; [done|].
    split_and!; [done|apply remaining_after; lia|done|apply erase_list_r; lia].
Qed.

(** The memmove of erase *)
Lemma erase_buffer_ok buf psize rest index size :
  zlen buf = buffer_size → 0 ≤ psize ≤ buffer_size →
  0 ≤ index < psize + zlen rest → 0 ≤ size → index + size ≤ psize + zlen rest →
  ∃ buf' psize' i s out, erase_buffer buf psize index size = Ok (buf', psize', i, s, out) ∧
    zlen buf' = buffer_size ∧ 0 ≤ psize' ≤ psize ∧ remaining out i s rest ∧
    erase_list index size (take (Z.to_nat psize) buf ++ rest) =
      take (Z.to_nat psize') buf' ++ erase_list i s rest.
Proof.
  intros Hbuf Hps Hi Hs Hle. unfold erase_buffer. set (c := take (Z.to_nat psize) buf).
  assert (zlen c = psize) as Hc by (unfold c, zlen in *; rewrite length_take; lia).
  destruct (Z.ltb_spec index psize) as [Hlt|Hge].
  - set (n := Z.min size (psize - index)). unfold span_read. rewrite !(proj2 (Z.leb_le _ _)) by lia.
    cbn [andb mbind result_bind]. set (moved := slice _ _ _).
    assert (zlen moved = psize - (index + n)) as Hm by (apply zlen_slice; lia).
    rewrite span_write_ok by lia. cbn [mbind result_bind].
    rewrite uwrap_id by (unfold in_u, buffer_size in *; lia). eexists _, _, _, _, _. split; [done|].
    rewrite splice_length by lia.
    split_and!; [done|lia|lia|unfold n; rewrite <- Hc; apply remaining_inside; lia|].
    rewrite erase_list_l, Hc by lia. fold n. f_equal. unfold splice, erase_list. rewrite (assoc_L (++)).
    assert (length (take (Z.to_nat index) buf ++ moved) = Z.to_nat (psize - n)) as <-.
    { rewrite length_app, length_take. unfold zlen in *. lia. }
    rewrite take_app_length. unfold c. rewrite take_take, Nat.min_l by lia. f_equal.
    unfold moved, slice. rewrite skipn_firstn_comm. f_equal. lia.
  - eexists buf, psize, _, _, _. split; [done|]. split_and!; [done|lia|lia| |].
    + rewrite <- Hc. apply remaining_after; lia.
    + rewrite erase_list_r, Hc by lia. done.
Qed.

Lemma erase_ok p index size :
  wf p → bounded p → 0 ≤ index < zlen (flatten p) → 0 ≤ size →
  index + size ≤ zlen (flatten p) →
  ∃ p', erase p index size = Ok p' ∧ wf p' ∧ flatten p' = erase_list index size (flatten p).
Proof.
  revert index size.
  induction p as [|l IHl r IHr lsize psize prio buf]; intros index size Hwf Hb Hi Hs Hle;
    [unfold zlen in Hi; simpl in Hi; lia|].
  unfold bounded in *. pose proof (flatten_length _ _ _ _ _ _ Hwf) as Hlen. rewrite Hlen in Hb, Hi, Hle.
  destruct Hwf as (Hwl & Hwr & -> & Hps & Hbuf). pose proof (zlen_nonneg (flatten l)).
  pose proof (zlen_nonneg (flatten r)). cbn [flatten erase].
  assert (zlen (take (Z.to_nat psize) buf ++ flatten r) = psize + zlen (flatten r)) as Hrest
    by (rewrite zlen_app; unfold zlen in *; rewrite length_take; lia).
  destruct (erase_left_ok (erase l) l (take (Z.to_nat psize) buf ++ flatten r) index size)
    as (l' & i & s & out & -> & Hwl' & Hrem & Hll & ->); [done|lia..| |].
  { intros n ???. apply IHl; done || lia. }
  cbn [mbind result_bind]. destruct Hrem as (? & ? & Hrem). destruct out.
  - destruct Hrem as [-> ->]. rewrite erase_list_0.
    assert (wf (Node l' r (zlen (flatten l')) psize prio buf)) as Hw by done.
    by destruct (erase_out_ok _ _ _ _ _ _ Hw) as (p' & ? & ? & ?);
      [unfold bounded; rewrite flatten_length by done; lia|exists p'].
  - rewrite Hrest in Hrem.
    destruct (erase_buffer_ok buf psize (flatten r) i s) as
      (buf' & ps' & i' & s' & out & -> & Hb' & Hp' & Hrem' & ->); [done|done|lia..|].
    cbn [mbind result_bind]. destruct Hrem' as (? & ? & Hrem').
    assert (∃ r', (if out then erase_out (Node l' r (zlen (flatten l')) ps' prio buf')
      else r ← erase r i' s'; erase_out (Node l' r (zlen (flatten l')) ps' prio buf')) =
      erase_out (Node l' r' (zlen (flatten l')) ps' prio buf') ∧ wf r' ∧
      flatten r' = erase_list i' s' (flatten r)) as (r' & -> & Hwr' & Hfr').
    { destruct out; [destruct Hrem' as [-> ->]; by exists r|].
      destruct (IHr i' s') as (r' & -> & ? & ?); [done|lia..|]. by exists r'. }
    assert (wf (Node l' r' (zlen (flatten l')) ps' prio buf')) as Hw
      by (simpl; split_and!; done || lia).
    destruct (erase_out_ok _ _ _ _ _ _ Hw) as (p' & ? & ? & Hf).
    { unfold bounded. rewrite flatten_length, Hfr', erase_list_length by (done || lia || (destruct out; lia)). lia. }
    exists p'. split_and!; [done..|]. rewrite Hf. simpl. by rewrite Hfr'.
Qed.

(** ** Copying *)

Lemma slice_app_l index size (a b : list Z) :
  0 ≤ index < zlen a → 0 ≤ size →
  slice index size (a ++ b) =
  slice index (Z.min size (zlen a - index)) a ++ slice 0 (size - Z.min size (zlen a - index)) b.
Proof.
  intros Hi Hs. unfold slice. rewrite drop_app_le by (unfold zlen in *; lia). rewrite take_app. simpl.
  rewrite drop_0, length_drop. f_equal; [|f_equal; unfold zlen in *; lia].
  destruct (Z.le_gt_cases size (zlen a - index)); [by rewrite Z.min_l by lia|].
  rewrite !take_ge; rewrite ?length_drop; unfold zlen in *; try done; lia.
Qed.

Lemma slice_app_r index size (a b : list Z) :
  zlen a ≤ index → slice index size (a ++ b) = slice (index - zlen a) size b.
Proof.
  intros. pose proof (zlen_nonneg a). unfold slice. rewrite drop_app_ge by (unfold zlen in *; lia).
  do 2 f_equal. unfold zlen. lia.
Qed.

Lemma copy_part_ok rec a rest index size :
  0 ≤ index < zlen a + zlen rest → 0 ≤ size → index + size ≤ zlen a + zlen rest →
  (∀ n, 0 ≤ n → index + n ≤ zlen a → index < zlen a → rec index n = Ok (slice index n a)) →
  ∃ bs i s out, copy_part rec (zlen a) index size = Ok (bs, i, s, out) ∧
    remaining out i s rest ∧ slice index size (a ++ rest) = bs ++ slice i s rest.
Proof.
  intros Hi Hs Hle Hrec. unfold copy_part. destruct (Z.ltb_spec index (zlen a)) as [Hlt|Hge].
  - rewrite Hrec by lia. cbn [mbind result_bind]. eexists _, _, _, _. split; [done|].
    split; [apply remaining_inside; lia|apply slice_app_l; lia].
  - eexists _, _, _, _. split; [done|].
    split; [apply remaining_after; lia|by apply slice_app_r].
Qed.

Lemma copy_ok p index size :
  wf p → 0 ≤ index < zlen (flatten p) → 0 ≤ size → index + size ≤ zlen (flatten p) →
  copy p index size = Ok (slice index size (flatten p)).
Proof.
  revert index size.
  induction p as [|l IHl r IHr lsize psize prio buf]; intros index size Hwf Hi Hs Hle;
    [unfold zlen in Hi; simpl in Hi; lia|].
  destruct Hwf as (Hwl & Hwr & -> & Hps & Hbuf). cbn [flatten copy] in *.
  set (c := take (Z.to_nat psize) buf) in *. rewrite zlen_app in Hi, Hle.
  assert (zlen c = psize) as Hc by (unfold c, zlen in *; rewrite length_take; lia).
  destruct (copy_part_ok (copy l) (flatten l) (c ++ flatten r) index size)
    as (bs1 & i & s & out & -> & (? & ? & Hrem) & ->); [lia..| |].
  { intros. apply IHl; done || lia. }
  cbn [mbind result_bind]. destruct out; [destruct Hrem as [-> ->]; by rewrite app_nil_r|].
  rewrite zlen_app in Hrem. rewrite <- Hc.
  destruct (copy_part_ok (λ i n, span_read i n buf) c (flatten r) i s)
    as (bs2 & i' & s' & out & -> & (? & ? & Hrem') & ->); [lia..| |].
  { intros n ???. unfold span_read. rewrite !(proj2 (Z.leb_le _ _)) by lia. simpl. f_equal.
    unfold slice, c. rewrite skipn_firstn_comm, take_take. f_equal. lia. }
  cbn [mbind result_bind]. destruct out; [destruct Hrem' as [-> ->]; by rewrite app_nil_r|].
  rewrite IHr by (done || lia). done.
Qed.

(** ** A rope is a string

    The specification: a string with insertion at an index, removal of a range
    and reading of a range; an operation outside the string is an error. *)

Inductive op : Type :=
  | Insert (index : Z) (str : list Z)
  | Erase (index size : Z)
  | Copy (index size : Z).

(** The new string and the bytes that the operation returns. *)
Definition spec_step (l : list Z) (o : op) : option (list Z * list Z) :=
  match o with
  | Insert index str =>
      if (0 <=? index) && (index <=? zlen l) && (zlen l + zlen str <? 2 ^ 63)
      then Some (insert_list index str l, []) else None
  | Erase index size =>
      if (0 <=? index) && (index <? zlen l) && (0 <=? size) && (index + size <=? zlen l)
      then Some (erase_list index size l, []) else None
  | Copy index size =>
      if (0 <=? index) && (index <? zlen l) && (0 <=? size) && (index + size <=? zlen l)
      then Some (l, slice index size l) else None
  end.

Fixpoint spec_run (l : list Z) (ops : list op) : option (list Z * list (list Z)) :=
  match ops with
  | [] => Some (l, [])
  | o :: ops =>
      '(l, bs) ← spec_step l o;
      '(l, out) ← spec_run l ops;
      Some (l, bs :: out)
  end.

Section refinement.
Context {G : Type} `{!BitGen G}.

Definition rope_step (o : op) : ST (Rope G) (list Z) :=
  match o with
  | Insert index str => let* _ := rope_insert index str in st_ret []
  | Erase index size => let* _ := rope_erase index size in st_ret []
  | Copy index size => rope_copy index size
  end.

Fixpoint rope_run (ops : list op) : ST (Rope G) (list (list Z)) :=
  match ops with
  | [] => st_ret []
  | o :: ops =>
      let* bs := rope_step o in
      let* out := rope_run ops in
      st_ret (bs :: out)
  end.

(** The rope [r] represents the string [l]. *)
Definition represents (r : Rope G) (l : list Z) : Prop :=
  wf (rep_ r) ∧ flatten (rep_ r) = l ∧ zlen l < 2 ^ 63.

Lemma rope_step_refines r l o l' bs :
  represents r l → spec_step l o = Some (l', bs) →
  ∃ r', rope_step o r = (Ok bs, r') ∧ represents r' l'.
Proof.
  intros (Hwf & <- & Hb) Hstep. destruct o as [index str|index size|index size]; simpl in Hstep;
    split_if; try done; rewrite !andb_true_iff, ?Z.leb_le, ?Z.ltb_lt in Heqb;
    injection Hstep as <- <-; cbn [rope_step].
  - destruct (insert_enough (insert_fuel (rep_ r) str) (rep_ r) index str) with (g := gen_ r)
      as (p' & g' & Hins & Hw & _ & Hf & _); [done|lia|lia| |].
    { unfold insert_fuel, place. destruct (index =? 0); lia. }
    erewrite st_bind_ok by (unfold rope_insert; by rewrite Hins). eexists. split; [done|].
    split_and!; [done..|]. rewrite insert_list_length. lia.
  - destruct (erase_ok (rep_ r) index size) as (p' & Her & Hw & Hf); [done|done|lia..|].
    erewrite st_bind_ok by (unfold rope_erase; by rewrite Her). eexists. split; [done|].
    split_and!; [done..|]. rewrite erase_list_length; lia.
  - exists r. unfold rope_copy. rewrite copy_ok by (done || lia). by split_and!.
Qed.

(** C2: A Rope refines a byte string: from a rope that represents l, every sequence of
    insert, erase and copy calls within range runs without fault, whatever priorities the
    generator draws, copies out exactly what the string operations give, and leaves a rope
    that represents the resulting string with its invariant (buffer sizes, lsize fields)
    intact. *)
Theorem rope_refines_string r l ops l' out :
  represents r l → spec_run l ops = Some (l', out) →
  ∃ r', rope_run ops r = (Ok out, r') ∧ represents r' l'.
Proof.
  revert r l out. induction ops as [|o ops IH]; intros r l out Hr Hrun; simpl in Hrun.
  { injection Hrun as <- <-. by exists r. }
  apply bind_Some in Hrun as ([l1 bs] & Hstep & Hrun).
  apply bind_Some in Hrun as ([l2 out'] & Hrun & [= <- <-]).
  destruct (rope_step_refines r l o l1 bs Hr Hstep) as (r1 & H1 & Hr1).
  destruct (IH r1 l1 out' Hr1 Hrun) as (r2 & H2 & Hr2).
  exists r2. split; [|done]. cbn [rope_run].
  by rewrite (st_bind_ok _ _ _ _ _ H1), (st_bind_ok _ _ _ _ _ H2).
Qed.

(** Rope::insert at an index beyond the end never ends: it recurses into new empty
    nodes, for any rope and any string. *)
Theorem rope_insert_past_end r l index str :
  represents r l → zlen l < index →
  (∀ fuel, (insert fuel (rep_ r) index str (gen_ r)).1 = Hang) ∧
  (rope_insert index str r).1 = Hang.
Proof.
  intros (Hwf & <- & _) Hi. split; [intros; by apply insert_past_end|].
  unfold rope_insert. pose proof (insert_past_end (insert_fuel (rep_ r) str) (rep_ r) index str
    (gen_ r) Hwf Hi) as HH. by destruct (insert _ _ _ _ _) as [[] ?].
Qed.
(** Rope::copy and Rope::erase of an empty range at the end of any rope dereference a
    null pointer. *)
Theorem rope_empty_range_at_end r l :
  represents r l → (rope_copy (zlen l) 0 r).1 = Crash ∧ (rope_erase (zlen l) 0 r).1 = Crash.
Proof.
  intros (Hwf & <- & _). unfold rope_copy, rope_erase. cbn [fst].
  assert (copy (rep_ r) (zlen (flatten (rep_ r))) 0 = Crash ∧
          erase (rep_ r) (zlen (flatten (rep_ r))) 0 = Crash) as [-> ->]; [|done].
  induction (rep_ r) as [|l _ p IH lsize psize prio buf]; [done|].
  rewrite flatten_length by done. destruct Hwf as (_ & Hp & -> & Hs & _).
  destruct (IH Hp) as [Hc He]. pose proof (zlen_nonneg (flatten p)). cbn [copy erase].
  unfold copy_part, erase_left, erase_buffer.
  rewrite (proj2 (Z.ltb_ge _ (zlen (flatten l)))) by lia. cbn [mbind result_bind].
  rewrite (proj2 (Z.ltb_ge _ psize)) by lia. cbn [mbind result_bind].
  replace (zlen (flatten l) + psize + zlen (flatten p) - zlen (flatten l) - psize)
    with (zlen (flatten p)) by lia.
  by rewrite Hc, He.
Qed.
End refinement.

Definition example_rope : Rope lcg := make {| lcg_state := 7 |}.

Lemma example_represents : represents example_rope [].
Proof. by split_and!. Qed.

Lemma rope_refines_string_witness :
  ∃ r', rope_run [Insert 0 [1; 2; 3]; Insert 2 [9]; Erase 1 2; Copy 0 2] example_rope =
    (Ok [[]; []; []; [1; 3]], r') ∧ represents r' [1; 3].
Proof.
  apply (rope_refines_string example_rope [] _ _ _ example_represents). reflexivity.
Defined.

Lemma rope_insert_past_end_witness : (rope_insert 5 [1] example_rope).1 = Hang.
Proof. apply (rope_insert_past_end example_rope [] 5 [1] example_represents). reflexivity. Defined.

Lemma rope_empty_range_at_end_witness :
  (rope_copy 0 0 example_rope).1 = Crash ∧ (rope_erase 0 0 example_rope).1 = Crash.
Proof. exact (rope_empty_range_at_end example_rope [] example_represents). Defined.
