(* ===== verification/RopeHeap.v ===== *)
(** * util/rope: the order of the priorities

    The nodes of a rope carry random priorities, and the rotations of insert are those of a
    treap: a node is not above one of higher priority.  An insertion that allocates at
    most one node keeps this order, and then the shape of the tree is determined by the
    priorities of its nodes from left to right, whatever the history of the rope.  An
    insertion that allocates more, and merge, may break it: a rotation hands the inner
    subtree of the child to the node and does not look at its priority again
    ([rope_heap_order_lost]). *)

From S2P Require Import Prelude Random Rope.

(** ** The order *)

Definition root_le (b : Z) (p : rep) : Prop :=
  match p with Null => True | Node _ _ _ _ prio _ => prio ≤ b end.

Fixpoint heap (p : rep) : Prop :=
  match p with
  | Null => True
  | Node l r _ _ prio _ => heap l ∧ heap r ∧ root_le prio l ∧ root_le prio r
  end.

(** The children of the root have at most this priority. *)
Definition kids_le (b : Z) (p : rep) : Prop :=
  match p with Null => True | Node l r _ _ _ _ => root_le b l ∧ root_le b r end.

(** The tree and its priorities, without the text *)
Inductive shape : Type := Leaf | Fork (l : shape) (prio : Z) (r : shape).

Fixpoint shape_of (p : rep) : shape :=
  match p with Null => Leaf | Node l r _ _ prio _ => Fork (shape_of l) prio (shape_of r) end.

Fixpoint priorities (p : rep) : list Z :=
  match p with Null => [] | Node l r _ _ prio _ => priorities l ++ prio :: priorities r end.

Lemma root_le_trans b b' p : b ≤ b' → root_le b p → root_le b' p.
Proof. destruct p; simpl; [done|lia]. Qed.

Lemma root_le_shape b p q : shape_of p = shape_of q → root_le b p → root_le b q.
Proof. by destruct p, q; simpl; intros; simplify_eq. Qed.

Lemma kids_le_shape b p q : shape_of p = shape_of q → kids_le b p → kids_le b q.
Proof.
  destruct p, q; simpl; intros; simplify_eq; try done. destruct_and!.
  split; by eapply root_le_shape.
Qed.

Lemma heap_shape p q : shape_of p = shape_of q → heap p → heap q.
Proof.
  revert q. induction p as [|l IHl r IHr lsize size prio buf]; intros [] Hs; simplify_eq/=; [done|].
  intros (Hl & Hr & Hpl & Hpr). split_and!; [by apply IHl|by apply IHr|by eapply root_le_shape..].
Qed.

Lemma heap_kids b p : heap p → root_le b p → kids_le b p.
Proof. destruct p; simpl; [done|]. intros (_ & _ & Hl & Hr) Hb. eauto using root_le_trans. Qed.

(** ** Uniqueness *)

Lemma heap_max p x : heap p → x ∈ priorities p → ∀ b, root_le b p → x ≤ b.
Proof.
  induction p as [|l IHl r IHr lsize size prio buf]; simpl; [by intros _ ?%not_elem_of_nil|].
  intros (Hl & Hr & Hpl & Hpr) [Hx|[->|Hx]%elem_of_cons]%elem_of_app b Hb; [|lia|].
  - pose proof (IHl Hl Hx _ Hpl). lia.
  - pose proof (IHr Hr Hx _ Hpr). lia.
Qed.

(** Both roots are the greatest priority. *)
Lemma heap_root l r lsize size prio buf x :
  heap (Node l r lsize size prio buf) → x ∈ priorities (Node l r lsize size prio buf) → x ≤ prio.
Proof. intros Hh Hx. eapply heap_max; [done..|]. simpl. lia. Qed.

Lemma split_unique (a a' b b' : list Z) x :
  NoDup (a ++ x :: b) → a ++ x :: b = a' ++ x :: b' → a = a' ∧ b = b'.
Proof.
  revert a'. induction a as [|y a IH]; intros [|y' a'] Hnd Heq; simplify_eq/=.
  - done.
  - apply NoDup_cons in Hnd as [Hni _]. destruct Hni. set_solver.
  - apply NoDup_cons in Hnd as [Hni _]. destruct Hni. set_solver.
  - apply NoDup_cons in Hnd as [_ Hnd]. destruct (IH a') as [-> ->]; done.
Qed.

Lemma heap_unique p q :
  heap p → heap q → NoDup (priorities p) → priorities p = priorities q → shape_of p = shape_of q.
Proof.
  revert q. induction p as [|l IHl r IHr lsize size prio buf]; intros [|l' r' lsize' size' prio' buf'] Hp Hq Hnd Heq.
  - done.
  - simpl in Heq. by destruct (priorities l').
  - simpl in Heq. by destruct (priorities l).
  - assert (prio = prio') as <-.
    { apply Z.le_antisymm.
      - apply (heap_root _ _ _ _ _ _ prio Hq). rewrite <- Heq. simpl. set_solver.
      - apply (heap_root _ _ _ _ _ _ prio' Hp). rewrite Heq. simpl. set_solver. }
    simpl in *. destruct (split_unique _ _ _ _ _ Hnd Heq) as [Hl Hr].
    apply NoDup_app in Hnd as (Hndl & _ & Hndr). apply NoDup_cons in Hndr as [_ Hndr]. destruct_and!.
    rewrite (IHl l'), (IHr r'); done.
Qed.

(** ** Rotations *)

Lemma balance_left_heap p : p ≠ Null → heap p → balance_left p = Ok p.
Proof.
  induction p as [|l IHl r _ lsize size prio buf]; intros Hne Hh; [done|]. destruct Hh as (Hl & _ & Hpl & _).
  cbn [balance_left]. destruct l as [|ll lr llsize lsz lprio lbuf]; [done|].
  rewrite IHl by done. cbn [mbind result_bind]. simpl in Hpl.
  by rewrite (proj2 (Z.ltb_ge _ _)).
Qed.

Lemma balance_right_heap p : p ≠ Null → heap p → balance_right p = Ok p.
Proof.
  induction p as [|l _ r IHr lsize size prio buf]; intros Hne Hh; [done|]. destruct Hh as (_ & Hr & _ & Hpr).
  cbn [balance_right]. destruct r as [|rl rr rlsize rsz rprio rbuf]; [done|].
  rewrite IHr by done. cbn [mbind result_bind]. simpl in Hpr. by rewrite (proj2 (Z.ltb_ge _ _)).
Qed.

(** The order holds but for the root, whose children may have too high a priority:
    then their own children have not. *)
Definition repaired (prio : Z) (p' : rep) : Prop := heap p' ∧ ∀ b, prio ≤ b → kids_le b p'.

Lemma balance_left_repairs l r lsize size prio buf p' :
  heap l → heap r → root_le prio r → kids_le prio l →
  balance_left (Node l r lsize size prio buf) = Ok p' → repaired prio p'.
Proof.
  intros Hl Hr Hpr Hk H. cbn [balance_left] in H. destruct l as [|ll lr llsize lsz lprio lbuf].
  { simplify_eq. split; [done|]. simpl. eauto using root_le_trans. }
  rewrite balance_left_heap in H by done. cbn [mbind result_bind] in H. destruct Hk as [Hkl Hkr].
  destruct (Z.ltb_spec prio lprio); simplify_eq/=; destruct Hl as (? & ? & ? & ?).
  - split; [split_and!; done || (simpl; lia)|]. intros b Hb. split; [by eapply root_le_trans|done].
  - split; [by split_and!|]. intros b Hb. split; [simpl; lia|by eapply root_le_trans].
Qed.

Lemma balance_right_repairs l r lsize size prio buf p' :
  heap l → heap r → root_le prio l → kids_le prio r →
  balance_right (Node l r lsize size prio buf) = Ok p' → repaired prio p'.
Proof.
  intros Hl Hr Hpl Hk H. cbn [balance_right] in H. destruct r as [|rl rr rlsize rsz rprio rbuf].
  { simplify_eq. split; [done|]. simpl. eauto using root_le_trans. }
  rewrite balance_right_heap in H by done. cbn [mbind result_bind] in H. destruct Hk as [Hkl Hkr].
  destruct (Z.ltb_spec prio rprio); simplify_eq/=; destruct Hr as (? & ? & ? & ?).
  - split; [split_and!; done || (simpl; lia)|]. intros b Hb. split; [done|by eapply root_le_trans].
  - split; [by split_and!|]. intros b Hb. split; [by eapply root_le_trans|simpl; lia].
Qed.

(** Rotations keep the nodes, whatever the order. *)
Lemma balance_left_nodes p p' : balance_left p = Ok p' → nodes p' = nodes p.
Proof.
  revert p'. induction p as [|l IHl r _ lsize size prio buf]; intros p' H; [done|]. cbn [balance_left] in H.
  destruct l as [|ll lr llsize lsz lprio lbuf]; [by simplify_eq|].
  destruct (balance_left (Node _ _ _ _ _ _)) as [l'| | |]; [|done..]. specialize (IHl _ eq_refl).
  cbn [mbind result_bind] in H. destruct l'; [done|]. destruct (_ <? _); simplify_eq/=; lia.
Qed.

Lemma balance_right_nodes p p' : balance_right p = Ok p' → nodes p' = nodes p.
Proof.
  revert p'. induction p as [|l _ r IHr lsize size prio buf]; intros p' H; [done|]. cbn [balance_right] in H.
  destruct r as [|rl rr rlsize rsz rprio rbuf]; [by simplify_eq|].
  destruct (balance_right (Node _ _ _ _ _ _)) as [r'| | |]; [|done..]. specialize (IHr _ eq_refl).
  cbn [mbind result_bind] in H. destruct r'; [done|]. destruct (_ <? _); simplify_eq/=; lia.
Qed.

(** ** Insertion *)

(** What an insertion that allocated at most one node has done *)
Definition grown (p p' : rep) : Prop :=
  (nodes p ≤ nodes p')%nat ∧
  (nodes p' = nodes p → shape_of p' = shape_of p) ∧
  ((nodes p' ≤ S (nodes p))%nat → heap p' ∧ ∀ b, root_le b p → kids_le b p').

Lemma grown_refl p : heap p → grown p p.
Proof. intros Hp. split; [done|]. split; [done|]. intros _. split; [done|]. eauto using heap_kids. Qed.

Lemma grown_trans p1 p2 p3 :
  ((nodes p2 ≤ S (nodes p1))%nat → grown p2 p3) → (nodes p2 ≤ nodes p3)%nat → grown p1 p2 → grown p1 p3.
Proof.
  intros H23 Hle (Hn & Hs & Hh). unfold grown. split; [lia|]. split.
  - intros Heq. destruct H23 as (_ & Hs' & _); [lia|]. rewrite Hs' by lia. apply Hs. lia.
  - intros H3. destruct H23 as (_ & Hs' & Hh'); [lia|]. destruct (decide (nodes p2 = nodes p1)) as [He|He].
    + destruct Hh' as [Hh3 Hk3]; [lia|]. split; [done|]. intros b Hb. apply Hk3.
      by eapply root_le_shape; [symmetry; apply Hs|].
    + assert (nodes p3 = nodes p2) as He' by lia. destruct Hh as [Hh2 Hk2]; [lia|]. specialize (Hs' He').
      split; [by eapply heap_shape; [symmetry|]|]. intros b Hb. eapply kids_le_shape; [by symmetry|]. by apply Hk2.
Qed.

Section insertion.
Context {G : Type} `{!BitGen G}.
Implicit Types ins : rep → Z → list Z → ST G rep.

(** A sequence of insertions *)
Inductive calls ins : rep → rep → Prop :=
  | calls_none p : calls ins p p
  | calls_some p index str g p1 g1 p2 :
      ins p index str g = (Ok p1, g1) → calls ins p1 p2 → calls ins p p2.

(** What insert does to a node: it inserts below and balances, on one side. *)
Lemma insert_body_inv ins l r lsize size prio buf index str g p' g' :
  insert_body ins (Node l r lsize size prio buf) index str g = (Ok p', g') →
  (∃ l1 lsize', calls ins l l1 ∧ balance_left (Node l1 r lsize' size prio buf) = Ok p') ∨
  (∃ r1 size' buf', calls ins r r1 ∧ balance_right (Node l r1 lsize size' prio buf') = Ok p').
Proof.
  intros H. assert (∀ p p1 i s h h1, ins p i s h = (Ok p1, h1) → calls ins p p1) as Hone
    by (intros; econstructor; [done|constructor]).
  assert (∀ m (h : G), st_lift m h = (Ok p', g') → m = Ok p') as Hlift by (intros [] h Hm; unfold st_lift in Hm; by simplify_eq).
  cbn [insert_body] in H. destruct (index <? lsize); [|destruct (size <? _);
    [|destruct (buffer_size <? _); [destruct (buffer_size <? u64 (index - lsize + zlen str))|]]]; st_inv H.
  - left. do 2 eexists. split; [by eapply Hone|by eapply Hlift].
  - right. do 3 eexists. split; [by eapply Hone|by eapply Hlift].
  - right. do 3 eexists. split; [|by eapply Hlift].
    econstructor; [done|]. by eapply Hone.
  - right. do 3 eexists. split; [by eapply Hone|by eapply Hlift].
  - right. do 3 eexists. split; [constructor|by eapply Hlift].
Qed.

Section node.
Context (ins : rep → Z → list Z → ST G rep).
Hypothesis ins_nodes : ∀ p index str g p' g', ins p index str g = (Ok p', g') → (nodes p ≤ nodes p')%nat.
Hypothesis ins_grown : ∀ p index str g p' g', heap p → ins p index str g = (Ok p', g') → grown p p'.

Lemma calls_nodes p p' : calls ins p p' → (nodes p ≤ nodes p')%nat.
Proof using ins_nodes. induction 1 as [|p index str g p1 g1 p2 Hins _ IH]; [done|]. apply ins_nodes in Hins. lia. Qed.

Lemma calls_grown p p' : calls ins p p' → heap p → grown p p'.
Proof using ins_nodes ins_grown.
  induction 1 as [|p index str g p1 g1 p2 Hins Hc IH]; intros Hp; [by apply grown_refl|].
  pose proof (ins_grown _ _ _ _ _ _ Hp Hins) as Hg. apply (grown_trans p p1 p2); [|by apply calls_nodes|done].
  intros Hn. apply IH. destruct Hg as (_ & _ & Hh). by apply Hh.
Qed.

Lemma body_nodes p index str g p' g' : insert_body ins p index str g = (Ok p', g') → (nodes p ≤ nodes p')%nat.
Proof using ins_nodes.
  destruct p as [|l r lsize size prio buf]; [done|].
  intros [(l1 & ls & Hc & Hb)|(r1 & sz & bf & Hc & Hb)]%insert_body_inv; apply calls_nodes in Hc.
  - apply balance_left_nodes in Hb. simpl in *. lia.
  - apply balance_right_nodes in Hb. simpl in *. lia.
Qed.

Lemma body_grown p index str g p' g' : heap p → insert_body ins p index str g = (Ok p', g') → grown p p'.
Proof using ins_nodes ins_grown.
  destruct p as [|l r lsize size prio buf]; [done|]. intros (Hl & Hr & Hpl & Hpr).
  intros [(l1 & ls & Hc & Hb)|(r1 & sz & bf & Hc & Hb)]%insert_body_inv.
  - destruct (calls_grown _ _ Hc Hl) as (Hn & Hs & Hh). pose proof (balance_left_nodes _ _ Hb) as Hnb. simpl in Hnb.
    split; [simpl; lia|]. split; simpl.
    + intros He. specialize (Hs ltac:(lia)). rewrite balance_left_heap in Hb; [|done|].
      * simplify_eq. simpl. by rewrite Hs.
      * split_and!; [by eapply heap_shape; [symmetry|]|done|by eapply root_le_shape; [symmetry|]|done].
    + intros Hle. destruct Hh as [Hl1 Hk1]; [lia|]. by eapply balance_left_repairs; [..|done]; eauto.
  - destruct (calls_grown _ _ Hc Hr) as (Hn & Hs & Hh). pose proof (balance_right_nodes _ _ Hb) as Hnb. simpl in Hnb.
    split; [simpl; lia|]. split; simpl.
    + intros He. specialize (Hs ltac:(lia)). rewrite balance_right_heap in Hb; [|done|].
      * simplify_eq. simpl. by rewrite Hs.
      * split_and!; [done|by eapply heap_shape; [symmetry|]|done|by eapply root_le_shape; [symmetry|]].
    + intros Hle. destruct Hh as [Hr1 Hk1]; [lia|]. by eapply balance_right_repairs; [..|done]; eauto.
Qed.
End node.

Lemma insert_nodes fuel p index str (g : G) p' g' :
  insert fuel p index str g = (Ok p', g') → (nodes p ≤ nodes p')%nat.
Proof.
  revert p index str g p' g'. induction fuel as [|fuel IH]; intros p index str g p' g' H; [done|].
  cbn [insert] in H. st_inv H. apply body_nodes in H; [|done]. destruct p; [simpl; lia|].
  by injection Hm as <- <-.
Qed.

Lemma insert_grown fuel p index str (g : G) p' g' :
  heap p → insert fuel p index str g = (Ok p', g') → grown p p'.
Proof.
  revert p index str g p' g'. induction fuel as [|fuel IH]; intros p index str g p' g' Hp H; [done|].
  cbn [insert] in H. st_inv H. destruct p as [|l r lsize size prio buf].
  - unfold allocate in Hm. destruct (uniform_uint32 g) as [prio g1]. injection Hm as <- <-.
    apply body_grown in H as (Hn & Hs & Hh); [|apply insert_nodes|done|done]. simpl in *.
    split; [simpl; lia|]. split; simpl; [lia|]. intros Hle. destruct Hh as [Hh Hk]; [lia|].
    split; [done|]. intros b _. specialize (Hs ltac:(lia)). destruct p' as [|[] [] ? ? ? ?]; by simplify_eq/=.
  - injection Hm as <- <-. apply body_grown in H; [done|apply insert_nodes|done|done].
Qed.
End insertion.

(** ** Erasure *)

Lemma merge_nodes l r p' : merge l r = Ok p' → nodes p' = (nodes l + nodes r)%nat.
Proof.
  revert p'. induction l as [|ll _ lr IHr lsize size prio buf]; intros p' H; cbn [merge] in H; [by simplify_eq|].
  destruct r as [|rl rr rlsize rsz rprio rbuf]; [simplify_eq; simpl; lia|].
  destruct (merge lr _) as [r'| | |]; [|done..]. specialize (IHr _ eq_refl). cbn [mbind result_bind] in H.
  apply balance_right_nodes in H. simpl in *. lia.
Qed.

(** An erasure that frees no node leaves the tree as it is. *)
Definition thinned (p p' : rep) : Prop :=
  (nodes p' ≤ nodes p)%nat ∧ (nodes p' = nodes p → shape_of p' = shape_of p).

Lemma erase_out_thinned l r l' r' lsize lsize' size size' prio buf buf' p' :
  thinned l l' → thinned r r' → erase_out (Node l' r' lsize' size' prio buf') = Ok p' →
  thinned (Node l r lsize size prio buf) p'.
Proof.
  intros [Hnl Hsl] [Hnr Hsr] H. unfold erase_out in H. destruct (size' =? 0).
  - apply merge_nodes in H. split; simpl; lia.
  - simplify_eq. split; simpl; [lia|]. intros He. rewrite Hsl, Hsr by lia. done.
Qed.

Lemma erase_thinned p index size p' : erase p index size = Ok p' → thinned p p'.
Proof.
  revert index size p'. induction p as [|l IHl r IHr lsize psize prio buf]; intros index size p' H; [done|].
  assert (∀ q, thinned q q) as Hrefl by done. cbn [erase] in H. unfold erase_left in H.
  assert (∃ l' lsize' i s out, thinned l l' ∧
    (if out : bool then erase_out (Node l' r lsize' psize prio buf)
     else '(buf, psize, index, size, out) ← erase_buffer buf psize i s;
       if out : bool then erase_out (Node l' r lsize' psize prio buf)
       else r ← erase r index size; erase_out (Node l' r lsize' psize prio buf)) = Ok p')
    as (l' & lsize' & i & s & out & Hl & Hrest).
  { destruct (index <? lsize); [|exists l, lsize, (index - lsize), size, false; by split]. destruct (erase l _ _) as [l'| | |] eqn:El; [|done..].
    do 5 eexists. split; [by eapply IHl|exact H]. }
  destruct out; [by eapply erase_out_thinned|].
  destruct (erase_buffer _ _ _ _) as [[[[[buf' sz'] i'] s'] [|]]| | |]; [..|done|done|done]; cbn [mbind result_bind] in Hrest.
  - by eapply erase_out_thinned.
  - destruct (erase r _ _) as [r'| | |] eqn:Er; [|done..]. eapply erase_out_thinned; [done| |done]. by eapply IHr.
Qed.

(** ** Ropes *)

Section ropes.
Context {G : Type} `{!BitGen G}.

(** No operation frees a node or allocates more than one. *)
Fixpoint gentle (ops : list op) (r : Rope G) : Prop :=
  match ops with
  | [] => True
  | o :: ops =>
      let r' := (rope_step o r).2 in
      (nodes (rep_ r) ≤ nodes (rep_ r') ≤ S (nodes (rep_ r)))%nat ∧ gentle ops r'
  end.

Lemma rope_step_heap o r bs r' :
  rope_step o r = (Ok bs, r') → heap (rep_ r) →
  (nodes (rep_ r) ≤ nodes (rep_ r') ≤ S (nodes (rep_ r)))%nat → heap (rep_ r').
Proof.
  intros H Hh Hn. destruct o as [index str|index size|index size]; cbn [rope_step] in H; st_inv H.
  - unfold rope_insert in Hm. destruct (insert _ _ _ _ _) as [[p| | |] g] eqn:E; simplify_eq/=.
    apply insert_grown in E as (_ & _ & Hg); [|done]. destruct Hg as [Hg _]; [lia|done].
  - unfold rope_erase in Hm. destruct (erase _ _ _) as [p| | |] eqn:E; simplify_eq/=.
    apply erase_thinned in E as [Hle Hs]. eapply heap_shape; [symmetry; apply Hs; lia|done].
  - by injection H as _ <-.
Qed.

(** C19: The priorities of a rope stay in heap order through every sequence of insert, erase
    and copy calls of which none frees a node or allocates more than one; and when the
    priorities of its nodes are distinct, its shape is then the only one in heap order for
    the priorities from left to right, and does not depend on the history of the rope. *)
Theorem rope_treap r l ops l' out :
  represents r l → spec_run l ops = Some (l', out) → heap (rep_ r) → gentle ops r →
  ∃ r', rope_run ops r = (Ok out, r') ∧ flatten (rep_ r') = l' ∧ heap (rep_ r') ∧
    ∀ p, heap p → priorities p = priorities (rep_ r') → NoDup (priorities p) →
      shape_of p = shape_of (rep_ r').
Proof.
  revert r l out. induction ops as [|o ops IH]; intros r l out Hr Hrun Hh Hg; simpl in Hrun.
  { injection Hrun as <- <-. exists r. split_and!; [done|apply Hr|done|]. intros. by apply heap_unique. }
  apply bind_Some in Hrun as ([l1 bs] & Hstep & Hrun).
  apply bind_Some in Hrun as ([l2 out'] & Hrun & [= <- <-]).
  destruct (rope_step_refines r l o l1 bs Hr Hstep) as (r1 & H1 & Hr1).
  cbn [gentle] in Hg. rewrite H1 in Hg. destruct Hg as [Hn Hg].
  destruct (IH r1 l1 out' Hr1 Hrun) as (r2 & H2 & Hrest); [by eapply rope_step_heap|done|].
  exists r2. split; [|done]. cbn [rope_run].
  by rewrite (st_bind_ok _ _ _ _ _ H1), (st_bind_ok _ _ _ _ _ H2).
Qed.
End ropes.

(** A letter at a time into a full buffer, and an erasure *)
Definition example_ops : list op :=
  [Insert 0 (replicate 4096 97); Insert 5 [98]; Insert 4097 [99]; Erase 7 2; Copy 4094 2].

Lemma rope_treap_witness :
  ∃ l' out r', spec_run [] example_ops = Some (l', out) ∧ rope_run example_ops example_rope = (Ok out, r') ∧
    flatten (rep_ r') = l' ∧ heap (rep_ r') ∧ nodes (rep_ r') = 2%nat.
Proof.
  destruct (spec_run [] example_ops) as [[l' out]|] eqn:E; [|by vm_compute in E].
  destruct (rope_treap example_rope [] example_ops l' out) as (r' & Hrun & Hf & Hh & _).
  - apply example_represents.
  - exact E.
  - done.
  - vm_compute. repeat split; repeat constructor.
  - exists l', out, r'. split_and!; [done|exact Hrun|exact Hf|exact Hh|].
    assert (nodes (rep_ (rope_run example_ops example_rope).2) = 2%nat) as Hn by (vm_compute; reflexivity).
    by rewrite Hrun in Hn.
Defined.

(** ** Where the order is lost *)

Definition byte_node (l r : rep) (lsize prio c : Z) : rep := Node l r lsize 1 prio (c :: replicate 4095 0).

(** A heap whose root holds one byte *)
Definition example_heap : rep :=
  byte_node (byte_node Null Null 0 5 97) (byte_node (byte_node Null Null 0 8 99) Null 1 9 100) 1 10 98.

(** Erasing the root of a rope in order merges its children out of order: the node of
    priority 5 is left above the one of priority 8. *)
Theorem rope_heap_order_lost :
  wf example_heap ∧ heap example_heap ∧ flatten example_heap = [97; 98; 99; 100] ∧
  ∃ p', erase example_heap 1 1 = Ok p' ∧ flatten p' = [97; 99; 100] ∧ ¬ heap p' ∧
    shape_of p' = Fork (Fork Leaf 5 (Fork Leaf 8 Leaf)) 9 Leaf.
Proof.
  split; [by vm_compute|]. split; [by vm_compute|]. split; [by vm_compute|].
  eexists. split; [vm_compute; reflexivity|]. split; [by vm_compute|]. split; [|by vm_compute].
  vm_compute. intros ((_ & _ & _ & H) & _). by apply H.
Qed.
