(* ===== verification/HashFilter.v ===== *)
(** * util/hash-filter: a cuckoo filter with 32 bit fingerprints

    A bucket is a list of four entries, zero when empty; an index outside the
    array is a [Crash].  The vector instructions of find_two are modelled lane
    by lane, one definition per instruction set. *)

From S2P Require Import Prelude Random.

Abbreviation Bucket := (list Z).

Record HashFilter32 (G : Type) : Type := {
  buckets_ : list Bucket;
  num_buckets_mask_ : Z;
  size_ : Z;
  gen_ : G;
}.
Arguments buckets_ {G}.
Arguments num_buckets_mask_ {G}.
Arguments size_ {G}.
Arguments gen_ {G}.

Definition empty_bucket : Bucket := [0; 0; 0; 0].

(** HashFilter32::add; [None] when the bucket is full *)
Fixpoint add (fp32 : Z) (bucket : Bucket) : option Bucket :=
  match bucket with
  | [] => None
  | entry :: bucket =>
      if entry =? 0 then Some (fp32 :: bucket)
      else bucket ← add fp32 bucket; Some (entry :: bucket)
  end.

(** HashFilter32::find_two without vector instructions *)
Definition find_two (b0 b1 : Bucket) (fp32 : Z) : bool :=
  existsb (Z.eqb fp32) b0 || existsb (Z.eqb fp32) b1.

(** The lanes of _mm_cmpeq_epi32, _mm256_cmpeq_epi32 and vceqq_u32 *)
Definition cmpeq_epi32 (a b : list Z) : list Z :=
  zip_with (λ x y, if x =? y then 2 ^ 32 - 1 else 0) a b.

(** _mm_testz_si128(c, c), _mm256_testz_si256(c, c) *)
Definition testz (c : list Z) : bool := forallb (λ x, Z.land x x =? 0) c.

(** _mm_movemask_epi8: the sign bit of each byte, lane by lane *)
Fixpoint movemask_epi8 (d : list Z) : Z :=
  match d with
  | [] => 0
  | x :: d =>
      Z.lor (Z.b2z (Z.testbit x 7)) (Z.lor (Z.b2z (Z.testbit x 15) ≪ 1)
        (Z.lor (Z.b2z (Z.testbit x 23) ≪ 2)
           (Z.lor (Z.b2z (Z.testbit x 31) ≪ 3) (movemask_epi8 d ≪ 4))))
  end.

(** vaddvq_u32: the sum of the lanes, in 32 bits *)
Definition vaddvq_u32 (d : list Z) : Z := foldr (λ x acc, u32 (x + acc)) 0 d.

Definition find_two_avx2 (b0 b1 : Bucket) (fp32 : Z) : bool :=
  let a := b1 ++ b0 in
  let b := replicate 8 fp32 in
  let c := cmpeq_epi32 a b in
  negb (testz c).

Definition or_si128 (c0 c1 : list Z) : list Z := zip_with Z.lor c0 c1.

Definition find_two_sse41 (b0 b1 : Bucket) (fp32 : Z) : bool :=
  let b := replicate 4 fp32 in
  let d := or_si128 (cmpeq_epi32 b0 b) (cmpeq_epi32 b1 b) in
  negb (testz d).

Definition find_two_sse2 (b0 b1 : Bucket) (fp32 : Z) : bool :=
  let b := replicate 4 fp32 in
  let d := or_si128 (cmpeq_epi32 b0 b) (cmpeq_epi32 b1 b) in
  negb (movemask_epi8 d =? 0).

Definition find_two_neon (b0 b1 : Bucket) (fp32 : Z) : bool :=
  let b := replicate 4 fp32 in
  negb (vaddvq_u32 (or_si128 (cmpeq_epi32 b0 b) (cmpeq_epi32 b1 b)) =? 0).

(** The stored fingerprint and the first bucket, as insert and test compute them *)
Definition fp32_of (fingerprint : Z) : Z :=
  let fp32 := u32 fingerprint in
  if fp32 =? 0 then u32 (Z.lor (fingerprint ≫ 32) 1) else fp32.

Definition index_of (mask fingerprint : Z) : Z := u32 (Z.land (fingerprint ≫ 32) mask).

Definition alternate (mask fp32 index : Z) : Z := Z.lxor index (Z.land fp32 mask).

Section filter.
Context {G : Type} `{!BitGen G}.
Implicit Types f : HashFilter32 G.

Definition set_buckets (bs : list Bucket) f : HashFilter32 G :=
  {| buckets_ := bs; num_buckets_mask_ := num_buckets_mask_ f; size_ := size_ f;
     gen_ := gen_ f |}.

(** HashFilter32::clear *)
Definition clear f : HashFilter32 G :=
  {| buckets_ := replicate (Z.to_nat (u32 (num_buckets_mask_ f + 1))) empty_bucket;
     num_buckets_mask_ := num_buckets_mask_ f; size_ := 0; gen_ := gen_ f |}.

(** HashFilter32::HashFilter32 *)
Definition make (num_buckets : Z) (g : G) : result (HashFilter32 G) :=
  let mask := u32 (num_buckets - 1) in
  if Z.land (u32 (mask + 1)) mask =? 0 then
    Ok (clear {| buckets_ := replicate (Z.to_nat num_buckets) empty_bucket;
                 num_buckets_mask_ := mask; size_ := 0; gen_ := g |})
  else Crash.

Definition bucket_at (index : Z) f : result Bucket :=
  match buckets_ f !! Z.to_nat index with
  | Some b => Ok b
  | None => Crash
  end.

(** add(fp32, buckets_[index]), and ++size_ when it succeeds *)
Definition add_at (fp32 index : Z) : ST (HashFilter32 G) bool :=
  let* f := st_get in
  let* b := st_lift (bucket_at index f) in
  match add fp32 b with
  | Some b =>
      let* _ := st_modify (set_buckets (<[Z.to_nat index := b]> (buckets_ f))) in
      let* _ := st_modify (λ f, {| buckets_ := buckets_ f; num_buckets_mask_ := num_buckets_mask_ f;
                                   size_ := u32 (size_ f + 1); gen_ := gen_ f |}) in
      st_ret true
  | None => st_ret false
  end.

(** The swap of the inner loop: the entry that leaves its bucket *)
Definition swap_at (fp32 index slot : Z) : ST (HashFilter32 G) Z :=
  let* f := st_get in
  let* b := st_lift (bucket_at index f) in
  match b !! Z.to_nat slot with
  | None => crash
  | Some entry =>
      let* _ := st_modify
        (set_buckets (<[Z.to_nat index := <[Z.to_nat slot := fp32]> b]> (buckets_ f))) in
      st_ret entry
  end.

(** The inner loop: whether it stored the fingerprint, and what it holds *)
Fixpoint kick (n : nat) (seed fp32 index : Z) : ST (HashFilter32 G) (bool * Z * Z) :=
  match n with
  | O => st_ret (false, fp32, index)
  | S n =>
      let* f := st_get in
      let* fp32 := swap_at fp32 index (Z.land seed 3) in
      let seed := seed ≫ 2 in
      let index := alternate (num_buckets_mask_ f) fp32 index in
      let* stored := add_at fp32 index in
      if stored : bool then st_ret (true, fp32, index) else kick n seed fp32 index
  end.

Definition next_seed : ST (HashFilter32 G) Z := λ f,
  let '(seed, g) := uniform_uint64 (gen_ f) in
  (Ok seed, {| buckets_ := buckets_ f; num_buckets_mask_ := num_buckets_mask_ f;
               size_ := size_ f; gen_ := g |}).

(** The outer loop *)
Fixpoint kicks (n : nat) (fp32 index : Z) : ST (HashFilter32 G) (bool * Z * Z) :=
  match n with
  | O => st_ret (false, fp32, index)
  | S n =>
      let* seed := next_seed in
      let* (stored, fp32, index) := kick 32 seed fp32 index in
      if stored : bool then st_ret (true, fp32, index) else kicks n fp32 index
  end.

(** HashFilter32::insert *)
Definition insert (fingerprint : Z) : ST (HashFilter32 G) bool :=
  let* f := st_get in
  let fp32 := fp32_of fingerprint in
  let index := index_of (num_buckets_mask_ f) fingerprint in
  let* stored := add_at fp32 index in
  if stored : bool then st_ret true
  else
    let index := alternate (num_buckets_mask_ f) fp32 index in
    let* stored := add_at fp32 index in
    if stored : bool then st_ret true
    else
      let* (stored, _, _) := kicks 16 fp32 index in
      st_ret stored.

(** HashFilter32::test *)
Definition test (fingerprint : Z) f : result bool :=
  let fp32 := fp32_of fingerprint in
  let index := index_of (num_buckets_mask_ f) fingerprint in
  b0 ← bucket_at index f;
  b1 ← bucket_at (alternate (num_buckets_mask_ f) fp32 index) f;
  Ok (find_two b0 b1 fp32).

(** A caller that inserts a list of fingerprints. *)
Fixpoint insert_all (fingerprints : list Z) : ST (HashFilter32 G) (list bool) :=
  match fingerprints with
  | [] => st_ret []
  | x :: fingerprints =>
      let* r := insert x in
      let* rs := insert_all fingerprints in
      st_ret (r :: rs)
  end.
End filter.

(** ** The vector code is the scalar loop *)

(** Buckets have four entries. *)
Lemma bucket_inv (b : Bucket) : length b = 4%nat → ∃ w x y z, b = [w; x; y; z].
Proof. destruct b as [|w [|x [|y [|z [|? ?]]]]]; try done. intros _. by exists w, x, y, z. Qed.

(** C23: The AVX2, SSE4.1, SSE2 and NEON versions of find_two return the same as the portable
    loop, for all buckets and fingerprints. *)
Theorem find_two_vector b0 b1 fp32 :
  length b0 = 4%nat → length b1 = 4%nat →
  find_two_avx2 b0 b1 fp32 = find_two b0 b1 fp32 ∧
  find_two_sse41 b0 b1 fp32 = find_two b0 b1 fp32 ∧
  find_two_sse2 b0 b1 fp32 = find_two b0 b1 fp32 ∧
  find_two_neon b0 b1 fp32 = find_two b0 b1 fp32.
Proof.
  intros (a0 & a1 & a2 & a3 & ->)%bucket_inv (c0 & c1 & c2 & c3 & ->)%bucket_inv.
  unfold find_two_avx2, find_two_sse41, find_two_sse2, find_two_neon, find_two.
  cbn [replicate cmpeq_epi32 zip_with app existsb or_si128].
  rewrite !(Z.eqb_sym fp32).
  repeat match goal with |- context [?x =? fp32] => generalize (x =? fp32); intros ? end.
  repeat match goal with b : bool |- _ => destruct b end; by vm_compute.
Qed.

Lemma find_two_vector_witness :
  find_two_neon [1; 0; 5; 0] [5; 6; 0; 0] 5 = find_two [1; 0; 5; 0] [5; 6; 0; 0] 5.
Proof. apply (find_two_vector [1; 0; 5; 0] [5; 6; 0; 0] 5); reflexivity. Defined.

(** ** Where a fingerprint may be *)

Lemma lxor_bound k a b : 0 ≤ k → 0 ≤ a < 2 ^ k → 0 ≤ b < 2 ^ k → 0 ≤ Z.lxor a b < 2 ^ k.
Proof.
  intros Hk Ha Hb. assert (Z.lxor a b = Z.lxor a b mod 2 ^ k) as ->; [|apply Z.mod_pos_bound; lia].
  apply Z.bits_inj'. intros n Hn. destruct (Z.lt_ge_cases n k).
  - by rewrite Z.mod_pow2_bits_low.
  - rewrite Z.mod_pow2_bits_high, Z.lxor_spec by lia.
    rewrite <- (Z.mod_small a (2 ^ k)), <- (Z.mod_small b (2 ^ k)), !Z.mod_pow2_bits_high by lia. done.
Qed.

Definition valid_index (mask i : Z) : Prop := 0 ≤ i ≤ mask.

Section mask.
Context (k mask : Z).
Hypothesis Hk : 0 ≤ k < 32.
Hypothesis Hmask : mask = 2 ^ k - 1.

Lemma alternate_valid fp i : valid_index mask i → valid_index mask (alternate mask fp i).
Proof using Hk Hmask.
  unfold valid_index, alternate. intros. rewrite (land_low_bits _ k) by (done || lia).
  pose proof (Z.mod_pos_bound fp (2 ^ k) ltac:(lia)).
  pose proof (lxor_bound k i (fp mod 2 ^ k)). lia.
Qed.

Lemma index_of_valid x : valid_index mask (index_of mask x).
Proof using Hk Hmask.
  unfold valid_index, index_of. rewrite (land_low_bits _ k) by (done || lia).
  pose proof (Z.mod_pos_bound (x ≫ 32) (2 ^ k) ltac:(lia)).
  assert (2 ^ k < 2 ^ 32) by (apply Z.pow_lt_mono_r; lia).
  rewrite uwrap_id by (unfold in_u; lia). lia.
Qed.
End mask.

(** The second bucket of the second bucket is the first. *)
Lemma alternate_involutive mask fp i : alternate mask fp (alternate mask fp i) = i.
Proof. unfold alternate. by rewrite Z.lxor_assoc, Z.lxor_nilpotent, Z.lxor_0_r. Qed.

(** Bucket [j] is one of the two of a fingerprint whose first is [i]. *)
Definition home (mask i fp j : Z) : Prop := j = i ∨ j = alternate mask fp i.

Lemma home_alternate mask i fp j : home mask i fp (alternate mask fp j) ↔ home mask i fp j.
Proof.
  unfold home. split.
  - intros [H|H]; [right; by rewrite <- H, alternate_involutive|left].
    by rewrite <- (alternate_involutive mask fp j), H, alternate_involutive.
  - intros [->| ->]; [by right|left]. apply alternate_involutive.
Qed.

Lemma home_sym mask i fp j : home mask i fp j ↔ home mask j fp i.
Proof.
  unfold home. split; (intros [->| ->]; [by left|right; by rewrite alternate_involutive]).
Qed.

Lemma fp32_of_nonzero x : fp32_of x ≠ 0.
Proof.
  unfold fp32_of. destruct (Z.eqb_spec (u32 x) 0) as [|Hne]; [|done]. intros H0.
  assert (Z.testbit (u32 (Z.lor (x ≫ 32) 1)) 0 = true) as Hb.
  { unfold uwrap. rewrite Z.mod_pow2_bits_low, Z.lor_spec by lia. apply orb_true_r. }
  by rewrite H0 in Hb.
Qed.

(** ** The buckets *)

Definition holds (bs : list Bucket) (j x : Z) : Prop :=
  ∃ b, bs !! Z.to_nat j = Some b ∧ x ∈ b.

#[export] Instance holds_dec bs j x : Decision (holds bs j x).
Proof.
  unfold holds. destruct (bs !! Z.to_nat j) as [b|] eqn:E.
  - destruct (decide (x ∈ b)); [left; eauto|right; naive_solver].
  - right. naive_solver.
Defined.

Lemma holds_insert bs i b b' j x :
  0 ≤ i → 0 ≤ j → bs !! Z.to_nat i = Some b →
  holds (<[Z.to_nat i := b']> bs) j x ↔ (j = i ∧ x ∈ b') ∨ (j ≠ i ∧ holds bs j x).
Proof.
  intros Hi Hj Hb. unfold holds. destruct (decide (j = i)) as [->|Hne].
  - rewrite list_lookup_insert_eq by (by eapply lookup_lt_Some). naive_solver.
  - rewrite list_lookup_insert_ne by lia. naive_solver.
Qed.

Lemma add_length fp b b' : add fp b = Some b' → length b' = length b.
Proof.
  revert b'. induction b as [|e b IH]; intros b' H; simpl in *; [done|].
  destruct (e =? 0); [by simplify_eq|]. apply bind_Some in H as (b1 & Hb1 & [= <-]).
  simpl. f_equal. auto.
Qed.

Lemma add_elem fp b b' x :
  add fp b = Some b' → x ≠ 0 → x ∈ b' ↔ x ∈ b ∨ x = fp.
Proof.
  intros H Hx. revert b' H. induction b as [|e b IH]; intros b' H; simpl in *; [done|].
  destruct (Z.eqb_spec e 0) as [->|].
  - injection H as <-. rewrite !elem_of_cons. naive_solver.
  - apply bind_Some in H as (b1 & Hb1 & [= <-]). rewrite !elem_of_cons, (IH b1 Hb1). tauto.
Qed.

(** The swap: what was in the bucket or in hand is in the bucket or in hand. *)
Lemma swap_elem (b : Bucket) s e fp x :
  b !! s = Some e → x ∈ (<[s := fp]> b) ∨ x = e ↔ x ∈ b ∨ x = fp.
Proof.
  intros Hs. pose proof (lookup_lt_Some _ _ _ Hs) as Hlt.
  rewrite !list_elem_of_lookup. split.
  - intros [[i Hi]| ->]; [|left; eauto]. destruct (decide (i = s)) as [->|].
    + rewrite list_lookup_insert_eq in Hi by done. right. congruence.
    + rewrite list_lookup_insert_ne in Hi by done. eauto.
  - intros [[i Hi]| ->].
    + destruct (decide (i = s)) as [->|]; [right; congruence|].
      left. exists i. by rewrite list_lookup_insert_ne.
    + left. exists s. by rewrite list_lookup_insert_eq.
Qed.

Section filter_proof.
Context {G : Type} `{!BitGen G}.
Implicit Types f : HashFilter32 G.

Definition wf f : Prop :=
  ∃ k, 0 ≤ k < 32 ∧ num_buckets_mask_ f = 2 ^ k - 1 ∧ zlen (buckets_ f) = 2 ^ k ∧
    Forall (λ b, length b = 4%nat) (buckets_ f).

(** The fingerprint [x] whose first bucket is [i] is in one of its two buckets. *)
Definition stored f (x i : Z) : Prop :=
  ∃ j, home (num_buckets_mask_ f) i x j ∧ holds (buckets_ f) j x.

(** The same when the fingerprint [h.1] that belongs to bucket [h.2] is in hand. *)
Definition present f (h : Z * Z) (x i : Z) : Prop :=
  ∃ j, home (num_buckets_mask_ f) i x j ∧ (holds (buckets_ f) j x ∨ (j = h.2 ∧ x = h.1)).

(** [f'] is a filter for the same number of buckets. *)
Definition step_ok f f' : Prop := wf f' ∧ num_buckets_mask_ f' = num_buckets_mask_ f.

Lemma present_split f h x i :
  present f h x i ↔ stored f x i ∨ (x = h.1 ∧ home (num_buckets_mask_ f) i x h.2).
Proof. unfold present, stored. naive_solver. Qed.

Lemma present_alternate f e j x i :
  present f (e, alternate (num_buckets_mask_ f) e j) x i ↔ present f (e, j) x i.
Proof.
  rewrite !present_split. apply or_iff_compat_l, and_under. simpl. intros ->. apply home_alternate.
Qed.

Lemma home_valid f i x j : wf f → valid_index (num_buckets_mask_ f) i →
  home (num_buckets_mask_ f) i x j → valid_index (num_buckets_mask_ f) j.
Proof. intros (k & Hk & Hm & _) Hi [->| ->]; [done|]. by eapply alternate_valid. Qed.

Lemma bucket_at_ok f i :
  wf f → valid_index (num_buckets_mask_ f) i →
  ∃ b, bucket_at i f = Ok b ∧ buckets_ f !! Z.to_nat i = Some b ∧ length b = 4%nat.
Proof.
  intros (k & Hk & Hm & Hl & Hb) [??]. unfold bucket_at.
  destruct (lookup_lt_is_Some_2 (buckets_ f) (Z.to_nat i)) as [b Hi]; [unfold zlen in *; lia|].
  rewrite Hi. exists b. split_and!; [done..|]. by eapply Forall_lookup_1 in Hb.
Qed.

Lemma set_buckets_ok f i b :
  wf f → length b = 4%nat → step_ok f (set_buckets (<[i := b]> (buckets_ f)) f).
Proof.
  intros (k & Hk & Hm & Hl & Hb) Hb'. split; [|done]. exists k.
  cbn [set_buckets buckets_ num_buckets_mask_]. split_and!; try done; try lia.
  - unfold zlen. by rewrite length_insert.
  - by apply Forall_insert.
Qed.

Lemma add_at_ok f fp i :
  wf f → valid_index (num_buckets_mask_ f) i →
  ∃ r f', add_at fp i f = (Ok r, f') ∧ step_ok f f' ∧
    if r : bool then
      ∀ x j, x ≠ 0 → valid_index (num_buckets_mask_ f) j → stored f' x j ↔ present f (fp, i) x j
    else f' = f.
Proof.
  intros Hwf Hi. destruct (bucket_at_ok f i Hwf Hi) as (b & Hat & Hlk & Hlen).
  unfold add_at. erewrite st_bind_ok by done. st_lift_step ltac:(exact Hat).
  destruct (add fp b) as [b'|] eqn:Hadd; [|exists false, f; by repeat split].
  exists true. do 2 erewrite st_bind_ok by done. eexists. split; [done|].
  pose proof (set_buckets_ok f (Z.to_nat i) b' Hwf) as Hok. rewrite (add_length _ _ _ Hadd) in Hok.
  destruct (Hok Hlen) as [Hwf' Hm']. split; [by split|].
  intros x j Hx Hj. unfold stored, present. simpl. apply ex_under. intros j'.
  apply and_under. intros Hh. pose proof (home_valid f j x j' Hwf Hj Hh) as [??].
  rewrite (holds_insert _ _ b) by (done || apply Hi). rewrite (add_elem _ _ _ _ Hadd Hx).
  destruct (decide (j' = i)) as [->|]; unfold holds; naive_solver.
Qed.

Lemma swap_at_ok f fp i slot :
  wf f → valid_index (num_buckets_mask_ f) i → 0 ≤ slot < 4 →
  ∃ e f', swap_at fp i slot f = (Ok e, f') ∧ step_ok f f' ∧
    ∀ x j, valid_index (num_buckets_mask_ f) j → present f' (e, i) x j ↔ present f (fp, i) x j.
Proof.
  intros Hwf Hi Hs. destruct (bucket_at_ok f i Hwf Hi) as (b & Hat & Hlk & Hlen).
  unfold swap_at. erewrite st_bind_ok by done. st_lift_step ltac:(exact Hat).
  destruct (lookup_lt_is_Some_2 b (Z.to_nat slot)) as [e He]; [lia|]. rewrite He.
  exists e. erewrite st_bind_ok by done. eexists. split; [done|].
  split; [apply set_buckets_ok; [done|by rewrite length_insert]|].
  intros x j Hj. unfold present. simpl. apply ex_under. intros j'.
  apply and_under. intros Hh. pose proof (home_valid f j x j' Hwf Hj Hh) as [??].
  rewrite (holds_insert _ _ b) by (done || apply Hi). pose proof (swap_elem b _ e fp x He) as Hsw.
  destruct (decide (j' = i)) as [->|]; unfold holds; naive_solver.
Qed.

(** What a loop of insert leaves: everything is stored, or a fingerprint is left
    in hand. *)
Definition kicked f (h : Z * Z) (r : bool) (h' : Z * Z) f' : Prop :=
  step_ok f f' ∧ valid_index (num_buckets_mask_ f) h'.2 ∧
  ∀ x j, x ≠ 0 → valid_index (num_buckets_mask_ f) j →
    (if r then stored f' x j else present f' h' x j) ↔ present f h x j.

Lemma kick_ok n f seed fp i :
  wf f → valid_index (num_buckets_mask_ f) i →
  ∃ r fp' i' f', kick n seed fp i f = (Ok (r, fp', i'), f') ∧ kicked f (fp, i) r (fp', i') f'.
Proof.
  revert f seed fp i. induction n as [|n IH]; intros f seed fp i Hwf Hi; cbn [kick].
  { exists false, fp, i, f. split; [done|]. split; [by split|]. by split. }
  erewrite st_bind_ok by done.
  assert (0 ≤ Z.land seed 3 < 4) as Hslot
    by (rewrite (land_low_bits seed 2) by done; apply Z.mod_pos_bound; lia).
  destruct (swap_at_ok f fp i (Z.land seed 3) Hwf Hi Hslot) as (e & f1 & H1 & [Hwf1 Hm1] & Hp1).
  rewrite (st_bind_ok _ _ _ _ _ H1). set (i1 := alternate _ e i).
  assert (valid_index (num_buckets_mask_ f1) i1) as Hi1.
  { rewrite Hm1. destruct Hwf as (k & Hk & Hm & _). by eapply alternate_valid. }
  assert (∀ x j, valid_index (num_buckets_mask_ f) j →
    present f1 (e, i1) x j ↔ present f (fp, i) x j) as Hp.
  { intros x j Hj. rewrite <- (Hp1 x j Hj). unfold i1. rewrite <- Hm1. apply present_alternate. }
  destruct (add_at_ok f1 e i1 Hwf1 Hi1) as (r & f2 & H2 & [Hwf2 Hm2] & Hr).
  rewrite (st_bind_ok _ _ _ _ _ H2). destruct r.
  - exists true, e, i1, f2. split; [done|]. split; [split; [done|congruence]|].
    split; [by rewrite <- Hm1|].
    intros x j Hx Hj. rewrite Hr by (done || by rewrite Hm1). auto.
  - subst f2. destruct (IH f1 (seed ≫ 2) e i1 Hwf1 Hi1) as (r & fp' & i' & f' & Hk & [Hwf' Hm'] & Hi' & Hp').
    exists r, fp', i', f'. split; [done|]. split; [split; [done|congruence]|].
    split; [by rewrite <- Hm1|].
    intros x j Hx Hj. rewrite Hp' by (done || by rewrite Hm1). auto.
Qed.

Lemma kicks_ok n f fp i :
  wf f → valid_index (num_buckets_mask_ f) i →
  ∃ r fp' i' f', kicks n fp i f = (Ok (r, fp', i'), f') ∧ kicked f (fp, i) r (fp', i') f'.
Proof.
  revert f fp i. induction n as [|n IH]; intros f fp i Hwf Hi; cbn [kicks].
  { exists false, fp, i, f. split; [done|]. split; [by split|]. by split. }
  unfold next_seed, st_bind at 1. destruct (uniform_uint64 (gen_ f)) as [seed g].
  set (f0 := {| buckets_ := buckets_ f |}).
  destruct (kick_ok 32 f0 seed fp i Hwf Hi) as (r & fp1 & i1 & f1 & H1 & [Hwf1 Hm1] & Hi1 & Hp1).
  rewrite (st_bind_ok _ _ _ _ _ H1). destruct r.
  - exists true, fp1, i1, f1. by split.
  - destruct (IH f1 fp1 i1) as (r & fp' & i' & f' & H2 & [Hwf' Hm'] & Hi' & Hp');
      [done|by rewrite Hm1|].
    exists r, fp', i', f'. split; [done|].
    split; [split; [done|by rewrite Hm', Hm1]|]. split; [by rewrite Hm1 in Hi'|].
    intros x j Hx Hj. rewrite Hp' by (done || by rewrite Hm1). by apply Hp1.
Qed.

Lemma insert_ok f x :
  wf f →
  let h := (fp32_of x, index_of (num_buckets_mask_ f) x) in
  ∃ (r : bool) h' f', insert x f = (Ok r, f') ∧ kicked f h r h' f'.
Proof.
  intros Hwf h. pose proof Hwf as (k & Hk & Hm & _). unfold insert. erewrite st_bind_ok by done.
  assert (valid_index (num_buckets_mask_ f) h.2) as Hi by (by eapply index_of_valid).
  destruct (add_at_ok f h.1 h.2 Hwf Hi) as (r & f1 & H1 & Hok1 & Hr1).
  rewrite (st_bind_ok _ _ _ _ _ H1). destruct r; [by exists true, h, f1|]. subst f1.
  set (i := alternate _ _ _).
  assert (valid_index (num_buckets_mask_ f) i) as Hi' by (by eapply alternate_valid).
  assert (∀ y j, present f (h.1, i) y j ↔ present f h y j) as Halt
    by (intros; apply present_alternate).
  destruct (add_at_ok f h.1 i Hwf Hi') as (r & f2 & H2 & Hok2 & Hr2).
  rewrite (st_bind_ok _ _ _ _ _ H2). destruct r.
  { exists true, h, f2. split; [done|]. split; [done|]. split; [done|].
    intros y j Hy Hj. by rewrite Hr2, Halt. }
  subst f2. destruct (kicks_ok 16 f h.1 i Hwf Hi') as (r & fp' & i' & f' & H3 & Hok3 & Hi3 & Hp3).
  rewrite (st_bind_ok _ _ _ _ _ H3). exists r, (fp', i'), f'. split; [done|]. split; [done|].
  split; [done|]. intros y j Hy Hj. by rewrite Hp3, Halt.
Qed.

#[export] Instance stored_dec f x i : Decision (stored f x i).
Proof.
  destruct (decide (holds (buckets_ f) i x)) as [H1|H1];
    [left; exists i; split; [by left|done]|].
  destruct (decide (holds (buckets_ f) (alternate (num_buckets_mask_ f) x i) x)) as [H2|H2];
    [left; eexists; split; [by right|done]|].
  right. intros (j & [->| ->] & Hj); done.
Defined.

Lemma test_ok f x :
  wf f →
  test x f = Ok (bool_decide (stored f (fp32_of x) (index_of (num_buckets_mask_ f) x))).
Proof.
  intros Hwf. pose proof Hwf as (k & Hk & Hm & _). unfold test.
  set (i := index_of _ x). set (fp := fp32_of x).
  assert (valid_index (num_buckets_mask_ f) i) as Hi by (by eapply index_of_valid).
  destruct (bucket_at_ok f i Hwf Hi) as (b0 & -> & Hl0 & _). cbn [mbind result_bind].
  destruct (bucket_at_ok f (alternate (num_buckets_mask_ f) fp i) Hwf) as (b1 & -> & Hl1 & _);
    [by eapply alternate_valid|]. cbn [mbind result_bind]. f_equal.
  apply eq_true_iff_eq. rewrite bool_decide_eq_true. unfold find_two, stored, home, holds.
  rewrite orb_true_iff, !existsb_exists. setoid_rewrite <- list_elem_of_In.
  setoid_rewrite Z.eqb_eq. split.
  - intros [(? & ? & <-)|(? & ? & <-)]; eauto 10.
  - intros (j & [->| ->] & b & Hb & Hin); [left|right]; eexists; (split; [|done]); congruence.
Qed.

(** Two fingerprints that the filter does not tell apart. *)
Definition same_class (mask x y : Z) : bool :=
  (fp32_of x =? fp32_of y) &&
  ((index_of mask y =? index_of mask x) ||
   (index_of mask y =? alternate mask (fp32_of x) (index_of mask x))).

Lemma same_class_spec mask x y :
  same_class mask x y = true ↔
  fp32_of x = fp32_of y ∧ home mask (index_of mask x) (fp32_of x) (index_of mask y).
Proof.
  unfold same_class, home. by rewrite andb_true_iff, orb_true_iff, !Z.eqb_eq.
Qed.

Lemma make_ok k (g : G) :
  0 ≤ k < 32 →
  ∃ f, make (2 ^ k) g = Ok f ∧ wf f ∧ num_buckets_mask_ f = 2 ^ k - 1 ∧
    ∀ x i, x ≠ 0 → ¬ stored f x i.
Proof.
  intros Hk. assert (0 < 2 ^ k) by (apply Z.pow_pos_nonneg; lia).
  assert (2 ^ k < 2 ^ 32) by (apply Z.pow_lt_mono_r; lia). unfold make.
  rewrite (uwrap_id 32 (2 ^ k - 1)), Z.sub_add, uwrap_id by (unfold in_u; lia).
  rewrite (land_low_bits _ k), Z.mod_same by (done || lia). simpl. unfold clear. simpl.
  rewrite Z.sub_add, uwrap_id by (unfold in_u; lia). eexists. split; [done|]. split; [|split; [done|]].
  - exists k. cbn [buckets_ num_buckets_mask_]. split; [done|]. split; [done|]. split.
    + unfold zlen. rewrite length_replicate. lia.
    + by apply Forall_replicate.
  - intros x i Hx (j & _ & b & Hb & Hin). simpl in Hb. apply lookup_replicate in Hb as [-> _].
    unfold empty_bucket in Hin. rewrite !elem_of_cons, elem_of_nil in Hin. naive_solver.
Qed.

Lemma insert_all_ok fs f :
  wf f →
  ∃ rs f', insert_all fs f = (Ok rs, f') ∧ step_ok f f' ∧ length rs = length fs ∧
    (forallb id rs = true → ∀ x,
       stored f' (fp32_of x) (index_of (num_buckets_mask_ f) x) ↔
       stored f (fp32_of x) (index_of (num_buckets_mask_ f) x) ∨
       existsb (same_class (num_buckets_mask_ f) x) fs = true).
Proof.
  revert f. induction fs as [|y fs IH]; intros f Hwf; cbn [insert_all].
  { exists [], f. split; [done|]. split; [by split|]. split; [done|]. intros _ x. simpl. naive_solver. }
  destruct (insert_ok f y Hwf) as (r & h' & f1 & H1 & [Hwf1 Hm1] & _ & Hp).
  destruct (IH f1 Hwf1) as (rs & f2 & H2 & [Hwf2 Hm2] & Hlen & Hs).
  exists (r :: rs), f2. rewrite (st_bind_ok _ _ _ _ _ H1), (st_bind_ok _ _ _ _ _ H2).
  split; [done|]. split; [by split; [|congruence]|]. split; [simpl; lia|].
  simpl. rewrite andb_true_iff. intros [-> Hrs] x. rewrite Hm1 in Hs.
  rewrite (Hs Hrs x), Hp, present_split by (apply fp32_of_nonzero ||
    (destruct Hwf as (k & ? & ? & _); by eapply index_of_valid)).
  rewrite orb_true_iff, same_class_spec. simpl. tauto.
Qed.

(** A filter that took everything answers for exactly what it took. *)
Lemma insert_all_exact k (g : G) f fs rs f' x :
  0 ≤ k < 32 → make (2 ^ k) g = Ok f → insert_all fs f = (Ok rs, f') → forallb id rs = true →
  test x f' = Ok (existsb (same_class (2 ^ k - 1) x) fs).
Proof.
  intros Hk Hmk Hrun Hrs. destruct (make_ok k g Hk) as (f0 & Hmk' & Hwf & Hm & Hempty).
  rewrite Hmk in Hmk'. injection Hmk' as <-.
  destruct (insert_all_ok fs f Hwf) as (rs' & f1 & H1 & [Hwf' Hm'] & Hlen & Hs).
  rewrite Hrun in H1. injection H1 as <- <-.
  rewrite test_ok by done. f_equal.
  apply eq_true_iff_eq. rewrite bool_decide_eq_true, Hm', (Hs Hrs x), <- Hm.
  pose proof (Hempty (fp32_of x) (index_of (num_buckets_mask_ f) x) (fp32_of_nonzero x)). tauto.
Qed.

(** C4: A filter with 2^k buckets, through any sequence of inserts that all returned true
    (relocations by random kicks included), answers test(x) with exactly whether some
    inserted fingerprint has the same stored 32-bit part and the same pair of buckets as x:
    no false negatives, and false positives only from that collision. The inserts never fault
    or fail to end. *)
Theorem hash_filter_exact k (g : G) :
  0 ≤ k < 32 →
  ∃ f, make (2 ^ k) g = Ok f ∧ ∀ fs, ∃ rs f', insert_all fs f = (Ok rs, f') ∧
    length rs = length fs ∧
    (forallb id rs = true → ∀ x, test x f' = Ok (existsb (same_class (2 ^ k - 1) x) fs)).
Proof.
  intros Hk. destruct (make_ok k g Hk) as (f & Hmk & Hwf & Hm & Hempty). exists f. split; [done|].
  intros fs. destruct (insert_all_ok fs f Hwf) as (rs & f' & H1 & _ & Hlen & _).
  exists rs, f'. split_and!; [done..|]. intros Hrs x. by eapply insert_all_exact.
Qed.

(** C8: An insert that returns false keeps the invariant of the filter and loses at most one
    fingerprint: everything that was found before, and the new fingerprint, is still found,
    except those that share the one 32-bit value left over and its bucket. *)
Theorem hash_filter_full f x f' :
  wf f → insert x f = (Ok false, f') →
  wf f' ∧ ∃ lost bucket, ∀ y,
    test y f = Ok true ∨ same_class (num_buckets_mask_ f) y x = true →
    test y f' = Ok true ∨
    (fp32_of y = lost ∧ home (num_buckets_mask_ f) (index_of (num_buckets_mask_ f) y) lost bucket).
Proof.
  intros Hwf Hins. destruct (insert_ok f x Hwf) as (r & h & f1 & H1 & [Hwf1 Hm1] & _ & Hp).
  rewrite Hins in H1. injection H1 as <- <-. split; [done|]. exists h.1, h.2. intros y Hy.
  rewrite !test_ok, same_class_spec in * by done. rewrite Hm1.
  specialize (Hp (fp32_of y) (index_of (num_buckets_mask_ f) y) (fp32_of_nonzero y)).
  rewrite !present_split in Hp. simpl in Hp. rewrite Hm1 in Hp.
  assert (∀ P `{Decision P}, Ok (bool_decide P) = Ok true ↔ P) as HB.
  { intros P ?. split; [intros [= ?%bool_decide_eq_true]; done|]. intros.
    by rewrite bool_decide_eq_true_2. }
  rewrite HB in *. destruct Hp as [_ Hp].
  - destruct Hwf as (k & ? & ? & _). by eapply index_of_valid.
  - destruct Hp as [?|[? Hh]]; [|by left|right; split; [done|by rewrite <- H]].
    destruct Hy as [?|[? ?]]; [by left|by right].
Qed.
End filter_proof.

Definition example_gen : lcg := {| lcg_state := 7 |}.

(** One bucket with the fingerprints 1 to 4. *)
Definition full_filter : HashFilter32 lcg :=
  {| buckets_ := [[1; 2; 3; 4]]; num_buckets_mask_ := 0; size_ := 4; gen_ := example_gen |}.

Lemma full_filter_wf : wf full_filter.
Proof. exists 0. split; [lia|]. split; [done|]. split; [done|]. by repeat constructor. Qed.

Lemma hash_filter_exact_witness :
  ∃ f, make 4 example_gen = Ok f ∧ ∃ rs f', insert_all [5; 2 ^ 32 + 9] f = (Ok rs, f') ∧
    length rs = 2%nat ∧ (forallb id rs = true → test 5 f' = Ok true ∧ test 6 f' = Ok false).
Proof.
  destruct (hash_filter_exact 2 example_gen ltac:(lia)) as (f & Hf & Hall).
  exists f. split; [exact Hf|].
  destruct (Hall [5; 2 ^ 32 + 9]) as (rs & f' & H1 & H2 & H3). exists rs, f'.
  split; [exact H1|]. split; [exact H2|]. intros Hrs. rewrite !(H3 Hrs). split; reflexivity.
Defined.

Lemma hash_filter_full_witness :
  (insert 5 full_filter).1 = Ok false ∧ wf (insert 5 full_filter).2.
Proof.
  assert ((insert 5 full_filter).1 = Ok false) as Hr by (vm_compute; reflexivity).
  split; [exact Hr|].
  destruct (hash_filter_full full_filter 5 (insert 5 full_filter).2 full_filter_wf) as [Hwf _].
  - destruct (insert 5 full_filter). simpl in *. by rewrite Hr.
  - exact Hwf.
Defined.

(** An insert that returns false is not a no-op: in a full filter it stores the new
    fingerprint and drops one that was inserted successfully, which test then no longer
    finds. *)
Theorem hash_filter_full_forgets :
  test 3 full_filter = Ok true ∧
  (insert 5 full_filter).1 = Ok false ∧
  test 5 (insert 5 full_filter).2 = Ok true ∧
  test 3 (insert 5 full_filter).2 = Ok false.
Proof. by vm_compute. Qed.
