(* ===== verification/HashFilterSize.v ===== *)
(** * util/hash-filter: the number of entries

    size() counts the inserts that returned true, and these are the entries in use: a kick
    swaps a stored fingerprint for another, and the last one that is left in hand when the
    kicks give up is dropped without a place of its own. *)

From S2P Require Import Prelude Random HashFilter.

(** The entries in use of a bucket and of all buckets *)
Definition in_use (b : Bucket) : nat := length (filter (λ e, e ≠ 0) b).

Definition occupied (bs : list Bucket) : nat := sum_list_with in_use bs.

Definition full (b : Bucket) : Prop := Forall (λ e, e ≠ 0) b.

Lemma in_use_bound b : (in_use b ≤ length b)%nat.
Proof. apply length_filter. Qed.

Lemma add_in_use fp b b' : fp ≠ 0 → add fp b = Some b' → in_use b' = S (in_use b).
Proof.
  intros Hfp. revert b'. induction b as [|e b IH]; intros b' H; simpl in *; [done|]. unfold in_use in *.
  destruct (Z.eqb_spec e 0) as [->|He].
  - injection H as <-. by rewrite filter_cons_True, filter_cons_False by (done || by intros []).
  - apply bind_Some in H as (b1 & Hb1 & [= <-]). rewrite !filter_cons_True by done. simpl. f_equal. by apply IH.
Qed.

Lemma add_full fp b : add fp b = None → full b.
Proof.
  induction b as [|e b IH]; intros H; simpl in *; [constructor|]. destruct (Z.eqb_spec e 0); [done|].
  apply bind_None in H as [H|(? & _ & H)]; [|done]. constructor; [done|by apply IH].
Qed.

Lemma full_in_use b : full b → in_use b = length b.
Proof. induction 1 as [|e b He _ IH]; [done|]. unfold in_use in *. rewrite filter_cons_True by done. simpl. by f_equal. Qed.

Lemma swap_full b s e fp : full b → b !! s = Some e → fp ≠ 0 → full (<[s := fp]> b) ∧ e ≠ 0.
Proof. intros Hb He Hfp. split; [by apply Forall_insert|]. by eapply Forall_lookup_1 in Hb. Qed.

Lemma occupied_insert bs i b b' :
  bs !! i = Some b → (occupied (<[i := b']> bs) + in_use b = occupied bs + in_use b')%nat.
Proof.
  unfold occupied. revert i. induction bs as [|x bs IH]; intros [|i] H; simplify_eq/=; [lia|].
  apply IH in H. lia.
Qed.

Lemma occupied_bound bs : Forall (λ b, length b = 4%nat) bs → (occupied bs ≤ 4 * length bs)%nat.
Proof.
  unfold occupied. induction 1 as [|b bs Hb _ IH]; [done|]. simpl. pose proof (in_use_bound b). lia.
Qed.

Section size.
Context {G : Type} `{!BitGen G}.
Implicit Types f : HashFilter32 G.

(** An insertion that stored an entry, or none *)
Definition counted (stored : bool) f f' : Prop :=
  occupied (buckets_ f') = (occupied (buckets_ f) + Nat.b2n stored)%nat ∧
  size_ f' = if stored then u32 (size_ f + 1) else size_ f.

Definition full_at f (i : Z) : Prop := ∀ b, buckets_ f !! Z.to_nat i = Some b → full b.

Lemma counted_trans r f1 f2 f3 : counted false f1 f2 → counted r f2 f3 → counted r f1 f3.
Proof. intros [H1 H2] [H3 H4]. split; [simpl in *; lia|]. by destruct r; simpl in *; rewrite H4, H2. Qed.

Lemma bucket_at_inv f i b : bucket_at i f = Ok b → buckets_ f !! Z.to_nat i = Some b.
Proof. unfold bucket_at. by destruct (buckets_ f !! Z.to_nat i); intros; simplify_eq. Qed.

Lemma add_at_counted fp i f r f' :
  fp ≠ 0 → add_at fp i f = (Ok r, f') → counted r f f' ∧ (r = false → f' = f ∧ full_at f i).
Proof.
  intros Hfp H. unfold add_at in H. st_inv H. apply bucket_at_inv in Ha.
  destruct (add fp a) as [b|] eqn:Hadd; st_inv H.
  - split; [|done]. split; [|done]. simpl. pose proof (occupied_insert _ _ _ b Ha).
    apply add_in_use in Hadd; [|done]. lia.
  - split; [split; [simpl; lia|done]|]. intros _. split; [done|]. intros b Hb. simplify_eq. by eapply add_full.
Qed.

Lemma swap_at_counted fp i slot f e f' :
  fp ≠ 0 → full_at f i → swap_at fp i slot f = (Ok e, f') → counted false f f' ∧ e ≠ 0.
Proof.
  intros Hfp Hf H. unfold swap_at in H. st_inv H. apply bucket_at_inv in Ha. specialize (Hf _ Ha).
  destruct (a !! Z.to_nat slot) as [e'|] eqn:He; [|done]. st_inv H.
  destruct (swap_full _ _ _ fp Hf He Hfp) as [Hf' He']. split; [|done]. split; [|done]. simpl.
  pose proof (occupied_insert _ _ _ (<[Z.to_nat slot := fp]> a) Ha).
  apply full_in_use in Hf, Hf'. rewrite length_insert in Hf'. lia.
Qed.

Lemma kick_counted n seed fp i f r fp' i' f' :
  fp ≠ 0 → full_at f i → kick n seed fp i f = (Ok (r, fp', i'), f') →
  counted r f f' ∧ (r = false → fp' ≠ 0 ∧ full_at f' i').
Proof.
  revert seed fp i f. induction n as [|n IH]; intros seed fp i f Hfp Hf H; cbn [kick] in H; st_inv H.
  { subst. split; [split; [simpl; lia|done]|]. done. }
  apply swap_at_counted in Hm as [Hc He]; [|done..].
  apply add_at_counted in Hm0 as [Hc0 Hr]; [|done]. destruct a0; st_inv H.
  - subst. split; [by eapply counted_trans|done].
  - destruct (Hr eq_refl) as [-> Hf']. apply IH in H as [Hc' Hr']; [|done..].
    split; [by eapply counted_trans|done].
Qed.

Lemma kicks_counted n fp i f r fp' i' f' :
  fp ≠ 0 → full_at f i → kicks n fp i f = (Ok (r, fp', i'), f') → counted r f f'.
Proof.
  revert fp i f. induction n as [|n IH]; intros fp i f Hfp Hf H; cbn [kicks] in H; st_inv H.
  { subst. split; [simpl; lia|done]. }
  unfold next_seed in Hm. destruct (uniform_uint64 (gen_ f)) as [seed g]. injection Hm as <- <-.
  destruct a0 as [[r1 fp1] i1]. apply kick_counted in Hm0 as [Hc Hr]; [|done|exact Hf].
  destruct r1; st_inv H; [by subst|]. destruct (Hr eq_refl) as [Hfp1 Hf1].
  apply IH in H; [|done..]. by eapply counted_trans.
Qed.

Lemma insert_counted x f r f' : insert x f = (Ok r, f') → counted r f f'.
Proof.
  intros H. unfold insert in H. pose proof (fp32_of_nonzero x) as Hfp. st_inv H.
  apply add_at_counted in Hm as [Hc Hr]; [|done]. destruct a; st_inv H; [done|].
  destruct (Hr eq_refl) as [-> _]. apply add_at_counted in Hm as [Hc1 Hr1]; [|done].
  destruct a; st_inv H; [done|]. destruct (Hr1 eq_refl) as [-> Hf]. destruct a as [[r1 fp1] i1]. st_inv H.
  by apply kicks_counted in Hm.
Qed.

(** How many of the inserts returned true *)
Definition successes (rs : list bool) : nat := length (filter (λ r, r = true) rs).

Lemma insert_all_counted fs f rs f' :
  insert_all fs f = (Ok rs, f') →
  occupied (buckets_ f') = (occupied (buckets_ f) + successes rs)%nat ∧
  (size_ f = u32 (Z.of_nat (occupied (buckets_ f))) → size_ f' = u32 (Z.of_nat (occupied (buckets_ f')))).
Proof.
  revert f rs. induction fs as [|x fs IH]; intros f rs H; cbn [insert_all] in H; st_inv H.
  { split; [unfold successes; simpl; lia|done]. }
  apply insert_counted in Hm as [Ho Hs]. apply IH in Hm0 as [Ho' Hs']. unfold successes in *. split.
  - destruct a; [rewrite filter_cons_True by done|rewrite filter_cons_False by done]; simpl in *; lia.
  - intros Hi. apply Hs'. rewrite Ho. destruct a; rewrite Hs, Hi; simpl.
    + unfold uwrap. rewrite Zplus_mod_idemp_l. f_equal. lia.
    + f_equal. lia.
Qed.

Lemma make_empty k (g : G) f : make (2 ^ k) g = Ok f → occupied (buckets_ f) = 0%nat ∧ size_ f = 0.
Proof.
  intros Hmk. unfold make in Hmk. destruct (_ =? 0); simplify_eq. split; [|done]. unfold clear. cbn [buckets_].
  generalize (Z.to_nat (u32 (num_buckets_mask_ {| buckets_ := replicate (Z.to_nat (2 ^ k)) empty_bucket;
    num_buckets_mask_ := u32 (2 ^ k - 1); size_ := 0; gen_ := g |} + 1))).
  intros n. by induction n.
Qed.

Lemma insert_all_size k (g : G) f fs rs f' :
  0 ≤ k < 32 → make (2 ^ k) g = Ok f → insert_all fs f = (Ok rs, f') →
  occupied (buckets_ f') = successes rs ∧ size_ f' = u32 (Z.of_nat (successes rs)) ∧
  Z.of_nat (successes rs) ≤ 4 * 2 ^ k.
Proof.
  intros Hk Hmk Hrun. destruct (make_ok k g Hk) as (f0 & Hmk' & Hwf & Hm & _).
  rewrite Hmk in Hmk'. injection Hmk' as <-.
  destruct (insert_all_ok fs f Hwf) as (rs' & f1 & H1 & [(k' & _ & Hm' & Hl & Hb) Hm''] & _).
  rewrite Hrun in H1. injection H1 as <- <-.
  destruct (make_empty k g f Hmk) as [Ho Hs].
  destruct (insert_all_counted _ _ _ _ Hrun) as [Ho' Hs']. rewrite Ho in Ho', Hs'. simpl in Ho'.
  split_and!; [done|by rewrite <- Ho'; apply Hs'|].
  apply occupied_bound in Hb. rewrite <- Ho'. unfold zlen in Hl. lia.
Qed.

(** C20: Through any sequence of inserts into a filter of 2^k buckets, HashFilter32::size()
    is the number of inserts that returned true, which is the number of entries in use and at
    most four per bucket; kicks move entries and an insert that fails leaves their number as
    it was. *)
Theorem hash_filter_size k (g : G) :
  0 ≤ k < 32 →
  ∃ f, make (2 ^ k) g = Ok f ∧ ∀ fs, ∃ rs f', insert_all fs f = (Ok rs, f') ∧
    occupied (buckets_ f') = successes rs ∧ size_ f' = u32 (Z.of_nat (successes rs)) ∧
    Z.of_nat (successes rs) ≤ 4 * 2 ^ k.
Proof.
  intros Hk. destruct (make_ok k g Hk) as (f & Hmk & Hwf & _). exists f. split; [done|]. intros fs.
  destruct (insert_all_ok fs f Hwf) as (rs & f' & Hrun & _). exists rs, f'. split; [done|].
  by eapply insert_all_size.
Qed.
End size.

(** Nine inserts into the eight entries of two buckets: one fails. *)
Lemma hash_filter_size_witness :
  ∃ f rs f', make 2 example_gen = Ok f ∧ insert_all [1; 2; 3; 4; 5; 6; 7; 8; 9] f = (Ok rs, f') ∧
    size_ f' = 8 ∧ successes rs = 8%nat.
Proof.
  destruct (hash_filter_size 1 example_gen ltac:(lia)) as (f & Hmk & Hall).
  destruct (Hall [1; 2; 3; 4; 5; 6; 7; 8; 9]) as (rs & f' & Hrun & _ & Hs & _).
  exists f, rs, f'. split; [exact Hmk|]. split; [exact Hrun|].
  vm_compute in Hmk. injection Hmk as <-. vm_compute in Hrun. injection Hrun as <- _.
  split; [rewrite Hs|]; reflexivity.
Defined.
