(* ===== verification/HashFilterStats.v ===== *)
(** * util/hash-filter_stats

    The program fills a filter with random fingerprints, counts how many of them and how
    many others it answers for, and prints the numbers.  [stats] is main with the numbers
    of buckets, inserts and tests as arguments; the counters are ints. *)

From Stdlib Require Import String.
From S2P Require Import Prelude File MemoryFile OStream TextStream Random HashFilter HashFilterSize.
#[local] Open Scope list_scope.

Record Sample (G : Type) : Type := { gen : G; filter_ : HashFilter32 G; fingerprints : list Z }.
Arguments gen {_}. Arguments filter_ {_}. Arguments fingerprints {_}.

Section program.
Context {G : Type} `{!BitGen G}.

(** The first loop *)
Fixpoint insert_loop (n : nat) : ST (Sample G) unit :=
  match n with
  | O => st_ret tt
  | S n =>
      let* s := st_get in
      let '(fingerprint, g) := uniform_uint64 (gen s) in
      let* _ := zoom filter_ (λ f s, {| gen := g; filter_ := f; fingerprints := fingerprints s |})
                  (HashFilter.insert fingerprint) in
      let* _ := st_modify (λ s, {| gen := gen s; filter_ := filter_ s;
                                   fingerprints := fingerprints s ++ [fingerprint] |}) in
      insert_loop n
  end.

(** The body of the other loops: test, and count on one of two counters *)
Definition count_test (f : HashFilter32 G) (fingerprint : Z) (counts : Z * Z) : result (Z * Z) :=
  found ← test fingerprint f;
  if found : bool then hits ← check_s 32 (counts.1 + 1); Ok (hits, counts.2)
  else misses ← check_s 32 (counts.2 + 1); Ok (counts.1, misses).

(** The second loop *)
Fixpoint recount (f : HashFilter32 G) (fingerprints : list Z) (counts : Z * Z) : result (Z * Z) :=
  match fingerprints with
  | [] => Ok counts
  | x :: fingerprints => counts ← count_test f x counts; recount f fingerprints counts
  end.

(** The third loop *)
Fixpoint probe (f : HashFilter32 G) (n : nat) (g : G) (counts : Z * Z) : result (Z * Z) :=
  match n with
  | O => Ok counts
  | S n =>
      let '(x, g) := uniform_uint64 g in
      counts ← count_test f x counts; probe f n g counts
  end.

Context {F : Type} `{!File F} (fuel : nat).

(** os << label << number << std::endl *)
Definition report (label : string) (number : Z) : ST (ostream F) unit :=
  let* _ := emit fuel [str label ++ dec number] in
  flush fuel.

Definition stats (num_buckets : Z) (inserts tests : nat) (g g' : G) (out : F) : result unit * F :=
  finish fuel (
    let* f := st_lift (HashFilter.make num_buckets g') in
    let '(r, s) := insert_loop inserts {| gen := g; filter_ := f; fingerprints := [] |} in
    let* _ := st_lift r in
    let* _ := report "inserted " (size_ (filter_ s)) in
    let* (true_positives, false_negatives) := st_lift (recount (filter_ s) (fingerprints s) (0, 0)) in
    let* _ := report "true positives " true_positives in
    let* _ := report "false negatives " false_negatives in
    let* (false_positives, true_negatives) := st_lift (probe (filter_ s) tests (gen s) (0, 0)) in
    let* _ := report "false positives " false_positives in
    report "true negatives " true_negatives) out.

Definition main : G → G → F → result unit * F := stats 262144 (Z.to_nat 950000) (Z.to_nat 10000000).
End program.

(** ** What it prints *)

Definition stats_lines (inserted true_pos false_neg false_pos true_neg : Z) : list (list Z) :=
  [str "inserted " ++ dec inserted; str "true positives " ++ dec true_pos;
   str "false negatives " ++ dec false_neg; str "false positives " ++ dec false_pos;
   str "true negatives " ++ dec true_neg].

Section proofs.
Context {G : Type} `{!BitGen G}.

Lemma insert_loop_ok n (s : Sample G) :
  wf (filter_ s) →
  ∃ xs rs s', insert_loop n s = (Ok tt, s') ∧ length xs = n ∧
    insert_all xs (filter_ s) = (Ok rs, filter_ s') ∧ fingerprints s' = fingerprints s ++ xs.
Proof.
  revert s. induction n as [|n IH]; intros s Hwf; [exists [], [], s; by rewrite app_nil_r|].
  cbn [insert_loop]. rewrite (st_bind_ok st_get _ s s s) by done. destruct (uniform_uint64 (gen s)) as [x g].
  destruct (insert_ok (filter_ s) x Hwf) as (r & h & f1 & H1 & [Hwf1 _] & _).
  unfold st_bind at 1, zoom. rewrite H1. unfold st_bind, st_modify. cbn [gen filter_ fingerprints].
  destruct (IH {| gen := g; filter_ := f1; fingerprints := fingerprints s ++ [x] |}) as (xs & rs & s' & Hl & Hn & Ha & Hf);
    [done|]. simpl in Ha, Hf.
  exists (x :: xs), (r :: rs), s'. split; [done|]. split; [simpl; lia|]. split.
  - cbn [insert_all]. by rewrite (st_bind_ok _ _ _ _ _ H1), (st_bind_ok _ _ _ _ _ Ha).
  - by rewrite Hf, <- (assoc_L (++)).
Qed.

(** A test counts once. *)
Lemma count_test_ok (f : HashFilter32 G) x a b :
  wf f → 0 ≤ a → 0 ≤ b → a + b < 2 ^ 31 - 1 →
  ∃ found a' b', test x f = Ok found ∧ count_test f x (a, b) = Ok (a', b') ∧ a ≤ a' ∧ b ≤ b' ∧
    a' + b' = a + b + 1 ∧ (found = true → b' = b).
Proof.
  intros Hwf Ha Hb Hab. unfold count_test. rewrite test_ok by done. cbn [mbind result_bind fst snd].
  case_bool_decide; rewrite check_s_ok by (unfold in_s; simpl; lia); cbn [mbind result_bind];
    do 3 eexists; split_and!; done || lia.
Qed.

Lemma recount_ok (f : HashFilter32 G) xs a b :
  wf f → 0 ≤ a → 0 ≤ b → a + b + zlen xs < 2 ^ 31 →
  ∃ a' b', recount f xs (a, b) = Ok (a', b') ∧ a ≤ a' ∧ b ≤ b' ∧ a' + b' = a + b + zlen xs ∧
    ((∀ x, x ∈ xs → test x f = Ok true) → b' = b).
Proof.
  intros Hwf. revert a b. induction xs as [|x xs IH]; intros a b Ha Hb Hab.
  { exists a, b. rewrite zlen_nil. split_and!; done || lia. }
  rewrite zlen_cons in *. pose proof (zlen_nonneg xs).
  destruct (count_test_ok f x a b) as (found & a1 & b1 & Ht & Hc & ? & ? & Hs & Hz); [done|lia..|].
  destruct (IH a1 b1) as (a2 & b2 & Hr & ? & ? & Hs2 & Hz2); [lia..|].
  exists a2, b2. cbn [recount]. rewrite Hc. cbn [mbind result_bind]. split_and!; try done; try lia.
  intros Hall. rewrite Hz2 by (intros y Hy; apply Hall; by right). apply Hz.
  pose proof (Hall x ltac:(left)). congruence.
Qed.

Lemma probe_ok (f : HashFilter32 G) n g a b :
  wf f → 0 ≤ a → 0 ≤ b → a + b + Z.of_nat n < 2 ^ 31 →
  ∃ a' b', probe f n g (a, b) = Ok (a', b') ∧ a ≤ a' ∧ b ≤ b' ∧ a' + b' = a + b + Z.of_nat n.
Proof.
  intros Hwf. revert g a b. induction n as [|n IH]; intros g a b Ha Hb Hab; [exists a, b; split_and!; done || lia|].
  cbn [probe]. destruct (uniform_uint64 g) as [x g'].
  destruct (count_test_ok f x a b) as (found & a1 & b1 & _ & Hc & ? & ? & Hs & _); [done|lia..|].
  destruct (IH g' a1 b1) as (a2 & b2 & Hr & ? & ? & Hs2); [lia..|].
  exists a2, b2. rewrite Hc. cbn [mbind result_bind]. split_and!; done || lia.
Qed.

Lemma successes_length rs : (successes rs ≤ length rs)%nat.
Proof. apply length_filter. Qed.

Lemma successes_all rs : successes rs = length rs → forallb id rs = true.
Proof.
  unfold successes. induction rs as [|[] rs IH]; [done|..].
  - rewrite filter_cons_True by done. simpl. intros [= H]. by apply IH.
  - rewrite filter_cons_False by done. pose proof (successes_length rs). unfold successes in *. simpl. lia.
Qed.

Lemma same_class_refl mask x : same_class mask x x = true.
Proof. apply same_class_spec. split; [done|]. by left. Qed.
End proofs.

Section main_proof.
Context {G : Type} `{!BitGen G} {F : Type} `{!File F, !Writer F, !ReliableWriter F} (fuel : nat).
Context (Hfuel : (Z.to_nat buffer_size < fuel)%nat).

Lemma report_spec label n m (o : ostream F) :
  0 ≤ m → 0 ≤ n < 10 ^ 64 → Forall line_char (str label) → zlen (str label) ≤ 16 → ready (81 + m) o →
  ∃ o', report fuel label n o = (Ok tt, o') ∧
    streamed (stream_ o') = streamed (stream_ o) ++ unlines [str label ++ dec n] ∧ ready m o'.
Proof using Hfuel.
  intros Hm Hn Hl Hz Hr. pose proof (dec_length n) as Hd.
  assert (Forall (Forall line_char) [str label ++ dec n]) as Ht
    by (apply Forall_singleton, Forall_app; split; [done|by apply line_dec]).
  destruct (emit_spec fuel Hfuel [str label ++ dec n] m o) as (o1 & He & Hs1 & Hr1); [|done|done|].
  { eapply ready_mono; [|exact Hr]. cbn [unlines flat_map]. rewrite app_nil_r, !zlen_app.
    change (zlen [newline]) with 1. pose proof (zlen_nonneg (str label)). pose proof (zlen_nonneg (dec n)). lia. }
  destruct (flush_spec fuel Hfuel m o1 Hr1) as (o2 & Hf & Hs2 & Hr2).
  exists o2. unfold report. rewrite (st_bind_ok _ _ _ _ _ He), Hf. split; [done|]. by rewrite Hs2, Hs1.
Qed.

(** What the three loops count *)
Lemma loops_spec k inserts tests (g g' : G) :
  0 ≤ k < 32 → Z.of_nat inserts < 2 ^ 31 → Z.of_nat tests < 2 ^ 31 →
  ∃ f s tp fn fp tn, HashFilter.make (2 ^ k) g' = Ok f ∧
    insert_loop inserts {| gen := g; filter_ := f; fingerprints := [] |} = (Ok tt, s) ∧
    recount (filter_ s) (fingerprints s) (0, 0) = Ok (tp, fn) ∧
    probe (filter_ s) tests (gen s) (0, 0) = Ok (fp, tn) ∧
    0 ≤ size_ (filter_ s) ≤ Z.of_nat inserts ∧ size_ (filter_ s) ≤ 4 * 2 ^ k ∧
    0 ≤ tp ∧ 0 ≤ fn ∧ tp + fn = Z.of_nat inserts ∧ 0 ≤ fp ∧ 0 ≤ tn ∧ fp + tn = Z.of_nat tests ∧
    (size_ (filter_ s) = Z.of_nat inserts → fn = 0).
Proof.
  intros Hk Hi Ht. destruct (make_ok k g' Hk) as (f & Hmk & Hwf & _).
  destruct (insert_loop_ok inserts {| gen := g; filter_ := f; fingerprints := [] |} Hwf)
    as (xs & rs & s & Hl & Hn & Ha & Hfs). simpl in Ha, Hfs.
  destruct (insert_all_ok xs f Hwf) as (rs' & f1 & H1 & [Hwf1 _] & Hlen & _). rewrite Ha in H1. injection H1 as <- <-.
  destruct (insert_all_size k g' f xs rs _ Hk Hmk Ha) as (_ & Hsz & Hcap). pose proof (successes_length rs) as Hsl.
  assert (size_ (filter_ s) = Z.of_nat (successes rs)) as Hs
    by (rewrite Hsz; apply uwrap_id; unfold in_u; lia).
  destruct (recount_ok (filter_ s) (fingerprints s) 0 0) as (tp & fn & Hrc & ? & ? & Hsum & Hz);
    [done|lia|lia|rewrite Hfs; unfold zlen; lia|].
  destruct (probe_ok (filter_ s) tests (gen s) 0 0) as (fp & tn & Hpr & ? & ? & Hsum'); [done|lia..|].
  exists f, s, tp, fn, fp, tn. rewrite Hfs in Hsum, Hz. unfold zlen in Hsum.
  split_and!; try done; try lia. intros Hfull. apply Hz. intros x Hx.
  rewrite (insert_all_exact k g' f xs rs) by (done || apply successes_all; lia). f_equal.
  apply existsb_exists. exists x. split; [by apply list_elem_of_In|apply same_class_refl].
Qed.

(** The program ends well and prints five counts: the fingerprints that the filter took, of
    the inserted ones those it finds and those it does not, and of others those it reports and
    those it does not.  When it took all of them, none is missing. *)
Theorem hash_filter_stats k inserts tests (g g' : G) (out : F) :
  0 ≤ k < 32 → Z.of_nat inserts < 2 ^ 31 → Z.of_nat tests < 2 ^ 31 →
  valid_writer out → 405 ≤ room out →
  ∃ out' inserted true_pos false_neg false_pos true_neg,
    stats fuel (2 ^ k) inserts tests g g' out = (Ok tt, out') ∧
    written out' = written out ++ unlines (stats_lines inserted true_pos false_neg false_pos true_neg) ∧
    0 ≤ inserted ≤ Z.of_nat inserts ∧ inserted ≤ 4 * 2 ^ k ∧
    0 ≤ true_pos ∧ 0 ≤ false_neg ∧ true_pos + false_neg = Z.of_nat inserts ∧
    0 ≤ false_pos ∧ 0 ≤ true_neg ∧ false_pos + true_neg = Z.of_nat tests ∧
    (inserted = Z.of_nat inserts → false_neg = 0).
Proof using Hfuel.
  intros Hk Hi Ht Hv Hroom.
  destruct (loops_spec k inserts tests g g' Hk Hi Ht) as (f & s & tp & fn & fp & tn & Hmk & Hl & Hrc & Hpr & Hb).
  assert (ready 405 (make_ostream out)) as Hr by by apply make_ostream_ready.
  assert (∀ label, bool_decide (Forall line_char (str label)) && (zlen (str label) <=? 16) = true →
    Forall line_char (str label) ∧ zlen (str label) ≤ 16) as Hlab
    by (intros label [?%bool_decide_eq_true ?%Z.leb_le]%andb_true_iff; done).
  assert (∀ n, 0 ≤ n → n < 2 ^ 31 → 0 ≤ n < 10 ^ 64) as Hnum by (intros; split; [done|]; etrans; [done|]; by vm_compute).
  destruct (Hlab "inserted " eq_refl), (Hlab "true positives " eq_refl), (Hlab "false negatives " eq_refl),
    (Hlab "false positives " eq_refl), (Hlab "true negatives " eq_refl).
  destruct (report_spec "inserted " (size_ (filter_ s)) 324 (make_ostream out)) as (o1 & E1 & S1 & R1);
    [lia|apply Hnum; lia|done..|].
  destruct (report_spec "true positives " tp 243 o1) as (o2 & E2 & S2 & R2); [lia|apply Hnum; lia|done..|].
  destruct (report_spec "false negatives " fn 162 o2) as (o3 & E3 & S3 & R3); [lia|apply Hnum; lia|done..|].
  destruct (report_spec "false positives " fp 81 o3) as (o4 & E4 & S4 & R4); [lia|apply Hnum; lia|done..|].
  destruct (report_spec "true negatives " tn 0 o4) as (o5 & E5 & S5 & R5); [lia|apply Hnum; lia|done..|].
  destruct (finish_spec fuel Hfuel (λ _, (Ok tt, o5)) (unlines (stats_lines (size_ (filter_ s)) tp fn fp tn)) out o5)
    as (out' & Hfin & Hw); [done| |done|].
  { rewrite S5, S4, S3, S2, S1. unfold stats_lines, unlines. cbn [flat_map].
    by rewrite !app_nil_r, <- !(assoc_L (++)). }
  exists out', (size_ (filter_ s)), tp, fn, fp, tn. split; [|by split].
  rewrite <- Hfin. unfold stats, finish. rewrite st_bind_lift with (a := f) by done. rewrite Hl.
  unfold st_bind, st_lift. by rewrite E1, Hrc, E2, E3, Hpr, E4, E5.
Qed.
End main_proof.

(** Five fingerprints in eight entries, and three more tests *)
Lemma hash_filter_stats_witness :
  ∃ out' n tp fn fp tn,
    stats (Z.to_nat 8193) (2 ^ 1) 5 3 example_gen example_gen (MemoryFile.make []) = (Ok tt, out') ∧
    written out' = unlines (stats_lines n tp fn fp tn) ∧ 0 ≤ n ≤ 5 ∧ tp + fn = 5 ∧ fp + tn = 3 ∧ (n = 5 → fn = 0).
Proof.
  destruct (hash_filter_stats (Z.to_nat 8193) ltac:(unfold buffer_size; lia) 1 5 3 example_gen example_gen
    (MemoryFile.make [])) as (out' & n & tp & fn & fp & tn & Hrun & Hw & Hn & _ & _ & _ & Hsum & _ & _ & Hsum' & Hz);
    [lia|lia|lia|by repeat split|vm_compute; discriminate|].
  exists out', n, tp, fn, fp, tn. exact (conj Hrun (conj Hw (conj Hn (conj Hsum (conj Hsum' Hz))))).
Defined.

(** The text of that run *)
Example stats_text :
  written (stats (Z.to_nat 8193) (2 ^ 1) 5 3 example_gen example_gen (MemoryFile.make [])).2 =
  unlines (stats_lines 5 5 0 0 3).
Proof. by vm_compute. Qed.
