(* ===== verification/EmbedData.v ===== *)
(** * util/embed-data and its generator

    EmbedData looks a name up in a sorted array of names; the generator
    tools/embed/generate-embed-data.cc sorts the names it is given and removes
    duplicates before it writes the two arrays.  [std::sort] and [std::unique]
    are modelled by a merge sort and by the removal of repeated neighbours. *)

From S2P Require Import Prelude Algorithm.
From stdpp Require Import sorting.

Record EmbedData : Type := {
  names_ : list (list Z);
  contents_ : list (list Z);
}.

(** EmbedData::get_content_by_name *)
Definition get_content_by_name (name : list Z) (d : EmbedData) : result (option (list Z)) :=
  i ← lower_bound (λ n, Ok (bytes_ltb n name)) (names_ d);
  match names_ d !! i with
  | None => Ok None
  | Some n =>
      if bool_decide (n = name) then
        match contents_ d !! i with
        | Some content => Ok (Some content)
        | None => Crash
        end
      else Ok None
  end.

(** The negation of operator< with the arguments swapped, which std::sort keeps. *)
Definition bytes_le (a b : list Z) : Prop := ¬ bytes_lt b a.

#[export] Instance bytes_le_dec a b : Decision (bytes_le a b).
Proof. unfold bytes_le, bytes_lt. apply _. Defined.

(** std::unique *)
Fixpoint unique (l : list (list Z)) : list (list Z) :=
  match l with
  | x :: ((y :: _) as l) => if bool_decide (x = y) then unique l else x :: unique l
  | _ => l
  end.

(** The names of main: sorted, without duplicates *)
Definition sorted_files (args : list (list Z)) : list (list Z) := unique (merge_sort bytes_le args).

(** The object that the generated file defines, when [content_of] is what
    read_to_end gave for each file. *)
Definition generate (content_of : list Z → list Z) (args : list (list Z)) : EmbedData :=
  let files := sorted_files args in
  {| names_ := files; contents_ := content_of <$> files |}.

(** ** Sorting *)

#[export] Instance bytes_le_total : Total bytes_le.
Proof.
  intros a b. unfold bytes_le. destruct (bytes_ltb_spec b a) as [H|H]; [right|by left].
  intros H'. by apply (bytes_lt_irrefl a), (bytes_lt_trans a b a).
Qed.

#[export] Instance bytes_le_trans : Transitive bytes_le.
Proof.
  intros a b c Hab Hbc Hca. unfold bytes_le in *.
  destruct (bytes_ltb_spec a b) as [H|H].
  - by apply Hbc, (bytes_lt_trans c a b).
  - by rewrite (bytes_lt_trichotomy a b H Hab) in Hca.
Qed.

Lemma bytes_le_lt a b : bytes_le a b → a ≠ b → bytes_lt a b.
Proof.
  intros Hle Hne. destruct (bytes_ltb_spec a b) as [H|H]; [done|].
  by destruct Hne; apply bytes_lt_trichotomy.
Qed.

Lemma unique_elem l x : x ∈ unique l ↔ x ∈ l.
Proof.
  induction l as [|y [|z l] IH]; [done|done|]. cbn [unique] in *.
  case_bool_decide as E; [subst y|]; rewrite ?elem_of_cons, IH, ?elem_of_cons; tauto.
Qed.

Lemma unique_sorted l : StronglySorted bytes_le l → StronglySorted bytes_lt (unique l).
Proof.
  induction 1 as [|x l Hs IH Hx]; [constructor|]. destruct l as [|y l]; [by repeat constructor|].
  cbn [unique] in *. case_bool_decide as E; [done|]. constructor; [done|].
  apply Forall_forall. intros z Hz. rewrite (unique_elem (y :: l)) in Hz.
  rewrite Forall_forall in Hx. apply bytes_le_lt; [by apply Hx|]. intros ->.
  apply elem_of_cons in Hz as [?|Hz]; [done|].
  assert (bytes_le y z) as Hyz.
  { inversion_clear Hs as [|?? _ Hy]. rewrite Forall_forall in Hy. by apply Hy. }
  apply Hyz, bytes_le_lt; [by apply Hx, elem_of_cons; left|done].
Qed.

Lemma sorted_files_sorted args : StronglySorted bytes_lt (sorted_files args).
Proof. apply unique_sorted, StronglySorted_merge_sort; apply _. Qed.

Lemma sorted_files_elem args x : x ∈ sorted_files args ↔ x ∈ args.
Proof. unfold sorted_files. rewrite unique_elem. by rewrite (merge_sort_Permutation bytes_le args). Qed.

(** ** Lookup *)

Lemma get_content_sorted content_of names name :
  StronglySorted bytes_lt names →
  get_content_by_name name {| names_ := names; contents_ := content_of <$> names |} =
  Ok (if bool_decide (name ∈ names) then Some (content_of name) else None).
Proof.
  intros Hs. assert (StronglySorted bytes_lt (id <$> names)) as Hs' by (by rewrite list_fmap_id).
  destruct (sorted_partition id names name Hs') as (m & Hm & Hp). unfold get_content_by_name. simpl.
  rewrite (lower_bound_spec _ (λ n, bytes_ltb n name) names m) by (done || by intros).
  cbn [mbind result_bind]. case_bool_decide as Hin.
  - apply list_elem_of_lookup in Hin as [j Hj].
    assert (m = j) as -> by (by eapply (partition_found id)). rewrite Hj, bool_decide_eq_true_2 by done.
    by rewrite list_lookup_fmap, Hj.
  - destruct (names !! m) as [n|] eqn:Hn; [|done]. rewrite bool_decide_eq_false_2; [done|].
    intros ->. by apply Hin, list_elem_of_lookup_2 with m.
Qed.

(** For the arrays that generate-embed-data writes, EmbedData::get_content_by_name
    returns the content of a file exactly when the name was among the arguments, whatever
    their order and repetitions. *)
Theorem embed_data_lookup content_of args name :
  get_content_by_name name (generate content_of args) =
  Ok (if bool_decide (name ∈ args) then Some (content_of name) else None).
Proof.
  unfold generate. rewrite get_content_sorted by apply sorted_files_sorted. 
  by rewrite (bool_decide_ext _ _ (sorted_files_elem args name)).
Qed.
