(* ===== verification/GenerateEmbedData.v ===== *)
(** * tools/embed/generate-embed-data: the generator of embedded files

    main writes a header and a C++ file through two OStreams.  The texts are lists of
    bytes, made of lines.  [Directory] is the interface of io::create and io::open;
    absl::CHexEscape is the interface [CHexEscape].

    What the C++ file means is defined by [read_cc], a reader of its three kinds of
    array initialisers; the theorem composes main with it and with EmbedData. *)

From Stdlib Require Import String Ascii.
From S2P Require Import Prelude File MemoryFile FileUtils OStream TextStream ConsumeInt Algorithm EmbedData.
#[local] Open Scope list_scope.

(** The rows of a loop that goes on by [k] *)
Fixpoint rows_of {A} (fuel k : nat) (l : list A) : list (list A) :=
  match fuel, l with
  | S fuel, _ :: _ => take k l :: rows_of fuel k (drop k l)
  | _, _ => []
  end.

Definition rows {A} (k : nat) (l : list A) : list (list A) := rows_of (length l) k l.

Fixpoint comma_separated (ls : list (list Z)) : list Z :=
  match ls with
  | [] => []
  | [l] => l
  | l :: ls => l ++ str ", " ++ comma_separated ls
  end.

Class CHexEscape : Type := {
  c_hex_escape : list Z → list Z;
  (** the bytes that the literal denotes *)
  c_unescape : list Z → list Z;
  c_unescape_escape s : Forall is_byte s → c_unescape (c_hex_escape s) = s;
  c_hex_escape_bytes s : Forall is_byte s →
    Forall is_byte (c_hex_escape s) ∧ newline ∉ c_hex_escape s;
}.

(** ** The files *)

Record Flags : Type := {
  variable_name : list Z;
  cc_namespace : list Z;
  output_cc : list Z;
  output_h : list Z;
}.

Definition in_namespace (fl : Flags) (ls : list (list Z)) : list (list Z) :=
  if bool_decide (cc_namespace fl = []) then [] else ls.

Definition h_lines (fl : Flags) : list (list Z) :=
  [str "#include " ++ [quote] ++ str "util/embed-data.h" ++ [quote]; []] ++
  in_namespace fl [str "namespace " ++ cc_namespace fl ++ str " {"; []] ++
  [str "extern const ::util::EmbedData " ++ variable_name fl ++ str ";"] ++
  in_namespace fl [[]; str "}  // namespace " ++ cc_namespace fl].

Definition indented (cells : list (list Z)) : list Z := str "    " ++ comma_separated cells ++ str ",".

Definition content_cell (b : Z) : list Z := str "0x" ++ hex b.
Definition reference_cell (i : nat) : list Z := str "content" ++ dec (Z.of_nat i).

Definition content_lines (i : nat) (content : list Z) : list (list Z) :=
  [str "std::array<uint8_t, " ++ dec (zlen content) ++ str "> content" ++ dec (Z.of_nat i) ++ str "{{"] ++
  ((λ row, indented (content_cell <$> row)) <$> rows 8 content) ++
  [str "}};"; []].

Section generator.
Context `{!CHexEscape}.

Definition names_lines (fl : Flags) (files : list (list Z)) : list (list Z) :=
  [str "#include <array>"; str "#include <string_view>"; [];
   str "#include " ++ [quote] ++ str "base/types.h" ++ [quote];
   str "#include " ++ [quote] ++ str "util/embed-data.h" ++ [quote]; []] ++
  in_namespace fl [str "namespace " ++ cc_namespace fl ++ str " {"] ++
  [str "namespace {"; [];
   str "std::array<std::string_view, " ++ dec (zlen files) ++ str "> names{{"] ++
  ((λ file, str "    " ++ [quote] ++ c_hex_escape file ++ [quote] ++ str ",") <$> files) ++
  [str "}};"; []].

Definition tail_lines (fl : Flags) (n : nat) : list (list Z) :=
  [str "std::array<ConstBufferSpan, " ++ dec (Z.of_nat n) ++ str "> contents{{"] ++
  ((λ row, indented (reference_cell <$> row)) <$> rows 4 (seq 0 n)) ++
  [str "}};"; []; str "}  // namespace"; [];
   str "extern const ::util::EmbedData " ++ variable_name fl ++ str ";";
   str "const ::util::EmbedData " ++ variable_name fl ++ str "(names, contents);"] ++
  in_namespace fl [[]; str "}  // namespace " ++ cc_namespace fl].

(** ** main *)

Class Directory (F : Type) : Type := {
  create_file : list Z → result F;
  open_file : list Z → result F;
}.

Context {F : Type} `{!File F, !Directory F} (fuel : nat).

(** io::open and io::read_to_end *)
Definition load (file : list Z) : result (list Z) :=
  f ← open_file file;
  let '(r, (_, content)) := read_to_end fuel 8192 (f, []) in
  (λ _, content) <$> r.

Fixpoint emit_contents (i : nat) (files : list (list Z)) : ST (ostream F) unit :=
  match files with
  | [] => st_ret tt
  | file :: files =>
      let* content := st_lift (load file) in
      let* _ := emit fuel (content_lines i content) in
      emit_contents (S i) files
  end.

Definition write_cc (fl : Flags) (files : list (list Z)) : ST (ostream F) unit :=
  let* _ := emit fuel (names_lines fl files) in
  let* _ := emit_contents 0 files in
  emit fuel (tail_lines fl (length files)).

(** The streams go away at the end of main, also when it returns an error.  The
    results are that of main, an error being returned as its value, and the files. *)
Definition main (fl : Flags) (positional_args : list (list Z)) : result (result unit * F * F) :=
  let files := sorted_files (drop 1 positional_args) in
  cc ← create_file (output_cc fl);
  h ← create_file (output_h fl);
  let '(rh, h') := finish fuel (emit fuel (h_lines fl)) h in
  let '(rc, cc') := finish fuel (write_cc fl files) cc in
  Ok ((_ ← rh; rc), h', cc').
End generator.

(** ** What the C++ file means *)

Fixpoint lines (s : list Z) : list (list Z) :=
  match s with
  | [] => []
  | c :: s =>
      if c =? newline then [] :: lines s
      else
        match lines s with
        | [] => [[c]]
        | l :: ls => (c :: l) :: ls
        end
  end.

Definition has_suffix (p l : list Z) : bool := bool_decide (drop (length l - length p) l = p).

Definition digit_of (base c : Z) : option Z :=
  let d := if c <? 58 then c - 48 else c - 87 in
  if (0 <=? d) && (d <? base) then Some d else None.

(** The numbers whose digits follow a [mark]; [cur] is what was read of one. *)
Fixpoint scan (mark base : Z) (cur : option (option Z)) (s : list Z) : list Z :=
  match s with
  | [] => match cur with Some (Some v) => [v] | _ => [] end
  | c :: s =>
      let idle := scan mark base (if c =? mark then Some None else None) s in
      match cur, digit_of base c with
      | Some v, Some d => scan mark base (Some (Some (base * default 0 v + d))) s
      | Some (Some v), None => v :: idle
      | _, _ => idle
      end
  end.

Inductive mode : Type := Outside | Names | Bytes | References.

(** [valid_] is whether every array had as many elements as was declared. *)
Record reading : Type := {
  mode_ : mode;
  size_ : Z;
  names_read : list (list Z);
  arrays_read : list (list Z);
  bytes_read : list Z;
  references_read : list Z;
  valid_ : bool;
}.

Definition no_reading : reading :=
  {| mode_ := Outside; size_ := 0; names_read := []; arrays_read := []; bytes_read := [];
     references_read := []; valid_ := true |}.

(** The array that a line begins *)
Definition opens (l : list Z) : option mode :=
  if has_suffix (str "> names{{") l then Some Names
  else if has_suffix (str "> contents{{") l then Some References
  else if has_suffix (str "{{") l then Some Bytes
  else None.

Definition begin_array (m : mode) (l : list Z) (r : reading) : reading :=
  {| mode_ := m; size_ := default 0 (head (scan 32 10 None l)); names_read := names_read r;
     arrays_read := arrays_read r; bytes_read := []; references_read := references_read r;
     valid_ := valid_ r |}.

Definition end_array (r : reading) : reading :=
  {| mode_ := Outside; size_ := 0; names_read := names_read r;
     arrays_read := match mode_ r with Bytes => arrays_read r ++ [bytes_read r] | _ => arrays_read r end;
     bytes_read := []; references_read := references_read r;
     valid_ := valid_ r && (size_ r =? match mode_ r with
                                       | Names => zlen (names_read r)
                                       | Bytes => zlen (bytes_read r)
                                       | _ => zlen (references_read r)
                                       end) |}.

Section reader.
Context `{!CHexEscape}.

Definition read_row (l : list Z) (r : reading) : reading :=
  {| mode_ := mode_ r; size_ := size_ r;
     names_read :=
       match mode_ r with
       | Names => names_read r ++ [c_unescape (drop 5 (take (length l - 2) l))]
       | _ => names_read r
       end;
     arrays_read := arrays_read r;
     bytes_read := match mode_ r with Bytes => bytes_read r ++ scan 120 16 None l | _ => bytes_read r end;
     references_read :=
       match mode_ r with
       | References => references_read r ++ scan 116 10 None l
       | _ => references_read r
       end;
     valid_ := valid_ r |}.

Definition read_line (r : reading) (l : list Z) : reading :=
  match mode_ r with
  | Outside => match opens l with Some m => begin_array m l r | None => r end
  | _ => if bool_decide (l = str "}};") then end_array r else read_row l r
  end.

(** The object that the file defines *)
Definition read_cc (s : list Z) : option EmbedData :=
  let r := foldl read_line no_reading (lines s) in
  if valid_ r then
    contents ← mapM (λ i, arrays_read r !! Z.to_nat i) (references_read r);
    Some {| names_ := names_read r; contents_ := contents |}
  else None.
End reader.

(** ** Numbers *)

Lemma digit_of_char base d : 0 ≤ d < base → base ≤ 16 → digit_of base (digit_char d) = Some d.
Proof.
  intros Hd Hb. unfold digit_of, digit_char. destruct (Z.ltb_spec d 10) as [Hlt|Hge].
  - rewrite (proj2 (Z.ltb_lt (48 + d) 58)) by lia. replace (48 + d - 48) with d by lia.
    rewrite (proj2 (Z.leb_le 0 d)), (proj2 (Z.ltb_lt d base)) by lia. done.
  - rewrite (proj2 (Z.ltb_ge (87 + d) 58)) by lia. replace (87 + d - 87) with d by lia.
    rewrite (proj2 (Z.leb_le 0 d)), (proj2 (Z.ltb_lt d base)) by lia. done.
Qed.

Lemma scan_skip mark base p s : mark ∉ p → scan mark base None (p ++ s) = scan mark base None s.
Proof.
  induction p as [|c p IH]; [done|]. intros [Hc Hp]%not_elem_of_cons. simpl.
  rewrite (proj2 (Z.eqb_neq c mark)) by done. by apply IH.
Qed.

Lemma scan_value mark base v ds c s :
  base ≤ 16 → Forall (λ d, 0 ≤ d < base) ds → digit_of base c = None →
  scan mark base (Some (Some v)) ((digit_char <$> ds) ++ c :: s) =
  value base v ds :: scan mark base None (c :: s).
Proof.
  intros Hb Hds Hc. revert v. induction Hds as [|d ds Hd _ IH]; intros v; simpl.
  - by rewrite Hc.
  - rewrite digit_of_char by done. simpl. rewrite IH. simpl. done.
Qed.

(** A number that was printed behind a mark is read. *)
Lemma scan_number mark base n c s :
  1 < base ≤ 16 → 0 ≤ n < base ^ 64 → digit_of base c = None →
  scan mark base None (mark :: print_base base n ++ c :: s) = n :: scan mark base None (c :: s).
Proof.
  intros Hb Hn Hc. destruct (to_digits_spec 64 base n []) as (ds & Heq & Hne & Hds & Hv); [lia|done|lia|].
  unfold print_base. rewrite Heq, app_nil_r. destruct Hds as [|d ds Hd Hds]; [done|].
  cbn [scan fmap list_fmap app]. rewrite Z.eqb_refl, digit_of_char by (done || lia).
  cbn [default]. rewrite scan_value by (done || lia). f_equal.
  rewrite <- Hv. unfold value. simpl. done.
Qed.

(** ** Lines *)

Lemma lines_unlines ls : Forall (Forall line_char) ls → lines (unlines ls) = ls.
Proof.
  assert (∀ l s, Forall line_char l → lines (l ++ newline :: s) = l :: lines s) as Hline.
  { intros l s. induction 1 as [|c l [_ Hc] _ IH]; [done|]. simpl.
    rewrite (proj2 (Z.eqb_neq c newline)) by done. by rewrite IH. }
  induction 1 as [|l ls Hl _ IH]; [done|]. unfold unlines in *. simpl.
  rewrite <- (assoc_L (++)). simpl. by rewrite Hline, IH.
Qed.

Lemma line_comma ls : Forall (Forall line_char) ls → Forall line_char (comma_separated ls).
Proof.
  induction 1 as [|l ls Hl Hls IH]; [done|]. cbn [comma_separated]. destruct ls; [done|].
  rewrite !Forall_app. split_and!; [done| |done]. by apply (bool_decide_unpack (Forall line_char _)).
Qed.

Lemma rows_of_concat {A} fuel k (l : list A) : (0 < k)%nat → (length l ≤ fuel)%nat → concat (rows_of fuel k l) = l.
Proof.
  intros Hk. revert l. induction fuel as [|fuel IH]; intros l Hl; [by destruct l; [|simpl in Hl; lia]|].
  destruct l as [|x l]; [done|]. cbn [rows_of concat]. rewrite IH, take_drop; [done|].
  rewrite length_drop. simpl in *. lia.
Qed.

Lemma rows_concat {A} k (l : list A) : (0 < k)%nat → concat (rows k l) = l.
Proof. intros. by apply rows_of_concat. Qed.

Lemma rows_elem {A} k (l row : list A) x : (0 < k)%nat → row ∈ rows k l → x ∈ row → x ∈ l.
Proof.
  intros Hk Hr Hx. rewrite <- (rows_concat k l Hk). apply list_elem_of_In, in_concat.
  exists row. by rewrite <- !list_elem_of_In.
Qed.

(** Cells that can be read, behind a mark, give a row that can be. *)
Lemma scan_indented {A} mark base (cell : A → list Z) (val : A → Z) row :
  mark ≠ 32 → mark ≠ 44 →
  (∀ x s, x ∈ row → scan mark base None (cell x ++ 44 :: s) = val x :: scan mark base None (44 :: s)) →
  scan mark base None (indented (cell <$> row)) = val <$> row.
Proof.
  intros H32 H44 Hcell. unfold indented. change (str "    ") with [32; 32; 32; 32]. change (str ",") with [44].
  rewrite scan_skip.
  2: { rewrite !not_elem_of_cons. split_and!; try done. apply not_elem_of_nil. }
  assert (∀ s, scan mark base None (44 :: s) = scan mark base None s) as Hcomma.
  { intros s. apply (scan_skip mark base [44]). intros ?%list_elem_of_singleton. by destruct H44. }
  assert (∀ s, scan mark base None (32 :: s) = scan mark base None s) as Hspace.
  { intros s. apply (scan_skip mark base [32]). intros ?%list_elem_of_singleton. by destruct H32. }
  induction row as [|x row IH]; [apply Hcomma|].
  destruct row as [|y row]; [simpl; rewrite Hcell by (by left); by rewrite Hcomma|].
  change (comma_separated (cell <$> x :: y :: row))
    with (cell x ++ 44 :: 32 :: comma_separated (cell <$> y :: row)).
  rewrite <- (assoc_L (++)). cbn [app]. rewrite Hcell by (by left).
  rewrite Hcomma, Hspace.
  rewrite IH; [done|]. intros z s Hz. apply Hcell. by right.
Qed.

(** ** Reading the arrays *)

Lemma has_suffix_spec p l : has_suffix p l = true ↔ ∃ q, l = q ++ p.
Proof.
  unfold has_suffix. rewrite bool_decide_eq_true. split.
  - intros H. exists (take (length l - length p) l). rewrite <- (take_drop (length l - length p) l) at 1. by rewrite H.
  - intros (q & ->). rewrite length_app. replace (length q + length p - length p)%nat with (length q) by lia.
    by rewrite drop_app_length.
Qed.

(** A line that does not end in two braces begins nothing. *)
Lemma opens_none l : (∀ q, l ≠ q ++ [123; 123]) → opens l = None.
Proof.
  intros Hl. assert (∀ p, has_suffix (p ++ [123; 123]) l = false) as Hs.
  { intros p. apply not_true_is_false. rewrite has_suffix_spec. intros (q & ->).
    by apply (Hl (q ++ p)); rewrite (assoc_L (++)). }
  unfold opens. change (str "> names{{") with (str "> names" ++ [123; 123]).
  change (str "> contents{{") with (str "> contents" ++ [123; 123]).
  change (str "{{") with ([] ++ [123; 123]). by rewrite !Hs.
Qed.

Lemma opens_none_last l c : c ≠ 123 → opens (l ++ [c]) = None.
Proof.
  intros Hc. apply opens_none. intros q Hq. change [123; 123] with ([123] ++ [123]) in Hq.
  rewrite (assoc_L (++)) in Hq. apply app_inj_tail in Hq as [_ ?]. done.
Qed.

Lemma opens_none_space l : opens (l ++ str " {") = None.
Proof.
  apply opens_none. intros q Hq. change [123; 123] with ([123] ++ [123]) in Hq.
  change (str " {") with ([32] ++ [123]) in Hq. rewrite !(assoc_L (++)) in Hq.
  apply app_inj_tail in Hq as [Hq _]. by apply app_inj_tail in Hq as [_ ?].
Qed.

(** The line of an array of bytes ends in a digit before the braces. *)
Lemma opens_bytes l d : 0 ≤ d < 10 → opens (l ++ [digit_char d] ++ str "{{") = Some Bytes.
Proof.
  intros Hd. assert (digit_char d = 48 + d) as Hdc.
  { unfold digit_char. by rewrite (proj2 (Z.ltb_lt _ _)) by lia. }
  assert (∀ p c, c ≠ digit_char d →
    has_suffix (p ++ [c] ++ [123; 123]) (l ++ [digit_char d] ++ [123; 123]) = false) as Hs.
  { intros p c Hc. apply not_true_is_false. rewrite has_suffix_spec. intros (q & Hq).
    rewrite !(assoc_L (++)) in Hq. apply app_inj_2 in Hq as [Hq _]; [|done].
    by apply app_inj_tail in Hq as [_ ?]. }
  unfold opens. change (str "> names{{") with (str "> name" ++ [115] ++ [123; 123]).
  change (str "> contents{{") with (str "> content" ++ [115] ++ [123; 123]).
  change (str "{{") with [123; 123]. rewrite !Hs by lia. 
  rewrite (proj2 (has_suffix_spec _ _)); [done|]. exists (l ++ [digit_char d]). by rewrite <- (assoc_L (++)).
Qed.

Lemma scan_header p n rest :
  32 ∉ p → 0 ≤ n < 10 ^ 64 → head (scan 32 10 None (p ++ [32] ++ dec n ++ [62] ++ rest)) = Some n.
Proof. intros Hp Hn. rewrite scan_skip by done. cbn [app]. by rewrite (scan_number 32 10). Qed.

(** The state between two arrays *)
Definition outside (names arrays : list (list Z)) (references : list Z) : reading :=
  {| mode_ := Outside; size_ := 0; names_read := names; arrays_read := arrays; bytes_read := [];
     references_read := references; valid_ := true |}.

Section reads.
Context `{!CHexEscape}.

Lemma read_nothing r ls : mode_ r = Outside → Forall (λ l, opens l = None) ls → foldl read_line r ls = r.
Proof.
  intros Hm. induction 1 as [|l ls Hl _ IH]; [done|]. simpl. unfold read_line at 2. by rewrite Hm, Hl.
Qed.

(** A row of an array is indented, so it does not end the array. *)
Lemma read_rows r ls :
  mode_ r ≠ Outside → Forall (λ l, head l = Some 32) ls →
  foldl read_line r ls = foldl (flip read_row) r ls.
Proof.
  intros Hm Hls. revert r Hm. induction Hls as [|l ls Hl _ IH]; intros r Hm; [done|]. simpl.
  rewrite <- IH by done. f_equal. unfold read_line. rewrite bool_decide_eq_false_2; [by destruct (mode_ r)|].
  by intros ->.
Qed.

Lemma read_rows_mode r ls : mode_ (foldl (flip read_row) r ls) = mode_ r.
Proof. revert r. induction ls as [|l ls IH]; intros r; [done|]. simpl. by rewrite IH. Qed.

Lemma read_array m hdr ls names arrays refs :
  m ≠ Outside → opens hdr = Some m → Forall (λ l, head l = Some 32) ls →
  foldl read_line (outside names arrays refs) ([hdr] ++ ls ++ [str "}};"; []]) =
  end_array (foldl (flip read_row) (begin_array m hdr (outside names arrays refs)) ls).
Proof.
  intros Hm Ho Hls. rewrite !foldl_app. cbn [foldl]. unfold read_line at 4. cbn [outside mode_]. rewrite Ho.
  rewrite read_rows by done. set (r := foldl _ _ ls).
  assert (mode_ r = m) as Hr by apply read_rows_mode. unfold read_line at 2. rewrite Hr.
  assert ((if bool_decide (str "}};" = str "}};") then end_array r else read_row (str "}};") r) =
    end_array r) as -> by (by rewrite bool_decide_eq_true_2).
  by destruct m.
Qed.

Lemma read_rows_result r ls :
  foldl (flip read_row) r ls =
  {| mode_ := mode_ r; size_ := size_ r;
     names_read :=
       match mode_ r with
       | Names => names_read r ++ ((λ l, c_unescape (drop 5 (take (length l - 2) l))) <$> ls)
       | _ => names_read r
       end;
     arrays_read := arrays_read r;
     bytes_read :=
       match mode_ r with Bytes => bytes_read r ++ concat (scan 120 16 None <$> ls) | _ => bytes_read r end;
     references_read :=
       match mode_ r with
       | References => references_read r ++ concat (scan 116 10 None <$> ls)
       | _ => references_read r
       end;
     valid_ := valid_ r |}.
Proof.
  revert r. induction ls as [|l ls IH]; intros r.
  - destruct r as [m sz ns arrs bs refs v]. simpl. rewrite !app_nil_r. by destruct m.
  - simpl. rewrite IH. unfold flip, read_row.
    cbn [mode_ size_ names_read arrays_read bytes_read references_read valid_].
    destruct (mode_ r); by rewrite ?(assoc_L (++)), <- ?(assoc_L (++)).
Qed.

Lemma names_block n files :
  n = zlen files → in_u 64 n → Forall (Forall is_byte) files →
  foldl read_line (outside [] [] [])
    ([str "std::array<std::string_view, " ++ dec n ++ str "> names{{"] ++
     ((λ file, str "    " ++ [quote] ++ c_hex_escape file ++ [quote] ++ str ",") <$> files) ++
     [str "}};"; []]) = outside files [] [].
Proof.
  intros -> [Hn0 Hn] Hfiles. rewrite (read_array Names).
  2: { done. }
  2: { unfold opens. rewrite (proj2 (has_suffix_spec _ _)); [done|]. rewrite (assoc_L (++)). eauto. }
  2: { apply Forall_fmap, Forall_true. done. }
  rewrite read_rows_result. unfold begin_array, end_array, outside.
  cbn [mode_ size_ names_read arrays_read bytes_read references_read valid_].
  assert ((λ l, c_unescape (drop 5 (take (length l - 2) l))) <$>
    ((λ file, str "    " ++ [quote] ++ c_hex_escape file ++ [quote] ++ str ",") <$> files) = files) as ->.
  { rewrite <- list_fmap_compose. rewrite <- (list_fmap_id files) at 2. apply list_fmap_ext.
    intros i file Hi. unfold compose. rewrite Forall_forall in Hfiles.
    transitivity (c_unescape (c_hex_escape file));
      [|apply c_unescape_escape, Hfiles; by apply list_elem_of_lookup_2 with i].
    f_equal. change (str "    ") with [32; 32; 32; 32]. change (str ",") with [44]. rewrite !length_app.
    replace (length [32; 32; 32; 32] + (length [quote] + (length (c_hex_escape file) +
      (length [quote] + length [44]))) - 2)%nat with (5 + length (c_hex_escape file))%nat by (simpl; lia).
    simpl. apply take_app_length. }
  change (str "std::array<std::string_view, ") with (str "std::array<std::string_view," ++ [32]).
  change (str "> names{{") with ([62] ++ str " names{{"). rewrite <- !(assoc_L (++)), scan_header.
  - cbn [default app]. rewrite Z.eqb_refl. done.
  - apply (bool_decide_unpack _). by vm_compute.
  - split; [done|]. lia.
Qed.

(** The numbers of rows of cells are those of the array. *)
Lemma scan_rows {A} mark base (cell : A → list Z) (val : A → Z) k l :
  (0 < k)%nat → mark ≠ 32 → mark ≠ 44 →
  (∀ x s, x ∈ l → scan mark base None (cell x ++ 44 :: s) = val x :: scan mark base None (44 :: s)) →
  concat (scan mark base None <$> ((λ row, indented (cell <$> row)) <$> rows k l)) = val <$> l.
Proof.
  intros Hk H32 H44 Hcell. rewrite <- (rows_concat k l) at 2 by done.
  rewrite <- list_fmap_compose. assert (∀ row, row ∈ rows k l →
    scan mark base None (indented (cell <$> row)) = val <$> row) as Hrow.
  { intros row Hr. apply scan_indented; [done|done|]. intros x s Hx. apply Hcell. by eapply rows_elem. }
  induction (rows k l) as [|row ls IH]; [done|]. rewrite fmap_cons. cbn [concat]. rewrite fmap_app, IH.
  - f_equal. apply Hrow. by left.
  - intros r Hr. apply Hrow. by right.
Qed.

Lemma content_block i content names arrays :
  in_u 64 (zlen content) → Z.of_nat i < 10 ^ 64 → Forall is_byte content →
  foldl read_line (outside names arrays []) (content_lines i content) =
  outside names (arrays ++ [content]) [].
Proof.
  intros [_ Hn] Hi Hc. pose proof (zlen_nonneg content). unfold content_lines. rewrite (read_array Bytes).
  2: { done. }
  2: { destruct (print_base_spec 10 (Z.of_nat i)) as (_ & q & d & Hq & Hd); [lia|lia|].
       unfold dec at 2. rewrite Hq, <- (assoc_L (++) q), !(assoc_L (++)).
       rewrite <- (assoc_L (++) _ [digit_char d]). by apply opens_bytes. }
  2: { apply Forall_fmap, Forall_true. done. }
  rewrite read_rows_result. unfold begin_array, end_array, outside.
  cbn [mode_ size_ names_read arrays_read bytes_read references_read valid_].
  rewrite (scan_rows 120 16 content_cell id), list_fmap_id; [|lia|lia|lia|].
  2: { intros b s Hb. rewrite Forall_forall in Hc. apply Hc in Hb. unfold is_byte in Hb. unfold content_cell.
       change (str "0x") with ([48] ++ [120]). rewrite <- !(assoc_L (++)), scan_skip.
       - simpl app. unfold id. by apply (scan_number 120 16); [lia|lia|].
       - by intros ?%list_elem_of_singleton. }
  change (str "std::array<uint8_t, ") with (str "std::array<uint8_t," ++ [32]).
  change (str "> content") with ([62] ++ str " content"). rewrite <- !(assoc_L (++)), scan_header.
  - cbn [default app]. by rewrite Z.eqb_refl.
  - apply (bool_decide_unpack _). by vm_compute.
  - lia.
Qed.

Lemma references_block n names arrays :
  Z.of_nat n < 10 ^ 64 →
  foldl read_line (outside names arrays [])
    ([str "std::array<ConstBufferSpan, " ++ dec (Z.of_nat n) ++ str "> contents{{"] ++
     ((λ row, indented (reference_cell <$> row)) <$> rows 4 (seq 0 n)) ++ [str "}};"; []]) =
  outside names arrays (Z.of_nat <$> seq 0 n).
Proof.
  intros Hn. rewrite (read_array References).
  2: { done. }
  2: { assert (∀ l, has_suffix (str "> names{{") (l ++ str "> contents{{") = false) as Hs.
       { intros l. apply not_true_is_false. rewrite has_suffix_spec. intros (q & Hq).
         change (str "> names{{") with (str "> " ++ str "names{{") in Hq.
         change (str "> contents{{") with (str "> con" ++ str "tents{{") in Hq.
         rewrite !(assoc_L (++)) in Hq. by apply app_inj_2 in Hq as [_ ?]. }
       unfold opens. rewrite (assoc_L (++)), Hs, (proj2 (has_suffix_spec _ _)); eauto. }
  2: { apply Forall_fmap, Forall_true. done. }
  rewrite read_rows_result. unfold begin_array, end_array, outside.
  cbn [mode_ size_ names_read arrays_read bytes_read references_read valid_].
  rewrite (scan_rows 116 10 reference_cell Z.of_nat); [|lia|lia|lia|].
  2: { intros i s [_ Hi]%elem_of_seq. unfold reference_cell.
       change (str "content") with (str "con" ++ [116; 101; 110; 116]). rewrite <- !(assoc_L (++)), scan_skip.
       - cbn [app scan]. apply (scan_number 116 10); [lia|lia|done].
       - apply (bool_decide_unpack _). by vm_compute. }
  change (str "std::array<ConstBufferSpan, ") with (str "std::array<ConstBufferSpan," ++ [32]).
  change (str "> contents{{") with ([62] ++ str " contents{{"). rewrite <- !(assoc_L (++)), scan_header.
  - cbn [default app]. unfold zlen. by rewrite length_fmap, length_seq, Z.eqb_refl.
  - apply (bool_decide_unpack _). by vm_compute.
  - lia.
Qed.
End reads.

(** ** The whole file *)

(** The flags name a namespace and a variable. *)
Definition identifiers (fl : Flags) : Prop :=
  Forall line_char (cc_namespace fl) ∧ Forall line_char (variable_name fl) ∧ 123 ∉ cc_namespace fl.

Ltac line_text :=
  repeat match goal with
  | |- Forall line_char (_ ++ _) => apply Forall_app; split
  | |- Forall (Forall line_char) (_ ++ _) => apply Forall_app; split
  | |- Forall (Forall line_char) (_ :: _) => apply Forall_cons; split
  | |- Forall _ [] => constructor
  | |- Forall line_char (dec _) => apply line_dec
  | |- Forall line_char (str _) => apply (bool_decide_unpack (Forall line_char _)); by vm_compute
  | |- Forall line_char [quote] => apply (bool_decide_unpack (Forall line_char _)); by vm_compute
  | _ => done
  end.

Section file.
Context `{!CHexEscape}.

Fixpoint contents_lines (i : nat) (contents : list (list Z)) : list (list Z) :=
  match contents with
  | [] => []
  | content :: contents => content_lines i content ++ contents_lines (S i) contents
  end.

Definition cc_lines (fl : Flags) (files contents : list (list Z)) : list (list Z) :=
  names_lines fl files ++ contents_lines 0 contents ++ tail_lines fl (length files).

Lemma in_namespace_text fl ls :
  Forall (Forall line_char) ls → Forall (Forall line_char) (in_namespace fl ls).
Proof. unfold in_namespace. by case_bool_decide. Qed.

Lemma h_lines_text fl : identifiers fl → Forall (Forall line_char) (h_lines fl).
Proof.
  intros (Hns & Hv & _). unfold h_lines. line_text; try (apply in_namespace_text); line_text.
Qed.

Lemma names_lines_text fl files :
  identifiers fl → in_u 64 (zlen files) → Forall (Forall is_byte) files →
  Forall (Forall line_char) (names_lines fl files).
Proof.
  intros (Hns & Hv & _) [? ?] Hf. unfold names_lines. line_text; try lia.
  - apply in_namespace_text. line_text.
  - apply Forall_fmap. eapply Forall_impl; [exact Hf|]. intros file Hfile. unfold compose. line_text.
    destruct (c_hex_escape_bytes file Hfile) as [Hb Hn]. apply Forall_forall. intros c Hc. split.
    + rewrite Forall_forall in Hb. by apply Hb.
    + by intros ->.
Qed.

Lemma content_lines_text i content :
  Z.of_nat i < 10 ^ 64 → in_u 64 (zlen content) → Forall is_byte content →
  Forall (Forall line_char) (content_lines i content).
Proof.
  intros Hi [? ?] Hc. unfold content_lines. line_text; try lia.
  apply Forall_fmap, Forall_forall. intros row Hr. unfold compose, indented. line_text.
  apply line_comma, Forall_fmap, Forall_forall. intros b Hb. unfold compose, content_cell. line_text.
  rewrite Forall_forall in Hc. assert (is_byte b) as [??] by (by eapply Hc, rows_elem; [|done..]; lia).
  apply print_base_spec; lia.
Qed.

Lemma tail_lines_text fl n :
  identifiers fl → Z.of_nat n < 10 ^ 64 → Forall (Forall line_char) (tail_lines fl n).
Proof.
  intros (Hns & Hv & _) Hn. unfold tail_lines. line_text; try lia.
  - apply Forall_fmap, Forall_forall. intros row Hr. unfold compose, indented. line_text.
    apply line_comma, Forall_fmap, Forall_forall. intros i Hi. unfold compose, reference_cell. line_text.
    assert (i ∈ seq 0 n) as [_ ?]%elem_of_seq by (by eapply rows_elem; [|done..]; lia). lia.
  - apply in_namespace_text. line_text.
Qed.

(** Files that a program can hold: bytes, and sizes below 2^64 *)
Definition small_files (contents : list (list Z)) : Prop :=
  in_u 64 (zlen contents) ∧ Forall (λ c, in_u 64 (zlen c) ∧ Forall is_byte c) contents.

Lemma contents_lines_text i contents :
  Z.of_nat (i + length contents) < 10 ^ 64 → Forall (λ c, in_u 64 (zlen c) ∧ Forall is_byte c) contents →
  Forall (Forall line_char) (contents_lines i contents).
Proof.
  intros Hi Hc. revert i Hi. induction Hc as [|c cs [Hc Hb] _ IH]; intros i Hi; [constructor|].
  cbn [contents_lines]. simpl in Hi. apply Forall_app. split.
  - apply content_lines_text; [lia|done|done].
  - apply IH. lia.
Qed.

Lemma cc_lines_text fl files contents :
  identifiers fl → in_u 64 (zlen files) → Forall (Forall is_byte) files → small_files contents →
  Forall (Forall line_char) (cc_lines fl files contents).
Proof.
  intros Hfl Hn Hf [Hc Hcs]. unfold cc_lines, in_u, zlen in *. rewrite !Forall_app. split_and!.
  - by apply names_lines_text.
  - apply contents_lines_text; [simpl; lia|done].
  - apply tail_lines_text; [done|lia].
Qed.

Lemma read_contents i contents names arrays :
  Z.of_nat (i + length contents) < 10 ^ 64 → Forall (λ c, in_u 64 (zlen c) ∧ Forall is_byte c) contents →
  foldl read_line (outside names arrays []) (contents_lines i contents) =
  outside names (arrays ++ contents) [].
Proof.
  intros Hi Hc. revert i arrays Hi. induction Hc as [|c cs [Hc Hb] _ IH]; intros i arrays Hi.
  { by rewrite app_nil_r. }
  cbn [contents_lines]. simpl in Hi. rewrite foldl_app, content_block by (done || lia).
  rewrite IH by lia. by rewrite <- (assoc_L (++)).
Qed.

Lemma read_names fl files :
  in_u 64 (zlen files) → Forall (Forall is_byte) files →
  foldl read_line no_reading (names_lines fl files) = outside files [] [].
Proof.
  intros Hn Hf. unfold names_lines.
  set (pre := [_; _; _; _; _; _]). set (ns := in_namespace _ _).
  change (foldl read_line (outside [] [] []) (pre ++ ns ++ [str "namespace {"; []] ++
    ([str "std::array<std::string_view, " ++ dec (zlen files) ++ str "> names{{"] ++
     ((λ file, str "    " ++ [quote] ++ c_hex_escape file ++ [quote] ++ str ",") <$> files) ++
     [str "}};"; []])) = outside files [] []).
  rewrite !(foldl_app _ _ (_ ++ _)). rewrite (read_nothing _ pre), (read_nothing _ ns), (read_nothing _ [_; _]).
  - by apply names_block.
  - done.
  - apply (bool_decide_unpack (Forall _ _)). by vm_compute.
  - done.
  - unfold ns, in_namespace. case_bool_decide; [constructor|]. apply Forall_singleton.
    rewrite (assoc_L (++)). apply opens_none_space.
  - done.
  - apply (bool_decide_unpack (Forall _ _)). by vm_compute.
Qed.

Lemma read_tail fl n names arrays :
  identifiers fl → Z.of_nat n < 10 ^ 64 →
  foldl read_line (outside names arrays []) (tail_lines fl n) = outside names arrays (Z.of_nat <$> seq 0 n).
Proof.
  intros (Hns & Hv & Hb) Hn. unfold tail_lines. set (hdr := str "std::array<ConstBufferSpan, " ++ _).
  set (ls := _ <$> rows 4 _). set (v := variable_name fl). set (ns := in_namespace _ _).
  set (four := [str "}  // namespace"; []; str "extern const ::util::EmbedData " ++ v ++ str ";";
    str "const ::util::EmbedData " ++ v ++ str "(names, contents);"]).
  assert ([hdr] ++ ls ++ ([str "}};"; []] ++ four) ++ ns =
    ([hdr] ++ ls ++ [str "}};"; []]) ++ four ++ ns) as Heq by (by rewrite <- !(assoc_L (++))).
  change (foldl read_line (outside names arrays []) ([hdr] ++ ls ++ ([str "}};"; []] ++ four) ++ ns) =
    outside names arrays (Z.of_nat <$> seq 0 n)).
  rewrite Heq, 2!foldl_app. unfold hdr, ls. rewrite references_block by done.
  rewrite (read_nothing _ four), (read_nothing _ ns); [done|done| |done|].
  - unfold ns, in_namespace. case_bool_decide as Hne; [constructor|]. apply Forall_cons. split; [done|].
    apply Forall_singleton. destruct (cc_namespace fl) as [|c l _] using rev_ind; [done|].
    rewrite (assoc_L (++)). apply opens_none_last. intros ->. apply Hb, elem_of_app. right. by left.
  - unfold four. repeat (apply Forall_cons; split); [done|done| | |constructor].
    + change (str ";") with [59]. rewrite (assoc_L (++)). by apply opens_none_last.
    + change (str "(names, contents);") with (str "(names, contents)" ++ [59]). rewrite !(assoc_L (++)).
      by apply opens_none_last.
Qed.

Lemma references_all {A} (l : list A) :
  mapM (λ i, l !! Z.to_nat i) (Z.of_nat <$> seq 0 (length l)) = Some l.
Proof.
  apply mapM_Some, Forall2_fmap_l, Forall2_lookup. intros i. destruct (decide (i < length l)%nat) as [Hi|Hi].
  - rewrite lookup_seq_lt by done. destruct (lookup_lt_is_Some_2 l i Hi) as [x Hx]. rewrite Hx.
    constructor. unfold compose. by rewrite Nat2Z.id.
  - rewrite lookup_seq_ge, lookup_ge_None_2 by lia. constructor.
Qed.

(** What is printed defines the names and the contents. *)
Lemma read_cc_lines fl files contents :
  identifiers fl → Forall (Forall is_byte) files → small_files contents → length files = length contents →
  read_cc (unlines (cc_lines fl files contents)) = Some {| names_ := files; contents_ := contents |}.
Proof.
  intros Hfl Hf Hc Hlen. pose proof Hc as [[? Hn] Hcs]. unfold zlen in Hn.
  assert (in_u 64 (zlen files)) as Hnf by (unfold in_u, zlen; lia).
  unfold read_cc. rewrite lines_unlines by (by apply cc_lines_text). unfold cc_lines.
  rewrite !foldl_app, read_names, read_contents, read_tail; try done; try lia.
  cbn [outside valid_ arrays_read references_read names_read app]. by rewrite Hlen, references_all.
Qed.
End file.

(** ** main *)

Section main_spec.
Context `{!CHexEscape} {F : Type} `{!File F, !Reader F, !ReliableReader F, !Writer F, !ReliableWriter F}.
Context `{!Directory F} (fuel : nat).
Context (Hfuel : (Z.to_nat buffer_size < fuel)%nat).

Lemma emit_contents_spec i files contents m o :
  Forall2 (λ file c, load fuel file = Ok c) files contents →
  ready (zlen (unlines (contents_lines i contents)) + m) o → 0 ≤ m →
  Forall (Forall line_char) (contents_lines i contents) →
  ∃ o', emit_contents fuel i files o = (Ok tt, o') ∧
    streamed (stream_ o') = streamed (stream_ o) ++ unlines (contents_lines i contents) ∧ ready m o'.
Proof.
  intros Hload. revert i o. induction Hload as [|file c files cs Hl _ IH]; intros i o Hr Hm Ht.
  { exists o. cbn in *. by rewrite app_nil_r. }
  cbn [contents_lines] in *. apply Forall_app in Ht as [Ht Hts]. rewrite unlines_app, zlen_app in Hr.
  pose proof (zlen_nonneg (unlines (contents_lines (S i) cs))).
  destruct (emit_spec fuel Hfuel (content_lines i c) (zlen (unlines (contents_lines (S i) cs)) + m) o)
    as (o1 & He & Hs1 & Hr1); [by rewrite Z.add_assoc|lia|done|].
  destruct (IH (S i) o1 Hr1 Hm Hts) as (o2 & Hc & Hs2 & Hr2). exists o2.
  cbn [emit_contents]. unfold st_bind, st_lift. rewrite Hl, He, Hc. split; [done|].
  split; [|done]. by rewrite Hs2, Hs1, unlines_app, (assoc_L (++)).
Qed.

Lemma write_cc_spec fl files contents o :
  identifiers fl → Forall (Forall is_byte) files → small_files contents →
  Forall2 (λ file c, load fuel file = Ok c) files contents →
  ready (zlen (unlines (cc_lines fl files contents))) o →
  ∃ o', write_cc fuel fl files o = (Ok tt, o') ∧
    streamed (stream_ o') = streamed (stream_ o) ++ unlines (cc_lines fl files contents) ∧ ready 0 o'.
Proof.
  intros Hfl Hf Hc Hload Hr. pose proof (Forall2_length _ _ _ Hload) as Hlen.
  assert (in_u 64 (zlen files)) as Hn by (destruct Hc as [[??] _]; unfold in_u, zlen in *; lia).
  pose proof (cc_lines_text fl files contents Hfl Hn Hf Hc) as Ht.
  unfold cc_lines in *. rewrite !Forall_app in Ht. destruct Ht as (Ht1 & Ht2 & Ht3).
  rewrite !unlines_app, !zlen_app in Hr. pose proof (zlen_nonneg (unlines (contents_lines 0 contents))).
  pose proof (zlen_nonneg (unlines (tail_lines fl (length files)))).
  destruct (emit_spec fuel Hfuel _ _ o Hr ltac:(lia) Ht1) as (o1 & He1 & Hs1 & Hr1).
  destruct (emit_contents_spec 0 files contents _ o1 Hload Hr1 ltac:(lia) Ht2) as (o2 & He2 & Hs2 & Hr2).
  destruct (emit_spec fuel Hfuel (tail_lines fl (length files)) 0 o2) as (o3 & He3 & Hs3 & Hr3);
    [by rewrite Z.add_0_r|done|done|].
  exists o3. unfold write_cc, st_bind. rewrite He1, He2, He3. split; [done|]. split; [|done].
  by rewrite Hs3, Hs2, Hs1, !unlines_app, !(assoc_L (++)).
Qed.

Lemma load_spec file f :
  open_file file = Ok f → valid_reader f → (length (pending f) < fuel)%nat → load fuel file = Ok (pending f).
Proof.
  intros Ho Hv Hl. unfold load. rewrite Ho. cbn [mbind result_bind].
  destruct (read_to_end_loop_spec fuel 8192 f [] Hv ltac:(done) ltac:(lia) Hl) as (f' & Hr & _).
  unfold read_to_end. by rewrite Hr.
Qed.

(** C31: When the files named on the command line can be read and the outputs can be written,
    generate-embed-data succeeds, and the C++ file that it writes, read back as array
    initialisers whose declared sizes must match, defines an EmbedData in which
    get_content_by_name finds the content of each file by its name, and nothing for any other
    name, whatever the order and repetitions of the arguments. *)
Theorem generate_embed_data fl program args (disk : list Z → list Z) cc h :
  let contents := disk <$> sorted_files args in
  identifiers fl → Forall (Forall is_byte) args → small_files contents →
  create_file (output_cc fl) = Ok cc → valid_writer cc → written cc = [] →
  zlen (unlines (cc_lines fl (sorted_files args) contents)) ≤ room cc →
  create_file (output_h fl) = Ok h → valid_writer h → written h = [] →
  zlen (unlines (h_lines fl)) ≤ room h →
  (∀ name, name ∈ args → ∃ f, open_file name = Ok f ∧ valid_reader f ∧ pending f = disk name ∧
     (length (disk name) < fuel)%nat) →
  ∃ h' cc' d, main fuel fl (program :: args) = Ok (Ok tt, h', cc') ∧
    written h' = unlines (h_lines fl) ∧ read_cc (written cc') = Some d ∧
    ∀ name, get_content_by_name name d = Ok (if bool_decide (name ∈ args) then Some (disk name) else None).
Proof.
  intros contents Hfl Hargs Hc Hcc Hvc Hwc Hrc Hh Hvh Hwh Hrh Hopen.
  set (files := sorted_files args) in *.
  assert (Forall (Forall is_byte) files) as Hf.
  { apply Forall_forall. intros x Hx. rewrite Forall_forall in Hargs. by apply Hargs, sorted_files_elem. }
  assert (Forall2 (λ file c, load fuel file = Ok c) files contents) as Hload.
  { apply Forall2_fmap_r, Forall_Forall2_diag, Forall_forall. intros name Hn.
    destruct (Hopen name) as (f & Ho & Hv & Hp & Hl); [by apply sorted_files_elem|].
    unfold compose. rewrite <- Hp. apply load_spec; [done|done|by rewrite Hp]. }
  destruct (emit_spec fuel Hfuel (h_lines fl) 0 (make_ostream h)) as (oh & Heh & Hsh & Hoh);
    [|done|by apply h_lines_text|].
  { rewrite Z.add_0_r. apply make_ostream_ready; [done|]. pose proof (zlen_nonneg (unlines (h_lines fl))). lia. }
  destruct (finish_spec fuel Hfuel _ _ h oh Heh Hsh Hoh) as (h' & Hfh & Hw).
  destruct (write_cc_spec fl files contents (make_ostream cc) Hfl Hf Hc Hload) as (oc & Hec & Hsc & Hoc).
  { apply make_ostream_ready; [done|]. pose proof (zlen_nonneg (unlines (cc_lines fl files contents))). lia. }
  destruct (finish_spec fuel Hfuel _ _ cc oc Hec Hsc Hoc) as (cc' & Hfc & Hwcc).
  exists h', cc', {| names_ := files; contents_ := contents |}.
  unfold main. cbn [drop]. rewrite drop_0. fold files. rewrite Hcc, Hh. cbn [mbind result_bind].
  rewrite Hfh, Hfc. split; [done|]. rewrite Hw, Hwh, Hwcc, Hwc. split; [done|]. split.
  - apply read_cc_lines; [done..|]. unfold contents. by rewrite length_fmap.
  - intros name. apply embed_data_lookup.
Qed.
End main_spec.

(** ** Errors *)

Section errors.
Context `{!CHexEscape} {F : Type} `{!File F, !Directory F} (fuel : nat).

(** Every write fails. *)
Definition full_disk : Prop := ∀ bs f, ∃ e, File.write bs f = (Err e, f).

Lemma sputc_full c s :
  full_disk → ∃ r s', sputc (S fuel) c s = (Ok r, s') ∧ file_ s' = file_ s.
Proof.
  intros Hfull. unfold sputc. destruct (Z.ltb_spec (zlen (put_area s)) buffer_size) as [|Hge]; [by eexists _, _|].
  unfold overflow, sync, st_bind. unfold buffer_size in Hge. rewrite (proj2 (Z.eqb_neq _ _)) by lia.
  cbn [FileUtils.write]. rewrite (proj2 (Z.eqb_neq _ _)) by lia. destruct (Hfull (put_area s) (file_ s)) as [e ->].
  by eexists _, _.
Qed.

Lemma emit_full ls o :
  full_disk → ∃ o', emit (S fuel) ls o = (Ok tt, o') ∧ file_ (stream_ o') = file_ (stream_ o).
Proof.
  intros Hfull. unfold emit. destruct (good_ o); [|by exists o].
  assert (∀ cs s, ∃ n s', xsputn (S fuel) cs s = (Ok n, s') ∧ file_ s' = file_ s) as Hx.
  { induction cs as [|c cs IH]; intros s; [by exists 0, s|]. cbn [xsputn]. unfold st_bind, st_ret.
    destruct (sputc_full c s Hfull) as (r & s1 & -> & Hf). destruct (r =? EOF); [by exists 0, s1|].
    destruct (IH s1) as (n & s2 & -> & Hf2). exists (1 + n), s2. by rewrite Hf2, Hf. }
  destruct (Hx (unlines ls) (stream_ o)) as (n & s' & -> & Hf). by eexists.
Qed.

Lemma emit_contents_full i files contents o :
  full_disk → Forall2 (λ file c, load (S fuel) file = Ok c) files contents →
  ∃ o', emit_contents (S fuel) i files o = (Ok tt, o') ∧ file_ (stream_ o') = file_ (stream_ o).
Proof.
  intros Hfull Hload. revert i o. induction Hload as [|file c files cs Hl _ IH]; intros i o; [by exists o|].
  cbn [emit_contents]. unfold st_bind, st_lift. rewrite Hl.
  destruct (emit_full (content_lines i c) o Hfull) as (o1 & -> & Hf1).
  destruct (IH (S i) o1) as (o2 & -> & Hf2). exists o2. by rewrite Hf2, Hf1.
Qed.

Lemma finish_full m f o' :
  full_disk → m (make_ostream f) = (Ok tt, o') → file_ (stream_ o') = f → finish (S fuel) m f = (Ok tt, f).
Proof.
  intros Hfull Hm Hf. unfold finish. rewrite Hm. unfold destroy, sync.
  destruct (Z.eqb_spec (zlen (put_area (stream_ o'))) 0) as [|Hne]; [by rewrite Hf|].
  cbn [FileUtils.write]. rewrite (proj2 (Z.eqb_neq _ _)) by done.
  destruct (Hfull (put_area (stream_ o')) (file_ (stream_ o'))) as [e ->]. by rewrite Hf.
Qed.

(** When nothing can be written, the generator still succeeds, and leaves both files as
    they were created. *)
Theorem generate_ignores_write_errors fl program args contents cc h :
  full_disk → create_file (output_cc fl) = Ok cc → create_file (output_h fl) = Ok h →
  Forall2 (λ file c, load (S fuel) file = Ok c) (sorted_files args) contents →
  main (S fuel) fl (program :: args) = Ok (Ok tt, h, cc).
Proof.
  intros Hfull Hcc Hh Hload. unfold main. cbn [drop]. rewrite drop_0, Hcc, Hh. cbn [mbind result_bind].
  destruct (emit_full (h_lines fl) (make_ostream h) Hfull) as (oh & Heh & Hfh).
  rewrite (finish_full _ h oh Hfull Heh Hfh).
  destruct (emit_full (names_lines fl (sorted_files args)) (make_ostream cc) Hfull) as (o1 & He1 & Hf1).
  destruct (emit_contents_full 0 _ _ o1 Hfull Hload) as (o2 & He2 & Hf2).
  destruct (emit_full (tail_lines fl (length (sorted_files args))) o2 Hfull) as (o3 & He3 & Hf3).
  rewrite (finish_full _ cc o3); [done|done| |by rewrite Hf3, Hf2, Hf1].
  unfold write_cc, st_bind. by rewrite He1, He2, He3.
Qed.
End errors.

(** ** An example *)

Definition escape_byte (b : Z) : list Z := [92; 120; digit_char (b / 16); digit_char (b mod 16)].

Fixpoint unescape_bytes (s : list Z) : list Z :=
  match s with
  | _ :: _ :: c :: d :: s => 16 * default 0 (digit_of 16 c) + default 0 (digit_of 16 d) :: unescape_bytes s
  | _ => []
  end.

#[export] Program Instance every_byte : CHexEscape := {
  c_hex_escape := flat_map escape_byte;
  c_unescape := unescape_bytes;
}.
Next Obligation.
  induction 1 as [|b s Hb _ IH]; [done|]. simpl. rewrite IH. f_equal. revert b Hb. byte_fact.
Qed.
Next Obligation.
  induction 1 as [|b s Hb _ [IH1 IH2]]; [split; [constructor|by apply not_elem_of_nil]|].
  assert (∀ b, is_byte b → bool_decide (Forall is_byte (escape_byte b) ∧ newline ∉ escape_byte b) = true) as He
    by byte_fact.
  apply He, bool_decide_eq_true in Hb as [Hb1 Hb2]. cbn [flat_map]. rewrite Forall_app, elem_of_app. tauto.
Qed.

#[local] Instance example_directory : Directory MemoryFile.MemoryFile := {
  create_file _ := Ok (MemoryFile.make []);
  open_file name := Ok (MemoryFile.make (7 :: name));
}.

Definition example_flags : Flags :=
  {| variable_name := str "data"; cc_namespace := str "ns"; output_cc := str "a.cc"; output_h := str "a.h" |}.

Lemma generate_embed_data_witness :
  ∃ h' cc' d, main (Z.to_nat 8193) example_flags [str "prog"; str "b"; str "a"; str "b"] = Ok (Ok tt, h', cc') ∧
    read_cc (written cc') = Some d ∧ get_content_by_name (str "b") d = Ok (Some [7; 98]).
Proof.
  destruct (generate_embed_data (Z.to_nat 8193) ltac:(unfold buffer_size; lia) example_flags (str "prog")
    [str "b"; str "a"; str "b"] (cons 7) (MemoryFile.make []) (MemoryFile.make []))
    as (h' & cc' & d & Hm & _ & Hr & Hg).
  - split_and!; apply (bool_decide_unpack _); by vm_compute.
  - apply (bool_decide_unpack _); by vm_compute.
  - split; [by split|]. apply (bool_decide_unpack _); by vm_compute.
  - reflexivity.
  - by repeat split.
  - reflexivity.
  - by vm_compute.
  - reflexivity.
  - by repeat split.
  - reflexivity.
  - by vm_compute.
  - intros name Hn. eexists. split; [reflexivity|]. split; [|split; [reflexivity|]].
    + rewrite !elem_of_cons in Hn. destruct Hn as [->|[->|[->|Hn%not_elem_of_nil]]]; [by repeat split..|done].
    + rewrite !elem_of_cons in Hn. destruct Hn as [->|[->|[->|Hn%not_elem_of_nil]]]; [simpl; lia..|done].
  - exists h', cc', d. split; [exact Hm|]. split; [exact Hr|]. rewrite Hg. by vm_compute.
Defined.
