(* ===== verification/Flags.v ===== *)
(** * base/flags

    A flag is defined by DEFINE_FLAG: absl knows it and its default, and the program reads a
    variable of its own, which a setter copies from absl once the command line is parsed.
    The setters are registered while the program is initialised, in the order of the
    definitions.  absl is the interface [AbslFlags]; ParseCommandLine gives nothing when it
    ends the program.  The values are those of std::string flags, which main of
    generate-embed-data is composed with. *)

From S2P Require Import Prelude File OStream GenerateEmbedData.
From stdpp Require Import strings.

Class AbslFlags (A : Type) : Type := {
  set_program_usage_message : A → A;
  parse_command_line : list (list Z) → A → option (list (list Z) * A);
  get_flag : string → A → list Z;
}.

Record Program (A : Type) : Type := {
  absl_ : A;
  setters : list string;
  flags_ : gmap string (list Z);
}.
Arguments absl_ {_}. Arguments setters {_}. Arguments flags_ {_}.

(** A program before the initialisation of its variables *)
Definition no_flags {A} (absl : A) : Program A := {| absl_ := absl; setters := []; flags_ := ∅ |}.

(** base::detail::register_flag *)
Definition register_flag {A} (setter : string) (p : Program A) : Program A :=
  {| absl_ := absl_ p; setters := setters p ++ [setter]; flags_ := flags_ p |}.

(** DEFINE_FLAG: the variable is empty until its setter runs. *)
Definition define_flag {A} (name : string) (p : Program A) : Program A :=
  register_flag name {| absl_ := absl_ p; setters := setters p; flags_ := <[name := []]> (flags_ p) |}.

Definition define_flags {A} (names : list string) (p : Program A) : Program A :=
  foldl (λ p name, define_flag name p) p names.

Section flags.
Context {A : Type} `{!AbslFlags A}.

(** The setter that DEFINE_FLAG registers *)
Definition run_setter (name : string) (p : Program A) : Program A :=
  {| absl_ := absl_ p; setters := setters p; flags_ := <[name := get_flag name (absl_ p)]> (flags_ p) |}.

(** base::parse_flags with positional arguments *)
Definition parse_flags_positional (argv : list (list Z)) (p : Program A) :
    option (list (list Z) * Program A) :=
  '(positional_args, absl) ← parse_command_line argv (set_program_usage_message (absl_ p));
  let p := {| absl_ := absl; setters := setters p; flags_ := flags_ p |} in
  Some (positional_args, foldl (λ p name, run_setter name p) p (setters p)).

(** base::parse_flags *)
Definition parse_flags (argv : list (list Z)) (p : Program A) : option (Program A) :=
  '(_, absl) ← parse_command_line argv (set_program_usage_message (absl_ p));
  let p := {| absl_ := absl; setters := setters p; flags_ := flags_ p |} in
  Some (foldl (λ p name, run_setter name p) p (setters p)).

Lemma define_flags_spec names (p : Program A) :
  absl_ (define_flags names p) = absl_ p ∧ setters (define_flags names p) = setters p ++ names ∧
  ∀ name, flags_ (define_flags names p) !! name = if bool_decide (name ∈ names) then Some [] else flags_ p !! name.
Proof.
  revert p. induction names as [|n names IH]; intros p.
  - split_and!; [done|unfold define_flags; simpl; by rewrite app_nil_r|done].
  - change (define_flags (n :: names) p) with (define_flags names (define_flag n p)).
    destruct (IH (define_flag n p)) as (-> & -> & Hf). split_and!; [done|simpl; by rewrite <- (assoc_L (++))|].
    intros name. rewrite Hf. simpl.
    destruct (decide (name = n)) as [->|Hne].
    + rewrite lookup_insert_eq, (bool_decide_true (n ∈ n :: names)) by left. by destruct (bool_decide _).
    + rewrite lookup_insert_ne by done. rewrite (bool_decide_ext (name ∈ n :: names) (name ∈ names)); [done|].
      rewrite elem_of_cons. naive_solver.
Qed.

Lemma run_setters_spec names p :
  absl_ (foldl (λ p name, run_setter name p) p names) = absl_ p ∧
  ∀ name, flags_ (foldl (λ p name, run_setter name p) p names) !! name =
    if bool_decide (name ∈ names) then Some (get_flag name (absl_ p)) else flags_ p !! name.
Proof.
  revert p. induction names as [|n names IH]; intros p; simpl; [done|].
  destruct (IH (run_setter n p)) as (-> & Hf). split; [done|]. intros name. rewrite Hf. simpl.
  destruct (decide (name = n)) as [->|Hne].
  - rewrite lookup_insert_eq, (bool_decide_true (n ∈ n :: names)) by left. by destruct (bool_decide _).
  - rewrite lookup_insert_ne by done. rewrite (bool_decide_ext (name ∈ n :: names) (name ∈ names)); [done|].
    rewrite elem_of_cons. naive_solver.
Qed.

(** After parse_flags, and not before, every flag of the program has the value that absl
    has parsed for it, in whatever order the flags were defined; the positional arguments
    are those of absl. *)
Theorem parse_flags_sets absl argv names positional_args absl' :
  parse_command_line argv (set_program_usage_message absl) = Some (positional_args, absl') →
  let p := define_flags names (no_flags absl) in
  ∃ p', parse_flags argv p = Some p' ∧ parse_flags_positional argv p = Some (positional_args, p') ∧
    ∀ name, name ∈ names → flags_ p !! name = Some [] ∧ flags_ p' !! name = Some (get_flag name absl').
Proof.
  intros Hp p. destruct (define_flags_spec names (no_flags absl)) as (Ha & Hs & Hf). fold p in Ha, Hs, Hf.
  simpl in Ha, Hs. unfold parse_flags, parse_flags_positional. rewrite Ha, Hp. cbn [mbind option_bind setters].
  rewrite Hs. eexists. split_and!; [done|done|]. intros name Hn.
  destruct (run_setters_spec names {| absl_ := absl'; setters := names; flags_ := flags_ p |}) as [_ ->].
  by rewrite Hf, !bool_decide_true.
Qed.
End flags.

(** ** The flags of generate-embed-data *)

Definition generator_flags : list string := ["variable_name"; "cc_namespace"; "output_cc"; "output_h"]%string.

Definition flag {A} (name : string) (p : Program A) : list Z := default [] (flags_ p !! name).

Definition read_flags {A} (p : Program A) : Flags := {|
  variable_name := flag "variable_name" p;
  cc_namespace := flag "cc_namespace" p;
  output_cc := flag "output_cc" p;
  output_h := flag "output_h" p;
|}.

Section generator.
Context {A F : Type} `{!AbslFlags A} `{!File F} `{!Directory F} `{!CHexEscape}.

(** The program, from its command line *)
Definition embed_main (fuel : nat) (absl : A) (argv : list (list Z)) : option (result (result unit * F * F)) :=
  '(positional_args, p) ← parse_flags_positional argv (define_flags generator_flags (no_flags absl));
  Some (main fuel (read_flags p) positional_args).

Lemma embed_main_flags fuel absl argv positional_args absl' :
  parse_command_line argv (set_program_usage_message absl) = Some (positional_args, absl') →
  embed_main fuel absl argv = Some (main fuel {|
    variable_name := get_flag "variable_name" absl';
    cc_namespace := get_flag "cc_namespace" absl';
    output_cc := get_flag "output_cc" absl';
    output_h := get_flag "output_h" absl' |} positional_args).
Proof.
  intros Hp. destruct (parse_flags_sets _ _ generator_flags _ _ Hp) as (p' & _ & Hrun & Hf).
  unfold embed_main. rewrite Hrun. cbn [mbind option_bind]. unfold read_flags, flag.
  repeat match goal with |- context [flags_ p' !! ?n] =>
    rewrite (proj2 (Hf n ltac:(unfold generator_flags; set_solver))) end. done.
Qed.
End generator.
