(* ===== verification/Fibonacci.v ===== *)
(** * util/fibonacci-sequence

    The template parameter T is an [int_type]; unsigned addition wraps and
    signed addition that overflows is a [Crash]. *)

From S2P Require Import Prelude.

Record FibonacciSequence : Type := { a_ : Z; b_ : Z }.

(** FibonacciSequence::reset, which the constructor calls *)
Definition reset : FibonacciSequence := {| a_ := 1; b_ := 1 |}.

(** FibonacciSequence::next *)
Definition next (t : int_type) (s : FibonacciSequence) : result FibonacciSequence :=
  let a := a_ s in
  sum ← (if signed t then check_s (width t) (b_ s + a) else Ok (uwrap (width t) (b_ s + a)));
  Ok {| a_ := b_ s; b_ := sum |}.

Fixpoint iterate (t : int_type) (n : nat) : result FibonacciSequence :=
  match n with
  | O => Ok reset
  | S n => s ← iterate t n; next t s
  end.

(** The sequence 1, 1, 2, 3, 5, ... *)
Fixpoint fib_pair (n : nat) : Z * Z :=
  match n with
  | O => (1, 1)
  | S n => let '(a, b) := fib_pair n in (b, b + a)
  end.

Definition fib (n : nat) : Z := (fib_pair n).1.

Lemma fib_step n : fib (S (S n)) = fib (S n) + fib n.
Proof. unfold fib. simpl. by destruct (fib_pair n). Qed.

Lemma fib_pos n : 1 ≤ fib n ∧ fib n ≤ fib (S n).
Proof.
  induction n as [|n [IH1 IH2]]; [done|].
  rewrite fib_step. lia.
Qed.

Lemma fib_mono n m : (n ≤ m)%nat → fib n ≤ fib m.
Proof. induction 1 as [|m _ IH]; [done|]. pose proof (fib_pos m). lia. Qed.

(** The sequence is that of the Fibonacci numbers until T overflows. *)
Theorem fibonacci_values t n :
  0 < width t → in_range t 1 →
  (in_range t (fib (S n)) → iterate t n = Ok {| a_ := fib n; b_ := fib (S n) |}) ∧
  (signed t = true → ¬ in_range t (fib (S n)) → iterate t n = Crash).
Proof.
  intros Hw H1. induction n as [|n [IH1 IH2]].
  { split; [done|]. intros ? Hn. by destruct Hn. }
  pose proof (fib_pos n) as [Hp Hm]. pose proof (fib_pos (S n)) as [_ Hm'].
  assert (in_range t (fib (S (S n))) → in_range t (fib (S n))) as Hdown.
  { unfold in_range, in_s, in_u in *. destruct (signed t); lia. }
  rewrite fib_step in *. cbn [iterate]. split.
  - intros Hr. rewrite IH1 by auto. cbn [mbind result_bind]. unfold next, in_range in *. simpl a_. simpl b_.
    destruct (signed t).
    + by rewrite check_s_ok.
    + by rewrite uwrap_id.
  - intros Hs Hr. assert (in_range t (fib (S n)) ∨ ¬ in_range t (fib (S n))) as [Hin|Hout].
    { unfold in_range, in_s, in_u. destruct (signed t); lia. }
    + rewrite IH1 by done. cbn [mbind result_bind]. unfold next. rewrite Hs.
      destruct (check_s _ _) as [z| | |] eqn:E; try done.
      * apply check_s_inv in E as [_ E]. destruct Hr. unfold in_range. by rewrite Hs.
      * unfold check_s in E. by split_if.
      * unfold check_s in E. by split_if.
    + by rewrite IH2.
Qed.

Lemma fibonacci_values_witness :
  iterate int32 44 = Ok {| a_ := 1134903170; b_ := 1836311903 |} ∧ iterate int32 45 = Crash.
Proof.
  split.
  - apply (fibonacci_values int32 44); by vm_compute.
  - apply (fibonacci_values int32 45); [done|done|done|]. vm_compute. intros [_ H]. discriminate H.
Defined.
