(* ===== verification/Keystore.v ===== *)
(** * security: keys and the keystore

    BoringSSL is not part of the repository: [Aead] is the interface of the
    calls of security/key.cc, with what their documentation says of the lengths
    and of opening what was sealed.  [toy_aead] is a concrete (and insecure)
    instance. *)

From S2P Require Import Prelude.

Class Aead : Type := {
  (** CRYPTO_chacha_20 of 8 zero bytes with a zero nonce *)
  chacha_20_zero : list Z → list Z;
  (** EVP_AEAD_CTX_seal and EVP_AEAD_CTX_open, without additional data *)
  aead_seal : list Z → list Z → list Z → list Z;
  aead_open : list Z → list Z → list Z → option (list Z);
  (** what EVP_AEAD_CTX_open wrote to out when it failed *)
  aead_open_scratch : list Z → list Z → list Z → list Z;
  chacha_20_zero_length key : length (chacha_20_zero key) = 8%nat;
  aead_seal_length key nonce bs : length (aead_seal key nonce bs) = (length bs + 16)%nat;
  aead_open_seal key nonce bs : aead_open key nonce (aead_seal key nonce bs) = Some bs;
  aead_open_length key nonce bs pt :
    aead_open key nonce bs = Some pt → (length pt + 16 = length bs)%nat;
  aead_open_scratch_length key nonce bs :
    (length (aead_open_scratch key nonce bs) ≤ length bs)%nat;
}.

Definition encrypt_overhead : Z := 16.

(** Key, with the members of its Impl *)
Record Key : Type := { fingerprint_ : Z; array_ : list Z }.

(** operator== *)
Definition key_eqb (a b : Key) : bool := bool_decide (array_ a = array_ b).

Section key.
Context `{!Aead}.

(** compute_fingerprint: the 8 bytes read as a uint64_t *)
Definition compute_fingerprint (array : list Z) : Z := le_decode (chacha_20_zero array).

(** Key::Key, Key::Impl::Impl *)
Definition make_key (array : list Z) : Key :=
  {| fingerprint_ := compute_fingerprint array; array_ := array |}.

(** Key::encrypt: the size it returns and the bytes at out *)
Definition encrypt (k : Key) (input nonce : list Z) : Z * list Z :=
  let out := aead_seal (array_ k) nonce input in (zlen out, out).

(** Key::decrypt: the size it returns and the bytes it writes to out *)
Definition decrypt (k : Key) (input nonce : list Z) : Z * list Z :=
  match aead_open (array_ k) nonce input with
  | None => (size_max, aead_open_scratch (array_ k) nonce input)
  | Some out => (zlen out, out)
  end.

(** Key::decrypt of what Key::encrypt wrote returns the plaintext and its size, the
    ciphertext being encrypt_overhead bytes longer, and the size is never the error value. *)
Theorem key_roundtrip array input nonce :
  zlen input + encrypt_overhead < 2 ^ 63 →
  let '(n, out) := encrypt (make_key array) input nonce in
  n = zlen input + encrypt_overhead ∧ n = zlen out ∧
  decrypt (make_key array) out nonce = (zlen input, input) ∧ zlen input ≠ size_max.
Proof.
  unfold encrypt, decrypt, encrypt_overhead, size_max, zlen. intros.
  rewrite aead_seal_length, aead_open_seal. simpl. split_and!; try done; lia.
Qed.
End key.

(** ** The keystore *)

Record Keystore : Type := { keys_ : gmap Z (list Key) }.

Definition empty_keystore : Keystore := {| keys_ := ∅ |}.

(** Keystore::add; operator[] inserts an empty vector when there is none. *)
Definition add (key : Key) (s : Keystore) : Keystore :=
  let vector := default [] (keys_ s !! fingerprint_ key) in
  if existsb (key_eqb key) vector
  then {| keys_ := <[fingerprint_ key := vector]> (keys_ s) |}
  else {| keys_ := <[fingerprint_ key := vector ++ [key]]> (keys_ s) |}.

(** Keystore::find: what it stores in [keys] *)
Definition find (fingerprint : Z) (s : Keystore) : list Key :=
  match keys_ s !! fingerprint with
  | None => []
  | Some vector => vector
  end.

(** The keys of a list without later duplicates. *)
Definition add_distinct (acc : list Key) (key : Key) : list Key :=
  if existsb (key_eqb key) acc then acc else acc ++ [key].

Definition distinct (ks : list Key) : list Key := foldl add_distinct [] ks.

Section keystore.
Context `{!Aead}.

Definition wf_key (k : Key) : Prop := fingerprint_ k = compute_fingerprint (array_ k).

Definition has_fingerprint (fp : Z) (k : Key) : bool := fingerprint_ k =? fp.

(** Equal keys have equal fingerprints, so the vector of the fingerprint has all
    the keys that may equal [key]. *)
Lemma existsb_filter key acc :
  wf_key key → Forall wf_key acc →
  existsb (key_eqb key) (List.filter (has_fingerprint (fingerprint_ key)) acc) =
  existsb (key_eqb key) acc.
Proof.
  intros Hk. induction 1 as [|k acc Hk' _ IH]; [done|]. simpl. unfold has_fingerprint at 1.
  destruct (Z.eqb_spec (fingerprint_ k) (fingerprint_ key)) as [|Hne]; simpl; rewrite IH; [done|].
  unfold key_eqb at 2. rewrite bool_decide_eq_false_2; [done|]. intros He. apply Hne.
  unfold wf_key in *. congruence.
Qed.

Lemma find_add fp key s :
  find fp (add key s) =
  if has_fingerprint fp key then add_distinct (find fp s) key else find fp s.
Proof.
  unfold add, find, has_fingerprint, add_distinct, default.
  destruct (Z.eqb_spec (fingerprint_ key) fp) as [->|Hne].
  - destruct (keys_ s !! fp) as [v|]; simpl; [destruct (existsb _ v); simpl|];
      by rewrite lookup_insert_eq.
  - destruct (existsb _ _); simpl; by rewrite lookup_insert_ne.
Qed.

Lemma distinct_snoc ks k : distinct (ks ++ [k]) = add_distinct (distinct ks) k.
Proof. unfold distinct. by rewrite foldl_app. Qed.

Lemma distinct_wf ks : Forall wf_key ks → Forall wf_key (distinct ks).
Proof.
  induction ks as [|k ks IH] using rev_ind; [done|]. rewrite distinct_snoc.
  intros [? [? _]%Forall_cons]%Forall_app. unfold add_distinct. split_if; [auto|].
  apply Forall_app. auto.
Qed.

(** After any sequence of adds, Keystore::find returns the distinct keys with the
    fingerprint, in the order in which they were first added. *)
Theorem keystore_find arrays fp :
  let ks := make_key <$> arrays in
  find fp (foldl (λ s k, add k s) empty_keystore ks) =
  List.filter (has_fingerprint fp) (distinct ks).
Proof.
  intros ks. assert (Forall wf_key ks) as Hwf by (apply Forall_fmap, Forall_true; done).
  clearbody ks. induction ks as [|k ks IH] using rev_ind; [done|].
  apply Forall_app in Hwf as [Hks [Hk _]%Forall_cons].
  rewrite foldl_app, distinct_snoc. cbn [foldl]. rewrite find_add, IH by done.
  unfold has_fingerprint at 1. destruct (Z.eqb_spec (fingerprint_ k) fp) as [<-|Hne].
  - unfold add_distinct. rewrite existsb_filter by (auto using distinct_wf).
    destruct (existsb _ _); [done|]. rewrite List.filter_app. simpl.
    replace (has_fingerprint (fingerprint_ k) k) with true
      by (unfold has_fingerprint; by rewrite Z.eqb_refl). done.
  - unfold add_distinct. destruct (existsb _ _); [done|]. rewrite List.filter_app. simpl.
    replace (has_fingerprint fp k) with false
      by (unfold has_fingerprint; by rewrite (proj2 (Z.eqb_neq _ _))). by rewrite app_nil_r.
Qed.
End keystore.

(** ** A concrete instance of the interface *)

#[export] Program Instance toy_aead : Aead := {
  chacha_20_zero key := resize 8 0 key;
  aead_seal key nonce bs := bs ++ replicate 16 (zlen key mod 256);
  aead_open key nonce bs :=
    if bool_decide (16 ≤ length bs)%nat &&
       bool_decide (drop (length bs - 16) bs = replicate 16 (zlen key mod 256))
    then Some (take (length bs - 16) bs) else None;
  aead_open_scratch key nonce bs := replicate (length bs) 0;
}.
Next Obligation. intros key. by rewrite length_resize. Qed.
Next Obligation. intros key nonce bs. cbv beta. by rewrite length_app, length_replicate. Qed.
Next Obligation.
  intros key nonce bs. cbv beta. rewrite length_app, length_replicate, Nat.add_sub.
  rewrite !bool_decide_eq_true_2 by (lia || by rewrite drop_app_length).
  by rewrite take_app_length.
Qed.
Next Obligation.
  intros key nonce bs pt. cbv beta. do 2 (case_bool_decide; [|done]). intros [= <-]. rewrite length_take. lia.
Qed.
Next Obligation. intros. cbv beta. by rewrite length_replicate. Qed.

Lemma key_roundtrip_witness :
  decrypt (make_key [1; 2]) (encrypt (make_key [1; 2]) [5; 6; 7] []).2 [] = (3, [5; 6; 7]).
Proof. apply (key_roundtrip [1; 2] [5; 6; 7] []). reflexivity. Defined.

(** Two keys that share a fingerprint, one of them added twice, and a third key *)
Lemma keystore_find_witness :
  array_ <$> find 0 (foldl (λ s k, add k s) empty_keystore
    (make_key <$> [[0]; [0; 0]; [1]; [0]])) = [[0]; [0; 0]].
Proof.
  pose proof (keystore_find [[0]; [0; 0]; [1]; [0]] 0) as H. cbv zeta in H.
  rewrite H. vm_compute. reflexivity.
Defined.
