(* ===== verification/IntervalSet.v ===== *)
(** * boost::icl::interval_set<size_t>

    Boost is not part of the repository: [IntervalSet] is the interface of the
    sets that net/rpc adds right-open intervals to and asks for containment,
    with the set semantics of its documentation.  [interval_list] keeps the
    intervals that were added. *)

From S2P Require Import Prelude.

Class IntervalSet (I : Type) : Type := {
  empty_intervals : I;
  (** set += interval::right_open(lo, hi) *)
  add_interval : Z → Z → I → I;
  (** contains(set, interval::right_open(lo, hi)) *)
  contains : I → Z → Z → bool;
  covers : I → Z → Prop;
  covers_empty x : ¬ covers empty_intervals x;
  covers_add lo hi s x : covers (add_interval lo hi s) x ↔ lo ≤ x < hi ∨ covers s x;
  contains_spec s lo hi : contains s lo hi = true ↔ ∀ x, lo ≤ x < hi → covers s x;
}.

Definition in_interval (x : Z) (i : Z * Z) : bool := (i.1 <=? x) && (x <? i.2).

Definition covered (s : list (Z * Z)) (x : Z) : bool := existsb (in_interval x) s.

(** If [lo] and the right ends of the intervals in the range are covered, then all of
    it is: the first point that is not covered would be one of them. *)
Definition list_contains (s : list (Z * Z)) (lo hi : Z) : bool :=
  (hi <=? lo) ||
  forallb (λ p, implb ((lo <=? p) && (p <? hi)) (covered s p)) (lo :: s.*2).

Lemma covered_spec s x : covered s x = true ↔ ∃ i, i ∈ s ∧ i.1 ≤ x < i.2.
Proof.
  unfold covered, in_interval. rewrite existsb_exists. setoid_rewrite <- list_elem_of_In.
  setoid_rewrite andb_true_iff. setoid_rewrite Z.leb_le. setoid_rewrite Z.ltb_lt. done.
Qed.

Lemma list_contains_points s lo hi :
  lo < hi → list_contains s lo hi = true ↔
  ∀ p, p = lo ∨ p ∈ s.*2 → lo ≤ p < hi → covered s p = true.
Proof.
  intros. unfold list_contains. rewrite (proj2 (Z.leb_gt _ _)) by lia.
  cbn [orb]. rewrite forallb_forall. setoid_rewrite <- list_elem_of_In.
  setoid_rewrite elem_of_cons. split; intros HH p Hp; specialize (HH p Hp).
  - intros [??]. by rewrite (proj2 (Z.leb_le _ _)), (proj2 (Z.ltb_lt _ _)) in HH by lia.
  - destruct (Z.leb_spec lo p), (Z.ltb_spec p hi); simpl; try done. by apply HH.
Qed.

Lemma list_contains_spec s lo hi :
  list_contains s lo hi = true ↔ ∀ x, lo ≤ x < hi → covered s x = true.
Proof.
  destruct (Z.le_gt_cases hi lo) as [Hle|Hlt].
  { unfold list_contains. rewrite (proj2 (Z.leb_le _ _)) by done. simpl. split; [lia|done]. }
  rewrite list_contains_points by done. split; [|eauto]. intros Hp x Hx.
  assert (0 ≤ x - lo) as Hd by lia. remember (x - lo) as d eqn:Ed. revert x Hx Ed.
  apply (natlike_ind (λ d, ∀ x, lo ≤ x < hi → d = x - lo → covered s x = true)); [| |done].
  - intros x Hx Ed. apply Hp; [|done]. left. lia.
  - intros d' Hd' IH x Hx Ed.
    pose proof (IH (x - 1) ltac:(lia) ltac:(lia)) as Hprev.
    apply covered_spec in Hprev as (i & Hi & Hb). destruct (decide (x < i.2)).
    + apply covered_spec. exists i. split; [done|lia].
    + apply Hp; [|done]. right. apply list_elem_of_fmap. exists i. split; [lia|done].
Qed.

#[export] Program Instance interval_list : IntervalSet (list (Z * Z)) := {
  empty_intervals := [];
  add_interval lo hi s := (lo, hi) :: s;
  contains := list_contains;
  covers s x := covered s x = true;
}.
Next Obligation. done. Qed.
Next Obligation.
  intros lo hi s x. unfold covered. simpl. rewrite orb_true_iff. unfold in_interval at 1. simpl.
  by rewrite andb_true_iff, Z.leb_le, Z.ltb_lt.
Qed.
Next Obligation. intros. apply list_contains_spec. Qed.
