(* ===== verification/RpcWire.v ===== *)
(** * net/rpc: packets

    The wire structs, the nonces, the loop that cuts a message into encrypted
    fragments (the client's request and the server's response), and the part of
    unpack that both sides share: growing the buffer and decrypting a fragment
    into it. *)

From S2P Require Import Prelude Keystore IntervalSet.

(** wire::request::Header and wire::response::Header *)
Record Header : Type := {
  key_fingerprint : Z;
  request_id : Z;
  header_offset : Z;
  unused : Z;
  flags : Z;
}.

Definition sizeof_Header : Z := 24.

(** wire::request::flags::partial, wire::response::flags::partial *)
Definition partial : Z := 1.

(** The object representation of a packed header *)
Definition encode_header (h : Header) : list Z :=
  le_encode 8 (key_fingerprint h) ++ le_encode 8 (request_id h) ++
  le_encode 2 (header_offset h) ++ le_encode 2 (unused h) ++ le_encode 4 (flags h).

(** The reinterpret_cast of a received packet *)
Definition decode_header (packet : list Z) : Header :=
  {| key_fingerprint := le_decode (slice 0 8 packet);
     request_id := le_decode (slice 8 8 packet);
     header_offset := le_decode (slice 16 2 packet);
     unused := le_decode (slice 18 2 packet);
     flags := le_decode (slice 20 4 packet) |}.

(** NonceArray: the request id, the offset, and 1 in the last byte of a response *)
Definition make_nonce (id offset direction : Z) : list Z :=
  le_encode 8 id ++ le_encode 2 offset ++ [0; direction].

Definition to_server : Z := 0.
Definition to_client : Z := 1.

Section fragments.
Context `{!Aead}.

(** The body of the do loop: one packet *)
Definition make_packet (fp : Z) (key : Key) (id direction offset size total : Z)
    (payload : list Z) :
    list Z :=
  let header := {|
    key_fingerprint := fp;
    request_id := id;
    header_offset := u16 offset;
    unused := 0;
    flags := if offset + size <? total then partial else 0 |} in
  let nonce := make_nonce id (u16 offset) direction in
  let '(encrypt_result, out) := encrypt key payload nonce in
  encode_header header ++ take (Z.to_nat encrypt_result) out.

(** The do loops of Client::Operation::Operation and Server::Operation::pack.  A
    fragment size of 0 makes no progress. *)
Fixpoint pack_loop (fuel : nat) (fp : Z) (key : Key) (id direction fragment_size : Z)
    (message : list Z) (offset : Z) : result (list (list Z)) :=
  match fuel with
  | O => Hang
  | S fuel =>
      let size := Z.min (zlen message - offset) fragment_size in
      payload ← span_read offset size message;
      let packet := make_packet fp key id direction offset size (zlen message) payload in
      let offset := offset + size in
      if offset <? zlen message then
        rest ← pack_loop fuel fp key id direction fragment_size message offset;
        Ok (packet :: rest)
      else Ok [packet]
  end.

Definition pack_fragments (fp : Z) (key : Key) (id direction fragment_size : Z)
    (message : list Z) :
    result (list (list Z)) :=
  pack_loop (S (length message)) fp key id direction fragment_size message 0.

(** The growth of the buffer in unpack *)
Definition grow (size : Z) (buffer : list Z) : list Z :=
  if zlen buffer <? size then resize (Z.to_nat size) 0 buffer else buffer.

(** The payload of a received packet *)
Definition body (packet : list Z) : list Z := drop 24 packet.

(** decrypt(body, nonce, &buffer[offset]): the size and the new buffer *)
Definition decrypt_into (key : Key) (input nonce : list Z) (offset : Z) (buffer : list Z) :
    result (Z * list Z) :=
  let '(decrypt_result, out) := decrypt key input nonce in
  buffer ← span_write offset out buffer;
  Ok (decrypt_result, buffer).
End fragments.

(** ** Headers *)

Definition wf_header (h : Header) : Prop :=
  in_u 64 (key_fingerprint h) ∧ in_u 64 (request_id h) ∧ in_u 16 (header_offset h) ∧
  in_u 16 (unused h) ∧ in_u 32 (flags h).

Lemma encode_header_length h : zlen (encode_header h) = 24.
Proof. unfold encode_header. rewrite !zlen_app. unfold zlen. by rewrite !le_encode_length. Qed.

Lemma le_field n z a b off len :
  off = zlen a → len = Z.of_nat n → 0 ≤ z < 256 ^ Z.of_nat n →
  le_decode (slice off len (a ++ le_encode n z ++ b)) = z.
Proof.
  intros -> -> Hz. rewrite slice_mid; [|done|unfold zlen; by rewrite le_encode_length].
  rewrite le_decode_encode. by apply Z.mod_small.
Qed.

Lemma decode_encode_header h payload :
  wf_header h → decode_header (encode_header h ++ payload) = h.
Proof.
  destruct h as [fp id off un fl]. intros (H1 & H2 & H3 & H4 & H5).
  unfold decode_header, encode_header. cbn [key_fingerprint request_id header_offset unused flags].
  rewrite <- !(assoc_L (++)). f_equal.
  - by apply (le_field 8 _ []).
  - by apply (le_field 8).
  - rewrite (assoc_L (++)). by apply (le_field 2).
  - rewrite (assoc_L (++)), (assoc_L (++) (_ ++ _)). by apply (le_field 2).
  - rewrite (assoc_L (++)), (assoc_L (++) (_ ++ _)), (assoc_L (++) (_ ++ _)). by apply (le_field 4).
Qed.

(** ** The packets of a message *)

Section message.
Context `{!Aead}.
Context (fp : Z) (key : Key) (id direction : Z) (message : list Z).

Definition valid_ids : Prop := in_u 64 fp ∧ in_u 64 id.

(** A part of the message that a packet can carry. *)
Definition valid_chunk (off len : Z) : Prop :=
  0 ≤ off < 2 ^ 16 ∧ 0 ≤ len ∧ off + len ≤ zlen message.

Definition chunk_packet (off len : Z) : list Z :=
  make_packet fp key id direction off len (zlen message) (slice off len message).

Definition chunk_header (off len : Z) : Header :=
  {| key_fingerprint := fp; request_id := id; header_offset := off; unused := 0;
     flags := if off + len <? zlen message then partial else 0 |}.

Lemma chunk_packet_eq off len :
  valid_chunk off len →
  chunk_packet off len =
  encode_header (chunk_header off len) ++
  aead_seal (array_ key) (make_nonce id off direction) (slice off len message).
Proof.
  intros (Ho & _). unfold chunk_packet, make_packet, encrypt. rewrite uwrap_id by done.
  unfold zlen. by rewrite Nat2Z.id, firstn_all.
Qed.

Lemma chunk_header_wf off len : valid_ids → valid_chunk off len → wf_header (chunk_header off len).
Proof.
  intros [??] (? & _). unfold wf_header, chunk_header. simpl.
  split_and!; try done; destruct (_ <? _); done.
Qed.

Lemma decode_chunk off len :
  valid_ids → valid_chunk off len → decode_header (chunk_packet off len) = chunk_header off len.
Proof.
  intros. rewrite chunk_packet_eq by done. by apply decode_encode_header, chunk_header_wf.
Qed.

Lemma body_chunk off len :
  valid_chunk off len →
  body (chunk_packet off len) =
  aead_seal (array_ key) (make_nonce id off direction) (slice off len message).
Proof.
  intros. rewrite chunk_packet_eq by done. unfold body.
  pose proof (encode_header_length (chunk_header off len)) as Hl. unfold zlen in Hl.
  rewrite drop_app_ge by lia. by replace (24 - _)%nat with 0%nat by lia.
Qed.

Lemma body_chunk_length off len :
  valid_chunk off len → zlen (body (chunk_packet off len)) = len + 16.
Proof.
  intros Hc. rewrite body_chunk by done. destruct Hc as (? & ? & ?).
  pose proof (zlen_slice off len message) as Hl. unfold zlen in *. rewrite aead_seal_length. lia.
Qed.

Lemma chunk_packet_length off len :
  valid_chunk off len → zlen (chunk_packet off len) = 24 + len + 16.
Proof.
  intros Hc. rewrite chunk_packet_eq by done.
  rewrite zlen_app, encode_header_length, <- body_chunk, body_chunk_length by done. lia.
Qed.

(** Two chunks with the same packet are the same chunk. *)
Lemma chunk_packet_inj off len off' len' :
  valid_ids → valid_chunk off len → valid_chunk off' len' →
  chunk_packet off len = chunk_packet off' len' → off = off' ∧ len = len'.
Proof.
  intros Hids Hc Hc' Heq. split.
  - pose proof (f_equal decode_header Heq) as Hh. rewrite !decode_chunk in Hh by done.
    by injection Hh.
  - pose proof (f_equal zlen Heq) as Hl. rewrite !chunk_packet_length in Hl by done. lia.
Qed.

Lemma decrypt_into_chunk off len buffer :
  valid_chunk off len → off + len ≤ zlen buffer →
  decrypt_into key (body (chunk_packet off len)) (make_nonce id off direction) off buffer =
  Ok (len, splice off (slice off len message) buffer).
Proof.
  intros Hc Hb. rewrite body_chunk by done. unfold decrypt_into, decrypt. rewrite aead_open_seal.
  destruct Hc as ((? & ?) & ? & ?). pose proof (zlen_slice off len message).
  rewrite span_write_ok by lia. cbn [mbind result_bind]. do 2 f_equal. lia.
Qed.

(** The packets are parts of the message, cover it, and one of them ends it. *)
Definition packets_ok (from : Z) (ps : list (list Z)) : Prop :=
  Forall (λ p, ∃ off len, valid_chunk off len ∧ p = chunk_packet off len) ps ∧
  (∀ x, from ≤ x < zlen message → ∃ off len, valid_chunk off len ∧ off ≤ x < off + len ∧
     chunk_packet off len ∈ ps) ∧
  (∃ off len, valid_chunk off len ∧ off + len = zlen message ∧ chunk_packet off len ∈ ps).

Lemma pack_loop_ok fuel fragment_size offset :
  0 < fragment_size → zlen message ≤ 2 ^ 16 → 0 ≤ offset < zlen message ∨ offset = 0 →
  (length message < fuel + Z.to_nat offset)%nat →
  ∃ ps, pack_loop fuel fp key id direction fragment_size message offset = Ok ps ∧ packets_ok offset ps.
Proof.
  intros Hf Hl. revert offset. induction fuel as [|fuel IH]; intros offset Ho Hfuel.
  { unfold zlen in *. lia. }
  cbn [pack_loop]. set (size := Z.min (zlen message - offset) fragment_size).
  pose proof (zlen_nonneg message).
  assert (valid_chunk offset size) as Hc by (unfold valid_chunk; lia).
  assert (span_read offset size message = Ok (slice offset size message)) as ->
    by (unfold span_read; rewrite !(proj2 (Z.leb_le _ _)) by lia; done).
  cbn [mbind result_bind]. change (make_packet _ _ _ _ _ _ _ _) with (chunk_packet offset size).
  destruct (Z.ltb_spec (offset + size) (zlen message)) as [Hlt|Hge].
  - destruct (IH (offset + size)) as (ps & -> & Hall & Hcov & Hend); [lia|lia|].
    exists (chunk_packet offset size :: ps). split; [done|]. split_and!.
    + constructor; [eauto|done].
    + intros x Hx. destruct (Z.lt_ge_cases x (offset + size)).
      * exists offset, size. split_and!; [done|lia|lia|by left].
      * destruct (Hcov x) as (o & n & ? & ? & ?); [lia|]. exists o, n.
        split_and!; try done; try lia. by right.
    + destruct Hend as (o & n & ? & ? & ?). exists o, n. split_and!; try done. by right.
  - exists [chunk_packet offset size]. split; [done|]. split_and!.
    + constructor; [eauto|done].
    + intros x Hx. exists offset, size. split_and!; [done|lia|lia|by left].
    + exists offset, size. split_and!; [done|lia|by left].
Qed.

(** A message of any length is cut into packets. *)
Lemma pack_loop_total fuel fragment_size offset :
  0 < fragment_size → 0 ≤ offset < zlen message ∨ offset = 0 →
  (length message < fuel + Z.to_nat offset)%nat →
  ∃ ps, pack_loop fuel fp key id direction fragment_size message offset = Ok ps.
Proof.
  intros Hf. revert offset. induction fuel as [|fuel IH]; intros offset Ho Hfuel.
  { unfold zlen in *. lia. }
  cbn [pack_loop]. set (size := Z.min (zlen message - offset) fragment_size).
  pose proof (zlen_nonneg message). unfold span_read.
  rewrite !(proj2 (Z.leb_le _ _)) by lia. cbn [andb mbind result_bind].
  destruct (Z.ltb_spec (offset + size) (zlen message)) as [Hlt|Hge]; [|by eexists].
  destruct (IH (offset + size)) as [ps ->]; [lia|lia|by eexists].
Qed.

Lemma pack_fragments_total fragment_size :
  0 < fragment_size →
  ∃ ps, pack_fragments fp key id direction fragment_size message = Ok ps.
Proof. intros. apply pack_loop_total; [done|by right|lia]. Qed.

Lemma pack_fragments_ok fragment_size :
  0 < fragment_size → zlen message ≤ 2 ^ 16 →
  ∃ ps, pack_fragments fp key id direction fragment_size message = Ok ps ∧ packets_ok 0 ps.
Proof. intros. apply pack_loop_ok; [done|done|by right|lia]. Qed.

(** ** Reassembly *)

Context {I : Type} `{!IntervalSet I}.

(** The buffer agrees with the message where fragments were stored, and the size
    is that of the message if it is known. *)
Definition agrees (buffer : list Z) (intervals : I) (size : Z) : Prop :=
  (∀ x, covers intervals x → 0 ≤ x < zlen message ∧ buffer !! Z.to_nat x = message !! Z.to_nat x) ∧
  (size = size_max ∨ size = zlen message).

Lemma agrees_empty buffer : agrees buffer empty_intervals size_max.
Proof. split; [|by left]. intros x Hx. by apply covers_empty in Hx. Qed.

Lemma grow_lookup size (buffer : list Z) (x : nat) :
  (x < length buffer)%nat → grow size buffer !! x = buffer !! x.
Proof.
  intros Hx. unfold grow. destruct (Z.ltb_spec (zlen buffer) size); [|done].
  apply lookup_resize; [unfold zlen in *; lia|done].
Qed.

Lemma grow_length size buffer : zlen buffer ≤ zlen (grow size buffer) ∧ size ≤ zlen (grow size buffer).
Proof. unfold grow. destruct (Z.ltb_spec (zlen buffer) size); rewrite ?zlen_resize; lia. Qed.

Lemma slice_lookup off len (l : list Z) (x : nat) :
  0 ≤ off → off ≤ Z.of_nat x < off + len → slice off len l !! (x - Z.to_nat off)%nat = l !! x.
Proof. intros. unfold slice. rewrite lookup_take_lt, lookup_drop by lia. f_equal. lia. Qed.

Lemma agrees_grow n buffer intervals size :
  agrees buffer intervals size → agrees (grow n buffer) intervals size.
Proof.
  intros [Hcov Hsize]. split; [|done]. intros x Hx. destruct (Hcov x Hx) as [Hr Hb].
  split; [done|]. rewrite grow_lookup; [done|]. apply (lookup_lt_is_Some_1 buffer). rewrite Hb.
  apply lookup_lt_is_Some_2. unfold zlen in *. lia.
Qed.

(** Storing a fragment keeps the agreement. *)
Lemma agrees_store buffer intervals size off len :
  agrees buffer intervals size → valid_chunk off len → off + len ≤ zlen buffer →
  agrees (splice off (slice off len message) buffer)
    (add_interval off (off + len) intervals)
    (if off + len <? zlen message then size else off + len).
Proof.
  intros [Hcov Hsize] ((? & ?) & ? & Hle) Hb. pose proof (zlen_slice off len message). split.
  - intros x Hx. apply covers_add in Hx. split; [destruct Hx; [lia|by apply Hcov]|].
    assert (0 ≤ x) by (destruct Hx as [|Hx]; [lia|apply Hcov in Hx; lia]).
    rewrite splice_lookup by lia. case_decide as Hin.
    + apply slice_lookup; lia.
    + destruct Hx as [|Hx]; [lia|]. by apply Hcov.
  - destruct (Z.ltb_spec (off + len) (zlen message)); [done|]. right. lia.
Qed.

(** A complete buffer holds the message. *)
Lemma agrees_complete buffer intervals size :
  agrees buffer intervals size → zlen message < size_max → contains intervals 0 size = true →
  size = zlen message ∧ (length message ≤ length buffer)%nat ∧ take (length message) buffer = message.
Proof.
  intros [Hcov Hsize] Hl Hc. rewrite contains_spec in Hc. pose proof (zlen_nonneg message).
  assert (size = zlen message) as ->.
  { destruct Hsize as [->|]; [|done]. destruct (Hcov (zlen message)); [apply Hc|]; lia. }
  assert (∀ x : nat, (x < length message)%nat → buffer !! x = message !! x) as Hb.
  { intros x Hx. destruct (Hcov (Z.of_nat x)) as [_ Hxb]; [apply Hc; unfold zlen; lia|].
    by rewrite Nat2Z.id in Hxb. }
  assert (length message ≤ length buffer)%nat as Hlen.
  { destruct (decide (length message = 0)%nat) as [|Hne]; [lia|].
    assert (length message - 1 < length buffer)%nat; [|lia].
    apply lookup_lt_is_Some_1. rewrite Hb by lia. apply lookup_lt_is_Some_2. lia. }
  split_and!; [done|done|]. apply list_eq_same_length with (length message).
  - done.
  - rewrite length_take. lia.
  - intros x y z Hx. rewrite lookup_take_lt, Hb by done. congruence.
Qed.
(** The intervals cover the packets of [ds], and the size is known when the last one
    is among them. *)
Definition seen (ds : list (list Z)) (intervals : I) (size : Z) : Prop :=
  ∀ off len, valid_chunk off len → chunk_packet off len ∈ ds →
    (∀ x, off ≤ x < off + len → covers intervals x) ∧ (off + len = zlen message → size = zlen message).

Lemma seen_nothing intervals size : seen [] intervals size.
Proof. intros off len _ Hin. by apply not_elem_of_nil in Hin. Qed.

Lemma seen_add ds intervals size off len :
  valid_ids → valid_chunk off len → seen ds intervals size →
  seen (ds ++ [chunk_packet off len]) (add_interval off (off + len) intervals)
    (if off + len <? zlen message then size else off + len).
Proof.
  intros Hids Hc Hseen o n Hc' [Hin|Hin%list_elem_of_singleton]%elem_of_app.
  - destruct (Hseen o n Hc' Hin) as [Hcov Hend]. split.
    + intros x Hx. apply covers_add. auto.
    + intros He. pose proof Hc as (_ & _ & ?). destruct (Z.ltb_spec (off + len) (zlen message)); [auto|lia].
  - apply chunk_packet_inj in Hin as [-> ->]; [|done..]. split.
    + intros x Hx. apply covers_add. by left.
    + intros He. by rewrite (proj2 (Z.ltb_ge _ _)) by lia.
Qed.

(** All packets of a message cover it. *)
Lemma seen_all ds intervals size ps :
  seen ds intervals size → packets_ok 0 ps → ps ⊆ ds → contains intervals 0 size = true.
Proof.
  intros Hseen (_ & Hcov & (o & n & Hc & He & Hin)) Hsub.
  rewrite (proj2 (Hseen o n Hc (Hsub _ Hin)) He). apply contains_spec. intros x Hx.
  destruct (Hcov x Hx) as (off & len & Hc' & Hx' & Hin'). by apply (Hseen off len Hc' (Hsub _ Hin')).
Qed.
End message.

(** ** Arbitrary packets *)

Lemma header_offset_range packet :
  Forall is_byte packet → 0 ≤ header_offset (decode_header packet) < 2 ^ 16.
Proof.
  intros Hb. unfold decode_header. cbn [header_offset].
  pose proof (le_decode_bound (slice 16 2 packet)) as Hd.
  assert (zlen (slice 16 2 packet) ≤ 2) by (unfold zlen, slice; rewrite length_take; lia).
  assert (256 ^ zlen (slice 16 2 packet) ≤ 256 ^ 2) by (apply Z.pow_le_mono_r; lia).
  assert (Forall is_byte (slice 16 2 packet)) as Hs by (by apply Forall_take, Forall_drop).
  specialize (Hd Hs). lia.
Qed.

Section arbitrary.
Context `{!Aead}.

Lemma decrypt_into_total key input nonce off buffer :
  0 ≤ off → off + zlen input ≤ zlen buffer →
  ∃ n buffer', decrypt_into key input nonce off buffer = Ok (n, buffer') ∧
    zlen buffer' = zlen buffer ∧ (n = size_max ∨ 0 ≤ n ≤ zlen input).
Proof.
  intros Ho Hl. unfold decrypt_into, decrypt. destruct (aead_open _ _ _) as [pt|] eqn:E.
  - apply aead_open_length in E. rewrite span_write_ok by (unfold zlen in *; lia).
    eexists _, _. split; [done|]. rewrite splice_length by (unfold zlen in *; lia).
    split; [done|]. unfold zlen. lia.
  - pose proof (aead_open_scratch_length (array_ key) nonce input).
    rewrite span_write_ok by (unfold zlen in *; lia). eexists _, _. split; [done|].
    rewrite splice_length by (unfold zlen in *; lia). split; [done|]. by left.
Qed.
End arbitrary.
