(* ===== verification/RpcClient.v ===== *)
(** * net/rpc/client

    A [Client] owns its operations by their OperationKey.  The boost intrusive
    pointers that the handlers of pending sends and of the pending wait hold are
    the counts [sends_] and [waits_]; when both are 0 the destructor runs.  What
    the code asks of asio (packets to send, waits, cancellation) and the user's
    callbacks, known by a number, are the [action]s that a member function
    returns, in order; asio's completions come back as the calls on_send,
    on_timer and on_receive.  Operations may outlive the client: [alive_] tells
    whether it still exists, and a use of it after that is a [Crash]. *)

From S2P Require Import Prelude Random Fibonacci Keystore IntervalSet RpcWire.

Record Options : Type := {
  num_channels : Z;
  send_fragment_size : Z;
  receive_buffer_size : Z;
}.

Record RequestOptions : Type := {
  key : Key;
  timeout : Z;
  initial_retry : Z;
}.

Inductive action : Type :=
  | SendTo (channel endpoint : Z) (packet : list Z)
  | WaitFor (nanoseconds : Z)
  | CancelWait
  | Callback (id : Z) (ec : option errc) (response : list Z).

Record Operation (I : Type) : Type := {
  endpoint_ : Z;
  options_ : RequestOptions;
  callback_ : Z;
  request_id_ : Z;
  request_buffers_ : list (list Z);
  wait_sequence_ : FibonacciSequence;
  finished_ : bool;
  detached_ : bool;
  result_ec_ : option errc;
  response_ : list Z;
  response_intervals_ : I;
  response_size_ : Z;
  sends_ : nat;
  waits_ : nat;
}.
Arguments endpoint_ {I}.
Arguments options_ {I}.
Arguments callback_ {I}.
Arguments request_id_ {I}.
Arguments request_buffers_ {I}.
Arguments wait_sequence_ {I}.
Arguments finished_ {I}.
Arguments detached_ {I}.
Arguments result_ec_ {I}.
Arguments response_ {I}.
Arguments response_intervals_ {I}.
Arguments response_size_ {I}.
Arguments sends_ {I}.
Arguments waits_ {I}.

(** The reference count *)
Definition refs_ {I} (op : Operation I) : nat := (sends_ op + waits_ op)%nat.

Section operation.
Context {I : Type} `{!IntervalSet I, !Aead}.
Implicit Types op : Operation I.

Definition set_refs (sends waits : nat) op : Operation I :=
  {| endpoint_ := endpoint_ op; options_ := options_ op; callback_ := callback_ op;
     request_id_ := request_id_ op; request_buffers_ := request_buffers_ op;
     wait_sequence_ := wait_sequence_ op; finished_ := finished_ op; detached_ := detached_ op;
     result_ec_ := result_ec_ op; response_ := response_ op;
     response_intervals_ := response_intervals_ op; response_size_ := response_size_ op;
     sends_ := sends; waits_ := waits |}.

Definition set_schedule (timeout' : Z) (s : FibonacciSequence) (sends waits : nat) op : Operation I :=
  {| endpoint_ := endpoint_ op;
     options_ := {| key := key (options_ op); timeout := timeout'; initial_retry := initial_retry (options_ op) |};
     callback_ := callback_ op; request_id_ := request_id_ op;
     request_buffers_ := request_buffers_ op; wait_sequence_ := s; finished_ := finished_ op;
     detached_ := detached_ op; result_ec_ := result_ec_ op; response_ := response_ op;
     response_intervals_ := response_intervals_ op; response_size_ := response_size_ op;
     sends_ := sends; waits_ := waits |}.

Definition set_response (buffer : list Z) (intervals : I) (size : Z) op : Operation I :=
  {| endpoint_ := endpoint_ op; options_ := options_ op; callback_ := callback_ op;
     request_id_ := request_id_ op; request_buffers_ := request_buffers_ op;
     wait_sequence_ := wait_sequence_ op; finished_ := finished_ op; detached_ := detached_ op;
     result_ec_ := result_ec_ op; response_ := buffer; response_intervals_ := intervals;
     response_size_ := size; sends_ := sends_ op; waits_ := waits_ op |}.

Definition set_finished (ec : option errc) op : Operation I :=
  {| endpoint_ := endpoint_ op; options_ := options_ op; callback_ := callback_ op;
     request_id_ := request_id_ op; request_buffers_ := request_buffers_ op;
     wait_sequence_ := wait_sequence_ op; finished_ := true; detached_ := detached_ op;
     result_ec_ := ec; response_ := response_ op; response_intervals_ := response_intervals_ op;
     response_size_ := response_size_ op; sends_ := sends_ op; waits_ := waits_ op |}.

(** Client::Operation::detach *)
Definition detach op : Operation I :=
  {| endpoint_ := endpoint_ op; options_ := options_ op; callback_ := callback_ op;
     request_id_ := request_id_ op; request_buffers_ := request_buffers_ op;
     wait_sequence_ := wait_sequence_ op; finished_ := finished_ op; detached_ := true;
     result_ec_ := result_ec_ op; response_ := response_ op;
     response_intervals_ := response_intervals_ op; response_size_ := response_size_ op;
     sends_ := sends_ op; waits_ := waits_ op |}.

(** Client::Operation::Operation, when [id] is the request id that was free *)
Definition make_operation (o : Options) (endpoint : Z) (message : list Z) (ro : RequestOptions)
    (id cb : Z) : result (Operation I) :=
  buffers ← pack_fragments (fingerprint_ (key ro)) (key ro) id to_server
              (send_fragment_size o) message;
  Ok {| endpoint_ := endpoint; options_ := ro; callback_ := cb; request_id_ := id;
        request_buffers_ := buffers; wait_sequence_ := reset; finished_ := false;
        detached_ := false; result_ec_ := Some bad_address; response_ := [];
        response_intervals_ := empty_intervals; response_size_ := size_max; sends_ := 0;
        waits_ := 0 |}.

(** Client::Operation::~Operation: what the callback is given *)
Definition destroy op : result action :=
  match result_ec_ op with
  | Some ec => Ok (Callback (callback_ op) (Some ec) [])
  | None =>
      response ← vector_resize (response_size_ op) (response_ op);
      Ok (Callback (callback_ op) None response)
  end.

(** Client::Operation::abort *)
Definition abort (ec : errc) op : Operation I * list action :=
  if finished_ op then (op, [])
  else (set_finished (Some ec) op, [CancelWait]).

(** Client::Operation::unpack *)
Definition unpack (fragment : list Z) op : result (Operation I * list action) :=
  if finished_ op then Ok (op, [])
  else
    let header := decode_header fragment in
    let offset := header_offset header in
    let response_body_size := zlen fragment - sizeof_Header in
    let response := grow (offset + response_body_size) (response_ op) in
    let nonce := make_nonce (request_id header) offset to_client in
    '(decrypt_result, response) ←
      decrypt_into (key (options_ op)) (body fragment) nonce offset response;
    if decrypt_result =? size_max
    then Ok (set_response response (response_intervals_ op) (response_size_ op) op, [])
    else
      let intervals := add_interval offset (offset + decrypt_result) (response_intervals_ op) in
      let size :=
        if Z.land (flags header) partial =? 0 then offset + decrypt_result else response_size_ op in
      let op := set_response response intervals size op in
      if contains intervals 0 size then Ok (set_finished None op, [CancelWait]) else Ok (op, []).

(** Client::Operation::send on channel [channel]; each pending handler holds a
    reference. *)
Definition send_on (channel : Z) op : result (Operation I * list action) :=
  product ← check_s 64 (initial_retry (options_ op) * a_ (wait_sequence_ op));
  let wait_period := Z.min product (timeout (options_ op)) in
  s ← next int32 (wait_sequence_ op);
  remaining ← check_s 64 (timeout (options_ op) - wait_period);
  Ok (set_schedule remaining s (sends_ op + length (request_buffers_ op)) (S (waits_ op)) op,
      (SendTo channel (endpoint_ op) <$> request_buffers_ op) ++ [WaitFor wait_period]).
End operation.

(** Client::request: the message is the request, a zero byte and the method. *)
Definition encode_request (method request : list Z) : list Z :=
  (match request with [] => [] | _ => request ++ [0] end) ++ method.

Record Client (G I : Type) : Type := {
  client_options_ : Options;
  channels_iter_ : Z;
  gen_ : G;
  operations_ : gmap (Z * Z) (Operation I);
  alive_ : bool;
}.
Arguments client_options_ {G I}.
Arguments channels_iter_ {G I}.
Arguments gen_ {G I}.
Arguments operations_ {G I}.
Arguments alive_ {G I}.

Section client.
Context {G I : Type} `{!BitGen G, !IntervalSet I, !Aead}.
Implicit Types c : Client G I.

(** Client::Client *)
Definition make_client (o : Options) (g : G) : Client G I :=
  {| client_options_ := o; channels_iter_ := 0; gen_ := g; operations_ := ∅;
     alive_ := true |}.

Definition set_operations (m : gmap (Z * Z) (Operation I)) c : Client G I :=
  {| client_options_ := client_options_ c; channels_iter_ := channels_iter_ c; gen_ := gen_ c;
     operations_ := m; alive_ := alive_ c |}.

Definition set_channel (i : Z) c : Client G I :=
  {| client_options_ := client_options_ c; channels_iter_ := i; gen_ := gen_ c;
     operations_ := operations_ c; alive_ := alive_ c |}.

Definition set_gen (g : G) c : Client G I :=
  {| client_options_ := client_options_ c; channels_iter_ := channels_iter_ c; gen_ := g;
     operations_ := operations_ c; alive_ := alive_ c |}.

(** Client::~Client *)
Definition destroy_client c : Client G I :=
  {| client_options_ := client_options_ c; channels_iter_ := channels_iter_ c; gen_ := gen_ c;
     operations_ := detach <$> operations_ c; alive_ := false |}.

(** The do loop that draws a request id which is not in use *)
Fixpoint draw_id (fuel : nat) (fp : Z) : ST (Client G I) Z :=
  match fuel with
  | O => st_lift Hang
  | S fuel => λ c,
      let '(id, g) := uniform_uint64 (gen_ c) in
      match operations_ c !! (fp, id) with
      | None => (Ok id, set_gen g c)
      | Some _ => draw_id fuel fp (set_gen g c)
      end
  end.

(** Draws that all give ids in use are taken for a loop that does not end. *)
Definition draw_fuel : nat := 64.

(** Dropping the last reference destroys the operation: it erases itself from the
    client unless it is detached, and runs its callback. *)
Definition release (k : Z * Z) (op : Operation I) : ST (Client G I) (list action) :=
  match refs_ op with
  | O =>
      let* c := st_get in
      if detached_ op || alive_ c then
        let* _ := st_modify (λ c, set_operations (delete k (operations_ c)) c) in
        let* a := st_lift (destroy op) in
        st_ret [a]
      else crash
  | S _ =>
      let* _ := st_modify (λ c, set_operations (<[k := op]> (operations_ c)) c) in
      st_ret []
  end.

(** Client::Operation::send *)
Definition send (op : Operation I) : ST (Client G I) (Operation I * list action) :=
  if timeout (options_ op) <=? 0 then st_ret (abort timed_out op)
  else
    let* c := st_get in
    let n := num_channels (client_options_ c) in
    if alive_ c && (channels_iter_ c <? n) then
      let channel := channels_iter_ c in
      let* _ := st_modify (set_channel (if channel + 1 =? n then 0 else channel + 1)) in
      st_lift (send_on channel op)
    else crash.

(** Client::request *)
Definition request (endpoint : Z) (method req : list Z) (ro : RequestOptions) (cb : Z) :
    ST (Client G I) (list action) :=
  let message := encode_request method req in
  let fp := fingerprint_ (key ro) in
  let* id := draw_id draw_fuel fp in
  let* c := st_get in
  let* op := st_lift (make_operation (client_options_ c) endpoint message ro id cb) in
  let* _ := st_modify (λ c, set_operations (<[(fp, id) := op]> (operations_ c)) c) in
  let* (op, actions) := send op in
  let* more := release (fp, id) op in
  st_ret (actions ++ more).

(** Client::dispatch, for a packet that a channel received *)
Definition on_receive (packet : list Z) : ST (Client G I) (list action) :=
  let* c := st_get in
  if negb (alive_ c) then crash
  else if zlen packet <? sizeof_Header then st_ret []
  else
    let header := decode_header packet in
    let k := (key_fingerprint header, request_id header) in
    match operations_ c !! k with
    | None => st_ret []
    | Some op =>
        let* (op, actions) := st_lift (unpack packet op) in
        let* _ := st_modify (λ c, set_operations (<[k := op]> (operations_ c)) c) in
        st_ret actions
    end.

(** The completion of an async_send_to *)
Definition on_send (k : Z * Z) : ST (Client G I) (list action) :=
  let* c := st_get in
  match operations_ c !! k with
  | None => crash
  | Some op => release k (set_refs (sends_ op - 1) (waits_ op) op)
  end.

(** The completion of the wait *)
Definition on_timer (k : Z * Z) (ec : option errc) : ST (Client G I) (list action) :=
  let* c := st_get in
  match operations_ c !! k with
  | None => crash
  | Some op =>
      let* (op, actions) :=
        match ec with
        | Some operation_canceled => st_ret (op, [])
        | Some ec => st_ret (abort ec op)
        | None => send op
        end in
      let* more := release k (set_refs (sends_ op) (waits_ op - 1) op) in
      st_ret (actions ++ more)
  end.
End client.

(** ** Reassembling the response *)

Section reassembly.
Context {I : Type} `{!IntervalSet I, !Aead}.
Context (fp : Z) (k : Key) (id cb : Z) (message : list Z).
Hypothesis Hids : valid_ids fp id.
Hypothesis Hmessage : zlen message ≤ 2 ^ 16.
Implicit Types op : Operation I.

Abbreviation packet := (chunk_packet fp k id to_client message).

(** A caller of unpack for each packet received. *)
Fixpoint unpack_all (packets : list (list Z)) op : result (Operation I) :=
  match packets with
  | [] => Ok op
  | p :: packets =>
      '(op, _) ← unpack p op;
      unpack_all packets op
  end.

(** The invariant of an operation that was given the packets of [ds]. *)
Definition operation_inv (ds : list (list Z)) op : Prop :=
  key (options_ op) = k ∧ callback_ op = cb ∧
  if finished_ op then
    result_ec_ op = None ∧ response_size_ op = zlen message ∧
    (length message ≤ length (response_ op))%nat ∧
    take (length message) (response_ op) = message
  else
    contains (response_intervals_ op) 0 (response_size_ op) = false ∧
    agrees message (response_ op) (response_intervals_ op) (response_size_ op) ∧
    seen fp k id to_client message ds (response_intervals_ op) (response_size_ op).

Lemma unpack_chunk ds op off len :
  operation_inv ds op → valid_chunk message off len →
  ∃ op' acts, unpack (packet off len) op = Ok (op', acts) ∧
    operation_inv (ds ++ [packet off len]) op'.
Proof using Hids Hmessage.
  intros (Hkey & Hcb & Hinv) Hc. unfold unpack. destruct (finished_ op) eqn:Hfin.
  { exists op, []. split; [done|]. split; [done|]. split; [done|]. by rewrite Hfin. }
  destruct Hinv as (Hncont & Hag & Hseen). rewrite decode_chunk by done.
  cbn [chunk_header header_offset request_id flags]. rewrite Hkey.
  unfold sizeof_Header. rewrite chunk_packet_length by done.
  replace (off + (24 + len + 16 - 24)) with (off + (len + 16)) by lia.
  pose proof (grow_length (off + (len + 16)) (response_ op)).
  rewrite decrypt_into_chunk by (done || lia). cbn [mbind result_bind].
  pose proof Hc as ((? & ?) & ? & ?). unfold size_max at 1.
  rewrite (proj2 (Z.eqb_neq _ _)) by lia.
  pose proof (agrees_store message _ _ _ off len
    (agrees_grow message (off + (len + 16)) _ _ _ Hag) Hc ltac:(lia)) as Hag'.
  set (buf := splice _ _ _) in *. set (ivs := add_interval _ _ _) in *.
  assert ((if Z.land (if off + len <? zlen message then partial else 0) partial =? 0
           then off + len else response_size_ op) =
          (if off + len <? zlen message then response_size_ op else off + len)) as ->
    by (by destruct (_ <? _)).
  set (size := if _ <? _ then _ else _) in *.
  destruct (contains ivs 0 size) eqn:Hcont; eexists _, _; (split; [done|]); (split; [done|]);
    (split; [done|]); simpl.
  - split; [done|]. apply (agrees_complete message buf ivs); [done|unfold size_max; lia|done].
  - rewrite Hfin. split; [done|]. split; [done|]. by apply seen_add.
Qed.

Lemma unpack_all_chunks packets ds op :
  operation_inv ds op →
  Forall (λ p, ∃ off len, valid_chunk message off len ∧ p = packet off len) packets →
  ∃ op', unpack_all packets op = Ok op' ∧ operation_inv (ds ++ packets) op'.
Proof using Hids Hmessage.
  intros Hinv Hall. revert ds op Hinv.
  induction Hall as [|p packets (off & len & Hc & ->) _ IH]; intros ds op Hinv.
  { exists op. by rewrite app_nil_r. }
  destruct (unpack_chunk ds op off len Hinv Hc) as (op1 & acts & H1 & Hinv1).
  destruct (IH _ op1 Hinv1) as (op2 & H2 & Hinv2). exists op2. cbn [unpack_all].
  rewrite H1. cbn [mbind result_bind]. by rewrite <- (assoc_L (++)) in Hinv2.
Qed.

(** Everything arrived, so the operation is finished. *)
Lemma operation_inv_all ds op ps :
  operation_inv ds op → packets_ok fp k id to_client message 0 ps → ps ⊆ ds → finished_ op = true.
Proof using Hids.
  intros (_ & _ & Hinv) Hok Hsub.
  destruct (finished_ op); [done|]. destruct Hinv as (Hncont & _ & Hseen).
  by rewrite (seen_all _ _ _ _ _ _ _ _ _ Hseen Hok Hsub) in Hncont.
Qed.

Lemma operation_inv_result ds op :
  operation_inv ds op → finished_ op = true → destroy op = Ok (Callback cb None message).
Proof using Hmessage.
  intros (_ & <- & Hinv) Hfin. rewrite Hfin in Hinv. destruct Hinv as (Hec & Hsize & Hlen & Htake).
  unfold destroy. rewrite Hec, Hsize. pose proof (zlen_nonneg message). unfold vector_resize.
  rewrite (proj2 (Z.leb_le _ _)), (proj2 (Z.ltb_lt _ _)) by lia. simpl. do 2 f_equal.
  unfold zlen. rewrite Nat2Z.id, resize_le by done. done.
Qed.
End reassembly.

(** Any delivery of the packets of a response, as a lemma for the whole exchange. *)
Lemma client_reassembles_lemma {I} `{!IntervalSet I, !Aead} fp k id fragment_size message ps ds
    (op : Operation I) :
  valid_ids fp id → zlen message ≤ 2 ^ 16 → 0 < fragment_size →
  key (options_ op) = k → finished_ op = false → response_ op = [] →
  response_intervals_ op = empty_intervals → response_size_ op = size_max →
  pack_fragments fp k id to_client fragment_size message = Ok ps → ds ⊆ ps →
  ∃ op', unpack_all ds op = Ok op' ∧
    (finished_ op' = true → destroy op' = Ok (Callback (callback_ op) None message)) ∧
    (ps ⊆ ds → finished_ op' = true).
Proof.
  intros Hids Hm Hf Hk Hfin Hr Hi Hs Hpack Hsub.
  destruct (pack_fragments_ok fp k id to_client message fragment_size Hf Hm) as (ps' & Hp & Hok).
  rewrite Hpack in Hp. injection Hp as <-.
  assert (operation_inv fp k id (callback_ op) message [] op) as Hinv.
  { split; [done|]. split; [done|]. rewrite Hfin, Hr, Hi, Hs. split_and!.
    - apply not_true_is_false. rewrite contains_spec. intros Hc.
      apply (covers_empty 0), Hc. unfold size_max. lia.
    - apply agrees_empty.
    - intros ??? Hin. by apply not_elem_of_nil in Hin. }
  destruct (unpack_all_chunks fp k id _ message Hids Hm ds [] op Hinv) as (op' & Hrun & Hinv').
  { apply Forall_forall. intros p Hp. destruct Hok as [Hall _]. rewrite Forall_forall in Hall. auto. }
  exists op'. split; [done|]. split.
  - by eapply operation_inv_result.
  - by eapply operation_inv_all.
Qed.

(** C7: For any delivery (loss, repetition, reordering) of the packets of a response of up to
    64 KiB, a client operation runs without fault; if it finishes, its callback is given
    exactly the response; and it finishes when every packet is delivered. *)
Theorem client_reassembles {I} `{!IntervalSet I, !Aead} fp k id fragment_size message ps ds
    (op : Operation I) :
  valid_ids fp id → zlen message ≤ 2 ^ 16 → 0 < fragment_size →
  key (options_ op) = k → finished_ op = false → response_ op = [] →
  response_intervals_ op = empty_intervals → response_size_ op = size_max →
  pack_fragments fp k id to_client fragment_size message = Ok ps → ds ⊆ ps →
  ∃ op', unpack_all ds op = Ok op' ∧
    (finished_ op' = true → destroy op' = Ok (Callback (callback_ op) None message)) ∧
    (ps ⊆ ds → finished_ op' = true).
Proof. apply client_reassembles_lemma. Qed.

(** ** Retries *)

Section retries.
Context {G I : Type} `{!IntervalSet I, !Aead}.
Implicit Types (op : Operation I) (c : Client G I).

Definition is_wait (a : action) : bool := match a with WaitFor _ => true | _ => false end.

(** An operation that gets no response: send is called by the request and again whenever
    the wait that it asked for ends.  What it asked for each time, and the operation at the
    end *)
Fixpoint retries (fuel : nat) (op : Operation I) : ST (Client G I) (Operation I * list (list action)) :=
  match fuel with
  | O => st_lift Hang
  | S fuel =>
      let* (op, acts) := send op in
      if existsb is_wait acts then
        let* (op, more) := retries fuel op in
        st_ret (op, acts :: more)
      else st_ret (op, [acts])
  end.

(** Every request buffer is sent over the channels in turn, and then the wait begins. *)
Fixpoint attempts (channels channel endpoint : Z) (buffers : list (list Z)) (ws : list Z) :
    list (list action) :=
  match ws with
  | [] => []
  | w :: ws =>
      ((SendTo channel endpoint <$> buffers) ++ [WaitFor w]) ::
      attempts channels ((channel + 1) mod channels) endpoint buffers ws
  end.

Definition sum_waits (ws : list Z) : Z := foldr Z.add 0 ws.

(** The operation has waited i times; [t] is the timeout it started with. *)
Definition scheduled (r t : Z) (i : nat) op : Prop :=
  0 < r ∧ 0 < t ∧ r + t < 2 ^ 63 ∧ t ≤ r * (fib 45 - 1) ∧ initial_retry (options_ op) = r ∧
  wait_sequence_ op = {| a_ := fib i; b_ := fib (S i) |} ∧
  timeout (options_ op) = t - Z.min t (r * (fib (S i) - 1)) ∧ (i ≤ 44)%nat.

Lemma send_on_scheduled channel r t i op :
  scheduled r t i op → 0 < timeout (options_ op) →
  ∃ s w, let op' := set_schedule (timeout (options_ op) - w) s
           (sends_ op + length (request_buffers_ op)) (S (waits_ op)) op in
    w = Z.min (r * fib i) (timeout (options_ op)) ∧ 0 < w ∧
    send_on channel op =
      Ok (op', (SendTo channel (endpoint_ op) <$> request_buffers_ op) ++ [WaitFor w]) ∧
    scheduled r t (S i) op'.
Proof.
  intros (Hr & Ht & Hb & Hmax & Hret & Hseq & Hto & Hi) Hpos.
  pose proof (fib_pos i) as [Hp Hm]. pose proof (fib_step i) as Hstep.
  assert (i ≠ 44)%nat as Hi44 by (intros ->; change (S 44) with 45%nat in Hto; lia).
  assert (fib (S (S i)) ≤ 1836311903) as Hfib.
  { change 1836311903 with (fib 45). apply fib_mono. lia. }
  assert (0 < r * fib i ≤ r * fib (S i) ∧ r * (fib (S i) - 1) = r * fib (S i) - r) as [Hprod Hdist]
    by nia.
  set (w := Z.min (r * fib i) (timeout (options_ op))).
  exists {| a_ := fib (S i); b_ := fib (S (S i)) |}, w. split_and!; [done|lia| |].
  - unfold send_on. rewrite Hret, Hseq. cbn [a_].
    rewrite check_s_ok by (unfold in_s; lia). cbn [mbind result_bind].
    unfold next. cbn [signed int32 a_ b_ width]. rewrite <- Hstep.
    rewrite check_s_ok by (unfold in_s; lia). cbn [mbind result_bind]. fold w.
    by rewrite check_s_ok by (unfold in_s; lia).
  - unfold scheduled. cbn [set_schedule options_ timeout initial_retry wait_sequence_].
    split_and!; try done; [|lia]. unfold w. rewrite Hto, Hstep. lia.
Qed.

Lemma sum_waits_nonneg ws : (∀ j w, ws !! j = Some w → 0 < w) → 0 ≤ sum_waits ws.
Proof.
  induction ws as [|w ws IH]; intros Hpos; simpl; [done|].
  pose proof (Hpos 0%nat w eq_refl). specialize (IH (λ j, Hpos (S j))). lia.
Qed.

Definition usable c : Prop :=
  alive_ c = true ∧ 0 ≤ channels_iter_ c < num_channels (client_options_ c).

(** One call of send that has time left *)
Lemma send_round r t i op c :
  scheduled r t i op → usable c → 0 < timeout (options_ op) →
  ∃ s w, let n := num_channels (client_options_ c) in
    let op' := set_schedule (timeout (options_ op) - w) s
      (sends_ op + length (request_buffers_ op)) (S (waits_ op)) op in
    let c' := set_channel ((channels_iter_ c + 1) mod n) c in
    w = Z.min (r * fib i) (timeout (options_ op)) ∧ 0 < w ∧
    send op c = (Ok (op', (SendTo (channels_iter_ c) (endpoint_ op) <$> request_buffers_ op) ++ [WaitFor w]), c') ∧
    scheduled r t (S i) op' ∧ usable c'.
Proof.
  intros Hsch [Ha Hc] Hgt.
  destruct (send_on_scheduled (channels_iter_ c) r t i op Hsch Hgt) as (s & w & Hw & Hw0 & Hsend & Hsch').
  exists s, w. split_and!; try done; simpl.
  - unfold send. rewrite (proj2 (Z.leb_gt _ _)) by done. unfold st_bind, st_get, st_modify, st_lift.
    rewrite Ha, (proj2 (Z.ltb_lt _ _)) by lia. cbn [andb]. rewrite Hsend. f_equal. f_equal.
    destruct (Z.eqb_spec (channels_iter_ c + 1) (num_channels (client_options_ c))) as [->|?].
    + by rewrite Z.mod_same by lia.
    + by rewrite Z.mod_small by lia.
  - split; [done|]. simpl. apply Z.mod_pos_bound. lia.
Qed.

Lemma retries_from r t fuel i op c :
  scheduled r t i op → usable c → finished_ op = false → (44 < i + fuel)%nat →
  ∃ ws op' c', retries fuel op c =
      (Ok (op', attempts (num_channels (client_options_ c)) (channels_iter_ c) (endpoint_ op)
                  (request_buffers_ op) ws ++ [[CancelWait]]), c') ∧
    finished_ op' = true ∧ result_ec_ op' = Some timed_out ∧
    sum_waits ws = timeout (options_ op) ∧
    ∀ j w, ws !! j = Some w → 0 < w ≤ r * fib (i + j) ∧
      ((S j < length ws)%nat → w = r * fib (i + j)).
Proof.
  revert i op c. induction fuel as [|fuel IH]; intros i op c Hsch Hc Hfin Hf.
  { destruct Hsch as (_ & _ & _ & _ & _ & _ & _ & ?). lia. }
  cbn [retries]. destruct (Z.le_gt_cases (timeout (options_ op)) 0) as [Hle|Hgt].
  { exists [], (set_finished (Some timed_out) op), c. unfold send, abort. rewrite (proj2 (Z.leb_le _ _)), Hfin by done.
    split_and!; try done. destruct Hsch as (_ & _ & _ & _ & _ & _ & ? & _). simpl. lia. }
  destruct (send_round r t i op c Hsch Hc Hgt) as (s & w & Hw & Hw0 & Hsend & Hsch' & Hc').
  destruct (IH _ _ _ Hsch' Hc' Hfin ltac:(lia)) as (ws & op' & c' & Hrec & Hfin' & Hec & Hsum & Hall).
  exists (w :: ws), op', c'. split_and!; [| done | done | simpl in *; lia |].
  { rewrite (st_bind_ok _ _ _ _ _ Hsend), existsb_app. cbn [existsb is_wait orb]. rewrite orb_true_r.
    by rewrite (st_bind_ok _ _ _ _ _ Hrec). }
  simpl in Hsum. intros [|j] x Hx; simpl in Hx.
  - injection Hx as <-. rewrite Nat.add_0_r. split; [lia|]. intros Hl. simpl in Hl.
    destruct ws as [|x ws]; [simpl in Hl; lia|].
    destruct (Hall 0%nat x eq_refl) as [[Hx0 _] _].
    assert (0 ≤ sum_waits ws) by (apply sum_waits_nonneg; intros j y Hy; by apply (Hall (S j))).
    simpl in Hsum. lia.
  - destruct (Hall j x Hx) as [H1 H2]. rewrite <- Nat.add_succ_comm. split; [done|].
    intros Hl. apply H2. simpl in Hl. lia.
Qed.

(** C22: For a positive timeout and initial_retry, with the client alive and when no response
    arrives, the calls of Client::Operation::send, the first and those at the end of every
    wait, each send every packet of the request over the next channel and ask the timer for a
    wait; the waits are initial_retry times the Fibonacci numbers, the last one cut so that
    they add up to exactly the timeout, and the call after them sends nothing, cancels the
    wait and aborts the operation with timed_out. No signed overflow occurs, for timeouts up
    to initial_retry * (fib 45 - 1) whose sum with initial_retry is below 2^63 nanoseconds. *)
Theorem client_retry_schedule op c :
  let r := initial_retry (options_ op) in
  let t := timeout (options_ op) in
  0 < r → 0 < t → r + t < 2 ^ 63 → t ≤ r * (fib 45 - 1) → wait_sequence_ op = reset →
  finished_ op = false → usable c →
  ∃ ws op' c', retries 46 op c =
      (Ok (op', attempts (num_channels (client_options_ c)) (channels_iter_ c) (endpoint_ op)
                  (request_buffers_ op) ws ++ [[CancelWait]]), c') ∧
    finished_ op' = true ∧ result_ec_ op' = Some timed_out ∧ sum_waits ws = t ∧
    ∀ j w, ws !! j = Some w → 0 < w ≤ r * fib j ∧ ((S j < length ws)%nat → w = r * fib j).
Proof.
  intros r t Hr Ht Hb Hmax Hseq Hfin Hc.
  apply (retries_from r t 46 0 op c); [|done|done|lia]. unfold scheduled. rewrite Hseq.
  split_and!; try done; [|lia]. change (fib 1) with 1. lia.
Qed.
End retries.
