(* ===== verification/RpcServer.v ===== *)
(** * net/rpc/server

    As in RpcClient, [refs_] counts the references that pending handlers hold,
    and what the code asks of asio and of the registered handlers are the
    [action]s that a function returns.  A handler other than ping answers later,
    through on_response.  Operations may outlive the server, as in RpcClient. *)

From S2P Require Import Prelude Random Keystore IntervalSet RpcWire RpcClient.

Record Options : Type := {
  send_fragment_size : Z;
  receive_buffer_size : Z;
}.

Inductive Handler : Type :=
  | PingHandler
  | ListHandler
  | UserHandler (n : Z).

Inductive action : Type :=
  | SendTo (endpoint : Z) (packet : list Z)
  | KeepAlive
  | Invoke (handler : Handler) (request : list Z) (key : Key).

Record Operation (I : Type) : Type := {
  client_endpoint_ : Z;
  key_fingerprint_ : Z;
  request_id_ : Z;
  key_ : option Key;
  request_ : list Z;
  request_intervals_ : I;
  request_size_ : Z;
  response_buffers_ : list (list Z);
  detached_ : bool;
  refs_ : nat;
}.
Arguments client_endpoint_ {I}.
Arguments key_fingerprint_ {I}.
Arguments request_id_ {I}.
Arguments key_ {I}.
Arguments request_ {I}.
Arguments request_intervals_ {I}.
Arguments request_size_ {I}.
Arguments response_buffers_ {I}.
Arguments detached_ {I}.
Arguments refs_ {I}.

Record Server (I : Type) : Type := {
  options_ : Options;
  handlers_ : gmap (list Z) Handler;
  keystore_ : Keystore;
  operations_ : gmap (Z * Z) (Operation I);
  alive_ : bool;
}.
Arguments options_ {I}.
Arguments handlers_ {I}.
Arguments keystore_ {I}.
Arguments operations_ {I}.
Arguments alive_ {I}.

Section operation.
Context {I : Type} `{!IntervalSet I, !Aead}.
Context (srv : Server I).
Implicit Types op : Operation I.

Definition set_client_endpoint (e : Z) op : Operation I :=
  {| client_endpoint_ := e; key_fingerprint_ := key_fingerprint_ op;
     request_id_ := request_id_ op; key_ := key_ op; request_ := request_ op;
     request_intervals_ := request_intervals_ op; request_size_ := request_size_ op;
     response_buffers_ := response_buffers_ op; detached_ := detached_ op; refs_ := refs_ op |}.

Definition set_request (k : option Key) (r : list Z) (i : I) (n : Z) op : Operation I :=
  {| client_endpoint_ := client_endpoint_ op; key_fingerprint_ := key_fingerprint_ op;
     request_id_ := request_id_ op; key_ := k; request_ := r;
     request_intervals_ := i; request_size_ := n;
     response_buffers_ := response_buffers_ op; detached_ := detached_ op; refs_ := refs_ op |}.

Definition set_response_buffers (bs : list (list Z)) op : Operation I :=
  {| client_endpoint_ := client_endpoint_ op; key_fingerprint_ := key_fingerprint_ op;
     request_id_ := request_id_ op; key_ := key_ op; request_ := request_ op;
     request_intervals_ := request_intervals_ op; request_size_ := request_size_ op;
     response_buffers_ := bs; detached_ := detached_ op; refs_ := refs_ op |}.

Definition add_refs (n : nat) op : Operation I :=
  {| client_endpoint_ := client_endpoint_ op; key_fingerprint_ := key_fingerprint_ op;
     request_id_ := request_id_ op; key_ := key_ op; request_ := request_ op;
     request_intervals_ := request_intervals_ op; request_size_ := request_size_ op;
     response_buffers_ := response_buffers_ op; detached_ := detached_ op; refs_ := (refs_ op + n)%nat |}.

Definition drop_ref op : Operation I :=
  {| client_endpoint_ := client_endpoint_ op; key_fingerprint_ := key_fingerprint_ op;
     request_id_ := request_id_ op; key_ := key_ op; request_ := request_ op;
     request_intervals_ := request_intervals_ op; request_size_ := request_size_ op;
     response_buffers_ := response_buffers_ op; detached_ := detached_ op; refs_ := (refs_ op - 1)%nat |}.

(** Server::Operation::detach *)
Definition detach op : Operation I :=
  {| client_endpoint_ := client_endpoint_ op; key_fingerprint_ := key_fingerprint_ op;
     request_id_ := request_id_ op; key_ := key_ op; request_ := request_ op;
     request_intervals_ := request_intervals_ op; request_size_ := request_size_ op;
     response_buffers_ := response_buffers_ op; detached_ := true; refs_ := refs_ op |}.

(** Server::Operation::Operation *)
Definition make_operation (endpoint fp id : Z) : Operation I :=
  {| client_endpoint_ := endpoint; key_fingerprint_ := fp; request_id_ := id; key_ := None;
     request_ := []; request_intervals_ := empty_intervals; request_size_ := size_max;
     response_buffers_ := []; detached_ := false; refs_ := 0 |}.

(** Server::Operation::respond *)
Definition respond op : Operation I * list action :=
  (add_refs (length (response_buffers_ op)) op,
   SendTo (client_endpoint_ op) <$> response_buffers_ op).

(** Server::Operation::pack, after response_ was set *)
Definition pack (response : list Z) op : result (Operation I * list action) :=
  match key_ op with
  | None => Crash
  | Some key =>
      buffers ← pack_fragments (key_fingerprint_ op) key (request_id_ op) to_client
                  (send_fragment_size (options_ srv)) response;
      Ok (respond (set_response_buffers (response_buffers_ op ++ buffers) op))
  end.

(** The while loop of handle: the place after the last zero byte before [n] *)
Fixpoint scan_back (n : nat) (l : list Z) : result nat :=
  match n with
  | O => Ok O
  | S m =>
      match l !! m with
      | None => Crash
      | Some b => if b =? 0 then Ok n else scan_back m l
      end
  end.

(** Server::PingHandler::handle: what it passes to its callback *)
Definition ping_handle (request : list Z) : list Z := request.

(** Server::Operation::handle.  The callback holds a reference; that of the ping
    handler is called and dropped at once. *)
Definition handle op : result (Operation I * list action) :=
  let body_end := Z.to_nat (request_size_ op) in
  if zlen (request_ op) <? request_size_ op then Crash
  else
    request_end ← scan_back body_end (request_ op);
    let method := take (body_end - request_end) (drop request_end (request_ op)) in
    let request_end := (request_end - 1)%nat in
    match handlers_ srv !! method, key_ op with
    | None, _ => Ok (op, [])
    | Some h, None => Crash
    | Some h, Some key =>
        let request := take request_end (request_ op) in
        let op := set_request (Some key) [] (request_intervals_ op) (request_size_ op) op in
        match h with
        | PingHandler =>
            '(op, acts) ← pack (ping_handle request) op;
            Ok (op, Invoke h request key :: acts)
        | _ => Ok (add_refs 1 op, [Invoke h request key])
        end
    end.

(** The loop over the keys of the fingerprint *)
Fixpoint try_keys (keys : list Key) (input nonce : list Z) (offset : Z) (buffer : list Z) :
    result (Z * list Z * option Key) :=
  match keys with
  | [] => Ok (size_max, buffer, None)
  | key :: keys =>
      '(decrypt_result, buffer) ← decrypt_into key input nonce offset buffer;
      if decrypt_result =? size_max then try_keys keys input nonce offset buffer
      else Ok (decrypt_result, buffer, Some key)
  end.

(** Server::Operation::unpack *)
Definition unpack (packet : list Z) op : result (Operation I * list action) :=
  let header := decode_header packet in
  let offset := header_offset header in
  let request_body_size := zlen packet - sizeof_Header in
  let buffer := grow (offset + request_body_size) (request_ op) in
  let nonce := make_nonce (request_id header) offset to_server in
  '(decrypt_result, buffer, key, acts) ←
    match key_ op with
    | Some key =>
        '(decrypt_result, buffer) ← decrypt_into key (body packet) nonce offset buffer;
        Ok (decrypt_result, buffer, Some key, [])
    | None =>
        '(decrypt_result, buffer, key) ←
          try_keys (find (key_fingerprint header) (keystore_ srv)) (body packet) nonce offset buffer;
        Ok (decrypt_result, buffer, key, if decrypt_result =? size_max then [] else [KeepAlive])
    end;
  let op := set_request key buffer (request_intervals_ op) (request_size_ op) op in
  if decrypt_result =? size_max then Ok (op, [])
  else
    let op := add_refs (length acts) op in
    let last := Z.land (flags header) partial =? 0 in
    if contains (request_intervals_ op) 0 (request_size_ op) then
      if last then let '(op, sends) := respond op in Ok (op, acts ++ sends) else Ok (op, acts)
    else
      let intervals := add_interval offset (offset + decrypt_result) (request_intervals_ op) in
      let size := if last then offset + decrypt_result else request_size_ op in
      let op := set_request (key_ op) (request_ op) intervals size op in
      if contains intervals 0 size then
        '(op, more) ← handle op;
        Ok (op, acts ++ more)
      else Ok (op, acts).
End operation.

Section server.
Context {I : Type} `{!IntervalSet I, !Aead}.
Implicit Types s : Server I.

Definition ping_name : list Z := [112; 105; 110; 103].
Definition list_name : list Z := [108; 105; 115; 116].

(** security::keys::zero *)
Definition zero_key : Key := make_key (replicate 32 0).

(** Server::handle; emplace keeps a handler that is there. *)
Definition register (name : list Z) (h : Handler) s : Server I :=
  match handlers_ s !! name with
  | Some _ => s
  | None => {| options_ := options_ s; handlers_ := <[name := h]> (handlers_ s);
               keystore_ := keystore_ s; operations_ := operations_ s; alive_ := alive_ s |}
  end.

(** Server::add_key *)
Definition add_key (k : Key) s : Server I :=
  {| options_ := options_ s; handlers_ := handlers_ s; keystore_ := add k (keystore_ s);
     operations_ := operations_ s; alive_ := alive_ s |}.

(** Server::Server *)
Definition make_server (o : Options) : Server I :=
  add_key zero_key (register list_name ListHandler (register ping_name PingHandler
    {| options_ := o; handlers_ := ∅; keystore_ := empty_keystore; operations_ := ∅;
       alive_ := true |})).

Definition set_operations (m : gmap (Z * Z) (Operation I)) s : Server I :=
  {| options_ := options_ s; handlers_ := handlers_ s; keystore_ := keystore_ s;
     operations_ := m; alive_ := alive_ s |}.

(** Server::~Server *)
Definition destroy_server s : Server I :=
  {| options_ := options_ s; handlers_ := handlers_ s; keystore_ := keystore_ s;
     operations_ := detach <$> operations_ s; alive_ := false |}.

(** Server::Operation::~Operation, when no reference is left *)
Definition release (k : Z * Z) (op : Operation I) : ST (Server I) unit :=
  match refs_ op with
  | O =>
      let* s := st_get in
      if detached_ op || alive_ s
      then st_modify (λ s, set_operations (delete k (operations_ s)) s)
      else crash
  | S _ => st_modify (λ s, set_operations (<[k := op]> (operations_ s)) s)
  end.

(** Server::dispatch *)
Definition on_receive (endpoint : Z) (packet : list Z) : ST (Server I) (list action) :=
  let* s := st_get in
  if negb (alive_ s) then crash
  else if zlen packet <? sizeof_Header then st_ret []
  else
    let header := decode_header packet in
    let k := (key_fingerprint header, request_id header) in
    let op :=
      match operations_ s !! k with
      | Some op => set_client_endpoint endpoint op
      | None => make_operation endpoint (key_fingerprint header) (request_id header)
      end in
    let* (op, acts) := st_lift (unpack s packet op) in
    let* _ := release k op in
    st_ret acts.

(** The completion of an async_send_to, of the keep alive wait, or the end of the
    callback that a handler was given *)
Definition on_drop (k : Z * Z) : ST (Server I) (list action) :=
  let* s := st_get in
  match operations_ s !! k with
  | None => crash
  | Some op => let* _ := release k (drop_ref op) in st_ret []
  end.

(** The callback that handle gives to a handler; pack uses the server. *)
Definition on_response (k : Z * Z) (response : list Z) : ST (Server I) (list action) :=
  let* s := st_get in
  match operations_ s !! k with
  | None => crash
  | Some op =>
      let* (op, acts) := if alive_ s then st_lift (pack s response op) else crash in
      let* _ := st_modify (λ s, set_operations (<[k := op]> (operations_ s)) s) in
      st_ret acts
  end.
End server.

(** ** The method and the request of a message *)

Lemma scan_back_none n l :
  (n ≤ length l)%nat → Forall (λ b, b ≠ 0) (take n l) → scan_back n l = Ok 0%nat.
Proof.
  induction n as [|n IH]; intros Hn Hall; [done|]. cbn [scan_back].
  destruct (lookup_lt_is_Some_2 l n) as [b Hb]; [lia|]. rewrite Hb.
  rewrite (take_S_r _ _ _ Hb), Forall_app, Forall_singleton in Hall. destruct Hall as [Hall Hne].
  rewrite (proj2 (Z.eqb_neq _ _)) by done. apply IH; [lia|done].
Qed.

Lemma scan_back_zero n l i :
  (n ≤ length l)%nat → l !! i = Some 0 → (i < n)%nat →
  Forall (λ b, b ≠ 0) (drop (S i) (take n l)) → scan_back n l = Ok (S i).
Proof.
  induction n as [|n IH]; intros Hn Hi Hlt Hall; [lia|]. cbn [scan_back].
  destruct (lookup_lt_is_Some_2 l n) as [b Hb]; [lia|]. rewrite Hb.
  destruct (decide (i = n)) as [->|Hne]; [by replace b with 0 by congruence|].
  rewrite (take_S_r _ _ _ Hb), drop_app_le, Forall_app, Forall_singleton in Hall
    by (rewrite length_take; lia).
  destruct Hall as [Hall Hb0]. rewrite (proj2 (Z.eqb_neq _ _)) by done. apply IH; [lia|done|lia|done].
Qed.

(** What handle finds in a message that Client::request encoded. *)
Lemma decode_request method req (buffer : list Z) :
  Forall (λ b, b ≠ 0) method → let message := encode_request method req in
  (length message ≤ length buffer)%nat → take (length message) buffer = message →
  ∃ e, scan_back (length message) buffer = Ok e ∧
    take (length message - e) (drop e buffer) = method ∧ take (e - 1) buffer = req.
Proof.
  intros Hm message Hlen Hbuf.
  assert (∀ e, take (length message - e) (drop e buffer) = drop e message) as Hdrop.
  { intros e. by rewrite <- skipn_firstn_comm, Hbuf. }
  assert (∀ n, (n ≤ length message)%nat → take n buffer = take n message) as Htake.
  { intros n Hn. rewrite <- Hbuf, take_take. by rewrite Nat.min_l. }
  destruct req as [|b req].
  - exists 0%nat. rewrite scan_back_none by (done || by rewrite Hbuf).
    by rewrite Hdrop, Nat.sub_0_l, !drop_0.
  - exists (S (length (b :: req))). unfold message, encode_request in *.
    set (r := b :: req) in *. rewrite <- (assoc_L (++)) in *.
    assert (length (r ++ [0] ++ method) = S (length r + length method)) as Hl
      by (rewrite !length_app; simpl; lia).
    rewrite (scan_back_zero _ buffer (length r)).
    + split; [done|]. rewrite Hdrop, Nat.sub_succ, Nat.sub_0_r, Htake by lia. split.
      * rewrite drop_app_ge by lia. by replace (S (length r) - length r)%nat with 1%nat by lia.
      * by rewrite take_app_length.
    + done.
    + assert (take (S (length r)) buffer !! length r = Some 0) as Hz.
      { rewrite Htake by lia. rewrite lookup_take_lt by lia. by apply list_lookup_middle. }
      by rewrite lookup_take_lt in Hz by lia.
    + lia.
    + rewrite Hbuf, drop_app_ge by lia. by replace (S (length r) - length r)%nat with 1%nat by lia.
Qed.

(** ** Reassembling the request *)

Definition is_invoke (a : action) : bool := match a with Invoke _ _ _ => true | _ => false end.

Lemma sends_not_invoke e ps : List.filter is_invoke (SendTo e <$> ps) = [].
Proof. by induction ps. Qed.

Section reassembly.
Context {I : Type} `{!IntervalSet I, !Aead}.
Context (srv : Server I) (k : Key) (id : Z) (method req : list Z) (h : Handler).
Context (others keys : list Key).
Let message := encode_request method req.
Hypothesis Hids : valid_ids (fingerprint_ k) id.
Hypothesis Hmessage : zlen message ≤ 2 ^ 16.
Hypothesis Hmethod : Forall (λ b, b ≠ 0) method.
Hypothesis Hhandler : handlers_ srv !! method = Some h.
Hypothesis Hfragment : 0 < send_fragment_size (options_ srv).
Hypothesis Hkeys : find (fingerprint_ k) (keystore_ srv) = others ++ k :: keys.
Implicit Types op : Operation I.

Abbreviation packet := (chunk_packet (fingerprint_ k) k id to_server message).

(** The keys with the same fingerprint that come before do not open the packets. *)
Hypothesis Hothers : ∀ off len k', valid_chunk message off len → k' ∈ others →
  aead_open (array_ k') (make_nonce id off to_server) (body (packet off len)) = None.

(** A caller of unpack for each packet received. *)
Fixpoint unpack_all (packets : list (list Z)) op : result (Operation I * list action) :=
  match packets with
  | [] => Ok (op, [])
  | p :: packets =>
      '(op, acts) ← unpack srv p op;
      '(op, more) ← unpack_all packets op;
      Ok (op, acts ++ more)
  end.

(** The invariant of an operation that was given the packets of [ds], and the
    invocations so far. *)
Definition operation_inv (ds : list (list Z)) op (invoked : list action) : Prop :=
  (key_ op = Some k ∨
   key_ op = None ∧ ds = [] ∧ ∀ x, ¬ covers (request_intervals_ op) x) ∧
  (request_id_ op = id ∧ key_fingerprint_ op = fingerprint_ k ∧ (h ≠ PingHandler → response_buffers_ op = [])) ∧
  if contains (request_intervals_ op) 0 (request_size_ op) then invoked = [Invoke h req k]
  else
    invoked = [] ∧
    agrees message (request_ op) (request_intervals_ op) (request_size_ op) ∧
    seen (fingerprint_ k) k id to_server message ds (request_intervals_ op) (request_size_ op).

Lemma try_others ks off len buffer :
  (∀ k', k' ∈ ks → k' ∈ others) → valid_chunk message off len → off + (len + 16) ≤ zlen buffer →
  ∃ buffer', zlen buffer' = zlen buffer ∧
    try_keys (ks ++ k :: keys) (body (packet off len)) (make_nonce id off to_server) off buffer =
    try_keys (k :: keys) (body (packet off len)) (make_nonce id off to_server) off buffer'.
Proof using Hothers.
  revert buffer. induction ks as [|k' ks IH]; intros buffer Hks Hc Hb; [by exists buffer|].
  cbn [app try_keys]. unfold decrypt_into, decrypt at 1.
  rewrite Hothers by (done || apply Hks; by left).
  pose proof (aead_open_scratch_length (array_ k') (make_nonce id off to_server)
    (body (packet off len))) as Hs.
  pose proof (body_chunk_length (fingerprint_ k) k id to_server message off len Hc) as Hbl.
  pose proof Hc as ((? & _) & _). unfold zlen in Hbl, Hb.
  rewrite span_write_ok by (done || (unfold zlen; lia)). cbn [mbind result_bind].
  rewrite Z.eqb_refl.
  destruct (IH (splice off (aead_open_scratch (array_ k') (make_nonce id off to_server)
    (body (packet off len))) buffer)) as (b' & Hl & Ht).
  - intros x Hx. apply Hks. by right.
  - done.
  - rewrite splice_length by (unfold zlen; lia). unfold zlen. lia.
  - exists b'. rewrite splice_length in Hl by (unfold zlen; lia). split; [done|]. exact Ht.
Qed.

(** The decryption of a genuine packet, with the key or with all the keys. *)
Lemma decrypt_request ds op off len buffer invoked :
  operation_inv ds op invoked → valid_chunk message off len → off + (len + 16) ≤ zlen buffer →
  ∃ buffer' acts, zlen buffer' = zlen buffer ∧ List.filter is_invoke acts = [] ∧
    (key_ op = Some k → buffer' = buffer) ∧
    match key_ op with
    | Some key =>
        '(r, b) ← decrypt_into key (body (packet off len)) (make_nonce id off to_server) off buffer;
        Ok (r, b, Some key, [])
    | None =>
        '(r, b, key) ← try_keys (find (fingerprint_ k) (keystore_ srv)) (body (packet off len))
          (make_nonce id off to_server) off buffer;
        Ok (r, b, key, if r =? size_max then [] else [KeepAlive])
    end = Ok (len, splice off (slice off len message) buffer', Some k, acts).
Proof using Hmessage Hothers Hkeys.
  intros (Hkey & _) Hc Hb. pose proof Hc as ((? & ?) & ? & ?).
  assert (len =? size_max = false) as Hne by (apply Z.eqb_neq; unfold size_max; lia).
  destruct Hkey as [Hkey|[Hkey _]]; rewrite Hkey.
  - exists buffer, []. split_and!; [done..|]. by rewrite decrypt_into_chunk by (done || lia).
  - rewrite Hkeys. destruct (try_others others off len buffer) as (b' & Hl & ->); [done..|].
    cbn [try_keys]. rewrite decrypt_into_chunk by (done || lia). cbn [mbind result_bind].
    rewrite Hne. cbn [mbind result_bind]. rewrite Hne. exists b', [KeepAlive]. by split_and!.
Qed.

Lemma handle_ok op :
  key_ op = Some k → request_size_ op = zlen message →
  (length message ≤ length (request_ op))%nat → take (length message) (request_ op) = message →
  ∃ op' acts, handle srv op = Ok (op', acts) ∧ List.filter is_invoke acts = [Invoke h req k] ∧
    key_ op' = Some k ∧ request_intervals_ op' = request_intervals_ op ∧
    request_size_ op' = request_size_ op ∧ request_id_ op' = request_id_ op ∧
    key_fingerprint_ op' = key_fingerprint_ op ∧ (h ≠ PingHandler → response_buffers_ op' = response_buffers_ op).
Proof using Hmessage Hmethod Hhandler Hfragment.
  clear Hothers Hkeys Hids. intros Hkey Hsize Hlen Htake. unfold handle. rewrite Hsize.
  rewrite (proj2 (Z.ltb_ge _ _)) by (unfold zlen; lia).
  assert (Z.to_nat (zlen message) = length message) as -> by (unfold zlen; lia).
  destruct (decode_request method req (request_ op) Hmethod Hlen Htake) as (e & He & Hm & Hr).
  fold message in He, Hm. rewrite He. cbn [mbind result_bind]. rewrite Hm, Hhandler, Hkey, Hr.
  destruct h; [|by eexists _, _..].
  unfold pack, ping_handle. cbn [set_request key_ key_fingerprint_ request_id_ response_buffers_].
  destruct (pack_fragments_ok (key_fingerprint_ op) k (request_id_ op) to_client req
    (send_fragment_size (options_ srv)))
    as (ps & -> & _); [done| |].
  { transitivity (zlen message); [|done]. unfold message, encode_request, zlen.
    destruct req; rewrite ?length_app; simpl; lia. }
  cbn [mbind result_bind respond]. eexists _, _. split; [done|]. simpl.
  by rewrite sends_not_invoke.
Qed.

(** The request is complete, and its handler is called. *)
Lemma complete_handled ds op :
  key_ op = Some k →
  request_id_ op = id ∧ key_fingerprint_ op = fingerprint_ k ∧ (h ≠ PingHandler → response_buffers_ op = []) →
  agrees message (request_ op) (request_intervals_ op) (request_size_ op) →
  contains (request_intervals_ op) 0 (request_size_ op) = true →
  ∃ op' acts, handle srv op = Ok (op', acts) ∧ operation_inv ds op' (List.filter is_invoke acts).
Proof using Hmessage Hmethod Hhandler Hfragment.
  intros Hkey (? & ? & Hrb) Hag Hcont.
  destruct (agrees_complete message _ _ _ Hag) as (Hsize & Hlen & Htake); [unfold size_max; lia|done|].
  destruct (handle_ok op Hkey Hsize Hlen Htake) as (op' & acts & Hrun & Hinv & Hk' & Hi' & Hs' & Hid' & Hfp' & Hrb').
  exists op', acts. split; [done|]. rewrite Hinv. split; [by left|].
  split; [split_and!; [congruence..|intros; rewrite Hrb'; auto]|]. by rewrite Hi', Hs', Hcont.
Qed.

Lemma server_unpack_chunk ds op off len invoked :
  operation_inv ds op invoked → valid_chunk message off len →
  ∃ op' acts, unpack srv (packet off len) op = Ok (op', acts) ∧
    operation_inv (ds ++ [packet off len]) op' (invoked ++ List.filter is_invoke acts).
Proof using Hids Hmessage Hmethod Hhandler Hfragment Hkeys Hothers.
  intros Hop Hc. unfold unpack. rewrite decode_chunk by done.
  cbn [chunk_header header_offset request_id flags key_fingerprint].
  unfold sizeof_Header. rewrite chunk_packet_length by done.
  replace (off + (24 + len + 16 - 24)) with (off + (len + 16)) by lia.
  set (buffer := grow (off + (len + 16)) (request_ op)).
  assert (off + (len + 16) ≤ zlen buffer) as Hb by apply grow_length.
  destruct (decrypt_request ds op off len buffer invoked Hop Hc Hb)
    as (buffer' & acts & Hl & Hacts & Hsame & ->). cbn [mbind result_bind].
  pose proof Hc as ((? & ?) & ? & ?).
  rewrite (proj2 (Z.eqb_neq len size_max)) by (unfold size_max; lia).
  cbn [add_refs set_request key_ request_ request_intervals_ request_size_].
  assert (∀ z, (if Z.land (if off + len <? zlen message then partial else 0) partial =? 0
                then off + len else z) = (if off + len <? zlen message then z else off + len)) as Hif
    by (by destruct (_ <? _)).
  destruct Hop as (Hkey & Hids' & Hinv).
  destruct (contains (request_intervals_ op) 0 (request_size_ op)) eqn:Hcont.
  - subst invoked. destruct (_ =? 0).
    + eexists _, _. split; [done|]. rewrite List.filter_app, Hacts. simpl. rewrite sends_not_invoke.
      split; [by left|]. split; [done|]. simpl. by rewrite Hcont.
    + eexists _, _. split; [done|]. rewrite Hacts. split; [by left|]. split; [done|].
      simpl. by rewrite Hcont.
  - destruct Hinv as (-> & Hag & Hseen). rewrite Hif.
    assert (agrees message buffer' (request_intervals_ op) (request_size_ op)) as Hag1.
    { destruct Hkey as [Hkey|(_ & _ & Hno)]; [rewrite (Hsame Hkey); by apply agrees_grow|].
      destruct Hag as [_ Hsz]. split; [|done]. intros x Hx. by destruct (Hno x). }
    pose proof (agrees_store message _ _ _ off len Hag1 Hc ltac:(lia)) as Hag2.
    set (buf := splice _ _ _) in *. set (ivs := add_interval _ _ _) in *.
    set (size := if _ <? _ then request_size_ op else _) in *.
    destruct (contains ivs 0 size) eqn:Hcont'.
    + edestruct (complete_handled (ds ++ [packet off len])) as (op' & acts' & -> & Hinv');
        [..|cbn [mbind result_bind]]; [reflexivity|exact Hids'|exact Hag2|exact Hcont'|].
      eexists _, _. split; [done|]. by rewrite List.filter_app, Hacts.
    + eexists _, _. split; [done|]. rewrite Hacts. split; [by left|]. split; [done|].
      simpl. rewrite Hcont'.
      split; [done|]. split; [done|]. by apply seen_add.
Qed.

Lemma server_unpack_all_chunks packets ds op invoked :
  operation_inv ds op invoked →
  Forall (λ p, ∃ off len, valid_chunk message off len ∧ p = packet off len) packets →
  ∃ op' acts, unpack_all packets op = Ok (op', acts) ∧
    operation_inv (ds ++ packets) op' (invoked ++ List.filter is_invoke acts).
Proof using Hids Hmessage Hmethod Hhandler Hfragment Hkeys Hothers.
  intros Hinv Hall. revert ds op invoked Hinv.
  induction Hall as [|p packets (off & len & Hc & ->) _ IH]; intros ds op invoked Hinv.
  { exists op, []. by rewrite !app_nil_r. }
  destruct (server_unpack_chunk ds op off len invoked Hinv Hc) as (op1 & acts1 & H1 & Hinv1).
  destruct (IH _ op1 _ Hinv1) as (op2 & acts2 & H2 & Hinv2). exists op2, (acts1 ++ acts2).
  cbn [unpack_all]. rewrite H1. cbn [mbind result_bind]. rewrite H2. cbn [mbind result_bind].
  split; [done|]. rewrite List.filter_app, (assoc_L (++) invoked).
  by rewrite <- (assoc_L (++) ds) in Hinv2.
Qed.

Lemma make_operation_inv e : operation_inv [] (make_operation e (fingerprint_ k) id) [].
Proof using.
  split; [right; split; [done|]; split; [done|apply covers_empty]|]. split; [done|].
  simpl. assert (contains empty_intervals 0 size_max = false) as ->.
  { apply not_true_is_false. rewrite contains_spec. intros Hc.
    apply (covers_empty 0), Hc. unfold size_max. lia. }
  split; [done|]. split; [apply agrees_empty|]. apply seen_nothing.
Qed.

(** Everything arrived, so the handler was invoked. *)
Lemma server_operation_inv_all ds op invoked ps :
  operation_inv ds op invoked → packets_ok (fingerprint_ k) k id to_server message 0 ps → ps ⊆ ds →
  invoked = [Invoke h req k] ∧ key_ op = Some k.
Proof using.
  intros (Hkey & _ & Hinv) Hok Hsub. split.
  - destruct (contains (request_intervals_ op) 0 (request_size_ op)) eqn:Hcont; [done|].
    destruct Hinv as (_ & _ & Hseen). by rewrite (seen_all _ _ _ _ _ _ _ _ _ Hseen Hok Hsub) in Hcont.
  - destruct Hok as (_ & _ & (o & n & _ & _ & Hin)). destruct Hkey as [?|(_ & -> & _)]; [done|]. apply Hsub, not_elem_of_nil in Hin. done.
Qed.

Lemma operation_inv_some ds op invoked :
  operation_inv ds op invoked → invoked = [] ∨ invoked = [Invoke h req k].
Proof using.
  intros (_ & _ & Hinv). destruct (contains _ _ _); [by right|left; apply Hinv].
Qed.

(** The packets of the response that a handler gives later. *)
Lemma pack_response op response :
  key_ op = Some k → request_id_ op = id → key_fingerprint_ op = fingerprint_ k →
  response_buffers_ op = [] → zlen response ≤ 2 ^ 16 →
  ∃ op' ps, pack srv response op = Ok (op', SendTo (client_endpoint_ op) <$> ps) ∧
    pack_fragments (fingerprint_ k) k id to_client (send_fragment_size (options_ srv)) response = Ok ps.
Proof using Hfragment.
  intros Hk Hid Hfp Hrb Hl. unfold pack. rewrite Hk, Hid, Hfp.
  destruct (pack_fragments_ok (fingerprint_ k) k id to_client response
    (send_fragment_size (options_ srv)))
    as (ps & -> & _); [done|done|].
  cbn [mbind result_bind]. eexists _, ps. split; [|done]. unfold respond. simpl. by rewrite Hrb.
Qed.
End reassembly.

(** C6: For any delivery (loss, repetition, reordering) of the packets of a request whose
    message is at most 64 KiB and whose method is registered and has no zero byte, with
    positive fragment sizes, a new server operation runs without fault and invokes the
    handler of the method at most once, and then with exactly the client's request and key;
    if every packet is delivered it is invoked. Other keys with the same fingerprint may be
    tried first, provided that they do not open the packets. *)
Theorem server_invokes_once {I} `{!IntervalSet I, !Aead} (srv : Server I) k id method req h
    others keys fragment_size ps ds endpoint :
  let message := encode_request method req in
  valid_ids (fingerprint_ k) id → zlen message ≤ 2 ^ 16 → Forall (λ b, b ≠ 0) method →
  handlers_ srv !! method = Some h → 0 < send_fragment_size (options_ srv) →
  find (fingerprint_ k) (keystore_ srv) = others ++ k :: keys →
  (∀ off len k', valid_chunk message off len → k' ∈ others →
     aead_open (array_ k') (make_nonce id off to_server)
       (body (chunk_packet (fingerprint_ k) k id to_server message off len)) = None) →
  0 < fragment_size → pack_fragments (fingerprint_ k) k id to_server fragment_size message = Ok ps → ds ⊆ ps →
  ∃ op acts, unpack_all srv ds (make_operation endpoint (fingerprint_ k) id) = Ok (op, acts) ∧
    (List.filter is_invoke acts = [] ∨ List.filter is_invoke acts = [Invoke h req k]) ∧
    (ps ⊆ ds → List.filter is_invoke acts = [Invoke h req k]).
Proof.
  intros message Hids Hm Hmethod Hh Hf Hkeys Hothers Hf' Hpack Hsub.
  destruct (pack_fragments_ok (fingerprint_ k) k id to_server message fragment_size Hf' Hm) as (ps' & Hp & Hok).
  rewrite Hpack in Hp. injection Hp as <-.
  destruct (server_unpack_all_chunks srv k id method req h others keys Hids Hm Hmethod Hh Hf Hkeys Hothers
    ds [] (make_operation endpoint (fingerprint_ k) id) []) as (op & acts & Hrun & Hinv).
  { apply make_operation_inv. }
  { apply Forall_forall. intros p Hp. destruct Hok as [Hall _]. rewrite Forall_forall in Hall. auto. }
  exists op, acts. split; [done|]. split.
  - by eapply operation_inv_some.
  - intros Hall. by eapply server_operation_inv_all in Hinv as [? _].
Qed.

Lemma rpc_exchange {I} `{!IntervalSet I, !Aead} (srv : Server I) k id method req n keys
    fragment_size ps ds endpoint response (cop : RpcClient.Operation I) :
  let message := encode_request method req in
  valid_ids (fingerprint_ k) id → zlen message ≤ 2 ^ 16 → zlen response ≤ 2 ^ 16 → Forall (λ b, b ≠ 0) method →
  handlers_ srv !! method = Some (UserHandler n) → 0 < send_fragment_size (options_ srv) →
  find (fingerprint_ k) (keystore_ srv) = k :: keys → 0 < fragment_size →
  pack_fragments (fingerprint_ k) k id to_server fragment_size message = Ok ps → ds ⊆ ps → ps ⊆ ds →
  RpcClient.key (RpcClient.options_ cop) = k → finished_ cop = false → response_ cop = [] →
  response_intervals_ cop = empty_intervals → response_size_ cop = size_max →
  ∃ op acts op' rs,
    unpack_all srv ds (make_operation endpoint (fingerprint_ k) id) = Ok (op, acts) ∧
    List.filter is_invoke acts = [Invoke (UserHandler n) req k] ∧
    pack srv response op = Ok (op', SendTo (client_endpoint_ op) <$> rs) ∧
    ∀ ds', ds' ⊆ rs → rs ⊆ ds' →
      ∃ cop', RpcClient.unpack_all ds' cop = Ok cop' ∧
        destroy cop' = Ok (Callback (callback_ cop) None response).
Proof.
  intros message Hids Hm Hresp Hmethod Hh Hf Hkeys Hf' Hpack Hsub Hall Hk Hfin Hr Hi Hs.
  destruct (pack_fragments_ok (fingerprint_ k) k id to_server message fragment_size Hf' Hm) as (ps' & Hp & Hok).
  rewrite Hpack in Hp. injection Hp as <-.
  destruct (server_unpack_all_chunks srv k id method req (UserHandler n) [] keys Hids Hm Hmethod Hh Hf Hkeys)
    with (packets := ds) (ds := @nil (list Z)) (op := make_operation (I := I) endpoint (fingerprint_ k) id)
         (invoked := @nil action) as (op & acts & Hrun & Hinv).
  { intros ??? _ Hin. by apply not_elem_of_nil in Hin. }
  { apply make_operation_inv. }
  { apply Forall_forall. intros p Hp. destruct Hok as [Hallp _]. rewrite Forall_forall in Hallp. auto. }
  pose proof Hinv as (_ & (Hid & Hfp & Hrb) & _).
  destruct (server_operation_inv_all k id method req (UserHandler n) _ _ _ _ Hinv Hok Hall) as [Hinvk Hkey].
  destruct (pack_response srv k id Hf op response Hkey Hid Hfp (Hrb ltac:(done)) Hresp) as (op' & rs & Hpk & Hrs).
  exists op, acts, op', rs. split; [done|]. split; [done|]. split; [done|].
  intros ds' Hsub' Hall'.
  destruct (client_reassembles_lemma (fingerprint_ k) k id (send_fragment_size (options_ srv)) response rs ds' cop)
    as (cop' & ? & Hdone & Hlive); [done..|].
  exists cop'. split; [done|]. by apply Hdone, Hlive.
Qed.

