(* ===== verification/RpcExamples.v ===== *)
(** * net/rpc: concrete exchanges

    A key, a client operation and a server with the concrete interval set and
    cipher, on which the theorems about reassembly apply. *)

From S2P Require Import Prelude Random Fibonacci Keystore IntervalSet RpcWire RpcClient RpcServer.

Definition example_key : Key := make_key [1; 2; 3].

Definition example_operation : RpcClient.Operation (list (Z * Z)) :=
  {| endpoint_ := 0;
     RpcClient.options_ := {| RpcClient.key := example_key; timeout := 2000; initial_retry := 200 |};
     callback_ := 7; RpcClient.request_id_ := 9; request_buffers_ := []; wait_sequence_ := reset; finished_ := false;
     RpcClient.detached_ := false; result_ec_ := Some bad_address; response_ := []; response_intervals_ := [];
     response_size_ := size_max; sends_ := 0; waits_ := 1 |}.

Definition example_message : list Z := [11; 12; 13; 14].

(** "get" *)
Definition example_method : list Z := [103; 101; 116].

Definition example_server : Server (list (Z * Z)) :=
  register example_method (UserHandler 1)
    (add_key example_key (make_server {| send_fragment_size := 3; receive_buffer_size := 2048 |})).

(** The packets of a message, in another order and with a duplicate. *)
Definition packets_of (direction : Z) (message : list Z) : list (list Z) :=
  match pack_fragments (fingerprint_ example_key) example_key 9 direction 3 message with Ok ps => ps | _ => [] end.

Definition shuffled (direction : Z) (message : list Z) : list (list Z) :=
  let ps := packets_of direction message in take 1 (reverse ps) ++ reverse ps.

Lemma shuffled_subset direction message : shuffled direction message ⊆ packets_of direction message.
Proof.
  intros p Hp. unfold shuffled in Hp. apply elem_of_app in Hp as [Hp|Hp].
  - apply elem_of_take in Hp as (i & Hi & _). by apply elem_of_reverse, (list_elem_of_lookup_2 _ i).
  - by apply elem_of_reverse.
Qed.

Lemma shuffled_superset direction message : packets_of direction message ⊆ shuffled direction message.
Proof.
  intros p Hp. unfold shuffled. apply elem_of_app. right.
  by apply elem_of_reverse.
Qed.

Lemma example_ids : valid_ids (fingerprint_ example_key) 9.
Proof. split; vm_compute; done. Qed.

Lemma client_reassembles_witness :
  ∃ op', RpcClient.unpack_all (shuffled to_client example_message) example_operation = Ok op' ∧
    destroy op' = Ok (Callback 7 None example_message).
Proof.
  destruct (client_reassembles (fingerprint_ example_key) example_key 9 3 example_message
    (packets_of to_client example_message)
    (shuffled to_client example_message) example_operation) as (op' & H1 & H2 & H3);
    [exact example_ids|done|done|done|done|done|done|done|by vm_compute|apply shuffled_subset|].
  exists op'. split; [exact H1|]. apply H2, H3, shuffled_superset.
Defined.

(** Two channels; the second attempt goes over the other one. *)
Definition example_client : Client unit (list (Z * Z)) :=
  {| client_options_ := {| num_channels := 2; RpcClient.send_fragment_size := 3; RpcClient.receive_buffer_size := 2048 |};
     channels_iter_ := 1; gen_ := tt; RpcClient.operations_ := ∅; RpcClient.alive_ := true |}.

Definition example_sent : RpcClient.Operation (list (Z * Z)) :=
  {| endpoint_ := 0;
     RpcClient.options_ := {| RpcClient.key := example_key; timeout := 500; initial_retry := 200 |};
     callback_ := 7; RpcClient.request_id_ := 9; request_buffers_ := [[1]; [2]]; wait_sequence_ := reset; finished_ := false;
     RpcClient.detached_ := false; result_ec_ := Some bad_address; response_ := []; response_intervals_ := [];
     response_size_ := size_max; sends_ := 0; waits_ := 0 |}.

Lemma client_retry_schedule_witness :
  ∃ ws op' rounds c', retries 46 example_sent example_client = (Ok (op', rounds), c') ∧
    sum_waits ws = 500 ∧ result_ec_ op' = Some timed_out ∧
    rounds = [[RpcClient.SendTo 1 0 [1]; RpcClient.SendTo 1 0 [2]; WaitFor 200]; [RpcClient.SendTo 0 0 [1]; RpcClient.SendTo 0 0 [2]; WaitFor 200];
              [RpcClient.SendTo 1 0 [1]; RpcClient.SendTo 1 0 [2]; WaitFor 100]; [CancelWait]].
Proof.
  destruct (client_retry_schedule example_sent example_client) as (ws & op' & c' & H1 & _ & H2 & H3 & _);
    [done|done|done|by vm_compute|done|done|done|].
  exists ws, op'. eexists _, c'. split; [exact H1|]. split; [exact H3|]. split; [exact H2|].
  assert (fst (retries 46 example_sent example_client) = fst (retries 46 example_sent example_client)) as E by done.
  rewrite H1 in E at 1. vm_compute in E. injection E as _ E. exact E.
Defined.

(** A key with the same fingerprint that does not open the packets *)
Definition other_key : Key := make_key [1; 2; 3; 0].

Definition shared_server : Server (list (Z * Z)) :=
  register example_method (UserHandler 1)
    (add_key example_key (add_key other_key (make_server {| send_fragment_size := 3; receive_buffer_size := 2048 |}))).

Lemma other_key_fails nonce bs : aead_open (array_ other_key) nonce (aead_seal (array_ example_key) nonce bs) = None.
Proof.
  cbn [aead_open aead_seal toy_aead array_ other_key example_key make_key].
  rewrite length_app, length_replicate, Nat.add_sub, drop_app_length.
  rewrite (bool_decide_false (replicate 16 _ = _)) by (vm_compute; discriminate). by rewrite andb_false_r.
Qed.

Lemma server_invokes_once_witness :
  ∃ op acts, find (fingerprint_ example_key) (keystore_ shared_server) = [other_key; example_key] ∧
    unpack_all shared_server
      (shuffled to_server (encode_request example_method [5; 6]))
      (make_operation 0 (fingerprint_ example_key) 9) = Ok (op, acts) ∧
    List.filter is_invoke acts = [Invoke (UserHandler 1) [5; 6] example_key].
Proof.
  destruct (server_invokes_once shared_server example_key 9 example_method [5; 6] (UserHandler 1)
    [other_key] [] 3 (packets_of to_server (encode_request example_method [5; 6]))
    (shuffled to_server (encode_request example_method [5; 6])) 0) as (op & acts & H1 & _ & H3).
  - exact example_ids.
  - done.
  - by repeat constructor.
  - by vm_compute.
  - done.
  - by vm_compute.
  - intros off len k' Hc ->%list_elem_of_singleton. rewrite body_chunk by done. apply other_key_fails.
  - done.
  - by vm_compute.
  - apply shuffled_subset.
  - exists op, acts. split; [by vm_compute|]. split; [exact H1|]. apply H3, shuffled_superset.
Defined.

