(* ===== verification/FlatbuffersRpc.v ===== *)
(** * util/flatbuffers, net/rpc/flatbuffers-handler and net/rpc/flatbuffers-request

    The templates that put typed messages on the RPC.  A table type of flatbuffers,
    with the code that flatc generates for it, is an instance of [Table]: its object
    API and its verifier.  A handler whose request does not verify never answers: the
    callback goes away, and the server runs on_drop. *)

From stdpp Require Import sorting.
From S2P Require Import Prelude Random Keystore IntervalSet RpcWire RpcClient RpcServer RpcExamples Algorithm EmbedData.

Class Table (T : Type) : Type := {
  (** T::Pack and FlatBufferBuilder::Finish *)
  Pack : T → list Z;
  (** Verifier::VerifyBuffer<T> *)
  VerifyBuffer : list Z → bool;
  (** GetRoot<T> and UnPackTo, on a buffer that verifies *)
  UnPack : list Z → T;
  (** the object that {} makes *)
  empty_table : T;
  verify_packed x : VerifyBuffer (Pack x) = true;
  unpack_packed x : UnPack (Pack x) = x;
}.

(** ** util/flatbuffers.h *)

(** util::pack *)
Definition pack {T} `{!Table T} (object : T) : list Z := Pack object.

(** util::verify_and_unpack *)
Definition verify_and_unpack {T} `{!Table T} (buffer : list Z) : option T :=
  if VerifyBuffer buffer then Some (UnPack buffer) else None.

Lemma unpack_pack {T} `{!Table T} (x : T) : verify_and_unpack (pack x) = Some x.
Proof. unfold verify_and_unpack, pack. by rewrite verify_packed, unpack_packed. Qed.

(** ** util/flatbuffers-reflection.cc

    A flatbuffers::Parser that holds a schema: [Parse] builds a buffer from text,
    [Serialize] one of the schema. *)

Class Parser (P : Type) : Type := {
  Parse : list Z → P → bool * P;
  Serialize : P → P;
  GetBuffer : P → list Z;
  (** GetSchema, Verify against its root table *)
  VerifySchema : list Z → list Z → bool;
  (** GenText: the text, or an error *)
  GenText : list Z → P → option (list Z);
}.

Definition pack_text {P} `{!Parser P} (text : list Z) : ST P (option (list Z)) := λ parser,
  let '(ok, parser) := Parse text parser in
  if negb ok then (Ok None, parser) else (Ok (Some (GetBuffer parser)), parser).

Definition verify_and_unpack_text {P} `{!Parser P} (buffer : list Z) : ST P (option (list Z)) := λ parser,
  let parser := Serialize parser in
  let schema := GetBuffer parser in
  if negb (VerifySchema schema buffer) then (Ok None, parser)
  else (Ok (GenText buffer parser), parser).

(** ** The handler *)

Inductive handled (Req : Type) : Type :=
  (** DerivedT::handle is called *)
  | Handled (request : Req) (key : Key)
  (** handle returns and the callback goes away *)
  | Dropped.
Arguments Handled {Req}.
Arguments Dropped {Req}.

Section templates.
Context {Req Resp : Type} `{!Table Req, !Table Resp}.

(** FlatbuffersHandler::handle *)
Definition handle (request : list Z) (key : Key) : handled Req :=
  match verify_and_unpack request with
  | None => Dropped
  | Some object => Handled object key
  end.

(** The callback that DerivedT::handle is given: what it passes on *)
Definition respond_with (response : Resp) : list Z := pack response.

(** rpc::request *)
Definition request {G I} `{!Aead, !BitGen G, !IntervalSet I} (endpoint : Z) (method : list Z) (object : Req)
    (options : RequestOptions) (callback : Z) : ST (Client G I) (list RpcClient.action) :=
  RpcClient.request endpoint method (pack object) options callback.

(** The callback that rpc::request gives to Client::request: what it passes on *)
Definition on_result (ec : option errc) (response : list Z) : option errc * Resp :=
  match ec with
  | Some ec => (Some ec, empty_table)
  | None =>
      match verify_and_unpack response with
      | None => (Some invalid_argument, empty_table)
      | Some object => (None, object)
      end
  end.
End templates.

(** ** Typed exchanges *)

Section typed.
Context {Req Resp : Type} `{!Table Req, !Table Resp}.

(** When all packets of a typed request reach the server, in any order and with
    repetitions, its handler is called once with the object that was sent, and when all
    packets of the response reach the client, its callback is given the object that the
    handler answered. *)
Theorem typed_rpc_roundtrip {I} `{!IntervalSet I, !Aead} (srv : Server I) k id method (object : Req) n keys
    fragment_size ps ds endpoint (response : Resp) (cop : RpcClient.Operation I) :
  let message := encode_request method (pack object) in
  valid_ids (fingerprint_ k) id → zlen message ≤ 2 ^ 16 → zlen (pack response) ≤ 2 ^ 16 →
  Forall (λ b, b ≠ 0) method →
  handlers_ srv !! method = Some (UserHandler n) → 0 < send_fragment_size (options_ srv) →
  find (fingerprint_ k) (keystore_ srv) = k :: keys → 0 < fragment_size →
  pack_fragments (fingerprint_ k) k id to_server fragment_size message = Ok ps → ds ⊆ ps → ps ⊆ ds →
  RpcClient.key (RpcClient.options_ cop) = k → finished_ cop = false → response_ cop = [] →
  response_intervals_ cop = empty_intervals → response_size_ cop = size_max →
  ∃ op acts bytes op' rs,
    unpack_all srv ds (make_operation endpoint (fingerprint_ k) id) = Ok (op, acts) ∧
    List.filter is_invoke acts = [Invoke (UserHandler n) bytes k] ∧
    handle bytes k = Handled object k ∧
    RpcServer.pack srv (respond_with response) op = Ok (op', SendTo (client_endpoint_ op) <$> rs) ∧
    ∀ ds', ds' ⊆ rs → rs ⊆ ds' →
      ∃ cop' ec result, RpcClient.unpack_all ds' cop = Ok cop' ∧
        destroy cop' = Ok (Callback (callback_ cop) ec result) ∧ on_result ec result = (None, response).
Proof.
  intros message Hids Hm Hresp Hmethod Hh Hf Hkeys Hf' Hpack Hsub Hall Hk Hfin Hr Hi Hs.
  destruct (rpc_exchange srv k id method (pack object) n keys fragment_size ps ds endpoint (pack response) cop)
    as (op & acts & op' & rs & Hrun & Hinv & Hpk & Hcl); [done..|].
  exists op, acts, (pack object), op', rs. split_and!; [done|done| |done|].
  - unfold handle. by rewrite unpack_pack.
  - intros ds' Hsub' Hall'. destruct (Hcl ds' Hsub' Hall') as (cop' & Hun & Hd).
    exists cop', None, (pack response). split_and!; [done|done|]. unfold on_result. by rewrite unpack_pack.
Qed.

(** A request that does not verify is dropped, without an answer; a response that does
    not verify, and any error of the client, is an error with an empty object. *)
Theorem typed_rpc_errors (request : list Z) k ec response :
  VerifyBuffer (T := Req) request = false → VerifyBuffer (T := Resp) response = false →
  handle (Req := Req) request k = Dropped ∧
  on_result (Resp := Resp) None response = (Some invalid_argument, empty_table) ∧
  on_result (Resp := Resp) (Some ec) response = (Some ec, empty_table).
Proof. intros Hreq Hresp. unfold handle, on_result, verify_and_unpack. by rewrite Hreq, Hresp. Qed.
End typed.

(** ** Server::ListHandler *)

(** fbs::ListResponseT *)
Record ListResponse : Type := { methods : list (list Z) }.

(** Server::ListHandler::handle, whose request is empty *)
Definition list_handle {I} (srv : Server I) : ListResponse :=
  {| methods := merge_sort bytes_le (map_to_list (handlers_ srv)).*1 |}.

(** A client that lists the methods of a server is given exactly the registered ones,
    in order and once each. *)
Theorem list_methods {I} (srv : Server I) `{!Table ListResponse} :
  let '(ec, response) := on_result None (respond_with (list_handle srv)) in
  ec = None ∧ StronglySorted bytes_lt (methods response) ∧
  ∀ name, name ∈ methods response ↔ is_Some (handlers_ srv !! name).
Proof.
  unfold on_result, respond_with. rewrite unpack_pack. split; [done|]. cbn [methods list_handle].
  set (names := (map_to_list (handlers_ srv)).*1).
  assert (merge_sort bytes_le names ≡ₚ names) as Hp by apply merge_sort_Permutation.
  assert (NoDup (merge_sort bytes_le names)) as Hn by (rewrite Hp; apply NoDup_fst_map_to_list).
  split.
  - pose proof (StronglySorted_merge_sort bytes_le names) as Hs. clear Hp. revert Hn.
    induction Hs as [|x l Hs IH Hx]; intros Hn; [constructor|].
    apply NoDup_cons in Hn as [Hnin Hn]. constructor; [by apply IH|]. apply Forall_forall. intros y Hy.
    rewrite Forall_forall in Hx. apply bytes_le_lt; [by apply Hx|]. by intros ->.
  - intros name. rewrite Hp. unfold names. rewrite list_elem_of_fmap. split.
    + intros ([n h] & -> & Hin%elem_of_map_to_list). by exists h.
    + intros [h Hh]. exists (name, h). split; [done|]. by apply elem_of_map_to_list.
Qed.

(** ** An example: a table with one boolean field *)

#[export] Program Instance bool_table : Table bool := {
  Pack b := [4; if b then 1 else 0];
  VerifyBuffer buffer := bool_decide (buffer = [4; 0] ∨ buffer = [4; 1]);
  UnPack buffer := bool_decide (buffer = [4; 1]);
  empty_table := false;
}.
Next Obligation. by intros []. Qed.
Next Obligation. by intros []. Qed.

Lemma typed_rpc_roundtrip_witness :
  ∃ op acts bytes op' rs,
    unpack_all example_server (shuffled to_server (encode_request example_method (pack true)))
      (make_operation 0 (fingerprint_ example_key) 9) = Ok (op, acts) ∧
    List.filter is_invoke acts = [Invoke (UserHandler 1) bytes example_key] ∧
    handle bytes example_key = Handled true example_key ∧
    RpcServer.pack example_server (respond_with true) op = Ok (op', SendTo (client_endpoint_ op) <$> rs) ∧
    ∃ cop' ec result, RpcClient.unpack_all rs example_operation = Ok cop' ∧
      destroy cop' = Ok (Callback 7 ec result) ∧ on_result ec result = (None, true).
Proof.
  destruct (typed_rpc_roundtrip example_server example_key 9 example_method true 1 [] 3
    (packets_of to_server (encode_request example_method (pack true)))
    (shuffled to_server (encode_request example_method (pack true))) 0 true example_operation)
    as (op & acts & bytes & op' & rs & H1 & H2 & H3 & H4 & H5).
  - exact example_ids.
  - done.
  - done.
  - by repeat constructor.
  - by vm_compute.
  - done.
  - by vm_compute.
  - done.
  - by vm_compute.
  - apply shuffled_subset.
  - apply shuffled_superset.
  - done.
  - done.
  - done.
  - done.
  - done.
  - exists op, acts, bytes, op', rs. split; [exact H1|]. split; [exact H2|]. split; [exact H3|].
    split; [exact H4|]. by apply H5.
Defined.
