(* ===== verification/RpcLimits.v ===== *)
(** * net/rpc: where the protocol stops holding

    The offset of a fragment is a uint16_t, the flags of a header are not
    authenticated, and decrypt writes to the response before it has checked the
    tag.  The theorems of this file show what follows from each. *)

From S2P Require Import Prelude Random Fibonacci Keystore IntervalSet RpcWire RpcClient RpcServer.
From S2P Require Import RpcExamples.

Section limits.
Context `{!Aead}.

(** The packet of index [i], for messages of every size. *)
Lemma pack_loop_lookup fp k id dir n message fuel offset i :
  0 < n → 0 ≤ offset → offset + Z.of_nat i * n < zlen message →
  (length message < fuel + Z.to_nat offset)%nat →
  ∃ ps, pack_loop fuel fp k id dir n message offset = Ok ps ∧
    ps !! i = Some (make_packet fp k id dir (offset + Z.of_nat i * n)
      (Z.min (zlen message - (offset + Z.of_nat i * n)) n) (zlen message)
      (slice (offset + Z.of_nat i * n) (Z.min (zlen message - (offset + Z.of_nat i * n)) n) message)).
Proof.
  intros Hn. revert offset i. induction fuel as [|fuel IH]; intros offset i Ho Hi Hf.
  { unfold zlen in *. lia. }
  cbn [pack_loop]. set (size := Z.min (zlen message - offset) n).
  assert (span_read offset size message = Ok (slice offset size message)) as ->
    by (unfold span_read; rewrite !(proj2 (Z.leb_le _ _)) by lia; done).
  cbn [mbind result_bind].
  destruct (Z.ltb_spec (offset + size) (zlen message)) as [Hlt|Hge].
  - destruct i as [|i].
    + destruct (IH (offset + size) 0%nat) as (ps & -> & _); [lia|lia|lia|].
      eexists. split; [done|]. simpl. by rewrite Z.add_0_r.
    + assert (size = n) as Hs by lia.
      destruct (IH (offset + size) i) as (ps & -> & Hps); [lia|lia|lia|].
      eexists. split; [done|]. simpl. rewrite Hps.
      by replace (offset + size + Z.of_nat i * n) with (offset + Z.of_nat (S i) * n) by lia.
  - assert (i = 0)%nat as -> by nia. eexists. split; [done|]. simpl. by rewrite Z.add_0_r.
Qed.

Definition sealed (k : Key) (h : Header) (nonce payload : list Z) : list Z :=
  encode_header h ++ aead_seal (array_ k) nonce payload.

Lemma make_packet_sealed fp k id dir off size total payload :
  ∃ h, make_packet fp k id dir off size total payload =
       sealed k h (make_nonce id (u16 off) dir) payload ∧
    header_offset h = u16 off.
Proof.
  eexists. unfold make_packet, encrypt, sealed, zlen. rewrite Nat2Z.id, firstn_all. split; [done|done].
Qed.

(** For a message of more than 64 KiB the 16-bit offset wraps around: the first and the
    65th fragment are sealed with the same key and the same nonce, and both carry offset 0. *)
Theorem rpc_nonce_reuse fp k id dir message :
  2 ^ 16 < zlen message →
  ∃ ps p q h h', pack_fragments fp k id dir 1024 message = Ok ps ∧
    ps !! 0%nat = Some p ∧ ps !! 64%nat = Some q ∧
    p = sealed k h (make_nonce id 0 dir) (slice 0 1024 message) ∧
    q = sealed k h' (make_nonce id 0 dir)
          (slice (2 ^ 16) (Z.min (zlen message - 2 ^ 16) 1024) message) ∧
    header_offset h = 0 ∧ header_offset h' = 0.
Proof.
  intros Hl. unfold pack_fragments.
  destruct (pack_loop_lookup fp k id dir 1024 message (S (length message)) 0 0)
    as (ps & Hps & Hp); [lia|lia|lia|lia|].
  destruct (pack_loop_lookup fp k id dir 1024 message (S (length message)) 0 64)
    as (ps' & Hps' & Hq); [lia|lia|lia|lia|].
  rewrite Hps in Hps'. injection Hps' as <-.
  replace (0 + Z.of_nat 0 * 1024) with 0 in Hp by lia. rewrite (Z.min_r _ 1024) in Hp by lia.
  replace (0 + Z.of_nat 64 * 1024) with (2 ^ 16) in Hq by lia.
  destruct (make_packet_sealed fp k id dir 0 1024 (zlen message) (slice 0 1024 message)) as (h & Eh & Ho).
  destruct (make_packet_sealed fp k id dir (2 ^ 16) (Z.min (zlen message - 2 ^ 16) 1024) (zlen message)
    (slice (2 ^ 16) (Z.min (zlen message - 2 ^ 16) 1024) message)) as (h' & Eh' & Ho').
  exists ps, (sealed k h (make_nonce id 0 dir) (slice 0 1024 message)), (sealed k h' (make_nonce id 0 dir)
    (slice (2 ^ 16) (Z.min (zlen message - 2 ^ 16) 1024) message)), h, h'.
  rewrite Eh in Hp. rewrite Eh' in Hq. done.
Qed.

(** A packet whose partial flag was cleared on the way. *)
Definition clear_partial (packet : list Z) : list Z :=
  let h := decode_header packet in
  encode_header {| key_fingerprint := key_fingerprint h; request_id := request_id h;
                   header_offset := header_offset h; unused := unused h; flags := 0 |} ++
  body packet.

(** The flags of a packet are not authenticated: clearing the partial flag of the first
    packet of a response makes the client report the truncated response as complete and
    successful. *)
Theorem rpc_flags_not_authenticated {I} `{!IntervalSet I} fp k id message n
    (op : RpcClient.Operation I) :
  valid_ids fp id → valid_chunk message 0 n → zlen message ≤ 2 ^ 16 →
  RpcClient.key (RpcClient.options_ op) = k → finished_ op = false → response_ op = [] →
  response_intervals_ op = empty_intervals →
  ∃ op' acts,
    RpcClient.unpack (clear_partial (chunk_packet fp k id to_client message 0 n)) op = Ok (op', acts) ∧
    destroy op' = Ok (Callback (callback_ op) None (slice 0 n message)).
Proof.
  intros Hids Hc Hm Hk Hfin Hr Hi. pose proof Hc as (_ & ? & ?). unfold clear_partial.
  rewrite decode_chunk by done. cbn [chunk_header key_fingerprint request_id header_offset unused].
  set (h := {| key_fingerprint := _ |}). unfold RpcClient.unpack. rewrite Hfin.
  assert (wf_header h) as Hh by (destruct Hids as [[??] [??]]; repeat split; simpl; done || lia).
  rewrite decode_encode_header by done. cbn [h header_offset request_id flags].
  assert (body (encode_header h ++ body (chunk_packet fp k id to_client message 0 n)) =
          body (chunk_packet fp k id to_client message 0 n)) as ->.
  { unfold body at 1. pose proof (encode_header_length h) as Hl. unfold zlen in Hl.
    rewrite drop_app_ge by lia. by replace (24 - _)%nat with 0%nat by lia. }
  rewrite zlen_app, encode_header_length, body_chunk_length, Hr, Hk by done. unfold sizeof_Header.
  pose proof (grow_length (0 + (24 + (n + 16) - 24)) []) as [_ Hg].
  rewrite decrypt_into_chunk by (done || lia). cbn [mbind result_bind].
  rewrite (proj2 (Z.eqb_neq n size_max)) by (unfold size_max; lia).
  change (Z.land 0 partial =? 0) with true. cbv iota.
  assert (contains (add_interval 0 (0 + n) (response_intervals_ op)) 0 (0 + n) = true) as ->
    by (apply contains_spec; intros x Hx; apply covers_add; by left).
  eexists _, _. split; [done|]. unfold destroy. cbn [set_finished result_ec_ set_response response_
    response_size_]. unfold vector_resize.
  rewrite (proj2 (Z.leb_le _ _)), (proj2 (Z.ltb_lt _ _)) by lia. simpl andb. cbn [mbind result_bind].
  do 2 f_equal. unfold splice. change (Z.to_nat 0) with 0%nat. rewrite take_0. cbn [app Nat.add].
  pose proof (zlen_slice 0 n message) as Hs.
  replace (Z.to_nat (0 + n)) with (length (slice 0 n message)) by (unfold zlen in *; lia).
  rewrite resize_le by (rewrite length_app; lia). apply take_app_length.
Qed.
End limits.

(** ** A forged packet *)

Definition genuine_packet (off len : Z) : list Z :=
  chunk_packet (fingerprint_ example_key) example_key 9 to_client example_message off len.

(** The header of a genuine packet, and a body that no key sealed. *)
Definition forged_packet : list Z :=
  encode_header {| key_fingerprint := fingerprint_ example_key; request_id := 9;
                   header_offset := 0; unused := 0; flags := partial |} ++ replicate 18 255.

(** A packet that fails authentication still changes the reassembly buffer: fragments
    received before it are overwritten and the corrupted response is reported as successful. *)
Theorem rpc_forged_packet_corrupts :
  aead_open (array_ example_key) (make_nonce 9 0 to_client) (body forged_packet) = None ∧
  (op ← RpcClient.unpack_all [genuine_packet 0 2; genuine_packet 2 2] example_operation;
   destroy op) = Ok (Callback 7 None example_message) ∧
  (op ← RpcClient.unpack_all [genuine_packet 0 2; forged_packet; genuine_packet 2 2]
          example_operation;
   destroy op) = Ok (Callback 7 None [0; 0; 13; 14]).
Proof. by vm_compute. Qed.

Definition large_message : list Z := replicate (Z.to_nat 65537) 7.

Lemma rpc_nonce_reuse_witness :
  ∃ ps p q h h',
    pack_fragments (fingerprint_ example_key) example_key 9 to_client 1024 large_message = Ok ps ∧
    ps !! 0%nat = Some p ∧ ps !! 64%nat = Some q ∧
    p = sealed example_key h (make_nonce 9 0 to_client) (slice 0 1024 large_message) ∧
    q = sealed example_key h' (make_nonce 9 0 to_client)
          (slice (2 ^ 16) (Z.min (zlen large_message - 2 ^ 16) 1024) large_message) ∧
    header_offset h = 0 ∧ header_offset h' = 0.
Proof.
  apply (rpc_nonce_reuse (fingerprint_ example_key) example_key 9 to_client large_message).
  unfold large_message, zlen. rewrite length_replicate. lia.
Defined.

Lemma rpc_flags_not_authenticated_witness :
  ∃ op' acts, RpcClient.unpack (clear_partial (genuine_packet 0 2)) example_operation = Ok (op', acts) ∧
    destroy op' = Ok (Callback 7 None [11; 12]).
Proof.
  apply (rpc_flags_not_authenticated (fingerprint_ example_key) example_key 9 example_message 2 example_operation);
    [exact example_ids|by vm_compute|by vm_compute|done|done|done|done].
Defined.
