(* ===== verification/RpcLifetime.v ===== *)
(** * net/rpc/client: the life of an operation

    The client as a state machine: its user makes requests and may destroy it,
    packets with arbitrary bytes arrive, and asio completes the sends and waits
    that are pending.  Every callback runs exactly once, and the completions
    that are pending come to an end. *)

From S2P Require Import Prelude Machine Random Fibonacci Keystore IntervalSet RpcWire RpcClient.

Inductive event : Type :=
  | Request (endpoint : Z) (method req : list Z) (ro : RequestOptions) (cb : Z)
  | Receive (packet : list Z)
  | Sent (k : Z * Z)
  | Waited (k : Z * Z) (ec : option errc)
  | Destroy.

Section lifetime.
Context {G I : Type} `{!BitGen G, !IntervalSet I, !Aead}.
Implicit Types (c : Client G I) (op : Operation I).

Definition step (e : event) : ST (Client G I) (list action) :=
  match e with
  | Request endpoint method req ro cb => request endpoint method req ro cb
  | Receive packet => on_receive packet
  | Sent k => on_send k
  | Waited k ec => on_timer k ec
  | Destroy => let* _ := st_modify destroy_client in st_ret []
  end.

Definition run : list event → ST (Client G I) (list action) := run_events step.

(** What the user and asio may do: the schedule of a request does not overflow,
    the random ids do not all collide, a packet fits the receive buffer, and only
    pending sends and waits complete.  A wait does not expire once the client is
    destroyed. *)
Definition enabled c (e : event) : Prop :=
  match e with
  | Request _ _ _ ro _ =>
      alive_ c = true ∧ 0 < initial_retry ro ∧ initial_retry ro + timeout ro < 2 ^ 63 ∧
      timeout ro ≤ initial_retry ro * (fib 45 - 1) ∧
      fst (draw_id draw_fuel (fingerprint_ (key ro)) c) ≠ Hang
  | Receive packet =>
      alive_ c = true ∧ Forall is_byte packet ∧
      zlen packet ≤ receive_buffer_size (client_options_ c)
  | Sent k => ∃ op, operations_ c !! k = Some op ∧ (0 < sends_ op)%nat
  | Waited k ec =>
      (∃ op, operations_ c !! k = Some op ∧ (0 < waits_ op)%nat) ∧ (alive_ c = true ∨ ec ≠ None)
  | Destroy => alive_ c = true
  end.

Definition enabled_run : Client G I → list event → Prop := enabled_events step enabled.

Definition requested (e : event) : list Z :=
  match e with Request _ _ _ _ cb => [cb] | _ => [] end.

Definition is_completion (e : event) : bool :=
  match e with Sent _ | Waited _ _ => true | _ => false end.

Definition callback_of (a : action) : option Z :=
  match a with Callback id _ _ => Some id | _ => None end.

(** The callbacks that ran, and those of the operations that are left *)
Definition callbacks (acts : list action) : list Z := omap callback_of acts.
Definition live c : list (Operation I) := map_values (operations_ c).
Definition waiting c : list Z := callback_ <$> live c.

(** A bound on the completions of an operation: a wait that expires sends all
    packets again and waits again, for at least a nanosecond of the timeout. *)
Definition completions op : Z :=
  Z.of_nat (sends_ op) +
  Z.of_nat (waits_ op) *
    (1 + Z.max 0 (timeout (options_ op)) * (1 + zlen (request_buffers_ op))).

Definition all_completions c : Z := sum_over completions (live c).

(** ** The invariant *)

Definition options_ok (o : Options) : Prop :=
  0 < num_channels o ∧ 0 < send_fragment_size o ∧ receive_buffer_size o < 2 ^ 62.

(** What was reassembled is no longer than packets can make it. *)
Definition response_ok op : Prop :=
  (∀ x, covers (response_intervals_ op) x → x < 2 ^ 62 + 2 ^ 17) ∧
  (response_size_ op = size_max ∨ 0 ≤ response_size_ op < 2 ^ 63) ∧
  (result_ec_ op = None → response_size_ op < 2 ^ 63).

Definition operation_ok op : Prop :=
  (∃ r t i, scheduled r t i op) ∧ response_ok op.

Definition client_ok (o : Options) c : Prop :=
  client_options_ c = o ∧ 0 ≤ channels_iter_ c < num_channels o ∧
  map_Forall (λ _ op, operation_ok op ∧ (0 < refs_ op)%nat ∧ detached_ op = negb (alive_ c))
    (operations_ c).

Implicit Types (o : Options) (k : Z * Z).

(** ** Operations *)

Lemma destroy_ok op :
  response_ok op → ∃ ec response, destroy op = Ok (Callback (callback_ op) ec response).
Proof.
  intros (_ & Hs & Hn). unfold destroy. destruct (result_ec_ op) as [ec|]; [eauto|].
  specialize (Hn eq_refl). unfold vector_resize, size_max in *.
  rewrite (proj2 (Z.leb_le _ _)), (proj2 (Z.ltb_lt _ _)) by lia. simpl. eauto.
Qed.

(** What receiving a packet leaves as it was *)
Definition same_life op op' : Prop :=
  callback_ op' = callback_ op ∧ detached_ op' = detached_ op ∧ options_ op' = options_ op ∧
  wait_sequence_ op' = wait_sequence_ op ∧ request_buffers_ op' = request_buffers_ op ∧
  sends_ op' = sends_ op ∧ waits_ op' = waits_ op.

Lemma client_unpack_ok packet op :
  Forall is_byte packet → sizeof_Header ≤ zlen packet < 2 ^ 62 → response_ok op →
  ∃ op' acts, unpack packet op = Ok (op', acts) ∧ response_ok op' ∧ same_life op op' ∧
    callbacks acts = [].
Proof.
  intros Hb Hl (Hcov & Hs & Hn). unfold unpack, sizeof_Header in *.
  destruct (finished_ op); [by exists op, []|].
  pose proof (header_offset_range packet Hb) as Ho.
  set (off := header_offset _) in *. set (nonce := make_nonce _ _ _).
  assert (zlen packet - 24 = zlen (body packet)) as -> by (unfold body, zlen in *; rewrite length_drop; lia).
  assert (zlen (body packet) < 2 ^ 62) by (unfold body, zlen in *; rewrite length_drop; lia).
  pose proof (grow_length (off + zlen (body packet)) (response_ op)) as [_ Hgrow].
  destruct (decrypt_into_total (key (options_ op)) (body packet) nonce off
    (grow (off + zlen (body packet)) (response_ op)) ltac:(lia) Hgrow)
    as (n & buffer & -> & _ & Hsize). cbn [mbind result_bind].
  destruct (Z.eqb_spec n size_max) as [|Hne]; [by eexists _, _|]. destruct Hsize as [|Hsize]; [done|].
  set (intervals := add_interval _ _ _). set (size := if _ =? 0 then _ else _).
  assert (∀ x, covers intervals x → x < 2 ^ 62 + 2 ^ 17) as Hcov'.
  { intros x [Hx|Hx]%covers_add; [lia|by apply Hcov]. }
  assert (size = size_max ∨ 0 ≤ size < 2 ^ 63) as Hs' by (unfold size; destruct (_ =? 0); [lia|done]).
  destruct (contains intervals 0 size) eqn:Hc; eexists _, _; (split; [done|]); split; try done.
  - split; [done|]. split; [done|]. intros _. simpl. destruct Hs' as [Hs'|]; [|lia].
    assert (2 ^ 62 + 2 ^ 17 < 2 ^ 62 + 2 ^ 17); [|lia].
    apply Hcov'. rewrite contains_spec in Hc. apply Hc. rewrite Hs'. unfold size_max. lia.
  - split; [done|]. split; [done|]. simpl. intros Hnone. specialize (Hn Hnone).
    unfold size, size_max in *. destruct (_ =? 0); lia.
Qed.

Lemma callbacks_app l l' : callbacks (l ++ l') = callbacks l ++ callbacks l'.
Proof. apply omap_app. Qed.

Lemma callbacks_sends channel endpoint ps : callbacks (SendTo channel endpoint <$> ps) = [].
Proof. induction ps; [done|]. simpl. done. Qed.

(** ** Steps *)

(** The client without the operation [k], which is being worked on *)
Definition client_ok_but o k c : Prop :=
  client_options_ c = o ∧ 0 ≤ channels_iter_ c < num_channels o ∧
  map_Forall (λ _ op, operation_ok op ∧ (0 < refs_ op)%nat ∧ detached_ op = negb (alive_ c))
    (delete k (operations_ c)).

Definition others k c : list (Operation I) := map_values (delete k (operations_ c)).

Lemma client_ok_without o k c : client_ok o c → client_ok_but o k c.
Proof. intros (Ho & Hi & Hall). split; [done|]. split; [done|]. by apply map_Forall_delete. Qed.

Lemma client_ok_store o k op c :
  client_ok_but o k c → operation_ok op → (0 < refs_ op)%nat → detached_ op = negb (alive_ c) →
  client_ok o (set_operations (<[k := op]> (operations_ c)) c).
Proof.
  intros (Ho & Hi & Hall) Hop Hr Hd. split; [done|]. split; [done|]. simpl.
  rewrite <- insert_delete_eq. apply map_Forall_insert_2; [done|by apply Hall].
Qed.

(** Dropping a reference: the callback runs now or is left for later. *)
Lemma client_release_ok o k op c :
  client_ok_but o k c → response_ok op → ((0 < refs_ op)%nat → operation_ok op) →
  detached_ op = negb (alive_ c) →
  ∃ acts c', release k op c = (Ok acts, c') ∧ client_ok o c' ∧ alive_ c' = alive_ c ∧
    callbacks acts ++ waiting c' ≡ₚ callback_ op :: (callback_ <$> others k c) ∧
    all_completions c' = completions op + sum_over completions (others k c).
Proof.
  intros Hc Hresp Hop Hd. unfold release. destruct (refs_ op) as [|n] eqn:Hr.
  - unfold st_bind, st_get. assert (detached_ op || alive_ c = true) as ->.
    { rewrite Hd. by destruct (alive_ c). }
    destruct (destroy_ok op Hresp) as (ec & response & Hdes). unfold st_modify, st_lift.
    rewrite Hdes. eexists _, _. split; [done|]. destruct Hc as (Ho & Hi & Hall).
    split; [done|]. split; [done|]. split; [done|].
    unfold refs_ in Hr. unfold all_completions, live, completions at 2. simpl.
    replace (sends_ op) with 0%nat by lia. by replace (waits_ op) with 0%nat by lia.
  - eexists _, _. split; [done|].
    split; [apply client_ok_store; try done; [apply Hop|]; lia|]. split; [done|].
    unfold waiting, all_completions, live. cbn [set_operations operations_ callbacks omap app].
    rewrite map_values_insert. done.
Qed.

Lemma shorter_wait waits t w n :
  0 < waits → 0 < w → 0 < n → waits * (1 + (t - w) * n) + n ≤ waits * (1 + t * n).
Proof.
  intros. assert (1 * 1 ≤ waits * w) by (apply Z.mul_le_mono_nonneg; lia).
  assert (1 * n ≤ waits * w * n) by (apply Z.mul_le_mono_nonneg_r; lia). lia.
Qed.

Lemma abort_ok ec op :
  operation_ok op →
  operation_ok (fst (abort ec op)) ∧ callbacks (snd (abort ec op)) = [] ∧
  same_life op (fst (abort ec op)).
Proof.
  intros Hop. unfold abort. destruct (finished_ op); [by split_and!|].
  destruct Hop as [Hsch (? & ? & _)]. by split_and!.
Qed.

(** An operation that loses a reference of a wait has fewer completions left. *)
Lemma completions_wait op op' :
  same_life op op' → (0 < waits_ op)%nat →
  completions (set_refs (sends_ op') (waits_ op' - 1) op') < completions op.
Proof.
  intros (_ & _ & Ho & _ & Hb & Hs & Hw) H0. unfold completions. simpl. rewrite Ho, Hb, Hs, Hw.
  pose proof (zlen_nonneg (request_buffers_ op)). nia.
Qed.

Lemma send_ok o k op c :
  client_ok_but o k c → alive_ c = true → operation_ok op →
  ∃ op' acts c', send op c = (Ok (op', acts), c') ∧ client_ok_but o k c' ∧ alive_ c' = true ∧
    operations_ c' = operations_ c ∧ operation_ok op' ∧ callbacks acts = [] ∧
    callback_ op' = callback_ op ∧ detached_ op' = detached_ op ∧
    ((0 < waits_ op)%nat → completions (set_refs (sends_ op') (waits_ op' - 1) op') < completions op).
Proof.
  intros Hc Ha Hop. unfold send.
  destruct (Z.leb_spec (timeout (options_ op)) 0) as [Hle|Hgt].
  - destruct (abort_ok timed_out op Hop) as (Hop' & Hacts & Hlife).
    destruct (abort timed_out op) as [op' acts]. exists op', acts, c.
    split_and!; try done; try apply Hlife. intros. by apply completions_wait.
  - destruct Hop as [(r & t & i & Hsch) Hresp].
    destruct Hc as (Ho & Hi & Hall). unfold st_bind, st_get, st_lift, st_modify. rewrite Ho, Ha.
    rewrite (proj2 (Z.ltb_lt _ _)) by lia. cbn [andb].
    destruct (send_on_scheduled (channels_iter_ c) r t i op Hsch Hgt) as (s & w & Hw & Hw0 & -> & Hsch').
    eexists _, _, _. split; [done|]. split_and!; try done.
    + split; [done|]. split; [|done]. cbn [set_channel channels_iter_].
      destruct (Z.eqb_spec (channels_iter_ c + 1) (num_channels o)); lia.
    + split; [by exists r, t, (S i)|done].
    + by rewrite callbacks_app, callbacks_sends.
    + intros Hwaits. unfold completions. simpl. rewrite Nat.sub_0_r, !Z.max_r by lia.
      pose proof (zlen_nonneg (request_buffers_ op)).
      pose proof (shorter_wait (Z.of_nat (waits_ op)) (timeout (options_ op)) w
        (1 + zlen (request_buffers_ op))). unfold zlen in *. lia.
Qed.

(** The outcome of a step: no fault, the invariant, and the callbacks. *)
Definition step_ok o (e : event) c : Prop :=
  ∃ acts c', step e c = (Ok acts, c') ∧ client_ok o c' ∧
    callbacks acts ++ waiting c' ≡ₚ requested e ++ waiting c ∧
    (is_completion e = true → all_completions c' < all_completions c).

Lemma on_send_ok o k c : client_ok o c → enabled c (Sent k) → step_ok o (Sent k) c.
Proof.
  intros Hc (op & Hk & Hs). unfold step_ok. cbn [step]. unfold on_send, st_bind, st_get.
  rewrite Hk. pose proof Hc as (_ & _ & Hall). destruct (Hall k op Hk) as (Hop & Hr & Hd).
  destruct (client_release_ok o k (set_refs (sends_ op - 1) (waits_ op) op) c) as (acts & c' & -> & Hc' & _ & Hcb & Hn).
  - by apply client_ok_without.
  - apply Hop.
  - done.
  - done.
  - exists acts, c'. split; [done|]. split; [done|]. split.
    + rewrite Hcb. unfold waiting, live. by rewrite (map_values_lookup _ _ _ Hk).
    + intros _. rewrite Hn. unfold all_completions, live. rewrite (map_values_lookup _ _ _ Hk).
      simpl. unfold others, completions at 1 3. simpl. lia.
Qed.

Definition expire (ec : option errc) op : ST (Client G I) (Operation I * list action) :=
  match ec with
  | Some operation_canceled => st_ret (op, [])
  | Some ec => st_ret (abort ec op)
  | None => send op
  end.

Lemma expire_ok o k ec op c :
  client_ok_but o k c → alive_ c = true ∨ ec ≠ None → operation_ok op → (0 < waits_ op)%nat →
  detached_ op = negb (alive_ c) →
  ∃ op' acts c', expire ec op c = (Ok (op', acts), c') ∧ client_ok_but o k c' ∧
    operations_ c' = operations_ c ∧ operation_ok op' ∧ callbacks acts = [] ∧
    callback_ op' = callback_ op ∧ detached_ op' = negb (alive_ c') ∧
    completions (set_refs (sends_ op') (waits_ op' - 1) op') < completions op.
Proof.
  intros Hc Ha Hop Hw Hd. destruct ec as [ec|].
  - assert (∃ ac, same_life op ac.1 ∧ operation_ok ac.1 ∧ callbacks ac.2 = [] ∧
      expire (Some ec) op c = (Ok ac, c)) as ([op' acts] & Hlife & Hop' & Hacts & Heq).
    { pose proof (abort_ok ec op Hop) as (? & ? & ?).
      destruct (decide (ec = operation_canceled)) as [->|Hne]; [by exists (op, [])|].
      exists (abort ec op). split_and!; try done. by destruct ec. }
    exists op', acts, c. split_and!; try done.
    + apply Hlife.
    + by rewrite <- Hd; apply Hlife.
    + by apply completions_wait.
  - destruct Ha as [Ha|]; [|done].
    destruct (send_ok o k op c Hc Ha Hop) as (op' & acts & c' & Hs & ? & Ha' & ? & ? & ? & ? & Hd' & Hlt).
    exists op', acts, c'. split_and!; try done; [|by apply Hlt]. by rewrite Hd', Hd, Ha, Ha'.
Qed.

Lemma on_timer_ok o k ec c : client_ok o c → enabled c (Waited k ec) → step_ok o (Waited k ec) c.
Proof.
  intros Hc [(op & Hk & Hw) Ha]. pose proof Hc as (_ & _ & Hall).
  destruct (Hall k op Hk) as (Hop & Hr & Hd).
  destruct (expire_ok o k ec op c) as (op' & acts & c1 & Hrun & Hc1 & Hops & Hop' & Hacts & Hcb & Hd' & Hlt);
    [by apply client_ok_without|done..|].
  destruct (client_release_ok o k (set_refs (sends_ op') (waits_ op' - 1) op') c1)
    as (more & c' & Hrel & Hc' & _ & Hcb' & Hn); [done|apply Hop'|done|done|].
  exists (acts ++ more), c'. split; [|split; [done|split]].
  - cbn [step]. unfold on_timer, st_bind at 1, st_get. rewrite Hk. unfold st_bind at 1.
    fold (expire ec op). rewrite Hrun. unfold st_bind. by rewrite Hrel.
  - rewrite callbacks_app, Hacts. cbn [app]. rewrite Hcb'. unfold waiting, live, others.
    rewrite (map_values_lookup _ _ _ Hk), Hops. simpl. by rewrite Hcb.
  - intros _. rewrite Hn. unfold all_completions, live, others.
    rewrite (map_values_lookup _ _ _ Hk), Hops. simpl. lia.
Qed.

Lemma client_on_receive_ok o packet c :
  options_ok o → client_ok o c → enabled c (Receive packet) → step_ok o (Receive packet) c.
Proof.
  intros (_ & _ & Hbuf) Hc (Ha & Hb & Hl). pose proof Hc as (Ho & _ & Hall). rewrite Ho in Hl.
  unfold step_ok. cbn [step]. unfold on_receive, st_bind at 1, st_get. rewrite Ha. cbn [negb].
  destruct (Z.ltb_spec (zlen packet) sizeof_Header) as [|Hlen]; [by exists [], c|].
  set (k := (_, _)). destruct (operations_ c !! k) as [op|] eqn:Hk; [|by exists [], c].
  destruct (Hall k op Hk) as (Hop & Hr & Hd).
  destruct (client_unpack_ok packet op) as (op' & acts & Hun & Hresp & Hlife & Hacts);
    [done|lia|apply Hop|].
  unfold st_bind, st_lift, st_modify. rewrite Hun. eexists _, _. split; [done|].
  pose proof Hlife as (Hcb & Hd' & Hopt & Hseq & _ & Hs & Hw). split; [|split; [|done]].
  - apply client_ok_store.
    + by apply client_ok_without.
    + split; [|done]. destruct Hop as [(r & t & i & Hsch) _]. exists r, t, i.
      unfold scheduled. by rewrite Hopt, Hseq.
    + unfold refs_. by rewrite Hs, Hw.
    + by rewrite Hd'.
  - rewrite Hacts. cbn [requested app]. unfold waiting, live. cbn [set_operations operations_].
    rewrite map_values_insert, (map_values_lookup _ _ _ Hk). simpl. by rewrite Hcb.
Qed.

Lemma draw_id_ok fuel fp c :
  fst (draw_id fuel fp c) ≠ Hang →
  ∃ id g, draw_id fuel fp c = (Ok id, set_gen g c) ∧ operations_ c !! (fp, id) = None.
Proof.
  revert c. induction fuel as [|fuel IH]; intros c Hne; [done|]. cbn [draw_id] in *.
  destruct (uniform_uint64 (gen_ c)) as [id g].
  destruct (operations_ c !! (fp, id)) eqn:Hk; [|by eauto].
  destruct (IH _ Hne) as (id' & g' & -> & Hk'). eauto.
Qed.

Lemma make_operation_ok o endpoint message ro id cb :
  options_ok o →
  ∃ op, make_operation o endpoint message ro id cb = Ok op ∧ response_ok op ∧ callback_ op = cb ∧
    detached_ op = false ∧ refs_ op = 0%nat ∧ options_ op = ro ∧ wait_sequence_ op = reset.
Proof.
  intros (_ & Hf & _). unfold make_operation.
  destruct (pack_fragments_total (fingerprint_ (key ro)) (key ro) id to_server message _ Hf) as [ps ->].
  eexists. split; [done|]. split; [|done]. split; [|by split; [left|]].
  intros x Hx. by apply covers_empty in Hx.
Qed.

(** The first send of a new operation, which aborts it if its timeout is not positive *)
Lemma first_send_ok o k op c :
  client_ok_but o k c → alive_ c = true → response_ok op →
  0 < initial_retry (options_ op) ∧
    initial_retry (options_ op) + timeout (options_ op) < 2 ^ 63 ∧
    timeout (options_ op) ≤ initial_retry (options_ op) * (fib 45 - 1) →
  refs_ op = 0%nat ∧ wait_sequence_ op = reset →
  ∃ op' acts c', send op c = (Ok (op', acts), c') ∧ client_ok_but o k c' ∧
    alive_ c' = true ∧ operations_ c' = operations_ c ∧ response_ok op' ∧
    ((0 < refs_ op')%nat → operation_ok op') ∧ callbacks acts = [] ∧
    callback_ op' = callback_ op ∧ detached_ op' = detached_ op.
Proof.
  intros Hc Ha Hresp (Hr & Hb & Hmax) [Hrefs Hseq].
  destruct (Z.leb_spec (timeout (options_ op)) 0) as [Hle|Hgt].
  - unfold send. rewrite (proj2 (Z.leb_le _ _)) by done. unfold abort.
    destruct (finished_ op); eexists _, _, c; split_and!; try done; unfold refs_ in *; simpl; try lia.
    destruct Hresp as (? & ? & _). by split_and!.
  - destruct (send_ok o k op c Hc Ha) as
      (op' & acts & c' & -> & ? & ? & ? & Hop' & ? & ? & ? & _).
    { split; [|done]. exists (initial_retry (options_ op)), (timeout (options_ op)), 0%nat.
      unfold scheduled. split_and!; try done; [|lia]. change (fib 1) with 1. lia. }
    exists op', acts, c'. split_and!; try done. apply Hop'.
Qed.

Lemma request_ok o endpoint method req ro cb c :
  options_ok o → client_ok o c → enabled c (Request endpoint method req ro cb) →
  step_ok o (Request endpoint method req ro cb) c.
Proof.
  intros Ho Hc (Ha & Hr & Hb & Hmax & Hid). pose proof Hc as (Hco & Hi & Hall).
  unfold step_ok. cbn [step]. unfold request.
  set (fp := fingerprint_ (key ro)) in *. unfold st_bind at 1.
  destruct (draw_id_ok _ _ _ Hid) as (id & g & -> & Hk).
  unfold st_bind at 1, st_get. unfold st_bind at 1, st_lift. cbn [set_gen client_options_]. rewrite Hco.
  destruct (make_operation_ok o endpoint (encode_request method req) ro id cb Ho)
    as (op & -> & Hresp & Hcb & Hd & Hrefs & Hopt & Hseq).
  set (c1 := set_operations (<[(fp, id) := op]> (operations_ c)) (set_gen g c)).
  assert (client_ok_but o (fp, id) c1) as Hc1.
  { split; [done|]. split; [done|]. simpl. rewrite delete_insert_id by done. done. }
  destruct (first_send_ok o (fp, id) op c1) as
    (op' & acts & c2 & Hs & Hc2 & Ha2 & Hops & Hresp' & Hop' & Hacts & Hcb' & Hd');
    [done|done|done|by rewrite Hopt|done|].
  unfold st_bind at 1, st_modify. change (set_operations _ _) with c1.
  unfold st_bind at 1. rewrite Hs. unfold st_bind.
  destruct (client_release_ok o (fp, id) op' c2) as (more & c' & -> & Hc' & _ & Hw & _); [done..|by rewrite Hd', Hd, Ha2|].
  eexists _, _. split; [done|]. split; [done|]. split; [|done].
  rewrite callbacks_app, Hacts. cbn [app]. rewrite Hw, Hcb', Hcb. unfold others. rewrite Hops. simpl.
  by rewrite delete_insert_id.
Qed.

Lemma destroy_client_ok o c : client_ok o c → enabled c Destroy → step_ok o Destroy c.
Proof.
  intros (Ho & Hi & Hall) Ha. eexists [], _. split; [done|]. split; [|split; [|done]].
  - split; [done|]. split; [done|]. simpl. intros k op Hk. apply lookup_fmap_Some in Hk as (op0 & <- & Hk).
    destruct (Hall k op0 Hk) as (Hop & Hr & _). done.
  - unfold waiting, live. simpl. rewrite map_values_fmap, <- list_fmap_compose. done.
Qed.

Lemma client_step_all_ok o e c : options_ok o → client_ok o c → enabled c e → step_ok o e c.
Proof.
  intros Ho Hc He. destruct e.
  - by apply request_ok.
  - by apply client_on_receive_ok.
  - by apply on_send_ok.
  - by apply on_timer_ok.
  - by apply destroy_client_ok.
Qed.

(** ** Runs *)

Lemma client_run_ok o events c :
  options_ok o → client_ok o c → enabled_run c events →
  ∃ acts c', run events c = (Ok acts, c') ∧ client_ok o c' ∧
    callbacks acts ++ waiting c' ≡ₚ concat (requested <$> events) ++ waiting c ∧
    (Forall (λ e, is_completion e = true) events →
     zlen events + all_completions c' ≤ all_completions c).
Proof.
  intros Ho. revert events c. apply (run_events_ind step enabled (client_ok o)
    (λ c events acts c', callbacks acts ++ waiting c' ≡ₚ concat (requested <$> events) ++ waiting c ∧
      (Forall (λ e, is_completion e = true) events →
       zlen events + all_completions c' ≤ all_completions c))).
  - done.
  - intros c e acts c1 events more c' _ _ [Hcb Hlt] _ [Hcb' Hlt']. split.
    + rewrite callbacks_app, <- (assoc_L (++)), Hcb'. cbn [fmap list_fmap concat] in *.
      rewrite app_nil_r in Hcb.
      rewrite !(assoc (++)), (comm (++) (callbacks acts)), <- !(assoc (++)), Hcb. solve_Permutation.
    + intros [He Hes]%Forall_cons. specialize (Hlt ltac:(by constructor)). specialize (Hlt' Hes).
      rewrite zlen_cons in *. change (zlen []) with 0 in Hlt. lia.
  - intros c e Hc He. destruct (client_step_all_ok o e c Ho Hc He) as (acts & c' & Hs & Hc' & Hcb & Hlt).
    exists acts, c'. split; [done|]. split; [done|]. split.
    + cbn [fmap list_fmap concat]. by rewrite app_nil_r.
    + intros [He' _]%Forall_cons. specialize (Hlt He'). rewrite zlen_cons. change (zlen []) with 0. lia.
Qed.

Lemma make_client_ok o g : options_ok o → client_ok o (make_client o g).
Proof. intros (? & _). split; [done|]. split; [simpl; lia|]. apply map_Forall_empty. Qed.

(** An operation that is left has a completion that is pending. *)
Lemma client_progress o c :
  client_ok o c → (∀ e, is_completion e = true → ¬ enabled c e) → waiting c = [].
Proof.
  intros (_ & _ & Hall) Hstuck. unfold waiting, live.
  destruct (decide (operations_ c = ∅)) as [->|(k & op & Hk)%map_choose]; [done|].
  destruct (Hall k op Hk) as (_ & Hr & _). unfold refs_ in Hr. exfalso.
  destruct (sends_ op) as [|n] eqn:Hs.
  - apply (Hstuck (Waited k (Some operation_canceled)) eq_refl). split; [exists op|by right].
    split; [done|lia].
  - apply (Hstuck (Sent k) eq_refl). exists op. split; [done|lia].
Qed.

(** C11: For any sequence of requests, received packets (arbitrary bytes), completions of
    pending sends and waits (in any order, with any error) and the destruction of the client,
    in which schedules do not overflow and no wait expires after the destruction, the client
    runs without fault, and the callbacks that ran together with those of the operations that
    are left are exactly those of the requests: none runs twice and none is lost. *)
Theorem client_callbacks_once o (g : G) events :
  options_ok o → enabled_run (make_client o g) events →
  ∃ acts c, run events (make_client o g) = (Ok acts, c) ∧
    callbacks acts ++ waiting c ≡ₚ concat (requested <$> events).
Proof.
  intros Ho Hrun. destruct (client_run_ok o events _ Ho (make_client_ok o g Ho) Hrun)
    as (acts & c & Hr & _ & Hcb & _).
  exists acts, c. split; [done|]. by rewrite Hcb, app_nil_r.
Qed.

(** C12: In every state that the client reaches, only a bounded number of completions can
    follow without a new request, and when no completion is pending any more every callback
    has run exactly once. *)
Theorem client_drains o (g : G) events acts c rest :
  options_ok o → enabled_run (make_client o g) events →
  run events (make_client o g) = (Ok acts, c) →
  Forall (λ e, is_completion e = true) rest → enabled_run c rest →
  zlen rest ≤ all_completions c ∧
  ∃ more c', run rest c = (Ok more, c') ∧
    ((∀ e, is_completion e = true → ¬ enabled c' e) →
     callbacks (acts ++ more) ≡ₚ concat (requested <$> events)).
Proof.
  intros Ho Hrun Hr Hcomp Hrun'. destruct (client_run_ok o events _ Ho (make_client_ok o g Ho) Hrun)
    as (acts0 & c0 & Hr0 & Hc & Hcb & _). rewrite Hr in Hr0. injection Hr0 as <- <-.
  destruct (client_run_ok o rest c Ho Hc Hrun') as (more & c' & Hr' & Hc' & Hcb' & Hlt).
  specialize (Hlt Hcomp). split.
  - assert (0 ≤ all_completions c'); [|lia]. apply sum_over_nonneg, Forall_forall. intros op _.
    unfold completions. pose proof (zlen_nonneg (request_buffers_ op)). nia.
  - exists more, c'. split; [done|]. intros Hstuck.
    rewrite (client_progress o c' Hc' Hstuck), app_nil_r in Hcb'.
    assert (concat (requested <$> rest) = []) as Hnone.
    { clear -Hcomp. induction Hcomp as [|e es He _ IH]; [done|].
      by destruct e. }
    rewrite Hnone in Hcb'. rewrite callbacks_app, Hcb', Hcb. simpl. by rewrite app_nil_r.
Qed.

(** A wait that expires after the client was destroyed: send uses the client. *)
Theorem client_destroyed_wait c k op :
  operations_ c !! k = Some op → 0 < timeout (options_ op) →
  fst (run [Destroy; Waited k None] c) = Crash.
Proof.
  intros Hk Ht. simpl. unfold st_bind, on_timer, st_bind, st_get. simpl.
  rewrite lookup_fmap, Hk. simpl. unfold send. simpl. rewrite (proj2 (Z.leb_gt _ _)) by done. done.
Qed.
End lifetime.

(** ** A request, a retry, and the end of the client *)

Definition example_options : Options :=
  {| num_channels := 1; send_fragment_size := 1024; receive_buffer_size := 2048 |}.

Definition example_request : event :=
  Request 0 [103; 101; 116] [5; 6]
    {| key := make_key [1; 2; 3]; timeout := 2000; initial_retry := 200 |} 5.

Definition new_client : Client lcg (list (Z * Z)) :=
  make_client example_options {| lcg_state := 1 |}.

Definition requested_client : Client lcg (list (Z * Z)) := snd (step example_request new_client).

Definition example_k : Z * Z :=
  match map_to_list (operations_ requested_client) with (k, _) :: _ => k | [] => (0, 0) end.

Ltac enabled_pending := eexists; (split; [vm_compute; reflexivity|simpl; lia]).

Lemma example_options_ok : options_ok example_options.
Proof. by split_and!. Qed.

Lemma example_request_enabled : enabled new_client example_request.
Proof. split_and!; by vm_compute. Qed.

Lemma client_callbacks_once_witness :
  ∃ acts c, run [example_request; Sent example_k; Waited example_k None; Destroy; Sent example_k;
      Waited example_k (Some operation_canceled)] new_client = (Ok acts, c) ∧
    callbacks acts ++ waiting c ≡ₚ [5].
Proof.
  refine (client_callbacks_once example_options {| lcg_state := 1 |} [example_request; Sent example_k;
    Waited example_k None; Destroy; Sent example_k; Waited example_k (Some operation_canceled)]
    example_options_ok _).
  split; [exact example_request_enabled|]. split; [enabled_pending|].
  split; [split; [enabled_pending|left; by vm_compute]|]. split; [by vm_compute|].
  split; [enabled_pending|]. split; [|done]. split; [enabled_pending|by right].
Defined.

Lemma client_drains_witness :
  zlen [Sent example_k; Waited example_k (Some operation_canceled)] ≤
    all_completions requested_client ∧
  ∃ more c', run [Sent example_k; Waited example_k (Some operation_canceled)] requested_client =
      (Ok more, c') ∧ callbacks more = [5] ∧ operations_ c' = ∅.
Proof.
  destruct (client_drains example_options {| lcg_state := 1 |} [example_request]
    (match fst (run [example_request] new_client) with Ok acts => acts | _ => [] end)
    requested_client
    [Sent example_k; Waited example_k (Some operation_canceled)]) as [H _].
  - exact example_options_ok.
  - split; [exact example_request_enabled|done].
  - vm_compute. reflexivity.
  - by repeat constructor.
  - split; [enabled_pending|]. split; [|done]. split; [enabled_pending|by right].
  - split; [exact H|]. eexists _, _. split; [vm_compute; reflexivity|done].
Defined.

Lemma client_destroyed_wait_witness :
  fst (run [Destroy; Waited example_k None] requested_client) = Crash.
Proof.
  eapply (client_destroyed_wait requested_client example_k); [vm_compute; reflexivity|done].
Defined.
