(* ===== verification/RpcServerLifetime.v ===== *)
(** * net/rpc/server: the life of an operation

    The server as a state machine: packets with arbitrary bytes arrive, handlers
    answer, asio completes what is pending, and the server may be destroyed.  No
    sequence of these makes a fault, and the reference counts are exact: an
    operation is in the table exactly as long as something that was started for
    it is pending. *)

From S2P Require Import Prelude Machine Random Keystore IntervalSet RpcWire RpcServer.

Inductive event : Type :=
  | Register (name : list Z) (h : Handler)
  | AddKey (k : Key)
  | Receive (endpoint : Z) (packet : list Z)
  | Response (k : Z * Z) (response : list Z)
  | Drop (k : Z * Z)
  | Destroy.

Section lifetime.
Context {I : Type} `{!IntervalSet I, !Aead}.
Implicit Types (s : Server I) (op : Operation I) (o : Options) (k : Z * Z).

Definition step (e : event) : ST (Server I) (list action) :=
  match e with
  | Register name h => let* _ := st_modify (register name h) in st_ret []
  | AddKey k => let* _ := st_modify (add_key k) in st_ret []
  | Receive endpoint packet => on_receive endpoint packet
  | Response k response => on_response k response
  | Drop k => on_drop k
  | Destroy => let* _ := st_modify destroy_server in st_ret []
  end.

Definition run : list event → ST (Server I) (list action) := run_events step.

(** A packet fits the receive buffer; handlers answer while the server exists;
    only what is pending for an operation completes. *)
Definition enabled s (e : event) : Prop :=
  match e with
  | Receive _ packet =>
      alive_ s = true ∧ Forall is_byte packet ∧ zlen packet ≤ receive_buffer_size (options_ s)
  | Response k _ => alive_ s = true ∧ is_Some (operations_ s !! k)
  | Drop k => is_Some (operations_ s !! k)
  | Register _ _ | AddKey _ | Destroy => alive_ s = true
  end.

Definition enabled_run : Server I → list event → Prop := enabled_events step enabled.

(** The actions whose completion holds a reference *)
Definition holds (a : action) : Z :=
  match a with
  | SendTo _ _ | KeepAlive => 1
  | Invoke PingHandler _ _ => 0
  | Invoke _ _ _ => 1
  end.

Definition started (acts : list action) : Z := sum_over holds acts.

Definition drops (e : event) : Z := match e with Drop _ => 1 | _ => 0 end.

(** The references that are held *)
Definition held s : Z := sum_over (λ op, Z.of_nat (refs_ op)) (map_values (operations_ s)).

(** ** The invariant *)

Definition options_ok o : Prop :=
  0 < send_fragment_size o ∧ receive_buffer_size o < 2 ^ 62.

(** Until the request is complete, the buffer holds what was covered. *)
Definition request_ok op : Prop :=
  (∀ x, covers (request_intervals_ op) x → x < 2 ^ 62 + 2 ^ 17) ∧
  (request_size_ op = size_max ∨ 0 ≤ request_size_ op < 2 ^ 63) ∧
  (contains (request_intervals_ op) 0 (request_size_ op) = true ∨
   ∀ x, covers (request_intervals_ op) x → x < zlen (request_ op)).

(** What is pending was started with a key. *)
Definition operation_ok op : Prop :=
  request_ok op ∧ ((0 < refs_ op)%nat → is_Some (key_ op)).

Definition server_ok o s : Prop :=
  options_ s = o ∧
  map_Forall (λ _ op, operation_ok op ∧ (0 < refs_ op)%nat ∧ detached_ op = negb (alive_ s))
    (operations_ s).

(** ** Operations *)

(** The operation [op'] that an operation became, with the actions it started *)
Definition became op op' (acts : list action) : Prop :=
  operation_ok op' ∧ detached_ op' = detached_ op ∧
  Z.of_nat (refs_ op') = Z.of_nat (refs_ op) + started acts.

Lemma started_sends endpoint ps : started (SendTo endpoint <$> ps) = zlen ps.
Proof.
  induction ps as [|p ps IH]; [done|].
  by rewrite fmap_cons, zlen_cons, <- IH.
Qed.

Lemma started_app l l' : started (l ++ l') = started l + started l'.
Proof. apply sum_over_app. Qed.

Lemma respond_ok op :
  request_ok op → is_Some (key_ op) → became op (fst (respond op)) (snd (respond op)).
Proof.
  intros Hr Hk. split; [by split|]. split; [done|]. simpl. rewrite started_sends. unfold zlen. lia.
Qed.

Lemma pack_ok s response op :
  0 < send_fragment_size (options_ s) → request_ok op → is_Some (key_ op) →
  ∃ op' acts, pack s response op = Ok (op', acts) ∧ became op op' acts.
Proof.
  intros Hf Hr [key Hk]. unfold pack. rewrite Hk.
  destruct (pack_fragments_total (key_fingerprint_ op) key (request_id_ op) to_client response _ Hf)
    as [ps ->]. cbn [mbind result_bind].
  set (op1 := set_response_buffers _ _).
  pose proof (respond_ok op1 Hr (ex_intro _ key Hk)) as Hb.
  eexists _, _. split; [done|]. exact Hb.
Qed.

Lemma scan_back_total n l : (n ≤ length l)%nat → ∃ e, scan_back n l = Ok e.
Proof.
  induction n as [|n IH]; intros Hn; [by eexists|]. cbn [scan_back].
  destruct (lookup_lt_is_Some_2 l n) as [b ->]; [lia|]. destruct (b =? 0); [by eexists|].
  apply IH. lia.
Qed.

Lemma server_handle_ok s op :
  0 < send_fragment_size (options_ s) → request_ok op → is_Some (key_ op) →
  contains (request_intervals_ op) 0 (request_size_ op) = true →
  request_size_ op ≤ zlen (request_ op) →
  ∃ op' acts, handle s op = Ok (op', acts) ∧ became op op' acts.
Proof.
  intros Hf Hr Hk Hc Hlen. unfold handle. rewrite (proj2 (Z.ltb_ge _ _)) by done.
  destruct (scan_back_total (Z.to_nat (request_size_ op)) (request_ op)) as [e ->].
  { unfold zlen in Hlen. lia. }
  cbn [mbind result_bind]. set (method := take _ _).
  destruct (handlers_ s !! method) as [h|].
  2:{ exists op, []. split; [done|]. split; [done|]. split; [done|]. unfold started. simpl. lia. }
  destruct Hk as [key Hk]. rewrite Hk. set (request := take _ _). set (op1 := set_request _ _ _ _ _).
  assert (request_ok op1) as Hr1 by (destruct Hr as (? & ? & _); split_and!; try done; by left).
  destruct h.
  - unfold ping_handle. destruct (pack_ok s request op1 Hf Hr1) as (op' & acts & -> & Hb); [by exists key|].
    eexists _, _. split; [done|]. exact Hb.
  - eexists _, _. split; [done|]. split; [by split|]. split; [done|]. unfold started. simpl. lia.
  - eexists _, _. split; [done|]. split; [by split|]. split; [done|]. unfold started. simpl. lia.
Qed.

Lemma try_keys_ok keys input nonce off buffer :
  0 ≤ off → off + zlen input ≤ zlen buffer →
  ∃ n buffer' key, try_keys keys input nonce off buffer = Ok (n, buffer', key) ∧
    zlen buffer' = zlen buffer ∧
    (n = size_max ∧ key = None ∨ 0 ≤ n ≤ zlen input ∧ is_Some key).
Proof.
  intros Ho. revert buffer. induction keys as [|key keys IH]; intros buffer Hl; cbn [try_keys].
  { exists size_max, buffer, None. split_and!; try done. by left. }
  destruct (decrypt_into_total key input nonce off buffer Ho Hl) as (n & buffer' & -> & Hb & Hn).
  cbn [mbind result_bind]. destruct (Z.eqb_spec n size_max) as [|Hne].
  - destruct (IH buffer') as (n' & b' & key' & H1 & H2 & H3); [lia|]. exists n', b', key'.
    split_and!; [done|lia|done].
  - exists n, buffer', (Some key). split_and!; [done|done|]. right. split; [|done].
    by destruct Hn.
Qed.

(** The first half of unpack: decrypting with the key, or with a key that fits *)
Lemma unpack_decrypts s packet op off nonce buffer :
  0 ≤ off → off + zlen (body packet) ≤ zlen buffer →
  ∃ n buffer' key acts,
    match key_ op with
    | Some key =>
        '(decrypt_result, buffer) ← decrypt_into key (body packet) nonce off buffer;
        Ok (decrypt_result, buffer, Some key, [])
    | None =>
        '(decrypt_result, buffer, key) ←
          try_keys (find (key_fingerprint (decode_header packet)) (keystore_ s)) (body packet) nonce
            off buffer;
        Ok (decrypt_result, buffer, key, if decrypt_result =? size_max then [] else [KeepAlive])
    end = Ok (n, buffer', key, acts) ∧ zlen buffer' = zlen buffer ∧
    (is_Some (key_ op) → is_Some key) ∧ started acts = zlen acts ∧
    (n = size_max ∨ 0 ≤ n ≤ zlen (body packet) ∧ is_Some key).
Proof.
  intros Ho Hl. destruct (key_ op) as [key|].
  - destruct (decrypt_into_total key (body packet) nonce off buffer Ho Hl) as (n & b & -> & Hb & Hn).
    eexists _, _, _, _. split; [done|]. split_and!; try done.
    destruct Hn; [by left|right; by split].
  - edestruct try_keys_ok as (n & b & key & -> & Hb & Hn); [done..|].
    eexists _, _, _, _. split; [done|]. split_and!; try done.
    + by destruct (n =? size_max).
    + destruct Hn as [[? _]|?]; [by left|by right].
Qed.

(** Storing a fragment keeps the bounds. *)
Lemma request_ok_store key buffer op :
  request_ok op → zlen (request_ op) ≤ zlen buffer →
  request_ok (set_request key buffer (request_intervals_ op) (request_size_ op) op).
Proof.
  intros (Hc & Hs & Hcov) Hl. split; [done|]. split; [done|]. destruct Hcov as [|Hcov]; [by left|].
  right. intros x Hx. specialize (Hcov x Hx). simpl. lia.
Qed.

Lemma request_ok_add off n size op :
  request_ok op → contains (request_intervals_ op) 0 (request_size_ op) = false →
  0 ≤ off < 2 ^ 16 → 0 ≤ n < 2 ^ 62 → off + n ≤ zlen (request_ op) →
  size = off + n ∨ size = request_size_ op →
  let op' := set_request (key_ op) (request_ op)
    (add_interval off (off + n) (request_intervals_ op)) size op in
  request_ok op' ∧
  (contains (request_intervals_ op') 0 size = true → size ≤ zlen (request_ op)).
Proof.
  intros (Hc & Hs & Hcov) Hcont Ho Hn Hl Hsize op'.
  destruct Hcov as [Hcov|Hcov]; [congruence|].
  assert (∀ x, covers (request_intervals_ op') x → x < 2 ^ 62 + 2 ^ 17 ∧ x < zlen (request_ op)) as Hx.
  { intros x [Hx|Hx]%covers_add; [lia|]. split; [by apply Hc|by apply Hcov]. }
  split; [split_and!|].
  - intros x H1. by apply Hx.
  - simpl. destruct Hsize as [->| ->]; [lia|done].
  - right. intros x H1. by apply Hx.
  - intros Hall. rewrite contains_spec in Hall. pose proof (zlen_nonneg (request_ op)).
    destruct (Z.le_gt_cases size 0); [lia|].
    destruct (Hx (size - 1)); [apply Hall; lia|lia].
Qed.

Lemma server_unpack_ok s packet op :
  0 < send_fragment_size (options_ s) → Forall is_byte packet →
  sizeof_Header ≤ zlen packet < 2 ^ 62 → operation_ok op →
  ∃ op' acts, unpack s packet op = Ok (op', acts) ∧ became op op' acts.
Proof.
  intros Hf Hb Hl [Hr Hkey]. unfold unpack, sizeof_Header in *.
  pose proof (header_offset_range packet Hb) as Ho.
  assert (zlen packet - 24 = zlen (body packet)) as -> by (unfold body, zlen in *; rewrite length_drop; lia).
  assert (zlen (body packet) < 2 ^ 62) as Hbody by (unfold body, zlen in *; rewrite length_drop; lia).
  set (off := header_offset (decode_header packet)) in *. set (nonce := make_nonce _ _ _).
  pose proof (grow_length (off + zlen (body packet)) (request_ op)) as [Hg1 Hg2].
  set (buffer := grow _ _) in *.
  destruct (unpack_decrypts s packet op off nonce buffer ltac:(lia) Hg2)
    as (n & buffer' & key & acts & -> & Hlen & Hk & Hst & Hn). cbn [mbind result_bind].
  pose proof (request_ok_store key buffer' op Hr ltac:(lia)) as Hr1.
  destruct (Z.eqb_spec n size_max) as [|Hne].
  { eexists _, _. split; [done|]. split; [split; [done|]|split; [done|unfold started; simpl; lia]].
    intros Hpos. by apply Hk, Hkey. }
  destruct Hn as [|[Hn Hsome]]; [done|]. set (op1 := set_request key buffer' _ _ op) in *.
  set (op2 := add_refs (length acts) op1).
  assert (Z.of_nat (refs_ op2) = Z.of_nat (refs_ op) + started acts) as Hrefs
    by (rewrite Hst; unfold zlen; simpl; lia).
  destruct (contains (request_intervals_ op2) 0 (request_size_ op2)) eqn:Hc.
  - destruct (Z.land _ _ =? 0).
    + destruct (respond_ok op2 Hr1 Hsome) as (Hop & Hd & Hm). eexists _, _. split; [done|].
      split; [done|]. split; [done|]. rewrite started_app, Z.add_assoc, <- Hrefs. exact Hm.
    + eexists _, _. split; [done|]. split; [by split|]. split; [done|]. done.
  - set (size := if Z.land _ _ =? 0 then _ else _).
    destruct (request_ok_add off n size op2 Hr1 Hc) as [Hr3 Hfit]; [lia|lia|simpl; lia|
      unfold size; destruct (_ =? 0); [by left|by right]|].
    set (op3 := set_request _ _ _ _ op2) in *. change (add_interval _ _ _) with (request_intervals_ op3).
    destruct (contains (request_intervals_ op3) 0 size) eqn:Hc3.
    + destruct (server_handle_ok s op3 Hf Hr3 Hsome Hc3 (Hfit eq_refl)) as (op' & more & -> & Hop & Hd & Hm).
      eexists _, _. split; [done|]. split; [done|]. split; [done|].
      rewrite started_app, Z.add_assoc, <- Hrefs. exact Hm.
    + eexists _, _. split; [done|]. split; [by split|]. split; [done|]. done.
Qed.

(** ** Steps *)

Definition server_ok_but o k s : Prop :=
  options_ s = o ∧
  map_Forall (λ _ op, operation_ok op ∧ (0 < refs_ op)%nat ∧ detached_ op = negb (alive_ s))
    (delete k (operations_ s)).

Definition held_by_others k s : Z :=
  sum_over (λ op, Z.of_nat (refs_ op)) (map_values (delete k (operations_ s))).

Lemma server_ok_without o k s : server_ok o s → server_ok_but o k s.
Proof. intros [Ho Hall]. split; [done|]. by apply map_Forall_delete. Qed.

Lemma held_lookup k op s :
  operations_ s !! k = Some op → held s = Z.of_nat (refs_ op) + held_by_others k s.
Proof. intros Hk. unfold held. by rewrite (map_values_lookup _ _ _ Hk). Qed.

Lemma server_store_ok o k op s :
  server_ok_but o k s → operation_ok op → (0 < refs_ op)%nat → detached_ op = negb (alive_ s) →
  let s' := set_operations (<[k := op]> (operations_ s)) s in
  server_ok o s' ∧ held s' = Z.of_nat (refs_ op) + held_by_others k s.
Proof.
  intros [Ho Hall] Hop Hr Hd. split.
  - split; [done|]. simpl. rewrite <- insert_delete_eq. by apply map_Forall_insert_2.
  - unfold held. simpl. by rewrite map_values_insert.
Qed.

Lemma server_release_ok o k op s :
  server_ok_but o k s → operation_ok op → detached_ op = negb (alive_ s) →
  ∃ s', release k op s = (Ok tt, s') ∧ server_ok o s' ∧
    held s' = Z.of_nat (refs_ op) + held_by_others k s.
Proof.
  intros Hs Hop Hd. unfold release. destruct (refs_ op) as [|n] eqn:Hr.
  - unfold st_bind, st_get. assert (detached_ op || alive_ s = true) as ->.
    { rewrite Hd. by destruct (alive_ s). }
    eexists. split; [done|]. by destruct Hs.
  - eexists. split; [done|]. rewrite <- Hr. apply server_store_ok; try done. lia.
Qed.

(** The outcome of a step: no fault, the invariant, and the references. *)
Definition step_ok o (e : event) s : Prop :=
  ∃ acts s', step e s = (Ok acts, s') ∧ server_ok o s' ∧
    held s' + drops e = held s + started acts.

Lemma server_on_receive_ok o endpoint packet s :
  options_ok o → server_ok o s → enabled s (Receive endpoint packet) →
  step_ok o (Receive endpoint packet) s.
Proof.
  intros (Hf & Hbuf) Hs (Ha & Hb & Hl). pose proof Hs as [Ho Hall]. rewrite Ho in Hl.
  unfold step_ok. cbn [step]. unfold on_receive, st_bind at 1, st_get. rewrite Ha. cbn [negb].
  destruct (Z.ltb_spec (zlen packet) sizeof_Header) as [|Hlen].
  { exists [], s. split; [done|]. split; [done|]. unfold started. simpl. lia. }
  set (k := (key_fingerprint _, request_id _)). set (op := match _ with Some _ => _ | None => _ end).
  assert (operation_ok op ∧ detached_ op = false ∧
    held s = Z.of_nat (refs_ op) + held_by_others k s) as (Hop & Hd & Hheld).
  { unfold op. destruct (operations_ s !! k) as [op0|] eqn:Hk.
    - destruct (Hall k op0 Hk) as (Hop & _ & Hd). rewrite Ha in Hd.
      split; [done|]. split; [done|]. exact (held_lookup k op0 s Hk).
    - split; [split; [|simpl; lia]|split; [done|]].
      + split; [|split; [by left|right]]; intros x Hx; by apply covers_empty in Hx.
      + unfold held, held_by_others. by rewrite delete_id. }
  destruct (server_unpack_ok s packet op) as (op' & acts & Hun & Hop' & Hd' & Hrefs);
    [by rewrite Ho|done|lia|done|].
  destruct (server_release_ok o k op' s) as (s' & Hrel & Hs' & Hheld');
    [by apply server_ok_without|done|by rewrite Hd', Hd, Ha|].
  exists acts, s'. unfold st_bind, st_lift. rewrite Hun, Hrel. split; [done|]. split; [done|].
  simpl. lia.
Qed.

Lemma on_response_ok o k response s :
  options_ok o → server_ok o s → enabled s (Response k response) → step_ok o (Response k response) s.
Proof.
  intros (Hf & _) Hs (Ha & op & Hk). pose proof Hs as [Ho Hall].
  destruct (Hall k op Hk) as ([Hr Hkey] & Hpos & Hd).
  unfold step_ok. cbn [step]. unfold on_response, st_bind, st_get, st_lift, st_modify. rewrite Hk, Ha.
  destruct (pack_ok s response op) as (op' & acts & -> & Hop' & Hd' & Hrefs);
    [by rewrite Ho|done|by apply Hkey|].
  assert (0 ≤ started acts).
  { apply sum_over_nonneg, Forall_forall. intros a _. by destruct a as [| |[] ? ?]. }
  destruct (server_store_ok o k op' s) as [Hs' Hheld]; [by apply server_ok_without|done|lia|by rewrite Hd'|].
  eexists _, _. split; [done|]. split; [done|]. rewrite Hheld, (held_lookup k op) by done. simpl. lia.
Qed.

Lemma on_drop_ok o k s : server_ok o s → enabled s (Drop k) → step_ok o (Drop k) s.
Proof.
  intros Hs [op Hk]. pose proof Hs as [Ho Hall]. destruct (Hall k op Hk) as ([Hr Hkey] & Hpos & Hd).
  unfold step_ok. cbn [step]. unfold on_drop, st_bind, st_get. rewrite Hk.
  destruct (server_release_ok o k (drop_ref op) s) as (s' & -> & Hs' & Hheld);
    [by apply server_ok_without|split; [done|intros _; by apply Hkey]|done|].
  exists [], s'. split; [done|]. split; [done|]. rewrite Hheld, (held_lookup k op) by done.
  unfold started. simpl. lia.
Qed.

Lemma destroy_server_ok o s : server_ok o s → step_ok o Destroy s.
Proof.
  intros [Ho Hall]. eexists [], _. split; [done|]. split.
  - split; [done|]. simpl. intros k op (op0 & <- & Hk)%lookup_fmap_Some.
    by destruct (Hall k op0 Hk) as (Hop & Hr & _).
  - unfold held. simpl. rewrite map_values_fmap. unfold started. simpl. rewrite !Z.add_0_r.
    induction (map_values (operations_ s)) as [|op ops IH]; [done|].
    rewrite fmap_cons. simpl in *. lia.
Qed.

Lemma server_step_all_ok o e s : options_ok o → server_ok o s → enabled s e → step_ok o e s.
Proof.
  intros Ho Hs He. destruct e.
  - eexists [], _. split; [done|]. unfold register. by destruct (_ !! _).
  - by eexists [], _.
  - by apply server_on_receive_ok.
  - by apply on_response_ok.
  - by apply on_drop_ok.
  - by apply destroy_server_ok.
Qed.

Lemma server_run_ok o events s :
  options_ok o → server_ok o s → enabled_run s events →
  ∃ acts s', run events s = (Ok acts, s') ∧ server_ok o s' ∧
    held s' + sum_over drops events = held s + started acts.
Proof.
  intros Ho. revert events s. apply (run_events_ind step enabled (server_ok o)
    (λ s events acts s', held s' + sum_over drops events = held s + started acts)).
  - done.
  - intros s e acts s1 events more s' _ _ H1 _ H2. rewrite started_app. simpl in *. lia.
  - intros s e Hs He. destruct (server_step_all_ok o e s Ho Hs He) as (acts & s' & ? & ? & ?).
    exists acts, s'. simpl. by rewrite Z.add_0_r.
Qed.

Lemma make_server_ok o : server_ok o (make_server o).
Proof. split; [done|]. apply map_Forall_empty. Qed.

(** The table is empty when no reference is held. *)
Lemma held_zero o s : server_ok o s → held s = 0 ↔ operations_ s = ∅.
Proof.
  intros [_ Hall]. split; [|by intros Hops; unfold held; rewrite Hops].
  destruct (decide (operations_ s = ∅)) as [|(k & op & Hk)%map_choose]; [done|].
  destruct (Hall k op Hk) as (_ & Hr & _). rewrite (held_lookup k op) by done. intros Hz.
  assert (0 ≤ held_by_others k s); [|lia]. apply sum_over_nonneg, Forall_forall. intros; lia.
Qed.

(** C13: For any sequence of received packets (arbitrary bytes), answers of handlers,
    completions, registrations and the destruction of the server, in which handlers answer
    while the server exists, the server runs without fault, the references to its operations
    are exactly what was started and has not completed, and no operation is left in the table
    exactly when all of it has completed. *)
Theorem server_references o events :
  options_ok o → enabled_run (make_server o) events →
  ∃ acts s, run events (make_server o) = (Ok acts, s) ∧
    held s = started acts - sum_over drops events ∧
    (operations_ s = ∅ ↔ started acts = sum_over drops events).
Proof.
  intros Ho Hrun. destruct (server_run_ok o events _ Ho (make_server_ok o) Hrun) as (acts & s & Hr & Hs & Hheld).
  exists acts, s. split; [done|]. change (held (make_server o)) with 0 in Hheld.
  split; [lia|]. rewrite <- (held_zero o s Hs). lia.
Qed.

(** A handler that answers after the server was destroyed: pack uses the server. *)
Theorem server_destroyed_response s k op response :
  operations_ s !! k = Some op → fst (run [Destroy; Response k response] s) = Crash.
Proof.
  intros Hk. simpl. unfold st_bind, on_response, st_bind, st_get. simpl. by rewrite lookup_fmap, Hk.
Qed.
End lifetime.

(** ** A ping, and a packet of garbage *)

Definition example_options : Options := {| send_fragment_size := 1024; receive_buffer_size := 2048 |}.

Definition ping_packet : list Z :=
  match pack_fragments (fingerprint_ zero_key) zero_key 9 to_server 1024 ping_name with
  | Ok [p] => p
  | _ => []
  end.

Definition ping_events : list event :=
  [Receive 0 ping_packet; Receive 1 (replicate 40 255); Drop (fingerprint_ zero_key, 9); Destroy;
   Drop (fingerprint_ zero_key, 9)].

Definition new_server : Server (list (Z * Z)) := make_server example_options.

Lemma ping_enabled : enabled_run new_server ping_events.
Proof.
  assert (Forall is_byte ping_packet) by (apply (bool_decide_unpack _); by vm_compute).
  split; [split_and!; [done|done|by vm_compute]|].
  split; [split_and!; [done|apply (bool_decide_unpack _); by vm_compute|by vm_compute]|].
  split; [eexists; vm_compute; reflexivity|].
  split; [by vm_compute|].
  split; [eexists; vm_compute; reflexivity|done].
Qed.

Lemma server_references_witness :
  ∃ acts s, run ping_events new_server = (Ok acts, s) ∧
    held s = started acts - 2 ∧ operations_ s = ∅.
Proof.
  destruct (server_references example_options ping_events) as (acts & s & H1 & H2 & H3).
  - by split.
  - exact ping_enabled.
  - exists acts, s. split; [exact H1|]. split; [exact H2|]. apply H3.
    assert (fst (run ping_events new_server) = Ok acts) as H4 by exact (f_equal fst H1).
    vm_compute in H4. injection H4 as <-. reflexivity.
Defined.
