(* ===== verification/NetTypes.v ===== *)
(** * net/ip-encoding and net/types: addresses, hosts and ports

    Strings are lists of bytes.  The textual form of addresses (asio) and of a
    port (absl::StrCat) is not part of the repository: [Text] is the interface
    of the calls, with the documented behaviour that the sources rely on. *)

From S2P Require Import Prelude ConsumeInt.

(** address_v4 and address_v6 by their bytes_type; a v6 address has a scope id. *)
Inductive address : Type :=
  | address_v4 (bytes : list Z)
  | address_v6 (bytes : list Z) (scope_id : Z).

#[export] Instance address_eq_dec : EqDecision address.
Proof. solve_decision. Defined.

Definition is_v4 (a : address) : bool := match a with address_v4 _ => true | _ => false end.

(** The default address() of asio, and address::is_unspecified *)
Definition any_v4 : address := address_v4 (replicate 4 0).
Definition any_v6 : address := address_v6 (replicate 16 0) 0.

Definition is_unspecified (a : address) : bool :=
  match a with
  | address_v4 bytes => forallb (Z.eqb 0) bytes
  | address_v6 bytes _ => forallb (Z.eqb 0) bytes
  end.

(** ** net/ip-encoding *)

(** encode *)
Definition encode (a : address) : list Z :=
  match a with
  | address_v4 bytes => bytes
  | address_v6 bytes _ => bytes
  end.

(** decode to an address, to an address_v4 and to an address_v6 *)
Definition decode (bytes : list Z) : option address :=
  if (length bytes =? 4)%nat then Some (address_v4 bytes)
  else if (length bytes =? 16)%nat then Some (address_v6 bytes 0)
  else None.

Definition decode_v4 (bytes : list Z) : option address :=
  if negb (length bytes =? 4)%nat then None else Some (address_v4 bytes).

Definition decode_v6 (bytes : list Z) : option address :=
  if negb (length bytes =? 16)%nat then None else Some (address_v6 bytes 0).

Definition wf_address (a : address) : Prop :=
  match a with
  | address_v4 bytes => length bytes = 4%nat ∧ Forall is_byte bytes
  | address_v6 bytes scope => length bytes = 16%nat ∧ Forall is_byte bytes ∧ in_u 32 scope
  end.

(** The address that is left of [a] without its scope. *)
Definition without_scope (a : address) : address :=
  match a with
  | address_v4 bytes => address_v4 bytes
  | address_v6 bytes _ => address_v6 bytes 0
  end.

(** decode is the inverse of encode on addresses up to the IPv6 scope id, which the
    encoding drops; encode is the inverse of decode; and decode fails exactly on sizes other
    than 4 and 16. *)
Theorem ip_encoding_roundtrip :
  (∀ a, wf_address a →
     decode (encode a) = Some (without_scope a) ∧
     (if is_v4 a then decode_v4 else decode_v6) (encode a) = Some (without_scope a) ∧
     (if is_v4 a then decode_v6 else decode_v4) (encode a) = None) ∧
  (∀ bytes a, Forall is_byte bytes → decode bytes = Some a →
     encode a = bytes ∧ wf_address a ∧ without_scope a = a) ∧
  (∀ bytes, decode bytes = None ↔ length bytes ≠ 4%nat ∧ length bytes ≠ 16%nat).
Proof.
  unfold decode, decode_v4, decode_v6. split_and!.
  - intros [bytes|bytes scope] [Hwf _]; simpl in *; by rewrite Hwf.
  - intros bytes a Hb. destruct (Nat.eqb_spec (length bytes) 4) as [H4|]; [by intros [= <-]|].
    destruct (Nat.eqb_spec (length bytes) 16) as [H16|]; by intros [= <-].
  - intros bytes. destruct (Nat.eqb_spec (length bytes) 4), (Nat.eqb_spec (length bytes) 16);
      naive_solver.
Qed.

(** ** The textual forms *)

Definition colon : Z := 58.
Definition open_bracket : Z := 91.
Definition close_bracket : Z := 93.

Class Text : Type := {
  address_to_string : address → list Z;
  make_address_v4 : list Z → option address;
  make_address_v6 : list Z → option address;
  make_address : list Z → option address;
  port_to_string : Z → list Z;
  make_address_v4_to_string bytes :
    wf_address (address_v4 bytes) →
    make_address_v4 (address_to_string (address_v4 bytes)) = Some (address_v4 bytes);
  make_address_v6_to_string bytes scope :
    wf_address (address_v6 bytes scope) →
    make_address_v6 (address_to_string (address_v6 bytes scope)) = Some (address_v6 bytes scope);
  make_address_v4_wf s a : make_address_v4 s = Some a → is_v4 a = true ∧ wf_address a;
  make_address_v6_wf s a : make_address_v6 s = Some a → is_v4 a = false ∧ wf_address a;
  make_address_either s a :
    make_address s = Some a ↔ make_address_v4 s = Some a ∨ make_address_v6 s = Some a;
  make_address_empty : make_address [] = None;
  address_v4_text bytes :
    address_to_string (address_v4 bytes) ≠ [] ∧
    open_bracket ∉ address_to_string (address_v4 bytes);
  address_v6_text bytes scope : address_to_string (address_v6 bytes scope) ≠ [];
  port_to_string_digits p : in_u 16 p →
    digits (port_to_string p) ∧ port_to_string p ≠ [] ∧ decimal (port_to_string p) = p;
}.

(** std::string_view::rfind(c) *)
Fixpoint rfind (c : Z) (s : list Z) : option nat :=
  match s with
  | [] => None
  | x :: s =>
      match rfind c s with
      | Some i => Some (S i)
      | None => if x =? c then Some 0%nat else None
      end
  end.

(** The characters that a name must not have *)
Definition reserved : list Z :=
  [64; 35; 36; 37; 94; 38; 42; 40; 41; 43; 61; 123; 125; 91; 93; 124; 92; 58; 59; 34; 39; 60; 62;
   44; 63; 47; 126; 32].

Inductive Host : Type :=
  | host_address (a : address)
  | host_name (name : list Z).

Record AddrPort : Type := { address_ : address; addr_port_ : Z }.
Record HostPort : Type := { host_ : Host; port_ : Z }.

(** operator== *)
#[export] Instance host_eq_dec : EqDecision Host.
Proof. solve_decision. Defined.

#[export] Instance addr_port_eq_dec : EqDecision AddrPort.
Proof. solve_decision. Defined.

#[export] Instance host_port_eq_dec : EqDecision HostPort.
Proof. solve_decision. Defined.

Section text.
Context `{!Text}.

(** Host::to_string *)
Definition host_to_string (h : Host) : list Z :=
  match h with
  | host_address a => address_to_string a
  | host_name name => name
  end.

(** The address that Host::from_string tries first *)
Definition parse_address (s : list Z) (address_v6_only : option bool) : option address :=
  match address_v6_only with
  | None => make_address s
  | Some false => make_address_v4 s
  | Some true => make_address_v6 s
  end.

(** Host::from_string *)
Definition host_from_string (s : list Z) (address_v6_only : option bool) : option Host :=
  match s with
  | [] => None
  | _ =>
      match parse_address s address_v6_only with
      | Some a => Some (host_address a)
      | None =>
          if default false address_v6_only then None
          else if existsb (λ c, bool_decide (c ∈ reserved)) s then None
          else Some (host_name s)
      end
  end.

(** The text "address:port" or "[address]:port" *)
Definition join_address (a : address) (port : Z) : list Z :=
  if is_v4 a then address_to_string a ++ [colon] ++ port_to_string port
  else [open_bracket] ++ address_to_string a ++ [close_bracket; colon] ++ port_to_string port.

(** AddrPort::to_string *)
Definition addr_port_to_string (ap : AddrPort) : list Z := join_address (address_ ap) (addr_port_ ap).

(** HostPort::to_string *)
Definition host_port_to_string (hp : HostPort) : list Z :=
  match host_ hp with
  | host_address a => join_address a (port_ hp)
  | host_name name => name ++ [colon] ++ port_to_string (port_ hp)
  end.

(** string[0] == '[' && string[pos - 1] == ']' with pos >= 2 *)
Definition bracketed (pos : nat) (s : list Z) : bool :=
  (2 <=? pos)%nat && bool_decide (s !! 0%nat = Some open_bracket) &&
  bool_decide (s !! (pos - 1)%nat = Some close_bracket).

(** The split at the last colon that both from_string begin with *)
Definition split_port (s : list Z) : option (nat * list Z) :=
  match rfind colon s with
  | None => None
  | Some pos => if (pos + 1 =? length s)%nat then None else Some (pos, drop (pos + 1) s)
  end.

(** AddrPort::from_string *)
Definition addr_port_from_string (s : list Z) : option AddrPort :=
  '(pos, port_str) ← split_port s;
  a ← (if bracketed pos s then make_address_v6 (take (pos - 2) (drop 1 s))
       else make_address_v4 (take pos s));
  match consume_uint16 port_str with
  | Ok (port, []) => Some {| address_ := a; addr_port_ := port |}
  | _ => None
  end.

(** HostPort::from_string *)
Definition host_port_from_string (s : list Z) : option HostPort :=
  '(pos, port_str) ← split_port s;
  h ← (if bracketed pos s then host_from_string (take (pos - 2) (drop 1 s)) (Some true)
       else host_from_string (take pos s) (Some false));
  match consume_uint16 port_str with
  | Ok (port, []) => Some {| host_ := h; port_ := port |}
  | _ => None
  end.
End text.

(** ** Parsing what was printed *)

Lemma rfind_app c a b : c ∉ b → rfind c (a ++ c :: b) = Some (length a).
Proof.
  intros Hb. assert (rfind c b = None) as Hn.
  { induction b as [|x b IH]; [done|]. apply not_elem_of_cons in Hb as [Hx Hb]. simpl.
    rewrite IH by done. by rewrite (proj2 (Z.eqb_neq x c)). }
  induction a as [|x a IH]; simpl; [by rewrite Hn, Z.eqb_refl|by rewrite IH].
Qed.

Lemma digits_no_colon ds : digits ds → colon ∉ ds.
Proof.
  intros Hds Hin. unfold digits in Hds. rewrite Forall_forall in Hds.
  apply Hds, is_digit_range in Hin. unfold colon in Hin. lia.
Qed.

Lemma consume_port ds :
  digits ds → ds ≠ [] → consume_uint16 ds = Ok (uwrap 16 (decimal ds), []).
Proof.
  intros Hds Hne. pose proof (consume_int_numeral {| width := 16; signed := false |} false ds [])
    as Hc. unfold numeral in Hc. rewrite app_nil_r in Hc. simpl app in Hc.
  unfold consume_uint16. rewrite Hc by (by split_and!).
  pose proof (consume_digits_unsigned 16 0 ds [] ltac:(lia) Hds I) as Hd. rewrite app_nil_r in Hd.
  rewrite (uwrap_id 16 0) in Hd by done. by rewrite Hd.
Qed.

Section roundtrip.
Context `{!Text}.

Lemma split_port_text front ds :
  digits ds → ds ≠ [] → split_port (front ++ [colon] ++ ds) = Some (length front, ds).
Proof.
  intros Hds Hne. unfold split_port. simpl app. rewrite rfind_app by (by apply digits_no_colon).
  rewrite (proj2 (Nat.eqb_neq _ _)).
  - do 2 f_equal. rewrite drop_app_ge by lia. by replace (length front + 1 - length front)%nat with 1%nat by lia.
  - rewrite length_app. simpl. destruct ds; [done|simpl; lia].
Qed.

Lemma bracketed_yes (inner rest : list Z) :
  bracketed (length inner + 2) ([open_bracket] ++ inner ++ [close_bracket; colon] ++ rest) = true ∧
  take (length inner + 2 - 2) (drop 1 ([open_bracket] ++ inner ++ [close_bracket; colon] ++ rest)) =
  inner.
Proof.
  split.
  - unfold bracketed. rewrite (proj2 (Nat.leb_le _ _)) by lia.
    rewrite !bool_decide_eq_true_2; [done| |done].
    replace (length inner + 2 - 1)%nat with (S (length inner)) by lia. simpl.
    by apply list_lookup_middle.
  - replace (length inner + 2 - 2)%nat with (length inner) by lia. simpl. apply take_app_length.
Qed.

Lemma bracketed_no (front rest : list Z) : front ≠ [] → open_bracket ∉ front →
  bracketed (length front) (front ++ rest) = false.
Proof.
  intros Hne Hin. unfold bracketed. destruct front as [|x front]; [done|].
  rewrite (bool_decide_eq_false_2 (_ !! 0%nat = _)); [by rewrite andb_false_r|].
  simpl. intros [= ->]. apply Hin. by left.
Qed.

(** The hosts that from_string returns *)
Definition wf_host (v : option bool) (h : Host) : Prop :=
  match h with
  | host_address a => wf_address a
  | host_name name =>
      name ≠ [] ∧ parse_address name v = None ∧ Forall (λ c, c ∉ reserved) name
  end.

Lemma reserved_spec s :
  existsb (λ c, bool_decide (c ∈ reserved)) s = false ↔ Forall (λ c, c ∉ reserved) s.
Proof.
  rewrite <- not_true_iff_false, existsb_exists, Forall_forall. split.
  - intros Hall x Hx Hr. apply Hall. exists x. split; [by apply list_elem_of_In|by apply bool_decide_eq_true].
  - intros Hall (x & Hx & Hr%bool_decide_eq_true). apply list_elem_of_In in Hx. by apply (Hall x).
Qed.

Lemma address_text_ne a : address_to_string a ≠ [].
Proof. destruct a; [by apply address_v4_text|apply address_v6_text]. Qed.

Lemma host_from_address s v a :
  s ≠ [] → parse_address s v = Some a → host_from_string s v = Some (host_address a).
Proof. intros Hs Ha. unfold host_from_string. destruct s; [done|]. by rewrite Ha. Qed.

Lemma host_from_name name v :
  v ≠ Some true → wf_host v (host_name name) → host_from_string name v = Some (host_name name).
Proof.
  intros Hv (Hne & Ha & Hr). unfold host_from_string. destruct name as [|c n] eqn:E; [done|].
  rewrite <- E in *. rewrite Ha, (proj2 (reserved_spec name) Hr).
  by destruct v as [[]|].
Qed.

Lemma join_address_parse a port :
  wf_address a → in_u 16 port →
  ∃ pos, split_port (join_address a port) = Some (pos, port_to_string port) ∧
    (if bracketed pos (join_address a port)
     then make_address_v6 (take (pos - 2) (drop 1 (join_address a port)))
     else make_address_v4 (take pos (join_address a port))) = Some a ∧
    (if bracketed pos (join_address a port)
     then host_from_string (take (pos - 2) (drop 1 (join_address a port))) (Some true)
     else host_from_string (take pos (join_address a port)) (Some false)) = Some (host_address a).
Proof.
  intros Hwf Hp. destruct (port_to_string_digits port Hp) as (Hds & Hne & _).
  destruct a as [bytes|bytes scope]; unfold join_address; cbn [is_v4].
  - destruct (address_v4_text bytes) as [Hat Hbr].
    exists (length (address_to_string (address_v4 bytes))). rewrite split_port_text by done.
    rewrite bracketed_no, take_app_length, make_address_v4_to_string by done.
    split_and!; [done|done|]. apply host_from_address; [done|]. by apply make_address_v4_to_string.
  - set (inner := address_to_string (address_v6 bytes scope)).
    exists (length inner + 2)%nat.
    pose proof (bracketed_yes inner (port_to_string port)) as [-> ->].
    assert (split_port ([open_bracket] ++ inner ++ [close_bracket; colon] ++ port_to_string port) =
            Some ((length inner + 2)%nat, port_to_string port)) as ->.
    { pose proof (split_port_text ([open_bracket] ++ inner ++ [close_bracket]) (port_to_string port)
        Hds Hne) as Hsp. rewrite !length_app, <- !(assoc_L (++)) in Hsp. simpl in Hsp |- *.
      rewrite Hsp. do 2 f_equal. lia. }
    unfold inner. rewrite make_address_v6_to_string by done. split_and!; [done|done|].
    apply host_from_address; [apply address_v6_text|]. by apply make_address_v6_to_string.
Qed.

Lemma port_roundtrip port :
  in_u 16 port → consume_uint16 (port_to_string port) = Ok (port, []).
Proof.
  intros Hp. destruct (port_to_string_digits port Hp) as (Hds & Hne & Hdec).
  rewrite consume_port, Hdec, uwrap_id by done. done.
Qed.

Lemma name_parse name ds :
  wf_host (Some false) (host_name name) → digits ds → ds ≠ [] →
  host_port_from_string (name ++ [colon] ++ ds) =
  Some {| host_ := host_name name; port_ := uwrap 16 (decimal ds) |}.
Proof.
  intros Hn Hds Hpn. pose proof Hn as (Hne & _ & Hres).
  unfold host_port_from_string. rewrite split_port_text by done. cbn [mbind option_bind].
  rewrite Forall_forall in Hres. rewrite bracketed_no, take_app_length; [|done|].
  2: { intros Hin. apply (Hres _ Hin), (bool_decide_eq_true_1 (open_bracket ∈ reserved)). by vm_compute. }
  rewrite host_from_name by done.
  cbn [mbind option_bind]. by rewrite consume_port.
Qed.

Lemma host_port_parse_print h port :
  wf_host (Some false) h → in_u 16 port →
  host_port_from_string (host_port_to_string {| host_ := h; port_ := port |}) =
    Some {| host_ := h; port_ := port |}.
Proof.
  intros Hh Hp. unfold host_port_to_string. cbn [host_ port_]. destruct h as [a|name].
  - destruct (join_address_parse a port Hh Hp) as (pos & Hsp & _ & Hhost).
    unfold host_port_from_string. rewrite Hsp. cbn [mbind option_bind]. rewrite Hhost.
    cbn [mbind option_bind]. by rewrite port_roundtrip.
  - destruct (port_to_string_digits port Hp) as (Hds & Hpn & Hdec).
    by rewrite name_parse, Hdec, uwrap_id.
Qed.

Lemma addr_port_parse_print a port :
  wf_address a → in_u 16 port →
  addr_port_from_string (addr_port_to_string {| address_ := a; addr_port_ := port |}) =
  Some {| address_ := a; addr_port_ := port |}.
Proof.
  intros Ha Hp. destruct (join_address_parse a port Ha Hp) as (pos & Hsp & Haddr & _).
  unfold addr_port_from_string, addr_port_to_string. cbn [address_ addr_port_].
  rewrite Hsp. cbn [mbind option_bind]. rewrite Haddr. cbn [mbind option_bind]. by rewrite port_roundtrip.
Qed.

(** HostPort::from_string is the inverse of to_string for addresses and for names
    without reserved characters that are not addresses, with any port, and
    AddrPort::from_string that of AddrPort::to_string. *)
Theorem host_port_roundtrip h port :
  wf_host (Some false) h → in_u 16 port →
  host_port_from_string (host_port_to_string {| host_ := h; port_ := port |}) =
    Some {| host_ := h; port_ := port |} ∧
  (∀ a, h = host_address a →
     addr_port_from_string (addr_port_to_string {| address_ := a; addr_port_ := port |}) =
     Some {| address_ := a; addr_port_ := port |}).
Proof.
  intros Hh Hp. split; [by apply host_port_parse_print|]. intros a ->. by apply addr_port_parse_print.
Qed.

(** HostPort::from_string accepts any number of digits as the port and reduces the
    number modulo 2^16. *)
Theorem host_port_port_wraps name ds :
  wf_host (Some false) (host_name name) → digits ds → ds ≠ [] →
  host_port_from_string (name ++ [colon] ++ ds) =
  Some {| host_ := host_name name; port_ := decimal ds mod 2 ^ 16 |}.
Proof. apply name_parse. Qed.
End roundtrip.

(** ** A concrete instance of the textual forms *)

Definition hex (n : Z) : Z := if n mod 16 <? 10 then 48 + n mod 16 else 87 + n mod 16.
Definition unhex (c : Z) : Z := if c <? 87 then c - 48 else c - 87.

Definition hex_text (bytes : list Z) : list Z := flat_map (λ b, [hex (b / 16); hex b]) bytes.

Fixpoint unhex_text (s : list Z) : list Z :=
  match s with
  | c :: d :: s => (16 * unhex c + unhex d) :: unhex_text s
  | _ => []
  end.

Lemma unhex_hex_byte : ∀ b, is_byte b → 16 * unhex (hex (b / 16)) + unhex (hex b) = b.
Proof. byte_fact. Qed.

Lemma unhex_hex_text bytes : Forall is_byte bytes → unhex_text (hex_text bytes) = bytes.
Proof. induction 1 as [|b bytes Hb _ IH]; [done|]. simpl. by rewrite unhex_hex_byte, IH. Qed.

Lemma hex_text_length bytes : length (hex_text bytes) = (2 * length bytes)%nat.
Proof. induction bytes; simpl; lia. Qed.

Lemma hex_text_chars bytes c : c ∈ hex_text bytes → c ≠ open_bracket.
Proof.
  assert (∀ n, hex n ≠ open_bracket) as Hh.
  { intros n. unfold hex, open_bracket. pose proof (Z.mod_pos_bound n 16).
    destruct (Z.ltb_spec (n mod 16) 10); lia. }
  induction bytes as [|b bytes IH]; simpl; [by intros ?%not_elem_of_nil|].
  rewrite !elem_of_cons. intros [->|[->|?]]; auto.
Qed.

Definition five_digits (p : Z) : list Z :=
  [48 + p / 10000; 48 + p / 1000 mod 10; 48 + p / 100 mod 10; 48 + p / 10 mod 10; 48 + p mod 10].

Lemma is_digit_true d : 0 ≤ d < 10 → is_digit (48 + d) = true.
Proof. intros. unfold is_digit. rewrite !(proj2 (Z.leb_le _ _)) by lia. done. Qed.

Definition hex_address (a : address) : list Z :=
  match a with
  | address_v4 bytes => 46 :: hex_text bytes
  | address_v6 bytes scope => 58 :: hex_text (bytes ++ le_encode 4 scope)
  end.

(** The bytes that an address is read from, when they are bytes *)
Definition hex_bytes (mark : Z) (count : nat) (s : list Z) : option (list Z) :=
  match s with
  | c :: s =>
      let bytes := unhex_text s in
      if bool_decide (c = mark ∧ length bytes = count ∧ Forall is_byte bytes) then Some bytes else None
  | [] => None
  end.

Definition parse_hex_v4 (s : list Z) : option address := address_v4 <$> hex_bytes 46 4 s.

Definition parse_hex_v6 (s : list Z) : option address :=
  (λ bytes, address_v6 (take 16 bytes) (le_decode (drop 16 bytes))) <$> hex_bytes 58 20 s.

Lemma hex_bytes_text mark count bytes :
  length bytes = count → Forall is_byte bytes → hex_bytes mark count (mark :: hex_text bytes) = Some bytes.
Proof.
  intros Hl Hb. unfold hex_bytes. rewrite unhex_hex_text by done. by rewrite bool_decide_eq_true_2.
Qed.

Lemma hex_bytes_wf mark count s bytes :
  hex_bytes mark count s = Some bytes → hd_error s = Some mark ∧ length bytes = count ∧ Forall is_byte bytes.
Proof.
  unfold hex_bytes. destruct s as [|c s]; [done|]. case_bool_decide as Hb; [|done].
  intros [= <-]. by destruct Hb as (-> & Hl & HF).
Qed.

Lemma parse_hex_v4_wf s a : parse_hex_v4 s = Some a → hd_error s = Some 46 ∧ is_v4 a = true ∧ wf_address a.
Proof.
  unfold parse_hex_v4. intros (bytes & Hb & ->)%fmap_Some. by apply hex_bytes_wf in Hb as (? & ? & ?).
Qed.

Lemma parse_hex_v6_wf s a : parse_hex_v6 s = Some a → hd_error s = Some 58 ∧ is_v4 a = false ∧ wf_address a.
Proof.
  unfold parse_hex_v6. intros (bytes & Hb & ->)%fmap_Some. apply hex_bytes_wf in Hb as (Hs & Hl & HF).
  split_and!; [done|done|]. simpl. rewrite length_take, Hl. split; [done|].
  split; [by apply Forall_take|]. pose proof (le_decode_bound (drop 16 bytes) ltac:(by apply Forall_drop)) as Hd.
  unfold zlen in Hd. rewrite length_drop, Hl in Hd. exact Hd.
Qed.

#[export] Program Instance hex_forms : Text := {
  address_to_string := hex_address;
  make_address_v4 := parse_hex_v4;
  make_address_v6 := parse_hex_v6;
  make_address s := match parse_hex_v4 s with Some a => Some a | None => parse_hex_v6 s end;
  port_to_string := five_digits;
}.
Next Obligation. intros bytes [Hl Hb]. unfold hex_address, parse_hex_v4. by rewrite hex_bytes_text. Qed.
Next Obligation.
  intros bytes scope (Hl & Hb & Hs). unfold hex_address, parse_hex_v6. rewrite hex_bytes_text.
  - cbn [fmap option_fmap option_map]. rewrite <- Hl, take_app_length, drop_app_length, le_decode_encode. by rewrite Z.mod_small.
  - by rewrite length_app, Hl, le_encode_length.
  - apply Forall_app. split; [done|apply le_encode_bytes].
Qed.
Next Obligation. intros s a Hs. by apply parse_hex_v4_wf in Hs as [_ ?]. Qed.
Next Obligation. intros s a Hs. by apply parse_hex_v6_wf in Hs as [_ ?]. Qed.
Next Obligation.
  intros s a. simpl. destruct (parse_hex_v4 s) as [b|] eqn:E; [|naive_solver].
  split; [by left|]. intros [Hs|Hs]; [done|]. apply parse_hex_v4_wf in E as [E _].
  apply parse_hex_v6_wf in Hs as [Hs _]. congruence.
Qed.
Next Obligation. done. Qed.
Next Obligation.
  intros bytes. split; [done|]. intros Hin. apply elem_of_cons in Hin as [?|Hin]; [done|].
  by apply hex_text_chars in Hin.
Qed.
Next Obligation. done. Qed.
Next Obligation.
  intros p [Hp0 Hp]. split_and!; [|done|].
  - pose proof (Z.mod_pos_bound (p / 1000) 10). pose proof (Z.mod_pos_bound (p / 100) 10).
    pose proof (Z.mod_pos_bound (p / 10) 10). pose proof (Z.mod_pos_bound p 10).
    repeat constructor; apply is_digit_true; try lia.
    split; [apply Z.div_pos; lia|apply Z.div_lt_upper_bound; lia].
  - unfold decimal, five_digits. cbn [foldl].
    replace (p / 10000) with (p / 10 / 10 / 10 / 10) by (rewrite !Z.div_div by lia; done).
    replace (p / 1000) with (p / 10 / 10 / 10) by (rewrite !Z.div_div by lia; done).
    replace (p / 100) with (p / 10 / 10) by (rewrite !Z.div_div by lia; done).
    pose proof (Z.div_mod p 10). pose proof (Z.div_mod (p / 10) 10).
    pose proof (Z.div_mod (p / 10 / 10) 10). pose proof (Z.div_mod (p / 10 / 10 / 10) 10). lia.
Qed.

Definition example_name : list Z := [104; 111; 115; 116].

Lemma host_port_roundtrip_witness :
  host_port_from_string (host_port_to_string {| host_ := host_name example_name; port_ := 80 |}) =
  Some {| host_ := host_name example_name; port_ := 80 |}.
Proof.
  apply (host_port_roundtrip (host_name example_name) 80); [|done].
  split; [done|]. split; [done|]. repeat constructor; apply (bool_decide_eq_true_1 (_ ∉ reserved));
    by vm_compute.
Defined.

(** "host:70000" is port 4464 *)
Lemma host_port_port_wraps_witness :
  host_port_from_string (example_name ++ [colon] ++ [55; 48; 48; 48; 48]) =
  Some {| host_ := host_name example_name; port_ := 4464 |}.
Proof.
  apply (host_port_port_wraps example_name [55; 48; 48; 48; 48]); [|by repeat constructor|done].
  split; [done|]. split; [done|]. repeat constructor; apply (bool_decide_eq_true_1 (_ ∉ reserved));
    by vm_compute.
Defined.
