(* ===== verification/HostPort.v ===== *)
(** * net/types and net/asio-flags: the operations on hosts and ports, and flags

    The accessors and conversions of Host, AddrPort and HostPort, the flag parsing
    of these types and of asio addresses, and what the parsers of NetTypes.v accept:
    the exact grammar of HostPort::from_string, that every value that was parsed is
    well-formed and prints to a text that gives it back, and that AddrPort and
    HostPort agree. *)

From S2P Require Import Prelude ConsumeInt NetTypes.

(** tcp::endpoint and udp::endpoint *)
Record endpoint : Type := { ep_address : address; ep_port : Z }.

(** ** Host; std::get throws where the result is None *)

Definition make_host : Host := host_address any_v4.

Definition is_address (h : Host) : bool := match h with host_address _ => true | _ => false end.
Definition is_name (h : Host) : bool := match h with host_name _ => true | _ => false end.

Definition host_get_address (h : Host) : option address :=
  match h with host_address a => Some a | host_name _ => None end.

Definition host_get_name (h : Host) : option (list Z) :=
  match h with host_name name => Some name | host_address _ => None end.

Definition host_empty (h : Host) : bool :=
  match h with
  | host_address a => is_unspecified a
  | host_name name => bool_decide (name = [])
  end.

(** ** AddrPort *)

Definition make_addr_port : AddrPort := {| address_ := any_v4; addr_port_ := 0 |}.

Definition addr_port_empty (ap : AddrPort) : bool :=
  is_unspecified (address_ ap) && (addr_port_ ap =? 0).

Definition set_address (a : address) (ap : AddrPort) : AddrPort :=
  {| address_ := a; addr_port_ := addr_port_ ap |}.

Definition set_port (port : Z) (ap : AddrPort) : AddrPort :=
  {| address_ := address_ ap; addr_port_ := port |}.

Definition addr_port_endpoint (ap : AddrPort) : endpoint :=
  {| ep_address := address_ ap; ep_port := addr_port_ ap |}.

(** ** HostPort *)

Definition make_host_port : HostPort := {| host_ := make_host; port_ := 0 |}.

(** HostPort(const AddrPort &) *)
Definition of_addr_port (ap : AddrPort) : HostPort :=
  {| host_ := host_address (address_ ap); port_ := addr_port_ ap |}.

Definition host_port_empty (hp : HostPort) : bool := host_empty (host_ hp) && (port_ hp =? 0).

Definition is_addr_port (hp : HostPort) : bool := is_address (host_ hp).
Definition is_name_port (hp : HostPort) : bool := is_name (host_ hp).

(** operator tcp::endpoint, operator udp::endpoint and operator AddrPort *)
Definition host_port_endpoint (hp : HostPort) : option endpoint :=
  (λ a, {| ep_address := a; ep_port := port_ hp |}) <$> host_get_address (host_ hp).

Definition to_addr_port (hp : HostPort) : option AddrPort :=
  (λ a, {| address_ := a; addr_port_ := port_ hp |}) <$> host_get_address (host_ hp).

(** ** Flags *)

(** AbslParseFlag of Host, AddrPort and HostPort: the result and *out *)
Definition parse_flag {A} (from_string : list Z → option A) (s : list Z) (out : A) : bool * A :=
  match from_string s with
  | None => (false, out)
  | Some x => (true, x)
  end.

Section flags.
Context `{!Text} (message : list Z).

Definition host_parse_flag : list Z → Host → bool * Host := parse_flag (λ s, host_from_string s None).
Definition host_unparse_flag : Host → list Z := host_to_string.

Definition addr_port_parse_flag : list Z → AddrPort → bool * AddrPort := parse_flag addr_port_from_string.
Definition addr_port_unparse_flag : AddrPort → list Z := addr_port_to_string.

Definition host_port_parse_flag : list Z → HostPort → bool * HostPort := parse_flag host_port_from_string.
Definition host_port_unparse_flag : HostPort → list Z := host_port_to_string.

(** AbslParseFlag of asio addresses: the result, *out and *error.  On an error
    make_address returns a default address, and [message] is that of the error. *)
Definition asio_parse_flag (make : list Z → option address) (any : address) (s error : list Z) :
    bool * address * list Z :=
  match s with
  | [] => (true, any, error)
  | _ =>
      match make s with
      | Some a => (true, a, error)
      | None => (false, any, message)
      end
  end.

Definition address_parse_flag : list Z → list Z → bool * address * list Z :=
  asio_parse_flag make_address any_v4.
Definition address_v4_parse_flag : list Z → list Z → bool * address * list Z :=
  asio_parse_flag make_address_v4 any_v4.
Definition address_v6_parse_flag : list Z → list Z → bool * address * list Z :=
  asio_parse_flag make_address_v6 any_v6.

Definition address_unparse_flag : address → list Z := address_to_string.
End flags.

(** ** The grammar

    A text is that of a host, a colon and a number with an optional sign; the host is
    in brackets or not. *)

Inductive host_text {A} (in_brackets plain : list Z → option A) : list Z → A → Prop :=
  | text_in_brackets inner x :
      in_brackets inner = Some x →
      host_text in_brackets plain ([open_bracket] ++ inner ++ [close_bracket]) x
  | text_plain front x :
      (∀ inner, front ≠ [open_bracket] ++ inner ++ [close_bracket]) → plain front = Some x →
      host_text in_brackets plain front x.

(** A character of a name: a letter, a digit, one of ! - . _ `, or not printable ASCII *)
Definition name_char (c : Z) : Prop :=
  48 ≤ c ≤ 57 ∨ 65 ≤ c ≤ 90 ∨ 97 ≤ c ≤ 122 ∨ c ∈ [33; 45; 46; 95; 96] ∨ c < 32 ∨ 126 < c.

Lemma name_char_spec c : name_char c ↔ c ∉ reserved.
Proof. unfold name_char, reserved. rewrite !not_elem_of_cons, !elem_of_cons, elem_of_nil. lia. Qed.

(** The port: an optional minus sign and digits, of which one may be missing; its value is
    that of the digits with their sign, modulo 2^16. *)
Definition port_text (s : list Z) (port : Z) : Prop :=
  ∃ neg ds, s = numeral neg ds [] ∧ s ≠ [] ∧ digits ds ∧
    port = (if neg then - decimal ds else decimal ds) mod 2 ^ 16.

Lemma rfind_spec c s i :
  rfind c s = Some i → s = take i s ++ c :: drop (S i) s ∧ c ∉ drop (S i) s ∧ (i < length s)%nat.
Proof.
  assert (∀ s, rfind c s = None → c ∉ s) as Hnone.
  { clear s i. induction s as [|x s IH]; [by intros _ ?%not_elem_of_nil|]. simpl.
    destruct (rfind c s); [done|]. destruct (Z.eqb_spec x c); [done|]. intros _.
    apply not_elem_of_cons. split; [done|]. by apply IH. }
  revert i. induction s as [|x s IH]; intros i; simpl; [done|].
  destruct (rfind c s) as [j|] eqn:E.
  - intros [= <-]. destruct (IH j eq_refl) as (Hs & Hnin & Hlt). simpl. rewrite <- Hs.
    split_and!; [done|done|lia].
  - destruct (Z.eqb_spec x c) as [->|]; [|done]. intros [= <-]. simpl. rewrite drop_0.
    split_and!; [done|by apply Hnone|lia].
Qed.

Lemma split_port_spec s pos p :
  split_port s = Some (pos, p) ↔
  ∃ front, s = front ++ [colon] ++ p ∧ pos = length front ∧ colon ∉ p ∧ p ≠ [].
Proof.
  unfold split_port. split.
  - destruct (rfind colon s) as [i|] eqn:E; [|done]. apply rfind_spec in E as (Hs & Hnin & Hlt).
    destruct (Nat.eqb_spec (i + 1) (length s)) as [|Hne]; [done|]. intros [= <- <-].
    rewrite Nat.add_1_r. exists (take i s). rewrite length_take.
    split_and!; [done|lia|done|]. intros Hd%(f_equal length). rewrite length_drop in Hd. simpl in Hd. lia.
  - intros (front & -> & -> & Hnin & Hne). simpl app. rewrite rfind_app by done.
    rewrite (proj2 (Nat.eqb_neq _ _)).
    + do 2 f_equal. rewrite drop_app_ge by lia.
      by replace (length front + 1 - length front)%nat with 1%nat by lia.
    + rewrite length_app. simpl. destruct p; [done|simpl; lia].
Qed.

Lemma bracketed_spec (front rest : list Z) :
  bracketed (length front) (front ++ rest) = true ↔
  ∃ inner, front = [open_bracket] ++ inner ++ [close_bracket].
Proof.
  unfold bracketed. rewrite !andb_true_iff, !bool_decide_eq_true, Nat.leb_le. split.
  - intros [[Hl H0] H1]. destruct front as [|x front]; [simpl in Hl; lia|]. injection H0 as ->.
    destruct front as [|y front _] using rev_ind; [simpl in Hl; lia|]. exists front. do 2 f_equal.
    simpl in H1. rewrite length_app in H1. simpl in H1.
    replace (length front + 1 - 0)%nat with (S (length front)) in H1 by lia. simpl in H1.
    rewrite <- (assoc_L (++)) in H1. simpl in H1. rewrite list_lookup_middle in H1 by done.
    by injection H1 as ->.
  - intros (inner & ->). rewrite !length_app. simpl. split_and!; [lia|done|].
    replace (length inner + 1 - 0)%nat with (S (length inner)) by lia. simpl.
    rewrite <- (assoc_L (++)). by apply list_lookup_middle.
Qed.

Lemma consume_port_spec s port :
  s ≠ [] → consume_uint16 s = Ok (port, []) ↔ port_text s port.
Proof.
  intros Hne. unfold port_text. split.
  - destruct (numeral_split s) as (neg & ds & rest & -> & Hs).
    unfold consume_uint16. rewrite consume_unsigned by done. intros [= <- ->].
    exists neg, ds. split_and!; [done|done|by destruct Hs|done].
  - intros (neg & ds & -> & _ & Hds & ->). unfold consume_uint16. rewrite consume_unsigned; [done|done|].
    split_and!; [done|done|]. intros -> ->. by destruct Hne.
Qed.

Lemma port_text_no_colon s port : port_text s port → colon ∉ s ∧ in_u 16 port.
Proof.
  intros (neg & ds & -> & _ & Hds & ->). split; [|by apply uwrap_range].
  unfold numeral. rewrite app_nil_r, elem_of_app. intros [Hin|Hin]; [|by apply (digits_no_colon ds)].
  destruct neg; [|by apply not_elem_of_nil in Hin]. by apply list_elem_of_singleton in Hin.
Qed.

Lemma bracketed_inner (inner rest : list Z) :
  let front := [open_bracket] ++ inner ++ [close_bracket] in
  take (length front - 2) (drop 1 (front ++ rest)) = inner.
Proof.
  simpl. rewrite drop_0, length_app, <- (assoc_L (++)). simpl.
  replace (length inner + 1 - 1)%nat with (length inner) by lia. apply take_app_length.
Qed.

(** Both parsers are one, with different parts. *)
Lemma port_parser_spec {A B} (f6 f4 : list Z → option A) (mk : A → Z → B) s b :
  ('(pos, port_str) ← split_port s;
   x ← (if bracketed pos s then f6 (take (pos - 2) (drop 1 s)) else f4 (take pos s));
   match consume_uint16 port_str with
   | Ok (port, []) => Some (mk x port)
   | _ => None
   end) = Some b ↔
  ∃ front p x port, s = front ++ [colon] ++ p ∧ host_text f6 f4 front x ∧ port_text p port ∧ b = mk x port.
Proof.
  split.
  - intros ([pos p] & Hsp & (x & Hx & Hc)%bind_Some)%bind_Some.
    apply split_port_spec in Hsp as (front & -> & -> & Hnin & Hne).
    destruct (consume_uint16 p) as [[port [|]]| | |] eqn:Hp; try done. injection Hc as <-.
    exists front, p, x, port. split_and!; [done| |by apply consume_port_spec|done].
    destruct (bracketed (length front) _) eqn:Hb.
    + apply bracketed_spec in Hb as (inner & ->). constructor. by rewrite bracketed_inner in Hx.
    + constructor 2; [|by rewrite take_app_length in Hx].
      intros inner Hf. apply not_true_iff_false in Hb. apply Hb, bracketed_spec. by exists inner.
  - intros (front & p & x & port & -> & Hh & Hp & ->). pose proof Hp as (? & ? & _ & Hne & _).
    apply bind_Some. exists (length front, p). split.
    { apply split_port_spec. exists front. by apply port_text_no_colon in Hp as []. }
    apply bind_Some. exists x. rewrite (proj2 (consume_port_spec p port Hne) Hp). split; [|done].
    destruct Hh as [inner x Hx|front x Hf Hx].
    + rewrite (proj2 (bracketed_spec _ _)) by eauto. by rewrite bracketed_inner.
    + rewrite take_app_length. destruct (bracketed _ _) eqn:Hb; [|done].
      apply bracketed_spec in Hb as (inner & ->). by destruct (Hf inner).
Qed.

Section grammar.
Context `{!Text}.

Lemma host_port_spec s hp :
  host_port_from_string s = Some hp ↔
  ∃ front p, s = front ++ [colon] ++ p ∧ port_text p (port_ hp) ∧
    host_text (λ s, host_from_string s (Some true)) (λ s, host_from_string s (Some false))
      front (host_ hp).
Proof.
  etransitivity.
  { apply (port_parser_spec (λ s, host_from_string s (Some true)) (λ s, host_from_string s (Some false))
      (λ h port, {| host_ := h; port_ := port |})). }
  destruct hp. naive_solver.
Qed.

Lemma addr_port_spec s ap :
  addr_port_from_string s = Some ap ↔
  ∃ front p, s = front ++ [colon] ++ p ∧ port_text p (addr_port_ ap) ∧
    host_text make_address_v6 make_address_v4 front (address_ ap).
Proof.
  etransitivity; [apply (port_parser_spec _ _ (λ a port, {| address_ := a; addr_port_ := port |}))|].
  destruct ap. naive_solver.
Qed.

(** Address parsing gives addresses that print to a text of theirs. *)
Lemma parse_address_sound s v a :
  parse_address s v = Some a → wf_address a ∧ parse_address (address_to_string a) v = Some a ∧ s ≠ [].
Proof.
  assert (make_address_v4 [] = None ∧ make_address_v6 [] = None) as [E4 E6].
  { pose proof (λ a, proj2 (make_address_either [] a)) as He. rewrite make_address_empty in He.
    split; [destruct (make_address_v4 []) as [b|]|destruct (make_address_v6 []) as [b|]]; try done;
      specialize (He b); naive_solver. }
  assert (∀ a, make_address_v4 s = Some a →
    wf_address a ∧ make_address_v4 (address_to_string a) = Some a ∧ s ≠ []) as H4.
  { intros b Hb. pose proof (make_address_v4_wf _ _ Hb) as [Hv Hwf]. destruct b; [|done].
    rewrite make_address_v4_to_string by done. split_and!; [done|done|]. intros ->. congruence. }
  assert (∀ a, make_address_v6 s = Some a →
    wf_address a ∧ make_address_v6 (address_to_string a) = Some a ∧ s ≠ []) as H6.
  { intros b Hb. pose proof (make_address_v6_wf _ _ Hb) as [Hv Hwf]. destruct b; [done|].
    rewrite make_address_v6_to_string by done. split_and!; [done|done|]. intros ->. congruence. }
  destruct v as [[]|]; simpl; [apply H6|apply H4|]. rewrite !make_address_either. naive_solver.
Qed.

Lemma host_from_string_sound s v h :
  host_from_string s v = Some h → wf_host v h ∧ host_from_string (host_to_string h) v = Some h.
Proof.
  intros Hs. unfold host_from_string in Hs. destruct s as [|c s'] eqn:Es; [done|]. rewrite <- Es in *.
  destruct (parse_address s v) as [a|] eqn:Ha.
  - injection Hs as <-. apply parse_address_sound in Ha as (Hwf & Ha & _). split; [done|].
    apply host_from_address; [apply address_text_ne|done].
  - destruct v as [[]|]; simpl in Hs; [done| |];
      (destruct (existsb _ s) eqn:Hr; [done|]; injection Hs as <-; apply reserved_spec in Hr;
       assert (s ≠ []) by (by rewrite Es); split; [done|by apply host_from_name]).
Qed.

(** The host of a HostPort: an IPv6 address in brackets, an IPv4 address, or a name, which
    is not empty, not an IPv4 address and made of characters that names may have. *)
Inductive host_grammar : list Z → Host → Prop :=
  | grammar_v6 inner a :
      make_address_v6 inner = Some a →
      host_grammar ([open_bracket] ++ inner ++ [close_bracket]) (host_address a)
  | grammar_v4 front a :
      (∀ inner, front ≠ [open_bracket] ++ inner ++ [close_bracket]) →
      make_address_v4 front = Some a → host_grammar front (host_address a)
  | grammar_name name :
      name ≠ [] → make_address_v4 name = None → Forall name_char name → host_grammar name (host_name name).

(** The address of an AddrPort *)
Inductive address_grammar : list Z → address → Prop :=
  | grammar_addr_v6 inner a :
      make_address_v6 inner = Some a → address_grammar ([open_bracket] ++ inner ++ [close_bracket]) a
  | grammar_addr_v4 front a :
      (∀ inner, front ≠ [open_bracket] ++ inner ++ [close_bracket]) →
      make_address_v4 front = Some a → address_grammar front a.

Lemma host_from_v6 s h :
  host_from_string s (Some true) = Some h ↔ ∃ a, h = host_address a ∧ make_address_v6 s = Some a.
Proof.
  unfold host_from_string. simpl. split.
  - destruct s as [|c s]; [done|]. destruct (make_address_v6 _) as [a|]; [|done]. intros [= <-]. eauto.
  - intros (a & -> & Ha). pose proof (parse_address_sound s (Some true) a Ha) as (_ & _ & Hne).
    destruct s; [done|]. by rewrite Ha.
Qed.

Lemma host_from_v4 s h :
  host_from_string s (Some false) = Some h ↔
  (∃ a, h = host_address a ∧ make_address_v4 s = Some a) ∨
  (h = host_name s ∧ s ≠ [] ∧ make_address_v4 s = None ∧ Forall name_char s).
Proof.
  split.
  - intros Hs. unfold host_from_string in Hs. simpl in Hs. destruct s as [|c s'] eqn:Es; [done|].
    rewrite <- Es in *. destruct (make_address_v4 s) as [a|] eqn:Ha; [left; exists a; by injection Hs as <-|].
    destruct (existsb _ s) eqn:Hr; [done|]. injection Hs as <-. right. rewrite reserved_spec in Hr.
    split_and!; [done|by rewrite Es|done|]. eapply Forall_impl; [exact Hr|]. intros x Hx. by apply name_char_spec.
  - intros [(a & -> & Ha)|(-> & Hne & Ha & Hc)].
    + pose proof (parse_address_sound s (Some false) a Ha) as (_ & _ & Hne). by apply host_from_address.
    + apply host_from_name; [done|]. split_and!; [done|done|]. eapply Forall_impl; [exact Hc|]. intros x Hx. by apply name_char_spec.
Qed.

Lemma host_text_grammar front h :
  host_text (λ s, host_from_string s (Some true)) (λ s, host_from_string s (Some false)) front h ↔
  host_grammar front h.
Proof.
  split.
  - intros [inner x (a & -> & Ha)%host_from_v6|front' x Hf Hx]; [by constructor|].
    apply host_from_v4 in Hx as [(a & -> & Ha)|(-> & ? & ? & ?)]; by constructor.
  - intros [inner a Ha|front' a Hf Ha|name Hne Ha Hc].
    + constructor 1. apply host_from_v6. eauto.
    + constructor 2; [done|]. apply host_from_v4. eauto.
    + constructor 2; [|apply host_from_v4; auto]. intros inner ->. apply Forall_cons in Hc as [Hc _].
      apply name_char_spec in Hc. apply Hc. vm_compute. unfold elem_of. repeat constructor.
Qed.

Lemma address_text_grammar front a :
  host_text make_address_v6 make_address_v4 front a ↔ address_grammar front a.
Proof. split; intros []; by constructor. Qed.

(** C34: HostPort::from_string accepts exactly the texts of a host, a colon and a port: the
    host is an IPv6 address in brackets, an IPv4 address without brackets, or a name, that is
    a non-empty text other than an IPv4 address of letters, digits, the characters ! - . _ `
    and characters outside printable ASCII; the port is a minus sign, digits, or a minus sign
    and digits, and its value is that of the digits with their sign (0 without any) modulo
    2^16. AddrPort::from_string accepts exactly those of them whose host is an address, with
    the same value. *)
Theorem host_port_grammar s :
  (∀ hp, host_port_from_string s = Some hp ↔
    ∃ front p, s = front ++ [colon] ++ p ∧ port_text p (port_ hp) ∧ host_grammar front (host_ hp)) ∧
  (∀ ap, addr_port_from_string s = Some ap ↔
    ∃ front p, s = front ++ [colon] ++ p ∧ port_text p (addr_port_ ap) ∧ address_grammar front (address_ ap)) ∧
  (∀ ap, addr_port_from_string s = Some ap ↔ host_port_from_string s = Some (of_addr_port ap)).
Proof.
  assert (∀ ap, addr_port_from_string s = Some ap ↔
    ∃ front p, s = front ++ [colon] ++ p ∧ port_text p (addr_port_ ap) ∧ address_grammar front (address_ ap)) as Ha
    by (intros ap; rewrite addr_port_spec; by setoid_rewrite address_text_grammar).
  assert (∀ hp, host_port_from_string s = Some hp ↔
    ∃ front p, s = front ++ [colon] ++ p ∧ port_text p (port_ hp) ∧ host_grammar front (host_ hp)) as Hh
    by (intros hp; rewrite host_port_spec; by setoid_rewrite host_text_grammar).
  split_and!; [done..|]. intros ap. rewrite Ha, Hh. simpl.
  assert (∀ front a, address_grammar front a ↔ host_grammar front (host_address a)) as Heq.
  { intros front a. split; [intros []; by constructor|]. intros Hg. inversion Hg; subst; by constructor. }
  by setoid_rewrite Heq.
Qed.

(** C32: Every value that Host::from_string, AddrPort::from_string or HostPort::from_string
    returns is well-formed (the bytes and the scope of an address, a name that is not empty,
    not an address and without reserved characters, a port of 16 bits), and its to_string
    gives a text that the same function parses back to the same value. *)
Theorem net_types_parse s :
  (∀ v h, host_from_string s v = Some h →
     wf_host v h ∧ host_from_string (host_to_string h) v = Some h) ∧
  (∀ ap, addr_port_from_string s = Some ap →
     wf_address (address_ ap) ∧ in_u 16 (addr_port_ ap) ∧
     addr_port_from_string (addr_port_to_string ap) = Some ap) ∧
  (∀ hp, host_port_from_string s = Some hp →
     wf_host (Some false) (host_ hp) ∧ in_u 16 (port_ hp) ∧
     host_port_from_string (host_port_to_string hp) = Some hp).
Proof.
  split_and!.
  - intros v h. apply host_from_string_sound.
  - intros ap Hs. apply addr_port_spec in Hs as (front & p & -> & Hp & Hh).
    apply port_text_no_colon in Hp as [_ Hp]. assert (wf_address (address_ ap)) as Ha.
    { destruct Hh as [inner a Ha|front a _ Ha];
        [by apply (parse_address_sound _ (Some true)) in Ha as [? _]
        |by apply (parse_address_sound _ (Some false)) in Ha as [? _]]. }
    split_and!; [done|done|]. destruct ap. by apply addr_port_parse_print.
  - intros hp Hs. apply host_port_spec in Hs as (front & p & -> & Hp & Hh).
    apply port_text_no_colon in Hp as [_ Hp]. assert (wf_host (Some false) (host_ hp)) as Ha.
    { destruct Hh as [inner h Ha|front h _ Ha]; apply host_from_string_sound in Ha as [Hw Hf]; [|done].
      destruct h as [a|name]; [done|]. destruct Hw as (Hne & Hn & _). unfold host_from_string, host_to_string in Hf.
      destruct name; [done|]. by rewrite Hn in Hf. }
    split_and!; [done|done|]. destruct hp. by apply host_port_parse_print.
Qed.
End grammar.

(** ** Flags *)

Section flag_laws.
Context `{!Text} (message : list Z).

(** A flag that is printed and parsed again has its value, and a text that is refused
    leaves the value as it is for Host, AddrPort and HostPort, but resets it to the
    default for an asio address. *)
Theorem flags_roundtrip :
  (∀ h out, wf_host None h → host_parse_flag (host_unparse_flag h) out = (true, h)) ∧
  (∀ a error, wf_address a →
     address_parse_flag message (address_unparse_flag a) error = (true, a, error) ∧
     (if is_v4 a then address_v4_parse_flag else address_v6_parse_flag)
       message (address_unparse_flag a) error = (true, a, error)) ∧
  (∀ s out, host_port_from_string s = None → host_port_parse_flag s out = (false, out)) ∧
  (∀ s error, s ≠ [] → make_address s = None →
     address_parse_flag message s error = (false, any_v4, message)).
Proof.
  unfold host_parse_flag, host_port_parse_flag, parse_flag, address_parse_flag, address_v4_parse_flag,
    address_v6_parse_flag, asio_parse_flag, host_unparse_flag, address_unparse_flag. split_and!.
  - intros h out Hh. destruct h as [a|name]; simpl.
    + rewrite (host_from_address _ _ a); [done|apply address_text_ne|]. apply make_address_either.
      destruct a; [left; by apply make_address_v4_to_string|right; by apply make_address_v6_to_string].
    + by rewrite host_from_name.
  - intros a error Ha. pose proof (address_text_ne a) as Hne.
    destruct (address_to_string a) as [|c s] eqn:E; [done|]. rewrite <- E.
    rewrite (proj2 (make_address_either _ a)).
    2: { destruct a; [left; by apply make_address_v4_to_string|right; by apply make_address_v6_to_string]. }
    split; [done|]. destruct a; simpl; rewrite E, <- E;
      [by rewrite make_address_v4_to_string|by rewrite make_address_v6_to_string].
  - by intros s out ->.
  - intros s error Hs ->. by destruct s.
Qed.
End flag_laws.

(** "h:-" is port 0 and "h:-1" is port 65535 *)
Example port_signs :
  port_ <$> host_port_from_string (example_name ++ [colon; 45]) = Some 0 ∧
  port_ <$> host_port_from_string (example_name ++ [colon; 45; 49]) = Some 65535.
Proof. vm_compute. done. Qed.

Lemma host_port_grammar_witness :
  ∃ front p, example_name ++ [colon; 45; 49] = front ++ [colon] ++ p ∧ port_text p 65535 ∧
    host_grammar front (host_name example_name).
Proof.
  apply (proj1 (proj1 (host_port_grammar (example_name ++ [colon; 45; 49]))
    {| host_ := host_name example_name; port_ := 65535 |})).
  vm_compute. reflexivity.
Defined.

Lemma net_types_parse_witness :
  wf_host (Some false) (host_name example_name) ∧ in_u 16 80 ∧
  host_port_from_string (host_port_to_string {| host_ := host_name example_name; port_ := 80 |}) =
  Some {| host_ := host_name example_name; port_ := 80 |}.
Proof.
  apply (proj2 (proj2 (net_types_parse (example_name ++ [colon; 56; 48])))
    {| host_ := host_name example_name; port_ := 80 |}).
  vm_compute. reflexivity.
Defined.
