(* ===== verification/Connector.v ===== *)
(** * net/types and net/system: streams, datagrams and the connector of the system

    [Stream], [Datagram] and [Connector] are the abstract classes of net/types as
    classes of operations.  A coroutine of net/system is the sequence of its calls: it
    owns its socket, so what runs while it is suspended does not touch it.  asio's
    sockets are the interface [Sockets]; [SocketLaws] is what their documentation says
    of open sockets and of the bytes sent.  The theorems show that connect returns a
    stream on which exactly the initial data was sent, or an error, and that an error
    leaves no socket open. *)

From S2P Require Import Prelude NetTypes HostPort.

(** ** net/types *)

Class Stream (T S : Type) : Type := {
  stream_read : Z → T → S → result (list Z) * S;
  stream_write : list Z → T → S → result Z * S;
  stream_close : T → S → S;
}.

Class Datagram (T S : Type) : Type := {
  receive_from : Z → T → S → result (list Z * endpoint) * S;
  send_to : list Z → endpoint → T → S → result Z * S;
  datagram_close : T → S → S;
}.

(** connect and bind give an object, or an error and no object. *)
Class Connects (C T D S : Type) : Type := {
  connect : endpoint → list Z → C → S → option errc * option T * S;
  bind : endpoint → C → S → option errc * option D * S;
}.

(** ** asio *)

(** endpoint.protocol() *)
Inductive protocol : Type := v4 | v6.

Definition protocol_of (e : endpoint) : protocol := if is_v4 (ep_address e) then v4 else v6.

(** The calls on a socket that give an error code *)
Inductive socket_call : Type :=
  | Open (p : protocol)
  | NoDelay
  | FastOpenConnect
  | Connect (e : endpoint)
  | WriteAll (data : list Z)
  | Bind (e : endpoint).

(** Sockets are numbered; that of an object is new and not open. *)
Class Sockets (S : Type) : Type := {
  new_socket : S → Z;
  call : Z → socket_call → S → option errc * S;
  async_read_some : Z → Z → S → result (list Z) * S;
  async_write_some : Z → list Z → S → result Z * S;
  async_receive_from : Z → Z → S → result (list Z * endpoint) * S;
  async_send_to : Z → list Z → endpoint → S → result Z * S;
  close_socket : Z → S → S;
}.

(** ** net/system *)

Record TcpSocketStream : Type := { tcp_socket_ : Z }.
Record UdpSocketDatagram : Type := { udp_socket_ : Z }.

(** Connector::Options and Connector *)
Record Connector : Type := { tcp_no_delay_ : bool; tcp_fast_open_connect_ : Z }.

Definition default_options : Connector := {| tcp_no_delay_ := true; tcp_fast_open_connect_ := 1 |}.

Section system.
Context {S : Type} `{!Sockets S} (fast_open_defined : bool).

#[export] Instance tcp_socket_stream : Stream TcpSocketStream S := {
  stream_read n t := async_read_some (tcp_socket_ t) n;
  stream_write bs t := async_write_some (tcp_socket_ t) bs;
  stream_close t := close_socket (tcp_socket_ t);
}.

#[export] Instance udp_socket_datagram : Datagram UdpSocketDatagram S := {
  receive_from n d := async_receive_from (udp_socket_ d) n;
  send_to bs e d := async_send_to (udp_socket_ d) bs e;
  datagram_close d := close_socket (udp_socket_ d);
}.

(** The calls, up to the first that fails *)
Fixpoint perform (k : Z) (calls : list socket_call) (s : S) : option errc * S :=
  match calls with
  | [] => (None, s)
  | c :: calls =>
      match call k c s with
      | (Some ec, s) => (Some ec, s)
      | (None, s) => perform k calls s
      end
  end.

(** The switch over tcp_fast_open_connect_ *)
Definition fast_open (c : Connector) (initial_data : list Z) : bool :=
  fast_open_defined &&
  match tcp_fast_open_connect_ c with
  | 1 => negb (zlen initial_data =? 0)
  | 2 => true
  | _ => false
  end.

(** The calls of Connector::connect, each followed by a return of its error *)
Definition connect_calls (e : endpoint) (initial_data : list Z) (c : Connector) : list socket_call :=
  [Open (protocol_of e)] ++
  (if tcp_no_delay_ c then [NoDelay] else []) ++
  (if fast_open c initial_data then [FastOpenConnect] else []) ++
  [Connect e] ++
  (if zlen initial_data =? 0 then [] else [WriteAll initial_data]).

(** The object that owns the socket is returned, or goes away with the coroutine. *)
Definition with_socket {T} (make : Z → T) (calls : list socket_call) (s : S) : option errc * option T * S :=
  let k := new_socket s in
  match perform k calls s with
  | (None, s) => (None, Some (make k), s)
  | (Some ec, s) => (Some ec, None, close_socket k s)
  end.

Definition system_connect (e : endpoint) (initial_data : list Z) (c : Connector) :
    S → option errc * option TcpSocketStream * S :=
  with_socket Build_TcpSocketStream (connect_calls e initial_data c).

Definition system_bind (e : endpoint) (c : Connector) : S → option errc * option UdpSocketDatagram * S :=
  with_socket Build_UdpSocketDatagram [Open (protocol_of e); Bind e].

#[export] Instance system_connector : Connects Connector TcpSocketStream UdpSocketDatagram S := {
  connect := system_connect;
  bind := system_bind;
}.
End system.

(** ** What the documentation says *)

Class SocketLaws (S : Type) `{!Sockets S} : Type := {
  open_sockets : S → gset Z;
  sent : Z → S → list Z;
  new_socket_law s : new_socket s ∉ open_sockets s;
  call_law k c s ec s' :
    call k c s = (ec, s') →
    match c, ec with
    | Open _, None => open_sockets s' = {[k]} ∪ open_sockets s ∧ sent k s' = []
    | WriteAll data, None => open_sockets s' = open_sockets s ∧ sent k s' = sent k s ++ data
    | _, None => open_sockets s' = open_sockets s ∧ sent k s' = sent k s
    | _, Some _ => open_sockets s' = open_sockets s
    end;
  call_frame k c s j : j ≠ k → sent j (call k c s).2 = sent j s;
  close_law k s : open_sockets (close_socket k s) = open_sockets s ∖ {[k]};
  close_frame k s j : sent j (close_socket k s) = sent j s;
}.

Section laws.
Context {S : Type} `{!Sockets S, !SocketLaws S} (fast_open_defined : bool).

(** What calls other than Open send *)
Definition data_of (c : socket_call) : list Z := match c with WriteAll data => data | _ => [] end.

Definition is_open (c : socket_call) : bool := match c with Open _ => true | _ => false end.

Lemma perform_opened k calls s ec s' :
  Forall (λ c, is_open c = false) calls → perform k calls s = (ec, s') →
  open_sockets s' = open_sockets s ∧ (ec = None → sent k s' = sent k s ++ concat (data_of <$> calls)).
Proof.
  intros Hc. revert s. induction Hc as [|c calls Hc _ IH]; intros s Hp; cbn [perform] in Hp.
  { injection Hp as <- <-. split; [done|]. intros _. by rewrite app_nil_r. }
  destruct (call k c s) as [[e|] s1] eqn:E; apply call_law in E.
  - injection Hp as <- <-. split; [by destruct c|done].
  - apply IH in Hp as [Ho Hs].
    assert (open_sockets s1 = open_sockets s ∧ sent k s1 = sent k s ++ data_of c) as [H1 H2].
    { destruct c; try done; cbn [data_of]; by rewrite ?app_nil_r. }
    split; [by rewrite Ho|]. intros Hn. rewrite (Hs Hn), H2. simpl. by rewrite <- (assoc_L (++)).
Qed.

Lemma perform_frame k calls s j : j ≠ k → sent j (perform k calls s).2 = sent j s.
Proof.
  intros Hj. revert s. induction calls as [|c calls IH]; intros s; [done|]. cbn [perform].
  pose proof (call_frame k c s j Hj) as Hf. destruct (call k c s) as [[e|] s1]; [done|].
  simpl in Hf. by rewrite IH.
Qed.

(** A coroutine that opens its socket first leaks nothing and touches no other. *)
Lemma with_socket_spec {T} (make : Z → T) p calls s :
  Forall (λ c, is_open c = false) calls →
  let '(ec, t, s') := with_socket make (Open p :: calls) s in
  (∀ j, j ≠ new_socket s → sent j s' = sent j s) ∧
  match ec with
  | None =>
      t = Some (make (new_socket s)) ∧ open_sockets s' = {[new_socket s]} ∪ open_sockets s ∧
      sent (new_socket s) s' = concat (data_of <$> calls)
  | Some _ => t = None ∧ open_sockets s' = open_sockets s
  end.
Proof.
  intros Hc. unfold with_socket. pose proof (new_socket_law s) as Hnew.
  pose proof (λ j, perform_frame (new_socket s) (Open p :: calls) s j) as Hframe. cbn [perform] in *.
  destruct (call (new_socket s) (Open p) s) as [[e|] s1] eqn:E; pose proof (call_law _ _ _ _ _ E) as Hl.
  { split; [intros j Hj; rewrite close_frame; by apply Hframe|]. split; [done|]. rewrite close_law, Hl. set_solver. }
  destruct Hl as [Ho Hs]. destruct (perform (new_socket s) calls s1) as [[e|] s2] eqn:Ep;
    destruct (perform_opened _ _ _ _ _ Hc Ep) as [Ho2 Hs2].
  - split; [intros j Hj; rewrite close_frame; by apply Hframe|]. split; [done|].
    rewrite close_law, Ho2, Ho. set_solver.
  - split; [done|]. split; [done|]. by rewrite Ho2, Hs2, Hs, Ho.
Qed.

(** C35: Connector::connect returns either a stream, whose new socket is open and on which
    exactly the initial data was sent, or an error and no stream, in which case no socket is
    left open, whichever call failed; nothing is sent on other sockets. Connector::bind
    likewise returns a datagram with an open socket, or an error that leaves none. *)
Theorem connector_sockets e data c s :
  (let '(ec, t, s') := connect (Connects := system_connector fast_open_defined) e data c s in
   (∀ j, j ≠ new_socket s → sent j s' = sent j s) ∧
   match ec with
   | None => t = Some {| tcp_socket_ := new_socket s |} ∧
       open_sockets s' = {[new_socket s]} ∪ open_sockets s ∧ sent (new_socket s) s' = data
   | Some _ => t = None ∧ open_sockets s' = open_sockets s
   end) ∧
  (let '(ec, d, s') := bind (Connects := system_connector fast_open_defined) e c s in
   match ec with
   | None => d = Some {| udp_socket_ := new_socket s |} ∧
       open_sockets s' = {[new_socket s]} ∪ open_sockets s
   | Some _ => d = None ∧ open_sockets s' = open_sockets s
   end).
Proof.
  split.
  - cbn [connect system_connector]. unfold system_connect, connect_calls. cbn [app].
    set (calls := _ ++ _).
    assert (concat (data_of <$> calls) = data ∧ Forall (λ c, is_open c = false) calls) as [Hd Hc].
    { unfold calls. rewrite fmap_app, fmap_app, fmap_cons, !concat_app, !Forall_app. cbn [concat].
      destruct (tcp_no_delay_ c), (fast_open _ c data), (Z.eqb_spec (zlen data) 0) as [Hz|Hz]; simpl;
        rewrite ?app_nil_r; (split; [|by repeat constructor]); try done;
        by destruct data; [|unfold zlen in Hz; simpl in Hz; lia]. }
    pose proof (with_socket_spec Build_TcpSocketStream (protocol_of e) calls s Hc) as Hw. by rewrite Hd in Hw.
  - cbn [bind system_connector]. unfold system_bind.
    pose proof (with_socket_spec Build_UdpSocketDatagram (protocol_of e) [Bind e] s ltac:(by repeat constructor))
      as Hw. destruct (with_socket _ _ s) as [[[ec|] d] s']; [by destruct Hw|].
    destruct Hw as (_ & ? & ? & _). done.
Qed.
End laws.

(** ** A system whose calls fail as a script says *)

Record network : Type := {
  opened_sockets : gset Z;
  outgoing : gmap Z (list Z);
  script : list (option errc);
}.

(** What a call that succeeds does *)
Definition succeed (k : Z) (c : socket_call) (s : network) : network :=
  {| opened_sockets := match c with Open _ => {[k]} ∪ opened_sockets s | _ => opened_sockets s end;
     outgoing :=
       match c with
       | Open _ => <[k := []]> (outgoing s)
       | WriteAll data => <[k := default [] (outgoing s !! k) ++ data]> (outgoing s)
       | _ => outgoing s
       end;
     script := tail (script s) |}.

Definition fail (s : network) : network :=
  {| opened_sockets := opened_sockets s; outgoing := outgoing s; script := tail (script s) |}.

#[export] Instance network_sockets : Sockets network := {
  new_socket s := fresh (opened_sockets s);
  call k c s :=
    match default None (head (script s)) with
    | Some ec => (Some ec, fail s)
    | None => (None, succeed k c s)
    end;
  async_read_some k n s := (Ok [], s);
  async_write_some k bs s := (Ok (zlen bs), (succeed k (WriteAll bs) s));
  async_receive_from k n s := (Err timed_out, s);
  async_send_to k bs e s := (Ok (zlen bs), (succeed k (WriteAll bs) s));
  close_socket k s :=
    {| opened_sockets := opened_sockets s ∖ {[k]}; outgoing := outgoing s; script := script s |};
}.

#[export] Program Instance network_laws : SocketLaws network := {
  open_sockets := opened_sockets;
  sent k s := default [] (outgoing s !! k);
}.
Next Obligation. intros s. apply (is_fresh (opened_sockets s)). Qed.
Next Obligation.
  intros k c s ec s'. simpl. destruct (default None _) as [e|].
  - intros [= <- <-]. by destruct c.
  - intros [= <- <-]. destruct c; simpl; try done; by rewrite lookup_insert_eq.
Qed.
Next Obligation.
  intros k c s j Hj. simpl. destruct (default None _) as [e|]; [done|].
  destruct c; simpl; try done; by rewrite lookup_insert_ne.
Qed.
Next Obligation. done. Qed.
Next Obligation. done. Qed.

Definition quiet (results : list (option errc)) : network :=
  {| opened_sockets := ∅; outgoing := ∅; script := results |}.

Definition example_endpoint : endpoint := {| ep_address := any_v4; ep_port := 80 |}.

(** A connection that sends two bytes, and one whose connect fails *)
Lemma connector_sockets_witness :
  let run results := connect (Connects := system_connector true) example_endpoint [1; 2] default_options (quiet results) in
  sent (new_socket (quiet [])) (run []).2 = [1; 2] ∧ open_sockets (run [None; None; None; Some timed_out]).2 = ∅.
Proof.
  split.
  - pose proof (connector_sockets true example_endpoint [1; 2] default_options (quiet [])) as [[_ Hok] _].
    exact (proj2 (proj2 Hok)).
  - pose proof (connector_sockets true example_endpoint [1; 2] default_options
      (quiet [None; None; None; Some timed_out])) as [[_ Herr] _].
    exact (proj2 Herr).
Defined.
