(* ===== verification/Icmp.v ===== *)
(** * net/icmp-client: echo requests and their checksum

    The header is big-endian; the checksum is computed in 32 bits over the
    header without the checksum field and the payload. *)

From S2P Require Import Prelude.

Record IcmpHeader : Type := {
  type : Z;
  code : Z;
  checksum : Z;
  identifier : Z;
  sequence_number : Z;
}.

Definition echo_reply : Z := 0.
Definition echo_request : Z := 8.

(** The while loop of compute_checksum and the odd byte after it *)
Fixpoint add_words (sum : Z) (buffer : list Z) : Z :=
  match buffer with
  | b0 :: b1 :: buffer => add_words (u32 (sum + Z.lor (b0 ≪ 8) b1)) buffer
  | [b0] => u32 (sum + (b0 ≪ 8))
  | [] => sum
  end.

(** compute_checksum *)
Definition compute_checksum (buffer : list Z) (h : IcmpHeader) : IcmpHeader :=
  let sum := Z.lor (type h ≪ 8) (code h) in
  let sum := u32 (sum + identifier h) in
  let sum := u32 (sum + sequence_number h) in
  let sum := add_words sum buffer in
  let sum := u32 ((sum ≫ 16) + Z.land sum 65535) in
  let sum := u32 (sum + (sum ≫ 16)) in
  {| type := type h; code := code h; checksum := u16 (Z.lnot sum); identifier := identifier h;
     sequence_number := sequence_number h |}.

Definition be16 (z : Z) : list Z := [z / 256; z mod 256].

(** The bytes of an IcmpHeader *)
Definition encode_header (h : IcmpHeader) : list Z :=
  [type h; code h] ++ be16 (checksum h) ++ be16 (identifier h) ++ be16 (sequence_number h).

(** The packet that IcmpClient::Operation::start sends *)
Definition start_packet (identifier_ sequence_number_ : Z) (buffer : list Z) : list Z :=
  encode_header (compute_checksum buffer
    {| type := echo_request; code := 0; checksum := 0; identifier := identifier_;
       sequence_number := sequence_number_ |}) ++ buffer.

(** ** The Internet checksum of RFC 1071 *)

Fixpoint words (bs : list Z) : list Z :=
  match bs with
  | b0 :: b1 :: bs => (b0 * 256 + b1) :: words bs
  | [b0] => [b0 * 256]
  | [] => []
  end.

(** One's complement addition of 16 bit words *)
Definition ones_add (a b : Z) : Z := if a + b <? 65536 then a + b else a + b - 65535.

Definition ones_sum (ws : list Z) : Z := foldr ones_add 0 ws.

Definition total (ws : list Z) : Z := foldr Z.add 0 ws.

Lemma pair_ind {A} (P : list A → Prop) :
  P [] → (∀ x, P [x]) → (∀ x y l, P l → P (x :: y :: l)) → ∀ l, P l.
Proof.
  intros H0 H1 H2. fix IH 1. intros [|x [|y l]]; [exact H0|exact (H1 x)|apply H2, IH].
Qed.

Lemma words_range bs : Forall is_byte bs → Forall (in_u 16) (words bs).
Proof.
  induction bs as [|b|b0 b1 bs IH] using pair_ind; [by constructor| |];
    cbn [words]; rewrite !Forall_cons; unfold is_byte, in_u.
  - intros [? _]. split; [lia|constructor].
  - intros (? & ? & Hbs). split; [lia|]. by apply IH.
Qed.

(** Addition with end-around carry is addition modulo 65535, and 0 only for 0. *)
Lemma ones_sum_spec ws :
  Forall (in_u 16) ws →
  0 ≤ ones_sum ws ≤ 65535 ∧ ones_sum ws mod 65535 = total ws mod 65535 ∧ 0 ≤ total ws ∧
  (ones_sum ws = 0 → total ws = 0).
Proof.
  induction 1 as [|w ws Hw _ (IH1 & IH2 & IH3 & IH4)]; [done|]. unfold in_u in Hw.
  cbn [ones_sum total foldr]. fold (ones_sum ws). fold (total ws). unfold ones_add.
  destruct (Z.ltb_spec (w + ones_sum ws) 65536); split_and!; try lia.
  - by rewrite Zplus_mod, IH2, <- Zplus_mod.
  - replace (w + ones_sum ws - 65535) with (w + ones_sum ws + (-1) * 65535) by lia.
    rewrite Z.mod_add by lia. by rewrite Zplus_mod, IH2, <- Zplus_mod.
Qed.

Lemma lor_byte a b : 0 ≤ b < 256 → Z.lor (a ≪ 8) b = a * 256 + b.
Proof. intros. rewrite Z.lor_comm, lor_shiftl_add by lia. simpl. lia. Qed.

Lemma add_words_total sum bs :
  Forall is_byte bs → 0 ≤ sum → sum + total (words bs) < 2 ^ 32 →
  add_words sum bs = sum + total (words bs).
Proof.
  revert sum. induction bs as [|b|b0 b1 bs IH] using pair_ind; intros sum; cbn [add_words words total foldr].
  - lia.
  - rewrite Forall_singleton. unfold is_byte. intros. rewrite Z.shiftl_mul_pow2 by lia.
    change (2 ^ 8) with 256. rewrite uwrap_id by (unfold in_u; lia). lia.
  - rewrite !Forall_cons. unfold is_byte. intros (? & ? & Hbs) ? Hlt. fold (total (words bs)) in *.
    assert (0 ≤ total (words bs)) by (by apply ones_sum_spec, words_range).
    rewrite lor_byte by lia. rewrite uwrap_id by (unfold in_u; lia). rewrite IH by (done || lia). lia.
Qed.

(** The two folds and the complement. *)
Lemma fold_complement s :
  0 ≤ s < 2 ^ 32 →
  let f1 := u32 ((s ≫ 16) + Z.land s 65535) in
  let f2 := u32 (f1 + (f1 ≫ 16)) in
  in_u 16 (u16 (Z.lnot f2)) ∧ (s + u16 (Z.lnot f2)) mod 65535 = 0.
Proof.
  intros Hs f1 f2. split; [apply uwrap_range; lia|].
  assert (f1 = s / 65536 + s mod 65536) as Hf1.
  { unfold f1. rewrite Z.shiftr_div_pow2, (land_low_bits _ 16) by (done || lia).
    change (2 ^ 16) with 65536. apply uwrap_id. unfold in_u.
    pose proof (Z.mod_pos_bound s 65536). pose proof (Z.div_pos s 65536).
    pose proof (Z.div_lt_upper_bound s 65536 65536). lia. }
  pose proof (Z.mod_pos_bound s 65536 ltac:(lia)) as Hm.
  pose proof (Z.div_pos s 65536 ltac:(lia) ltac:(lia)) as Hd.
  pose proof (Z.div_lt_upper_bound s 65536 65536 ltac:(lia) ltac:(lia)) as Hd'.
  assert (f2 = f1 + f1 / 65536) as Hf2.
  { unfold f2. rewrite Z.shiftr_div_pow2 by lia. change (2 ^ 16) with 65536. apply uwrap_id.
    unfold in_u. pose proof (Z.div_pos f1 65536). pose proof (Z.div_lt_upper_bound f1 65536 65536). lia. }
  assert (u16 (Z.lnot f2) = 65535 - f2 mod 65536) as ->.
  { unfold uwrap. change (2 ^ 16) with 65536. unfold Z.lnot.
    pose proof (Z.div_mod f2 65536 ltac:(lia)). pose proof (Z.mod_pos_bound f2 65536 ltac:(lia)).
    symmetry. apply (Z.mod_unique_pos _ _ (- (f2 / 65536) - 1)); lia. }
  pose proof (Z.div_mod s 65536 ltac:(lia)). pose proof (Z.div_mod f1 65536 ltac:(lia)).
  pose proof (Z.mod_pos_bound f1 65536 ltac:(lia)).
  assert (f1 / 65536 = 0 ∨ f1 / 65536 = 1) as Hc.
  { pose proof (Z.div_pos f1 65536). pose proof (Z.div_lt_upper_bound f1 65536 2). lia. }
  assert (f2 mod 65536 = f1 mod 65536 + f1 / 65536) as Hlow.
  { symmetry. apply (Z.mod_unique_pos _ _ (f1 / 65536)); lia. }
  apply Z.mod_divide; [lia|]. exists (s / 65536 + f1 / 65536 + 1). lia.
Qed.

Lemma total_words_bound bs : Forall is_byte bs → 2 * total (words bs) ≤ 65535 * (zlen bs + 1).
Proof.
  induction bs as [|b|b0 b1 bs IH] using pair_ind; cbn [words total foldr].
  - done.
  - rewrite Forall_singleton. unfold is_byte, zlen. simpl. lia.
  - rewrite !Forall_cons. unfold is_byte. intros (? & ? & Hbs). specialize (IH Hbs).
    fold (total (words bs)). rewrite !zlen_cons. lia.
Qed.

Lemma be16_byte z : in_u 16 z → Forall is_byte (be16 z).
Proof.
  intros [? Hz]. change (2 ^ 16) with 65536 in Hz. unfold be16. repeat constructor; unfold is_byte;
    try (apply Z.mod_pos_bound; lia); [apply Z.div_pos; lia|apply Z.div_lt_upper_bound; lia].
Qed.

(** The packet that IcmpClient::Operation::start sends for a payload of up to 65535
    bytes has a valid Internet checksum: the one's complement sum of its words is 65535. *)
Theorem icmp_checksum_valid identifier_ sequence_number_ buffer :
  in_u 16 identifier_ → in_u 16 sequence_number_ → Forall is_byte buffer →
  zlen buffer ≤ 65535 →
  Forall is_byte (start_packet identifier_ sequence_number_ buffer) ∧
  ones_sum (words (start_packet identifier_ sequence_number_ buffer)) = 65535.
Proof.
  intros Hid Hseq Hbuf Hlen. unfold start_packet, compute_checksum, encode_header.
  cbn [type code checksum identifier sequence_number]. set (h := Z.lor _ _).
  assert (h = 2048) as -> by reflexivity. pose proof Hid as [? ?]. pose proof Hseq as [? ?].
  pose proof (total_words_bound buffer Hbuf). change (2 ^ 16) with 65536 in *.
  assert (0 ≤ total (words buffer)) by (by apply ones_sum_spec, words_range).
  rewrite (uwrap_id 32 (2048 + identifier_)) by (unfold in_u; lia).
  rewrite (uwrap_id 32 (2048 + identifier_ + sequence_number_)) by (unfold in_u; lia).
  rewrite add_words_total by (done || lia).
  set (s := 2048 + identifier_ + sequence_number_ + total (words buffer)).
  destruct (fold_complement s) as [Hc Hmod]; [unfold s; lia|]. set (c := u16 _) in *.
  set (p := (_ ++ _) ++ buffer).
  assert (Forall is_byte p) as Hp.
  { unfold p. rewrite !Forall_app. split; [|done].
    split_and!; [by repeat constructor|by apply be16_byte..]. }
  split; [done|]. destruct (ones_sum_spec (words p)) as (Hr & Hm & _ & Hz); [by apply words_range|].
  assert (total (words p) = s + c) as Ht.
  { unfold p, be16, s. simpl. unfold echo_request. fold (total (words buffer)).
    pose proof (Z.div_mod c 256). pose proof (Z.div_mod identifier_ 256).
    pose proof (Z.div_mod sequence_number_ 256). lia. }
  rewrite Ht, Hmod in Hm. pose proof Hc as [? _].
  assert (ones_sum (words p) ≠ 0) by (intros E; apply Hz in E; unfold s in *; lia).
  apply Z.mod_divide in Hm as [q Hq]; lia.
Qed.

Lemma icmp_checksum_valid_witness :
  ones_sum (words (start_packet 4660 7 [1; 2; 3])) = 65535.
Proof. apply (icmp_checksum_valid 4660 7 [1; 2; 3]); [done|done|by repeat constructor|done]. Defined.
