(* ===== verification/TimerList.v ===== *)
(** * net/timer-list

    BasicTimerList: one asio timer serves many Timers of the same duration.  An
    entry of the std::list is known by a number of its own, which stands for the
    iterator that is its handle; [None] is end().  Timers are known by the
    numbers of their objects, and [reaction] is what the callback of a timer
    does to the list when it runs.

    Of the asio timer, [armed] is the pending wait; [queued] are the waits that
    have expired, whose handlers have not run yet and can no longer be cancelled.
    A wait that is cancelled completes with an error, and its handler returns at
    once.  The clock reading of an event is its [now]. *)

From S2P Require Import Prelude.
From Stdlib Require Import Sorted.

Record Entry : Type := { handle : Z; expiry : Z; callback : Z }.

Record TimerList : Type := {
  duration_ : Z;
  list_ : list Entry;
  timers_ : gmap Z (option Z);
  next_handle : Z;
  armed : option Z;
  queued : list Z;
}.

(** BasicTimerList::BasicTimerList *)
Definition make (duration : Z) : TimerList :=
  {| duration_ := duration; list_ := []; timers_ := ∅; next_handle := 0; armed := None;
     queued := [] |}.

Definition set_list (es : list Entry) (l : TimerList) : TimerList :=
  {| duration_ := duration_ l; list_ := es; timers_ := timers_ l; next_handle := next_handle l;
     armed := armed l; queued := queued l |}.

Definition set_timers (ts : gmap Z (option Z)) (l : TimerList) : TimerList :=
  {| duration_ := duration_ l; list_ := list_ l; timers_ := ts; next_handle := next_handle l;
     armed := armed l; queued := queued l |}.

Definition set_next_handle (h : Z) (l : TimerList) : TimerList :=
  {| duration_ := duration_ l; list_ := list_ l; timers_ := timers_ l; next_handle := h;
     armed := armed l; queued := queued l |}.

Definition set_wait (a : option Z) (q : list Z) (l : TimerList) : TimerList :=
  {| duration_ := duration_ l; list_ := list_ l; timers_ := timers_ l;
     next_handle := next_handle l; armed := a; queued := q |}.

(** BasicTimerList::wait: expires_at cancels a wait that is pending. *)
Definition wait : ST TimerList unit :=
  let* l := st_get in
  match list_ l with
  | [] => crash
  | front :: _ => st_modify (set_wait (Some (expiry front)) (queued l))
  end.

(** BasicTimerList::schedule *)
Definition schedule (t now : Z) : ST TimerList Z :=
  let* l := st_get in
  let* e := st_lift (check_s 64 (now + duration_ l)) in
  let h := next_handle l in
  let es := list_ l ++ [{| handle := h; expiry := e; callback := t |}] in
  let* _ := st_modify (λ l, set_next_handle (h + 1) (set_list es l)) in
  let* _ := if (length es =? 1)%nat then wait else st_ret tt in
  st_ret h.

(** The entry of a handle, and the entries without it *)
Fixpoint extract (h : Z) (es : list Entry) : option (Entry * list Entry) :=
  match es with
  | [] => None
  | e :: es =>
      if handle e =? h then Some (e, es)
      else '(x, es) ← extract h es; Some (x, e :: es)
  end.

(** BasicTimerList::update *)
Definition update (h now : Z) : ST TimerList unit :=
  let* l := st_get in
  let* d := st_lift (check_s 64 (now + duration_ l)) in
  match extract h (list_ l) with
  | None => crash
  | Some (e, es) =>
      st_modify (set_list (es ++ [{| handle := h; expiry := d; callback := callback e |}]))
  end.

(** BasicTimerList::cancel *)
Definition cancel (h : Z) : ST TimerList unit :=
  let* l := st_get in
  match extract h (list_ l) with
  | None => crash
  | Some (_, es) =>
      let* _ := st_modify (set_list es) in
      match es with
      | [] => st_modify (set_wait None (queued l))
      | _ => st_ret tt
      end
  end.

(** Timer::Timer *)
Definition timer_construct (t now : Z) : ST TimerList unit :=
  let* h := schedule t now in
  st_modify (λ l, set_timers (<[t := Some h]> (timers_ l)) l).

(** Timer::~Timer *)
Definition timer_destroy (t : Z) (handle_ : option Z) : ST TimerList unit :=
  let* _ := match handle_ with Some h => cancel h | None => st_ret tt end in
  st_modify (λ l, set_timers (delete t (timers_ l)) l).

(** Timer::update *)
Definition timer_update (handle_ : option Z) (now : Z) : ST TimerList unit :=
  match handle_ with
  | None => st_ret tt
  | Some h => update h now
  end.

Inductive cmd : Type :=
  | Construct (t : Z)
  | Update (t : Z)
  | Destroy (t : Z).

(** The Timer of a call *)
Definition target (c : cmd) : Z := match c with Construct t | Update t | Destroy t => t end.

(** A call that a program can make: only objects that exist are used. *)
Definition exec (now : Z) (c : cmd) : ST TimerList unit :=
  let* l := st_get in
  match c with
  | Construct t =>
      match timers_ l !! t with None => timer_construct t now | Some _ => st_ret tt end
  | Update t =>
      match timers_ l !! t with Some h => timer_update h now | None => st_ret tt end
  | Destroy t =>
      match timers_ l !! t with Some h => timer_destroy t h | None => st_ret tt end
  end.

Fixpoint exec_all (now : Z) (cs : list cmd) : ST TimerList unit :=
  match cs with
  | [] => st_ret tt
  | c :: cs => let* _ := exec now c in exec_all now cs
  end.

Section callbacks.
Context (reaction : Z → list cmd).

(** The callback of an entry: it marks its Timer and runs the user's callback. *)
Definition invoke (now : Z) (e : Entry) : ST TimerList unit :=
  let* l := st_get in
  match timers_ l !! callback e with
  | None => crash
  | Some _ =>
      let* _ := st_modify (set_timers (<[callback e := None]> (timers_ l))) in
      exec_all now (reaction (callback e))
  end.

(** The while loop of the handler: the timers that it fired *)
Fixpoint fire_loop (fuel : nat) (now e : Z) : ST TimerList (list Z) :=
  match fuel with
  | O => st_lift Hang
  | S fuel =>
      let* l := st_get in
      match list_ l with
      | [] => st_ret []
      | front :: _ =>
          if expiry front <=? e then
            let* _ := invoke now front in
            let* _ := st_modify (λ l, set_list (drop 1 (list_ l)) l) in
            let* fired := fire_loop fuel now e in
            st_ret (callback front :: fired)
          else st_ret []
      end
  end.

(** The handler of a wait for [e] *)
Definition handler (now e : Z) : ST TimerList (list Z) :=
  let* l := st_get in
  let* fired := fire_loop (S (length (list_ l))) now e in
  let* l := st_get in
  let* _ := match list_ l with [] => st_ret tt | _ => wait end in
  st_ret fired.

Inductive event : Type :=
  | Call (c : cmd)
  | Expire
  | Handle.

(** An event at time [now]: the timers that it fired *)
Definition step (now : Z) (ev : event) : ST TimerList (list Z) :=
  match ev with
  | Call c => let* _ := exec now c in st_ret []
  | Expire =>
      let* l := st_get in
      match armed l with
      | Some e =>
          if e <=? now then
            let* _ := st_put (set_wait None (queued l ++ [e]) l) in st_ret []
          else st_ret []
      | None => st_ret []
      end
  | Handle =>
      let* l := st_get in
      match queued l with
      | [] => st_ret []
      | e :: q =>
          let* _ := st_put (set_wait (armed l) q l) in
          handler now e
      end
  end.

Fixpoint run (events : list (Z * event)) : ST TimerList (list (Z * list Z)) :=
  match events with
  | [] => st_ret []
  | (now, ev) :: events =>
      let* fired := step now ev in
      let* more := run events in
      st_ret ((now, fired) :: more)
  end.

(** ** Specification: the deadlines of the timers, and the waits *)

Definition spec_exec (duration now : Z) (m : gmap Z (option Z)) (c : cmd) : gmap Z (option Z) :=
  match c with
  | Construct t => match m !! t with None => <[t := Some (now + duration)]> m | Some _ => m end
  | Update t =>
      match m !! t with Some (Some _) => <[t := Some (now + duration)]> m | _ => m end
  | Destroy t => delete t m
  end.

Definition spec_exec_all (duration now : Z) (cs : list cmd) (m : gmap Z (option Z)) :
    gmap Z (option Z) :=
  foldl (spec_exec duration now) m cs.

(** No timer is running. *)
Definition idle (m : gmap Z (option Z)) : bool := bool_decide (map_Forall (λ _ o, o = None) m).

Definition earliest (m : gmap Z (option Z)) (d : Z) : Prop :=
  (∃ t, m !! t = Some (Some d)) ∧ ∀ t' d', m !! t' = Some (Some d') → d ≤ d'.

(** The deadlines, the end of the wait that is pending, and the ends of the waits whose
    handlers have not run yet *)
Record Plan : Type := {
  plan_deadlines : gmap Z (option Z);
  plan_wait : option Z;
  plan_ended : list Z;
}.

Definition no_timers : Plan := {| plan_deadlines := ∅; plan_wait := None; plan_ended := [] |}.

(** The first timer to run starts a wait, and the last one to go cancels it. *)
Definition call_wait (duration now : Z) (m : gmap Z (option Z)) (c : cmd) (w : option Z) : option Z :=
  match c with
  | Construct t =>
      match m !! t with None => if idle m then Some (now + duration) else w | Some _ => w end
  | Update _ => w
  | Destroy t =>
      match m !! t with Some (Some _) => if idle (delete t m) then None else w | _ => w end
  end.

Definition plan_exec (duration now : Z) (p : Plan) (c : cmd) : Plan :=
  {| plan_deadlines := spec_exec duration now (plan_deadlines p) c;
     plan_wait := call_wait duration now (plan_deadlines p) c (plan_wait p);
     plan_ended := plan_ended p |}.

Definition plan_exec_all (duration now : Z) (cs : list cmd) (p : Plan) : Plan :=
  foldl (plan_exec duration now) p cs.

(** The timers with a deadline of at most [e] fire, the earliest first, and what
    their callbacks do happens in between. *)
Inductive spec_fires (duration now e : Z) :
    gmap Z (option Z) → list Z → gmap Z (option Z) → Prop :=
  | fires_done m :
      (∀ t d, m !! t = Some (Some d) → e < d) → spec_fires duration now e m [] m
  | fires_next m t d fired m' :
      m !! t = Some (Some d) → d ≤ e → (∀ t' d', m !! t' = Some (Some d') → d ≤ d') →
      spec_fires duration now e
        (spec_exec_all duration now (reaction t) (<[t := None]> m)) fired m' →
      spec_fires duration now e m (t :: fired) m'.

(** The wait that a handler leaves: for the earliest deadline, and what it was when no
    timer is running *)
Definition rearmed (m : gmap Z (option Z)) (w w' : option Z) : Prop :=
  (idle m = true ∧ w' = w) ∨ (∃ d, earliest m d ∧ w' = Some d).

(** The end of a wait is due, or not; a handler runs for the wait that ended first. *)
Inductive spec_step (duration now : Z) : Plan → event → list Z → Plan → Prop :=
  | spec_call p c : spec_step duration now p (Call c) [] (plan_exec duration now p c)
  | spec_expire p w :
      plan_wait p = Some w → w ≤ now →
      spec_step duration now p Expire []
        {| plan_deadlines := plan_deadlines p; plan_wait := None; plan_ended := plan_ended p ++ [w] |}
  | spec_not_due p :
      (∀ w, plan_wait p = Some w → now < w) → spec_step duration now p Expire [] p
  | spec_idle p : plan_ended p = [] → spec_step duration now p Handle [] p
  | spec_handle p e q fired m' w' :
      plan_ended p = e :: q → spec_fires duration now e (plan_deadlines p) fired m' →
      rearmed m' (plan_wait p) w' →
      spec_step duration now p Handle fired
        {| plan_deadlines := m'; plan_wait := w'; plan_ended := q |}.

Inductive spec_run (duration : Z) :
    Plan → list (Z * event) → list (Z * list Z) → Plan → Prop :=
  | run_done p : spec_run duration p [] [] p
  | run_next p now ev events fired p1 more p' :
      spec_step duration now p ev fired p1 → spec_run duration p1 events more p' →
      spec_run duration p ((now, ev) :: events) ((now, fired) :: more) p'.
End callbacks.

(** ** The entries and the timers *)

Lemma extract_split e a b :
  NoDup (handle <$> a ++ e :: b) → extract (handle e) (a ++ e :: b) = Some (e, a ++ b).
Proof.
  induction a as [|x a IH]; simpl; intros Hnd; [by rewrite Z.eqb_refl|].
  apply NoDup_cons in Hnd as [Hx Hnd]. rewrite (proj2 (Z.eqb_neq _ _)), IH; [done|done|].
  intros Heq. apply Hx. rewrite Heq, fmap_app. apply elem_of_app. right. by left.
Qed.

Lemma handle_inj es e e' : NoDup (handle <$> es) → e ∈ es → e' ∈ es → handle e = handle e' → e = e'.
Proof.
  intros Hnd (a & b & ->)%list_elem_of_split (a' & b' & Heq)%list_elem_of_split Hh.
  pose proof (extract_split _ _ _ Hnd) as E. rewrite Heq in Hnd, E.
  rewrite Hh, extract_split in E by done. congruence.
Qed.

(** What links the list, the timers and the deadlines.  [dead] is the entry
    whose callback is running, if any: its timer has left it. *)
Record rep (dead : list Entry) (now : Z) (l : TimerList) (live : list Entry)
    (m : gmap Z (option Z)) : Prop := {
  rep_list : list_ l = dead ++ live;
  rep_nodup : NoDup (handle <$> list_ l);
  rep_fresh : Forall (λ e, handle e < next_handle l) (list_ l);
  rep_sorted : StronglySorted Z.le (expiry <$> live);
  rep_bound : Forall (λ e, expiry e ≤ now + duration_ l) live;
  rep_timers t h : timers_ l !! t = Some (Some h) ↔ ∃ e, e ∈ live ∧ handle e = h ∧ callback e = t;
  rep_deadline t d : m !! t = Some (Some d) ↔ ∃ e, e ∈ live ∧ expiry e = d ∧ callback e = t;
  rep_idle t : m !! t = Some None ↔ timers_ l !! t = Some None;
}.

(** Every entry has a wait that ends no later than it. *)
Definition awake (l : TimerList) : Prop :=
  ∀ x, x ∈ list_ l → ∃ w, (armed l = Some w ∨ w ∈ queued l) ∧ w ≤ expiry x.

(** The pending wait is for the first entry. *)
Definition precise (l : TimerList) : Prop :=
  ∀ f rest, list_ l = f :: rest → armed l = Some (expiry f).

Lemma rep_first dead now l f rest m x :
  rep dead now l (f :: rest) m → x ∈ f :: rest → expiry f ≤ expiry x.
Proof.
  intros H Hx. pose proof (rep_sorted _ _ _ _ _ H) as Hs. rewrite fmap_cons in Hs.
  inversion Hs as [|?? _ Hmin]; subst. rewrite Forall_fmap, Forall_forall in Hmin.
  apply elem_of_cons in Hx as [->|Hx]; [lia|by apply Hmin].
Qed.

Lemma rep_earliest dead now l f rest m :
  rep dead now l (f :: rest) m → ∀ t d, m !! t = Some (Some d) → expiry f ≤ d.
Proof.
  intros H t d Hm. apply (rep_deadline _ _ _ _ _ H) in Hm as (x & Hx & <- & _). by eapply rep_first.
Qed.

Lemma precise_awake now l live m : rep [] now l live m → precise l → awake l.
Proof.
  intros H Hp x Hx. pose proof (rep_list _ _ _ _ _ H) as Hl. simpl in Hl. rewrite Hl in Hx.
  destruct live as [|f rest]; [by apply not_elem_of_nil in Hx|]. exists (expiry f).
  split; [left; by eapply Hp|]. by eapply rep_first.
Qed.

Lemma rep_handle dead now l live m e :
  rep dead now l live m → e ∈ live → timers_ l !! callback e = Some (Some (handle e)).
Proof. intros H He. apply (rep_timers _ _ _ _ _ H). eauto. Qed.

Lemma rep_none dead now l live m t : rep dead now l live m → m !! t = None ↔ timers_ l !! t = None.
Proof.
  intros H. pose proof (rep_idle _ _ _ _ _ H t) as Hi.
  pose proof (rep_timers _ _ _ _ _ H t) as Ht. pose proof (rep_deadline _ _ _ _ _ H t) as Hd.
  destruct (m !! t) as [[d|]|] eqn:E, (timers_ l !! t) as [[h|]|] eqn:E'; try done.
  - destruct (proj1 (Hd d) eq_refl) as (e & He & _ & Hc). subst t.
    rewrite (rep_handle _ _ _ _ _ _ H He) in E'. done.
  - naive_solver.
  - destruct (proj1 (Ht h) eq_refl) as (e & He & _ & Hc).
    assert (None = Some (Some (expiry e))) by (apply Hd; eauto). done.
  - naive_solver.
Qed.

Lemma rep_unique dead now l live m e e' :
  rep dead now l live m → e ∈ live → e' ∈ live → callback e = callback e' → e = e'.
Proof.
  intros H He He' Hc. pose proof (rep_handle _ _ _ _ _ _ H He) as Hh.
  rewrite Hc, (rep_handle _ _ _ _ _ _ H He') in Hh. injection Hh as Hh.
  apply (handle_inj _ _ _ (rep_nodup _ _ _ _ _ H)); [| |done];
    rewrite (rep_list _ _ _ _ _ H); apply elem_of_app; by right.
Qed.

Lemma StronglySorted_snoc (zs : list Z) z :
  StronglySorted Z.le zs → Forall (λ x, x ≤ z) zs → StronglySorted Z.le (zs ++ [z]).
Proof.
  induction 1 as [|x zs Hs IH Hx]; intros Hz; simpl; [by repeat constructor|].
  apply Forall_cons in Hz as [? Hz]. constructor; [by apply IH|]. apply Forall_app. by split; [|constructor].
Qed.

Lemma StronglySorted_drop_mid (zs1 zs2 : list Z) z :
  StronglySorted Z.le (zs1 ++ z :: zs2) → StronglySorted Z.le (zs1 ++ zs2).
Proof.
  induction zs1 as [|x zs1 IH]; simpl; intros H; inversion H as [|?? Hs Hf]; subst; [done|].
  constructor; [by apply IH|]. rewrite Forall_app, Forall_cons in Hf. apply Forall_app. naive_solver.
Qed.

(** ** Calls *)

(** What a call leaves: the same duration and queue, the entries awake, and during a
    callback the same wait. *)
Definition kept (dead : list Entry) (l l' : TimerList) : Prop :=
  duration_ l' = duration_ l ∧ queued l' = queued l ∧ (dead = [] → awake l → awake l') ∧
  (dead ≠ [] → armed l' = armed l).

Lemma rep_idle_map dead now l live m : rep dead now l live m → idle m = bool_decide (live = []).
Proof.
  intros H. apply bool_decide_ext. split.
  - intros Hm. destruct live as [|x live]; [done|].
    assert (m !! callback x = Some (Some (expiry x))) as Hx; [|by apply Hm in Hx].
    apply (rep_deadline _ _ _ _ _ H). exists x. split; [by left|done].
  - intros -> t [d|] Hm; [|done]. apply (rep_deadline _ _ _ _ _ H) in Hm as (x & Hx & _).
    by apply not_elem_of_nil in Hx.
Qed.

Lemma rep_set_wait dead now l live m a q :
  rep dead now l live m → rep dead now (set_wait a q l) live m.
Proof. by intros []. Qed.

Definition new_entry (l : TimerList) (t now : Z) : Entry :=
  {| handle := next_handle l; expiry := now + duration_ l; callback := t |}.

Definition pushed (l : TimerList) (t now : Z) : TimerList :=
  set_timers (<[t := Some (next_handle l)]> (timers_ l))
    (set_next_handle (next_handle l + 1) (set_list (list_ l ++ [new_entry l t now]) l)).

Lemma rep_pushed dead now l live m t :
  rep dead now l live m → timers_ l !! t = None →
  rep dead now (pushed l t now) (live ++ [new_entry l t now]) (<[t := Some (now + duration_ l)]> m).
Proof.
  intros [Hl Hnd Hfr Hs Hb Hti Hde Hid] Ht. set (new := new_entry l t now).
  assert (∀ e, e ∈ live → callback e ≠ t) as Hne.
  { intros e He <-. assert (None = Some (Some (handle e))); [|done]. rewrite <- Ht. apply Hti. eauto. }
  split; simpl.
  - by rewrite Hl, app_assoc.
  - rewrite fmap_app. apply NoDup_app. split; [done|]. split; [|apply NoDup_singleton].
    intros h (e & -> & He)%list_elem_of_fmap Hin%list_elem_of_singleton.
    rewrite Forall_forall in Hfr. specialize (Hfr e He). simpl in Hin. lia.
  - apply Forall_app. split; [|repeat constructor; simpl; lia].
    eapply Forall_impl; [done|]. simpl. lia.
  - rewrite fmap_app. apply StronglySorted_snoc; [done|]. by apply Forall_fmap.
  - apply Forall_app. split; [done|]. repeat constructor. simpl. lia.
  - intros t' h. setoid_rewrite elem_of_app. setoid_rewrite list_elem_of_singleton.
    destruct (decide (t' = t)) as [->|Hn].
    + rewrite lookup_insert_eq. split; [intros [= <-]; exists new; eauto|].
      intros (e & [He| ->] & <- & Hc); [by destruct (Hne e He)|done].
    + rewrite lookup_insert_ne, Hti by done. split; [naive_solver|].
      intros (e & [He| ->] & Hh & Hc); [eauto|by simpl in Hc].
  - intros t' d. setoid_rewrite elem_of_app. setoid_rewrite list_elem_of_singleton.
    destruct (decide (t' = t)) as [->|Hn].
    + rewrite lookup_insert_eq. split; [intros [= <-]; exists new; eauto|].
      intros (e & [He| ->] & <- & Hc); [by destruct (Hne e He)|done].
    + rewrite lookup_insert_ne, Hde by done. split; [naive_solver|].
      intros (e & [He| ->] & Hh & Hc); [eauto|by simpl in Hc].
  - intros t'. destruct (decide (t' = t)) as [->|Hn].
    + by rewrite !lookup_insert_eq.
    + by rewrite !lookup_insert_ne by done.
Qed.

Lemma construct_rep dead now l live m t :
  rep dead now l live m → timers_ l !! t = None → in_s 64 (now + duration_ l) →
  ∃ l' live', timer_construct t now l = (Ok tt, l') ∧ kept dead l l' ∧
    rep dead now l' live' (<[t := Some (now + duration_ l)]> m) ∧
    (dead = [] → armed l' = if idle m then Some (now + duration_ l) else armed l).
Proof.
  intros H Ht Hd. pose proof (rep_list _ _ _ _ _ H) as Hl. rewrite (rep_idle_map _ _ _ _ _ H). pose proof (rep_pushed _ _ _ _ _ _ H Ht) as Hrep.
  unfold timer_construct, schedule. unfold st_bind, st_get, st_lift, st_modify, st_ret.
  rewrite check_s_ok by done. rewrite length_app. simpl length.
  destruct (list_ l) as [|x es] eqn:El; simpl.
  - exists (set_wait (Some (now + duration_ l)) (queued l) (pushed l t now)), (live ++ [new_entry l t now]).
    symmetry in Hl. apply app_nil in Hl as [-> ->].
    split; [|split; [|split; [by apply rep_set_wait|done]]].
    + unfold pushed, wait, st_bind, st_get, st_modify. simpl. by rewrite El.
    + split; [done|]. split; [done|]. split; [|done]. intros _ _ y. simpl. rewrite El. simpl.
      intros ->%list_elem_of_singleton. eexists. split; [by left|]. simpl. lia.
  - eexists _, _. split; [|split; [|split; [exact Hrep|]]].
    + unfold pushed. rewrite El. by rewrite Nat.add_comm.
    + split; [done|]. split; [done|]. split; [|done]. intros -> Ha y. simpl. intros Hy%elem_of_app.
      destruct Hy as [Hy| ->%list_elem_of_singleton]; [by apply Ha|].
      destruct (Ha x) as (w & Hw & Hle); [rewrite El; by left|]. exists w. split; [done|].
      pose proof (rep_bound _ _ _ _ _ H) as Hb. simpl in Hl. rewrite <- Hl in Hb.
      apply Forall_cons in Hb as [Hb _]. simpl. lia.
    + intros ->. simpl in Hl. subst live. by rewrite bool_decide_false.
Qed.

(** The live entry of a timer that has a handle *)
Lemma rep_extract dead now l live m t h :
  rep dead now l live m → timers_ l !! t = Some (Some h) →
  ∃ e a b, handle e = h ∧ callback e = t ∧ live = a ++ e :: b ∧
    extract h (list_ l) = Some (e, dead ++ a ++ b).
Proof.
  intros H Ht. pose proof (rep_list _ _ _ _ _ H) as Hl. pose proof (rep_nodup _ _ _ _ _ H) as Hnd.
  rewrite Hl in Hnd |- *.
  apply (rep_timers _ _ _ _ _ H) in Ht as (e & He & <- & <-).
  apply list_elem_of_split in He as (a & b & ->). exists e, a, b. split_and!; try done.
  rewrite !(assoc_L (++)) in *. by apply extract_split.
Qed.

(** The other live entries are those of the other timers. *)
Lemma rep_others dead now l a e b m x :
  rep dead now l (a ++ e :: b) m → x ∈ a ++ b ↔ x ∈ a ++ e :: b ∧ callback x ≠ callback e.
Proof.
  intros H. rewrite !elem_of_app, elem_of_cons. split; [|naive_solver].
  intros Hx. split; [tauto|]. intros Hc.
  assert (x = e) as -> by (apply (rep_unique _ _ _ _ _ _ _ H); rewrite ?elem_of_app, ?elem_of_cons; tauto).
  pose proof (rep_nodup _ _ _ _ _ H) as Hnd. rewrite (rep_list _ _ _ _ _ H), !fmap_app in Hnd.
  apply NoDup_app in Hnd as (_ & _ & Hnd). rewrite fmap_cons in Hnd.
  apply NoDup_app in Hnd as (_ & Hd & Hnd). apply NoDup_cons in Hnd as [Hnd _].
  destruct Hx as [Hx|Hx]; [|by apply Hnd, list_elem_of_fmap_2].
  apply (Hd (handle e)); [by apply list_elem_of_fmap_2|by left].
Qed.

(** The timer of an entry leaves it: it is destroyed, or it fires. *)
Lemma rep_detach dead dead' now l l' a e b m m' (o : option (option Z)) :
  rep dead now l (a ++ e :: b) m → o = None ∨ o = Some None →
  list_ l' = dead' ++ a ++ b → NoDup (handle <$> list_ l') →
  Forall (λ x, handle x < next_handle l') (list_ l') → duration_ l' = duration_ l →
  timers_ l' !! callback e = o → m' !! callback e = o →
  (∀ t, t ≠ callback e → timers_ l' !! t = timers_ l !! t ∧ m' !! t = m !! t) →
  rep dead' now l' (a ++ b) m'.
Proof.
  intros H Ho Hl' Hnd' Hfr' Hd' Ht Hm Hothers. pose proof (λ x, rep_others _ _ _ _ _ _ _ x H) as Hx.
  destruct H as [Hl Hnd Hfr Hs Hb Hti Hde Hid]. split; try done.
  - rewrite fmap_app in *. by eapply StronglySorted_drop_mid.
  - rewrite Hd'. rewrite Forall_app, Forall_cons in Hb. apply Forall_app. naive_solver.
  - intros t h. destruct (decide (t = callback e)) as [->|Hne].
    + rewrite Ht. split; [naive_solver|]. intros (x & Hin & _ & Hc). apply Hx in Hin. naive_solver.
    + rewrite (proj1 (Hothers t Hne)), Hti. apply ex_under. intros x. rewrite Hx. naive_solver.
  - intros t d. destruct (decide (t = callback e)) as [->|Hne].
    + rewrite Hm. split; [naive_solver|]. intros (x & Hin & _ & Hc). apply Hx in Hin. naive_solver.
    + rewrite (proj2 (Hothers t Hne)), Hde. apply ex_under. intros x. rewrite Hx. naive_solver.
  - intros t. destruct (decide (t = callback e)) as [->|Hne]; [by rewrite Ht, Hm|].
    destruct (Hothers t Hne) as [-> ->]. apply Hid.
Qed.

Lemma sublist_handles {l : TimerList} {dead a e b} :
  list_ l = dead ++ a ++ e :: b → NoDup (handle <$> list_ l) →
  Forall (λ x, handle x < next_handle l) (list_ l) →
  NoDup (handle <$> dead ++ a ++ b) ∧ Forall (λ x, handle x < next_handle l) (dead ++ a ++ b).
Proof.
  intros -> Hnd Hfr. split.
  - rewrite (assoc_L (++)), fmap_app in *. rewrite fmap_cons in Hnd.
    apply NoDup_app in Hnd as (? & Hd & [_ ?]%NoDup_cons). apply NoDup_app. split_and!; try done.
    intros x Hx Hb. by apply (Hd x Hx); right.
  - rewrite !Forall_app, Forall_cons in *. naive_solver.
Qed.

Lemma rep_idle_deleted dead now l live m t :
  rep dead now l live m → timers_ l !! t = Some None →
  rep dead now (set_timers (delete t (timers_ l)) l) live (delete t m).
Proof.
  intros [Hl Hnd Hfr Hs Hb Hti Hde Hid] Ht.
  assert (∀ e, e ∈ live → callback e ≠ t) as Hne.
  { intros e He <-. assert (timers_ l !! callback e = Some (Some (handle e))); [|congruence].
    apply Hti. eauto. }
  split; try done; simpl.
  - intros t' h. destruct (decide (t' = t)) as [->|Hn].
    + rewrite lookup_delete_eq. split; [done|]. intros (e & He & _ & Hc). by destruct (Hne e).
    + by rewrite lookup_delete_ne.
  - intros t' d. destruct (decide (t' = t)) as [->|Hn].
    + rewrite lookup_delete_eq. split; [done|]. intros (e & He & _ & Hc). by destruct (Hne e).
    + by rewrite lookup_delete_ne.
  - intros t'. destruct (decide (t' = t)) as [->|Hn].
    + by rewrite !lookup_delete_eq.
    + by rewrite !lookup_delete_ne by done.
Qed.

Lemma destroy_rep dead now l live m t h :
  rep dead now l live m → timers_ l !! t = Some h →
  ∃ l' live', timer_destroy t h l = (Ok tt, l') ∧ kept dead l l' ∧
    rep dead now l' live' (delete t m) ∧
    (dead = [] → armed l' = if h then if idle (delete t m) then None else armed l else armed l).
Proof.
  intros H Ht. unfold timer_destroy. destruct h as [h|].
  - destruct (rep_extract _ _ _ _ _ _ _ H Ht) as (e & a & b & Hh & <- & -> & He).
    pose proof H as [Hl Hnd Hfr _ _ _ _ _].
    destruct (sublist_handles Hl Hnd Hfr) as [Hnd' Hfr'].
    assert (∀ w q, rep dead now (set_timers (delete (callback e) (timers_ l))
      (set_wait w q (set_list (dead ++ a ++ b) l))) (a ++ b) (delete (callback e) m)) as Hrep.
    { intros w q. apply (rep_detach _ dead now l _ a e b m _ None H); try done; simpl.
      - by left.
      - by rewrite lookup_delete_eq.
      - by rewrite lookup_delete_eq.
      - intros t Hne. by rewrite !lookup_delete_ne by done. }
    rewrite (rep_idle_map _ _ _ _ _ (Hrep None [])).
    unfold cancel, st_bind, st_get, st_modify, st_ret. rewrite He.
    destruct (dead ++ a ++ b) as [|x es] eqn:E.
    + apply app_nil in E as [-> Eab]. eexists _, _. split; [done|].
      split; [|split; [apply (Hrep None (queued l))|by rewrite bool_decide_true]].
      split; [done|]. split; [done|]. split; [|done]. intros _ _ y Hy. by apply not_elem_of_nil in Hy.
    + eexists _, _. split; [done|]. split; [|split; [apply (Hrep (armed l) (queued l))|]].
      * split; [done|]. split; [done|]. split; [|done]. intros _ Ha y Hy. simpl in *. apply Ha.
        rewrite Hl. rewrite <- E in Hy. rewrite !elem_of_app in *. rewrite elem_of_cons. tauto.
      * intros ->. simpl in E. by rewrite E, bool_decide_false.
  - eexists _, live. split; [done|]. split; [done|]. split; [by apply rep_idle_deleted|done].
Qed.

(** The entry of an updated timer moves to the end. *)
Lemma rep_moved dead now l a e b m :
  rep dead now l (a ++ e :: b) m →
  let e' := {| handle := handle e; expiry := now + duration_ l; callback := callback e |} in
  rep dead now (set_list ((dead ++ a ++ b) ++ [e']) l) ((a ++ b) ++ [e'])
    (<[callback e := Some (now + duration_ l)]> m).
Proof.
  intros H e'. pose proof (λ x, rep_others _ _ _ _ _ _ _ x H) as Hx.
  pose proof (λ x, rep_unique _ _ _ _ _ x e H) as Hu.
  destruct H as [Hl Hnd Hfr Hs Hb Hti Hde Hid].
  destruct (sublist_handles Hl Hnd Hfr) as [Hnd' Hfr'].
  assert (handle e ∉ (handle <$> dead ++ a ++ b) ∧ handle e < next_handle l) as [Hnew He].
  { rewrite Hl, (assoc_L (++)) in Hnd, Hfr. rewrite (assoc_L (++)). rewrite fmap_app in *.
    rewrite Forall_app, Forall_cons in Hfr. split; [|naive_solver]. rewrite fmap_cons in Hnd.
    apply NoDup_app in Hnd as (_ & Hd & [Hn _]%NoDup_cons). rewrite elem_of_app. intros [Hi|Hi]; [|done].
    apply (Hd _ Hi). by left. }
  assert (e ∈ a ++ e :: b) as Hin by (apply elem_of_app; right; by left).
  assert (∀ x, x ∈ a ++ e :: b → callback x = callback e → x = e) as Hu' by (intros; by apply Hu).
  clear Hu. rename Hu' into Hu. split; simpl.
  - by rewrite <- !(assoc_L (++)).
  - rewrite fmap_app. apply NoDup_app. split; [done|]. split; [|apply NoDup_singleton].
    intros h Hh ->%list_elem_of_singleton. done.
  - apply Forall_app. split; [done|]. by constructor.
  - rewrite fmap_app. rewrite Forall_app, Forall_cons in Hb. apply StronglySorted_snoc.
    + rewrite fmap_app in *. by eapply StronglySorted_drop_mid.
    + apply Forall_fmap, Forall_app. naive_solver.
  - rewrite Forall_app, Forall_cons in Hb. rewrite !Forall_app, Forall_singleton. simpl.
    split; [naive_solver|lia].
  - intros t h. rewrite Hti. setoid_rewrite elem_of_app at 2. setoid_rewrite list_elem_of_singleton.
    setoid_rewrite Hx. split.
    + intros (x & Hi & <- & <-). destruct (decide (callback x = callback e)) as [Hc|Hc].
      * apply Hu in Hc as ->; [|done]. exists e'. split; [by right|done].
      * exists x. naive_solver.
    + intros (x & [[Hi _]| ->] & <- & <-); eauto.
  - intros t d. setoid_rewrite elem_of_app at 1. setoid_rewrite list_elem_of_singleton.
    setoid_rewrite Hx. destruct (decide (t = callback e)) as [->|Hne].
    + rewrite lookup_insert_eq. split; [intros [= <-]; exists e'; split; [by right|done]|].
      intros (x & [[_ Hi]| ->] & <- & Hc); [done|done].
    + rewrite lookup_insert_ne, Hde by done. split.
      { intros (x & Hi & <- & <-). exists x. split; [by left; split; [|congruence]|done]. }
      intros (x & [[Hi _]| ->] & <- & <-); [eauto|done].
  - intros t. destruct (decide (t = callback e)) as [->|Hne].
    + rewrite lookup_insert_eq. split; [done|]. intros Hn.
      assert (timers_ l !! callback e = Some (Some (handle e))) by (apply Hti; eauto). congruence.
    + by rewrite lookup_insert_ne.
Qed.

Lemma update_rep dead now l live m t h :
  rep dead now l live m → timers_ l !! t = Some h → in_s 64 (now + duration_ l) →
  ∃ l' live', timer_update h now l = (Ok tt, l') ∧ kept dead l l' ∧
    rep dead now l' live' (match h with Some _ => <[t := Some (now + duration_ l)]> m | None => m end) ∧
    armed l' = armed l.
Proof.
  intros H Ht Hd. destruct h as [h|]; simpl; [|exists l, live; done].
  destruct (rep_extract _ _ _ _ _ _ _ H Ht) as (e & a & b & <- & <- & -> & He).
  pose proof (rep_moved _ _ _ _ _ _ _ H) as Hrep.
  unfold update, st_bind, st_get, st_lift, st_modify. rewrite check_s_ok, He by done.
  eexists _, _. split; [done|]. split; [|split; [exact Hrep|done]].
  split; [done|]. split; [done|]. split; [|done]. intros -> Ha x. simpl. intros [Hx| ->%list_elem_of_singleton]%elem_of_app.
  - apply Ha. rewrite (rep_list _ _ _ _ _ H). simpl. rewrite elem_of_app in *. rewrite elem_of_cons. tauto.
  - destruct (Ha e) as (w & Hw & Hle).
    + rewrite (rep_list _ _ _ _ _ H). simpl. apply elem_of_app. right. by left.
    + exists w. split; [done|]. simpl. pose proof (rep_bound _ _ _ _ _ H) as Hb.
      rewrite Forall_app, Forall_cons in Hb. lia.
Qed.

Lemma rep_status dead now l live m t h :
  rep dead now l live m → timers_ l !! t = Some h →
  match h with Some _ => ∃ d, m !! t = Some (Some d) | None => m !! t = Some None end.
Proof.
  intros H Ht. destruct h as [h|]; [|by apply (rep_idle _ _ _ _ _ H)].
  apply (rep_timers _ _ _ _ _ H) in Ht as (e & He & _ & Hc). exists (expiry e).
  apply (rep_deadline _ _ _ _ _ H). eauto.
Qed.

Lemma exec_rep dead now l live m c :
  rep dead now l live m → in_s 64 (now + duration_ l) →
  ∃ l' live', exec now c l = (Ok tt, l') ∧ kept dead l l' ∧
    rep dead now l' live' (spec_exec (duration_ l) now m c) ∧
    (dead = [] → armed l' = call_wait (duration_ l) now m c (armed l)).
Proof.
  intros H Hd. unfold exec, st_bind, st_get.
  destruct c as [t|t|t]; simpl; destruct (timers_ l !! t) as [h|] eqn:Et.
  - pose proof (rep_status _ _ _ _ _ _ _ H Et) as Hs.
    assert (is_Some (m !! t)) as [x ->] by (destruct h; [destruct Hs|]; eauto). by exists l, live.
  - rewrite (proj2 (rep_none _ _ _ _ _ _ H) Et). by eapply construct_rep.
  - pose proof (rep_status _ _ _ _ _ _ _ H Et) as Hs.
    destruct (update_rep _ _ _ _ _ _ _ H Et Hd) as (l' & live' & ? & ? & ? & ?).
    exists l', live'. destruct h; [destruct Hs as [d ->]|rewrite Hs]; done.
  - rewrite (proj2 (rep_none _ _ _ _ _ _ H) Et). by exists l, live.
  - pose proof (rep_status _ _ _ _ _ _ _ H Et) as Hs.
    destruct (destroy_rep _ _ _ _ _ _ _ H Et) as (l' & live' & ? & ? & ? & Hw).
    exists l', live'. split_and!; try done. intros ->. rewrite Hw by done.
    destruct h; [destruct Hs as [d ->]|rewrite Hs]; done.
  - pose proof (proj2 (rep_none _ _ _ _ _ _ H) Et) as Hm. rewrite Hm, delete_id by done. by exists l, live.
Qed.

Lemma kept_trans dead l1 l2 l3 : kept dead l1 l2 → kept dead l2 l3 → kept dead l1 l3.
Proof.
  intros (?&?&?&?) (?&?&?&Ha). split; [congruence|]. split; [congruence|]. split; [auto|].
  intros Hd. rewrite Ha by done. auto.
Qed.

Lemma exec_all_rep dead now cs l live m :
  rep dead now l live m → in_s 64 (now + duration_ l) →
  ∃ l' live', exec_all now cs l = (Ok tt, l') ∧ kept dead l l' ∧
    rep dead now l' live' (spec_exec_all (duration_ l) now cs m).
Proof.
  revert l live m. induction cs as [|c cs IH]; intros l live m H Hd; [by exists l, live|].
  destruct (exec_rep _ _ _ _ _ c H Hd) as (l1 & live1 & H1 & Hk1 & Hr1 & _).
  destruct (IH l1 live1 _ Hr1) as (l2 & live2 & H2 & Hk2 & Hr2); [by rewrite (proj1 Hk1)|].
  exists l2, live2. split; [|split; [by eapply kept_trans|]].
  - cbn [exec_all]. by rewrite (st_bind_ok _ _ _ _ _ H1).
  - by rewrite (proj1 Hk1) in Hr2.
Qed.

(** ** Firing *)

Lemma rep_popped f now l live m :
  rep [f] now l live m → rep [] now (set_list (drop 1 (list_ l)) l) live m.
Proof.
  intros [Hl Hnd Hfr Hs Hb Hti Hde Hid]. rewrite Hl in *. simpl in *.
  apply NoDup_cons in Hnd as [_ Hnd]. apply Forall_cons in Hfr as [_ Hfr].
  by split; simpl; rewrite ?Hl; simpl; rewrite ?drop_0.
Qed.

(** [ks] lists the timers that are due at [e]. *)
Definition due_in (e : Z) (m : gmap Z (option Z)) (ks : list Z) : Prop :=
  ∀ t d, m !! t = Some (Some d) → d ≤ e → t ∈ ks.

Lemma due_in_insert e m ks t o :
  due_in e m ks → match o with Some d => e < d | None => True end → due_in e (<[t := o]> m) ks.
Proof.
  intros H Ho t' d. destruct (decide (t' = t)) as [->|Hne].
  - rewrite lookup_insert_eq. intros [= ->] ?. lia.
  - rewrite lookup_insert_ne by done. apply H.
Qed.

Lemma due_in_fired e m ks t :
  due_in e m ks → due_in e (<[t := None]> m) (filter (λ x, x ≠ t) ks).
Proof.
  intros H t' d [[_ ?]|[Hne Hm]]%lookup_insert_Some ?; [done|].
  apply list_elem_of_filter. split; [done|]. by eapply H.
Qed.

Lemma due_in_exec e m ks duration now c :
  e < now + duration → due_in e m ks → due_in e (spec_exec duration now m c) ks.
Proof.
  intros He H. destruct c as [t|t|t]; simpl.
  - destruct (m !! t); [done|]. by apply due_in_insert.
  - destruct (m !! t) as [[]|]; [by apply due_in_insert|done..].
  - intros t' d [_ Hl]%lookup_delete_Some. by apply H.
Qed.

Lemma due_in_exec_all e m ks duration now cs :
  e < now + duration → due_in e m ks → due_in e (spec_exec_all duration now cs m) ks.
Proof.
  intros He. revert m. induction cs as [|c cs IH]; intros m H; [done|].
  apply IH. by apply due_in_exec.
Qed.

Section firing.
Context (reaction : Z → list cmd).

(** One turn of the loop *)
Lemma invoke_rep now l f rest m :
  rep [] now l (f :: rest) m → in_s 64 (now + duration_ l) →
  let m1 := spec_exec_all (duration_ l) now (reaction (callback f)) (<[callback f := None]> m) in
  ∃ l' live', invoke reaction now f l = (Ok tt, l') ∧ duration_ l' = duration_ l ∧
    queued l' = queued l ∧ armed l' = armed l ∧ rep [] now (set_list (drop 1 (list_ l')) l') live' m1.
Proof.
  intros H Hd m1. pose proof (rep_handle _ _ _ _ _ f H ltac:(by left)) as Hf.
  set (l1 := set_timers (<[callback f := None]> (timers_ l)) l).
  assert (rep [f] now l1 rest (<[callback f := None]> m)) as H1.
  { pose proof H as [Hl Hnd Hfr _ _ _ _ _].
    apply (rep_detach [] [f] now l l1 [] f rest m _ (Some None) H); try done; simpl.
    - by right.
    - by rewrite lookup_insert_eq.
    - by rewrite lookup_insert_eq.
    - intros t Hne. by rewrite !lookup_insert_ne by done. }
  destruct (exec_all_rep _ _ (reaction (callback f)) _ _ _ H1 Hd) as (l2 & live2 & H2 & (Hk & Hq & _ & Ha) & Hr).
  exists l2, live2. split; [|split; [done|split; [done|split; [by apply Ha|by apply rep_popped in Hr]]]].
  unfold invoke, st_bind, st_get, st_modify. rewrite Hf. exact H2.
Qed.

Lemma fire_loop_rep fuel now e l live m ks :
  rep [] now l live m → in_s 64 (now + duration_ l) → e < now + duration_ l →
  due_in e m ks → (length ks < fuel)%nat →
  ∃ fired l' live' m', fire_loop reaction fuel now e l = (Ok fired, l') ∧
    duration_ l' = duration_ l ∧ queued l' = queued l ∧ armed l' = armed l ∧ rep [] now l' live' m' ∧
    spec_fires reaction (duration_ l) now e m fired m'.
Proof.
  revert l live m ks. induction fuel as [|fuel IH]; intros l live m ks H Hd He Hdue Hlen; [lia|].
  cbn [fire_loop]. rewrite (st_bind_ok st_get _ l l l) by done.
  pose proof (rep_list _ _ _ _ _ H) as Hl. simpl in Hl. rewrite Hl.
  destruct live as [|f rest].
  { exists [], l, [], m. split_and!; try done. apply fires_done. intros t d Hm.
    apply (rep_deadline _ _ _ _ _ H) in Hm as (x & Hx & _). by apply not_elem_of_nil in Hx. }
  pose proof (rep_earliest _ _ _ _ _ _ H) as Hfirst.
  destruct (Z.leb_spec (expiry f) e) as [Hle|Hgt].
  - assert (m !! callback f = Some (Some (expiry f))) as Hm.
    { apply (rep_deadline _ _ _ _ _ H). exists f. split; [by left|done]. }
    destruct (invoke_rep _ _ _ _ _ H Hd) as (l1 & live1 & H1 & Hd1 & Hq1 & Ha1 & Hr1).
    destruct (IH _ _ _ (filter (λ t, t ≠ callback f) ks) Hr1)
      as (fired & l2 & live2 & m2 & H2 & Hd2 & Hq2 & Ha2 & Hr2 & Hf2); simpl; rewrite ?Hd1; try done.
    + apply due_in_exec_all; [done|]. by apply due_in_fired.
    + enough (length (filter (λ t, t ≠ callback f) ks) < length ks)%nat by lia.
      apply (length_filter_lt _ _ (callback f)); [by eapply Hdue|by intros []].
    + exists (callback f :: fired), l2, live2, m2. simpl in *. rewrite Hd1 in Hf2. split_and!.
      * rewrite (st_bind_ok _ _ _ _ _ H1). unfold st_bind, st_modify at 1, st_ret. by rewrite H2.
      * congruence.
      * congruence.
      * congruence.
      * done.
      * by eapply fires_next.
  - exists [], l, (f :: rest), m. split_and!; try done. apply fires_done. intros t d Hm.
    specialize (Hfirst t d Hm). lia.
Qed.

Lemma handler_rep now e l live m :
  rep [] now l live m → in_s 64 (now + duration_ l) → e < now + duration_ l →
  ∃ fired l' live' m', handler reaction now e l = (Ok fired, l') ∧
    duration_ l' = duration_ l ∧ queued l' = queued l ∧ precise l' ∧ rearmed m' (armed l) (armed l') ∧
    rep [] now l' live' m' ∧ spec_fires reaction (duration_ l) now e m fired m'.
Proof.
  intros H Hd He. unfold handler. rewrite (st_bind_ok st_get _ l l l) by done.
  destruct (fire_loop_rep (S (length (list_ l))) now e l live m (callback <$> live))
    as (fired & l1 & live1 & m1 & H1 & Hd1 & Hq1 & Ha1 & Hr1 & Hf1); try done.
  { intros t d Hm _. apply (rep_deadline _ _ _ _ _ H) in Hm as (x & Hx & _ & <-).
    by apply list_elem_of_fmap_2. }
  { rewrite (rep_list _ _ _ _ _ H), length_fmap. simpl. lia. }
  rewrite (st_bind_ok _ _ _ _ _ H1), (st_bind_ok st_get _ l1 l1 l1) by done.
  pose proof (rep_list _ _ _ _ _ Hr1) as Hl1. simpl in Hl1. destruct live1 as [|f rest]; rewrite Hl1.
  - exists fired, l1, [], m1. split_and!; try done; [intros f rest; by rewrite Hl1|].
    left. by rewrite (rep_idle_map _ _ _ _ _ Hr1).
  - exists fired, (set_wait (Some (expiry f)) (queued l1) l1), (f :: rest), m1. split_and!; try done.
    + unfold wait, st_bind, st_get, st_modify. by rewrite Hl1.
    + intros f' rest'. simpl. rewrite Hl1. by intros [= <- <-].
    + right. exists (expiry f). split; [|done]. split; [|by eapply rep_earliest].
      exists (callback f). apply (rep_deadline _ _ _ _ _ Hr1). exists f. split; [by left|done].
    + by apply rep_set_wait.
Qed.

(** ** Runs *)

Definition inv (duration now : Z) (l : TimerList) (m : gmap Z (option Z)) : Prop :=
  duration_ l = duration ∧ awake l ∧ Forall (λ w, w ≤ now) (queued l) ∧
  ∃ live, rep [] now l live m.

Lemma inv_mono duration now now' l m : now ≤ now' → inv duration now l m → inv duration now' l m.
Proof.
  intros Hle (Hd & Ha & Hq & live & [Hl Hnd Hfr Hs Hb Hti Hde Hid]). split_and!; try done.
  - eapply Forall_impl; [done|]. simpl. lia.
  - exists live. split; try done. eapply Forall_impl; [done|]. simpl. lia.
Qed.

Lemma empty_inv duration now : inv duration now (make duration) ∅.
Proof.
  split; [done|]. split; [intros x Hx; by apply not_elem_of_nil in Hx|]. split; [constructor|].
  exists []. split; try done; simpl; try constructor; try (intros ?; rewrite ?lookup_empty; naive_solver).
  all: intros (e & He & _); by apply not_elem_of_nil in He.
Qed.

(** What a list looks like from outside *)
Definition plan_of (l : TimerList) (m : gmap Z (option Z)) : Plan :=
  {| plan_deadlines := m; plan_wait := armed l; plan_ended := queued l |}.

Lemma exec_inv duration now c l m :
  inv duration now l m → in_s 64 (now + duration) →
  ∃ l', exec now c l = (Ok tt, l') ∧ inv duration now l' (spec_exec duration now m c) ∧
    plan_of l' (spec_exec duration now m c) = plan_exec duration now (plan_of l m) c.
Proof.
  intros (<- & Ha & Hq & live & H) Hs.
  destruct (exec_rep _ _ _ _ _ c H Hs) as (l' & live' & H1 & (Hd & Hq' & Ha' & _) & Hr & Hw).
  exists l'. split; [done|]. split; [split_and!; [done|by apply Ha'|by rewrite Hq'|eauto]|].
  unfold plan_of, plan_exec. simpl. by rewrite Hq', Hw.
Qed.

Lemma plan_exec_all_deadlines duration now cs p :
  plan_deadlines (plan_exec_all duration now cs p) = spec_exec_all duration now cs (plan_deadlines p).
Proof. unfold plan_exec_all, spec_exec_all. revert p. by induction cs as [|c cs IH]; intros p; simpl; [|rewrite IH]. Qed.

Lemma exec_all_inv duration now cs l m :
  inv duration now l m → in_s 64 (now + duration) →
  let m' := spec_exec_all duration now cs m in
  ∃ l', exec_all now cs l = (Ok tt, l') ∧ inv duration now l' m' ∧
    plan_of l' m' = plan_exec_all duration now cs (plan_of l m).
Proof.
  intros Hinv Hs. revert l m Hinv. induction cs as [|c cs IH]; intros l m Hinv; [by exists l|].
  destruct (exec_inv _ _ c _ _ Hinv Hs) as (l1 & H1 & Hinv1 & Hp1).
  destruct (IH l1 _ Hinv1) as (l2 & H2 & Hinv2 & Hp2). exists l2. cbn [exec_all].
  rewrite (st_bind_ok _ _ _ _ _ H1). split_and!; [done|done|]. simpl. rewrite <- Hp1. exact Hp2.
Qed.

Lemma handle_inv duration now l m e q :
  inv duration now l m → 0 < duration → in_s 64 (now + duration) → queued l = e :: q →
  ∃ fired l' m', step reaction now Handle l = (Ok fired, l') ∧ inv duration now l' m' ∧
    queued l' = q ∧ precise l' ∧ e ≤ now ∧ spec_fires reaction duration now e m fired m' ∧
    spec_step reaction duration now (plan_of l m) Handle fired (plan_of l' m').
Proof.
  intros (Hd & Ha & Hq & live & H) Hpos Hs Eq. rewrite Eq in Hq. apply Forall_cons in Hq as [He Hq].
  apply (rep_set_wait _ _ _ _ _ (armed l) q) in H. subst duration.
  destruct (handler_rep now e _ _ _ H) as (fired & l' & live' & m' & H1 & Hd1 & Hq1 & Hp & Hw & Hr & Hf);
    [done|simpl; lia|].
  exists fired, l', m'. simpl. rewrite (st_bind_ok st_get _ l l l), Eq by done. simpl in Hq1.
  split_and!; try done; [split_and!; [done|by eapply precise_awake|by rewrite Hq1|eauto]|].
  unfold plan_of. rewrite Hq1. by apply (spec_handle _ _ _ (plan_of l m) e q).
Qed.

Lemma step_inv duration now l m ev :
  inv duration now l m → 0 < duration → in_s 64 (now + duration) →
  ∃ fired l' m', step reaction now ev l = (Ok fired, l') ∧ inv duration now l' m' ∧
    spec_step reaction duration now (plan_of l m) ev fired (plan_of l' m').
Proof.
  intros Hinv Hpos Hs. destruct ev as [c| |].
  - destruct (exec_inv _ _ c _ _ Hinv Hs) as (l' & H1 & Hinv' & Hp).
    exists [], l', (spec_exec duration now m c). split; [|split; [done|rewrite Hp; constructor]].
    simpl. by rewrite (st_bind_ok _ _ _ _ _ H1).
  - simpl. rewrite (st_bind_ok st_get _ l l l) by done.
    destruct (armed l) as [w|] eqn:Ew.
    2: { exists [], l, m. split_and!; try done. apply spec_not_due. simpl. by rewrite Ew. }
    destruct (Z.leb_spec w now) as [Hwn|].
    2: { exists [], l, m. split_and!; try done. apply spec_not_due. simpl. rewrite Ew. by intros ? [= <-]. }
    eexists [], _, m. split; [done|]. split; [|by apply (spec_expire _ _ _ (plan_of l m) w)].
    destruct Hinv as (Hdd & Ha & Hq & live & H). split_and!; try done.
    + intros x Hx. destruct (Ha x Hx) as (w' & Hw & Hle). exists w'. split; [|done]. right. simpl.
      rewrite elem_of_app, list_elem_of_singleton. destruct Hw as [Hw|Hw]; [right; congruence|by left].
    + simpl. apply Forall_app. split; [done|by constructor].
    + exists live. by apply rep_set_wait.
  - destruct (queued l) as [|e q] eqn:Eq.
    + exists [], l, m. simpl. rewrite (st_bind_ok st_get _ l l l), Eq by done.
      split; [done|]. split; [done|]. by apply spec_idle.
    + destruct (handle_inv _ _ _ _ _ _ Hinv Hpos Hs Eq) as (fired & l' & m' & H1 & H2 & _ & _ & _ & _ & H3).
      by exists fired, l', m'.
Qed.

(** The times of the events do not decrease and do not overflow. *)
Fixpoint timed {E} (duration now : Z) (events : list (Z * E)) : Prop :=
  match events with
  | [] => True
  | (now', _) :: events => now ≤ now' ∧ in_s 64 (now' + duration) ∧ timed duration now' events
  end.

Fixpoint end_time {E} (now : Z) (events : list (Z * E)) : Z :=
  match events with
  | [] => now
  | (now', _) :: events => end_time now' events
  end.

Lemma run_inv duration now events l m :
  inv duration now l m → 0 < duration → timed duration now events →
  ∃ fired l' m', run reaction events l = (Ok fired, l') ∧
    inv duration (end_time now events) l' m' ∧ spec_run reaction duration (plan_of l m) events fired (plan_of l' m').
Proof.
  intros Hinv Hpos. revert now l m Hinv. induction events as [|[now' ev] events IH];
    intros now l m Hinv Ht; [by exists [], l, m; split; [|split; [|constructor]]|].
  destruct Ht as (Hle & Hs & Ht). apply (inv_mono _ _ now') in Hinv; [|done].
  destruct (step_inv _ _ _ _ ev Hinv Hpos Hs) as (f1 & l1 & m1 & H1 & Hinv1 & Hs1).
  destruct (IH now' l1 m1 Hinv1 Ht) as (f2 & l2 & m2 & H2 & Hinv2 & Hs2).
  exists ((now', f1) :: f2), l2, m2. split_and!; [|done|by econstructor].
  cbn [run]. by rewrite (st_bind_ok _ _ _ _ _ H1), (st_bind_ok _ _ _ _ _ H2).
Qed.

(** ** Nothing stays due

    The handlers that are queued run, and then the timer expires and its handler
    runs, [n] times. *)

Definition rounds (now : Z) (n : nat) : list (Z * event) :=
  concat (replicate n [(now, Expire); (now, Handle)]).

(** Firing takes timers out of those that are due. *)
Lemma spec_fires_due duration now e m fired m' ks :
  0 < duration → e ≤ now → spec_fires reaction duration now e m fired m' → due_in now m ks →
  ∃ ks', due_in now m' ks' ∧ (length ks' + length fired ≤ length ks)%nat.
Proof.
  intros Hpos He Hf. revert ks. induction Hf as [m|m t d fired m' Hm Hd _ _ IH]; intros ks Hdue.
  { exists ks. simpl. split; [done|lia]. }
  destruct (IH (filter (λ x, x ≠ t) ks)) as (ks' & Hdue' & Hlen).
  { apply due_in_exec_all; [lia|]. by apply due_in_fired. }
  exists ks'. split; [done|]. simpl.
  enough (length (filter (λ x, x ≠ t) ks) < length ks)%nat by lia.
  apply (length_filter_lt _ _ t); [eapply Hdue; [done|lia]|by intros []].
Qed.

Lemma spec_fires_some duration now e m fired m' t :
  spec_fires reaction duration now e m fired m' → m !! t = Some (Some e) → (0 < length fired)%nat.
Proof. intros [m1 Hnone|] Hm; simpl; [|lia]. specialize (Hnone t e Hm). lia. Qed.

Lemma step_expire now l w :
  armed l = Some w → w ≤ now →
  step reaction now Expire l = (Ok [], set_wait None (queued l ++ [w]) l).
Proof.
  intros Ha Hw. simpl. rewrite (st_bind_ok st_get _ l l l), Ha by done.
  by rewrite (proj2 (Z.leb_le _ _)).
Qed.

Lemma due_in_nil duration now l m :
  inv duration now l m → queued l = [] → (∀ w, armed l = Some w → now < w) → due_in now m [].
Proof.
  intros (_ & Ha & _ & live & H) Hq Hw t d Hm Hd.
  apply (rep_deadline _ _ _ _ _ H) in Hm as (x & Hx & <- & _).
  destruct (Ha x) as (w & [Hw'|Hw'] & Hle); [by rewrite (rep_list _ _ _ _ _ H)| |].
  - apply Hw in Hw'. lia.
  - rewrite Hq in Hw'. by apply not_elem_of_nil in Hw'.
Qed.

(** The wait ends and its handler runs, when no other handler is queued. *)
Lemma round_active duration now l m ks w :
  inv duration now l m → 0 < duration → in_s 64 (now + duration) → queued l = [] → due_in now m ks →
  armed l = Some w → w ≤ now →
  ∃ f l' m' ks', run reaction (rounds now 1) l = (Ok [(now, []); (now, f)], l') ∧
    inv duration now l' m' ∧ queued l' = [] ∧ due_in now m' ks' ∧ precise l' ∧
    spec_run reaction duration (plan_of l m) (rounds now 1) [(now, []); (now, f)] (plan_of l' m') ∧
    (length ks' ≤ length ks)%nat ∧ (precise l → list_ l ≠ [] → (length ks' < length ks)%nat).
Proof.
  intros Hinv Hpos Hs Hq Hdue Hw Hwn.
  destruct (step_inv _ _ _ _ Expire Hinv Hpos Hs) as (f1 & l1 & m1 & H1 & Hinv1 & Hsp1).
  pose proof H1 as H1'. rewrite (step_expire _ _ _ Hw Hwn) in H1'. injection H1' as <- <-.
  assert (m1 = m) as -> by (inversion Hsp1; congruence).
  destruct (handle_inv _ _ _ _ w [] Hinv1 Hpos Hs) as (f & l' & m' & H2 & Hinv2 & Hq2 & Hp & Hle & Hf & Hsp2);
    [simpl; by rewrite Hq|].
  destruct (spec_fires_due _ _ _ _ _ _ ks Hpos Hle Hf Hdue) as (ks' & Hdue' & Hlen).
  exists f, l', m', ks'. split_and!; try done; try lia.
  - cbn [rounds replicate concat app run]. rewrite (st_bind_ok _ _ _ _ _ H1).
    unfold st_bind at 1. by rewrite (st_bind_ok _ _ _ _ _ H2).
  - econstructor; [done|]. econstructor; [done|constructor].
  - intros Hpl Hne. assert (0 < length f)%nat; [|lia].
    destruct Hinv as (_ & _ & _ & [|x rest] & H); pose proof (rep_list _ _ _ _ _ H) as Hl; [done|].
    apply (spec_fires_some _ _ _ _ _ _ (callback x) Hf). rewrite (Hpl _ _ Hl) in Hw.
    injection Hw as <-. apply (rep_deadline _ _ _ _ _ H). exists x. split; [by left|done].
Qed.

Lemma round_idle duration now l m :
  queued l = [] → (∀ w, armed l = Some w → now < w) →
  run reaction (rounds now 1) l = (Ok [(now, []); (now, [])], l) ∧
  spec_run reaction duration (plan_of l m) (rounds now 1) [(now, []); (now, [])] (plan_of l m).
Proof.
  intros Hq Hw. split; [|econstructor; [by apply spec_not_due|econstructor; [by apply spec_idle|constructor]]].
  assert (step reaction now Expire l = (Ok [], l)) as H1.
  { simpl. rewrite (st_bind_ok st_get _ l l l) by done. destruct (armed l) as [w|]; [|done].
    by rewrite (proj2 (Z.leb_gt _ _)) by auto. }
  assert (step reaction now Handle l = (Ok [], l)) as H2.
  { simpl. by rewrite (st_bind_ok st_get _ l l l), Hq by done. }
  cbn [rounds replicate concat app run]. rewrite (st_bind_ok _ _ _ _ _ H1).
  unfold st_bind at 1. by rewrite (st_bind_ok _ _ _ _ _ H2).
Qed.

Lemma run_app e1 e2 l f1 l1 f2 l2 :
  run reaction e1 l = (Ok f1, l1) → run reaction e2 l1 = (Ok f2, l2) →
  run reaction (e1 ++ e2) l = (Ok (f1 ++ f2), l2).
Proof.
  revert l f1. induction e1 as [|[now ev] e1 IH]; intros l f1 H1 H2; cbn [app run] in *.
  - by injection H1 as <- ->.
  - apply st_bind_inv in H1 as (f & l' & Hs & H1). apply st_bind_inv in H1 as (more & l'' & Hr & H1).
    injection H1 as <- <-. rewrite (st_bind_ok _ _ _ _ _ Hs).
    by rewrite (st_bind_ok _ _ _ _ _ (IH _ _ Hr H2)).
Qed.

Lemma spec_run_app duration m e1 f1 m1 e2 f2 m2 :
  spec_run reaction duration m e1 f1 m1 → spec_run reaction duration m1 e2 f2 m2 →
  spec_run reaction duration m (e1 ++ e2) (f1 ++ f2) m2.
Proof. induction 1; intros; simpl; [done|]. econstructor; eauto. Qed.

Lemma wait_due l now : (∃ w, armed l = Some w ∧ w ≤ now) ∨ (∀ w, armed l = Some w → now < w).
Proof.
  destruct (armed l) as [w|]; [|by right]. destruct (Z.le_gt_cases w now); [left; eauto|].
  right. by intros ? [= <-].
Qed.

Lemma drain duration now n l m ks :
  inv duration now l m → 0 < duration → in_s 64 (now + duration) → queued l = [] → precise l →
  due_in now m ks → (length ks ≤ n)%nat →
  ∃ fired l' m', run reaction (rounds now n) l = (Ok fired, l') ∧
    inv duration now l' m' ∧ spec_run reaction duration (plan_of l m) (rounds now n) fired (plan_of l' m') ∧ due_in now m' [].
Proof.
  intros Hinv Hpos Hs. revert l m ks Hinv. induction n as [|n IH]; intros l m ks Hinv Hq Hp Hdue Hlen.
  { exists [], l, m. split; [done|]. split; [done|]. split; [constructor|]. by destruct ks; simpl in *; [|lia]. }
  change (rounds now (S n)) with (rounds now 1 ++ rounds now n).
  destruct (wait_due l now) as [(w & Hw & Hwn)|Hno].
  - assert (∃ ks, due_in now m ks ∧ (length ks ≤ S n)%nat ∧ (list_ l = [] → ks = [])) as (ks0 & ? & ? & Hnil).
    { destruct (list_ l) eqn:El; [|by exists ks]. exists []. split_and!; simpl; try done; [|lia].
      destruct Hinv as (_ & _ & _ & live & H). intros t d Hm _.
      apply (rep_deadline _ _ _ _ _ H) in Hm as (x & Hx & _). pose proof (rep_list _ _ _ _ _ H) as Hl.
      rewrite El in Hl. simpl in Hl. subst live. by apply not_elem_of_nil in Hx. }
    destruct (round_active _ _ _ _ ks0 w Hinv Hpos Hs) as
      (f & l1 & m1 & ks1 & H1 & Hinv1 & Hq1 & Hdue1 & Hp1 & Hsp1 & Hle & Hlt); try done.
    destruct (IH l1 m1 ks1 Hinv1 Hq1 Hp1 Hdue1) as (f2 & l2 & m2 & H2 & Hi2 & Hsp2 & Hnone).
    { destruct (list_ l) eqn:El; [rewrite Hnil in Hle by done; simpl in *; lia|].
      specialize (Hlt Hp ltac:(done)). lia. }
    eexists _, l2, m2. split; [by eapply run_app|]. split; [done|]. split; [by eapply spec_run_app|done].
  - destruct (round_idle duration now l m Hq Hno) as [H1 Hsp1].
    destruct (IH l m [] Hinv Hq Hp) as (f2 & l2 & m2 & H2 & Hi2 & Hsp2 & Hnone);
      [by eapply due_in_nil|simpl; lia|].
    eexists _, l2, m2. split; [by eapply run_app|]. split; [done|]. split; [by eapply spec_run_app|done].
Qed.

Lemma handle_all duration now l m :
  inv duration now l m → 0 < duration → in_s 64 (now + duration) →
  let events := replicate (length (queued l)) (now, Handle) in
  ∃ fired l' m', run reaction events l = (Ok fired, l') ∧ inv duration now l' m' ∧
    queued l' = [] ∧ spec_run reaction duration (plan_of l m) events fired (plan_of l' m').
Proof.
  intros Hinv Hpos Hs. remember (queued l) as q eqn:Eq. revert l m Hinv Eq.
  induction q as [|e q IH]; intros l m Hinv Eq; simpl.
  { exists [], l, m. split_and!; try done. constructor. }
  destruct (handle_inv _ _ _ _ e q Hinv Hpos Hs (eq_sym Eq))
    as (f1 & l1 & m1 & H1 & Hinv1 & Hq1 & _ & _ & _ & Hsp1).
  destruct (IH l1 m1 Hinv1 (eq_sym Hq1)) as (f2 & l2 & m2 & H2 & Hinv2 & Hq2 & Hsp2).
  exists ((now, f1) :: f2), l2, m2. split_and!; try done.
  - by rewrite (st_bind_ok _ _ _ _ _ H1), (st_bind_ok _ _ _ _ _ H2).
  - by econstructor.
Qed.

(** The first round makes the wait precise. *)
Lemma drain_awake duration now l m ks :
  inv duration now l m → 0 < duration → in_s 64 (now + duration) → queued l = [] → due_in now m ks →
  ∃ fired l' m', run reaction (rounds now (S (length ks))) l = (Ok fired, l') ∧
    inv duration now l' m' ∧
    spec_run reaction duration (plan_of l m) (rounds now (S (length ks))) fired (plan_of l' m') ∧ due_in now m' [].
Proof.
  intros Hinv Hpos Hs Hq Hdue.
  change (rounds now (S (length ks))) with (rounds now 1 ++ rounds now (length ks)).
  destruct (wait_due l now) as [(w & Hw & Hwn)|Hno].
  - destruct (round_active _ _ _ _ ks w Hinv Hpos Hs Hq Hdue Hw Hwn) as
      (f & l1 & m1 & ks1 & H1 & Hinv1 & Hq1 & Hdue1 & Hp1 & Hsp1 & Hle & _).
    destruct (drain _ _ (length ks) _ _ _ Hinv1 Hpos Hs Hq1 Hp1 Hdue1 Hle) as (f2 & l2 & m2 & H2 & Hi2 & Hsp2 & Hnone).
    eexists _, l2, m2. split; [by eapply run_app|]. split; [done|]. split; [by eapply spec_run_app|done].
  - assert (∀ n, ∃ fired, run reaction (rounds now n) l = (Ok fired, l) ∧
      spec_run reaction duration (plan_of l m) (rounds now n) fired (plan_of l m)) as Hidle.
    { induction n as [|n (f & IH1 & IH2)]; [exists []; split; [done|constructor]|].
      destruct (round_idle duration now l m Hq Hno) as [H1 Hsp1].
      change (rounds now (S n)) with (rounds now 1 ++ rounds now n).
      eexists. split; [by eapply run_app|by eapply spec_run_app]. }
    destruct (Hidle (S (length ks))) as (fired & H1 & H2). exists fired, l, m.
    split_and!; [done..|]. by eapply due_in_nil.
Qed.

(** The events that are not calls *)
Definition passive (ev : event) : Prop := match ev with Call _ => False | _ => True end.

Lemma passive_rounds now q n :
  Forall (λ e, passive (snd e)) (replicate q (now, Handle) ++ rounds now n).
Proof.
  apply Forall_app. split; [by apply Forall_replicate|]. unfold rounds.
  induction n as [|n IH]; [constructor|]. by repeat constructor.
Qed.

Lemma end_time_rounds now q n : end_time now (replicate q (now, Handle) ++ rounds now n) = now.
Proof. induction q as [|q IH]; [|done]. by induction n as [|n IH]. Qed.

Lemma timed_rounds duration now q n :
  in_s 64 (now + duration) → timed duration now (replicate q (now, Handle) ++ rounds now n).
Proof.
  intros Hs. assert (timed duration now (rounds now n)) as Hr.
  { induction n as [|n IH]; [done|]. by split_and!. }
  induction q as [|q IH]; [done|]. by split_and!.
Qed.

(** The list left to itself settles every timer that is due. *)
Lemma list_settles duration now l m :
  inv duration now l m → 0 < duration → in_s 64 (now + duration) →
  ∃ q n fired l' m',
    run reaction (replicate q (now, Handle) ++ rounds now n) l = (Ok fired, l') ∧
    inv duration now l' m' ∧ due_in now m' [].
Proof.
  intros Hinv Hpos Hs.
  destruct (handle_all _ _ _ _ Hinv Hpos Hs) as (f1 & l1 & m1 & H1 & Hinv1 & Hq1 & _).
  pose proof Hinv1 as (_ & _ & _ & live & Hrep).
  destruct (drain_awake _ _ _ _ (callback <$> live) Hinv1 Hpos Hs Hq1)
    as (f2 & l2 & m2 & H2 & Hinv2 & _ & Hnone).
  { intros t d Hm _. apply (rep_deadline _ _ _ _ _ Hrep) in Hm as (x & Hx & _ & <-).
    by apply list_elem_of_fmap_2. }
  eexists _, _, _, l2, m2. split; [by eapply run_app|done].
Qed.

(** The deadlines are those of the entries. *)
Lemma due_in_list duration now l m m' :
  inv duration now l m → inv duration now l m' → due_in now m [] → due_in now m' [].
Proof.
  intros (_ & _ & _ & live & Hr) (_ & _ & _ & live' & Hr') Hdue t d Hm Hd.
  pose proof (rep_list _ _ _ _ _ Hr) as Hl. rewrite (rep_list _ _ _ _ _ Hr') in Hl. simpl in Hl. subst live'.
  apply (Hdue t d); [|done]. apply (rep_deadline _ _ _ _ _ Hr). by apply (rep_deadline _ _ _ _ _ Hr').
Qed.

(** C14: A timer list with a positive duration refines a map from timers to deadlines
    together with the wait that is pending and the waits that have ended and whose handlers
    have not run: for any sequence of constructions, updates and destructions of timers,
    expiries of the wait and runs of its handler, at times that do not decrease and stay in
    the range of the clock, the code runs without fault; the first timer to run starts a wait
    for its deadline and the last one to go cancels it, the wait ends when its time has come,
    and the handler of the wait that ended first fires exactly the timers with a deadline up
    to the end of that wait, the earliest first and what their callbacks do in between, and
    then waits for the earliest deadline that is left; and every timer with a deadline has a
    wait, pending or ended, that ends no later. *)
Theorem timer_list_refines duration now events :
  0 < duration → timed duration now events →
  ∃ fired l' p, run reaction events (make duration) = (Ok fired, l') ∧
    spec_run reaction duration no_timers events fired p ∧
    plan_wait p = armed l' ∧ plan_ended p = queued l' ∧
    (∀ t, plan_deadlines p !! t = None ↔ timers_ l' !! t = None) ∧
    (∀ t d, plan_deadlines p !! t = Some (Some d) →
      ∃ w, (plan_wait p = Some w ∨ w ∈ plan_ended p) ∧ w ≤ d).
Proof.
  intros Hpos Ht. destruct (run_inv duration now events (make duration) ∅)
    as (fired & l' & m' & Hrun & (_ & Ha & _ & live & Hrep) & Hspec); [apply empty_inv|done..|].
  exists fired, l', (plan_of l' m'). split_and!; [done..|intros t; by eapply rep_none|].
  intros t d Hm. apply (rep_deadline _ _ _ _ _ Hrep) in Hm as (x & Hx & <- & _). apply Ha.
  by rewrite (rep_list _ _ _ _ _ Hrep).
Qed.

(** C15: After any such sequence, when the queued handlers run and then the wait ends and its
    handler runs a finite number of times, no timer is left whose deadline has passed: no
    wakeup is lost. *)
Theorem timer_list_live duration now events :
  let now' := end_time now events in
  0 < duration → timed duration now events → in_s 64 (now' + duration) →
  ∃ q n fired l' p,
    let all := events ++ replicate q (now', Handle) ++ rounds now' n in
    run reaction all (make duration) = (Ok fired, l') ∧
    spec_run reaction duration no_timers all fired p ∧
    ∀ t d, plan_deadlines p !! t = Some (Some d) → now' < d.
Proof.
  intros now' Hpos Ht Hs.
  destruct (run_inv duration now events (make duration) ∅) as (f1 & l1 & m1 & H1 & Hinv1 & Hsp1);
    [apply empty_inv|done..|].
  destruct (handle_all _ _ _ _ Hinv1 Hpos Hs) as (f2 & l2 & m2 & H2 & Hinv2 & Hq2 & Hsp2).
  pose proof Hinv2 as (_ & _ & _ & live & Hrep).
  destruct (drain_awake _ _ _ _ (callback <$> live) Hinv2 Hpos Hs Hq2) as (f3 & l3 & m3 & H3 & _ & Hsp3 & Hnone).
  { intros t d Hm _. apply (rep_deadline _ _ _ _ _ Hrep) in Hm as (x & Hx & _ & <-).
    by apply list_elem_of_fmap_2. }
  eexists _, _, _, l3, (plan_of l3 m3). split; [|split].
  - eapply run_app; [done|]. by eapply run_app.
  - eapply spec_run_app; [done|]. by eapply spec_run_app.
  - intros t d Hm. apply Z.nle_gt. intros Hle. by apply (Hnone t d Hm), not_elem_of_nil in Hle.
Qed.
End firing.

(** ** Examples

    The callback of timer 1 destroys it and constructs timer 3. *)

Definition example_reaction (t : Z) : list cmd := if t =? 1 then [Destroy 1; Construct 3] else [].

Definition example_events : list (Z * event) :=
  [(0, Call (Construct 1)); (3, Call (Construct 2)); (5, Call (Update 2)); (10, Expire); (11, Handle)].

Lemma example_timed : timed 10 0 example_events.
Proof. vm_compute. intuition congruence. Qed.

Lemma timer_list_refines_witness :
  ∃ fired l' p, run example_reaction example_events (make 10) = (Ok fired, l') ∧
    spec_run example_reaction 10 no_timers example_events fired p ∧ last fired = Some (11, [1]) ∧
    plan_wait p = Some 15.
Proof.
  destruct (timer_list_refines example_reaction 10 0 example_events) as (f & l' & p & H1 & H2 & H3 & _);
    [lia|apply example_timed|].
  exists f, l', p. split; [exact H1|]. split; [exact H2|]. rewrite H3.
  vm_compute in H1. injection H1 as <- <-. split; reflexivity.
Defined.

Lemma timer_list_live_witness :
  ∃ q n fired l' p,
    let all := example_events ++ replicate q (11, Handle) ++ rounds 11 n in
    run example_reaction all (make 10) = (Ok fired, l') ∧
    spec_run example_reaction 10 no_timers all fired p ∧
    ∀ t d, plan_deadlines p !! t = Some (Some d) → 11 < d.
Proof.
  apply (timer_list_live example_reaction 10 0 example_events);
    [lia|apply example_timed|vm_compute; intuition congruence].
Defined.
