(* ===== verification/TimerListRun.v ===== *)
(** * net/timer-list: the coroutine run

    BasicTimerList::run awaits an operation under a Timer of the list.  A call is known
    by the number of its Timer, for which [owned] holds; the other timers of the list are
    the business of [others].  [frames_] holds the local [timed_out] of each coroutine
    that has not returned.  What asio is asked for is a list of [action]s: the spawn of
    the awaited operation, the cancellation signal, and the value that run returns.  The
    operation completes by an event of its own and not inside the emission; the type of
    the cancellation is handed on and left out. *)

From S2P Require Import Prelude TimerList.

Inductive action : Type :=
  | Spawn (t : Z)
  | Emit (t : Z)
  | Return (t : Z) (result : option errc).

Record Calls : Type := { timer_list : TimerList; frames_ : gmap Z bool }.

Definition on_list {A} (f : ST TimerList A) : ST Calls A := λ s,
  let '(r, l) := f (timer_list s) in (r, {| timer_list := l; frames_ := frames_ s |}).

Definition set_frames (fs : gmap Z bool) (s : Calls) : Calls :=
  {| timer_list := timer_list s; frames_ := fs |}.

(** The callback of the Timer of run *)
Definition on_timeout (t : Z) : ST Calls (list action) :=
  let* s := st_get in
  match frames_ s !! t with
  | None => st_ret []
  | Some _ =>
      let* _ := st_modify (set_frames (<[t := true]> (frames_ s))) in
      st_ret [Emit t]
  end.

Fixpoint on_timeouts (ts : list Z) : ST Calls (list action) :=
  match ts with
  | [] => st_ret []
  | t :: ts =>
      let* acts := on_timeout t in
      let* more := on_timeouts ts in
      st_ret (acts ++ more)
  end.

(** BasicTimerList::run, up to its co_await *)
Definition start (now t : Z) : ST Calls (list action) :=
  let* _ := on_list (timer_construct t now) in
  let* _ := st_modify (λ s, set_frames (<[t := false]> (frames_ s)) s) in
  st_ret [Spawn t].

(** BasicTimerList::run, from its co_await to the end of its locals *)
Definition resume (t : Z) (timed_out_ : bool) (result : option errc) : ST Calls (list action) :=
  let* s := st_get in
  match timers_ (timer_list s) !! t with
  | None => crash
  | Some handle_ =>
      let* _ := on_list (timer_destroy t handle_) in
      let* _ := st_modify (λ s, set_frames (delete t (frames_ s)) s) in
      st_ret [Return t (if timed_out_ then Some timed_out else result)]
  end.

Inductive call_event : Type :=
  | Run (t : Z)
  | Completed (t : Z) (result : option errc)
  | Other (ev : event).

Section calls.
Context (owned : Z → bool) (others : Z → list cmd).

Definition reaction (t : Z) : list cmd := if owned t then [] else others t.

(** An event at time [now]; calls of others leave the timers of run alone. *)
Definition call_step (now : Z) (ev : call_event) : ST Calls (list action) :=
  let* s := st_get in
  match ev with
  | Run t =>
      match frames_ s !! t with
      | None => if owned t then start now t else st_ret []
      | Some _ => st_ret []
      end
  | Completed t result =>
      match frames_ s !! t with
      | Some timed_out_ => resume t timed_out_ result
      | None => st_ret []
      end
  | Other (Call c) =>
      if owned (target c) then st_ret []
      else let* fired := on_list (step reaction now (Call c)) in on_timeouts fired
  | Other ev => let* fired := on_list (step reaction now ev) in on_timeouts fired
  end.

Fixpoint run_calls (events : list (Z * call_event)) : ST Calls (list (Z * list action)) :=
  match events with
  | [] => st_ret []
  | (now, ev) :: events =>
      let* acts := call_step now ev in
      let* more := run_calls events in
      st_ret ((now, acts) :: more)
  end.
End calls.

(** ** Specification: what becomes of a call

    A running call has a deadline.  It is cancelled once, when a wait that ends no
    earlier is handled; its result is that of the operation, or timed_out when it was
    cancelled. *)

Inductive call : Type := Running (deadline : Z) | Cancelled.

Definition outcome (c : call) (result : option errc) : option errc :=
  match c with Running _ => result | Cancelled => Some timed_out end.

(** The calls of [ts] are cancelled: those whose deadline is at most [e], once each. *)
Definition cancels (e : Z) (m : gmap Z call) (ts : list Z) (m' : gmap Z call) : Prop :=
  NoDup ts ∧ (∀ t, t ∈ ts ↔ ∃ d, m !! t = Some (Running d) ∧ d ≤ e) ∧
  ∀ t, m' !! t = if bool_decide (t ∈ ts) then Some Cancelled else m !! t.

Inductive spec_call_step (owned : Z → bool) (duration now : Z) :
    gmap Z call → call_event → list action → gmap Z call → Prop :=
  | call_starts m t :
      m !! t = None → owned t = true →
      spec_call_step owned duration now m (Run t) [Spawn t] (<[t := Running (now + duration)]> m)
  | call_returns m t c result :
      m !! t = Some c →
      spec_call_step owned duration now m (Completed t result) [Return t (outcome c result)] (delete t m)
  | calls_cancelled m e ts m' :
      e ≤ now → cancels e m ts m' →
      spec_call_step owned duration now m (Other Handle) (Emit <$> ts) m'
  | call_elsewhere m ev :
      spec_call_step owned duration now m (Other ev) [] m
  | call_exists m t c :
      m !! t = Some c → spec_call_step owned duration now m (Run t) [] m
  | call_foreign m t :
      owned t = false → spec_call_step owned duration now m (Run t) [] m
  | call_absent m t result :
      m !! t = None → spec_call_step owned duration now m (Completed t result) [] m.

Inductive spec_calls (owned : Z → bool) (duration : Z) :
    gmap Z call → list (Z * call_event) → list (Z * list action) → gmap Z call → Prop :=
  | calls_done m : spec_calls owned duration m [] [] m
  | calls_next m now ev events acts m1 more m' :
      spec_call_step owned duration now m ev acts m1 → spec_calls owned duration m1 events more m' →
      spec_calls owned duration m ((now, ev) :: events) ((now, acts) :: more) m'.

(** ** Simulation

    The calls are the timers of the list that run owns: one without a deadline has been
    cancelled. *)

Definition to_call (deadline : option Z) : call := if deadline is Some d then Running d else Cancelled.

Definition is_cancelled (c : call) : bool := if c is Cancelled then true else false.

(** No deadline is below a bound. *)
Lemma map_bound (m : gmap Z call) : ∃ e, ∀ t d, m !! t = Some (Running d) → e < d.
Proof.
  induction m as [|t c m Hm [e IH]] using map_ind; [by exists 0|].
  exists (Z.min e (if c is Running d then d - 1 else 0)). intros t' d.
  rewrite lookup_insert_Some. intros [[-> ->]|[_ Hd]]; [lia|]. apply IH in Hd. lia.
Qed.

Section simulation.
Context (owned : Z → bool) (others : Z → list cmd).
Hypothesis others_own : ∀ t c, c ∈ others t → owned (target c) = false.

Definition calls_of (m : gmap Z (option Z)) : gmap Z call :=
  to_call <$> filter (λ '(t, _), owned t = true) m.

Lemma calls_of_owned m t : owned t = true → calls_of m !! t = to_call <$> m !! t.
Proof.
  intros Ho. unfold calls_of. rewrite lookup_fmap, map_lookup_filter. destruct (m !! t) as [o|]; simpl; [|done].
  by rewrite option_guard_True.
Qed.

Lemma calls_of_foreign m t : owned t = false → calls_of m !! t = None.
Proof.
  intros Ho. unfold calls_of. rewrite lookup_fmap, map_lookup_filter. destruct (m !! t) as [o|]; simpl; [|done].
  by rewrite option_guard_False by congruence.
Qed.

Lemma calls_of_some m t c : calls_of m !! t = Some c → owned t = true ∧ ∃ o, m !! t = Some o ∧ c = to_call o.
Proof.
  intros H. destruct (owned t) eqn:Ho; [|by rewrite calls_of_foreign in H].
  rewrite calls_of_owned in H by done. split; [done|]. apply fmap_Some in H as (o & Hm & ->). eauto.
Qed.

Lemma calls_of_ext m m' : (∀ t, owned t = true → m !! t = m' !! t) → calls_of m = calls_of m'.
Proof.
  intros H. apply map_eq. intros t. destruct (owned t) eqn:Ho; [|by rewrite !calls_of_foreign].
  by rewrite !calls_of_owned, H.
Qed.

Lemma calls_of_insert m t o :
  owned t = true → calls_of (<[t := o]> m) = <[t := to_call o]> (calls_of m).
Proof.
  intros Ho. apply map_eq. intros t'. destruct (owned t') eqn:Ho'.
  - rewrite calls_of_owned by done. destruct (decide (t = t')) as [->|Hne];
      [by simplify_map_eq|]. rewrite !lookup_insert_ne by done. by rewrite calls_of_owned.
  - rewrite lookup_insert_ne by congruence. by rewrite !calls_of_foreign.
Qed.

Lemma calls_of_delete m t : calls_of (delete t m) = delete t (calls_of m).
Proof. unfold calls_of. by rewrite map_filter_delete, fmap_delete. Qed.

(** What others do to the list does not touch the calls. *)
Lemma spec_exec_foreign duration now m c t :
  owned (target c) = false → owned t = true → spec_exec duration now m c !! t = m !! t.
Proof.
  intros Hc Ho. assert (target c ≠ t) as Hne by congruence.
  destruct c as [u|u|u]; simpl in *; [destruct (m !! u) as [[]|]|destruct (m !! u) as [[]|]|];
    by rewrite ?lookup_insert_ne, ?lookup_delete_ne.
Qed.

Lemma spec_exec_all_foreign duration now cs m t :
  Forall (λ c, owned (target c) = false) cs → owned t = true →
  spec_exec_all duration now cs m !! t = m !! t.
Proof using Type.
  intros Hcs Ho. revert m. induction Hcs as [|c cs Hc _ IH]; intros m; [done|].
  unfold spec_exec_all in *. simpl. by rewrite IH, spec_exec_foreign.
Qed.

Lemma reaction_foreign t : Forall (λ c, owned (target c) = false) (reaction owned others t).
Proof using others_own.
  unfold reaction. destruct (owned t); [constructor|]. apply Forall_forall. eauto.
Qed.

Abbreviation mine := (filter (λ t, owned t = true)).

Lemma spec_fires_cancels duration now e m fired m' :
  spec_fires (reaction owned others) duration now e m fired m' →
  cancels e (calls_of m) (mine fired) (calls_of m').
Proof using others_own.
  induction 1 as [m Hnone|m t d fired m' Hm Hd Hmin _ (Hnd & Hin & Hm')].
  - split_and!; [constructor| |done]. intros t. split; [by intros ?%not_elem_of_nil|].
    intros (d & (_ & [o|] & Ho & [= ->])%calls_of_some & Hd). apply Hnone in Ho. lia.
  - assert (∀ t', owned t' = true → spec_exec_all duration now (reaction owned others t) (<[t := None]> m) !! t' =
      <[t := None]> m !! t') as Hx by (intros; apply spec_exec_all_foreign; [apply reaction_foreign|done]).
    rewrite (calls_of_ext _ _ Hx) in Hin, Hm'. destruct (owned t) eqn:Ho.
    + rewrite filter_cons_True by done. rewrite calls_of_insert in Hin, Hm' by done. simpl in Hin, Hm'.
      assert (t ∉ mine fired) as Hni.
      { intros (d' & Hl & _)%Hin. by simplify_map_eq. }
      split_and!.
      * by constructor.
      * intros t'. rewrite elem_of_cons, Hin. destruct (decide (t' = t)) as [->|Hne]; simplify_map_eq.
        -- split; [|by left]. intros _. exists d. by rewrite calls_of_owned, Hm.
        -- naive_solver.
      * intros t'. rewrite Hm'. destruct (decide (t' = t)) as [->|Hne]; simplify_map_eq.
        -- rewrite bool_decide_false by done. by rewrite bool_decide_true by left.
        -- rewrite (bool_decide_ext (t' ∈ t :: mine fired) (t' ∈ mine fired)); [done|].
           rewrite elem_of_cons. naive_solver.
    + rewrite filter_cons_False by congruence.
      assert (calls_of (<[t := None]> m) = calls_of m) as Heq
        by (apply calls_of_ext; intros t' Ho'; by rewrite lookup_insert_ne by congruence).
      by rewrite Heq in Hin, Hm'.
Qed.

(** The callbacks of the timers that fired *)
Lemma on_timeouts_spec ts s :
  on_timeouts ts s =
  (Ok (Emit <$> filter (λ t, is_Some (frames_ s !! t)) ts),
   set_frames (map_imap (λ t b, Some (b || bool_decide (t ∈ ts))) (frames_ s)) s).
Proof.
  revert s. induction ts as [|t ts IH]; intros s; cbn [on_timeouts].
  { simpl. f_equal. destruct s as [l fs]. unfold set_frames. simpl. f_equal. apply map_eq. intros t.
    rewrite map_lookup_imap. by destruct (fs !! t) as [[]|]. }
  unfold on_timeout, st_bind at 1 2, st_get. cbn beta iota.
  destruct (frames_ s !! t) as [b|] eqn:Et; unfold st_bind, st_modify, st_ret; cbn beta iota;
    rewrite IH; cbn [set_frames frames_ timer_list].
  - rewrite (filter_cons_True _ t) by (rewrite Et; eauto). cbn [app fmap list_fmap]. f_equal.
    + assert (∀ t', is_Some (<[t := true]> (frames_ s) !! t') ↔ is_Some (frames_ s !! t')) as Heq
        by (intros t'; rewrite lookup_insert_is_Some'; naive_solver).
      by rewrite (list_filter_iff _ _ ts Heq).
    + unfold set_frames. simpl. f_equal. apply map_eq. intros t'. rewrite !map_lookup_imap.
      destruct (decide (t = t')) as [<-|Hne]; simplify_map_eq.
      * by rewrite (bool_decide_true (t ∈ t :: ts)), orb_true_r by left.
      * destruct (frames_ s !! t'); simpl; [|done]. do 2 f_equal. apply bool_decide_ext.
        rewrite elem_of_cons. naive_solver.
  - rewrite (filter_cons_False _ t) by (rewrite Et; by intros []). f_equal. f_equal. apply map_eq. intros t'.
    rewrite !map_lookup_imap. destruct (frames_ s !! t') eqn:Et'; simpl; [|done]. do 2 f_equal.
    apply bool_decide_ext. rewrite elem_of_cons. naive_solver.
Qed.

Lemma filter_ext_in (P Q : Z → Prop) `{∀ x, Decision (P x)} `{∀ x, Decision (Q x)} (l : list Z) :
  (∀ x, x ∈ l → P x ↔ Q x) → filter P l = filter Q l.
Proof.
  induction l as [|x l IH]; intros Heq; [done|].
  assert (filter P l = filter Q l) as Hl by (apply IH; intros; apply Heq; by right).
  assert (P x ↔ Q x) as Hx by (apply Heq; left). destruct (decide (P x)) as [Hp|Hp].
  - rewrite !filter_cons_True, Hl by tauto. done.
  - rewrite !filter_cons_False, Hl by tauto. done.
Qed.

(** A cancellation, as the frames see it *)
Lemma cancels_frames e m fired m' :
  cancels e (calls_of m) (mine fired) (calls_of m') →
  filter (λ t, is_Some ((is_cancelled <$> calls_of m) !! t)) fired = mine fired ∧
  map_imap (λ t b, Some (b || bool_decide (t ∈ fired))) (is_cancelled <$> calls_of m) =
    is_cancelled <$> calls_of m'.
Proof.
  intros (_ & Hin & Hm'). split.
  - apply filter_ext_in. intros t Ht. rewrite lookup_fmap. split.
    + intros [b (c & Hc & _)%fmap_Some]. by apply calls_of_some in Hc as [? _].
    + intros Ho. destruct (Hin t) as [(d & -> & _) _]; [by apply list_elem_of_filter|]. by eexists.
  - apply map_eq. intros t. rewrite map_lookup_imap, !lookup_fmap, Hm'.
    destruct (calls_of m !! t) as [c|] eqn:Hc; simpl.
    + apply calls_of_some in Hc as [Ho _]. rewrite (bool_decide_ext (t ∈ mine fired) (t ∈ fired)).
      * destruct c; simpl; by case_bool_decide.
      * rewrite list_elem_of_filter. naive_solver.
    + rewrite bool_decide_false; [done|]. intros (d & Hd & _)%Hin. congruence.
Qed.

(** The coroutines know what became of their timers. *)
Definition sim (duration now : Z) (s : Calls) (m : gmap Z (option Z)) : Prop :=
  inv duration now (timer_list s) m ∧ frames_ s = is_cancelled <$> calls_of m.

Lemma no_cancels (m : gmap Z call) : ∃ e, cancels e m [] m.
Proof.
  destruct (map_bound m) as [e He]. exists e. split_and!; [constructor| |done].
  intros t. split; [by intros ?%not_elem_of_nil|]. intros (d & Hd & Hle). apply He in Hd. lia.
Qed.

Lemma spec_step_cancels duration now p ev fired p' :
  let m := plan_deadlines p in
  let m' := plan_deadlines p' in
  spec_step (reaction owned others) duration now p ev fired p' →
  Forall (λ w, w ≤ now) (plan_ended p) →
  (∀ c, ev = Call c → owned (target c) = false) →
  ∃ e, cancels e (calls_of m) (mine fired) (calls_of m') ∧
    spec_call_step owned duration now (calls_of m) (Other ev) (Emit <$> mine fired) (calls_of m').
Proof using others_own.
  intros m m' Hs He Hc. destruct (no_cancels (calls_of m)) as [e0 Hidle].
  destruct Hs as [p c|p w|p|p|p e q fired m1 w Hq Hf _]; simpl in *; [|exists e0; split; [done|constructor]..|].
  - exists e0. unfold m'. rewrite (calls_of_ext (spec_exec duration now _ c) m);
      [split; [done|constructor]|intros; apply spec_exec_foreign; auto].
  - rewrite Hq in He. apply Forall_cons in He as [He _]. exists e. apply spec_fires_cancels in Hf.
    split; [done|]. by apply (calls_cancelled _ _ _ _ e).
Qed.

Lemma other_sim duration now s m ev :
  sim duration now s m → 0 < duration → in_s 64 (now + duration) →
  (∀ c, ev = Call c → owned (target c) = false) →
  ∃ acts s' m',
    (let* fired := on_list (step (reaction owned others) now ev) in on_timeouts fired) s = (Ok acts, s') ∧
    sim duration now s' m' ∧
    spec_call_step owned duration now (calls_of m) (Other ev) acts (calls_of m').
Proof using others_own.
  intros [Hinv Hfr] Hpos Hs Hev.
  destruct (step_inv (reaction owned others) _ _ _ _ ev Hinv Hpos Hs) as (fired & l' & m' & Hst & Hinv' & Hsp).
  destruct (spec_step_cancels _ _ _ _ _ _ Hsp ltac:(by destruct Hinv as (_ & _ & ? & _)) Hev) as (e & Hc & Hspec). simpl in Hc, Hspec.
  apply cancels_frames in Hc as [Hf Hm]. rewrite <- Hfr in Hf, Hm.
  eexists _, _, m'. split; [|split; [|done]].
  - unfold st_bind, on_list. rewrite Hst, on_timeouts_spec. cbn [frames_]. by rewrite Hf.
  - split; [done|]. simpl. by rewrite Hm.
Qed.

(** A call of the list by run itself *)
Lemma list_call duration now s m c (f : ST TimerList unit) :
  sim duration now s m → 0 < duration → in_s 64 (now + duration) →
  exec now c (timer_list s) = f (timer_list s) →
  ∃ l', on_list f s = (Ok tt, {| timer_list := l'; frames_ := frames_ s |}) ∧
    inv duration now l' (spec_exec duration now m c).
Proof.
  intros [Hinv Hfr] Hpos Hs Hf.
  destruct (exec_inv _ _ c _ _ Hinv Hs) as (l' & Hst & Hinv' & _). exists l'. split; [|done].
  unfold on_list. by rewrite <- Hf, Hst.
Qed.

Lemma start_sim duration now s m t :
  sim duration now s m → 0 < duration → in_s 64 (now + duration) → owned t = true → m !! t = None →
  ∃ s', start now t s = (Ok [Spawn t], s') ∧ sim duration now s' (<[t := Some (now + duration)]> m).
Proof.
  intros Hsim Hpos Hs Ho Hm. pose proof Hsim as [(_ & _ & _ & live & Hrep) Hfr].
  destruct (list_call _ _ _ _ (Construct t) (timer_construct t now) Hsim Hpos Hs) as (l' & Hl & Hinv).
  { cbn [exec]. unfold exec, st_bind, st_get. by rewrite (proj1 (rep_none _ _ _ _ _ t Hrep) Hm). }
  simpl in Hinv. rewrite Hm in Hinv. eexists. split.
  - unfold start. by rewrite (st_bind_ok _ _ _ _ _ Hl).
  - split; [done|]. simpl. by rewrite calls_of_insert, fmap_insert, Hfr.
Qed.

Lemma resume_sim duration now s m t o result :
  sim duration now s m → 0 < duration → in_s 64 (now + duration) → m !! t = Some o →
  ∃ s', resume t (is_cancelled (to_call o)) result s = (Ok [Return t (outcome (to_call o) result)], s') ∧
    sim duration now s' (delete t m).
Proof.
  intros Hsim Hpos Hs Hm. pose proof Hsim as [(_ & _ & _ & live & Hrep) Hfr].
  destruct (timers_ (timer_list s) !! t) as [h|] eqn:Hh; [|by apply (rep_none _ _ _ _ _ t Hrep) in Hh; rewrite Hh in Hm].
  destruct (list_call _ _ _ _ (Destroy t) (timer_destroy t h) Hsim Hpos Hs) as (l' & Hl & Hinv).
  { unfold exec, st_bind, st_get. by rewrite Hh. }
  eexists. split.
  - unfold resume. unfold st_bind at 1, st_get. cbn beta iota. rewrite Hh, (st_bind_ok _ _ _ _ _ Hl).
    by destruct o.
  - split; [done|]. simpl. by rewrite calls_of_delete, fmap_delete, Hfr.
Qed.

Lemma call_step_sim duration now s m ev :
  sim duration now s m → 0 < duration → in_s 64 (now + duration) →
  ∃ acts s' m', call_step owned others now ev s = (Ok acts, s') ∧ sim duration now s' m' ∧
    spec_call_step owned duration now (calls_of m) ev acts (calls_of m').
Proof using others_own.
  intros Hsim Hpos Hs. pose proof Hsim as [_ Hfr]. unfold call_step. unfold st_bind at 1, st_get. cbn beta iota.
  destruct ev as [t|t result|ev].
  - rewrite Hfr, lookup_fmap. destruct (calls_of m !! t) as [c|] eqn:Hc; simpl.
    { exists [], s, m. split_and!; [done|done|]. by eapply call_exists. }
    destruct (owned t) eqn:Ho; [|exists [], s, m; split_and!; [done|done|by apply call_foreign]].
    pose proof Hc as Hm. rewrite calls_of_owned in Hm by done. apply fmap_None in Hm.
    destruct (start_sim _ _ _ _ t Hsim Hpos Hs Ho Hm) as (s' & H1 & H2).
    eexists _, s', _. split_and!; [done|done|]. rewrite calls_of_insert by done. by constructor.
  - rewrite Hfr, lookup_fmap. destruct (calls_of m !! t) as [c|] eqn:Hc; simpl.
    + pose proof Hc as Hm. apply calls_of_some in Hm as (Ho & o & Hm & ->).
      destruct (resume_sim _ _ _ _ t o result Hsim Hpos Hs Hm) as (s' & H1 & H2).
      eexists _, s', _. split_and!; [done|done|]. rewrite calls_of_delete. by constructor.
    + exists [], s, m. split_and!; [done|done|]. by apply call_absent.
  - destruct ev as [c| |]; [|by apply other_sim..]. destruct (owned (target c)) eqn:Ho.
    + exists [], s, m. split_and!; [done|done|]. constructor.
    + apply other_sim; [done..|]. by intros ? [= <-].
Qed.

Lemma run_calls_sim duration now events s m :
  sim duration now s m → 0 < duration → timed duration now events →
  ∃ acts s' m', run_calls owned others events s = (Ok acts, s') ∧
    sim duration (end_time now events) s' m' ∧
    spec_calls owned duration (calls_of m) events acts (calls_of m').
Proof using others_own.
  intros Hsim Hpos. revert now s m Hsim. induction events as [|[now' ev] events IH];
    intros now s m Hsim Ht; [by exists [], s, m; split; [|split; [|constructor]]|].
  destruct Ht as (Hle & Hs & Ht). destruct Hsim as [Hinv Hfr]. apply (inv_mono _ _ now') in Hinv; [|done].
  destruct (call_step_sim duration now' s m ev) as (a1 & s1 & m1 & H1 & Hsim1 & Hs1); [by split|done..|].
  destruct (IH now' s1 m1 Hsim1 Ht) as (a2 & s2 & m2 & H2 & Hsim2 & Hs2).
  exists ((now', a1) :: a2), s2, m2. split_and!; [|done|by econstructor].
  cbn [run_calls]. by rewrite (st_bind_ok _ _ _ _ _ H1), (st_bind_ok _ _ _ _ _ H2).
Qed.

(** Without calls, only the timers of the list move. *)
Lemma run_calls_other events s fired l' :
  Forall (λ e, passive (snd e)) events →
  TimerList.run (reaction owned others) events (timer_list s) = (Ok fired, l') →
  ∃ acts s', run_calls owned others (prod_map id Other <$> events) s = (Ok acts, s') ∧ timer_list s' = l'.
Proof.
  intros Hp. revert s fired. induction Hp as [|[now ev] events Hev _ IH]; intros s fired Hrun;
    cbn [TimerList.run] in Hrun.
  { exists [], s. by injection Hrun as _ <-. }
  apply st_bind_inv in Hrun as (f & l1 & Hs & Hrun). apply st_bind_inv in Hrun as (more & l2 & Hr & Hrun).
  injection Hrun as _ <-.
  assert (∃ acts s1, call_step owned others now (Other ev) s = (Ok acts, s1) ∧ timer_list s1 = l1)
    as (a1 & s1 & H1 & <-).
  { destruct ev; [done| |]; unfold call_step, st_bind, st_get, on_list;
      rewrite Hs, on_timeouts_spec; by eexists _, _. }
  destruct (IH s1 more Hr) as (a2 & s2 & H2 & <-). eexists _, s2. split; [|done].
  cbn [fmap list_fmap prod_map fst snd id run_calls].
  by rewrite (st_bind_ok _ _ _ _ _ H1), (st_bind_ok _ _ _ _ _ H2).
Qed.

Lemma timed_other duration now (events : list (Z * event)) :
  timed duration now events → timed duration now (prod_map id Other <$> events).
Proof. revert now. induction events as [|[now' ev] events IH]; intros now; simpl; [done|]. naive_solver. Qed.

Definition no_calls (duration : Z) : Calls := {| timer_list := make duration; frames_ := ∅ |}.

Lemma no_calls_sim duration now : sim duration now (no_calls duration) ∅.
Proof.
  split; [apply (empty_inv others)|].
  unfold calls_of. by rewrite (map_filter_empty (M := gmap Z)), !fmap_empty. Qed.

End simulation.

(** Two calls: the operation of the first completes in time, that of the second is
    cancelled; the callback of timer -1, which is not a call, constructs timer -2. *)
Definition example_owned (t : Z) : bool := 0 <=? t.

Definition example_others (t : Z) : list cmd := if t =? -1 then [Construct (-2)] else [].

Definition example_calls : list (Z * call_event) :=
  [(0, Run 1); (1, Other (Call (Construct (-1)))); (2, Run 2); (3, Completed 1 None); (12, Other Expire);
   (12, Other Handle); (12, Other Expire); (12, Other Handle); (13, Other Expire); (13, Other Handle); (14, Completed 2 (Some operation_canceled))].

