(* ===== verification/TimerClient.v ===== *)
(** * Clients of a timer list

    IcmpClient, http::Client and http::Server own a TimerList and objects with a Timer
    each, whose callback finishes or closes the object.  A client is an instance of
    [TimerClient]: its step per event, the calls that its actions make to the list, the
    Timers that it owns ([timers]: whether they are still pending) and those that survive
    their callback ([keeps]).  [TimerClientLaws] is what the client promises.  This file
    runs a client on the list of TimerList.v and shows, for every client that keeps the
    promise, when its timers fire and that all of them do in the end. *)

From S2P Require Import Prelude Machine TimerList.

Class TimerClient (C A E : Type) : Type := {
  client_step : E → ST C (list A);
  timeout_event : Z → E;
  is_timeout : E → bool;
  timer_action : A → option cmd;
  timers : C → gmap Z bool;
  keeps : C → gset Z;
  client_enabled : C → E → Prop;
  may_fire : C → Z → Prop;
}.

(** The calls that the actions make to the list *)
Definition timer_cmds `{Ops : TimerClient C A E} (acts : list A) : list cmd := omap timer_action acts.

(** What the callback of the Timer [t] does to the list, when the Timers of [kept] survive
    their callbacks *)
Definition fired_cmds (kept : gset Z) (t : Z) : list cmd :=
  if decide (t ∈ kept) then [] else [Destroy t].

Record System (C : Type) : Type := { client : C; timer_list_ : TimerList }.
Arguments client {C} _.
Arguments timer_list_ {C} _.

Inductive system_event (E : Type) : Type :=
  | Client (ev : E)
  | Timers (ev : event).
Arguments Client {E} _.
Arguments Timers {E} _.

Section system.
Context `{Ops : TimerClient C A E}.

Definition on_client {R} (f : ST C R) : ST (System C) R := λ s,
  let '(r, c) := f (client s) in (r, {| client := c; timer_list_ := timer_list_ s |}).

Definition on_timers {R} (f : ST TimerList R) : ST (System C) R := λ s,
  let '(r, l) := f (timer_list_ s) in (r, {| client := client s; timer_list_ := l |}).

(** An event at time [now]; timeouts come from the list, and calls from the client. *)
Definition system_step (e : Z * system_event E) : ST (System C) (list A) :=
  let '(now, ev) := e in
  match ev with
  | Client ev =>
      if is_timeout ev then st_ret []
      else
        let* acts := on_client (client_step ev) in
        let* _ := on_timers (exec_all now (timer_cmds acts)) in
        st_ret acts
  | Timers (Call _) => st_ret []
  | Timers ev =>
      let* s := st_get in
      let* fired := on_timers (step (fired_cmds (keeps (client s))) now ev) in
      on_client (run_events client_step (timeout_event <$> fired))
  end.

Definition run_system : list (Z * system_event E) → ST (System C) (list A) := run_events system_step.

(** What the environment does is enabled, and the timers that fire may do so. *)
Definition system_prompt (s : System C) (e : Z * system_event E) : Prop :=
  match e.2 with
  | Client ev => is_timeout ev = false → client_enabled (client s) ev
  | Timers (Call _) => True
  | Timers ev =>
      match (step (fired_cmds (keeps (client s))) e.1 ev (timer_list_ s)).1 with
      | Ok fired => Forall (may_fire (client s)) fired
      | _ => True
      end
  end.

Definition prompt_system : System C → list (Z * system_event E) → Prop :=
  enabled_events system_step system_prompt.

(** What the client sees: its events, and a timeout only of a Timer that is pending *)
Definition allowed (c : C) (ev : E) : Prop :=
  (is_timeout ev = false ∧ client_enabled c ev) ∨
  ∃ t, ev = timeout_event t ∧ timers c !! t = Some true ∧ may_fire c t.

(** ** Specification: deadlines and waits

    The actions of the client set, move and drop the deadlines; when a wait has ended, its
    handler makes exactly the timers time out whose deadline is at most its end, and a wait
    for the earliest deadline that is left begins.  A step is labelled with the events that
    the client sees and with its actions. *)

Inductive timed_step (duration now : Z) (p : Plan) :
    system_event E → list E → list A → Plan → Prop :=
  | timed_client ev acts :
      is_timeout ev = false →
      timed_step duration now p (Client ev) [ev] acts (plan_exec_all duration now (timer_cmds acts) p)
  | timed_expires w :
      plan_wait p = Some w → w ≤ now →
      timed_step duration now p (Timers Expire) [] []
        {| plan_deadlines := plan_deadlines p; plan_wait := None; plan_ended := plan_ended p ++ [w] |}
  | timed_not_due :
      (∀ w, plan_wait p = Some w → now < w) → timed_step duration now p (Timers Expire) [] [] p
  | timed_idle : plan_ended p = [] → timed_step duration now p (Timers Handle) [] [] p
  | timed_fires e q fired acts m' w' :
      plan_ended p = e :: q →
      NoDup fired → (∀ t, t ∈ fired ↔ ∃ d, plan_deadlines p !! t = Some (Some d) ∧ d ≤ e) →
      (∀ t, t ∈ fired → m' !! t = None ∨ m' !! t = Some None) →
      (∀ t, t ∉ fired → m' !! t = plan_deadlines p !! t) →
      rearmed m' (plan_wait p) w' →
      timed_step duration now p (Timers Handle) (timeout_event <$> fired) acts
        {| plan_deadlines := m'; plan_wait := w'; plan_ended := q |}
  | timed_no_call c : timed_step duration now p (Timers (Call c)) [] [] p
  | timed_no_timeout ev : is_timeout ev = true → timed_step duration now p (Client ev) [] [] p.

Inductive timed_run (duration : Z) :
    Plan → list (Z * system_event E) → list E → list A → Plan → Prop :=
  | timed_done p : timed_run duration p [] [] [] p
  | timed_next p now ev events seen acts p1 more acts' p' :
      timed_step duration now p ev seen acts p1 → timed_run duration p1 events more acts' p' →
      timed_run duration p ((now, ev) :: events) (seen ++ more) (acts ++ acts') p'.
End system.

(** ** What a client promises *)

Definition view (m : gmap Z (option Z)) : gmap Z bool := (λ o, bool_decide (is_Some o)) <$> m.

(** The effect of a call on the Timers that exist *)
Definition view_cmd (v : gmap Z bool) (c : cmd) : gmap Z bool :=
  match c with
  | Construct t => match v !! t with None => <[t := true]> v | Some _ => v end
  | Update _ => v
  | Destroy t => delete t v
  end.

(** Its effect on one Timer *)
Definition slot_cmd (o : option bool) (c : cmd) : option bool :=
  match c with
  | Construct _ => Some (default true o)
  | Update _ => o
  | Destroy _ => None
  end.

(** The calls are for the Timer [n], which they turn from [t] into [t']. *)
Definition sets_slot (n : Z) (t : option bool) (cs : list cmd) (t' : option bool) : Prop :=
  Forall (λ c, target c = n) cs ∧ foldl slot_cmd t cs = t'.

Lemma sets_slot_nil n t : sets_slot n t [] t.
Proof. done. Qed.

Lemma sets_slot_app n t cs t1 cs' t2 :
  sets_slot n t cs t1 → sets_slot n t1 cs' t2 → sets_slot n t (cs ++ cs') t2.
Proof. intros [H1 <-] [H2 <-]. split; [by apply Forall_app|]. apply foldl_app. Qed.

Lemma view_cmds_at n cs v t :
  sets_slot n (v !! n) cs t → foldl view_cmd v cs = partial_alter (λ _, t) n v.
Proof.
  intros [Hcs <-]. revert v. induction Hcs as [|c cs <- _ IH]; intros v; simpl.
  { symmetry. apply partial_alter_self. }
  rewrite IH. apply map_eq. intros t. destruct (decide (t = target c)) as [->|Hne].
  - rewrite !lookup_partial_alter_eq. f_equal. destruct c as [t|t|t]; simpl; [|done|by rewrite lookup_delete_eq].
    destruct (v !! t) as [b|] eqn:E; [by rewrite E|by rewrite lookup_insert_eq].
  - rewrite !lookup_partial_alter_ne by done. destruct c as [u|u|u]; simpl in *; [|done|by rewrite lookup_delete_ne].
    destruct (v !! u); [done|by rewrite lookup_insert_ne].
Qed.

(** ** The laws *)

Class TimerClientLaws `{Ops : TimerClient C A E} (good : C → Prop) : Prop := {
  timeout_is_timeout t : is_timeout (timeout_event t) = true;
  client_step_ok c ev :
    good c → is_timeout ev = false → client_enabled c ev →
    ∃ acts c', client_step ev c = (Ok acts, c') ∧ good c' ∧
      timers c' = foldl view_cmd (timers c) (timer_cmds acts);
  timeout_step_ok c t :
    good c → timers c !! t = Some true → may_fire c t →
    ∃ acts c', client_step (timeout_event t) c = (Ok acts, c') ∧ good c' ∧
      timer_cmds acts = fired_cmds (keeps c) t ∧
      timers c' = foldl view_cmd (<[t := false]> (timers c)) (fired_cmds (keeps c) t) ∧
      keeps c' = keeps c ∧ ∀ t', may_fire c t' → may_fire c' t';
}.

Lemma view_exec duration now m c : view (spec_exec duration now m c) = view_cmd (view m) c.
Proof.
  unfold view. destruct c as [t|t|t]; simpl.
  - rewrite lookup_fmap. destruct (m !! t) as [o|] eqn:E; simpl; [done|]. by rewrite fmap_insert.
  - destruct (m !! t) as [[d|]|] eqn:E; [|done..]. rewrite fmap_insert. apply insert_id.
    by rewrite lookup_fmap, E.
  - by rewrite fmap_delete.
Qed.

Lemma view_exec_all duration now cs m :
  view (spec_exec_all duration now cs m) = foldl view_cmd (view m) cs.
Proof.
  unfold spec_exec_all. revert m. induction cs as [|c cs IH]; intros m; [done|]. simpl. by rewrite IH, view_exec.
Qed.

Lemma view_pending m t : view m !! t = Some true ↔ ∃ d, m !! t = Some (Some d).
Proof.
  unfold view. rewrite lookup_fmap, fmap_Some. split.
  - intros ([d|] & Hm & Ht); [eauto|]. by rewrite bool_decide_false in Ht by (by intros []).
  - intros [d Hm]. exists (Some d). split; [done|]. by rewrite bool_decide_true.
Qed.

(** ** Simulation *)

Lemma run_events_app {S E A} (step : E → ST S (list A)) e1 e2 s a1 s1 a2 s2 :
  run_events step e1 s = (Ok a1, s1) → run_events step e2 s1 = (Ok a2, s2) →
  run_events step (e1 ++ e2) s = (Ok (a1 ++ a2), s2).
Proof.
  revert s a1. induction e1 as [|e e1 IH]; intros s a1 H1 H2; cbn [app run_events] in *.
  - by injection H1 as <- ->.
  - apply st_bind_inv in H1 as (a & s' & Hs & H1). apply st_bind_inv in H1 as (more & s'' & Hr & H1).
    injection H1 as <- <-. rewrite (st_bind_ok _ _ _ _ _ Hs), (st_bind_ok _ _ _ _ _ (IH _ _ Hr H2)).
    unfold st_ret. by rewrite (assoc_L (++)).
Qed.

Lemma enabled_events_app {S E A} (step : E → ST S (list A)) enabled e1 e2 s :
  enabled_events step enabled s (e1 ++ e2) ↔
  enabled_events step enabled s e1 ∧ enabled_events step enabled (foldl (λ s e, (step e s).2) s e1) e2.
Proof. revert s. induction e1 as [|e e1 IH]; intros s; simpl; [tauto|]. rewrite IH. tauto. Qed.

Lemma run_events_state {S E A} (step : E → ST S (list A)) es s acts s' :
  run_events step es s = (Ok acts, s') → foldl (λ s e, (step e s).2) s es = s'.
Proof.
  revert s acts. induction es as [|e es IH]; intros s acts; simpl; [by intros [= _ <-]|].
  intros (a & s1 & Hs & H1)%st_bind_inv. apply st_bind_inv in H1 as (more & s2 & Hr & H1).
  injection H1 as _ <-. rewrite Hs. by eapply IH.
Qed.

(** The list fires the timers that are due, each once. *)
Lemma fires_due P duration now e m fired m' :
  spec_fires (fired_cmds P) duration now e m fired m' →
  NoDup fired ∧ (∀ t, t ∈ fired ↔ ∃ d, m !! t = Some (Some d) ∧ d ≤ e) ∧
  (∀ t, t ∈ fired → m' !! t = if decide (t ∈ P) then Some None else None) ∧
  (∀ t, t ∉ fired → m' !! t = m !! t).
Proof.
  induction 1 as [m Hnone|m t d fired m' Hm Hd _ _ (Hnd & Hin & Hf & Hn)].
  { split_and!; [constructor| |by intros t ?%not_elem_of_nil|done].
    intros t. split; [by intros ?%not_elem_of_nil|]. intros (d & Ht & Hd). apply Hnone in Ht. lia. }
  set (m1 := spec_exec_all _ _ _ _) in *.
  assert (m1 !! t = if decide (t ∈ P) then Some None else None) as Ht.
  { unfold m1, fired_cmds. destruct (decide _); simpl; by simplify_map_eq. }
  assert (∀ t', t' ≠ t → m1 !! t' = m !! t') as Hother.
  { intros t' Hne. unfold m1, fired_cmds. destruct (decide _); simpl; by simplify_map_eq. }
  assert (t ∉ fired) as Hni. { intros (d' & Hl & _)%Hin. rewrite Ht in Hl. by destruct (decide _). }
  split_and!.
  - by constructor.
  - intros t'. rewrite elem_of_cons, Hin. destruct (decide (t' = t)) as [->|Hne]; [naive_solver|].
    rewrite Hother by done. naive_solver.
  - intros t' [->|Ht']%elem_of_cons; [by rewrite Hn|by apply Hf].
  - intros t' [Hne Hni']%not_elem_of_cons. by rewrite Hn, Hother.
Qed.

Section simulation.
Context `{Ops : TimerClient C A E} (good : C → Prop) {Laws : TimerClientLaws good}.

Record sim (duration now : Z) (s : System C) (m : gmap Z (option Z)) : Prop := {
  sim_timers : inv duration now (timer_list_ s) m;
  sim_client : good (client s);
  sim_view : timers (client s) = view m;
}.

Definition plan_of_system (s : System C) (m : gmap Z (option Z)) : Plan := plan_of (timer_list_ s) m.

(** The callbacks of the timers that fired *)
Lemma timeouts_run P duration now e m fired m' c :
  spec_fires (fired_cmds P) duration now e m fired m' →
  good c → timers c = view m → keeps c = P → Forall (may_fire c) fired →
  ∃ acts c', run_events client_step (timeout_event <$> fired) c = (Ok acts, c') ∧ good c' ∧
    timers c' = view m' ∧ keeps c' = P ∧ (∀ t, may_fire c t → may_fire c' t) ∧
    enabled_events client_step allowed c (timeout_event <$> fired).
Proof using Laws.
  intros Hf. revert c. induction Hf as [m|m t d fired m' Hm Hd _ _ IH]; intros c Hc Hv Hk Hfire.
  { exists [], c. by split_and!. }
  apply Forall_cons in Hfire as [Ht Hfire].
  assert (timers c !! t = Some true) as Htm by (rewrite Hv; apply view_pending; eauto).
  destruct (timeout_step_ok c t Hc Htm Ht) as (a1 & c1 & H1 & Hc1 & _ & Hv1 & Hk1 & Hmono).
  destruct (IH c1 Hc1) as (a2 & c2 & H2 & Hc2 & Hv2 & Hk2 & Hmono2 & Hen).
  { rewrite Hv1, view_exec_all, Hk, Hv. unfold view. by rewrite fmap_insert. }
  { congruence. }
  { eapply Forall_impl; [exact Hfire|auto]. }
  exists (a1 ++ a2), c2. cbn [fmap list_fmap run_events enabled_events]. rewrite H1. cbn [snd].
  rewrite (st_bind_ok _ _ _ _ _ H1), (st_bind_ok _ _ _ _ _ H2). split_and!; try done; [auto|].
  right. eauto.
Qed.

(** An event of the list either fires nothing, or runs the handler of a wait that ended. *)
Lemma spec_step_timed P duration now p ev fired p' :
  spec_step (fired_cmds P) duration now p ev fired p' → passive ev →
  plan_deadlines p' = plan_deadlines p ∧ fired = [] ∧
    timed_step duration now p (Timers ev) [] [] p' ∨
  ∃ e q, ev = Handle ∧ plan_ended p = e :: q ∧ plan_ended p' = q ∧
    rearmed (plan_deadlines p') (plan_wait p) (plan_wait p') ∧
    spec_fires (fired_cmds P) duration now e (plan_deadlines p) fired (plan_deadlines p').
Proof using Type.
  intros [p1 c|p1 w Hw Hle|p1 Hw|p1 Hq|p1 e q fired1 m w Hq Hf Hw] Hev; [done|left..|right].
  - split_and!; [done..|by apply timed_expires].
  - split_and!; [done..|by apply timed_not_due].
  - split_and!; [done..|by apply timed_idle].
  - by exists e, q.
Qed.

(** One event: its actions, and what the client saw of it *)
Lemma timers_step_sim duration now s m ev :
  sim duration now s m → 0 < duration → in_s 64 (now + duration) → passive ev →
  system_prompt s (now, Timers ev) →
  ∃ fired l' acts c' m' seen,
    step (fired_cmds (keeps (client s))) now ev (timer_list_ s) = (Ok fired, l') ∧
    let s' := {| client := c'; timer_list_ := l' |} in
    system_step (now, Timers ev) s = (Ok acts, s') ∧ sim duration now s' m' ∧
    run_events client_step seen (client s) = (Ok acts, c') ∧
    enabled_events client_step allowed (client s) seen ∧
    timed_step duration now (plan_of_system s m) (Timers ev) seen acts (plan_of_system s' m') ∧
    keeps c' = keeps (client s) ∧
    (∀ t, may_fire (client s) t → may_fire c' t) ∧
    (∀ t d, m' !! t = Some (Some d) → m !! t = Some (Some d)).
Proof using Laws.
  intros [Hinv Hc Hv] Hpos Hs Hev Hp. unfold plan_of_system in *.
  destruct (step_inv (fired_cmds (keeps (client s))) _ _ _ _ ev Hinv Hpos Hs) as (fired & l' & m' & H1 & Hinv' & Hsp).
  assert (∀ acts c', run_events client_step (timeout_event <$> fired) (client s) = (Ok acts, c') →
    system_step (now, Timers ev) s = (Ok acts, {| client := c'; timer_list_ := l' |})) as Hrun.
  { intros acts c' H2. destruct ev; [done|..]; unfold system_step, st_bind, st_get, on_timers, on_client;
      rewrite H1; simpl client; by rewrite H2. }
  exists fired, l'.
  destruct (spec_step_timed _ _ _ _ _ _ _ Hsp Hev) as [(Hm & -> & Hidle)|Hfires]; simpl in *; [subst m'|].
  - exists [], (client s), m, []. split; [done|]. split; [by apply Hrun|]. split; [by split|]. by split_and!.
  - destruct Hfires as (e & q & -> & Hq & Hq' & Hw & Hf).
    unfold system_prompt in Hp. cbn [fst snd] in Hp. rewrite H1 in Hp. cbn [fst] in Hp. simpl in *.
    destruct (timeouts_run _ _ _ _ _ _ _ _ Hf Hc Hv eq_refl Hp) as (acts & c' & H2 & Hc' & Hv' & Hk & Hm & Hen).
    destruct (fires_due _ _ _ _ _ _ _ Hf) as (Hnd & Hin & Hgone & Hkept).
    exists acts, c', m', (timeout_event <$> fired). split; [done|]. split; [by apply Hrun|]. split; [by split|].
    split_and!; try done.
    + unfold plan_of at 2. simpl timer_list_. rewrite Hq'. apply (timed_fires _ _ (plan_of _ m) e q); try done.
      intros t Ht. rewrite Hgone by done. destruct (decide _); auto.
    + intros t d Ht. destruct (decide (t ∈ fired)) as [Hi|Hi]; [|by rewrite <- Hkept].
      rewrite Hgone in Ht by done. by destruct (decide _).
Qed.

Lemma system_step_sim duration now s m ev :
  sim duration now s m → 0 < duration → in_s 64 (now + duration) → system_prompt s (now, ev) →
  ∃ acts s' m' seen, system_step (now, ev) s = (Ok acts, s') ∧ sim duration now s' m' ∧
    run_events client_step seen (client s) = (Ok acts, client s') ∧
    enabled_events client_step allowed (client s) seen ∧
    timed_step duration now (plan_of_system s m) ev seen acts (plan_of_system s' m').
Proof using Laws.
  intros Hsim Hpos Hs Hp. destruct ev as [ev|ev].
  - pose proof Hsim as [Hinv Hc Hv]. unfold system_prompt in Hp. cbn [fst snd] in Hp. cbn [system_step].
    destruct (is_timeout ev) eqn:Ht.
    { exists [], s, m, []. split_and!; try done. by apply timed_no_timeout. }
    destruct (client_step_ok (client s) ev Hc Ht (Hp eq_refl)) as (acts & c' & H1 & Hc' & Hv').
    destruct (exec_all_inv _ _ (timer_cmds acts) _ _ Hinv Hs) as (l' & H2 & Hinv' & Hpl).
    exists acts, {| client := c'; timer_list_ := l' |}, (spec_exec_all duration now (timer_cmds acts) m), [ev].
    split_and!.
    + unfold st_bind, on_client, on_timers, st_ret. rewrite H1. simpl timer_list_. by rewrite H2.
    + split; simpl; [done..|]. by rewrite Hv', Hv, view_exec_all.
    + cbn [run_events]. rewrite (st_bind_ok _ _ _ _ _ H1). unfold st_bind, st_ret. by rewrite app_nil_r.
    + split; [left; auto|done].
    + unfold plan_of_system. simpl timer_list_. rewrite Hpl. by apply timed_client.
  - assert (passive ev ∨ ∃ c, ev = Call c) as [Hev|[c ->]] by (destruct ev; simpl; eauto).
    + destruct (timers_step_sim _ _ _ _ ev Hsim Hpos Hs Hev Hp)
        as (fired & l' & acts & c' & m' & seen & _ & H1 & H2 & H3 & H4 & H5 & _).
      by exists acts, {| client := c'; timer_list_ := l' |}, m', seen.
    + exists [], s, m, []. split_and!; try done. apply timed_no_call.
Qed.

Lemma sim_mono duration now now' s m : now ≤ now' → sim duration now s m → sim duration now' s m.
Proof using Type. intros Hle [Hinv Hc Hv]. split; try done. by eapply inv_mono. Qed.

Lemma run_system_sim duration now events s m :
  sim duration now s m → 0 < duration → timed duration now events → prompt_system s events →
  ∃ acts s' m' seen, run_system events s = (Ok acts, s') ∧ sim duration (end_time now events) s' m' ∧
    run_events client_step seen (client s) = (Ok acts, client s') ∧
    enabled_events client_step allowed (client s) seen ∧
    timed_run duration (plan_of_system s m) events seen acts (plan_of_system s' m').
Proof using Laws.
  intros Hsim Hpos. revert now s m Hsim. induction events as [|[now' ev] events IH];
    intros now s m Hsim Ht Hp; [by exists [], s, m, []; split_and!; [..|constructor]|].
  destruct Ht as (Hle & Hs & Ht). destruct Hp as [Hp1 Hp]. apply (sim_mono _ _ now') in Hsim; [|done].
  destruct (system_step_sim _ _ _ _ ev Hsim Hpos Hs Hp1) as (a1 & s1 & m1 & e1 & H1 & Hsim1 & Hr1 & Hen1 & Hs1).
  rewrite H1 in Hp. destruct (IH now' s1 m1 Hsim1 Ht Hp) as (a2 & s2 & m2 & e2 & H2 & Hsim2 & Hr2 & Hen2 & Hs2).
  exists (a1 ++ a2), s2, m2, (e1 ++ e2). split_and!; [|done|by eapply run_events_app| |by econstructor].
  - unfold run_system in *. cbn [run_events]. by rewrite (st_bind_ok _ _ _ _ _ H1), (st_bind_ok _ _ _ _ _ H2).
  - apply enabled_events_app. split; [done|]. by rewrite (run_events_state _ _ _ _ _ Hr1).
Qed.

(** Events that only concern the timers are always prompt when every timer may fire. *)
Definition timer_events (events : list (Z * event)) : list (Z * system_event E) :=
  prod_map (λ now : Z, now) Timers <$> events.

Lemma quiet_run duration now events s m fired l' :
  sim duration now s m → 0 < duration → timed duration now events →
  Forall (λ e, passive (snd e)) events → (∀ t, may_fire (client s) t) →
  run (fired_cmds (keeps (client s))) events (timer_list_ s) = (Ok fired, l') →
  ∃ acts s' m', prompt_system s (timer_events events) ∧
    run_system (timer_events events) s = (Ok acts, s') ∧ timer_list_ s' = l' ∧
    sim duration (end_time now events) s' m' ∧
    (∀ t d, m' !! t = Some (Some d) → m !! t = Some (Some d)).
Proof using Laws.
  intros Hsim Hpos Ht Hev. revert now s m fired Hsim Ht. induction Hev as [|[now' ev] events Hev _ IH];
    intros now s m fired Hsim Ht Hall Hrun; cbn [run] in Hrun.
  { injection Hrun as _ <-. by exists [], s, m. }
  destruct Ht as (Hle & Hs & Ht). apply (sim_mono _ _ now') in Hsim; [|done].
  apply st_bind_inv in Hrun as (f & l1 & Hst & Hrun). apply st_bind_inv in Hrun as (more & l2 & Hr & Hrun).
  injection Hrun as _ <-.
  assert (system_prompt s (now', Timers ev)) as Hp.
  { unfold system_prompt. cbn [fst snd]. destruct ev; [done|..]; rewrite Hst; by apply Forall_forall. }
  destruct (timers_step_sim _ _ _ _ ev Hsim Hpos Hs Hev Hp)
    as (f' & l1' & a1 & c1 & m1 & seen & Hst' & H1 & Hsim1 & _ & _ & _ & Hk & Hm & Hsub).
  rewrite Hst in Hst'. injection Hst' as <- <-. rewrite <- Hk in Hr.
  destruct (IH now' _ m1 more Hsim1 Ht) as (a2 & s2 & m2 & Hp2 & H2 & Hl2 & Hsim2 & Hsub2); [simpl; auto|done|].
  exists (a1 ++ a2), s2, m2. split_and!; [| |done..|auto].
  - change (system_prompt s (now', Timers ev) ∧
      prompt_system (system_step (now', Timers ev) s).2 (timer_events events)). by rewrite H1.
  - unfold run_system in *. cbn [timer_events fmap list_fmap prod_map run_events].
    by rewrite (st_bind_ok _ _ _ _ _ H1), (st_bind_ok _ _ _ _ _ H2).
Qed.

(** Deadlines are within the duration of the list. *)
Lemma sim_deadline duration now s m t d :
  sim duration now s m → m !! t = Some (Some d) → d ≤ now + duration.
Proof using Type.
  intros [(<- & _ & _ & live & Hrep) _ _] Hd.
  apply (rep_deadline _ _ _ _ _ Hrep) in Hd as (x & Hx & <- & _).
  pose proof (rep_bound _ _ _ _ _ Hrep) as Hb. rewrite Forall_forall in Hb. by apply Hb.
Qed.

Lemma timed_timers duration now events :
  timed duration now events → timed duration now (timer_events events).
Proof using Type. revert now. induction events as [|[] events IH]; intros now; simpl; naive_solver. Qed.

(** The timers left to themselves until every deadline has passed: none is pending. *)
Lemma system_settles duration now late s m :
  sim duration now s m → 0 < duration → now + duration ≤ late → in_s 64 (late + duration) →
  (∀ t, may_fire (client s) t) →
  ∃ q n, let rest := timer_events (replicate q (late, Handle) ++ rounds late n) in
    prompt_system s rest ∧
    ∀ more s', run_system rest s = (Ok more, s') →
      list_ (timer_list_ s') = [] ∧ ∀ t, timers (client s') !! t ≠ Some true.
Proof using Laws.
  intros Hsim Hpos Hlate Hs Hall.
  assert (∀ t d, m !! t = Some (Some d) → d ≤ late) as Hdl
    by (intros t d Hd; pose proof (sim_deadline _ _ _ _ _ _ Hsim Hd); lia).
  apply (sim_mono _ _ late) in Hsim; [|lia].
  destruct (list_settles (fired_cmds (keeps (client s))) _ _ _ _ (sim_timers _ _ _ _ Hsim) Hpos Hs)
    as (q & n & fired & l' & m1 & Hrun & Hinv1 & Hdue).
  destruct (quiet_run _ late _ _ _ _ _ Hsim Hpos (timed_rounds _ _ q n Hs) (passive_rounds late q n) Hall Hrun)
    as (acts & s' & m' & Hp & H2 & <- & Hsim' & Hsub).
  rewrite end_time_rounds in Hsim'.
  assert (∀ t d, m' !! t ≠ Some (Some d)) as Hnone.
  { intros t d Hd. destruct (not_elem_of_nil t).
    apply (due_in_list _ _ _ _ _ Hinv1 (sim_timers _ _ _ _ Hsim') Hdue t d Hd), (Hdl t), Hsub, Hd. }
  exists q, n. split; [done|]. intros more s''. rewrite H2. intros [= <- <-]. split.
  - pose proof (sim_timers _ _ _ _ Hsim') as (_ & _ & _ & live & Hrep).
    rewrite (rep_list _ _ _ _ _ Hrep). destruct live as [|x live]; [done|].
    destruct (Hnone (callback x) (expiry x)). apply (rep_deadline _ _ _ _ _ Hrep). exists x. split; [by left|done].
  - intros t. rewrite (sim_view _ _ _ _ Hsim'), view_pending. intros [d Hd]. by eapply Hnone.
Qed.

(** What comes in with the events of the client, and not with its timeouts *)
Definition incoming {X} (f : E → list X) (e : Z * system_event E) : list X :=
  match e.2 with Client ev => f ev | Timers _ => [] end.

Lemma timed_run_incoming {X} (f : E → list X) duration p events seen acts p' :
  (∀ ev, is_timeout ev = true → f ev = []) →
  timed_run duration p events seen acts p' →
  concat (f <$> seen) = concat (incoming f <$> events).
Proof using Laws.
  intros Hf. induction 1 as [|p now ev events seen acts p1 more acts' p' Hs _ IH]; [done|].
  rewrite fmap_app, concat_app, IH. cbn [fmap list_fmap concat]. f_equal.
  destruct Hs as [ev acts Ht| | | |e q fired acts m2 w _ _ _ _ _ _| |ev Ht]; simpl; try done.
  - apply app_nil_r.
  - induction fired as [|t fired IHf]; [done|]. simpl. by rewrite Hf by apply timeout_is_timeout.
  - unfold incoming. simpl. by rewrite Hf.
Qed.

Lemma incoming_timers {X} (f : E → list X) events :
  concat (incoming f <$> timer_events events) = [].
Proof using Type. by induction events as [|[] events IH]. Qed.

Definition make_system (c : C) (duration : Z) : System C :=
  {| client := c; timer_list_ := make duration |}.

(** A client that is created with its list and runs on it; and what becomes of it when, from
    [late] on, the list is left to itself *)
Lemma system_run c duration now events late :
  good c → timers c = ∅ → 0 < duration → timed duration now events →
  prompt_system (make_system c duration) events →
  end_time now events + duration ≤ late → in_s 64 (late + duration) →
  ∃ acts s p seen, run_system events (make_system c duration) = (Ok acts, s) ∧ good (client s) ∧
    run_events client_step seen c = (Ok acts, client s) ∧
    enabled_events client_step allowed c seen ∧ timed_run duration no_timers events seen acts p ∧
    ((∀ t, may_fire (client s) t) →
     ∃ q n more s' p' seen',
       let rest := timer_events (replicate q (late, Handle) ++ rounds late n) in
       run_system rest s = (Ok more, s') ∧ good (client s') ∧
       run_events client_step seen' (client s) = (Ok more, client s') ∧
       enabled_events client_step allowed (client s) seen' ∧
       timed_run duration p rest seen' more p' ∧
       list_ (timer_list_ s') = [] ∧ ∀ t, timers (client s') !! t ≠ Some true).
Proof using Laws.
  intros Hc Hv Hpos Ht Hp Hlate Hs.
  assert (sim duration now (make_system c duration) ∅) as Hsim
    by (split; [apply (empty_inv (λ _, []))|done|simpl; by rewrite Hv]).
  destruct (run_system_sim _ _ _ _ _ Hsim Hpos Ht Hp) as (acts & s & m & seen & H1 & Hsim1 & Hr & He & Htr).
  exists acts, s, (plan_of_system s m), seen. split_and!; [done|apply Hsim1|done..|]. intros Hall.
  destruct (system_settles _ _ late _ _ Hsim1 Hpos Hlate Hs Hall) as (q & n & Hp2 & Hend).
  apply (sim_mono _ _ late) in Hsim1; [|lia].
  destruct (run_system_sim _ late _ _ _ Hsim1 Hpos (timed_timers _ _ _ (timed_rounds _ _ q n Hs)) Hp2)
    as (more & s' & m' & seen' & H2 & Hsim2 & Hr2 & He2 & Htr2).
  exists q, n, more, s', (plan_of_system s' m'), seen'. destruct (Hend more s' H2) as [Hl Hn].
  split_and!; [done|apply Hsim2|done..].
Qed.
End simulation.
