(* ===== verification/IcmpClient.v ===== *)
(** * net/icmp-client: the operations

    A client owns its operations by their sequence number.  [refs_] counts the
    references to an operation: that of the handler of a pending send
    ([sending_]) and the one that start adds and finish releases; the destructor
    runs when it drops to 0 and destroys the Timer.  [timer_] tells whether the Timer
    of the operation has not fired yet; IcmpTimers.v adds the timer list.  A callback
    is known by a number; [callback_] is [None] once it was moved from.  What the code asks of asio and
    the callbacks it runs are the [action]s that a function returns; the
    callbacks do not call the client. *)

From S2P Require Import Prelude Machine Icmp.

Inductive action : Type :=
  | SendTo (endpoint : Z) (packet : list Z)
  | StartTimer (seq : Z)
  | DestroyTimer (seq : Z)
  | Callback (id : Z) (ec : option errc) (data : list Z).

Record Operation : Type := {
  endpoint_ : Z;
  callback_ : option Z;
  timer_ : bool;
  sending_ : bool;
  refs_ : nat;
}.

Record IcmpClient : Type := {
  identifier_ : Z;
  next_sequence_number_ : Z;
  operations_ : gmap Z Operation;
}.

(** IcmpClient::IcmpClient *)
Definition make (pid : Z) : IcmpClient :=
  {| identifier_ := u16 pid; next_sequence_number_ := 0; operations_ := ∅ |}.

Definition set_next (n : Z) (c : IcmpClient) : IcmpClient :=
  {| identifier_ := identifier_ c; next_sequence_number_ := n; operations_ := operations_ c |}.

Definition set_operations (ops : gmap Z Operation) (c : IcmpClient) : IcmpClient :=
  {| identifier_ := identifier_ c; next_sequence_number_ := next_sequence_number_ c;
     operations_ := ops |}.

Definition set_refs (n : nat) (op : Operation) : Operation :=
  {| endpoint_ := endpoint_ op; callback_ := callback_ op; timer_ := timer_ op;
     sending_ := sending_ op; refs_ := n |}.

Definition set_sent (op : Operation) : Operation :=
  {| endpoint_ := endpoint_ op; callback_ := callback_ op; timer_ := timer_ op;
     sending_ := false; refs_ := refs_ op |}.

Definition set_fired (op : Operation) : Operation :=
  {| endpoint_ := endpoint_ op; callback_ := callback_ op; timer_ := false;
     sending_ := sending_ op; refs_ := refs_ op |}.

Definition take_callback (op : Operation) : Operation :=
  {| endpoint_ := endpoint_ op; callback_ := None; timer_ := timer_ op;
     sending_ := sending_ op; refs_ := refs_ op |}.

(** IcmpClient::Operation::Operation and start: the send and the timer hold a
    reference each. *)
Definition make_operation (endpoint cb : Z) : Operation :=
  {| endpoint_ := endpoint; callback_ := Some cb; timer_ := true; sending_ := true; refs_ := 2 |}.

(** IcmpClient::request *)
Definition request (endpoint : Z) (buffer : list Z) (cb : Z) : ST IcmpClient (list action) :=
  let* c := st_get in
  let seq := next_sequence_number_ c in
  match operations_ c !! seq with
  | Some _ => st_ret [Callback cb (Some no_buffer_space) []]
  | None =>
      let op := make_operation endpoint cb in
      let* _ := st_put (set_operations (<[seq := op]> (operations_ c)) (set_next (u16 (seq + 1)) c)) in
      st_ret [SendTo endpoint (start_packet (identifier_ c) seq buffer); StartTimer seq]
  end.

(** intrusive_ptr_release, with ~Operation, which destroys the Timer *)
Definition release (seq : Z) (op : Operation) : ST IcmpClient (list action) :=
  match refs_ op with
  | O => crash
  | S O =>
      let* _ := st_modify (λ c, set_operations (delete seq (operations_ c)) c) in
      st_ret [DestroyTimer seq]
  | S n =>
      let* _ := st_modify (λ c, set_operations (<[seq := set_refs n op]> (operations_ c)) c) in
      st_ret []
  end.

(** IcmpClient::Operation::finish; the callback was moved from if it ran before. *)
Definition finish (seq : Z) (op : Operation) (ec : option errc) (data : list Z) :
    ST IcmpClient (list action) :=
  match callback_ op with
  | None => crash
  | Some cb =>
      let* more := release seq (take_callback op) in
      st_ret (Callback cb ec data :: more)
  end.

Definition be16_decode (bs : list Z) : Z := nth 0 bs 0 * 256 + nth 1 bs 0.

(** The handler of IcmpClient::receive *)
Definition on_receive (packet : list Z) : ST IcmpClient (list action) :=
  if zlen packet <? 20 + 8 then st_ret []
  else
    let* c := st_get in
    if negb (nth 20 packet 0 =? echo_reply) ||
       negb (be16_decode (drop 24 packet) =? identifier_ c) then st_ret []
    else
      let seq := be16_decode (drop 26 packet) in
      match operations_ c !! seq with
      | None => st_ret []
      | Some op => finish seq op None (drop 28 packet)
      end.

(** The callback of the Timer *)
Definition on_timeout (seq : Z) : ST IcmpClient (list action) :=
  let* c := st_get in
  match operations_ c !! seq with
  | Some op =>
      if timer_ op then finish seq (set_fired op) (Some timed_out) [] else st_ret []
  | None => st_ret []
  end.

(** The completion of the send *)
Definition on_send (seq : Z) : ST IcmpClient (list action) :=
  let* c := st_get in
  match operations_ c !! seq with
  | Some op => if sending_ op then release seq (set_sent op) else st_ret []
  | None => st_ret []
  end.

Inductive event : Type :=
  | Request (endpoint : Z) (buffer : list Z) (cb : Z)
  | Sent (seq : Z)
  | Receive (packet : list Z)
  | Timeout (seq : Z).

Definition step (ev : event) : ST IcmpClient (list action) :=
  match ev with
  | Request endpoint buffer cb => request endpoint buffer cb
  | Sent seq => on_send seq
  | Receive packet => on_receive packet
  | Timeout seq => on_timeout seq
  end.

Definition run : list event → ST IcmpClient (list action) := run_events step.

(** ** Every callback runs exactly once *)

(** The callbacks that were given to the client, those that ran, and those that
    its operations still hold *)
Definition requested (events : list event) : list Z :=
  omap (λ ev, match ev with Request _ _ cb => Some cb | _ => None end) events.

Definition called (acts : list action) : list Z :=
  omap (λ a, match a with Callback cb _ _ => Some cb | _ => None end) acts.

Definition held (c : IcmpClient) : list Z :=
  omap (λ p : Z * Operation, callback_ p.2) (map_to_list (operations_ c)).

(** Each operation has the references of its pending send and of start. *)
Definition wf (c : IcmpClient) : Prop :=
  map_Forall (λ _ op, is_Some (callback_ op) ∧ timer_ op = true ∧
    refs_ op = if sending_ op then 2%nat else 1%nat) (operations_ c).

(** The operation that an event would finish *)
Definition finishes (c : IcmpClient) (ev : event) : option Operation :=
  match ev with
  | Receive packet => operations_ c !! be16_decode (drop 26 packet)
  | Timeout seq => operations_ c !! seq
  | _ => None
  end.

(** Replies and timeouts come after the send of the request has completed. *)
Definition sent_before (c : IcmpClient) (ev : event) : Prop :=
  match finishes c ev with Some op => sending_ op = false | None => True end.

Definition prompt (events : list event) (c : IcmpClient) : Prop :=
  enabled_events step sent_before c events.

Lemma held_insert c seq op :
  operations_ c !! seq = None →
  held (set_operations (<[seq := op]> (operations_ c)) c) ≡ₚ option_list (callback_ op) ++ held c.
Proof.
  intros H. unfold held. simpl. rewrite map_to_list_insert by done. simpl. by destruct (callback_ op).
Qed.

Lemma held_delete c seq op :
  operations_ c !! seq = Some op →
  held c ≡ₚ option_list (callback_ op) ++ held (set_operations (delete seq (operations_ c)) c).
Proof.
  intros H. unfold held. simpl. rewrite <- map_to_list_delete by done. simpl. by destruct (callback_ op).
Qed.

Lemma held_update c seq op op' :
  operations_ c !! seq = Some op → callback_ op' = callback_ op →
  held (set_operations (<[seq := op']> (operations_ c)) c) ≡ₚ held c.
Proof.
  intros H Hcb. unfold held. simpl. rewrite <- (map_to_list_delete _ _ _ H). simpl.
  rewrite <- insert_delete_eq, map_to_list_insert by apply lookup_delete_eq. simpl. by rewrite Hcb.
Qed.

(** Finishing an operation whose send has completed destroys it. *)
Lemma finish_sent c seq op op' ec data :
  wf c → operations_ c !! seq = Some op → sending_ op = false →
  callback_ op' = callback_ op → refs_ op' = refs_ op →
  ∃ cb, callback_ op = Some cb ∧
    finish seq op' ec data c =
    (Ok [Callback cb ec data; DestroyTimer seq], set_operations (delete seq (operations_ c)) c).
Proof.
  intros Hwf Hop Hs Hcb Hr. destruct (Hwf _ _ Hop) as ([cb Ecb] & _ & Hrefs). rewrite Hs in Hrefs.
  unfold finish, release, st_bind, st_modify, st_ret. rewrite Hcb, Ecb. simpl. rewrite Hr, Hrefs.
  by exists cb.
Qed.

Lemma wf_delete c seq : wf c → wf (set_operations (delete seq (operations_ c)) c).
Proof. intros. by apply map_Forall_delete. Qed.

Lemma finish_balance c seq op op' ec data :
  wf c → operations_ c !! seq = Some op → sending_ op = false →
  callback_ op' = callback_ op → refs_ op' = refs_ op →
  ∃ acts c', finish seq op' ec data c = (Ok acts, c') ∧ wf c' ∧ called acts ++ held c' ≡ₚ held c.
Proof.
  intros Hwf Hop Hs Hcb Hr.
  destruct (finish_sent c seq op op' ec data) as (cb & Ecb & ->); try done.
  eexists _, _. split; [done|]. split; [by apply wf_delete|].
  by rewrite (held_delete _ _ _ Hop), Ecb.
Qed.

Lemma request_balance c endpoint buffer cb :
  wf c → ∃ acts c', request endpoint buffer cb c = (Ok acts, c') ∧ wf c' ∧
    called acts ++ held c' ≡ₚ cb :: held c.
Proof.
  intros Hwf. unfold request, st_bind, st_get, st_put, st_ret.
  destruct (operations_ c !! next_sequence_number_ c) as [op|] eqn:E; [by eexists _, _|].
  eexists _, _. split; [done|]. split; [by apply map_Forall_insert_2|].
  by apply (held_insert (set_next (u16 (next_sequence_number_ c + 1)) c)).
Qed.

Lemma send_balance c seq :
  wf c → ∃ acts c', on_send seq c = (Ok acts, c') ∧ wf c' ∧ called acts ++ held c' ≡ₚ held c.
Proof.
  intros Hwf. unfold on_send, st_bind, st_get, st_ret.
  destruct (operations_ c !! seq) as [op|] eqn:E; [|by eexists _, _].
  destruct (Hwf _ _ E) as (Hcb & Ht & Hr). destruct (sending_ op); [|by eexists _, _].
  unfold release, st_bind, st_modify, st_ret. simpl. rewrite Hr.
  eexists _, _. split; [done|]. split; [|by apply (held_update c seq op)].
  by apply map_Forall_insert_2.
Qed.

Lemma step_balance c ev :
  wf c → sent_before c ev →
  ∃ acts c', step ev c = (Ok acts, c') ∧ wf c' ∧ called acts ++ held c' ≡ₚ requested [ev] ++ held c.
Proof.
  intros Hwf Hp. unfold sent_before in Hp.
  destruct ev as [endpoint buffer cb|seq|packet|seq]; simpl in *.
  - by apply request_balance.
  - by apply send_balance.
  - unfold on_receive, st_bind, st_get, st_ret. split_if; [by eexists _, _|].
    split_if; [by eexists _, _|]. destruct (operations_ c !! _) as [op|] eqn:E; [|by eexists _, _].
    by eapply finish_balance.
  - unfold on_timeout, st_bind, st_get, st_ret.
    destruct (operations_ c !! seq) as [op|] eqn:E; [|by eexists _, _].
    split_if; [by eapply finish_balance|by eexists _, _].
Qed.

Lemma run_balance events c :
  wf c → prompt events c →
  ∃ acts c', run events c = (Ok acts, c') ∧ wf c' ∧
    called acts ++ held c' ≡ₚ requested events ++ held c.
Proof.
  intros Hwf Hp.
  assert (requested events = concat ((λ ev, requested [ev]) <$> events)) as ->.
  { clear. induction events as [|ev events IH]; [done|].
    change (requested (ev :: events)) with (requested ([ev] ++ events)).
    cbn [fmap list_fmap concat]. rewrite <- IH. apply omap_app. }
  apply (run_conserves step sent_before _ called held wf); [apply omap_app|..|done|done].
  intros. by apply step_balance.
Qed.

(** For any sequence of requests, send completions, received packets (arbitrary bytes)
    and timeouts in which an operation is answered or times out only after its send has
    completed, the ICMP client runs without fault and every callback it was given has either
    run exactly once or is held by exactly one pending operation, whose timer is running. *)
Theorem icmp_callbacks_once pid events :
  prompt events (make pid) →
  ∃ acts c', run events (make pid) = (Ok acts, c') ∧ called acts ++ held c' ≡ₚ requested events ∧
    map_Forall (λ _ op, timer_ op = true) (operations_ c').
Proof.
  intros Hp. destruct (run_balance events (make pid)) as (acts & c' & Hrun & Hwf & Hb); [done|done|].
  exists acts, c'. split; [done|]. rewrite Hb. change (held (make pid)) with (@nil Z).
  rewrite app_nil_r. split; [done|]. eapply map_Forall_impl; [done|]. naive_solver.
Qed.

(** The reply to an echo request: an IPv4 header, and the request with the type
    and the checksum of a reply *)
Definition reply (ip : list Z) (checksum : list Z) (sent : list Z) : list Z :=
  ip ++ [echo_reply; 0] ++ checksum ++ drop 4 sent.

Lemma be16_decode_encode z bs : in_u 16 z → be16_decode (be16 z ++ bs) = z.
Proof. intros [??]. unfold be16_decode. simpl. pose proof (Z.div_mod z 256). lia. Qed.

Lemma reply_fields ip checksum id seq buffer :
  length ip = 20%nat → length checksum = 2%nat → in_u 16 id → in_u 16 seq →
  let p := reply ip checksum (start_packet id seq buffer) in
  zlen p <? 28 = false ∧ nth 20 p 0 = echo_reply ∧ be16_decode (drop 24 p) = id ∧
  be16_decode (drop 26 p) = seq ∧ drop 28 p = buffer.
Proof.
  intros Hip Hck Hid Hseq p.
  assert (p = ip ++ ([echo_reply; 0] ++ checksum) ++ be16 id ++ be16 seq ++ buffer) as -> by done.
  split; [apply Z.ltb_ge; rewrite !zlen_app; unfold zlen; simpl; lia|]. split.
  { rewrite app_nth2 by lia. by rewrite Hip. }
  assert (∀ n bs, (n = length ip + 4)%nat → drop n (ip ++ ([echo_reply; 0] ++ checksum) ++ bs) = bs) as Hdrop.
  { intros n bs ->. rewrite <- drop_drop, drop_app_length, drop_app_ge by (simpl; lia).
    replace (4 - _)%nat with 0%nat by (simpl; lia). done. }
  rewrite Hdrop by lia. rewrite (be16_decode_encode id) by done. split; [done|].
  assert (∀ k bs, drop (24 + k) (ip ++ ([echo_reply; 0] ++ checksum) ++ bs) = drop k bs) as Hd
    by (intros; by rewrite <- drop_drop, Hdrop by lia).
  rewrite (Hd 2%nat), (Hd 4%nat). split; [by apply be16_decode_encode|done].
Qed.

Lemma receive_reply c ip checksum seq buffer op :
  length ip = 20%nat → length checksum = 2%nat → in_u 16 (identifier_ c) → in_u 16 seq →
  operations_ c !! seq = Some op →
  on_receive (reply ip checksum (start_packet (identifier_ c) seq buffer)) c =
  finish seq op None buffer c.
Proof.
  intros Hip Hck Hid Hseq Hop.
  destruct (reply_fields ip checksum (identifier_ c) seq buffer) as (H1 & H2 & H3 & H4 & H5); [done..|].
  unfold on_receive, st_bind, st_get. change (20 + 8) with 28. rewrite H1, H2, H3, H4, H5.
  by rewrite !Z.eqb_refl, Hop.
Qed.

(** C37: When the peer answers the packet that request sent, with an IPv4 header and a
    checksum of its own, the callback is given exactly the payload of the request, the timer
    is destroyed and the operation is gone. *)
Theorem icmp_echo_roundtrip c endpoint buffer cb ip checksum :
  wf c → in_u 16 (identifier_ c) → in_u 16 (next_sequence_number_ c) →
  operations_ c !! next_sequence_number_ c = None → length ip = 20%nat → length checksum = 2%nat →
  ∃ packet c1 c2,
    let seq := next_sequence_number_ c in
    request endpoint buffer cb c = (Ok [SendTo endpoint packet; StartTimer seq], c1) ∧
    on_send seq c1 = (Ok [], c2) ∧
    on_receive (reply ip checksum packet) c2 =
      (Ok [Callback cb None buffer; DestroyTimer seq],
       set_next (u16 (seq + 1)) c).
Proof.
  intros Hwf Hid Hseq Hfree Hip Hck. unfold request, st_bind, st_get, st_put, st_ret. rewrite Hfree.
  eexists _, _, _. split; [done|]. unfold on_send, st_bind, st_get, st_ret. simpl.
  rewrite lookup_insert_eq. simpl. split; [done|].
  set (c2 := set_operations _ _). change (identifier_ c) with (identifier_ c2).
  erewrite (receive_reply c2) by (done || apply lookup_insert_eq).
  unfold finish, release, st_bind, st_modify, st_ret. simpl. do 2 f_equal.
  unfold set_operations, set_next. simpl. f_equal. by rewrite !delete_insert_eq, delete_id.
Qed.

Definition example_client : IcmpClient := make 77.

Definition example_events : list event :=
  [Request 1 [5; 6] 100; Sent 0; Request 1 [] 101; Sent 1;
   Receive (reply (replicate 20 0) [0; 0] (start_packet 77 1 [])); Timeout 0; Timeout 1].

Lemma icmp_callbacks_once_witness :
  ∃ acts c', run example_events example_client = (Ok acts, c') ∧
    called acts ++ held c' ≡ₚ [100; 101].
Proof.
  destruct (icmp_callbacks_once 77 example_events) as (acts & c' & H1 & H2 & _);
    [vm_compute; tauto|].
  exists acts, c'. split; [exact H1|exact H2].
Defined.

Lemma icmp_echo_roundtrip_witness :
  ∃ packet c1 c2,
    request 1 [5; 6] 100 example_client = (Ok [SendTo 1 packet; StartTimer 0], c1) ∧
    on_send 0 c1 = (Ok [], c2) ∧
    on_receive (reply (replicate 20 0) [0; 0] packet) c2 =
      (Ok [Callback 100 None [5; 6]; DestroyTimer 0], set_next 1 example_client).
Proof.
  apply (icmp_echo_roundtrip example_client 1 [5; 6] 100 (replicate 20 0) [0; 0]);
    [done|vm_compute; intuition congruence|vm_compute; intuition congruence|done..].
Defined.

(** When a reply is handled before the send of its request has completed, the operation
    stays in the table after its callback ran: a second reply or the timeout then invokes a
    callback that was moved from. *)
Theorem icmp_double_finish pid endpoint buffer cb ip checksum :
  in_u 16 pid → length ip = 20%nat → length checksum = 2%nat →
  let packet := reply ip checksum (start_packet pid 0 buffer) in
  ∃ c', run [Request endpoint buffer cb; Receive packet] (make pid) =
    (Ok [SendTo endpoint (start_packet pid 0 buffer); StartTimer 0; Callback cb None buffer], c') ∧
    (run [Receive packet] c').1 = Crash ∧ (run [Timeout 0] c').1 = Crash.
Proof.
  intros Hpid Hip Hck packet. unfold packet.
  set (op := make_operation endpoint cb).
  set (c1 := set_operations {[0 := op]} (set_next 1 (make pid))).
  set (c2 := set_operations {[0 := set_refs 1 (take_callback op)]} c1).
  assert (identifier_ (make pid) = pid) as Ep by by apply uwrap_id.
  assert (step (Request endpoint buffer cb) (make pid) =
    (Ok [SendTo endpoint (start_packet pid 0 buffer); StartTimer 0], c1)) as H1
    by (simpl; unfold request, st_bind, st_get, st_put, st_ret; by rewrite Ep).
  assert (∀ c o, identifier_ c = pid → operations_ c = {[0 := o]} →
    step (Receive (reply ip checksum (start_packet pid 0 buffer))) c = finish 0 o None buffer c) as H2.
  { intros c o Hc Ho. simpl. rewrite <- Hc at 1. apply receive_reply; try done; [by rewrite Hc|].
    rewrite Ho. apply lookup_singleton_eq. }
  exists c2. unfold run. cbn [run_events]. rewrite (st_bind_ok _ _ _ _ _ H1). split; [|split].
  - unfold st_bind. rewrite (H2 c1 op) by done. unfold finish, release, st_bind, st_modify, st_ret. simpl.
    unfold c2. simpl. by rewrite insert_singleton_eq.
  - unfold st_bind. by rewrite (H2 c2 (set_refs 1 (take_callback op))) by done.
  - unfold st_bind, step, on_timeout, st_bind, st_get. simpl. by rewrite lookup_singleton_eq.
Qed.

Lemma icmp_double_finish_witness :
  ∃ c', (run [Receive (reply (replicate 20 0) [0; 0] (start_packet 77 0 [5]))] c').1 = Crash.
Proof.
  destruct (icmp_double_finish 77 1 [5] 100 (replicate 20 0) [0; 0]) as (c' & _ & H & _);
    [vm_compute; intuition congruence|done|done|].
  exists c'. exact H.
Defined.
