(* ===== verification/IcmpTimers.v ===== *)
(** * net/icmp-client over net/timer-list

    The client of IcmpClient.v on its own timer list, as a [TimerClient].  The Timer of an
    operation has the sequence number as its number and lives as long as the operation.
    [sending] are the operations whose send has not completed: the callback of a Timer
    finishes its operation, which destroys the Timer unless that send still holds a
    reference. *)

From S2P Require Import Prelude Machine Icmp TimerList TimerClient IcmpClient.

(** The calls of the actions to the timer list *)
Definition timer_call (a : action) : option cmd :=
  match a with
  | StartTimer t => Some (Construct t)
  | DestroyTimer t => Some (Destroy t)
  | _ => None
  end.

Definition sending (c : IcmpClient) : gset Z :=
  dom (filter (λ p : Z * Operation, sending_ p.2 = true) (operations_ c)).

Definition operation_timers (c : IcmpClient) : gmap Z bool := timer_ <$> operations_ c.

#[export] Instance icmp_timers : TimerClient IcmpClient action IcmpClient.event := {|
  client_step := IcmpClient.step;
  timeout_event := Timeout;
  is_timeout := λ ev, match ev with Timeout _ => true | _ => false end;
  timer_action := timer_call;
  timers := operation_timers;
  keeps := sending;
  client_enabled := sent_before;
  may_fire := λ c t, t ∉ sending c;
|}.

(** ** Specification: a table of callbacks and deadlines, and the waits

    A request is refused when the next sequence number is taken, or gets a deadline; it is
    answered once, by a reply with its sequence number, or by a timeout when the handler of
    a wait runs that ended no earlier than its deadline.  The first request starts a wait,
    a reply to the last one cancels it, and a handler begins a wait for the earliest
    deadline that is left. *)

Record Pending : Type := { callback_id : Z; deadline : Z }.

Record Table : Type := {
  next : Z;
  pending : gmap Z Pending;
  wait_end : option Z;
  ended_waits : list Z;
}.

Definition no_requests : Table := {| next := 0; pending := ∅; wait_end := None; ended_waits := [] |}.

Definition accepted (cb d : Z) (T : Table) : Table :=
  {| next := u16 (next T + 1);
     pending := <[next T := {| callback_id := cb; deadline := d |}]> (pending T);
     wait_end := if decide (pending T = ∅) then Some d else wait_end T;
     ended_waits := ended_waits T |}.

Definition answered (seq : Z) (T : Table) : Table :=
  let M := delete seq (pending T) in
  {| next := next T; pending := M;
     wait_end := if decide (M = ∅) then None else wait_end T;
     ended_waits := ended_waits T |}.

Definition set_waits (w : option Z) (q : list Z) (T : Table) : Table :=
  {| next := next T; pending := pending T; wait_end := w; ended_waits := q |}.

Definition set_pending (M : gmap Z Pending) (T : Table) : Table :=
  {| next := next T; pending := M; wait_end := wait_end T; ended_waits := ended_waits T |}.

(** The wait that a handler leaves: for the earliest deadline, and what it was when no
    request is left *)
Definition next_wait (M : gmap Z Pending) (w w' : option Z) : Prop :=
  (M = ∅ ∧ w' = w) ∨
  ∃ t p, M !! t = Some p ∧ map_Forall (λ _ p', deadline p ≤ deadline p') M ∧ w' = Some (deadline p).

Inductive answer : Type := Answer (id : Z) (ec : option errc) (data : list Z).

Definition answers (acts : list action) : list answer :=
  omap (λ a, match a with Callback id ec data => Some (Answer id ec data) | _ => None end) acts.

(** The request that a packet replies to, for the client with the identifier [id] *)
Definition replied (id : Z) (packet : list Z) (T : Table) : option Pending :=
  if (28 <=? zlen packet) && (nth 20 packet 0 =? echo_reply) && (be16_decode (drop 24 packet) =? id)
  then pending T !! be16_decode (drop 26 packet) else None.

Definition timeout_of (M : gmap Z Pending) (t : Z) (a : answer) : Prop :=
  ∃ p, M !! t = Some p ∧ a = Answer (callback_id p) (Some timed_out) [].

(** The requests of [ts] time out: those whose deadline is at most [e], once each. *)
Definition times_out (e : Z) (M : gmap Z Pending) (out : list answer) (M' : gmap Z Pending) : Prop :=
  ∃ ts, NoDup ts ∧ (∀ t, t ∈ ts ↔ ∃ p, M !! t = Some p ∧ deadline p ≤ e) ∧
    Forall2 (timeout_of M) ts out ∧ M' = filter (λ p, p.1 ∉ ts) M.

Inductive spec_system_step (id duration now : Z) (T : Table) :
    system_event IcmpClient.event → list answer → Table → Prop :=
  | spec_accepted endpoint buffer cb :
      pending T !! next T = None →
      spec_system_step id duration now T (Client (Request endpoint buffer cb)) []
        (accepted cb (now + duration) T)
  | spec_refused endpoint buffer cb :
      is_Some (pending T !! next T) →
      spec_system_step id duration now T (Client (Request endpoint buffer cb))
        [Answer cb (Some no_buffer_space) []] T
  | spec_answered packet p :
      replied id packet T = Some p →
      spec_system_step id duration now T (Client (Receive packet))
        [Answer (callback_id p) None (drop 28 packet)]
        (answered (be16_decode (drop 26 packet)) T)
  | spec_ignored packet :
      replied id packet T = None →
      spec_system_step id duration now T (Client (Receive packet)) [] T
  | spec_sent seq : spec_system_step id duration now T (Client (Sent seq)) [] T
  | spec_wait_ends w :
      wait_end T = Some w → w ≤ now →
      spec_system_step id duration now T (Timers Expire) [] (set_waits None (ended_waits T ++ [w]) T)
  | spec_wait_goes_on :
      (∀ w, wait_end T = Some w → now < w) → spec_system_step id duration now T (Timers Expire) [] T
  | spec_times_out e q out M w' :
      ended_waits T = e :: q → times_out e (pending T) out M → next_wait M (wait_end T) w' →
      spec_system_step id duration now T (Timers Handle) out (set_pending M (set_waits w' q T))
  | spec_no_handler :
      ended_waits T = [] → spec_system_step id duration now T (Timers Handle) [] T
  | spec_no_call c : spec_system_step id duration now T (Timers (Call c)) [] T
  | spec_no_timeout seq : spec_system_step id duration now T (Client (Timeout seq)) [] T.

Inductive spec_system (id duration : Z) :
    Table → list (Z * system_event IcmpClient.event) → list answer → Table → Prop :=
  | system_done T : spec_system id duration T [] [] T
  | system_next T now ev events out T1 more T' :
      spec_system_step id duration now T ev out T1 → spec_system id duration T1 events more T' →
      spec_system id duration T ((now, ev) :: events) (out ++ more) T'.

(** ** The operations of the pending requests *)

(** The operations and the timers of the pending requests *)
Definition coupled (c : IcmpClient) (M : gmap Z Pending) : Prop :=
  callback_ <$> operations_ c = (λ p, Some (callback_id p)) <$> M.

Definition deadlines (M : gmap Z Pending) : gmap Z (option Z) := (λ p, Some (deadline p)) <$> M.

(** The deadlines and the waits of a table *)
Definition plan_of_table (T : Table) : Plan :=
  {| plan_deadlines := deadlines (pending T); plan_wait := wait_end T; plan_ended := ended_waits T |}.

Lemma idle_deadlines M : idle (deadlines M) = bool_decide (M = ∅).
Proof.
  apply bool_decide_ext. split; [|intros -> t o; unfold deadlines; by rewrite fmap_empty, lookup_empty].
  intros H. apply map_empty. intros t. destruct (M !! t) as [p|] eqn:E; [|done].
  assert (deadlines M !! t = Some (Some (deadline p))) as Hd; [|by apply H in Hd].
  unfold deadlines. by rewrite lookup_fmap, E.
Qed.

Lemma rearmed_deadlines M w w' : rearmed (deadlines M) w w' → next_wait M w w'.
Proof.
  unfold rearmed. rewrite idle_deadlines, bool_decide_eq_true. intros [H|(d & [(t & Ht) Hmin] & ->)]; [by left|].
  unfold deadlines in *. rewrite lookup_fmap in Ht. apply fmap_Some in Ht as (p & Hp & [= ->]).
  right. exists t, p. split_and!; [done| |done]. intros t' p' Hp'. apply (Hmin t'). by rewrite lookup_fmap, Hp'.
Qed.

Lemma coupled_lookup c M t :
  coupled c M → callback_ <$> operations_ c !! t = (λ p, Some (callback_id p)) <$> M !! t.
Proof. intros H. by rewrite <- !lookup_fmap, H. Qed.

Lemma coupled_none c M t : coupled c M → operations_ c !! t = None ↔ M !! t = None.
Proof. intros H%(coupled_lookup _ _ t). rewrite <- (fmap_None callback_), H, fmap_None. done. Qed.

Lemma coupled_some c M t op :
  coupled c M → operations_ c !! t = Some op →
  ∃ p, M !! t = Some p ∧ callback_ op = Some (callback_id p).
Proof.
  intros H%(coupled_lookup _ _ t) Hop. rewrite Hop in H. simpl in H. symmetry in H.
  apply fmap_Some in H as (p & Hp & Hc). eauto.
Qed.

Lemma coupled_delete c M t :
  coupled c M → coupled (set_operations (delete t (operations_ c)) c) (delete t M).
Proof. unfold coupled. simpl. by rewrite !fmap_delete; intros ->. Qed.

Lemma coupled_insert c M t op p :
  coupled c M → callback_ op = Some (callback_id p) →
  coupled (set_operations (<[t := op]> (operations_ c)) c) (<[t := p]> M).
Proof. unfold coupled. simpl. rewrite !fmap_insert. by intros -> ->. Qed.

Lemma not_sending c t op :
  t ∉ sending c → operations_ c !! t = Some op → sending_ op = false.
Proof.
  intros H Hop. apply not_true_is_false. intros Hs. apply H. unfold sending.
  apply elem_of_dom. exists op. by apply map_lookup_filter_Some.
Qed.

Lemma not_sending_delete c t :
  sending (set_operations (delete t (operations_ c)) c) = sending c ∖ {[t]}.
Proof. unfold sending. simpl. by rewrite map_filter_delete, dom_delete_L. Qed.

Lemma filter_cons_delete {A} (M : gmap Z A) t ts :
  filter (λ p, p.1 ∉ ts) (delete t M) = filter (λ p, p.1 ∉ t :: ts) M.
Proof.
  apply map_eq. intros t'. apply option_eq. intros x. rewrite !map_lookup_filter_Some, lookup_delete_Some.
  simpl. rewrite not_elem_of_cons. naive_solver.
Qed.

Lemma deadlines_filter M (ts : list Z) :
  deadlines (filter (λ p, p.1 ∉ ts) M) = filter (λ p, p.1 ∉ ts) (deadlines M).
Proof. unfold deadlines. by rewrite map_filter_fmap. Qed.

Lemma deadlines_delete M t : deadlines (delete t M) = delete t (deadlines M).
Proof. unfold deadlines. by rewrite fmap_delete. Qed.

Lemma deadlines_some M t d :
  deadlines M !! t = Some (Some d) ↔ ∃ p, M !! t = Some p ∧ deadline p = d.
Proof. unfold deadlines. rewrite lookup_fmap, fmap_Some. naive_solver. Qed.

(** The table of a client *)
Record tabled (id : Z) (c : IcmpClient) (T : Table) : Prop := {
  tabled_wf : wf c;
  tabled_id : identifier_ c = id;
  tabled_next : next_sequence_number_ c = next T;
  tabled_coupled : coupled c (pending T);
}.

(** What a step of the client leaves, and what it asks of the list *)
Definition follows (id duration now : Z) (T : Table) (ev : system_event IcmpClient.event) (acts : list action)
    (c : IcmpClient) (T' : Table) : Prop :=
  tabled id c T' ∧
  plan_of_table T' = plan_exec_all duration now (timer_cmds acts) (plan_of_table T) ∧
  spec_system_step id duration now T ev (answers acts) T'.

Section client.
Context (id duration now : Z) (c : IcmpClient) (T : Table).
Hypothesis Htab : tabled id c T.

Lemma request_follows endpoint buffer cb :
  ∃ acts c' T', request endpoint buffer cb c = (Ok acts, c') ∧
    follows id duration now T (Client (Request endpoint buffer cb)) acts c' T'.
Proof using Htab.
  destruct Htab as [Hwf Hid Hn Hc]. unfold request, st_bind, st_get, st_put, st_ret. rewrite Hn.
  destruct (operations_ c !! next T) as [op|] eqn:E.
  - eexists _, _, T. split; [done|]. split_and!; try done. constructor.
    destruct (coupled_some _ _ _ _ Hc E) as (p & -> & _). eauto.
  - pose proof (proj1 (coupled_none _ _ _ Hc) E) as Hfree.
    eexists _, _, (accepted cb (now + duration) T). split; [done|]. split_and!; try done.
    + split; try done; [by apply map_Forall_insert_2|].
      by apply (coupled_insert (set_next (u16 (next T + 1)) c)).
    + unfold plan_of_table, timer_cmds. cbn [accepted pending wait_end ended_waits omap list_omap timer_action icmp_timers timer_call].
      unfold plan_exec_all, plan_exec. cbn [foldl spec_exec call_wait plan_deadlines plan_wait plan_ended].
      rewrite idle_deadlines. unfold deadlines. rewrite lookup_fmap, Hfree, fmap_insert. simpl. f_equal.
      by destruct (decide _); [rewrite bool_decide_true|rewrite bool_decide_false].
    + by constructor.
Qed.

Lemma send_follows seq :
  ∃ acts c' T', on_send seq c = (Ok acts, c') ∧
    follows id duration now T (Client (Sent seq)) acts c' T'.
Proof using Htab.
  destruct Htab as [Hwf Hid Hn Hc].
  assert (follows id duration now T (Client (Sent seq)) [] c T) as Hsame
    by (split_and!; [done..|constructor]).
  unfold on_send, st_bind, st_get, st_ret.
  destruct (operations_ c !! seq) as [op|] eqn:E; [|by eexists _, _, _].
  destruct (Hwf _ _ E) as (Hcb & Ht & Hr). destruct (sending_ op); [|by eexists _, _, _].
  destruct (coupled_some _ _ _ _ Hc E) as (p & Hp & Hcp).
  unfold release, st_bind, st_modify, st_ret. simpl. rewrite Hr.
  eexists _, _, T. split; [done|]. split_and!; try done.
  - split; try done; [by apply map_Forall_insert_2|].
    rewrite <- (insert_id _ _ _ Hp). by apply coupled_insert.
  - constructor.
Qed.

Lemma receive_follows packet :
  sent_before c (Receive packet) →
  ∃ acts c' T', on_receive packet c = (Ok acts, c') ∧
    follows id duration now T (Client (Receive packet)) acts c' T'.
Proof using Htab.
  intros Hp. destruct Htab as [Hwf Hid Hn Hc].
  assert (replied id packet T = None → follows id duration now T (Client (Receive packet)) [] c T)
    as Hsame by (intros; split_and!; [done..|by constructor]).
  unfold replied in Hsame. rewrite Z.leb_antisym in Hsame. unfold on_receive, st_bind, st_get, st_ret.
  change (20 + 8) with 28. destruct (zlen packet <? 28) eqn:E1; [eexists _, _, _; auto|]. rewrite Hid.
  destruct (nth 20 packet 0 =? echo_reply) eqn:E2; [|eexists _, _, _; auto].
  destruct (be16_decode (drop 24 packet) =? id) eqn:E3; [|eexists _, _, _; auto]. simpl in *.
  set (seq := be16_decode (drop 26 packet)) in *.
  destruct (operations_ c !! seq) as [op|] eqn:E.
  2: { apply (coupled_none _ _ _ Hc) in E. eexists _, _, _. auto. }
  destruct (coupled_some _ _ _ _ Hc E) as (p & Hm & Hcb).
  unfold sent_before, finishes in Hp. fold seq in Hp. rewrite E in Hp.
  destruct (finish_sent _ _ _ op None (drop 28 packet) Hwf E Hp) as (cb & Ecb & ->); [done..|].
  eexists _, _, (answered seq T). split; [done|]. split_and!; try done.
  - by split; [apply wf_delete| | |apply coupled_delete].
  - unfold plan_of_table, plan_exec_all, plan_exec. simpl.
    assert (deadlines (pending T) !! seq = Some (Some (deadline p))) as ->
      by (apply deadlines_some; eauto).
    rewrite <- deadlines_delete, idle_deadlines. f_equal. by destruct (decide _); [rewrite bool_decide_true|rewrite bool_decide_false].
  - assert (cb = callback_id p) as -> by congruence. apply spec_answered. unfold replied.
    by rewrite Z.leb_antisym, E1, E2, E3.
Qed.

Lemma step_follows ev :
  is_timeout ev = false → sent_before c ev →
  ∃ acts c' T', IcmpClient.step ev c = (Ok acts, c') ∧ follows id duration now T (Client ev) acts c' T'.
Proof using Htab.
  intros Hev Hp. destruct ev as [endpoint buffer cb|seq|packet|seq]; [..|done].
  - apply request_follows.
  - apply send_follows.
  - by apply receive_follows.
Qed.
End client.


(** ** The laws of a timer client *)

Lemma timers_view c M : wf c → coupled c M → operation_timers c = view (deadlines M).
Proof.
  intros Hwf Hc. apply map_eq. intros t. unfold operation_timers, view, deadlines.
  rewrite !lookup_fmap. destruct (operations_ c !! t) as [op|] eqn:E.
  - destruct (coupled_some _ _ _ _ Hc E) as (p & -> & _). destruct (Hwf _ _ E) as (_ & Ht & _). simpl.
    by rewrite Ht.
  - apply (coupled_none _ _ _ Hc) in E. by rewrite E.
Qed.

(** A table for any client *)
Lemma tabled_exists c : wf c → ∃ T, tabled (identifier_ c) c T.
Proof.
  intros Hwf. exists {| next := next_sequence_number_ c;
    pending := (λ op, {| callback_id := default 0 (callback_ op); deadline := 0 |}) <$> operations_ c;
    wait_end := None; ended_waits := [] |}.
  split; try done. unfold coupled. simpl. rewrite <- map_fmap_compose. apply map_fmap_ext.
  intros t op Hop. simpl. by destruct (Hwf _ _ Hop) as ([cb ->] & _).
Qed.

Lemma timeout_finishes c t op :
  wf c → operations_ c !! t = Some op → t ∉ sending c →
  ∃ cb, callback_ op = Some cb ∧
    IcmpClient.step (Timeout t) c = (Ok [Callback cb (Some timed_out) []; DestroyTimer t],
      set_operations (delete t (operations_ c)) c).
Proof.
  intros Hwf Hop Hs. destruct (Hwf _ _ Hop) as (_ & Htm & _).
  destruct (finish_sent c t op (set_fired op) (Some timed_out) []) as (cb & Ecb & Hf);
    [done..|by eapply not_sending|done|done|].
  exists cb. split; [done|]. cbn [IcmpClient.step]. unfold on_timeout, st_bind at 1, st_get. by rewrite Hop, Htm.
Qed.

#[export] Instance icmp_laws : TimerClientLaws wf.
Proof.
  split; [done|..].
  - intros c ev Hwf Hev He. destruct (tabled_exists c Hwf) as [T Htab].
    destruct (step_follows _ 0 0 _ _ Htab ev Hev He) as (acts & c' & T' & H1 & [Hwf' _ _ Hc'] & Hd & _).
    exists acts, c'. split_and!; [done..|]. cbn [timers icmp_timers].
    apply (f_equal plan_deadlines) in Hd. rewrite plan_exec_all_deadlines in Hd. simpl in Hd.
    by rewrite (timers_view c' _ Hwf' Hc'), Hd, view_exec_all, <- (timers_view c _ Hwf (tabled_coupled _ _ _ Htab)).
  - intros c t Hwf Ht Hs. cbn [timers icmp_timers may_fire keeps timeout_event client_step] in *.
    unfold operation_timers in Ht. rewrite lookup_fmap in Ht. apply fmap_Some in Ht as (op & Hop & _).
    destruct (timeout_finishes c t op Hwf Hop Hs) as (cb & _ & H1). unfold fired_cmds.
    eexists _, _. split; [exact H1|]. rewrite decide_False by done. split_and!.
    + by apply wf_delete.
    + done.
    + unfold operation_timers. simpl. by rewrite fmap_delete, delete_insert_eq.
    + rewrite not_sending_delete. set_solver.
    + intros t' Ht'. rewrite not_sending_delete. set_solver.
Qed.

(** The callbacks of the timers that fired finish their operations. *)
Lemma icmp_timeouts_run ts c id T acts c' :
  tabled id c T → NoDup ts → enabled_events client_step allowed c (Timeout <$> ts) →
  run_events client_step (Timeout <$> ts) c = (Ok acts, c') →
  tabled id c' (set_pending (filter (λ p, p.1 ∉ ts) (pending T)) T) ∧
  Forall2 (timeout_of (pending T)) ts (answers acts).
Proof.
  intros Htab Hnd. revert c T acts Htab. induction Hnd as [|t ts Ht _ IH]; intros c T acts Htab Hen Hrun.
  { injection Hrun as <- <-. destruct Htab as [Hwf Hid Hn Hc]. split; [split; try done|constructor]. simpl.
    rewrite map_filter_id; [done|]. intros ???. by apply not_elem_of_nil. }
  destruct Hen as [[[? _]|(t' & [= <-] & Htm & Hst)] Hen]; [done|]. pose proof Htab as [Hwf Hid Hn Hc].
  cbn [timers icmp_timers] in Htm. unfold operation_timers in Htm. rewrite lookup_fmap in Htm.
  apply fmap_Some in Htm as (op & Hop & _). destruct (coupled_some _ _ _ _ Hc Hop) as (p & Hp & Hcb).
  destruct (timeout_finishes c t op Hwf Hop Hst) as (cb & Ecb & H1).
  cbn [client_step icmp_timers] in Hen, Hrun. rewrite H1 in Hen. cbn [snd] in Hen.
  cbn [fmap list_fmap run_events] in Hrun. rewrite (st_bind_ok _ _ _ _ _ H1) in Hrun.
  apply st_bind_inv in Hrun as (more & c2 & H2 & [= <- <-]).
  destruct (IH (set_operations (delete t (operations_ c)) c) (set_pending (delete t (pending T)) T) more) as [Htab' Hf2]; [|done..|].
  { by split; [apply wf_delete| | |apply coupled_delete]. }
  split; [by rewrite <- filter_cons_delete|].
  constructor; [exists p; split; [done|congruence]|]. eapply Forall2_impl; [exact Hf2|]. simpl.
  intros t' a (p' & [_ Hp']%lookup_delete_Some & ->). by exists p'.
Qed.

(** A client with its table and its list *)
Definition tracked (id : Z) (s : System IcmpClient) (m : gmap Z (option Z)) (T : Table) : Prop :=
  tabled id (client s) T ∧ plan_of_table T = plan_of_system s m.

Lemma icmp_fires id duration now s s' m m' T e q w fired acts :
  tracked id s m T → sim wf duration now s' m' →
  run_events client_step (Timeout <$> fired) (client s) = (Ok acts, client s') →
  enabled_events client_step allowed (client s) (Timeout <$> fired) →
  ended_waits T = e :: q → NoDup fired → (∀ t, t ∈ fired ↔ ∃ d, m !! t = Some (Some d) ∧ d ≤ e) →
  (∀ t, t ∉ fired → m' !! t = m !! t) → rearmed m' (wait_end T) w →
  plan_of_system s' m' = {| plan_deadlines := m'; plan_wait := w; plan_ended := q |} →
  ∃ T', tracked id s' m' T' ∧ spec_system_step id duration now T (Timers Handle) (answers acts) T'.
Proof.
  intros [Htab Hplan] Hsim' Hr He Hq Hnd Hin Hkept Hw Hp'.
  assert (deadlines (pending T) = m) as Hm by exact (f_equal plan_deadlines Hplan).
  destruct (icmp_timeouts_run fired _ id T acts _ Htab Hnd He Hr) as [Htab' Hf2].
  set (M := filter (λ p, p.1 ∉ fired) (pending T)) in *.
  assert (deadlines M = m') as HM.
  { pose proof (sim_view _ _ _ _ _ Hsim') as Hv. cbn [timers icmp_timers] in Hv.
    rewrite (timers_view _ _ (tabled_wf _ _ _ Htab') (tabled_coupled _ _ _ Htab')) in Hv.
    simpl in Hv. unfold M in *. rewrite deadlines_filter, Hm in *. apply map_eq. intros t.
    destruct (decide (t ∈ fired)) as [Hi|Hi].
    - apply (f_equal (lookup t)) in Hv. unfold view in Hv. rewrite !lookup_fmap in Hv.
      rewrite map_lookup_filter_None_2 in * by (right; intros ?? Hx; by apply Hx).
      simpl in Hv. symmetry in Hv. by apply fmap_None in Hv.
    - rewrite Hkept by done. rewrite map_lookup_filter. destruct (m !! t); simpl; [|done].
      by rewrite option_guard_True. }
  exists (set_pending M (set_waits w q T)). split; [split|].
  - by destruct Htab'.
  - rewrite Hp', <- HM. done.
  - apply (spec_times_out _ _ _ _ e); [done| |apply rearmed_deadlines; by rewrite HM].
    exists fired. split_and!; [done| |done..].
    intros t. rewrite Hin, <- Hm. setoid_rewrite deadlines_some. naive_solver.
Qed.

Lemma icmp_step_sim id duration now s m T ev :
  sim wf duration now s m → tracked id s m T →
  0 < duration → in_s 64 (now + duration) → system_prompt s (now, ev) →
  ∃ acts s' m' T', system_step (now, ev) s = (Ok acts, s') ∧ sim wf duration now s' m' ∧
    tracked id s' m' T' ∧ spec_system_step id duration now T ev (answers acts) T'.
Proof.
  intros Hsim Htr Hpos Hs Hp. pose proof Htr as [Htab Hplan].
  destruct (system_step_sim wf _ _ _ _ ev Hsim Hpos Hs Hp) as (acts & s' & m' & seen & H1 & Hsim' & Hr & He & Ht).
  exists acts, s', m'. rewrite <- Hplan in Ht. remember (plan_of_system s' m') as p' eqn:Hp'.
  destruct Ht as [ev acts Hev|w Hw Hle|Hw|Hq|e q fired acts m1 w Hq Hnd Hin Hgone Hkept Hw|c|ev Hev].
  - destruct (step_follows id duration now _ _ Htab ev Hev) as (acts' & c' & T' & H2 & Htab' & Hd & Hsp).
    { by apply Hp. }
    cbn [run_events client_step icmp_timers] in Hr. rewrite (st_bind_ok _ _ _ _ _ H2) in Hr.
    unfold st_bind, st_ret in Hr. rewrite app_nil_r in Hr. injection Hr as -> ->.
    exists T'. split_and!; try done. split; [done|]. congruence.
  - exists (set_waits None (ended_waits T ++ [w]) T). injection Hr as Hcl. split_and!; try done; [|by constructor].
    split; [rewrite <- Hcl; by destruct Htab|done].
  - exists T. injection Hr as Hcl. split_and!; try done; [by split; [rewrite <- Hcl|]|by constructor].
  - exists T. injection Hr as Hcl. split_and!; try done; [by split; [rewrite <- Hcl|]|by constructor].
  - assert (m' = m1) as <- by exact (f_equal plan_deadlines (eq_sym Hp')).
    assert (deadlines (pending T) = m) as Hm by exact (f_equal plan_deadlines Hplan). simpl in Hin, Hkept, Hq.
    rewrite Hm in Hin, Hkept.
    destruct (icmp_fires id duration now s s' m m' T e q w fired acts Htr Hsim' Hr He) as (T' & ? & ?); try done.
    by exists T'.
  - exists T. injection Hr as Hcl. split_and!; try done; [by split; [rewrite <- Hcl|]|constructor].
  - exists T. injection Hr as Hcl. destruct ev; try done.
    split_and!; try done; [by split; [rewrite <- Hcl|]|constructor].
Qed.

(** ** Every request is answered *)

Definition answer_id (a : answer) : Z := let 'Answer id _ _ := a in id.

Definition waiting (M : gmap Z Pending) : list Z := callback_id ∘ snd <$> map_to_list M.

Definition given (ev : system_event IcmpClient.event) : list Z :=
  match ev with Client (Request _ _ cb) => [cb] | _ => [] end.

Lemma waiting_delete M t p :
  M !! t = Some p → waiting M ≡ₚ callback_id p :: waiting (delete t M).
Proof. intros H. unfold waiting. by rewrite <- (map_to_list_delete _ _ _ H). Qed.

Lemma waiting_insert M t p :
  M !! t = None → waiting (<[t := p]> M) ≡ₚ callback_id p :: waiting M.
Proof. intros H. unfold waiting. by rewrite map_to_list_insert. Qed.

Lemma waiting_filter M ts out :
  NoDup ts → Forall2 (timeout_of M) ts out →
  (answer_id <$> out) ++ waiting (filter (λ p, p.1 ∉ ts) M) ≡ₚ waiting M.
Proof.
  intros Hnd. revert M out. induction Hnd as [|t ts Ht _ IH]; intros M out Hf.
  { apply Forall2_nil_inv_l in Hf as ->. rewrite map_filter_id; [done|]. intros ???. by apply not_elem_of_nil. }
  apply Forall2_cons_inv_l in Hf as (a & out' & (p & Hp & ->) & Hf & ->).
  rewrite (waiting_delete _ _ _ Hp), <- filter_cons_delete, <- (IH (delete t M) out'); [done|].
  apply Forall2_same_length_lookup_2; [by eapply Forall2_length|].
  intros i t' a Ht' Ha. destruct (Forall2_lookup_lr _ _ _ _ _ _ Hf Ht' Ha) as (p' & Hp' & ->).
  exists p'. split; [|done]. rewrite lookup_delete_ne; [done|]. intros ->. apply Ht. by eapply list_elem_of_lookup_2.
Qed.

Lemma spec_step_conserves id duration now T ev out T' :
  spec_system_step id duration now T ev out T' →
  (answer_id <$> out) ++ waiting (pending T') ≡ₚ given ev ++ waiting (pending T).
Proof.
  intros H. destruct H as [| |packet p Hr| | | | |e q out M w _ (ts & Hnd & _ & Hf & ->) _| | |]; try done; simpl.
  - by apply waiting_insert.
  - symmetry. apply waiting_delete. unfold replied in Hr. by destruct (_ && _).
  - by apply waiting_filter.
Qed.

Lemma spec_system_conserves id duration T events out T' :
  spec_system id duration T events out T' →
  (answer_id <$> out) ++ waiting (pending T') ≡ₚ concat (given ∘ snd <$> events) ++ waiting (pending T).
Proof.
  induction 1 as [|T now ev events out T1 more T' H _ IH]; [done|]. apply spec_step_conserves in H.
  rewrite fmap_app, <- (assoc_L (++)), IH. simpl. rewrite <- (assoc_L (++)).
  rewrite (assoc_L (++)), (comm (++) (answer_id <$> out)), <- (assoc_L (++)), H. solve_Permutation.
Qed.

Lemma answers_app l k : answers (l ++ k) = answers l ++ answers k.
Proof. apply omap_app. Qed.

Lemma icmp_run_sim id duration now events s m T :
  sim wf duration now s m → tracked id s m T →
  0 < duration → timed duration now events → prompt_system s events →
  ∃ acts s' m' T', run_system events s = (Ok acts, s') ∧ sim wf duration (end_time now events) s' m' ∧
    tracked id s' m' T' ∧ spec_system id duration T events (answers acts) T'.
Proof.
  intros Hsim Htr Hpos. revert now s m T Hsim Htr. induction events as [|[now' ev] events IH];
    intros now s m T Hsim Htr Ht Hp; [by exists [], s, m, T; split_and!; [..|constructor]|].
  destruct Ht as (Hle & Hs & Ht). destruct Hp as [Hp1 Hp]. apply (sim_mono _ _ _ now') in Hsim; [|done].
  destruct (icmp_step_sim id _ _ _ _ _ ev Hsim Htr Hpos Hs Hp1) as (a1 & s1 & m1 & T1 & H1 & Hsim1 & Htr1 & Hs1).
  rewrite H1 in Hp.
  destruct (IH now' s1 m1 T1 Hsim1 Htr1 Ht Hp) as (a2 & s2 & m2 & T2 & H2 & Hsim2 & Htr2 & Hs2).
  exists (a1 ++ a2), s2, m2, T2. split_and!; [|done..|].
  - unfold run_system in *. cbn [run_events]. by rewrite (st_bind_ok _ _ _ _ _ H1), (st_bind_ok _ _ _ _ _ H2).
  - rewrite answers_app. by econstructor.
Qed.

(** No pending timer, no operation *)
Lemma no_timer_no_operation id c T :
  tabled id c T → (∀ t, operation_timers c !! t ≠ Some true) → operations_ c = ∅ ∧ pending T = ∅.
Proof.
  intros [Hwf _ _ Hc] Hn. assert (operations_ c = ∅) as Hops.
  { apply map_empty. intros t. destruct (operations_ c !! t) as [op|] eqn:E; [|done].
    destruct (Hn t). unfold operation_timers. rewrite lookup_fmap, E. simpl. by destruct (Hwf _ _ E) as (_ & -> & _). }
  split; [done|]. apply map_empty. intros t. by rewrite <- (coupled_none _ _ _ Hc), Hops.
Qed.

(** C17: The ICMP client with a positive timeout and its own timer list refines a table of
    callbacks and deadlines with the waits of the timer: for any sequence of requests, send
    completions, received packets (arbitrary bytes), expiries and handlers at times that do
    not decrease and stay in the range of the clock, in which a request is answered or times
    out only after its send has completed, the code runs without fault, a request is refused
    exactly when the next sequence number is taken, a reply answers the request with its
    sequence number and no other packet does, and the handler of a wait that has ended times
    out exactly the requests whose deadline is not after the end of that wait and then waits
    for the earliest deadline that is left; and once the sends have completed and the timeout
    has passed, a finite number of expiries leaves no operation and no timer entry, and every
    callback ran exactly once. *)
Theorem icmp_requests_end pid duration now events late :
  let id := u16 pid in
  0 < duration → timed duration now events → prompt_system (make_system (IcmpClient.make pid) duration) events →
  end_time now events + duration ≤ late → in_s 64 (late + duration) →
  ∃ acts s T, run_system events (make_system (IcmpClient.make pid) duration) = (Ok acts, s) ∧
    spec_system id duration no_requests events (answers acts) T ∧
    (sending (client s) = ∅ →
     ∃ q n more s' T',
       let rest := timer_events (replicate q (late, Handle) ++ rounds late n) in
       run_system rest s = (Ok more, s') ∧ spec_system id duration T rest (answers more) T' ∧
       operations_ (client s') = ∅ ∧ list_ (timer_list_ s') = [] ∧
       answer_id <$> answers (acts ++ more) ≡ₚ concat (given ∘ snd <$> events)).
Proof.
  intros id Hpos Ht Hp Hlate Hs.
  assert (sim wf duration now (make_system (IcmpClient.make pid) duration) ∅) as Hsim
    by (split; [apply (empty_inv (λ _, []))|done|done]).
  destruct (icmp_run_sim id _ _ _ _ _ no_requests Hsim ltac:(done) Hpos Ht Hp)
    as (acts & s & m & T & H1 & Hsim1 & Htr1 & Hsp).
  exists acts, s, T. split_and!; [done..|]. intros Hse.
  destruct (system_settles wf _ _ late _ _ Hsim1 Hpos Hlate Hs) as (q & n & Hp2 & Hend); [simpl; set_solver|].
  apply (sim_mono _ _ _ late) in Hsim1; [|lia].
  destruct (icmp_run_sim id _ late _ _ _ T Hsim1 Htr1 Hpos (timed_timers _ _ _ (timed_rounds _ _ q n Hs)) Hp2)
    as (more & s' & m' & T' & H2 & _ & [Htab2 _] & Hsp2).
  destruct (Hend more s' H2) as [Hl Hn]. destruct (no_timer_no_operation _ _ _ Htab2 Hn) as [Hops HT'].
  exists q, n, more, s', T'. split_and!; [done..|].
  apply spec_system_conserves in Hsp as Hc1. apply spec_system_conserves in Hsp2 as Hc2. simpl in Hc1.
  rewrite HT', !app_nil_r in *. rewrite answers_app, fmap_app, Hc2.
  assert (∀ l, concat (given ∘ snd <$> timer_events l) = []) as -> by (by induction l as [|[] l IH]).
  done.
Qed.

(** The second of three requests is answered, the first times out, and the third is left
    to the timers. *)
Definition example_system_events : list (Z * system_event IcmpClient.event) :=
  [(0, Client (Request 1 [5; 6] 100)); (1, Client (Sent 0)); (2, Client (Request 1 [] 101));
   (2, Client (Sent 1)); (3, Client (Receive (reply (replicate 20 0) [0; 0] (start_packet 77 1 []))));
   (4, Client (Request 1 [7] 102)); (5, Client (Sent 2)); (10, Timers Expire); (11, Timers Handle)].

Lemma icmp_requests_end_witness :
  ∃ acts s, run_system example_system_events (make_system (IcmpClient.make 77) 10) = (Ok acts, s) ∧
    answers acts = [Answer 101 None []; Answer 100 (Some timed_out) []] ∧
    ∃ q n more s',
      run_system (timer_events (replicate q (30, Handle) ++ rounds 30 n)) s = (Ok more, s') ∧
      operations_ (client s') = ∅ ∧ answer_id <$> answers (acts ++ more) ≡ₚ [100; 101; 102].
Proof.
  destruct (icmp_requests_end 77 10 0 example_system_events 30) as (acts & s & T & H1 & _ & H2);
    [lia|vm_compute; intuition discriminate| |vm_compute; discriminate|vm_compute; intuition discriminate|].
  { vm_compute. repeat split; repeat constructor; discriminate. }
  exists acts, s. split; [exact H1|]. vm_compute in H1. injection H1 as <- <-. split; [reflexivity|].
  destruct H2 as (q & n & more & s' & T' & H3 & _ & H4 & _ & H5); [reflexivity|].
  exists q, n, more, s'. split; [exact H3|]. split; [exact H4|exact H5].
Defined.
