(* ===== verification/RateLimiter.v ===== *)
(** * net/rate-limiter

    A token bucket counted in nanoseconds.  A request is known by the number of
    its callback, [size_of] is the size it asks for, and [reacquires] is what
    its callback acquires when it runs (the callbacks are the caller's code).
    Times and durations are the int64_t counts of std::chrono; arithmetic that
    overflows, and a rate of 0, are a [Crash].  The pending wait of the timer is
    [expiry_]. *)

From S2P Require Import Prelude.

Record WaitEntry : Type := { duration : Z; callback : Z }.

Record RateLimiter : Type := {
  rate_ : Z;
  capacity_ : Z;
  duration_ : Z;
  time_ : Z;
  queue_ : list WaitEntry;
  expiry_ : option Z;
}.

(** RateLimiter::RateLimiter *)
Definition make (rate capacity : Z) : RateLimiter :=
  {| rate_ := rate; capacity_ := capacity; duration_ := 0; time_ := 0; queue_ := [];
     expiry_ := None |}.

(** nanoseconds(seconds(size)) / rate_; the quotient is of uint64_t. *)
Definition cost (rate size : Z) : result Z :=
  ns ← check_s 64 (s64 size * 1000000000);
  if rate =? 0 then Crash else Ok (s64 (u64 ns / rate)).

Definition set_bucket (d t : Z) (l : RateLimiter) : RateLimiter :=
  {| rate_ := rate_ l; capacity_ := capacity_ l; duration_ := d; time_ := t; queue_ := queue_ l;
     expiry_ := expiry_ l |}.

Definition set_queue (q : list WaitEntry) (l : RateLimiter) : RateLimiter :=
  {| rate_ := rate_ l; capacity_ := capacity_ l; duration_ := duration_ l; time_ := time_ l;
     queue_ := q; expiry_ := expiry_ l |}.

Definition set_expiry (e : option Z) (l : RateLimiter) : RateLimiter :=
  {| rate_ := rate_ l; capacity_ := capacity_ l; duration_ := duration_ l; time_ := time_ l;
     queue_ := queue_ l; expiry_ := e |}.

(** duration_ = min(duration_ + (time - time_), capacity_); time_ = time *)
Definition refill (time : Z) : ST RateLimiter unit := λ l,
  match (elapsed ← check_s 64 (time - time_ l); check_s 64 (duration_ l + elapsed)) with
  | Ok sum => (Ok tt, set_bucket (Z.min sum (capacity_ l)) time l)
  | _ => (Crash, l)
  end.

(** RateLimiter::acquire_nowait *)
Definition acquire_nowait (size now : Z) : ST RateLimiter bool :=
  let* _ := refill now in
  let* l := st_get in
  let* d := st_lift (cost (rate_ l) size) in
  if duration_ l <? d then st_ret false
  else
    let* d := st_lift (check_s 64 (duration_ l - d)) in
    let* _ := st_put (set_bucket d (time_ l) l) in
    st_ret true.

Section callbacks.
Context (size_of : Z → Z) (reacquires : Z → list Z).

(** queue_.push *)
Definition push (id : Z) : ST RateLimiter unit :=
  let* l := st_get in
  let* d := st_lift (cost (rate_ l) (size_of id)) in
  st_put (set_queue (queue_ l ++ [{| duration := d; callback := id |}]) l).

Fixpoint push_all (ids : list Z) : ST RateLimiter unit :=
  match ids with
  | [] => st_ret tt
  | id :: ids => let* _ := push id in push_all ids
  end.

(** The while loop of update: the callbacks it ran.  A callback runs before the
    entry is popped, so an acquire inside it only pushes. *)
Fixpoint update_loop (fuel : nat) : ST RateLimiter (list Z) :=
  match fuel with
  | O => st_lift Hang
  | S fuel =>
      let* l := st_get in
      match queue_ l with
      | [] => crash
      | front :: rest =>
          if duration_ l <? duration front then
            let* d := st_lift (check_s 64 (duration front - duration_ l)) in
            let* _ := st_put (set_bucket 0 (time_ l)
              (set_queue ({| duration := d; callback := callback front |} :: rest) l)) in
            st_ret []
          else
            let* d := st_lift (check_s 64 (duration_ l - duration front)) in
            let* _ := st_put (set_bucket d (time_ l) l) in
            let* _ := push_all (reacquires (callback front)) in
            let* _ := st_modify (λ l, set_queue (drop 1 (queue_ l)) l) in
            let* l := st_get in
            match queue_ l with
            | [] => st_ret [callback front]
            | _ => let* fired := update_loop fuel in st_ret (callback front :: fired)
            end
      end
  end.

(** RateLimiter::update *)
Definition update (fuel : nat) (time : Z) : ST RateLimiter (list Z) :=
  let* _ := refill time in
  let* fired := update_loop fuel in
  let* l := st_get in
  match queue_ l with
  | [] => st_ret fired
  | front :: _ =>
      let* e := st_lift (check_s 64 (time + Z.min (duration front) (capacity_ l))) in
      let* _ := st_modify (set_expiry (Some e)) in
      st_ret fired
  end.

(** RateLimiter::acquire *)
Definition acquire (fuel : nat) (id now : Z) : ST RateLimiter (list Z) :=
  let* _ := push id in
  let* l := st_get in
  if (length (queue_ l) =? 1)%nat then update fuel now else st_ret [].

(** The handler of the wait, when it expires *)
Definition on_timer (fuel : nat) : ST RateLimiter (list Z) :=
  let* l := st_get in
  match expiry_ l with
  | None => st_ret []
  | Some time =>
      let* _ := st_modify (set_expiry None) in
      update fuel time
  end.

Inductive event : Type :=
  | Acquire (id now : Z)
  | AcquireNowait (id now : Z)
  | Expire.

(** The requests that an event granted *)
Definition step (fuel : nat) (e : event) : ST RateLimiter (list Z) :=
  match e with
  | Acquire id now => acquire fuel id now
  | AcquireNowait id now =>
      let* granted := acquire_nowait (size_of id) now in
      st_ret (if granted : bool then [id] else [])
  | Expire => on_timer fuel
  end.

Fixpoint run (fuel : nat) (events : list event) : ST RateLimiter (list Z) :=
  match events with
  | [] => st_ret []
  | e :: events =>
      let* granted := step fuel e in
      let* more := run fuel events in
      st_ret (granted ++ more)
  end.

(** ** The rate *)

(** What a request costs, when its cost is defined *)
Definition price (rate id : Z) : Z :=
  match cost rate (size_of id) with Ok d => d | _ => 0 end.

Definition total (rate : Z) (ids : list Z) : Z := sum_over (price rate) ids.

(** What the waiting requests have been given already *)
Definition prepaid (l : RateLimiter) : Z :=
  sum_over (λ e, price (rate_ l) (callback e) - duration e) (queue_ l).

Definition wf (l : RateLimiter) : Prop :=
  0 ≤ duration_ l ∧ 0 ≤ capacity_ l ∧
  Forall (λ e, duration e ≤ price (rate_ l) (callback e)) (queue_ l).

Definition level (l : RateLimiter) : Z := duration_ l - time_ l + prepaid l.

(** The requests [g] were granted on the way from [l] to [l'], out of what the
    bucket held and of the time that went by. *)
Definition grants (l : RateLimiter) (g : list Z) (l' : RateLimiter) : Prop :=
  rate_ l' = rate_ l ∧ wf l' ∧ total (rate_ l) g + level l' ≤ level l.

(** The time that an event gives to the bucket *)
Definition due (l : RateLimiter) (e : event) : Z :=
  match e with
  | Acquire _ now | AcquireNowait _ now => now
  | Expire => default (time_ l) (expiry_ l)
  end.

(** The clock of the bucket does not go backwards, nor beyond [tmax]. *)
Fixpoint timely (fuel : nat) (tmax : Z) (events : list event) (l : RateLimiter) : Prop :=
  match events with
  | [] => time_ l ≤ tmax
  | e :: events =>
      time_ l ≤ due l e ∧ timely fuel tmax events (step fuel e l).2
  end.

Lemma total_app rate g1 g2 : total rate (g1 ++ g2) = total rate g1 + total rate g2.
Proof. apply sum_over_app. Qed.

Lemma grants_trans l1 g1 l2 g2 l3 :
  grants l1 g1 l2 → grants l2 g2 l3 → grants l1 (g1 ++ g2) l3.
Proof.
  intros (Hr1 & _ & H1) (Hr2 & Hwf & H2). unfold grants. rewrite total_app.
  rewrite Hr1 in *. split_and!; [done|done..|]. lia.
Qed.

Lemma refill_grants time l u l' :
  wf l → time_ l ≤ time → refill time l = (Ok u, l') →
  grants l [] l' ∧ time_ l' = time ∧ queue_ l' = queue_ l ∧ expiry_ l' = expiry_ l.
Proof.
  intros (Hd & Hc & Hq) Ht. unfold refill.
  destruct (check_s 64 (time - time_ l)) as [x| | |] eqn:Hx; simpl; try done.
  destruct (check_s 64 (duration_ l + x)) as [y| | |] eqn:Hy; simpl; try done.
  intros [= <- <-]. apply check_s_inv in Hx as [-> _], Hy as [-> _].
  split; [|done]. unfold grants, wf, level, prepaid, total; simpl. split_and!; try done; lia.
Qed.

Lemma push_grants id l u l' :
  wf l → push id l = (Ok u, l') →
  grants l [] l' ∧ time_ l' = time_ l ∧ duration_ l' = duration_ l ∧
  ∃ e, queue_ l' = queue_ l ++ [e].
Proof.
  intros (Hd & Hc & Hq) H. unfold push in H. st_inv H. split; [|simpl; eauto].
  assert (price (rate_ l) id = a) as Hp by (unfold price; by rewrite Ha).
  unfold grants, wf, level, prepaid; simpl. split_and!; try done.
  - apply Forall_app; split; [done|]. constructor; simpl; [lia|done].
  - rewrite sum_over_app. simpl. rewrite Hp, Z.sub_diag. unfold total. simpl. lia.
Qed.

Lemma grants_refl l : wf l → grants l [] l.
Proof. intros. split; [done|]. split; [done|]. unfold total. simpl. lia. Qed.

Lemma push_all_grants ids l u l' :
  wf l → push_all ids l = (Ok u, l') →
  grants l [] l' ∧ time_ l' = time_ l ∧ duration_ l' = duration_ l ∧
  ∃ es, queue_ l' = queue_ l ++ es.
Proof.
  revert l u. induction ids as [|id ids IH]; intros l u Hwf H; simpl in H; st_inv H.
  - split; [by apply grants_refl|]. split; [done|]. split; [done|].
    exists []. by rewrite app_nil_r.
  - apply push_grants in Hm as (Hg & Ht & Hd & e & Hq); [|done].
    destruct (IH _ _ (proj1 (proj2 Hg)) H) as (Hg' & Ht' & Hd' & es & Hq').
    split; [by apply (grants_trans _ [] _ [] _ Hg)|]. split; [congruence|].
    split; [congruence|]. exists (e :: es). by rewrite Hq', Hq, <- app_assoc.
Qed.

(** One turn of the loop that serves the front of the queue *)
Lemma serve_grants front rest l u l2 :
  wf l → queue_ l = front :: rest → duration front ≤ duration_ l →
  push_all (reacquires (callback front))
    (set_bucket (duration_ l - duration front) (time_ l) l) = (Ok u, l2) →
  let l3 := set_queue (drop 1 (queue_ l2)) l2 in
  grants l [callback front] l3 ∧ time_ l3 = time_ l.
Proof.
  intros (Hd & Hc & Hq) Hf Hle H. apply push_all_grants in H as (Hg & Ht & Hdur & es & Hq2).
  2: { unfold wf; simpl. split; [lia|done]. }
  simpl in *. split; [|done]. destruct Hg as (Hr & (Hd2 & Hc2 & Hf2) & Hl). simpl in Hr.
  unfold grants, wf, level, prepaid, total in *; simpl in *.
  rewrite Hq2, Hf in *. simpl in *. rewrite ?drop_0, Hr in *. inversion Hf2; subst.
  split; [done|]. split; [done|].
  lia.
Qed.

Lemma update_loop_grants fuel l g l' :
  wf l → update_loop fuel l = (Ok g, l') → grants l g l' ∧ time_ l' = time_ l.
Proof.
  revert l g. induction fuel as [|fuel IH]; intros l g Hwf H; [done|].
  cbn [update_loop] in H. st_inv H. destruct (queue_ l) as [|front rest] eqn:Hq; [done|].
  destruct (Z.ltb_spec (duration_ l) (duration front)); st_inv H.
  - apply check_s_inv in Ha as [-> _]. split; [|done].
    destruct Hwf as (Hd & Hc & Hf). rewrite Hq in Hf. inversion Hf; subst.
    unfold grants, wf, level, prepaid, total; simpl. rewrite Hq. simpl.
    split; [done|]. split; [|lia]. split; [done|]. split; [done|]. constructor; simpl; [lia|done].
  - apply check_s_inv in Ha as [-> _].
    destruct (serve_grants front rest l a0 s Hwf Hq) as [Hg Ht]; [lia|done|].
    cbv zeta in *. simpl in Ht. set (l3 := set_queue _ s) in *.
    destruct (queue_ l3); st_inv H; [naive_solver|].
    apply IH in Hm0 as [Hg' Ht']; [|apply Hg].
    split; [by apply (grants_trans _ [callback front] l3)|]. by rewrite Ht'.
Qed.

Lemma update_grants fuel time l g l' :
  wf l → time_ l ≤ time → update fuel time l = (Ok g, l') → grants l g l' ∧ time_ l' = time.
Proof.
  intros Hwf Ht H. unfold update in H. st_inv H.
  apply refill_grants in Hm as (Hg & Ht1 & _); [|done..].
  apply update_loop_grants in Hm0 as [Hg' Ht']; [|apply Hg].
  pose proof (grants_trans _ _ _ _ _ Hg Hg') as Hgs. simpl in Hgs.
  destruct (queue_ s0); st_inv H; simpl; split; try congruence.
  destruct Hgs as (? & ? & ?). done.
Qed.

Lemma acquire_nowait_grants id now l (b : bool) l' :
  wf l → time_ l ≤ now → acquire_nowait (size_of id) now l = (Ok b, l') →
  grants l (if b then [id] else []) l' ∧ time_ l' = now.
Proof.
  intros Hwf Ht H. unfold acquire_nowait in H. st_inv H.
  apply refill_grants in Hm as (Hg & Ht1 & _); [|done..].
  destruct (Z.ltb_spec (duration_ s) a0); st_inv H; [done|].
  apply check_s_inv in Ha0 as [-> _]. split; [|done].
  destruct Hg as (Hr & (Hd & Hc & Hq) & Hl).
  assert (price (rate_ l) id = a0) as Hp by (unfold price; by rewrite <- Hr, Ha).
  unfold grants, wf, level, prepaid, total in *; simpl in *. rewrite Hp, Hr in *.
  split; [done|]. split; [split_and!; [lia|done..]|lia].
Qed.

Lemma step_grants fuel e l g l' :
  wf l → time_ l ≤ due l e → step fuel e l = (Ok g, l') → grants l g l'.
Proof.
  intros Hwf Ht H. destruct e as [id now|id now|]; simpl in *.
  - unfold acquire in H. st_inv H. apply push_grants in Hm as (Hg & Ht1 & _); [|done].
    destruct (_ =? _)%nat; [|by st_inv H].
    apply update_grants in H as [Hg' _]; [|apply Hg|lia]. apply (grants_trans _ [] _ _ _ Hg Hg').
  - st_inv H. by apply acquire_nowait_grants in Hm as [Hg _].
  - unfold on_timer in H. st_inv H. destruct (expiry_ l) as [time|] eqn:He; st_inv H.
    + by apply update_grants in H as [Hg _].
    + by apply grants_refl.
Qed.

Lemma run_grants fuel tmax events l g l' :
  wf l → timely fuel tmax events l → run fuel events l = (Ok g, l') →
  grants l g l' ∧ time_ l' ≤ tmax.
Proof.
  revert l g. induction events as [|e events IH]; intros l g Hwf Ht H; cbn [run] in H; st_inv H.
  - split; [by apply grants_refl|done].
  - destruct Ht as [Ht Hts]. rewrite Hm in Hts.
    apply step_grants in Hm; [|done..]. apply IH in Hm0 as [Hg ?]; [|apply Hm|done].
    split; [by eapply grants_trans|done].
Qed.

(** *** The loop of update ends when the callbacks do not acquire again. *)

Definition no_hang {A} (m : ST RateLimiter A) (l : RateLimiter) (n : nat) : Prop :=
  fst (m l) ≠ Hang ∧ (length (queue_ (snd (m l))) ≤ n)%nat.

Lemma no_hang_bind {A B} (m : ST RateLimiter A) (k : A → ST RateLimiter B) l n n' :
  no_hang m l n → (n ≤ n')%nat →
  (∀ a l', m l = (Ok a, l') → no_hang (k a) l' n') → no_hang (st_bind m k) l n'.
Proof.
  unfold no_hang, st_bind. intros [Hm Hn] ? Hk. destruct (m l) as [[] l1]; simpl in *; try done;
    [by apply Hk|split; [done|lia]..].
Qed.

Lemma no_hang_lift {A} (r : result A) l n :
  r ≠ Hang → (length (queue_ l) ≤ n)%nat → no_hang (st_lift r) l n.
Proof. done. Qed.

Lemma check_s_no_hang w z : check_s w z ≠ Hang.
Proof. unfold check_s. by split_if. Qed.

Lemma cost_no_hang rate size : cost rate size ≠ Hang.
Proof.
  unfold cost. pose proof (check_s_no_hang 64 (s64 size * 1000000000)).
  destruct (check_s _ _); simpl; try done. by split_if.
Qed.

Lemma refill_no_hang time l n : (length (queue_ l) ≤ n)%nat → no_hang (refill time) l n.
Proof.
  intros Hn. unfold no_hang, refill.
  destruct (check_s _ (time - _)) as [x| | |]; simpl; try done. destruct (check_s _ _); done.
Qed.

Section no_reacquire.
Hypothesis no_reacquire : ∀ id, reacquires id = [].

Lemma update_loop_no_hang fuel l n :
  (length (queue_ l) ≤ n)%nat → (length (queue_ l) < fuel)%nat → no_hang (update_loop fuel) l n.
Proof.
  revert l. induction fuel as [|fuel IH]; intros l Hn Hf; [lia|]. cbn [update_loop].
  apply (no_hang_bind _ _ _ n); [done|done|]. intros l0 l1 [= <- <-].
  destruct (queue_ l) as [|front rest] eqn:Hq; [split; simpl; [done|by rewrite Hq]|]. simpl in *.
  split_if; (apply (no_hang_bind _ _ _ n);
    [apply no_hang_lift; [apply check_s_no_hang|by rewrite Hq]|done|]); intros d l2 [= _ <-].
  - done.
  - rewrite no_reacquire. unfold st_bind, st_put, st_modify, st_get, no_hang; simpl.
    rewrite Hq. simpl. rewrite drop_0. destruct rest as [|e rest]; [split; simpl; [done|lia]|].
    set (l3 := set_queue _ _). destruct (IH l3) as [Hh Hl]; [simpl in *; lia..|].
    by destruct (update_loop fuel l3) as [[] l4].
Qed.

Lemma update_no_hang fuel time l n :
  (length (queue_ l) ≤ n)%nat → (length (queue_ l) < fuel)%nat → no_hang (update fuel time) l n.
Proof.
  intros Hn Hf. unfold update. apply (no_hang_bind _ _ _ n); [by apply refill_no_hang|done|].
  intros u l1 H1. assert (queue_ l1 = queue_ l) as Hq.
  { unfold refill in H1. by destruct (mbind _ _); simplify_eq/=. }
  apply (no_hang_bind _ _ _ n); [apply update_loop_no_hang; by rewrite Hq|done|].
  intros g l2 H2. pose proof (update_loop_no_hang fuel l1 n) as [_ H3]; [by rewrite Hq..|].
  rewrite H2 in H3. simpl in H3. apply (no_hang_bind _ _ _ n); [done|done|].
  intros l0 l3 [= <- <-]. destruct (queue_ l2) eqn:E; [split; simpl; [done|by rewrite E]|].
  apply (no_hang_bind _ _ _ n); [apply no_hang_lift; [apply check_s_no_hang|by rewrite E]|done|].
  intros e l3 [= _ <-]. split; simpl; [done|by rewrite E].
Qed.

Lemma push_no_hang id l : no_hang (push id) l (S (length (queue_ l))).
Proof.
  unfold push. apply (no_hang_bind _ _ _ (length (queue_ l))); [done|lia|].
  intros l0 l1 [= <- <-]. apply (no_hang_bind _ _ _ (length (queue_ l)));
    [apply no_hang_lift; [apply cost_no_hang|done]|lia|].
  intros d l1 [= _ <-]. split; simpl; [done|]. rewrite length_app. simpl. lia.
Qed.

Lemma acquire_nowait_no_hang size now l :
  no_hang (acquire_nowait size now) l (length (queue_ l)).
Proof.
  unfold acquire_nowait. set (n := length (queue_ l)).
  apply (no_hang_bind _ _ _ n); [by apply refill_no_hang|done|].
  intros u l1 H1. assert (length (queue_ l1) = n) as Hn.
  { unfold refill in H1. by destruct (mbind _ _); simplify_eq/=. }
  apply (no_hang_bind _ _ _ n); [split; simpl; [done|lia]|done|]. intros l0 l2 [= <- <-].
  apply (no_hang_bind _ _ _ n); [apply no_hang_lift; [apply cost_no_hang|lia]|done|].
  intros d l2 [= _ <-]. split_if; [split; simpl; [done|lia]|].
  apply (no_hang_bind _ _ _ n); [apply no_hang_lift; [apply check_s_no_hang|lia]|done|].
  intros d' l2 [= _ <-]. split; simpl; [done|lia].
Qed.

Lemma step_no_hang fuel e l :
  (S (length (queue_ l)) < fuel)%nat → no_hang (step fuel e) l (S (length (queue_ l))).
Proof.
  intros Hf. set (n := S (length (queue_ l))). destruct e as [id now|id now|]; simpl.
  - unfold acquire. apply (no_hang_bind _ _ _ n); [apply push_no_hang|done|]. intros u l1 H1.
    pose proof (push_no_hang id l) as [_ Hl]. rewrite H1 in Hl. simpl in Hl.
    apply (no_hang_bind _ _ _ n); [done|done|]. intros l0 l2 [= <- <-].
    split_if; [apply update_no_hang; subst n; lia|done].
  - apply (no_hang_bind _ _ _ (length (queue_ l))); [apply acquire_nowait_no_hang|lia|].
    intros b l1 H1. pose proof (acquire_nowait_no_hang (size_of id) now l) as [_ Hl].
    rewrite H1 in Hl. simpl in Hl. split; simpl; [done|lia].
  - unfold on_timer. apply (no_hang_bind _ _ _ n); [split; simpl; [done|lia]|done|].
    intros l0 l1 [= <- <-]. destruct (expiry_ l); [|split; simpl; [done|lia]].
    apply (no_hang_bind _ _ _ n); [split; simpl; [done|lia]|done|].
    intros u l1 [= _ <-]. apply update_no_hang; simpl; lia.
Qed.

Lemma run_no_hang fuel events l :
  (length (queue_ l) + length events < fuel)%nat →
  no_hang (run fuel events) l (length (queue_ l) + length events).
Proof.
  revert l. induction events as [|e events IH]; intros l Hf; simpl in *; [split; simpl; [done|lia]|].
  pose proof (step_no_hang fuel e l) as Hs.
  apply (no_hang_bind _ _ _ (S (length (queue_ l)))); [apply Hs; lia|lia|]. intros g l1 H1.
  destruct Hs as [_ Hl]; [lia|]. rewrite H1 in Hl. simpl in Hl.
  destruct (IH l1) as [Hh Hn]; [lia|]. unfold no_hang, st_bind.
  destruct (run fuel events l1) as [[] l2]; simpl in *; (split; [done|lia]).
Qed.
End no_reacquire.

(** C9: While the clock of the bucket does not go backwards, the total cost (size / rate, in
    nanoseconds) of the requests granted by acquire, acquire_nowait and the timer up to time
    tmax is at most what the bucket held, what was prepaid to waiting requests and the time
    that went by; and no call fails to end when the callbacks do not acquire again. *)
Theorem rate_limiter_bound fuel tmax events l :
  wf l → timely fuel tmax events l →
  (∀ g l', run fuel events l = (Ok g, l') →
    total (rate_ l) g ≤ duration_ l + prepaid l + (tmax - time_ l)) ∧
  ((∀ id, reacquires id = []) → (length (queue_ l) + length events < fuel)%nat →
    fst (run fuel events l) ≠ Hang).
Proof.
  intros Hwf Ht. split; [|by intros; apply run_no_hang].
  intros g l' H. apply (run_grants _ tmax) in H as [(Hr & (Hd & _ & Hq) & Hl) Ht']; [|done..].
  assert (0 ≤ prepaid l').
  { apply sum_over_nonneg. eapply Forall_impl; [done|]. simpl. lia. }
  unfold level in *. lia.
Qed.
End callbacks.

(** Two requests that wait, then one that is taken at once: at 100 bytes per
    second a request of 2 bytes is 20 ms. *)
Lemma rate_limiter_bound_witness :
  total (λ _, 2) 100 [1; 2; 3] ≤ 0 + 0 + (70000000 - 0).
Proof.
  refine (proj1 (rate_limiter_bound (λ _, 2) (λ _, []) 6 70000000
    [Acquire 1 0; Acquire 2 0; Expire; Expire; AcquireNowait 3 70000000] (make 100 30000000)
    _ _) [1; 2; 3] {| rate_ := 100; capacity_ := 30000000; duration_ := 10000000;
      time_ := 70000000; queue_ := []; expiry_ := None |} _).
  - unfold wf. simpl. split; [lia|]. split; [lia|constructor].
  - vm_compute. intuition discriminate.
  - vm_compute. reflexivity.
Defined.

(** When acquire_nowait runs between the expiry of the wait and its handler, the handler
    moves the clock of the bucket backwards and the same interval is credited twice: requests
    of cost 15 are granted within 10 nanoseconds of an empty bucket. *)
Theorem rate_limiter_late_timer :
  let size_of := λ id : Z, id in
  let l := make 1000000000 1000 in
  let events := [Acquire 5 0; AcquireNowait 10 10; Expire; AcquireNowait 5 10] in
  ¬ timely size_of (λ _, []) 5 10 events l ∧
  fst (run size_of (λ _, []) 5 events l) = Ok [10; 5] ∧
  total size_of (rate_ l) [10; 5] > duration_ l + prepaid size_of l + (10 - time_ l).
Proof. vm_compute. intuition congruence. Qed.
