(* ===== verification/RateLimiterQueue.v ===== *)
(** * net/rate-limiter: the order and the progress of waiting requests

    Every request that was acquired is granted once, in the order of the calls, and
    the timer grants all of them when it is left to expire.  [pushed] is what an event
    adds to the queue; a callback that acquires again adds to its end. *)

From S2P Require Import Prelude RateLimiter.

Section queue.
Context (size_of : Z → Z) (reacquires : Z → list Z).

Definition waiting (l : RateLimiter) : list Z := callback <$> queue_ l.

(** [g] was served on the way from [l] to [l'], and [p] was added behind. *)
Definition serves (l : RateLimiter) (g p : list Z) (l' : RateLimiter) : Prop :=
  g ++ waiting l' = waiting l ++ p.

Lemma serves_trans l g p l1 g' p' l2 :
  serves l g p l1 → serves l1 g' p' l2 → serves l (g ++ g') (p ++ p') l2.
Proof. unfold serves. intros H1 H2. by rewrite <- (assoc_L (++)), H2, (assoc_L (++)), H1, (assoc_L (++)). Qed.

Lemma push_serves id l u l' : push size_of id l = (Ok u, l') → serves l [] [id] l'.
Proof. intros H. unfold push in H. st_inv H. unfold serves, waiting. simpl. by rewrite fmap_app. Qed.

Lemma push_all_serves ids l u l' : push_all size_of ids l = (Ok u, l') → serves l [] ids l'.
Proof.
  revert l u. induction ids as [|id ids IH]; intros l u H; simpl in H; st_inv H.
  - unfold serves. by rewrite app_nil_r.
  - apply push_serves in Hm. apply IH in H. apply (serves_trans _ [] [id] _ [] ids _ Hm H).
Qed.

Lemma update_loop_serves fuel l g l' :
  update_loop size_of reacquires fuel l = (Ok g, l') → serves l g (concat (reacquires <$> g)) l'.
Proof.
  revert l g. induction fuel as [|fuel IH]; intros l g H; [done|].
  cbn [update_loop] in H. st_inv H. destruct (queue_ l) as [|front rest] eqn:Hq; [done|].
  destruct (duration_ l <? duration front); st_inv H.
  - unfold serves, waiting. simpl. by rewrite Hq, app_nil_r.
  - apply push_all_serves in Hm. unfold serves, waiting in Hm. simpl in Hm. rewrite Hq in Hm.
    assert (serves l [callback front] (reacquires (callback front)) (set_queue (drop 1 (queue_ s)) s)) as Hs.
    { unfold serves, waiting. cbn [set_queue queue_]. rewrite Hq. destruct (queue_ s) as [|e es]; [done|].
      cbn [drop]. rewrite drop_0. rewrite fmap_cons in Hm. cbn [app] in Hm.
      rewrite <- Hm. injection Hm as -> _. done. }
    cbv zeta in H. set (l3 := set_queue _ s) in *. destruct (queue_ l3); st_inv H.
    + simpl. by rewrite app_nil_r.
    + apply IH in Hm0. apply (serves_trans _ _ _ _ _ _ _ Hs Hm0).
Qed.

Lemma refill_queue time l u l' : refill time l = (Ok u, l') → queue_ l' = queue_ l.
Proof. unfold refill. by destruct (mbind _ _); intros; simplify_eq/=. Qed.

Lemma update_serves fuel time l g l' :
  update size_of reacquires fuel time l = (Ok g, l') → serves l g (concat (reacquires <$> g)) l'.
Proof.
  intros H. unfold update in H. st_inv H. apply update_loop_serves in Hm0.
  apply refill_queue in Hm as Hq.
  unfold serves, waiting in *. rewrite Hq in Hm0. destruct (queue_ s0) eqn:E; st_inv H; simpl; by rewrite ?E in *.
Qed.

(** What an event serves from the queue, and what it adds to it *)
Definition served (e : event) (g : list Z) : list Z := match e with AcquireNowait _ _ => [] | _ => g end.

Definition pushed (e : event) (g : list Z) : list Z :=
  match e with
  | Acquire id _ => id :: concat (reacquires <$> g)
  | AcquireNowait _ _ => []
  | Expire => concat (reacquires <$> g)
  end.

Lemma step_serves fuel e l g l' :
  step size_of reacquires fuel e l = (Ok g, l') → serves l (served e g) (pushed e g) l'.
Proof.
  destruct e as [id now|id now|]; simpl; intros H.
  - unfold acquire in H. st_inv H. apply push_serves in Hm. destruct (_ =? _)%nat; st_inv H; [|done].
    apply update_serves in H. apply (serves_trans _ _ _ _ _ _ _ Hm H).
  - st_inv H. unfold acquire_nowait in Hm. st_inv Hm.
    match goal with H : refill _ _ = _ |- _ => apply refill_queue in H as Hq end.
    unfold serves, waiting. rewrite app_nil_r. destruct (_ <? _); st_inv Hm; simpl; by rewrite Hq.
  - unfold on_timer in H. st_inv H. destruct (expiry_ l); st_inv H.
    + by apply update_serves in H.
    + unfold serves. by rewrite app_nil_r.
Qed.

(** The grants of each event of a run *)
Inductive runs (fuel : nat) : RateLimiter → list (event * list Z) → RateLimiter → Prop :=
  | runs_nil l : runs fuel l [] l
  | runs_cons l e g l1 trace l' :
      step size_of reacquires fuel e l = (Ok g, l1) → runs fuel l1 trace l' →
      runs fuel l ((e, g) :: trace) l'.

Lemma runs_serves fuel l trace l' :
  runs fuel l trace l' →
  serves l (concat ((λ '(e, g), served e g) <$> trace)) (concat ((λ '(e, g), pushed e g) <$> trace)) l'.
Proof.
  induction 1 as [l|l e g l1 trace l' Hs _ IH]; [unfold serves; by rewrite app_nil_r|].
  simpl. eapply serves_trans; [by eapply step_serves|done].
Qed.
End queue.

(** ** Progress *)

(** What the waiting requests still wait for *)
Definition backlog (l : RateLimiter) : Z := sum_over duration (queue_ l).

(** Durations are not negative, and while requests wait the bucket is empty and the
    timer is set to when the first of them, or the capacity, is paid for. *)
Definition settled (l : RateLimiter) : Prop :=
  0 < rate_ l ∧ 0 < capacity_ l ∧ 0 ≤ duration_ l ∧ Forall (λ e, 0 ≤ duration e) (queue_ l) ∧
  match queue_ l with
  | [] => expiry_ l = None
  | front :: _ =>
      duration_ l = 0 ∧ 0 < duration front ∧
      expiry_ l = Some (time_ l + Z.min (duration front) (capacity_ l))
  end.

Section progress.
Context (size_of : Z → Z) (reacquires : Z → list Z).
Hypothesis no_reacquire : ∀ id, reacquires id = [].
Hypothesis sizes : ∀ id, in_u 63 (size_of id).

Lemma cost_nonneg rate id d : 0 < rate → cost rate (size_of id) = Ok d → 0 ≤ d.
Proof using sizes.
  intros Hr H. destruct (sizes id) as [Hlo Hhi]. unfold cost in H.
  rewrite s64_small in H by done.
  destruct (check_s _ _) as [ns| | |] eqn:Hns; simplify_eq/=. apply check_s_inv in Hns as [-> Hns].
  unfold in_s in Hns. simpl in Hns. destruct (Z.eqb_spec rate 0); simplify_eq/=.
  rewrite u64_small by lia.
  assert (0 ≤ size_of id * 1000000000 / rate ≤ size_of id * 1000000000).
  { split; [apply Z.div_pos; lia|]. apply Z.div_le_upper_bound; nia. }
  rewrite s64_small by lia. lia.
Qed.

Lemma no_reacquired g : concat (reacquires <$> g) = [].
Proof using no_reacquire. induction g as [|x g IH]; [done|]. simpl. by rewrite no_reacquire. Qed.

Lemma update_loop_settles fuel l g l' :
  update_loop size_of reacquires fuel l = (Ok g, l') →
  0 ≤ duration_ l → Forall (λ e, 0 ≤ duration e) (queue_ l) →
  time_ l' = time_ l ∧ rate_ l' = rate_ l ∧ capacity_ l' = capacity_ l ∧ expiry_ l' = expiry_ l ∧ 0 ≤ duration_ l' ∧
  Forall (λ e, 0 ≤ duration e) (queue_ l') ∧
  match queue_ l' with
  | [] => True
  | front :: _ => duration_ l' = 0 ∧ 0 < duration front ∧ backlog l' = backlog l - duration_ l
  end.
Proof using no_reacquire.
  revert l g. induction fuel as [|fuel IH]; intros l g H Hd Hq; [done|].
  cbn [update_loop] in H. st_inv H. destruct (queue_ l) as [|front rest] eqn:Eq; [done|].
  apply Forall_cons in Hq as [Hf Hq].
  destruct (Z.ltb_spec (duration_ l) (duration front)); st_inv H; apply check_s_inv in Ha as [-> _].
  - unfold backlog. simpl. rewrite Eq. simpl. split_and!; try done; try lia.
    apply Forall_cons. split; [simpl; lia|done].
  - rewrite no_reacquire in Hm. cbn [push_all] in Hm. st_inv Hm. cbn [set_bucket queue_ set_queue] in H.
    rewrite Eq in H. cbn [drop] in H. rewrite drop_0 in H. destruct rest as [|e rest]; st_inv H.
    + simpl. split_and!; try done; simpl; lia.
    + apply IH in Hm as (Ht & Hr & Hc & He & Hd' & Hq' & Hres); [|simpl; lia|simpl; done].
      split_and!; [done..|]. destruct (queue_ s); [done|].
      destruct Hres as (? & ? & Hb). split_and!; [done|done|]. rewrite Hb. unfold backlog. rewrite Eq. simpl. lia.
Qed.

Lemma refill_settles time l u l' :
  refill time l = (Ok u, l') → l' = set_bucket (Z.min (duration_ l + (time - time_ l)) (capacity_ l)) time l.
Proof.
  unfold refill. destruct (check_s 64 (time - time_ l)) as [x| | |] eqn:Hx; simpl; try done.
  destruct (check_s 64 (duration_ l + x)) as [y| | |] eqn:Hy; simpl; try done.
  intros [= _ <-]. by apply check_s_inv in Hx as [-> _], Hy as [-> _].
Qed.

Lemma update_settles fuel time l g l' :
  update size_of reacquires fuel time l = (Ok g, l') →
  0 < rate_ l → 0 < capacity_ l → 0 ≤ duration_ l → time_ l ≤ time → Forall (λ e, 0 ≤ duration e) (queue_ l) →
  expiry_ l = None →
  settled l' ∧ time_ l' = time ∧ capacity_ l' = capacity_ l ∧
  (queue_ l' ≠ [] → backlog l' = backlog l - Z.min (duration_ l + (time - time_ l)) (capacity_ l)).
Proof using no_reacquire.
  intros H Hr Hc Hd Ht Hq He. unfold update in H. st_inv H. apply refill_settles in Hm as ->.
  apply update_loop_settles in Hm0 as (Ht' & Hr' & Hc' & He' & Hd' & Hq' & Hres); [|simpl; lia|done].
  simpl in Ht', Hr', Hc'. destruct (queue_ s0) as [|front rest] eqn:Eq; st_inv H.
  - unfold settled. rewrite Eq. simpl in He'. split_and!; try done; try lia. congruence.
  - apply check_s_inv in Ha as [-> _]. destruct Hres as (Hz & Hf & Hb).
    unfold settled, backlog in *. simpl in *. rewrite Eq in *. split_and!; try done; try lia.
    by rewrite Ht'.
Qed.

(** Requests keep the limiter settled. *)
Lemma step_settles fuel e l g l' :
  settled l → time_ l ≤ due l e → (∀ id now, e ≠ AcquireNowait id now) →
  step size_of reacquires fuel e l = (Ok g, l') →
  settled l' ∧ time_ l ≤ time_ l' ∧ capacity_ l' = capacity_ l.
Proof using no_reacquire sizes.
  intros Hs Ht Hne H. pose proof Hs as (Hr & Hc & Hd & Hq & Hw). destruct e as [id now|id now|]; simpl in *.
  - unfold acquire in H. st_inv H. unfold push in Hm. st_inv Hm. simpl in H. apply cost_nonneg in Ha; [|done]. rewrite length_app in H. simpl in H.
    destruct (queue_ l) as [|front rest] eqn:Eq; simpl in H.
    + apply update_settles in H as (Hs' & Ht' & Hc' & _); simpl; try done.
      * split_and!; [done|by rewrite Ht'|done].
      * by apply Forall_singleton.
    + rewrite Nat.add_1_r in H. simpl in H. st_inv H. unfold settled. simpl. split; [|done].
      split_and!; try done; [|naive_solver..].
      inversion Hq; subst. apply Forall_cons. split; [done|]. apply Forall_app. split; [done|by apply Forall_singleton].
  - by destruct (Hne id now).
  - unfold on_timer in H. st_inv H. destruct (expiry_ l) as [time|] eqn:Ee; st_inv H; [|done].
    apply update_settles in H as (Hs' & Ht' & Hc' & _); simpl in *; try done.
    split_and!; [done|by rewrite Ht'|done].
Qed.

Lemma update_loop_total fuel l :
  queue_ l ≠ [] → (length (queue_ l) ≤ fuel)%nat → in_u 63 (duration_ l) →
  Forall (λ e, in_u 63 (duration e)) (queue_ l) → ∃ g l', update_loop size_of reacquires fuel l = (Ok g, l').
Proof using no_reacquire.
  revert l. induction fuel as [|fuel IH]; intros l Hne Hl Hd Hq; [by destruct (queue_ l); simpl in Hl; [|lia]|].
  cbn [update_loop]. unfold st_bind at 1, st_get. cbn beta iota.
  destruct (queue_ l) as [|front rest] eqn:Eq; [done|]. apply Forall_cons in Hq as [[??] Hq]. destruct Hd.
  destruct (Z.ltb_spec (duration_ l) (duration front)).
  - st_lift_step ltac:(apply check_s_ok; unfold in_s; simpl; lia). by eexists _, _.
  - st_lift_step ltac:(apply check_s_ok; unfold in_s; simpl; lia). rewrite no_reacquire.
    unfold st_bind, st_put, st_modify, st_get, push_all, st_ret. cbn [set_bucket set_queue queue_].
    rewrite Eq. cbn [drop]. rewrite drop_0. destruct rest as [|e rest]; [by eexists _, _|].
    destruct (IH (set_queue (e :: rest) (set_bucket (duration_ l - duration front) (time_ l) l)))
      as (g & l' & Hrun); simpl in *; [done|lia|split; lia|done|].
    rewrite Hrun. by eexists _, _.
Qed.

Lemma backlog_bound es e : Forall (λ e, 0 ≤ duration e) es → e ∈ es → duration e ≤ sum_over duration es.
Proof.
  induction 1 as [|x es Hx Hes IH]; [by intros ?%not_elem_of_nil|]. simpl.
  assert (0 ≤ sum_over duration es) by (by apply sum_over_nonneg).
  intros [->|Hin]%elem_of_cons; [lia|]. specialize (IH Hin). lia.
Qed.

(** The handler of an expiry runs without fault. *)
Lemma expire_total fuel l :
  settled l → queue_ l ≠ [] → (length (queue_ l) ≤ fuel)%nat → 0 ≤ time_ l →
  time_ l + capacity_ l + backlog l < 2 ^ 63 →
  ∃ g l', step size_of reacquires fuel Expire l = (Ok g, l').
Proof using no_reacquire.
  intros Hs Hne Hf Ht Hb. pose proof Hs as (Hr & Hc & Hd & Hq & Hw).
  destruct (queue_ l) as [|front rest] eqn:Eq; [done|]. destruct Hw as (Hz & Hfr & He).
  assert (0 ≤ sum_over duration rest) by (apply sum_over_nonneg; by inversion Hq).
  unfold backlog in *. rewrite Eq in *. simpl in Hb.
  set (m := Z.min (duration front) (capacity_ l)) in *.
  cbn [step]. unfold on_timer, st_bind at 1, st_get. cbn beta iota. rewrite He.
  unfold st_bind at 1, st_modify. cbn beta iota. unfold update.
  set (l0 := set_expiry None l). set (l1 := set_bucket (Z.min (0 + m) (capacity_ l)) (time_ l + m) l0).
  assert (refill (time_ l + m) l0 = (Ok tt, l1)) as Hrf.
  { unfold refill, l0. cbn [set_expiry time_ duration_]. rewrite check_s_ok by (unfold in_s; simpl; lia).
    cbn [mbind result_bind]. rewrite Hz, check_s_ok by (unfold in_s; simpl; lia).
    cbn [capacity_]. unfold l1. do 2 f_equal. f_equal. lia. }
  rewrite (st_bind_ok _ _ _ _ _ Hrf).
  assert (Forall (λ e, in_u 63 (duration e)) (queue_ l1)) as Hu.
  { unfold l1, l0. simpl. rewrite Eq. apply Forall_forall. intros e Hin. split.
    - rewrite Forall_forall in Hq. by apply Hq.
    - pose proof (backlog_bound _ e Hq Hin) as Hbb. simpl in Hbb. lia. }
  destruct (update_loop_total fuel l1) as (g & l2 & Hl2); [by unfold l1, l0; simpl; rewrite Eq
    |by unfold l1, l0; simpl; rewrite Eq|unfold l1, in_u; simpl; lia|done|].
  rewrite (st_bind_ok _ _ _ _ _ Hl2). unfold st_bind at 1, st_get. cbn beta iota.
  apply update_loop_settles in Hl2 as (Ht2 & _ & Hc2 & _ & _ & Hq2 & Hres);
    [|unfold l1; simpl; lia|unfold l1, l0; simpl; by rewrite Eq].
  destruct (queue_ l2) as [|f2 r2] eqn:Eq2; [by eexists _, _|]. destruct Hres as (_ & Hf2 & Hb2).
  unfold l1, l0 in Hc2. simpl in Hc2. unfold backlog, l1, l0 in Hb2. simpl in Hb2. rewrite Eq, Eq2 in Hb2. simpl in Hb2.
  assert (0 ≤ sum_over duration r2) by (apply sum_over_nonneg; by inversion Hq2).
  st_lift_step ltac:(apply check_s_ok; unfold in_s; simpl; lia). by eexists _, _.
Qed.

(** An expiry serves the first request, or pays for a part of it. *)
Lemma expire_progress fuel l :
  settled l → queue_ l ≠ [] → (length (queue_ l) ≤ fuel)%nat → 0 ≤ time_ l →
  time_ l + capacity_ l + backlog l < 2 ^ 63 →
  ∃ g l', step size_of reacquires fuel Expire l = (Ok g, l') ∧ settled l' ∧ capacity_ l' = capacity_ l ∧
    (queue_ l' ≠ [] → ∃ paid, 0 < paid ∧ time_ l' = time_ l + paid ∧ backlog l' = backlog l - paid).
Proof using no_reacquire.
  intros Hs Hne Hf Ht Hb. destruct (expire_total fuel l Hs Hne Hf Ht Hb) as (g & l' & Hrun).
  pose proof Hs as (Hr & Hc & Hd & Hq & Hw).
  destruct (queue_ l) as [|front rest] eqn:Eq; [done|]. destruct Hw as (Hz & Hfr & He).
  unfold backlog in *. rewrite Eq in *.
  set (m := Z.min (duration front) (capacity_ l)) in *.
  exists g, l'. split; [done|]. cbn [step] in Hrun. unfold on_timer in Hrun. st_inv Hrun. rewrite He in Hrun.
  st_inv Hrun. apply update_settles in Hrun as (Hs' & Ht' & Hc' & Hb'); simpl; try done; try lia.
  - simpl in Hc'. split_and!; [done|done|]. intros Hne'. exists m. specialize (Hb' Hne').
    unfold backlog in Hb'. simpl in Hb'. rewrite Eq in Hb'. simpl in Hb' |- *.
    split_and!; [lia|done|]. rewrite Hb'. lia.
  - by rewrite Eq.
Qed.
(** Left to expire, the timer serves all that wait, in order. *)
Lemma expiries_serve_all fuel l :
  settled l → (length (queue_ l) ≤ fuel)%nat → 0 ≤ time_ l → time_ l + capacity_ l + backlog l < 2 ^ 63 →
  ∃ n l', run size_of reacquires fuel (replicate n Expire) l = (Ok (waiting l), l') ∧ queue_ l' = [].
Proof using no_reacquire.
  remember (Z.to_nat (backlog l)) as k eqn:Hk. revert l Hk.
  induction (lt_wf k) as [k _ IH]; intros l -> Hs Hf Ht Hb.
  destruct (decide (queue_ l = [])) as [Hq|Hq]; [exists 0%nat, l; unfold waiting; by rewrite Hq|].
  destruct (expire_progress fuel l Hs Hq Hf Ht Hb) as (g & l1 & Hstep & Hs1 & Hc1 & Hpaid).
  pose proof (step_serves _ _ _ _ _ _ _ Hstep) as Hw. unfold serves in Hw. simpl in Hw.
  rewrite no_reacquired, app_nil_r in Hw.
  assert (length (queue_ l1) ≤ length (queue_ l))%nat as Hl1.
  { apply (f_equal length) in Hw. unfold waiting in Hw. rewrite length_app, !length_fmap in Hw. lia. }
  destruct (decide (queue_ l1 = [])) as [Hq1|Hq1].
  - exists 1%nat, l1. cbn [replicate run]. unfold st_bind, st_ret. rewrite Hstep. split; [|done].
    unfold waiting in *. by rewrite <- Hw, Hq1.
  - destruct (Hpaid Hq1) as (paid & Hp & Ht1 & Hb1).
    assert (0 ≤ backlog l1) by (unfold backlog; apply sum_over_nonneg; by destruct Hs1 as (_ & _ & _ & ? & _)).
    destruct (IH (Z.to_nat (backlog l1)) ltac:(lia) l1 eq_refl Hs1) as (n & l' & Hrun & Hq');
      [lia|lia|lia|].
    exists (S n), l'. cbn [replicate run]. unfold st_bind, st_ret. rewrite Hstep, Hrun. split; [|done].
    by rewrite <- Hw.
Qed.

(** The requests of a run that wait for their turn *)
Definition acquired (events : list event) : list Z :=
  omap (λ e, match e with Acquire id _ => Some id | _ => None end) events.

Lemma length_acquired events : (length (acquired events) ≤ length events)%nat.
Proof. induction events as [|[] events IH]; simpl; lia. Qed.

Lemma run_serves fuel tmax events l g l' :
  settled l → timely size_of reacquires fuel tmax events l →
  Forall (λ e, ∀ id now, e ≠ AcquireNowait id now) events →
  run size_of reacquires fuel events l = (Ok g, l') →
  settled l' ∧ time_ l ≤ time_ l' ≤ tmax ∧ capacity_ l' = capacity_ l ∧ serves l g (acquired events) l'.
Proof using no_reacquire sizes.
  intros Hs Ht Hne. revert l g Hs Ht. induction Hne as [|e events He Hne IH]; intros l g Hs Ht H;
    cbn [run] in H; st_inv H.
  - split_and!; [done|done|done|done|]. unfold serves. by rewrite app_nil_r.
  - destruct Ht as [Ht Hts]. rewrite Hm in Hts. simpl in Hts.
    pose proof (step_settles _ _ _ _ _ Hs Ht He Hm) as (Hs1 & Ht1 & Hc1).
    pose proof (step_serves _ _ _ _ _ _ _ Hm) as Hv.
    destruct (IH _ _ Hs1 Hts Hm0) as (Hs' & Ht' & Hc' & Hv').
    split_and!; [done|lia|lia|congruence|].
    assert (acquired (e :: events) = pushed reacquires e a ++ acquired events ∧ served e a = a) as [-> Hsv].
    { destruct e as [id now|id now|]; simpl; rewrite ?no_reacquired; [done|by destruct (He id now)|done]. }
    rewrite Hsv in Hv. by eapply serves_trans.
Qed.

(** C10: When only RateLimiter::acquire is used (no acquire_nowait in the run) and callbacks
    do not acquire again, at times that do not decrease and within the range of the clock,
    the requests that acquire queued are granted once each and in the order of the calls, and
    at any moment those that still wait are all granted, in order, after a finite number of
    expiries of the timer. *)
Theorem rate_limiter_fifo fuel tmax rate capacity events g l :
  0 < rate → 0 < capacity → timely size_of reacquires fuel tmax events (make rate capacity) →
  Forall (λ e, ∀ id now, e ≠ AcquireNowait id now) events → (length events ≤ fuel)%nat →
  run size_of reacquires fuel events (make rate capacity) = (Ok g, l) →
  tmax + capacity + backlog l < 2 ^ 63 →
  g ++ waiting l = acquired events ∧
  ∃ n l', run size_of reacquires fuel (replicate n Expire) l = (Ok (waiting l), l') ∧ queue_ l' = [].
Proof using no_reacquire sizes.
  intros Hr Hc Ht Hne Hf Hrun Hb.
  assert (settled (make rate capacity)) as Hs by (split_and!; simpl; try done; lia).
  destruct (run_serves fuel tmax events _ g l Hs Ht Hne Hrun) as (Hs' & Ht' & Hc' & Hv).
  unfold serves in Hv. cbn [waiting make queue_ fmap list_fmap app] in Hv. split; [done|].
  simpl in Ht', Hc'. apply expiries_serve_all; [done| |lia|lia].
  apply (f_equal length) in Hv. unfold waiting in Hv. rewrite length_app, length_fmap in Hv.
  pose proof (length_acquired events). lia.
Qed.
End progress.

(** Three requests of 20 ms each, at a capacity of 15 ms *)
Lemma rate_limiter_fifo_witness :
  ∃ n l', run (λ _, 2) (λ _, []) 9 (replicate n Expire)
    (snd (run (λ _, 2) (λ _, []) 9 [Acquire 1 0; Acquire 2 0; Acquire 3 1] (make 100 15000000))) =
    (Ok [1; 2; 3], l') ∧ queue_ l' = [].
Proof.
  refine (proj2 (rate_limiter_fifo (λ _, 2) (λ _, []) (λ _, eq_refl) _ 9 1 100 15000000
    [Acquire 1 0; Acquire 2 0; Acquire 3 1] [] (snd (run (λ _, 2) (λ _, []) 9
      [Acquire 1 0; Acquire 2 0; Acquire 3 1] (make 100 15000000))) _ _ _ _ _ _ _)).
  - done.
  - done.
  - done.
  - vm_compute. intuition discriminate.
  - by repeat constructor.
  - apply Nat.leb_le. reflexivity.
  - vm_compute. reflexivity.
  - vm_compute. reflexivity.
Defined.
