(* ===== verification/BlockingResult.v ===== *)
(** * net/blocking-result

    BlockingResult runs an io_context until its callback was invoked.  asio is not part of
    the repository: [IoContext] is the interface of io_context::run_one, which may block
    for ever ([None]), and otherwise returns the number of handlers that it ran, which is
    zero when the context is stopped or has no work left; besides the context that it
    leaves, what matters of a handler are the arguments that it passed to the callback. *)

From S2P Require Import Prelude.

Class IoContext (C A : Type) : Type := {
  run_one : C → option (Z * list A * C);
  (** Without a handler nothing calls the callback. *)
  run_one_zero c calls c' : run_one c = Some (0, calls, c') → calls = [];
}.

(** [args_] is None as long as it holds the default values. *)
Record BlockingResult (A : Type) : Type := { done_ : bool; args_ : option A }.
Arguments done_ {A}.
Arguments args_ {A}.

Section blocking.
Context {C A : Type} `{!IoContext C A}.
Implicit Types (c : C) (r : BlockingResult A).

Definition make : BlockingResult A := {| done_ := false; args_ := None |}.

(** BlockingResult::reset *)
Definition reset r : BlockingResult A := {| done_ := false; args_ := args_ r |}.

(** The lambda of BlockingResult::callback *)
Definition callback (args : A) (r : BlockingResult A) : BlockingResult A :=
  {| done_ := true; args_ := Some args |}.

(** The calls of a handler *)
Definition callbacks (calls : list A) r : BlockingResult A := foldl (flip callback) r calls.

(** BlockingResult::run *)
Fixpoint run (fuel : nat) : ST (C * BlockingResult A) bool :=
  match fuel with
  | O => st_lift Hang
  | S fuel => λ '(c, r),
      if done_ r then (Ok true, (c, r))
      else
        match run_one c with
        | None => (Hang, (c, r))
        | Some (n, calls, c') =>
            if n =? 0 then (Ok false, (c', callbacks calls r)) else run fuel (c', callbacks calls r)
        end
  end.

(** ** Its specification *)

(** [n] handlers run one after the other, and none of them calls the callback. *)
Inductive quiet : nat → C → C → Prop :=
  | quiet_none c : quiet 0 c c
  | quiet_next n c m c1 c' : run_one c = Some (m, [], c1) → m ≠ 0 → quiet n c1 c' → quiet (S n) c c'.

Lemma callbacks_last calls r :
  callbacks calls r = match last calls with Some a => callback a r | None => r end.
Proof using Type.
  unfold callbacks. destruct calls as [|a l _] using rev_ind; [done|]. rewrite foldl_app, last_snoc. done.
Qed.

Lemma run_done fuel c r : done_ r = true → run (S fuel) (c, r) = (Ok true, (c, r)).
Proof using Type. intros Hr. cbn [run]. by rewrite Hr. Qed.

(** The handlers that do not call the callback are passed over. *)
Lemma run_quiet n c c' r fuel :
  quiet n c c' → done_ r = false → run (n + fuel) (c, r) = run fuel (c', r).
Proof using Type.
  intros Hq Hr. induction Hq as [c|n c m c1 c' Hone Hm _ IH]; [done|].
  cbn [run Nat.add]. by rewrite Hr, Hone, (proj2 (Z.eqb_neq _ _)).
Qed.

(** What a run that returns has done *)
Lemma run_returns fuel c r b c' r' :
  done_ r = false → run fuel (c, r) = (Ok b, (c', r')) →
  ∃ n c1 m calls, quiet n c c1 ∧ run_one c1 = Some (m, calls, c') ∧
    if b then m ≠ 0 ∧ ∃ a, last calls = Some a ∧ r' = callback a r else m = 0 ∧ r' = r.
Proof using Type.
  revert c. induction fuel as [|fuel IH]; intros c Hr Hrun; [done|]. cbn [run] in Hrun. rewrite Hr in Hrun.
  destruct (run_one c) as [[[m calls] c1]|] eqn:Hone; [|done]. rewrite callbacks_last in Hrun.
  destruct (Z.eqb_spec m 0) as [->|Hm].
  - pose proof (run_one_zero _ _ _ Hone) as ->. injection Hrun as <- <- <-.
    exists 0%nat, c, 0, []. split_and!; [constructor|done..].
  - destruct (last calls) as [a|] eqn:Ha.
    + destruct fuel as [|fuel]; [done|]. cbn [run callback done_] in Hrun. injection Hrun as <- <- <-.
      exists 0%nat, c, m, calls. split_and!; [constructor|done|done|eauto].
    + apply last_None in Ha as ->. destruct (IH c1 Hr Hrun) as (n & c2 & m' & calls & Hq & Hrest).
      exists (S n), c2, m', calls. split; [by econstructor|done].
Qed.

(** C36: BlockingResult::run with any io_context: when the callback has already been invoked,
    run returns true at once and runs nothing; otherwise it returns true exactly when, after
    some number of handlers that do not call the callback, a handler calls it, and then with
    the arguments of the last call of that handler and without running any other; it returns
    false exactly when, after such handlers, io_context::run_one returns 0 (the context is
    stopped or out of work), and then leaves the result as it was. *)
Theorem blocking_result_run c r :
  (done_ r = true → ∀ fuel, run (S fuel) (c, r) = (Ok true, (c, r))) ∧
  (done_ r = false → ∀ c' r',
    ((∃ fuel, run fuel (c, r) = (Ok true, (c', r'))) ↔
     ∃ n c1 m calls a, quiet n c c1 ∧ run_one c1 = Some (m, calls, c') ∧ m ≠ 0 ∧
       last calls = Some a ∧ r' = {| done_ := true; args_ := Some a |}) ∧
    ((∃ fuel, run fuel (c, r) = (Ok false, (c', r'))) ↔
     ∃ n c1 calls, quiet n c c1 ∧ run_one c1 = Some (0, calls, c') ∧ r' = r)).
Proof using Type.
  split; [intros Hr fuel; by apply run_done|]. intros Hr c' r'. split; split.
  - intros [fuel Hrun]. apply run_returns in Hrun as (n & c1 & m & calls & Hq & Hone & Hm & a & Ha & Hr'); [|done].
    by exists n, c1, m, calls, a.
  - intros (n & c1 & m & calls & a & Hq & Hone & Hm & Ha & ->). exists (n + 2)%nat.
    rewrite (run_quiet _ _ _ _ _ Hq Hr). cbn [run]. by rewrite Hr, Hone, (proj2 (Z.eqb_neq _ _)), callbacks_last, Ha.
  - intros [fuel Hrun]. apply run_returns in Hrun as (n & c1 & m & calls & Hq & Hone & -> & ->); [|done].
    by exists n, c1, calls.
  - intros (n & c1 & calls & Hq & Hone & ->). exists (n + 1)%nat.
    rewrite (run_quiet _ _ _ _ _ Hq Hr). cbn [run]. rewrite Hr, Hone.
    by rewrite (run_one_zero _ _ _ Hone).
Qed.
End blocking.

(** ** A context with a queue, which can be stopped *)

Record queue_context : Type := { stopped : bool; queue : list (list Z) }.

#[export] Program Instance queued : IoContext queue_context Z := {
  run_one c :=
    match stopped c, queue c with
    | true, _ => Some (0, [], c)
    | false, [] => Some (0, [], {| stopped := true; queue := [] |})
    | false, h :: q => Some (1, h, {| stopped := false; queue := q |})
    end;
}.
Next Obligation. intros [[] [|h q]] calls c' [= <- _]; done. Qed.

Definition two_handlers (stopped : bool) : queue_context := {| stopped := stopped; queue := [[]; [123]; [7]] |}.

(** The second handler passes 123 to the callback, and the third is left; when the context
    is stopped, none of them runs. *)
Lemma blocking_result_run_witness :
  (∃ fuel, run fuel (two_handlers false, make) =
     (Ok true, ({| stopped := false; queue := [[7]] |}, {| done_ := true; args_ := Some 123 |}))) ∧
  (∃ fuel, run fuel (two_handlers true, make) = (Ok false, (two_handlers true, make))).
Proof.
  destruct (blocking_result_run (two_handlers false) make) as [_ H1].
  destruct (blocking_result_run (two_handlers true) make) as [_ H2]. split.
  - apply (H1 eq_refl). exists 1%nat, {| stopped := false; queue := [[123]; [7]] |}, 1, [123], 123.
    split_and!; try done. by apply (quiet_next 0 _ 1 {| stopped := false; queue := [[123]; [7]] |}); [..|constructor].
  - apply (H2 eq_refl). exists 0%nat, (two_handlers true), []. split_and!; try done. constructor.
Defined.
