(* ===== verification/HttpClient.v ===== *)
(** * net/http/client: connections and their pool

    A [Client] is the objects that it allocated, known by numbers that stand for
    their addresses, and the pool [connections_] of pointers to connections that
    are idle.  A connection lives as long as an intrusive pointer to it exists:
    [pending_] lists what holds one, a handler that asio has not completed or the
    local variable of request ([Local]).  A pointer to an object that was
    destroyed is dangling, and using it is a [Crash].

    boost::beast and asio are not part of the repository: what is asked of them
    are the [action]s that a function returns, and their completions come back as
    the functions on_resolved to on_some_read, with what the library reported.
    Messages are lists of bytes, the default constructed one is empty.  [timer_]
    tells whether the Timer of a connection has not fired yet; HttpClientTimers.v adds
    the timer list of the client.  The callbacks do not call the client. *)

From S2P Require Import Prelude Machine TimerList TimerClient.

(** Client::Protocol *)
Inductive Protocol : Type := http | https_verify_none.

(** Client::ConnectionKey *)
Record ConnectionKey : Type := { protocol : Protocol; host : list Z; port : Z }.

#[export] Instance protocol_eq_dec : EqDecision Protocol.
Proof. solve_decision. Defined.

#[export] Instance connection_key_eq_dec : EqDecision ConnectionKey.
Proof. solve_decision. Defined.

#[export] Instance connection_key_countable : Countable ConnectionKey.
Proof.
  refine (inj_countable' (λ k, (bool_decide (protocol k = http), host k, port k))
    (λ '(p, h, n),
       {| protocol := if p : bool then http else https_verify_none; host := h; port := n |}) _).
  by intros [[] h n].
Defined.

Inductive operation : Type :=
  | Local
  | Resolve
  | Connect
  | Handshake
  | Write
  | ReadHeader
  | ReadSome.

#[export] Instance operation_eq_dec : EqDecision operation.
Proof. solve_decision. Defined.

Record RequestState : Type := {
  request_ : list Z;
  progress_callback : option Z;
  callback : option Z;
}.

Definition no_request : RequestState :=
  {| request_ := []; progress_callback := None; callback := None |}.

(** Connection and ConnectionImpl; a connection is in the list of its key at most
    once, so [connections_iter_] only tells whether the iterator is set. *)
Record Connection : Type := {
  key_ : ConnectionKey;
  request_state_ : RequestState;
  connections_iter_ : bool;
  response_parser_ : bool;
  timer_ : bool;
  pending_ : list operation;
}.

Record Client : Type := {
  connections_ : gmap ConnectionKey (list Z);
  heap_ : gmap Z Connection;
  next_ : Z;
}.

Inductive action : Type :=
  | StartTimer (n : Z)
  | UpdateTimer (n : Z)
  | DestroyTimer (n : Z)
  | AsyncResolve (n : Z) (host : list Z) (port : Z)
  | AsyncConnect (n : Z)
  | AsyncHandshake (n : Z)
  | AsyncWrite (n : Z) (request : list Z)
  | AsyncReadHeader (n : Z)
  | AsyncReadSome (n : Z)
  | CloseStream (n : Z)
  | Progress (cb : Z)
  | Callback (cb : Z) (ec : option errc) (response : list Z).

(** Client::Client *)
Definition make_client : Client := {| connections_ := ∅; heap_ := ∅; next_ := 0 |}.

Definition set_request_state (s : RequestState) (c : Connection) : Connection :=
  {| key_ := key_ c; request_state_ := s; connections_iter_ := connections_iter_ c;
     response_parser_ := response_parser_ c; timer_ := timer_ c; pending_ := pending_ c |}.

Definition set_iter (b : bool) (c : Connection) : Connection :=
  {| key_ := key_ c; request_state_ := request_state_ c; connections_iter_ := b;
     response_parser_ := response_parser_ c; timer_ := timer_ c; pending_ := pending_ c |}.

Definition set_parser (c : Connection) : Connection :=
  {| key_ := key_ c; request_state_ := request_state_ c; connections_iter_ := connections_iter_ c;
     response_parser_ := true; timer_ := timer_ c; pending_ := pending_ c |}.

Definition set_fired (c : Connection) : Connection :=
  {| key_ := key_ c; request_state_ := request_state_ c; connections_iter_ := connections_iter_ c;
     response_parser_ := response_parser_ c; timer_ := false; pending_ := pending_ c |}.

Definition set_pending (ops : list operation) (c : Connection) : Connection :=
  {| key_ := key_ c; request_state_ := request_state_ c; connections_iter_ := connections_iter_ c;
     response_parser_ := response_parser_ c; timer_ := timer_ c; pending_ := ops |}.

Definition set_connections (m : gmap ConnectionKey (list Z)) (cl : Client) : Client :=
  {| connections_ := m; heap_ := heap_ cl; next_ := next_ cl |}.

Definition set_heap (h : gmap Z Connection) (cl : Client) : Client :=
  {| connections_ := connections_ cl; heap_ := h; next_ := next_ cl |}.

(** Using the object that [n] points to *)
Definition get (n : Z) : ST Client Connection := λ cl,
  match heap_ cl !! n with
  | Some c => (Ok c, cl)
  | None => (Crash, cl)
  end.

Definition put (n : Z) (c : Connection) : ST Client unit :=
  st_modify (λ cl, set_heap (<[n := c]> (heap_ cl)) cl).

(** An intrusive pointer to the connection comes into being. *)
Definition hold (n : Z) (op : operation) : ST Client unit :=
  let* c := get n in
  put n (set_pending (op :: pending_ c) c).

(** It goes away; without any, the destructor runs, and with it that of the timer. *)
Definition release (n : Z) (op : operation) : ST Client (list action) :=
  let* c := get n in
  match remove_one op (pending_ c) with
  | None => crash
  | Some [] =>
      let* _ := st_modify (λ cl, set_heap (delete n (heap_ cl)) cl) in
      st_ret [DestroyTimer n]
  | Some ops =>
      let* _ := put n (set_pending ops c) in
      st_ret []
  end.

(** Client::Connection::start *)
Definition start (n : Z) (s : RequestState) : ST Client unit :=
  let* c := get n in
  put n (set_request_state s c).

(** Client::Connection::finish *)
Definition finish (n : Z) (ec : option errc) (response : list Z) : ST Client (list action) :=
  let* c := get n in
  let* _ := put n (set_request_state no_request c) in
  st_ret (match callback (request_state_ c) with
          | Some cb => [Callback cb ec response]
          | None => []
          end).

(** ConnectionImpl::keep_alive; Timer::update does nothing once the timer fired. *)
Definition keep_alive (n : Z) : ST Client (list action) :=
  let* c := get n in
  st_ret (if timer_ c then [UpdateTimer n] else []).

(** ConnectionImpl::write *)
Definition write (n : Z) : ST Client (list action) :=
  let* acts := keep_alive n in
  let* c := get n in
  let* _ := hold n Write in
  st_ret (acts ++ [AsyncWrite n (request_ (request_state_ c))]).

(** ConnectionImpl::read_header *)
Definition read_header (n : Z) : ST Client (list action) :=
  let* c := get n in
  let* _ := put n (set_parser c) in
  let* _ := hold n ReadHeader in
  st_ret [AsyncReadHeader n].

(** ConnectionImpl::read_some *)
Definition read_some (n : Z) : ST Client (list action) :=
  let* c := get n in
  if response_parser_ c then
    let* _ := hold n ReadSome in
    st_ret [AsyncReadSome n]
  else crash.

(** ConnectionImpl::connect *)
Definition connect (n : Z) : ST Client (list action) :=
  let* _ := hold n Connect in
  st_ret [AsyncConnect n].

(** ConnectionImpl::handshake and HttpsVerifyNoneConnection::handshake *)
Definition handshake (n : Z) : ST Client (list action) :=
  let* c := get n in
  match protocol (key_ c) with
  | http => write n
  | https_verify_none =>
      let* _ := hold n Handshake in
      st_ret [AsyncHandshake n]
  end.

(** ConnectionImpl::close *)
Definition close (n : Z) : ST Client (list action) :=
  let* acts := finish n (Some timed_out) [] in
  let* c := get n in
  if connections_iter_ c then
    let* cl := st_get in
    match connections_ cl !! key_ c with
    | None => crash
    | Some l =>
        match remove_one n l with
        | None => crash
        | Some l' =>
            let* _ := st_modify (set_connections
              (match l' with
               | [] => delete (key_ c) (connections_ cl)
               | _ => <[key_ c := l']> (connections_ cl)
               end)) in
            let* _ := put n (set_iter false c) in
            st_ret (acts ++ [CloseStream n])
        end
    end
  else st_ret (acts ++ [CloseStream n]).

(** ConnectionImpl::resolve *)
Definition resolve_host (n : Z) : ST Client (list action) :=
  let* c := get n in
  let* _ := hold n Resolve in
  st_ret [AsyncResolve n (host (key_ c)) (port (key_ c))].

Section client.
(** SSL_set_tlsext_host_name: the error of a name that it does not take *)
Context (host_name_error : list Z → option errc).

(** resolve of the connection's class *)
Definition resolve (n : Z) : ST Client (list action) :=
  let* c := get n in
  match protocol (key_ c) with
  | http => resolve_host n
  | https_verify_none =>
      match host_name_error (host (key_ c)) with
      | Some ec => finish n (Some ec) []
      | None => resolve_host n
      end
  end.

(** new HttpConnection, new HttpsVerifyNoneConnection *)
Definition new_connection (k : ConnectionKey) : ST Client Z := λ cl,
  let c := {| key_ := k; request_state_ := no_request; connections_iter_ := false;
              response_parser_ := false; timer_ := true; pending_ := [Local] |} in
  (Ok (next_ cl),
   {| connections_ := connections_ cl; heap_ := <[next_ cl := c]> (heap_ cl);
      next_ := next_ cl + 1 |}).

(** Client::request *)
Definition request (k : ConnectionKey) (s : RequestState) : ST Client (list action) :=
  let* cl := st_get in
  match connections_ cl !! k with
  | Some [] => crash
  | Some (n :: l) =>
      let* _ := hold n Local in
      let* _ := st_modify (set_connections
        (match l with [] => delete k (connections_ cl) | _ => <[k := l]> (connections_ cl) end)) in
      let* _ := start n s in
      let* c := get n in
      let* _ := put n (set_iter false c) in
      let* acts := write n in
      let* more := release n Local in
      st_ret (acts ++ more)
  | None =>
      let* n := new_connection k in
      let* _ := start n s in
      let* acts := resolve n in
      let* more := release n Local in
      st_ret (StartTimer n :: acts ++ more)
  end.

(** A handler runs, and then its intrusive pointer goes away. *)
Definition complete (n : Z) (op : operation) (body : ST Client (list action)) :
    ST Client (list action) :=
  let* acts := body in
  let* more := release n op in
  st_ret (acts ++ more).

Definition finish_and_close (n : Z) (ec : errc) : ST Client (list action) :=
  let* acts := finish n (Some ec) [] in
  let* more := close n in
  st_ret (acts ++ more).

(** The handler of async_resolve *)
Definition on_resolved (n : Z) (ec : option errc) : ST Client (list action) :=
  complete n Resolve (match ec with Some ec => finish n (Some ec) [] | None => connect n end).

(** The handler of async_connect *)
Definition on_connected (n : Z) (ec : option errc) : ST Client (list action) :=
  complete n Connect (match ec with Some ec => finish n (Some ec) [] | None => handshake n end).

(** The handler of async_handshake *)
Definition on_handshaken (n : Z) (ec : option errc) : ST Client (list action) :=
  complete n Handshake (match ec with Some ec => finish_and_close n ec | None => write n end).

(** The handler of async_write *)
Definition on_written (n : Z) (ec : option errc) : ST Client (list action) :=
  complete n Write (match ec with Some ec => finish_and_close n ec | None => read_header n end).

(** The handler of async_read_header *)
Definition on_header_read (n : Z) (ec : option errc) : ST Client (list action) :=
  complete n ReadHeader (
    let* c := get n in
    match callback (request_state_ c), ec with
    | None, _ => close n
    | Some _, Some ec => finish_and_close n ec
    | Some _, None =>
        let* acts := keep_alive n in
        let* more := read_some n in
        st_ret (acts ++ more)
    end).

Inductive read_outcome : Type :=
  | Failed (ec : errc)
  | NotDone
  | Done (response : list Z).

(** The handler of async_read_some *)
Definition on_some_read (n : Z) (outcome : read_outcome) : ST Client (list action) :=
  complete n ReadSome (
    match outcome with
    | Failed ec => finish_and_close n ec
    | NotDone =>
        let* c := get n in
        let progress :=
          match progress_callback (request_state_ c) with Some cb => [Progress cb] | None => [] end in
        let* acts := keep_alive n in
        let* more := read_some n in
        st_ret (progress ++ acts ++ more)
    | Done response =>
        let* acts := finish n None response in
        let* c := get n in
        let* _ := st_modify (λ cl, set_connections
          (<[key_ c := n :: default [] (connections_ cl !! key_ c)]> (connections_ cl)) cl) in
        let* _ := put n (set_iter true c) in
        let* more := keep_alive n in
        st_ret (acts ++ more)
    end).

(** The callback of the Timer *)
Definition on_timeout (n : Z) : ST Client (list action) :=
  let* c := get n in
  let* _ := put n (set_fired c) in
  close n.
End client.

(** ** Runs *)

Inductive event : Type :=
  | Request (k : ConnectionKey) (message : list Z) (progress : option Z) (cb : Z)
  | Resolved (n : Z) (ec : option errc)
  | Connected (n : Z) (ec : option errc)
  | Handshaken (n : Z) (ec : option errc)
  | Written (n : Z) (ec : option errc)
  | HeaderRead (n : Z) (ec : option errc)
  | SomeRead (n : Z) (outcome : read_outcome)
  | Timeout (n : Z).

Section runs.
Context (host_name_error : list Z → option errc).

Definition step (e : event) : ST Client (list action) :=
  match e with
  | Request k message progress cb =>
      request host_name_error k
        {| request_ := message; progress_callback := progress; callback := Some cb |}
  | Resolved n ec => on_resolved n ec
  | Connected n ec => on_connected n ec
  | Handshaken n ec => on_handshaken n ec
  | Written n ec => on_written n ec
  | HeaderRead n ec => on_header_read n ec
  | SomeRead n outcome => on_some_read n outcome
  | Timeout n => on_timeout n
  end.

Definition waits_for (cl : Client) (n : Z) (op : operation) : Prop :=
  ∃ c, heap_ cl !! n = Some c ∧ op ∈ pending_ c.

(** Only what is pending completes, a timer fires at most once, and no request is
    made for a key that has idle connections. *)
Definition enabled (cl : Client) (e : event) : Prop :=
  match e with
  | Request k _ _ _ => connections_ cl !! k = None
  | Resolved n _ => waits_for cl n Resolve
  | Connected n _ => waits_for cl n Connect
  | Handshaken n _ => waits_for cl n Handshake
  | Written n _ => waits_for cl n Write
  | HeaderRead n _ => waits_for cl n ReadHeader
  | SomeRead n _ => waits_for cl n ReadSome
  | Timeout n => ∃ c, heap_ cl !! n = Some c ∧ timer_ c = true
  end.

Definition run : list event → ST Client (list action) := run_events step.
Definition enabled_run : Client → list event → Prop := enabled_events step enabled.

Definition is_timer (e : event) : bool := match e with Timeout _ => true | _ => false end.

Definition requested (e : event) : list Z :=
  match e with Request _ _ _ cb => [cb] | _ => [] end.

Definition callback_of (a : action) : option Z :=
  match a with Callback cb _ _ => Some cb | _ => None end.

(** The callbacks that ran, and those that connections still hold *)
Definition callbacks (acts : list action) : list Z := omap callback_of acts.

Definition held_by (c : Connection) : list Z := option_list (callback (request_state_ c)).

Definition waiting (cl : Client) : list Z := concat (held_by <$> map_values (heap_ cl)).

(** ** The invariant

    A connection that exists waits for exactly one completion, holds no callback once
    its timer has fired, and the pool only
    has pointers to connections that were destroyed. *)

Definition reads (op : operation) : bool :=
  match op with ReadHeader | ReadSome => true | _ => false end.

Definition connection_ok (c : Connection) : Prop :=
  connections_iter_ c = false ∧ (timer_ c = false → held_by c = []) ∧
  ∃ op, pending_ c = [op] ∧ op ≠ Local ∧ (reads op = true → response_parser_ c = true).

Definition dangling (cl : Client) (n : Z) : Prop := n < next_ cl ∧ heap_ cl !! n = None.

Definition client_ok (cl : Client) : Prop :=
  map_Forall (λ n c, n < next_ cl ∧ connection_ok c) (heap_ cl) ∧
  map_Forall (λ _ l, l ≠ [] ∧ Forall (dangling cl) l) (connections_ cl).

(** The calls of the actions to the timer list *)
Definition timer_call (a : action) : option cmd :=
  match a with
  | StartTimer n => Some (Construct n)
  | UpdateTimer n => Some (Update n)
  | DestroyTimer n => Some (Destroy n)
  | _ => None
  end.

(** The Timers of the connections, and whether they are pending *)
Definition client_timers (cl : Client) : gmap Z bool := timer_ <$> heap_ cl.

Definition updates_timer (n : Z) (acts : list action) : Prop :=
  ∀ t, sets_slot n t (omap timer_call acts) t.

Lemma updates_timer_app n acts acts' :
  updates_timer n acts → updates_timer n acts' → updates_timer n (acts ++ acts').
Proof. intros H1 H2 t. rewrite omap_app. by eapply sets_slot_app. Qed.

Lemma updates_timer_nil n acts : omap timer_call acts = [] → updates_timer n acts.
Proof. intros H t. rewrite H. apply sets_slot_nil. Qed.

Lemma updates_timer_alive n (b : bool) : updates_timer n (if b then [UpdateTimer n] else []).
Proof. intros t. destruct b; [by split; repeat constructor|apply sets_slot_nil]. Qed.

(** ** What a function does to one connection *)

Definition with_connection (n : Z) (c : Connection) (cl : Client) : Client :=
  set_heap (<[n := c]> (heap_ cl)) cl.

Lemma get_at n c cl : get n (with_connection n c cl) = (Ok c, with_connection n c cl).
Proof. unfold get, with_connection. simpl. by rewrite lookup_insert_eq. Qed.

Lemma put_at n c c' cl : put n c' (with_connection n c cl) = (Ok tt, with_connection n c' cl).
Proof.
  unfold put, st_modify, with_connection, set_heap. simpl. by rewrite insert_insert_eq.
Qed.

Lemma with_connection_id n c cl : heap_ cl !! n = Some c → with_connection n c cl = cl.
Proof. intros Hn. unfold with_connection. rewrite insert_id by done. by destruct cl. Qed.

(** Symbolic execution on a connection that exists *)
Ltac exec_at :=
  repeat first [progress unfold st_bind, st_get, st_modify, st_ret | rewrite get_at | rewrite put_at
               | progress cbn beta iota].

(** [body] starts the operations [new] on the connection, and the callback that is
    gone has run. *)
Definition acts_on (n : Z) (c : Connection) (body : ST Client (list action)) (new : list operation)
    (c' : Connection) (acts : list action) : Prop :=
  (∀ cl, body (with_connection n c cl) = (Ok acts, with_connection n c' cl)) ∧
  callbacks acts ++ held_by c' = held_by c ∧
  (updates_timer n acts ∧ timer_ c' = timer_ c) ∧
  pending_ c' = new ++ pending_ c ∧ connections_iter_ c' = connections_iter_ c ∧
  (∀ op, new = [op] → reads op = true → response_parser_ c' = true) ∧
  (new = [] → held_by c' = []).

Lemma acts_on_equation n c body new c' acts cl :
  acts_on n c body new c' acts →
  body (with_connection n c cl) = (Ok acts, with_connection n c' cl).
Proof. intros [H _]. apply H. Qed.

Lemma hold_at n c op cl :
  hold n op (with_connection n c cl) =
  (Ok tt, with_connection n (set_pending (op :: pending_ c) c) cl).
Proof. unfold hold. by exec_at. Qed.

Lemma finish_at n c ec response :
  acts_on n c (finish n ec response) [] (set_request_state no_request c)
    (match callback (request_state_ c) with Some cb => [Callback cb ec response] | None => [] end).
Proof.
  split_and!; try done.
  - intros cl. unfold finish. by exec_at.
  - unfold held_by. by destruct (callback (request_state_ c)).
  - apply updates_timer_nil. by destruct (callback (request_state_ c)).
Qed.

Lemma write_at n c :
  acts_on n c (write n) [Write] (set_pending (Write :: pending_ c) c)
    ((if timer_ c then [UpdateTimer n] else []) ++ [AsyncWrite n (request_ (request_state_ c))]).
Proof.
  split_and!; try done.
  - intros cl. unfold write, keep_alive. exec_at. rewrite hold_at. by exec_at.
  - by destruct (timer_ c).
  - apply updates_timer_app; [apply updates_timer_alive|by apply updates_timer_nil].
  - by intros op [= <-].
Qed.

Lemma connect_at n c :
  acts_on n c (connect n) [Connect] (set_pending (Connect :: pending_ c) c) [AsyncConnect n].
Proof.
  split_and!; try done.
  - intros cl. unfold connect. exec_at. rewrite hold_at. by exec_at.
  - by intros op [= <-].
Qed.

Lemma read_header_at n c :
  acts_on n c (read_header n) [ReadHeader] (set_pending (ReadHeader :: pending_ c) (set_parser c))
    [AsyncReadHeader n].
Proof.
  split_and!; try done. intros cl. unfold read_header. exec_at. rewrite hold_at. by exec_at.
Qed.

Lemma read_some_at n c :
  response_parser_ c = true →
  acts_on n c (read_some n) [ReadSome] (set_pending (ReadSome :: pending_ c) c) [AsyncReadSome n].
Proof.
  intros Hp. split_and!; try done. intros cl. unfold read_some. exec_at. rewrite Hp, hold_at. by exec_at.
Qed.

Lemma resolve_host_at n c :
  acts_on n c (resolve_host n) [Resolve] (set_pending (Resolve :: pending_ c) c)
    [AsyncResolve n (host (key_ c)) (port (key_ c))].
Proof.
  split_and!; try done.
  - intros cl. unfold resolve_host. exec_at. rewrite hold_at. by exec_at.
  - by intros op [= <-].
Qed.

(** The outcomes of the functions whose continuation depends on the connection *)
Definition outcome (n : Z) (c : Connection) (body : ST Client (list action)) : Prop :=
  ∃ new c' acts, acts_on n c body new c' acts ∧ (length new ≤ 1)%nat ∧ Local ∉ new.

Lemma outcome_intro n c body new c' acts :
  acts_on n c body new c' acts → (length new ≤ 1)%nat → Local ∉ new → outcome n c body.
Proof. intros. by exists new, c', acts. Qed.

Lemma outcome_ext n c (body body' : ST Client (list action)) :
  (∀ cl, body (with_connection n c cl) = body' (with_connection n c cl)) →
  outcome n c body' → outcome n c body.
Proof.
  intros Heq (new & c' & acts & (Hrun & Hrest) & Hlen). exists new, c', acts. split; [|done].
  split; [|done]. intros cl. by rewrite Heq, Hrun.
Qed.

Lemma handshake_at n c : outcome n c (handshake n).
Proof.
  destruct (protocol (key_ c)) eqn:Hp.
  - eapply outcome_ext, outcome_intro; [|apply write_at|done|set_solver].
    intros cl. unfold handshake. exec_at. by rewrite Hp.
  - eapply (outcome_intro _ _ _ [Handshake] (set_pending (Handshake :: pending_ c) c)
      [AsyncHandshake n]); [|done|set_solver].
    split_and!; try done; [|by intros op [= <-]].
    intros cl. unfold handshake. exec_at. rewrite Hp, hold_at. by exec_at.
Qed.

Lemma close_at n c :
  connections_iter_ c = false →
  acts_on n c (close n) [] (set_request_state no_request c)
    ((match callback (request_state_ c) with
      | Some cb => [Callback cb (Some timed_out) []]
      | None => []
      end) ++ [CloseStream n]).
Proof.
  intros Hi. split_and!; try done.
  - intros cl. unfold close. unfold st_bind at 1.
    rewrite (acts_on_equation _ _ _ _ _ _ _ (finish_at n c (Some timed_out) [])). exec_at.
    simpl. by rewrite Hi.
  - unfold held_by. by destruct (callback (request_state_ c)).
  - apply updates_timer_nil. by destruct (callback (request_state_ c)).
Qed.

Lemma finish_and_close_at n c ec :
  connections_iter_ c = false → outcome n c (finish_and_close n ec).
Proof.
  intros Hi. eapply (outcome_intro _ _ _ []); [|simpl; lia|set_solver].
  split_and!.
  - intros cl. unfold finish_and_close. unfold st_bind at 1.
    rewrite (acts_on_equation _ _ _ _ _ _ _ (finish_at n c (Some ec) [])). unfold st_bind at 1.
    rewrite (acts_on_equation _ _ _ _ _ _ _ (close_at n (set_request_state no_request c) Hi)).
    unfold st_ret. reflexivity.
  - unfold held_by. simpl. by destruct (callback (request_state_ c)).
  - apply updates_timer_nil. by destruct (callback (request_state_ c)).
  - done.
  - done.
  - done.
  - done.
  - done.
Qed.

(** keep_alive does nothing to a connection. *)
Lemma keep_alive_then n c pre body :
  callbacks pre = [] → omap timer_call pre = [] → outcome n c body →
  outcome n c (let* acts := keep_alive n in let* more := body in st_ret (pre ++ acts ++ more)).
Proof.
  intros Hpre Hpt (new & c' & acts & (Hrun & Hcb & (Hu & Ht) & Hrest) & Hlen).
  exists new, c', (pre ++ (if timer_ c then [UpdateTimer n] else []) ++ acts).
  split; [|done]. split; [|split; [|split; [|done]]].
  - intros cl. unfold keep_alive. exec_at. rewrite Hrun. done.
  - unfold callbacks in *. rewrite !omap_app, Hpre. by destruct (timer_ c).
  - split; [|done]. repeat apply updates_timer_app; [by apply updates_timer_nil|apply updates_timer_alive|done].
Qed.

(** ** Steps *)

Definition others (n : Z) (cl : Client) : list Z :=
  concat (held_by <$> map_values (delete n (heap_ cl))).

Lemma waiting_with n c cl : waiting (with_connection n c cl) ≡ₚ held_by c ++ others n cl.
Proof. unfold waiting, others. simpl. by rewrite map_values_insert. Qed.

Lemma waiting_at n c cl : heap_ cl !! n = Some c → waiting cl ≡ₚ held_by c ++ others n cl.
Proof. intros Hn. rewrite <- (with_connection_id n c cl Hn) at 1. apply waiting_with. Qed.

(** The invariant of the rest of the client *)
Definition client_ok_but (n : Z) (cl : Client) : Prop :=
  n < next_ cl ∧
  map_Forall (λ n c, n < next_ cl ∧ connection_ok c) (delete n (heap_ cl)) ∧
  map_Forall (λ _ l, l ≠ [] ∧ Forall (λ m, m ≠ n ∧ dangling cl m) l) (connections_ cl).

Lemma http_client_ok_without n c cl :
  client_ok cl → heap_ cl !! n = Some c → n < next_ cl ∧ client_ok_but n cl ∧ connection_ok c.
Proof.
  intros [Hh Hp] Hn. destruct (Hh n c Hn) as [Hlt Hc]. split; [done|]. split; [|done].
  split; [done|]. split; [by apply map_Forall_delete|].
  eapply map_Forall_impl; [exact Hp|]. intros _ l [Hne Hl]. split; [done|].
  eapply Forall_impl; [exact Hl|]. intros m [Hm Hd]. split; [congruence|done].
Qed.

Lemma client_ok_with n c cl :
  client_ok_but n cl → connection_ok c → client_ok (with_connection n c cl).
Proof.
  intros (Hlt & Hh & Hp) Hc. split.
  - simpl. rewrite <- insert_delete_eq. by apply map_Forall_insert_2.
  - eapply map_Forall_impl; [exact Hp|]. intros _ l [Hne Hl]. split; [done|].
    eapply Forall_impl; [exact Hl|]. intros m [Hm [Hlt' Hd]]. split; [done|].
    simpl. by rewrite lookup_insert_ne by done.
Qed.

Lemma client_ok_delete n cl :
  client_ok_but n cl → client_ok (set_heap (delete n (heap_ cl)) cl).
Proof.
  intros (Hlt & Hh & Hp). split; [done|]. eapply map_Forall_impl; [exact Hp|].
  intros _ l [Hne Hl]. split; [done|]. eapply Forall_impl; [exact Hl|].
  intros m [Hm [Hlt' Hd]]. split; [done|]. simpl. by rewrite lookup_delete_ne by done.
Qed.

(** The reference of [op] goes away after [new] were started. *)
Lemma client_timers_with n c cl :
  client_timers (with_connection n c cl) = <[n := timer_ c]> (client_timers cl).
Proof. apply fmap_insert. Qed.

Lemma release_after n op new c cl :
  client_ok_but n cl → (length new ≤ 1)%nat → Local ∉ new → pending_ c = new ++ [op] →
  connections_iter_ c = false →
  (∀ op', new = [op'] → reads op' = true → response_parser_ c = true) →
  (new = [] → held_by c = []) → (timer_ c = false → held_by c = []) →
  ∃ acts cl', release n op (with_connection n c cl) = (Ok acts, cl') ∧ client_ok cl' ∧
    callbacks acts = [] ∧ waiting cl' ≡ₚ held_by c ++ others n cl ∧
    ∃ t, sets_slot n (Some (timer_ c)) (omap timer_call acts) t ∧
      client_timers cl' = partial_alter (λ _, t) n (client_timers cl).
Proof.
  intros Hcl Hlen Hloc Hp Hi Hr Hnone Hfree. unfold release. exec_at. rewrite Hp.
  destruct new as [|op' [|? ?]]; cbn [app]; [| |simpl in Hlen; lia].
  - rewrite remove_one_single. exec_at. eexists _, _. split; [done|].
    unfold with_connection, set_heap. simpl. rewrite delete_insert_eq.
    split; [by apply client_ok_delete|]. split; [done|]. split; [by rewrite Hnone|].
    exists None. split; [by split; repeat constructor|].
    unfold client_timers. simpl. by rewrite fmap_delete.
  - rewrite remove_one_second. exec_at. eexists _, _. split; [done|].
    split; [|split; [done|split; [by rewrite waiting_with|]]].
    2: { exists (Some (timer_ c)). split; [apply sets_slot_nil|]. by rewrite client_timers_with. }
    apply client_ok_with; [done|]. split; [done|]. split; [done|]. exists op'. split_and!; [done|set_solver|].
    intros. by apply (Hr op').
Qed.

(** The timers of [cl'] are what the actions make of those of [cl]; a timer that fires is
    no longer pending. *)
Definition timers_before (e : event) (cl : Client) : gmap Z bool :=
  match e with Timeout n => <[n := false]> (client_timers cl) | _ => client_timers cl end.

Definition timers_follow (v : gmap Z bool) (acts : list action) (cl' : Client) : Prop :=
  client_timers cl' = foldl view_cmd v (omap timer_call acts).

Lemma client_timers_follow_at n v acts t cl' :
  sets_slot n (v !! n) (omap timer_call acts) t → client_timers cl' = partial_alter (λ _, t) n v →
  timers_follow v acts cl'.
Proof. intros Hst Hcl. unfold timers_follow. rewrite Hcl. symmetry. by apply view_cmds_at. Qed.

Lemma complete_ok n op body c cl :
  client_ok cl → heap_ cl !! n = Some c → op ∈ pending_ c →
  (connection_ok c → outcome n c body) →
  ∃ acts cl', complete n op body cl = (Ok acts, cl') ∧ client_ok cl' ∧
    callbacks acts ++ waiting cl' ≡ₚ waiting cl ∧ timers_follow (client_timers cl) acts cl'.
Proof.
  intros Hcl Hn Hop Hbody. destruct (http_client_ok_without n c cl Hcl Hn) as (_ & Hbut & Hc).
  destruct (Hbody Hc) as (new & c' & acts & (Hrun & Hcb & (Hu & Ht) & Hp & Hi & Hr & Hnone) & Hlen & Hloc).
  destruct Hc as (Hiter & Hfree & op0 & Hp0 & _). rewrite Hp0 in Hop, Hp.
  apply list_elem_of_singleton in Hop as ->.
  destruct (release_after n op0 new c' cl) as (more & cl' & Hrel & Hcl' & Hm & Hw & t & Hst & Htm); try done.
  { by rewrite Hi. }
  { rewrite Ht. intros Hf. rewrite (Hfree Hf) in Hcb. by apply app_nil in Hcb as [_ ->]. }
  exists (acts ++ more), cl'. unfold complete, st_bind.
  rewrite <- (with_connection_id n c cl Hn) at 1. rewrite Hrun, Hrel. split; [done|]. split; [done|]. split.
  - unfold callbacks in *. rewrite omap_app, Hm, app_nil_r, Hw, (assoc_L (++)), Hcb.
    symmetry. by apply waiting_at.
  - apply (client_timers_follow_at n _ _ t); [|done]. unfold client_timers. rewrite lookup_fmap, Hn, omap_app.
    rewrite Ht in Hst. by eapply sets_slot_app; [apply Hu|].
Qed.

Definition step_ok (e : event) (cl : Client) : Prop :=
  ∃ acts cl', step e cl = (Ok acts, cl') ∧ client_ok cl' ∧
    callbacks acts ++ waiting cl' ≡ₚ requested e ++ waiting cl ∧
    timers_follow (timers_before e cl) acts cl'.

Lemma resolve_at n c : outcome n c (resolve host_name_error n).
Proof.
  destruct (protocol (key_ c)) eqn:Hp; [|destruct (host_name_error (host (key_ c))) as [ec|] eqn:Hh].
  - eapply outcome_ext, outcome_intro; [|apply resolve_host_at|done|set_solver].
    intros cl. unfold resolve. exec_at. by rewrite Hp.
  - eapply outcome_ext, outcome_intro; [|apply (finish_at n c (Some ec) [])|simpl; lia|set_solver].
    intros cl. unfold resolve. exec_at. by rewrite Hp, Hh.
  - eapply outcome_ext, outcome_intro; [|apply resolve_host_at|done|set_solver].
    intros cl. unfold resolve. exec_at. by rewrite Hp, Hh.
Qed.

Lemma http_request_ok k message progress cb cl :
  client_ok cl → enabled cl (Request k message progress cb) →
  step_ok (Request k message progress cb) cl.
Proof.
  intros [Hh Hp] He. cbn [enabled] in He. unfold step_ok. cbn [step].
  set (s := {| request_ := message; progress_callback := progress; callback := Some cb |}).
  set (n := next_ cl).
  set (cl0 := {| connections_ := connections_ cl; heap_ := heap_ cl; next_ := n + 1 |}).
  set (c := {| key_ := k; request_state_ := s; connections_iter_ := false; response_parser_ := false;
               timer_ := true; pending_ := [Local] |}).
  assert (heap_ cl !! n = None) as Hfresh.
  { destruct (heap_ cl !! n) as [c0|] eqn:E; [|done]. destruct (Hh n c0 E). unfold n in *. lia. }
  assert (client_ok_but n cl0) as Hbut.
  { unfold client_ok_but, dangling. simpl. rewrite delete_id by done. split; [lia|]. split.
    - eapply map_Forall_impl; [exact Hh|]. intros m c' [Hm Hc']. unfold n. split; [lia|done].
    - eapply map_Forall_impl; [exact Hp|]. intros _ l [Hne Hl]. split; [done|].
      eapply Forall_impl; [exact Hl|]. intros m [Hm Hd]. unfold n. split; [lia|]. split; [lia|done]. }
  destruct (resolve_at n c) as (new & c' & acts & (Hrun & Hcb & (Hu & Ht) & Hpend & Hi & Hr & Hnone) & Hlen & Hloc).
  destruct (release_after n Local new c' cl0) as (more & cl' & Hrel & Hcl' & Hm & Hw & t & Hst & Htm); try done.
  { by rewrite Ht. }
  exists (StartTimer n :: acts ++ more), cl'. split; [|split; [done|split]].
  - unfold request. unfold st_bind at 1, st_get. rewrite He. unfold st_bind at 1.
    change (new_connection k cl) with (Ok n, with_connection n (set_request_state no_request c) cl0).
    unfold st_bind at 1, start. unfold st_bind at 1. rewrite get_at.
    rewrite put_at. change (set_request_state s _) with c. unfold st_bind. by rewrite Hrun, Hrel.
  - simpl. unfold callbacks in *. rewrite omap_app, Hm, app_nil_r, Hw, (assoc_L (++)), Hcb.
    unfold others. simpl. rewrite delete_id by done. done.
  - apply (client_timers_follow_at n _ _ t); [|done]. unfold timers_before, client_timers. rewrite lookup_fmap, Hfresh.
    change (omap timer_call (StartTimer n :: acts ++ more)) with (Construct n :: omap timer_call (acts ++ more)).
    rewrite omap_app. apply (sets_slot_app _ _ [Construct n] (Some true)); [by split; repeat constructor|].
    rewrite Ht in Hst. by eapply sets_slot_app; [apply Hu|].
Qed.

Lemma client_timeout_closes n c cl :
  client_ok cl → heap_ cl !! n = Some c →
  ∃ acts, on_timeout n cl = (Ok acts, with_connection n (set_request_state no_request (set_fired c)) cl) ∧
    omap timer_call acts = [].
Proof.
  intros Hcl Hn. destruct (http_client_ok_without n c cl Hcl Hn) as (_ & _ & Hi & _).
  pose proof (close_at n (set_fired c) Hi) as Hclose. eexists. split.
  - unfold on_timeout. rewrite <- (with_connection_id n c cl Hn) at 1. exec_at.
    by rewrite (acts_on_equation _ _ _ _ _ _ _ Hclose).
  - by destruct (callback (request_state_ (set_fired c))).
Qed.

Lemma http_on_timeout_ok n cl : client_ok cl → enabled cl (Timeout n) → step_ok (Timeout n) cl.
Proof.
  intros Hcl (c & Hn & Ht). destruct (http_client_ok_without n c cl Hcl Hn) as (_ & Hbut & Hc).
  pose proof (close_at n (set_fired c) (proj1 Hc)) as Hclose. unfold step_ok. cbn [step].
  unfold on_timeout. rewrite <- (with_connection_id n c cl Hn). exec_at.
  rewrite (acts_on_equation _ _ _ _ _ _ _ Hclose). eexists _, _. split; [done|]. split_and!.
  - apply client_ok_with; [done|]. destruct Hc as (? & ? & ?). by split.
  - rewrite !waiting_with, (assoc_L (++)). destruct Hclose as (_ & -> & _). done.
  - apply (client_timers_follow_at n _ _ (Some false)).
    + simpl. rewrite lookup_insert_eq. apply Hclose.
    + unfold timers_before. rewrite !client_timers_with. simpl timer_.
      change (partial_alter (λ _, Some false) n) with (insert n false : gmap Z bool → gmap Z bool).
      by rewrite !insert_insert_eq.
Qed.

Lemma on_done_ok n response cl :
  client_ok cl → waits_for cl n ReadSome → step_ok (SomeRead n (Done response)) cl.
Proof.
  intros Hcl (c & Hn & Hop). destruct (http_client_ok_without n c cl Hcl Hn) as (Hlt & Hbut & Hc).
  destruct Hc as (Hi & Hfree & op & Hpend & _ & Hparse). rewrite Hpend in Hop.
  apply list_elem_of_singleton in Hop as <-.
  pose proof (finish_at n c None response) as Hfin. unfold step_ok. cbn [step].
  unfold on_some_read, complete. rewrite <- (with_connection_id n c cl Hn).
  unfold st_bind at 1 2. rewrite (acts_on_equation _ _ _ _ _ _ _ Hfin). exec_at.
  set (c1 := set_request_state no_request c).
  set (cl1 := set_connections (<[key_ c := n :: default [] (connections_ cl !! key_ c)]> (connections_ cl)) cl).
  change (set_connections _ (with_connection n c1 cl)) with (with_connection n c1 cl1).
  unfold keep_alive. exec_at. unfold release. exec_at. cbn [set_iter pending_]. unfold c1.
  cbn [set_request_state pending_]. rewrite Hpend, remove_one_single. exec_at.
  eexists _, _. split; [done|]. unfold with_connection, set_heap. simpl. rewrite delete_insert_eq. split_and!.
  - split; simpl; [apply Hbut|]. apply map_Forall_insert_2.
    + split; [done|]. constructor; [split; [done|apply lookup_delete_eq]|].
      destruct (connections_ cl !! key_ c) as [l|] eqn:E; simpl; [|done].
      destruct Hbut as (_ & _ & Hp). destruct (Hp _ _ E) as [_ Hl].
      eapply Forall_impl; [exact Hl|]. intros m [Hm [? Hd]]. split; [done|]. simpl.
      by rewrite lookup_delete_ne by done.
    + destruct (client_ok_delete n cl Hbut) as [_ Hp]. exact Hp.
  - fold (set_heap (<[n := c]> (heap_ cl)) cl). fold (with_connection n c cl).
    rewrite waiting_with. destruct Hfin as (_ & Hcb & _).
    unfold callbacks in *. rewrite !omap_app.
    assert (omap callback_of (if timer_ c then [UpdateTimer n] else []) = []) as ->
      by (by destruct (timer_ c)).
    change (held_by (set_request_state no_request c)) with (@nil Z) in Hcb.
    rewrite app_nil_r in Hcb. rewrite Hcb. simpl. by rewrite !app_nil_r.
  - unfold timers_before. fold (set_heap (<[n := c]> (heap_ cl)) cl). fold (with_connection n c cl).
    rewrite client_timers_with. apply (client_timers_follow_at n _ _ None).
    + rewrite lookup_insert_eq, !omap_app. destruct Hfin as (_ & _ & (Hu & _) & _).
      eapply sets_slot_app; [eapply sets_slot_app; [apply Hu|apply updates_timer_alive]|].
      by split; repeat constructor.
    + change (partial_alter (λ _, None) n) with (delete n : gmap Z bool → gmap Z bool).
      rewrite delete_insert_eq. apply fmap_delete.
Qed.

(** A completion of something that is pending *)
Ltac on_completion :=
  match goal with
  | H : enabled _ _ |- _ =>
      destruct H as (c & Hn & Hop); apply (complete_ok _ _ _ c); [done..|]
  end.

Lemma http_step_ok e cl : client_ok cl → enabled cl e → step_ok e cl.
Proof.
  intros Hcl He. destruct e as [k message progress cb|n ec|n ec|n ec|n ec|n ec|n outcome|n].
  - by apply http_request_ok.
  - on_completion. intros _.
    destruct ec as [ec|]; eapply outcome_intro; try apply finish_at; try apply connect_at;
      simpl; (lia || set_solver).
  - on_completion. intros _.
    destruct ec as [ec|]; [|apply handshake_at].
    eapply outcome_intro; [apply finish_at|simpl; lia|set_solver].
  - on_completion. intros [Hi _].
    destruct ec as [ec|]; [by apply finish_and_close_at|].
    eapply outcome_intro; [apply write_at|simpl; lia|set_solver].
  - on_completion. intros [Hi _].
    destruct ec as [ec|]; [by apply finish_and_close_at|].
    eapply outcome_intro; [apply read_header_at|simpl; lia|set_solver].
  - on_completion.
    intros (Hi & _ & op & Hp & _ & Hparse). rewrite Hp in Hop. apply list_elem_of_singleton in Hop as <-.
    destruct (callback (request_state_ c)) as [cb|] eqn:Hcb; [destruct ec as [ec|]|].
    + eapply outcome_ext; [|by apply finish_and_close_at]. intros cl0. exec_at. by rewrite Hcb.
    + eapply outcome_ext, (keep_alive_then _ _ []), outcome_intro;
        [|done|done|by apply read_some_at, Hparse|simpl; lia|set_solver].
      intros cl0. unfold st_bind at 1. rewrite get_at, Hcb. done.
    + eapply outcome_ext, outcome_intro; [|by apply close_at|simpl; lia|set_solver].
      intros cl0. exec_at. by rewrite Hcb.
  - destruct outcome as [ec| |response]; [..|by apply on_done_ok].
    + on_completion. intros [Hi _].
      by apply finish_and_close_at.
    + on_completion.
      intros (Hi & _ & op & Hp & _ & Hparse). rewrite Hp in Hop. apply list_elem_of_singleton in Hop as <-.
      set (progress := match progress_callback (request_state_ c) with
                       | Some cb => [Progress cb]
                       | None => []
                       end).
      eapply outcome_ext, (keep_alive_then _ _ progress), outcome_intro;
        [| | |by apply read_some_at, Hparse|simpl; lia|set_solver].
      * intros cl0. unfold st_bind at 1. by rewrite get_at.
      * unfold progress. by destruct (progress_callback (request_state_ c)).
      * unfold progress. by destruct (progress_callback (request_state_ c)).
  - by apply http_on_timeout_ok.
Qed.

Lemma http_make_client_ok : client_ok make_client.
Proof. split; apply map_Forall_empty. Qed.

Lemma http_run_ok events :
  enabled_run make_client events →
  ∃ acts cl, run events make_client = (Ok acts, cl) ∧ client_ok cl ∧
    callbacks acts ++ waiting cl ≡ₚ concat (requested <$> events).
Proof.
  intros Hrun. rewrite <- (app_nil_r (concat _)). change (@nil Z) with (waiting make_client).
  apply (run_conserves step enabled requested callbacks waiting client_ok); [|..|done].
  - apply omap_app.
  - intros cl e Hcl He. destruct (http_step_ok e cl Hcl He) as (acts & cl' & H1 & H2 & H3 & _).
    by exists acts, cl'.
  - exact http_make_client_ok.
Qed.

(** For any sequence of requests for keys without idle connections, completions of what
    is pending (with any error, response or partial read) and timeouts, the HTTP client runs
    without fault; the callbacks that ran together with those that connections still hold are
    exactly those of the requests, so none runs twice and none is lost; and every connection
    that exists has exactly one operation pending. *)
Theorem http_callbacks_once events :
  enabled_run make_client events →
  ∃ acts cl, run events make_client = (Ok acts, cl) ∧
    callbacks acts ++ waiting cl ≡ₚ concat (requested <$> events) ∧
    map_Forall (λ _ c, ∃ op, pending_ c = [op]) (heap_ cl).
Proof.
  intros Hrun. destruct (http_run_ok events Hrun) as (acts & cl & Hr & [Hh _] & Hcb).
  exists acts, cl. split_and!; [done|done|]. eapply map_Forall_impl; [exact Hh|].
  intros n c (_ & _ & _ & op & Hp & _). by exists op.
Qed.

(** C39: A connection that the HTTP client keeps for reuse is always one that was already
    destroyed: no handler holds it any more when it is put into the list. The next request
    for its key uses freed memory. *)
Theorem http_pool_dangles events acts cl k l :
  enabled_run make_client events → run events make_client = (Ok acts, cl) →
  connections_ cl !! k = Some l →
  Forall (λ n, heap_ cl !! n = None) l ∧
  ∀ message progress cb, fst (run [Request k message progress cb] cl) = Crash.
Proof.
  intros Hrun Hr Hk. destruct (http_run_ok events Hrun) as (acts' & cl' & Hr' & [_ Hp] & _).
  rewrite Hr in Hr'. injection Hr' as <- <-. destruct (Hp k l Hk) as [Hne Hl].
  split; [eapply Forall_impl; [exact Hl|]; by intros n [_ Hd]|].
  intros message progress cb. destruct l as [|n l]; [done|].
  apply Forall_cons in Hl as [[_ Hd] _]. unfold run. cbn [run_events]. unfold st_bind. cbn [step].
  unfold request, st_bind, st_get. rewrite Hk. unfold hold, st_bind, get. by rewrite Hd.
Qed.
End runs.

(** ** A request that is answered, one that times out, and one too many *)

Definition example_key : ConnectionKey := {| protocol := http; host := [104]; port := 80 |}.
Definition tls_key : ConnectionKey := {| protocol := https_verify_none; host := [104]; port := 443 |}.

Definition answered : list event :=
  [Request example_key [71] (Some 8) 5; Resolved 0 None; Connected 0 None; Written 0 None;
   HeaderRead 0 None; SomeRead 0 NotDone; SomeRead 0 (Done [1; 2])].

Definition unanswered : list event :=
  [Request tls_key [72] None 6; Resolved 1 None; Timeout 1; Connected 1 None;
   Handshaken 1 (Some operation_canceled)].

Definition names_ok (host : list Z) : option errc := None.

Ltac enabled_completion := eexists; (split; [vm_compute; reflexivity|vm_compute; (done || by left)]).

Lemma answered_enabled : enabled_run names_ok make_client answered.
Proof. split; [by vm_compute|]. do 6 (split; [enabled_completion|]). done. Qed.

Lemma http_callbacks_once_witness :
  ∃ acts cl, run names_ok (answered ++ unanswered) make_client = (Ok acts, cl) ∧
    callbacks acts ++ waiting cl ≡ₚ [5; 6].
Proof.
  destruct (http_callbacks_once names_ok (answered ++ unanswered)) as (acts & cl & H1 & H2 & _).
  - split; [by vm_compute|]. do 6 (split; [enabled_completion|]).
    split; [by vm_compute|]. do 4 (split; [enabled_completion|]). done.
  - exists acts, cl. split; [exact H1|exact H2].
Defined.

Lemma http_pool_dangles_witness :
  ∃ acts cl, run names_ok answered make_client = (Ok acts, cl) ∧ callbacks acts = [5] ∧
    fst (run names_ok [Request example_key [71] None 6] cl) = Crash.
Proof.
  eexists _, _. split; [vm_compute; reflexivity|]. split; [by vm_compute|].
  eapply (http_pool_dangles names_ok answered _ _ example_key [0] answered_enabled);
    [vm_compute; reflexivity|by vm_compute].
Defined.
