(* ===== verification/HttpClientTimers.v ===== *)
(** * net/http/client over net/timer-list

    The client of HttpClient.v on its own timer list, as a [TimerClient].  The Timer of a
    connection has the number of the connection; its callback closes the connection and the
    Timer stays with the connection until that is destroyed. *)

From S2P Require Import Prelude Machine TimerList TimerClient HttpClient.

Section client.
Context (host_name_error : list Z → option errc).

#[local] Instance http_client_timers : TimerClient Client action HttpClient.event := {|
  client_step := HttpClient.step host_name_error;
  timeout_event := Timeout;
  is_timeout := is_timer;
  timer_action := timer_call;
  timers := client_timers;
  keeps := λ cl, dom (heap_ cl);
  client_enabled := enabled;
  may_fire := λ _ _, True;
|}.

Lemma client_timers_pending cl n :
  client_timers cl !! n = Some true ↔ ∃ c, heap_ cl !! n = Some c ∧ timer_ c = true.
Proof using Type. unfold client_timers. rewrite lookup_fmap, fmap_Some. naive_solver. Qed.

#[local] Instance http_client_laws : TimerClientLaws client_ok.
Proof using Type.
  split; [done|..].
  - intros cl ev Hcl Hev He.
    destruct (http_step_ok host_name_error ev cl Hcl He) as (acts & cl' & H1 & H2 & _ & H3).
    exists acts, cl'. split_and!; [done..|]. by destruct ev.
  - intros cl n Hcl Hn _. apply client_timers_pending in Hn as (c & Hn & Ht).
    destruct (http_step_ok host_name_error (Timeout n) cl Hcl) as (acts & cl' & H1 & H2 & _ & H3); [by exists c|].
    destruct (client_timeout_closes n c cl Hcl Hn) as (acts' & H1' & Hacts).
    pose proof H1 as E. cbn [HttpClient.step] in E. rewrite H1' in E. injection E as <- <-.
    assert (n ∈ dom (heap_ cl)) as Hdom by (apply elem_of_dom; eauto).
    assert (timer_cmds acts' = fired_cmds (keeps cl) n) as Hcmds.
    { unfold fired_cmds. by rewrite decide_True. }
    exists acts', (with_connection n (set_request_state no_request (set_fired c)) cl). split_and!; try done.
    + by rewrite <- Hcmds.
    + simpl. rewrite dom_insert_L. set_solver.
Qed.

(** What the client sees are the runs of HttpClient.v. *)
Lemma allowed_client_run cl events :
  enabled_events client_step allowed cl events → enabled_run host_name_error cl events.
Proof using Type.
  revert cl. induction events as [|e events IH]; intros cl; [done|]. intros [He Hr].
  split; [|by apply IH]. destruct He as [[_ He]|(n & -> & Hn & _)]; [done|]. by apply client_timers_pending in Hn.
Qed.

Lemma no_timer_no_waiting cl :
  client_ok cl → (∀ n, client_timers cl !! n ≠ Some true) → waiting cl = [].
Proof using Type.
  intros [Hh _] Hn. unfold waiting. apply concat_nil_Forall, Forall_fmap, Forall_forall. intros c Hc. simpl.
  apply map_values_elem in Hc as [n Hc]. destruct (Hh n c Hc) as (_ & _ & Hfree & _). apply Hfree.
  apply not_true_is_false. intros Ht. apply (Hn n), client_timers_pending. eauto.
Qed.

End client.

(** The first request times out while it connects; the second is left to the timers. *)
Definition example_client_events : list (Z * system_event HttpClient.event) :=
  [(0, TimerClient.Client (Request tls_key [72] None 6)); (1, TimerClient.Client (Resolved 0 None));
   (5, TimerClient.Client (Request example_key [71] None 7)); (10, Timers Expire); (10, Timers Handle);
   (11, TimerClient.Client (Connected 0 None));
   (12, TimerClient.Client (Handshaken 0 (Some operation_canceled)))].

