(* ===== verification/HttpServer.v ===== *)
(** * net/http/server

    As in HttpClient, the connections that exist are known by numbers, [pending_]
    lists what holds an intrusive pointer to a connection (a handler of asio, or
    the callback that was given to the user's handler), and the completions come
    back as the functions on_accepted to on_written.  [timer_] is the optional
    Timer: [None] after reset, and otherwise whether it is pending in the timer
    list; using an empty optional is a [Crash].

    The handler is the user's: [answers] tells for a request and the response
    object it is given whether it calls the callback before it returns, with
    which error and response; if not, it may do so later (on_answer) or drop the
    callback (on_dropped).  [need_eof] is that of boost::beast. *)

From S2P Require Import Prelude Machine TimerList TimerClient.

Inductive operation : Type := Read | Handle | Write.

#[export] Instance operation_eq_dec : EqDecision operation.
Proof. solve_decision. Defined.

Record Connection : Type := {
  request_ : list Z;
  response_ : list Z;
  timer_ : option bool;
  pending_ : list operation;
}.

Record Server : Type := {
  heap_ : gmap Z Connection;
  next_ : Z;
  accepting_ : bool;
}.

Inductive action : Type :=
  | AsyncAccept
  | StartTimer (n : Z)
  | UpdateTimer (n : Z)
  | DestroyTimer (n : Z)
  | AsyncRead (n : Z)
  | Invoke (n : Z) (request response : list Z)
  | AsyncWrite (n : Z) (response : list Z)
  | CloseStream (n : Z)
  | Destroy (n : Z).

(** Server::Server, which calls accept *)
Definition make_server : Server := {| heap_ := ∅; next_ := 0; accepting_ := true |}.

Definition set_request (r : list Z) (c : Connection) : Connection :=
  {| request_ := r; response_ := response_ c; timer_ := timer_ c; pending_ := pending_ c |}.

Definition set_response (r : list Z) (c : Connection) : Connection :=
  {| request_ := request_ c; response_ := r; timer_ := timer_ c; pending_ := pending_ c |}.

Definition set_timer (t : option bool) (c : Connection) : Connection :=
  {| request_ := request_ c; response_ := response_ c; timer_ := t; pending_ := pending_ c |}.

Definition set_pending (ops : list operation) (c : Connection) : Connection :=
  {| request_ := request_ c; response_ := response_ c; timer_ := timer_ c; pending_ := ops |}.

Definition set_heap (h : gmap Z Connection) (s : Server) : Server :=
  {| heap_ := h; next_ := next_ s; accepting_ := accepting_ s |}.

Definition set_accepting (b : bool) (s : Server) : Server :=
  {| heap_ := heap_ s; next_ := next_ s; accepting_ := b |}.

(** Using the object that [n] points to *)
Definition get (n : Z) : ST Server Connection := λ s,
  match heap_ s !! n with
  | Some c => (Ok c, s)
  | None => (Crash, s)
  end.

Definition put (n : Z) (c : Connection) : ST Server unit :=
  st_modify (λ s, set_heap (<[n := c]> (heap_ s)) s).

(** An intrusive pointer to the connection comes into being. *)
Definition hold (n : Z) (op : operation) : ST Server unit :=
  let* c := get n in
  put n (set_pending (op :: pending_ c) c).

(** The actions of ~Timer, when there is one *)
Definition destroy_timer (n : Z) (t : option bool) : list action :=
  match t with Some _ => [DestroyTimer n] | None => [] end.

(** A pointer goes away; without any, the destructor runs. *)
Definition release (n : Z) (op : operation) : ST Server (list action) :=
  let* c := get n in
  match remove_one op (pending_ c) with
  | None => crash
  | Some [] =>
      let* _ := st_modify (λ s, set_heap (delete n (heap_ s)) s) in
      st_ret (destroy_timer n (timer_ c) ++ [Destroy n])
  | Some ops =>
      let* _ := put n (set_pending ops c) in
      st_ret []
  end.

(** A handler runs, and then its intrusive pointer goes away. *)
Definition complete (n : Z) (op : operation) (body : ST Server (list action)) :
    ST Server (list action) :=
  let* acts := body in
  let* more := release n op in
  st_ret (acts ++ more).

(** timer_->update() *)
Definition update_timer (n : Z) : ST Server (list action) :=
  let* c := get n in
  match timer_ c with
  | None => crash
  | Some t => st_ret (if t : bool then [UpdateTimer n] else [])
  end.

(** Server::Connection::close *)
Definition close (n : Z) : ST Server (list action) :=
  let* c := get n in
  let* _ := put n (set_timer None c) in
  st_ret (destroy_timer n (timer_ c) ++ [CloseStream n]).

(** Server::Connection::read *)
Definition read (n : Z) : ST Server (list action) :=
  let* c := get n in
  let* _ := put n (set_request [] c) in
  let* _ := hold n Read in
  st_ret [AsyncRead n].

(** Server::Connection::write *)
Definition write (n : Z) : ST Server (list action) :=
  let* c := get n in
  let* _ := hold n Write in
  st_ret [AsyncWrite n (response_ c)].

(** The callback that handle gives to the handler *)
Definition answer (n : Z) (ec : option errc) : ST Server (list action) :=
  match ec with
  | Some _ => close n
  | None =>
      let* acts := write n in
      let* more := update_timer n in
      st_ret (acts ++ more)
  end.

Section server.
Context (answers : list Z → list Z → option (option errc * list Z)) (need_eof : list Z → bool).

(** Server::Connection::handle *)
Definition handle (n : Z) : ST Server (list action) :=
  let* c := get n in
  let* _ := hold n Handle in
  match answers (request_ c) (response_ c) with
  | None => st_ret [Invoke n (request_ c) (response_ c)]
  | Some (ec, response) =>
      let* c' := get n in
      let* _ := put n (set_response response c') in
      let* acts := complete n Handle (answer n ec) in
      st_ret (Invoke n (request_ c) (response_ c) :: acts)
  end.

(** The handler of async_accept *)
Definition on_accepted (ec : option errc) : ST Server (list action) :=
  match ec with
  | Some _ => let* _ := st_modify (set_accepting false) in st_ret []
  | None =>
      let* s := st_get in
      let n := next_ s in
      let* _ := st_put {| heap_ := <[n := {| request_ := []; response_ := []; timer_ := Some true;
                                             pending_ := [] |}]> (heap_ s);
                          next_ := n + 1; accepting_ := true |} in
      let* acts := read n in
      st_ret (StartTimer n :: acts ++ [AsyncAccept])
  end.

(** The handler of async_read, which stored the request *)
Definition on_read (n : Z) (result : errc + list Z) : ST Server (list action) :=
  complete n Read (
    match result with
    | inl _ => close n
    | inr request =>
        let* c := get n in
        let* _ := put n (set_request request c) in
        let* acts := handle n in
        let* more := update_timer n in
        st_ret (acts ++ more)
    end).

(** The user's handler calls the callback after it has returned. *)
Definition on_answer (n : Z) (ec : option errc) (response : list Z) : ST Server (list action) :=
  let* c := get n in
  let* _ := put n (set_response response c) in
  complete n Handle (answer n ec).

(** The user's handler drops the callback. *)
Definition on_dropped (n : Z) : ST Server (list action) := release n Handle.

(** The handler of async_write *)
Definition on_written (n : Z) (ec : option errc) : ST Server (list action) :=
  complete n Write (
    let* c := get n in
    if bool_decide (is_Some ec) || need_eof (response_ c) then close n
    else
      let* acts := read n in
      let* more := update_timer n in
      st_ret (acts ++ more)).

(** The callback of the Timer *)
Definition on_timeout (n : Z) : ST Server (list action) :=
  let* c := get n in
  let* _ := put n (set_timer (Some false) c) in
  close n.

(** ** Runs *)

Inductive event : Type :=
  | Accepted (ec : option errc)
  | HasRead (n : Z) (result : errc + list Z)
  | Answer (n : Z) (ec : option errc) (response : list Z)
  | Dropped (n : Z)
  | Written (n : Z) (ec : option errc)
  | Timeout (n : Z).

Definition step (e : event) : ST Server (list action) :=
  match e with
  | Accepted ec => on_accepted ec
  | HasRead n result => on_read n result
  | Answer n ec response => on_answer n ec response
  | Dropped n => on_dropped n
  | Written n ec => on_written n ec
  | Timeout n => on_timeout n
  end.

Definition waits_for (s : Server) (n : Z) (op : operation) : Prop :=
  ∃ c, heap_ s !! n = Some c ∧ op ∈ pending_ c.

(** Whatever is pending can complete, with any result, and a timer that runs can fire. *)
Definition enabled (s : Server) (e : event) : Prop :=
  match e with
  | Accepted _ => accepting_ s = true
  | HasRead n _ => waits_for s n Read
  | Answer n _ _ | Dropped n => waits_for s n Handle
  | Written n _ => waits_for s n Write
  | Timeout n => ∃ c, heap_ s !! n = Some c ∧ timer_ c = Some true
  end.

(** The connection on which an event reports a success *)
Definition succeeds (e : event) : option Z :=
  match e with
  | HasRead n (inr _) | Answer n None _ | Written n None => Some n
  | _ => None
  end.

(** The assumption under which the server is safe, which asio does not give: no success of
    a read, a write or a handler is delivered to a connection that has been closed. *)
Definition timely (s : Server) (e : event) : Prop :=
  ∀ n c, succeeds e = Some n → heap_ s !! n = Some c → timer_ c ≠ None.

Definition timely_enabled (s : Server) (e : event) : Prop := enabled s e ∧ timely s e.

Definition run : list event → ST Server (list action) := run_events step.
Definition enabled_run : Server → list event → Prop := enabled_events step timely_enabled.

Definition is_timer (e : event) : bool := match e with Timeout _ => true | _ => false end.

(** The connections that came and went *)
Definition accepted (e : event) : Z := match e with Accepted None => 1 | _ => 0 end.

Definition destroyed (acts : list action) : Z :=
  sum_over (λ a, match a with Destroy _ => 1 | _ => 0 end) acts.

Definition live (s : Server) : Z := zlen (map_values (heap_ s)).

(** ** The invariant

    A connection waits for exactly one completion, and its timer runs unless it was
    closed. *)

Definition timer_ok (c : Connection) : Prop := timer_ c = None ∨ timer_ c = Some true.

Definition connection_ok (c : Connection) : Prop := timer_ok c ∧ ∃ op, pending_ c = [op].

Definition server_ok (s : Server) : Prop :=
  map_Forall (λ n c, n < next_ s ∧ connection_ok c) (heap_ s).

(** ** What a function does to one connection *)

Definition with_connection (n : Z) (c : Connection) (s : Server) : Server :=
  set_heap (<[n := c]> (heap_ s)) s.

Lemma get_connection n c s : get n (with_connection n c s) = (Ok c, with_connection n c s).
Proof. unfold get, with_connection. simpl. by rewrite lookup_insert_eq. Qed.

Lemma put_connection n c c' s : put n c' (with_connection n c s) = (Ok tt, with_connection n c' s).
Proof. unfold put, st_modify, with_connection, set_heap. simpl. by rewrite insert_insert_eq. Qed.

Lemma same_connection n c s : heap_ s !! n = Some c → with_connection n c s = s.
Proof. intros Hn. unfold with_connection. rewrite insert_id by done. by destruct s. Qed.

Ltac exec_conn :=
  repeat first [progress unfold st_bind, st_get, st_modify, st_ret | rewrite get_connection
               | rewrite put_connection | progress cbn beta iota].

Lemma hold_connection n c op s :
  hold n op (with_connection n c s) =
  (Ok tt, with_connection n (set_pending (op :: pending_ c) c) s).
Proof. unfold hold. by exec_conn. Qed.

(** The calls of the actions to the timer list *)
Definition timer_call (a : action) : option cmd :=
  match a with
  | StartTimer n => Some (Construct n)
  | UpdateTimer n => Some (Update n)
  | DestroyTimer n => Some (TimerList.Destroy n)
  | _ => None
  end.

(** The Timers of the connections, and whether they are pending *)
Definition server_timers (s : Server) : gmap Z bool := omap timer_ (heap_ s).

Definition sets_timer (n : Z) (t : option bool) (acts : list action) (t' : option bool) : Prop :=
  sets_slot n t (omap timer_call acts) t'.

Lemma sets_timer_app n t acts t1 acts' t2 :
  sets_timer n t acts t1 → sets_timer n t1 acts' t2 → sets_timer n t (acts ++ acts') t2.
Proof. unfold sets_timer. rewrite omap_app. apply sets_slot_app. Qed.

Lemma sets_timer_destroy n t : sets_timer n t (destroy_timer n t) None.
Proof. by destruct t; split; repeat constructor. Qed.

(** [body] turns the connection [c] into one that waits for [new] besides what it
    waited for, and whose timer is [t]. *)
Definition turns (n : Z) (c : Connection) (body : ST Server (list action))
    (new : list operation) (t : option bool) : Prop :=
  ∃ c' acts, (∀ s, body (with_connection n c s) = (Ok acts, with_connection n c' s)) ∧
    destroyed acts = 0 ∧ sets_timer n (timer_ c) acts t ∧
    pending_ c' = new ++ pending_ c ∧ timer_ c' = t.

Lemma destroyed_app l k : destroyed (l ++ k) = destroyed l + destroyed k.
Proof. apply sum_over_app. Qed.

Lemma destroyed_timer n t : destroyed (destroy_timer n t) = 0.
Proof. by destruct t as [[]|]. Qed.

Lemma close_turns n c : turns n c (close n) [] None.
Proof.
  eexists _, _. split; [intros s; unfold close; exec_conn; reflexivity|]. split_and!; [| |done|done].
  - by rewrite destroyed_app, destroyed_timer.
  - eapply sets_timer_app; [apply sets_timer_destroy|done].
Qed.

Lemma read_turns n c : turns n c (read n) [Read] (timer_ c).
Proof.
  eexists _, _. split.
  - intros s. unfold read. exec_conn. rewrite hold_connection. exec_conn. reflexivity.
  - by split_and!.
Qed.

Lemma write_turns n c : turns n c (write n) [Write] (timer_ c).
Proof.
  eexists _, _. split.
  - intros s. unfold write. exec_conn. rewrite hold_connection. exec_conn. reflexivity.
  - by split_and!.
Qed.

(** The timer of a connection that is not closed is updated. *)
Lemma update_turns n c body new :
  turns n c body new (Some true) →
  turns n c (let* acts := body in let* more := update_timer n in st_ret (acts ++ more)) new
    (Some true).
Proof.
  intros (c' & acts & Hrun & Hd & Hst & Hp & Ht).
  exists c', (acts ++ [UpdateTimer n]).
  split_and!; [|by rewrite destroyed_app, Hd|eapply sets_timer_app; [done|by split; [repeat constructor|]]|done|done].
  intros s. unfold update_timer. unfold st_bind at 1. rewrite Hrun. exec_conn. by rewrite Ht.
Qed.

Lemma turns_ext n c (body body' : ST Server (list action)) new t :
  (∀ s, body (with_connection n c s) = body' (with_connection n c s)) →
  turns n c body' new t → turns n c body new t.
Proof.
  intros Heq (c' & acts & Hrun & Hrest). exists c', acts. split; [|done]. intros s. by rewrite Heq.
Qed.

Lemma answer_turns n c ec :
  timer_ c = Some true →
  turns n c (answer n ec) (if ec then [] else [Write]) (if ec then None else Some true).
Proof.
  intros Ht. destruct ec; [apply close_turns|]. apply update_turns. rewrite <- Ht. apply write_turns.
Qed.

(** ** Steps *)

(** The reference of [op] goes away after [new] were started. *)
Definition server_ok_but (n : Z) (s : Server) : Prop :=
  n < next_ s ∧ map_Forall (λ n c, n < next_ s ∧ connection_ok c) (delete n (heap_ s)).

Definition others (n : Z) (s : Server) : Z := zlen (map_values (delete n (heap_ s))).

Lemma live_with n c s : live (with_connection n c s) = 1 + others n s.
Proof. unfold live, others. simpl. unfold zlen. rewrite map_values_insert. simpl. lia. Qed.

Lemma server_ok_with n c s :
  server_ok_but n s → connection_ok c → server_ok (with_connection n c s).
Proof.
  intros [Hlt Hh] Hc. unfold server_ok. simpl. rewrite <- insert_delete_eq.
  by apply map_Forall_insert_2.
Qed.

Lemma timers_with n c s :
  server_timers (with_connection n c s) = partial_alter (λ _, timer_ c) n (server_timers s).
Proof. unfold server_timers. simpl. rewrite omap_insert. by destruct (timer_ c). Qed.

Lemma release_turned n op new c s :
  server_ok_but n s → (length new ≤ 1)%nat → pending_ c = new ++ [op] → timer_ok c →
  ∃ acts s', release n op (with_connection n c s) = (Ok acts, s') ∧ server_ok s' ∧
    destroyed acts + live s' = 1 + others n s ∧
    ∃ t, sets_timer n (timer_ c) acts t ∧ server_timers s' = partial_alter (λ _, t) n (server_timers s).
Proof.
  intros Hs Hlen Hp Ht. unfold release. exec_conn. rewrite Hp.
  destruct new as [|op' [|? ?]]; cbn [app]; [| |simpl in Hlen; lia].
  - rewrite remove_one_single. exec_conn. eexists _, _. split; [done|].
    unfold with_connection, set_heap. simpl. rewrite delete_insert_eq.
    split; [apply Hs|]. split; [by rewrite destroyed_app, destroyed_timer|]. exists None.
    split; [eapply sets_timer_app; [apply sets_timer_destroy|done]|].
    unfold server_timers. simpl. by rewrite omap_delete.
  - rewrite remove_one_second. exec_conn. eexists _, _. split; [done|].
    split; [|split; [by rewrite live_with|exists (timer_ c); split; [done|by rewrite timers_with]]].
    apply server_ok_with; [done|]. split; [done|]. by exists op'.
Qed.

Lemma connection_at n c s :
  server_ok s → heap_ s !! n = Some c →
  server_ok_but n s ∧ connection_ok c ∧ live s = 1 + others n s.
Proof.
  intros Hs Hn. destruct (Hs n c Hn) as [Hlt Hc]. split_and!; [split; [done|]|done|].
  - by apply map_Forall_delete.
  - rewrite <- (same_connection n c s Hn) at 1. apply live_with.
Qed.

(** The timers of [s'] are what the actions make of those of [s]. *)
Definition timers_follow (s : Server) (acts : list action) (s' : Server) : Prop :=
  server_timers s' = foldl view_cmd (server_timers s) (omap timer_call acts).

Lemma server_timers_follow_at n s acts s' t :
  sets_timer n (heap_ s !! n ≫= timer_) acts t →
  server_timers s' = partial_alter (λ _, t) n (server_timers s) → timers_follow s acts s'.
Proof.
  intros Hst Hs'. unfold timers_follow. rewrite Hs'. symmetry. apply view_cmds_at.
  unfold server_timers. by rewrite lookup_omap.
Qed.

Definition step_ok (e : event) (s : Server) : Prop :=
  ∃ acts s', step e s = (Ok acts, s') ∧ server_ok s' ∧
    destroyed acts + live s' = accepted e + live s ∧
    timers_follow s acts s'.

Lemma complete_turned n op new body c s :
  server_ok s → heap_ s !! n = Some c → pending_ c = [op] → (length new ≤ 1)%nat →
  (∃ t, turns n c body new t ∧ (t = None ∨ t = Some true)) →
  ∃ acts s', complete n op body s = (Ok acts, s') ∧ server_ok s' ∧
    destroyed acts + live s' = live s ∧ timers_follow s acts s'.
Proof.
  intros Hs Hn Hop Hlen (t & (c' & acts & Hrun & Hd & Hst & Hp & Ht) & Htok).
  destruct (connection_at n c s Hs Hn) as (Hbut & _ & Hlive). rewrite Hop in Hp.
  destruct (release_turned n op new c' s) as (more & s' & Hrel & Hs' & Hl & t' & Hst' & Htm); try done.
  { unfold timer_ok. by rewrite Ht. }
  exists (acts ++ more), s'. unfold complete, st_bind.
  rewrite <- (same_connection n c s Hn) at 1. rewrite Hrun, Hrel. split; [done|]. split; [done|].
  split; [rewrite destroyed_app; lia|]. apply (server_timers_follow_at n _ _ _ t'); [|done]. rewrite Hn. simpl.
  rewrite Ht in Hst'. by eapply sets_timer_app.
Qed.

(** A handler does not report an error before it has returned. *)
Definition no_early_error : Prop :=
  ∀ request response ec response', answers request response = Some (ec, response') → ec = None.

Lemma handle_turns n c :
  no_early_error → timer_ c = Some true →
  ∃ op, turns n c (handle n) [op] (Some true).
Proof.
  intros Hans Ht. destruct (answers (request_ c) (response_ c)) as [[ec response]|] eqn:Ha.
  - assert (ec = None) as -> by (by eapply Hans).
    set (c1 := set_response response (set_pending (Handle :: pending_ c) c)).
    destruct (answer_turns n c1 None Ht) as (c2 & acts & Hrun & Hd & Hst & Hp & Ht2).
    exists Write, (set_pending (Write :: pending_ c) c2),
      (Invoke n (request_ c) (response_ c) :: acts ++ []).
    split_and!; [|by rewrite app_nil_r|rewrite app_nil_r; exact Hst|done|done].
    intros s. unfold handle. unfold st_bind at 1.
    rewrite get_connection. unfold st_bind at 1. rewrite hold_connection, Ha. exec_conn. fold c1.
    unfold complete. exec_conn. rewrite Hrun. unfold release. exec_conn. rewrite Hp.
    cbn [app c1 set_response pending_ set_pending]. rewrite remove_one_second. by exec_conn.
  - exists Handle. eexists _, _. split.
    + intros s. unfold handle. exec_conn. rewrite hold_connection, Ha. exec_conn. reflexivity.
    + by split_and!.
Qed.

Lemma on_read_ok n result s :
  no_early_error → server_ok s → timely_enabled s (HasRead n result) → step_ok (HasRead n result) s.
Proof.
  intros Hans Hs [(c & Hn & Hop) Hopen]. destruct (connection_at n c s Hs Hn) as (_ & [Ht [op Hp]] & _).
  rewrite Hp in Hop. apply list_elem_of_singleton in Hop as <-. unfold step_ok. cbn [step].
  destruct result as [ec|request].
  - apply (complete_turned _ _ [] _ c); [done..|simpl; lia|]. exists None. split; [|by left].
    apply close_turns.
  - assert (timer_ c = Some true) as Ht' by (destruct Ht; [by destruct (Hopen n c)|done]).
    destruct (handle_turns n (set_request request c) Hans Ht') as (op & Hturn).
    apply (complete_turned _ _ [op] _ c); [done..|]. exists (Some true). split; [|by right].
    destruct (update_turns n (set_request request c) _ _ Hturn) as (c' & acts & Hrun & Hrest).
    exists c', acts. split; [|done]. intros s0. unfold st_bind at 1. rewrite get_connection.
    unfold st_bind at 1. rewrite put_connection. apply Hrun.
Qed.

Lemma on_answer_ok n ec response s :
  server_ok s → timely_enabled s (Answer n ec response) → step_ok (Answer n ec response) s.
Proof.
  intros Hs [(c & Hn & Hop) Hopen]. destruct (connection_at n c s Hs Hn) as (Hbut & [Ht [op Hp]] & Hl).
  rewrite Hp in Hop. apply list_elem_of_singleton in Hop as <-. unfold step_ok. cbn [step].
  unfold on_answer. rewrite <- (same_connection n c s Hn). exec_conn.
  set (c1 := set_response response c). rewrite !live_with. rewrite <- (live_with n c1).
  assert (∀ acts s', timers_follow (with_connection n c s) acts s' ↔ timers_follow (with_connection n c1 s) acts s')
    as Htf by (intros; unfold timers_follow; by rewrite !timers_with).
  setoid_rewrite Htf. apply (complete_turned _ _ (if ec then [] else [Write]) _ c1).
  - by apply server_ok_with; [|split; [|exists Handle]].
  - apply lookup_insert_eq.
  - done.
  - destruct ec; simpl; lia.
  - exists (if ec then None else Some true). split; [|destruct ec; auto]. destruct ec as [ec|].
    + apply close_turns.
    + apply (answer_turns n c1 None). destruct Ht as [Ht|Ht]; [by destruct (Hopen n c)|done].
Qed.

Lemma on_written_ok n ec s :
  server_ok s → timely_enabled s (Written n ec) → step_ok (Written n ec) s.
Proof.
  intros Hs [(c & Hn & Hop) Hopen]. destruct (connection_at n c s Hs Hn) as (_ & [Ht [op Hp]] & _).
  rewrite Hp in Hop. apply list_elem_of_singleton in Hop as <-. unfold step_ok. cbn [step].
  destruct (bool_decide (is_Some ec) || need_eof (response_ c)) eqn:He.
  - apply (complete_turned _ _ [] _ c); [done..|simpl; lia|]. exists None. split; [|by left].
    eapply turns_ext, close_turns. intros s0. unfold st_bind. by rewrite get_connection, He.
  - apply orb_false_elim in He as [He1 He2].
    assert (ec = None) as -> by (destruct ec; [by rewrite bool_decide_true in He1|done]).
    assert (timer_ c = Some true) as Ht' by (destruct Ht; [by destruct (Hopen n c)|done]).
    apply (complete_turned _ _ [Read] _ c); [done..|]. exists (Some true). split; [|by right].
    eapply turns_ext, update_turns; [|rewrite <- Ht'; apply read_turns].
    intros s0. unfold st_bind at 1. by rewrite get_connection, He1, He2.
Qed.

Lemma on_dropped_ok n s : server_ok s → timely_enabled s (Dropped n) → step_ok (Dropped n) s.
Proof.
  intros Hs [(c & Hn & Hop) _]. destruct (connection_at n c s Hs Hn) as (Hbut & [Ht [op Hp]] & Hl).
  rewrite Hp in Hop. apply list_elem_of_singleton in Hop as <-. unfold step_ok. cbn [step].
  destruct (release_turned n Handle [] c s) as (acts & s' & Hrel & Hs' & Hd & t & Hst & Htm);
    [done|simpl; lia|done..|].
  rewrite (same_connection n c s Hn) in Hrel. exists acts, s'. simpl. split; [done|]. split; [done|].
  split; [lia|]. apply (server_timers_follow_at n _ _ _ t); [|done]. by rewrite Hn.
Qed.

Lemma server_timeout_closes n c s :
  heap_ s !! n = Some c →
  on_timeout n s = (Ok [DestroyTimer n; CloseStream n], with_connection n (set_timer None c) s).
Proof.
  intros Hn. rewrite <- (same_connection n c s Hn) at 1. unfold on_timeout, close. by exec_conn.
Qed.

Lemma http_server_on_timeout_ok n s : server_ok s → timely_enabled s (Timeout n) → step_ok (Timeout n) s.
Proof.
  intros Hs [(c & Hn & Ht) _]. destruct (connection_at n c s Hs Hn) as (Hbut & [_ Hp] & Hl).
  eexists _, _. split; [by apply server_timeout_closes|]. split_and!.
  - apply server_ok_with; [done|]. by split; [left|].
  - rewrite live_with. simpl. lia.
  - apply (server_timers_follow_at n _ _ _ None); [by split; repeat constructor|]. by rewrite timers_with.
Qed.

Lemma on_accepted_ok ec s : server_ok s → step_ok (Accepted ec) s.
Proof.
  intros Hs. unfold step_ok. cbn [step]. destruct ec as [ec|]; [by eexists [], _|].
  unfold on_accepted. unfold st_bind at 1, st_get. unfold st_bind at 1, st_put. unfold st_bind at 1.
  set (n := next_ s). set (s0 := {| heap_ := heap_ s; next_ := n + 1; accepting_ := true |}).
  set (c := {| request_ := []; response_ := []; timer_ := Some true; pending_ := [] |}).
  change {| heap_ := <[n := c]> (heap_ s); next_ := n + 1; accepting_ := true |}
    with (with_connection n c s0).
  destruct (read_turns n c) as (c' & acts & Hrun & Hd & Hst & Hp & Ht). rewrite Hrun.
  assert (heap_ s !! n = None) as Hfresh.
  { destruct (heap_ s !! n) as [c0|] eqn:E; [|done]. destruct (Hs n c0 E). unfold n in *. lia. }
  eexists _, _. split; [done|]. split_and!.
  - apply server_ok_with; [|split; [by right|by exists Read]]. split; [simpl; lia|]. simpl.
    rewrite delete_id by done. eapply map_Forall_impl; [exact Hs|].
    intros m c0 [Hm Hc0]. simpl. unfold n. split; [lia|done].
  - change (destroyed (StartTimer n :: acts ++ [AsyncAccept])) with (0 + destroyed (acts ++ [AsyncAccept])).
    rewrite live_with, destroyed_app, Hd. unfold others, live. simpl. rewrite delete_id by done. lia.
  - apply (server_timers_follow_at n _ _ _ (Some true)); [|by rewrite timers_with, Ht]. rewrite Hfresh. simpl.
    apply (sets_timer_app _ _ [StartTimer n] (Some true)); [by split; repeat constructor|].
    by eapply sets_timer_app.
Qed.

Lemma http_server_step_ok e s : no_early_error → server_ok s → timely_enabled s e → step_ok e s.
Proof.
  intros Hans Hs He. destruct e.
  - by apply on_accepted_ok.
  - by apply on_read_ok.
  - by apply on_answer_ok.
  - by apply on_dropped_ok.
  - by apply on_written_ok.
  - by apply http_server_on_timeout_ok.
Qed.

Lemma server_run_exact events :
  no_early_error → enabled_run make_server events →
  ∃ acts s, run events make_server = (Ok acts, s) ∧ server_ok s ∧
    destroyed acts + live s = sum_over accepted events.
Proof.
  intros Hans Hrun. rewrite <- (Z.add_0_r (sum_over _ _)). change 0 with (live make_server).
  revert Hrun. apply (run_events_ind step timely_enabled server_ok
    (λ s events acts s', destroyed acts + live s' = sum_over accepted events + live s)).
  - done.
  - intros s e acts s1 es more s' _ _ H1 _ H2. rewrite destroyed_app. simpl in *. lia.
  - intros s e Hs He. simpl. rewrite Z.add_0_r.
    destruct (http_server_step_ok e s Hans Hs He) as (acts & s' & H1 & H2 & H3 & _). by exists acts, s'.
  - apply map_Forall_empty.
Qed.

(** For any sequence of accepted connections, reads, answers of the handler, writes and
    timeouts, in which no handler reports an error before it returns and no read, write or
    handler reports a success after its connection was closed, the HTTP server runs without fault, every connection waits for
    exactly one completion, its timer is armed unless it was closed, and the connections that
    were destroyed and those that are left are those that were accepted. *)
Theorem http_server_connections events :
  no_early_error → enabled_run make_server events →
  ∃ acts s, run events make_server = (Ok acts, s) ∧
    destroyed acts + live s = sum_over accepted events ∧
    map_Forall (λ _ c, (∃ op, pending_ c = [op]) ∧ (timer_ c = None ∨ timer_ c = Some true)) (heap_ s).
Proof.
  intros Hans Hrun. destruct (server_run_exact events Hans Hrun) as (acts & s & Hr & Hs & Hl).
  exists acts, s. split_and!; [done|done|]. eapply map_Forall_impl; [exact Hs|].
  by intros n c (_ & ? & ?).
Qed.

(** C40: A handler of the HTTP server that answers after the timeout of its connection, and
    one that reports an error before it returns, make the server update the timer of a closed
    connection, which dereferences an empty optional. *)
Theorem http_server_late_answer s n c :
  heap_ s !! n = Some c → pending_ c = [Handle] → timer_ c = Some true →
  (∀ response, fst (run [Timeout n; Answer n None response] s) = Crash) ∧
  (∀ request ec response, answers request (response_ c) = Some (Some ec, response) →
     fst (run [HasRead n (inr request)] (with_connection n (set_pending [Read] c) s)) = Crash).
Proof.
  intros Hn Hp Ht. split.
  - intros response. rewrite <- (same_connection n c s Hn). unfold run. cbn [run_events step]. unfold on_timeout, close, on_answer, answer, write.
    exec_conn. unfold complete. exec_conn. rewrite hold_connection. exec_conn.
    unfold update_timer. by exec_conn.
  - intros request ec response Ha. unfold run. cbn [run_events step]. unfold on_read, complete.
    exec_conn. unfold handle. exec_conn. rewrite hold_connection.
    cbn [request_ response_ set_request set_pending]. rewrite Ha. exec_conn.
    unfold complete, answer, close. exec_conn. unfold release. exec_conn.
    change (remove_one Handle _) with (Some [Read]). exec_conn. unfold update_timer. by exec_conn.
Qed.

(** A read or a write that succeeded before the timeout closed its connection, and whose
    completion is handled after it, updates the timer of a closed connection in the same
    way: asio may deliver it, and the server does not survive it. *)
Theorem http_server_queued_success s n c :
  heap_ s !! n = Some c → timer_ c = Some true →
  (pending_ c = [Read] → ∀ request,
     enabled (snd (run [Timeout n] s)) (HasRead n (inr request)) ∧
     fst (run [Timeout n; HasRead n (inr request)] s) = Crash) ∧
  (pending_ c = [Write] → need_eof (response_ c) = false →
     enabled (snd (run [Timeout n] s)) (Written n None) ∧
     fst (run [Timeout n; Written n None] s) = Crash).
Proof.
  intros Hn Ht.
  assert (snd (run [Timeout n] s) = with_connection n (set_timer None c) s) as Hs.
  { unfold run. cbn [run_events step]. unfold st_bind. by rewrite (server_timeout_closes n c s Hn). }
  rewrite Hs. split; intros Hp.
  - intros request. split.
    { exists (set_timer None c). simpl. rewrite lookup_insert_eq, Hp. split; [done|by left]. }
    unfold run. cbn [run_events step]. unfold st_bind at 1. rewrite (server_timeout_closes n c s Hn).
    unfold on_read, complete. exec_conn. unfold handle. exec_conn. rewrite hold_connection.
    cbn [request_ response_ set_request set_pending set_timer].
    destruct (answers request (response_ c)) as [[[ec|] response]|]; exec_conn.
    + unfold complete, answer, close. exec_conn. unfold release. exec_conn.
      cbn [pending_ set_timer set_response set_pending set_request]. rewrite Hp.
      change (remove_one Handle _) with (Some [Read]). exec_conn. unfold update_timer. by exec_conn.
    + unfold complete, answer, write. exec_conn. rewrite hold_connection. exec_conn. unfold update_timer. by exec_conn.
    + unfold update_timer. by exec_conn.
  - intros Heof. split.
    { exists (set_timer None c). simpl. rewrite lookup_insert_eq, Hp. split; [done|by left]. }
    unfold run. cbn [run_events step]. unfold st_bind at 1. rewrite (server_timeout_closes n c s Hn).
    unfold on_written, complete, read. exec_conn. cbn [response_ set_timer].
    rewrite bool_decide_false by (by intros [? [=]]). rewrite Heof. cbn [orb]. exec_conn.
    rewrite hold_connection. exec_conn. unfold update_timer. by exec_conn.
Qed.

(** The next request of a connection is handled with the response object of the last
    one, as it was written. *)
Theorem http_server_stale_response s n c request :
  heap_ s !! n = Some c → pending_ c = [Write] → timer_ c = Some true →
  need_eof (response_ c) = false → answers request (response_ c) = None →
  ∃ acts s', run [Written n None; HasRead n (inr request)] s = (Ok acts, s') ∧
    Invoke n request (response_ c) ∈ acts.
Proof.
  intros Hn Hp Ht Heof Ha. rewrite <- (same_connection n c s Hn). unfold run.
  cbn [run_events step]. unfold on_written, complete, read, update_timer. exec_conn.
  rewrite bool_decide_false by (by intros [? [=]]). rewrite Heof. cbn [orb]. exec_conn.
  rewrite hold_connection. exec_conn. cbn [set_pending set_request timer_ pending_]. rewrite Hp, Ht.
  exec_conn. unfold release. exec_conn. change (remove_one Write _) with (Some [Read]). exec_conn.
  unfold on_read, complete. exec_conn. unfold handle. exec_conn. rewrite hold_connection.
  cbn [request_ response_ set_request set_pending]. rewrite Ha. exec_conn.
  unfold update_timer. exec_conn. cbn [set_pending set_request timer_]. rewrite Ht. exec_conn.
  unfold release. exec_conn. change (remove_one Read _) with (Some [Handle]). exec_conn.
  eexists _, _. split; [reflexivity|]. set_solver.
Qed.
End server.

(** ** A connection that is answered, one that times out, and two faults *)

(** Answers the request [1] at once and [2] with an error. *)
Definition example_answers (request response : list Z) : option (option errc * list Z) :=
  if bool_decide (request = [1]) then Some (None, [9])
  else if bool_decide (request = [2]) then Some (Some timed_out, []) else None.

Definition polite_answers (request response : list Z) : option (option errc * list Z) :=
  if bool_decide (request = [1]) then Some (None, [9]) else None.

Definition never_eof (response : list Z) : bool := false.

Definition example_events : list event :=
  [Accepted None; HasRead 0 (inr [1]); Accepted None; Written 0 None; HasRead 0 (inr [3]);
   Timeout 1; Answer 0 None [8]; Written 0 (Some timed_out); HasRead 1 (inl operation_canceled)].

Ltac enabled_wait :=
  split; [eexists; (split; [vm_compute; reflexivity|by left])|intros ?? [= <-]; vm_compute; by intros [= <-]].

Lemma http_server_connections_witness :
  ∃ acts s, run polite_answers never_eof example_events make_server = (Ok acts, s) ∧
    destroyed acts + live s = 2 ∧ heap_ s = ∅.
Proof.
  destruct (http_server_connections polite_answers never_eof example_events)
    as (acts & s & H1 & H2 & _).
  - intros request response ec response'. unfold polite_answers.
    destruct (bool_decide (request = [1])); [by intros [= <- _]|done].
  - split; [by split|]. split; [enabled_wait|]. split; [by split|].
    split; [enabled_wait|]. split; [enabled_wait|].
    split; [split; [eexists; split; vm_compute; reflexivity|done]|].
    split; [enabled_wait|]. split; [enabled_wait|]. split; [enabled_wait|]. done.
  - exists acts, s. split; [exact H1|]. split; [exact H2|].
    assert (snd (run polite_answers never_eof example_events make_server) = s) as <-
      by exact (f_equal snd H1). by vm_compute.
Defined.

Lemma http_server_late_answer_witness :
  ∃ s, fst (run example_answers never_eof [Timeout 0; Answer 0 None []] s) = Crash ∧
    fst (run example_answers never_eof [Accepted None; HasRead 0 (inr [2])] make_server) = Crash.
Proof.
  exists (snd (run example_answers never_eof [Accepted None; HasRead 0 (inr [3])] make_server)).
  destruct (http_server_late_answer example_answers never_eof
    (snd (run example_answers never_eof [Accepted None; HasRead 0 (inr [3])] make_server)) 0
    {| request_ := [3]; response_ := []; timer_ := Some true; pending_ := [Handle] |})
    as [H1 H2]; [by vm_compute|done|done|].
  split; [apply H1|]. by vm_compute.
Defined.
