(* ===== verification/HttpServerTimers.v ===== *)
(** * net/http/server over net/timer-list

    The server of HttpServer.v on its own timer list, as a [TimerClient].  The Timer of a
    connection has the number of the connection; its callback closes the connection, which
    resets the Timer. *)

From S2P Require Import Prelude Machine TimerList TimerClient HttpServer.

Section server.
Context (answers : list Z → list Z → option (option errc * list Z)) (need_eof : list Z → bool).

#[local] Instance http_server_timers : TimerClient Server action HttpServer.event := {|
  client_step := HttpServer.step answers need_eof;
  timeout_event := Timeout;
  is_timeout := is_timer;
  timer_action := timer_call;
  timers := server_timers;
  keeps := λ _, ∅;
  client_enabled := timely_enabled;
  may_fire := λ _ _, True;
|}.

Lemma timers_pending s n :
  server_timers s !! n = Some true ↔ ∃ c, heap_ s !! n = Some c ∧ timer_ c = Some true.
Proof. unfold server_timers. rewrite lookup_omap, bind_Some. done. Qed.

Hypothesis Hans : no_early_error answers.

#[local] Instance http_server_laws : TimerClientLaws server_ok.
Proof using Hans.
  split; [done|..].
  - intros s ev Hs _ He.
    destruct (http_server_step_ok answers need_eof ev s Hans Hs He) as (acts & s' & H1 & H2 & _ & H3).
    by exists acts, s'.
  - intros s n Hs Hn _. apply timers_pending in Hn as (c & Hn & Ht).
    destruct (http_server_step_ok answers need_eof (Timeout n) s Hans Hs) as (acts & s' & H1 & H2 & _ & H3);
      [by split; [exists c|]|].
    exists acts, s'. cbn [client_step timeout_event http_server_timers] in *.
    pose proof H1 as H1'. cbn [HttpServer.step] in H1'. rewrite (server_timeout_closes n c s Hn) in H1'.
    injection H1' as <- Es'. split_and!; try done. rewrite <- Es', timers_with. unfold fired_cmds.
    rewrite decide_False by set_solver. simpl. by rewrite delete_insert_eq.
Qed.

(** The connections that were accepted *)
Definition arrivals (e : HttpServer.event) : list unit :=
  match e with Accepted None => [tt] | _ => [] end.

Lemma sum_arrivals events : sum_over accepted events = zlen (concat (arrivals <$> events)).
Proof using Type.
  induction events as [|e events IH]; [done|]. simpl. rewrite zlen_app, IH.
  by destruct e as [[]| | | | |].
Qed.

(** What the client sees are the runs of HttpServer.v. *)
Lemma allowed_enabled s e : allowed s e → timely_enabled s e.
Proof using Type. intros [[_ He]|(n & -> & Hn & _)]; [done|]. by split; [apply timers_pending in Hn|]. Qed.

Lemma allowed_run s events :
  enabled_events client_step allowed s events → enabled_run answers need_eof s events.
Proof using Type.
  revert s. induction events as [|e events IH]; intros s; [done|]. intros [He Hr].
  split; [by apply allowed_enabled|by apply IH].
Qed.

Definition all_closed (s : Server) : Prop :=
  map_Forall (λ _ c, timer_ c = None ∧ ∃ op, pending_ c = [op]) (heap_ s).

End server.

(** The first connection is answered and stays open a while longer; the second is idle and
    times out after 10. *)
Definition example_server_events : list (Z * system_event HttpServer.event) :=
  [(0, Client (Accepted None)); (2, Client (HasRead 0 (inr [1]))); (3, Client (Accepted None));
   (4, Client (Written 0 None)); (10, Timers Expire); (10, Timers TimerList.Handle);
   (13, Timers Expire); (13, Timers TimerList.Handle);
   (13, Client (HasRead 1 (inl operation_canceled)))].

