(* ===== verification/Hash.v ===== *)
(** * Hashing: net/asio-hash.h and the AbslHashValue of net/types, net/rpc and net/http

    AbslHashValue is generic in the state of the hash, of which nothing is assumed here:
    [HashState] has the operations that AbslHashValue calls and no laws.  What a value adds
    to a state is the sequence of its [item]s, the calls in order with their arguments.

    What absl asks of AbslHashValue is stated in terms of the hash expansion of a value:
    equal values must have equal expansions, and of different values none must have an
    expansion that is a suffix of that of the other.  [AbslHash] is what absl says of the
    expansions of integers, strings and variants, and the expansion of a value is made of
    those of its items.  The keys of the RPC and HTTP components meet the requirement; the
    hash of an address leaves its scope out, so endpoints, addresses with ports and hosts
    with ports have equal expansions exactly when they are equal up to the scope. *)

From S2P Require Import Prelude ConsumeInt NetTypes HostPort HttpClient.

Class AbslHash : Type := {
  expand_uint : Z → Z → list Z;
  expand_string : list Z → list Z;
  expand_uint_length w v : length (expand_uint w v) = Z.to_nat (w / 8);
  expand_uint_inj w v v' :
    w = 16 ∨ w = 32 ∨ w = 64 → in_u w v → in_u w v' → expand_uint w v = expand_uint w v' → v = v';
  expand_string_free s s' :
    zlen s < 2 ^ 64 → zlen s' < 2 ^ 64 → suffix (expand_string s) (expand_string s') → s = s';
  (** std::variant: the index of the alternative and the expansion of its value *)
  expand_variant : Z → list Z → list Z;
  expand_variant_inj i a i' a' :
    in_u 64 i → in_u 64 i' → expand_variant i a = expand_variant i' a' → i = i' ∧ a = a';
}.

Class HashState (H : Type) : Type := {
  combine_contiguous : H → list Z → H;
  combine_uint : Z → H → Z → H;
  combine_string : H → list Z → H;
  combine_variant : H → Z → (H → H) → H;
}.

Section hash.
Context {H : Type} `{!HashState H}.

(** address_v4::to_uint *)
Definition to_uint (bytes : list Z) : Z := le_decode (reverse bytes).

(** AbslHashValue of address_v4, address_v6 and address *)
Definition hash_address_v4 (h : H) (bytes : list Z) : H := combine_uint 32 h (to_uint bytes).

Definition hash_address_v6 (h : H) (bytes : list Z) : H := combine_contiguous h bytes.

Definition hash_address (h : H) (a : address) : H :=
  match a with
  | address_v4 bytes => hash_address_v4 h bytes
  | address_v6 bytes _ => hash_address_v6 h bytes
  end.

(** AbslHashValue of tcp::endpoint and udp::endpoint *)
Definition hash_endpoint (h : H) (e : endpoint) : H := combine_uint 16 (hash_address h (ep_address e)) (ep_port e).

(** AbslHashValue of AddrPort, Host and HostPort *)
Definition hash_addr_port (h : H) (ap : AddrPort) : H :=
  combine_uint 16 (hash_address h (address_ ap)) (addr_port_ ap).

Definition hash_host (h : H) (host : Host) : H :=
  match host with
  | host_address a => combine_variant h 0 (λ h, hash_address h a)
  | host_name name => combine_variant h 1 (λ h, combine_string h name)
  end.

Definition hash_host_port (h : H) (hp : HostPort) : H := combine_uint 16 (hash_host h (host_ hp)) (port_ hp).

(** AbslHashValue and operator== of OperationKey *)
Definition hash_operation_key (h : H) (key : Z * Z) : H := combine_uint 64 (combine_uint 64 h key.1) key.2.

Definition operation_key_eq (a b : Z * Z) : bool := (a.1 =? b.1) && (a.2 =? b.2).

(** AbslHashValue of ConnectionKey; the enumeration is an int. *)
Definition protocol_value (p : Protocol) : Z := match p with http => 0 | https_verify_none => 1 end.

Definition hash_connection_key (h : H) (key : ConnectionKey) : H :=
  combine_uint 16 (combine_string (combine_uint 32 h (protocol_value (protocol key))) (host key)) (port key).
End hash.

(** ** Items and expansions *)

Inductive piece : Type :=
  | Contiguous (bytes : list Z)
  | Uint (width value : Z)
  | Text (s : list Z).

Inductive item : Type :=
  | Plain (p : piece)
  | Variant (index : Z) (p : piece).

Definition address_piece (a : address) : piece :=
  match a with
  | address_v4 bytes => Uint 32 (to_uint bytes)
  | address_v6 bytes _ => Contiguous bytes
  end.

Definition endpoint_items (e : endpoint) : list item :=
  [Plain (address_piece (ep_address e)); Plain (Uint 16 (ep_port e))].

Definition addr_port_items (ap : AddrPort) : list item :=
  [Plain (address_piece (address_ ap)); Plain (Uint 16 (addr_port_ ap))].

Definition host_item (host : Host) : item :=
  match host with
  | host_address a => Variant 0 (address_piece a)
  | host_name name => Variant 1 (Text name)
  end.

Definition host_port_items (hp : HostPort) : list item := [host_item (host_ hp); Plain (Uint 16 (port_ hp))].

Definition operation_key_items (key : Z * Z) : list item := [Plain (Uint 64 key.1); Plain (Uint 64 key.2)].

Definition connection_key_items (key : ConnectionKey) : list item :=
  [Plain (Uint 32 (protocol_value (protocol key))); Plain (Text (host key)); Plain (Uint 16 (port key))].

(** The calls that the items stand for *)
Section replay.
Context {H : Type} `{!HashState H}.

Definition combine_piece (p : piece) (h : H) : H :=
  match p with
  | Contiguous bytes => combine_contiguous h bytes
  | Uint width value => combine_uint width h value
  | Text s => combine_string h s
  end.

Definition combine_item (h : H) (i : item) : H :=
  match i with
  | Plain p => combine_piece p h
  | Variant index p => combine_variant h index (combine_piece p)
  end.

Definition replay (h : H) (l : list item) : H := foldl combine_item h l.

(** A hash makes the calls of the items and no others, in whatever state. *)
Definition hashed_by {A} (hash : H → A → H) (items : A → list item) : Prop :=
  ∀ h a, hash h a = replay h (items a).
End replay.

Section expansions.
Context `{!AbslHash}.

Definition expand_piece (p : piece) : list Z :=
  match p with
  | Contiguous bytes => bytes
  | Uint width value => expand_uint width value
  | Text s => expand_string s
  end.

Definition expand_item (i : item) : list Z :=
  match i with
  | Plain p => expand_piece p
  | Variant index p => expand_variant index (expand_piece p)
  end.

Definition expansion (l : list item) : list Z := concat (expand_item <$> l).

Lemma expansion_two a b : expansion [a; b] = expand_item a ++ expand_item b.
Proof using Type. unfold expansion. simpl. by rewrite app_nil_r. Qed.

Lemma expansion_three a b c : expansion [a; b; c] = (expand_item a ++ expand_item b) ++ expand_item c.
Proof using Type. unfold expansion. simpl. by rewrite app_nil_r, (assoc_L (++)). Qed.

(** A part of fixed width at the end of an expansion can be split off. *)
Lemma expand_snoc w (a a' : list Z) v v' :
  w = 16 ∨ w = 32 ∨ w = 64 → in_u w v → in_u w v' →
  a ++ expand_uint w v = a' ++ expand_uint w v' ↔ a = a' ∧ v = v'.
Proof.
  intros Hw Hv Hv'. split; [|by intros [-> ->]]. intros Heq.
  apply app_inj_2 in Heq as [-> Heq]; [|by rewrite !expand_uint_length].
  split; [done|]. by apply (expand_uint_inj w).
Qed.

Lemma suffix_snoc_uint w (a a' : list Z) v v' :
  w = 16 ∨ w = 32 ∨ w = 64 → in_u w v → in_u w v' →
  suffix (a ++ expand_uint w v) (a' ++ expand_uint w v') → suffix a a' ∧ v = v'.
Proof.
  intros Hw Hv Hv' [k Hk]. rewrite (assoc_L (++)) in Hk. apply expand_snoc in Hk as [-> ->]; try done.
  split; [by exists k|done].
Qed.

Lemma suffix_snoc_string (a a' : list Z) s s' :
  zlen s < 2 ^ 64 → zlen s' < 2 ^ 64 →
  suffix (a ++ expand_string s) (a' ++ expand_string s') → suffix a a' ∧ s = s'.
Proof.
  intros Hs Hs' Hk. assert (s = s') as <-.
  { destruct (suffix_weak_total (expand_string s) (expand_string s') (a' ++ expand_string s')) as [Hx|Hx].
    - by apply (suffix_app_l _ _ a).
    - by apply suffix_app_r.
    - by apply expand_string_free.
    - symmetry. by apply expand_string_free. }
  split; [|done]. by apply suffix_app_inv in Hk.
Qed.

Lemma to_uint_inj bytes bytes' :
  Forall is_byte bytes → Forall is_byte bytes' → length bytes = length bytes' →
  to_uint bytes = to_uint bytes' → bytes = bytes'.
Proof.
  unfold to_uint. intros Hb Hb' Hl Heq. apply (inj reverse).
  rewrite <- (le_encode_decode (reverse bytes)), <- (le_encode_decode (reverse bytes')) by by apply Forall_reverse.
  by rewrite !length_reverse, Hl, Heq.
Qed.

Lemma to_uint_range bytes : Forall is_byte bytes → length bytes = 4%nat → in_u 32 (to_uint bytes).
Proof.
  intros Hb Hl. pose proof (le_decode_bound (reverse bytes)) as Hd. unfold zlen in Hd.
  rewrite length_reverse, Hl in Hd. apply Hd. by apply Forall_reverse.
Qed.

Lemma expand_address_inj a a' :
  wf_address a → wf_address a' →
  expand_piece (address_piece a) = expand_piece (address_piece a') ↔ without_scope a = without_scope a'.
Proof.
  intros Ha Ha'. destruct a as [b|b s], a' as [b'|b' s']; simpl in *.
  - destruct Ha as [Hl Hb], Ha' as [Hl' Hb']. split; [|by intros [= ->]]. intros Heq. f_equal.
    apply to_uint_inj; [done|done|congruence|]. apply (expand_uint_inj 32); [lia|by apply to_uint_range..|done].
  - split; [|done]. intros Heq. apply (f_equal length) in Heq. rewrite expand_uint_length in Heq.
    destruct Ha' as [Hl' _]. rewrite Hl' in Heq. discriminate.
  - split; [|done]. intros Heq. apply (f_equal length) in Heq. rewrite expand_uint_length in Heq.
    destruct Ha as [Hl _]. rewrite Hl in Heq. discriminate.
  - split; [by intros ->|by intros [= ->]].
Qed.
End expansions.

Definition host_without_scope (host : Host) : Host :=
  match host with
  | host_address a => host_address (without_scope a)
  | host_name name => host_name name
  end.

(** A name that fits into memory *)
Definition wf_host_key (host : Host) : Prop :=
  match host with
  | host_address a => wf_address a
  | host_name name => zlen name < 2 ^ 64
  end.

Lemma expand_host_inj `{!AbslHash} a a' :
  wf_host_key a → wf_host_key a' →
  expand_item (host_item a) = expand_item (host_item a') ↔ host_without_scope a = host_without_scope a'.
Proof.
  intros Ha Ha'. destruct a as [a|n], a' as [a'|n']; simpl in *.
  - split.
    + intros [_ Heq]%expand_variant_inj; [|done..]. by apply expand_address_inj in Heq as ->.
    + intros [= Heq]. by apply expand_address_inj in Heq as ->.
  - split; [|done]. by intros [? _]%expand_variant_inj.
  - split; [|done]. by intros [? _]%expand_variant_inj.
  - split; [|by intros [= ->]]. intros [_ Heq]%expand_variant_inj; [|done..]. f_equal.
    apply expand_string_free; [done|done|by rewrite Heq].
Qed.

(** The items of a value do not show the scope. *)
Lemma address_piece_scope a : address_piece (without_scope a) = address_piece a.
Proof. by destruct a. Qed.

Lemma host_item_scope a : host_item (host_without_scope a) = host_item a.
Proof. destruct a; simpl; [by rewrite address_piece_scope|done]. Qed.

(** What is required of a hash whose values are compared by [eqv]: in any state it makes the
    calls of the items; equivalent values are hashed alike; and for values of [wf], equal
    expansions mean equivalent values. *)
Definition hash_respects `{!AbslHash} {H A} `{!HashState H} (hash : H → A → H) (items : A → list item)
    (wf : A → Prop) (eqv : A → A → Prop) : Prop :=
  hashed_by hash items ∧
  (∀ a a', eqv a a' → ∀ h, hash h a = hash h a') ∧
  (∀ a a', wf a → wf a' → expansion (items a) = expansion (items a') ↔ eqv a a').

(** No expansion is a suffix of that of another value. *)
Definition suffix_free `{!AbslHash} {A} (items : A → list item) (wf : A → Prop) (eqv : A → A → Prop) : Prop :=
  ∀ a a', wf a → wf a' → suffix (expansion (items a)) (expansion (items a')) → eqv a a'.

Definition wf_operation_key (k : Z * Z) : Prop := in_u 64 k.1 ∧ in_u 64 k.2.
Definition wf_connection_key (k : ConnectionKey) : Prop := in_u 16 (port k) ∧ zlen (host k) < 2 ^ 64.
Definition wf_endpoint (e : endpoint) : Prop := wf_address (ep_address e) ∧ in_u 16 (ep_port e).
Definition wf_addr_port (a : AddrPort) : Prop := wf_address (address_ a) ∧ in_u 16 (addr_port_ a).
Definition wf_host_port (p : HostPort) : Prop := wf_host_key (host_ p) ∧ in_u 16 (port_ p).

Definition same_endpoint (e e' : endpoint) : Prop :=
  without_scope (ep_address e) = without_scope (ep_address e') ∧ ep_port e = ep_port e'.
Definition same_addr_port (a a' : AddrPort) : Prop :=
  without_scope (address_ a) = without_scope (address_ a') ∧ addr_port_ a = addr_port_ a'.
Definition same_host_port (p p' : HostPort) : Prop :=
  host_without_scope (host_ p) = host_without_scope (host_ p') ∧ port_ p = port_ p'.

Section values.
Context {H : Type} `{!HashState H} `{!AbslHash}.

(** Equivalent values have the same items. *)
Lemma hash_respects_intro {A} (hash : H → A → H) items (wf : A → Prop) eqv :
  hashed_by hash items → (∀ a a', eqv a a' → items a = items a') →
  (∀ a a', wf a → wf a' → expansion (items a) = expansion (items a') → eqv a a') →
  hash_respects hash items wf eqv.
Proof using Type.
  intros Hh He Hw. split_and!; [done| |].
  - intros a a' Heq h. by rewrite !Hh, (He _ _ Heq).
  - intros a a' Ha Ha'. split; [by apply Hw|]. intros Heq. by rewrite (He _ _ Heq).
Qed.

Lemma suffix_free_inj {A} (items : A → list item) (wf : A → Prop) eqv :
  suffix_free items wf eqv →
  ∀ a a', wf a → wf a' → expansion (items a) = expansion (items a') → eqv a a'.
Proof using Type. intros Hf a a' Ha Ha' Heq. apply Hf; [done|done|by rewrite Heq]. Qed.

Lemma operation_key_free :
  suffix_free operation_key_items wf_operation_key (λ k k', operation_key_eq k k' = true).
Proof using Type.
  intros [a b] [a' b'] [? ?] [? ?] Hs. unfold operation_key_items in Hs. rewrite !expansion_two in Hs. simpl in *.
  apply suffix_snoc_uint in Hs as [Hs Hb]; [|lia|done..].
  apply (suffix_snoc_uint 64 [] []) in Hs as [_ Ha]; [|lia|done..].
  subst. unfold operation_key_eq. by rewrite !Z.eqb_refl.
Qed.

Lemma connection_key_free : suffix_free connection_key_items wf_connection_key (=).
Proof using Type.
  intros [p n t] [p' n' t'] [? ?] [? ?] Hs. unfold connection_key_items in Hs. rewrite !expansion_three in Hs.
  simpl in *. apply suffix_snoc_uint in Hs as [Hs ->]; [|lia|done..].
  apply suffix_snoc_string in Hs as [Hs ->]; [|done..].
  apply (suffix_snoc_uint 32 [] []) in Hs as [_ Hp]; [|lia|by destruct p, p'..].
  by destruct p, p'.
Qed.

(** C33: For every hash state, of which nothing is assumed, AbslHashValue of OperationKey,
    ConnectionKey, endpoint, AddrPort and HostPort makes exactly the combine calls of the
    parts of the value, so equal keys, and endpoints, AddrPorts and HostPorts that are equal
    up to the scope of the address, are hashed alike from any state. Given the expansions
    that absl has for integers, strings and variants, the expansions of different
    OperationKeys and ConnectionKeys are never suffixes of one another, as absl requires, and
    endpoints, AddrPorts and HostPorts have equal expansions exactly when they are equal up
    to the scope of the address. *)
Theorem hash_values :
  suffix_free operation_key_items wf_operation_key (λ k k', operation_key_eq k k' = true) ∧
  hash_respects hash_operation_key operation_key_items wf_operation_key (λ k k', operation_key_eq k k' = true) ∧
  suffix_free connection_key_items wf_connection_key (=) ∧
  hash_respects hash_connection_key connection_key_items wf_connection_key (=) ∧
  hash_respects hash_endpoint endpoint_items wf_endpoint same_endpoint ∧
  hash_respects hash_addr_port addr_port_items wf_addr_port same_addr_port ∧
  hash_respects hash_host_port host_port_items wf_host_port same_host_port.
Proof using Type.
  pose proof operation_key_free as Hop. pose proof connection_key_free as Hck.
  split_and!; [done| |done|..]; apply hash_respects_intro.
  - done.
  - intros [a b] [a' b'] [Ha Hb]%andb_true_iff. simpl in *. by apply Z.eqb_eq in Ha as ->, Hb as ->.
  - by apply suffix_free_inj.
  - done.
  - by intros a a' ->.
  - by apply suffix_free_inj.
  - by intros h [[] ?].
  - intros e e' [Ha Hp]. unfold endpoint_items.
    by rewrite <- (address_piece_scope (ep_address e)), Ha, Hp, address_piece_scope.
  - intros e e' [? ?] [? ?]. unfold endpoint_items. rewrite !expansion_two. simpl.
    rewrite expand_snoc by (done || lia). by rewrite expand_address_inj.
  - by intros h [[] ?].
  - intros e e' [Ha Hp]. unfold addr_port_items.
    by rewrite <- (address_piece_scope (address_ e)), Ha, Hp, address_piece_scope.
  - intros e e' [? ?] [? ?]. unfold addr_port_items. rewrite !expansion_two. simpl.
    rewrite expand_snoc by (done || lia). by rewrite expand_address_inj.
  - by intros h [[[]|] ?].
  - intros e e' [Ha Hp]. unfold host_port_items.
    by rewrite <- (host_item_scope (host_ e)), Ha, Hp, host_item_scope.
  - intros e e' [? ?] [? ?]. unfold host_port_items. rewrite !expansion_two. simpl expand_item at 2 4.
    rewrite expand_snoc by (done || lia). by rewrite expand_host_inj.
Qed.
End values.

(** ** Little endian expansions, and a state that mixes *)

Lemma le_suffix_free n s s' v v' :
  suffix (s ++ le_encode n v) (s' ++ le_encode n v') → suffix s s' ∧ le_encode n v = le_encode n v'.
Proof.
  intros [k Hk]. rewrite (assoc_L (++)) in Hk. apply app_inj_2 in Hk as [-> Hv]; [|by rewrite !le_encode_length].
  split; [by exists k|done].
Qed.

Lemma le_encode_inj n v v' :
  0 ≤ v < 256 ^ Z.of_nat n → 0 ≤ v' < 256 ^ Z.of_nat n → le_encode n v = le_encode n v' → v = v'.
Proof.
  intros Hv Hv' Heq. apply (f_equal le_decode) in Heq. rewrite !le_decode_encode in Heq.
  by rewrite !Z.mod_small in Heq.
Qed.

#[export] Program Instance le_bytes : AbslHash := {
  expand_uint w v := le_encode (Z.to_nat (w / 8)) v;
  expand_string s := s ++ le_encode 8 (zlen s);
  expand_variant i bytes := bytes ++ le_encode 8 i;
}.
Next Obligation. intros w v. apply le_encode_length. Qed.
Next Obligation. intros w v v' [->|[->| ->]] Hv Hv'; by apply le_encode_inj. Qed.
Next Obligation.
  intros s s' Hs Hs' Hk. apply le_suffix_free in Hk as [[k Hk] Hl].
  pose proof (zlen_nonneg s). pose proof (zlen_nonneg s').
  apply le_encode_inj in Hl; [|done..]. rewrite Hk in Hl. rewrite Hk.
  rewrite zlen_app in Hl. destruct k; [done|]. unfold zlen in Hl. simpl in Hl. lia.
Qed.
Next Obligation.
  intros i a i' a' Hi Hi' Heq. apply app_inj_2 in Heq as [-> Heq]; [|by rewrite !le_encode_length].
  by apply le_encode_inj in Heq.
Qed.

(** A state that keeps chunks and integers apart *)
#[export] Instance mixing_state : HashState Z := {
  combine_contiguous h bytes := u64 (h * 31 + zlen bytes * 7 + le_decode bytes);
  combine_uint w h v := u64 (Z.lxor (h * 33) v);
  combine_string h s := u64 (h * 37 + le_decode s);
  combine_variant h i f := u64 (f h * 41 + i);
}.

(** Two addresses on different links hash alike; a v4 address does not have their expansion. *)
Lemma hash_values_witness :
  let link scope := {| address_ := address_v6 (replicate 16 254) scope; addr_port_ := 80 |} in
  let v4 := {| address_ := address_v4 [254; 254; 254; 254]; addr_port_ := 80 |} in
  hash_addr_port 5 (link 1) = hash_addr_port 5 (link 2) ∧
  expansion (addr_port_items (link 1)) ≠ expansion (addr_port_items v4).
Proof.
  destruct (hash_values (H := Z)) as (_ & _ & _ & _ & _ & (_ & Heq & Hap) & _). split.
  - by apply Heq.
  - intros H. apply Hap in H as [H _]; [discriminate|by repeat constructor..].
Defined.
